(* ===== verification/_CoqProject ===== *)
-Q . S2P
Prelude.v
Types.v
Bitmap.v
SlabPool.v
Pools.v
BenchPools.v
Level.v
HashMap.v
Ladder.v
OrderBook.v
BookSpec.v
Matching.v
MatchSpec.v
Liquidity.v
Exchange.v
BookProps.v
BenchEngine.v
BenchBook.v
Engine.v
Account.v
Invariants.v
Risk.v
Wire.v
Protocol.v
Codec.v
BenchCodec.v
Spsc.v
WeakMem.v
Paced.v
SpscWeak.v
FanIn.v
FanInWeak.v
FanInLive.v
Mpsc.v
MpscWeak.v
MpscLive.v
MpscCalls.v
Throughput.v
BenchRings.v
SpscBench.v
Sinks.v
Publisher.v
Text.v
StrongTypes.v
Platform.v
Json.v
Clock.v
Replay.v
Feed.v
Ingress.v
Recording.v
PriceIndex.v
Double.v
Histogram.v
MarketMaker.v
Quoting.v
Arbitrage.v
Vwap.v
Counters.v
Generator.v
BenchIndex.v
BenchPipeline.v
BenchMain.v
BookView.v
ViewJson.v
ViewProps.v
