(* ===== verification/Prelude.v ===== *)
(** * JANE exchange simulator: a verification development

    JANE is a header-only C++23 exchange simulator (src/include/jane).  A
    request enters the replay engine, passes the pre-trade risk gate, is
    matched against a limit order book in price-time priority, and the
    outcome is published as a framed binary market data feed.  Around this
    path sit lock-free queues, allocation pools, metrics, three trading
    strategies, a terminal viewer that records what it shows
    (src/apps/bookview) and the benchmark programs (src/bench).  The
    development models these parts as executable functions and step
    relations and proves what they promise each other.

    ** How the parts interact

<<
      SyntheticOrderGenerator            MarketMaker, Arbitrage, Vwap
                 |  requests                        |  requests
                 v                                  v
      FanInSequencer / SpscRingBuffer / MpscRingBuffer
                 |
                 v
      ReplayEngine ---> RiskEngine            (gate, exposure)
                 |----> MatchingEngine ---> OrderBook ---> LadderSide
                 |                               |              |---> Bitmap
                 |                               |              `---> PriceLevel
                 |                               |---> SlabPool (nodes)
                 |                               `---> hash map (id to node)
                 `----> MarketDataPublisher ---> codec ---> Sink

      bookview: generator ---> ReplayEngine ---> frames, JSON recording
>>

    ** Files, in dependency order

    Shared vocabulary.
    - Prelude: fixed-width integers as [Z] with the wrap written out, sums,
      consecutive sequence numbers, list lemmas, tactics, the [jane] hints.
    - Types: core/types.hpp, order.hpp.  Quantities, prices and ids are
      integers; [StrongAmount] is their wrapping arithmetic.  The enum
      members of an order are the bytes that came in, enumerators or not.
    - StrongTypes: core/strong_type.hpp, the tagged wrappers as declared,
      and that they erase to the integers of Types.
    - Text, Json, Double: what the C++ library prints and parses, a JSON
      reader used as a reference, and the IEEE 754 [double].
    - Platform: core/clock.hpp, version.hpp, concurrency/cache_line.hpp.

    The book.
    - Bitmap: book/bitmap.hpp.  Words of 64 bits, two bit-scan queries.
    - SlabPool, Pools: memory/slab_pool.hpp, memory/pmr_pool.hpp.  A node
      pointer is the index of its slot, the free list is a list of slots.
      The memory resource behind the pmr pool is a parameter.
    - Level: book/order_node.hpp, price_level.hpp.  The intrusive doubly
      linked list, on the pool's storage as a heap; [level_rep] relates
      pointers to the sequence of orders.
    - HashMap: the class for the third-party flat hash map, with its laws;
      [gmap] is an instance.
    - Ladder, OrderBook: book/order_book.hpp, [LadderSide] and [OrderBook].
      [OrderBook.rep] is the representation invariant: bitmap, best index,
      levels, heap, free list, id index and order count agree with one
      sequence of orders per side and price.
    - BookSpec: the book as two lists in price-time priority and the
      refinement of each operation to an operation on these lists.
    - BookProps: the guarantees over any sequence of book calls.
    - PriceIndex: book/price_index_variants.hpp; three indexes, one class.

    The engine.
    - Matching: matching/matching_engine.hpp, every function.
    - MatchSpec, Liquidity: the specification of matching and of the
      fill-or-kill check, and that the loops over the ladder compute them.
    - Exchange: the abstract exchange (two queues and the next match id)
      and the refinement of [submit], [cancel] and [replace].
    - Engine: reachable engines and the theorems about them.
    - Invariants: correctness/invariants.hpp, the structural audit.
    - Risk: risk/risk_engine.hpp.

    The feed.
    - Wire, Protocol, Codec: protocol/messages.hpp and codec.hpp.  A struct
      is its object representation, a buffer is a list of bytes, and a
      decoder is [None] exactly where the code would read past the end.
    - Sinks, Publisher: marketdata/sinks.hpp and publisher.hpp.
    - Recording: [FileSink] behind the whole engine, on a device that may
      run out of room.
    - Clock, Replay: replay/replay_engine.hpp, the clock and the driver.
    - Feed: the theorems about whole runs of the replay engine.

    Concurrency.
    - Spsc, Mpsc: concurrency/spsc_ring_buffer.hpp, mpsc_ring_buffer.hpp.
      The functions, and step relations that split them at every access to
      memory another thread can touch.
    - MpscCalls: whole calls on the multi-producer ring, as a queue.
    - FanIn: concurrency/fan_in_sequencer.hpp, against the class
      [BoundedQueue]; the ring of Spsc is an instance.
    - WeakMem: a release/acquire memory with race detection.
    - SpscWeak, MpscWeak, FanInWeak: the two rings and the fan-in on it,
      with the memory orders of the source.  A ring knows only its own
      locations ([site]), so that many share one memory in FanInWeak.
    - Paced: runs that count the steps of one thread, and the measure
      argument for its progress.
    - MpscLive, FanInLive: progress of the multi-producer ring and of the
      fan-in on the weak memory.
    - Ingress: the exchange put together as docs/architecture.md describes
      it, client threads and sequencer thread in front of the replay engine.
      No code under src/ does so; the document gives the call for a new
      order, the calls for cancels and replaces are the model's.

    Metrics, strategies, order flow.
    - Histogram, Counters: metrics/histogram.hpp, counters.hpp; a [double]
      is a [spec_float] with the IEEE 754 operations.
    - MarketMaker, Arbitrage, Vwap: strategy/*.hpp.
    - Account: what the engine's commands do to one client's position and
      open orders.  Quoting: the market maker trading on the replay engine.
    - Generator: replay/synthetic_generator.hpp.

    Programs.
    - BookView, ViewJson, ViewProps: apps/bookview/main.cpp; the options,
      the loop, the frames on the terminal and in the recording.
    - BenchPools, BenchEngine, BenchBook, BenchIndex, BenchCodec,
      BenchPipeline: the benchmark of the same part in src/bench.
    - Throughput, BenchRings: the queue benchmarks, call by call: a turn of
      a thread is one whole call.  [Channel] is what the producer and
      consumer threads need of a queue; four queues have it.
    - SpscBench: the single-producer benchmark again, over both its rings,
      with the threads interleaved at every access to the weak memory.
    - BenchMain: the benchmarks the queue and price index programs register,
      their loops and item counts, call by call, and the cores their threads
      run on.

    ** What the theorems show

    Matching.  On every reachable engine, [submit], [cancel] and [replace]
    do to the two queues what the abstract exchange does, on every branch
    ([submit_refines], [replace_refines], [cancel_refines]).  Hence the book
    never crosses, quantity is conserved, fills follow price-time priority
    at resting prices, fill-or-kill fills all or nothing, everything
    acceptable is taken before an order rests, and the match loop ends by
    its own condition.

    Book.  Any sequence of calls keeps the representation invariant; level
    aggregates, best prices and depth are those of the orders; an id finds
    exactly its order.  The source's own audit reports nothing on a
    reachable engine, and on one level it is silent exactly when the level
    is well formed.  Bitmap queries are the queries on a set of indices, a
    pool never hands out a live slot, and the three price indexes agree.

    Feed.  What is encoded is decoded back; a decoder reads no byte past
    its buffer, accepts exactly the buffers that start with a frame of its
    type and says of every other what is wrong.  A subscriber who reads the
    bytes and applies the level updates holds exactly the depth of the
    book; sequence numbers are consecutive and each request has one report;
    the trades published and the exposures held by the risk engine are those
    of the fills matching returned, both parties booked.  The report of a
    new order accounts for its quantity, but what it calls open need not be
    ([new_order_report], [dropped_leaves_reported]).  An engaged kill switch
    stops new orders; cancels and replaces do the same whatever the switch
    and the limits are ([replace_bypasses_gate]).  The operations are defined on every message;
    these theorems ask for a side byte that is an enumerator, and without it
    the venue loses cash ([stray_side_loses_cash]).

    Risk.  The gate passes exactly the orders within the limits, and with
    the gate in front of every fill positions stay bounded, if the position
    limit is at most 2^62 or the sum the gate computes fits ([gate_wraps]
    shows what happens otherwise).  Positions and
    cash flows of a closed venue cancel out, marked profits need not.

    Concurrency.  Items leave the rings in the order in which they were
    pushed (for Mpsc: claimed), none lost or duplicated, and no slot is
    accessed by two threads at once.  This holds on the weak memory, where a
    thread may load old values, for both rings and for the fan-in over many
    rings ([spsc_weak_correct], [mpsc_weak_correct], [fan_in_weak_correct]).
    Behind the fan-in, the exchange handles a prefix of each client's
    messages and ends in the state of the sequential pipeline on them
    ([order_entry_correct]).  No thread that reads is ever stuck, and the
    exchange answers: once pushes are visible to the sequencer, a bounded
    number of its own steps handles and reports all of them, and a client
    whose ring was full gets in ([order_entry_served]).  The consumer of the
    multi-producer ring likewise receives every item whose push has
    returned ([mpsc_delivers]).

    Metrics and strategies.  A percentile is the bucket of the order
    statistic of the rank the code computes; the market maker never loses
    track of a live quote, and on the exchange its inventory stays below its
    limit plus one quote ([inventory_bounded]), as long as no other client
    replaces its orders or takes its ids, which the exchange does not check
    ([foreign_replace_unbounded]); VWAP slices add up to the parent, although
    the last can be negative ([last_slice_negative]).  An expression over the
    wrapped prices and quantities has the value of the integer expression,
    wrapped once, and they compare as integers ([strong_types_erase]).

    Viewer.  The session ends on any draws, and its recording parses as JSON
    into frames that show the depth of the real book after as many orders
    as each says ([recording_is_market]).  A recording of the feed cut short
    by a full device reads as a prefix of the feed.

    Benchmarks.  Each measures what it says: iterations do the same work and
    leave the state as they found it, compared designs return the same
    results ([naive_ring_identical], [backends_same_work]).  The
    single-producer throughput run, over either ring and interleaved at every
    memory access, has no race, receives the messages in order, and ends
    ([spsc_benchmark_completes]); every registered throughput run ends call
    by call with every message received once and reports as many items
    ([registered_runs_complete]).  The end-to-end run processes each
    generated order directly between two clock readings and records exactly
    the times between them ([pipeline_measures_every_order]).  The
    multi-producer programs keep their threads on separate cores
    ([mpsc_threads_apart]); the single-producer program does not
    ([spsc_threads_may_share]).

    ** Bounds and fuel

    - Integers have their C++ width.  Theorems that need a sum not to wrap
      say so (for instance that the open quantity of a level is an
      [int64_t]).  Signed overflow, undefined in C++, is computed as two's
      complement, so a theorem without such a bound covers it in that
      reading only.
    - The match loop gets one more step than there are resting orders;
      [match_loop_ends] shows that it stops because its condition fails.
      Ladder walks get the number of levels, [read_feed] the length of its
      input: each step advances at least once.  The audit's walk gets the
      size of the heap and is shown to end.
    - [publish_snapshot] retries at most four times, as the code does.
    - The step relations of Spsc, Mpsc and FanIn are sequentially
      consistent interleavings; SpscWeak, MpscWeak and FanInWeak repeat the
      argument under the memory orders of the source.  Spsc indices may wrap
      any number of times; Mpsc is covered for its first 2^63 claims.
    - Progress on the weak memory assumes that a store becomes visible to a
      thread that keeps loading, as the C++ standard asks of
      implementations: the theorems start where the stores in question have
      become visible ([timely], [room_timely], [consumer_step]) and bound the
      steps of the thread itself.  A poll of the sequencer takes at most
      eight steps, so that [8 * NumProducers + 8] of them go round all
      queues; a ring holds at most [Capacity] items, each served in one round.
      In SpscBench a round is one in which each thread takes at least four
      steps, the accesses of a call, and loads nothing older than the start
      of the round; each round moves a message or the start flag.
    - The clock of the latency benchmarks is any function of the work the
      thread has done so far.
    - Iteration counts of the benchmarks are parameters, or those they are
      registered with: the theorems hold for every count the framework may
      choose.

    ** What is not modelled

    - The host: sleeping, time measured by the benchmark framework, and the
      effect of [reserve] on allocation.  Output streams have no buffer of
      their own: [FileSink] sees a full device at the write, not at a later
      flush, and the viewer's recording is taken to open and to be written.
    - The multi-producer throughput programs below the granularity of calls:
      their queues are modelled access by access (MpscWeak, MpscLive,
      FanInWeak, FanInLive), the programs around them are not.
    - Code that is not in the repository is a parameter with laws, and each
      set of laws has an instance: the hash map, the memory resource, the
      random source, [std::cos], [std::hash], the steady clock, CPU sets.

    ** Next

    The rates of Counters under rounding, lock-freedom of the producers of
    the multi-producer ring, and the multi-producer throughput programs
    access by access are the natural extensions. *)

From Stdlib Require Import Sorted.
From stdpp Require Import base tactics option numbers list gmap.

Set Default Goal Selector "!".

#[global] Arguments Nat.div : simpl never.
#[global] Arguments Nat.modulo : simpl never.
#[global] Arguments Z.pow : simpl never.

(** ** Fixed-width machine integers

    Machine integers are mathematical integers with the wrap-around written
    out.  Unsigned arithmetic wraps in C++; signed overflow is undefined
    there, and [i64] is the two's complement result that the hardware
    computes.  The lemmas [i64_id] and friends say when the wrap is the
    identity. *)

Definition u8 (z : Z) : Z := (z mod 2 ^ 8)%Z.
Definition u16 (z : Z) : Z := (z mod 2 ^ 16)%Z.
Definition u32 (z : Z) : Z := (z mod 2 ^ 32)%Z.
Definition u64 (z : Z) : Z := (z mod 2 ^ 64)%Z.
Definition i64 (z : Z) : Z := ((z + 2 ^ 63) mod 2 ^ 64 - 2 ^ 63)%Z.

Definition is_u8 (z : Z) : Prop := (0 ≤ z < 2 ^ 8)%Z.
Definition is_u16 (z : Z) : Prop := (0 ≤ z < 2 ^ 16)%Z.
Definition is_u32 (z : Z) : Prop := (0 ≤ z < 2 ^ 32)%Z.
Definition is_u64 (z : Z) : Prop := (0 ≤ z < 2 ^ 64)%Z.
Definition is_i64 (z : Z) : Prop := (- 2 ^ 63 ≤ z < 2 ^ 63)%Z.

(** [~x] on a 64-bit unsigned word. *)
Definition u64_not (x : Z) : Z := Z.land (Z.lnot x) (Z.ones 64).

(** Linear arithmetic with [/] and [mod] by constants made available. *)
Ltac zlia :=
  Z.div_mod_to_equations; lia.

Ltac unfold_ints :=
  unfold is_u8, is_u16, is_u32, is_u64, is_i64, u8, u16, u32, u64, i64 in *.

Section ints.
Local Open Scope Z_scope.

Lemma u32_id z : is_u32 z → u32 z = z.
Proof. unfold_ints. intros. by apply Z.mod_small. Qed.

Lemma u64_id z : is_u64 z → u64 z = z.
Proof. unfold_ints. intros. by apply Z.mod_small. Qed.

Lemma u64_range z : is_u64 (u64 z).
Proof. unfold_ints. apply Z.mod_pos_bound. lia. Qed.

Lemma u32_range z : is_u32 (u32 z).
Proof. unfold_ints. apply Z.mod_pos_bound. lia. Qed.

Lemma i64_id z : is_i64 z → i64 z = z.
Proof. unfold_ints. intros. rewrite Z.mod_small; lia. Qed.

Lemma i64_range z : is_i64 (i64 z).
Proof.
  unfold_ints. pose proof (Z.mod_pos_bound (z + 2 ^ 63) (2 ^ 64)). lia.
Qed.

(** The result of [i64] is the argument plus a multiple of [2^64]. *)
Lemma i64_spec z : ∃ k, i64 z = z + k * 2 ^ 64.
Proof.
  exists (- ((z + 2 ^ 63) / 2 ^ 64)). unfold i64.
  rewrite Z.mod_eq by lia. lia.
Qed.

Lemma i64_le z : - 2 ^ 63 ≤ z → i64 z ≤ z.
Proof.
  intros. unfold i64.
  pose proof (Z.mod_le (z + 2 ^ 63) (2 ^ 64)). lia.
Qed.

Lemma i64_eqm a b k : a = b + k * 2 ^ 64 → i64 a = i64 b.
Proof.
  intros ->. unfold i64. f_equal.
  replace (b + k * 2 ^ 64 + 2 ^ 63) with (b + 2 ^ 63 + k * 2 ^ 64) by lia.
  apply Z_mod_plus_full.
Qed.

Lemma i64_add_l a b : i64 (i64 a + b) = i64 (a + b).
Proof. destruct (i64_spec a) as [k ->]. apply (i64_eqm _ _ k). lia. Qed.

Lemma i64_add_r a b : i64 (a + i64 b) = i64 (a + b).
Proof. rewrite Z.add_comm, i64_add_l. f_equal. lia. Qed.

Lemma i64_sub_l a b : i64 (i64 a - b) = i64 (a - b).
Proof. destruct (i64_spec a) as [k ->]. apply (i64_eqm _ _ k). lia. Qed.

Lemma u32_add_l a b : u32 (u32 a + b) = u32 (a + b).
Proof. unfold u32. by rewrite Zplus_mod_idemp_l. Qed.

Lemma u64_add_l a b : u64 (u64 a + b) = u64 (a + b).
Proof. unfold u64. by rewrite Zplus_mod_idemp_l. Qed.
End ints.

(** ** Shared automation *)

Create HintDb jane discriminated.

#[export] Hint Resolve u32_range u64_range i64_range : jane.

(** Case analysis on the scrutinee of a [match] or [if] of the goal,
    keeping the equation. *)
Ltac case_goal :=
  match goal with
  | |- context [match ?x with _ => _ end] =>
      match x with
      | context [match _ with _ => _ end] => fail 1
      | _ => destruct x eqn:?
      end
  end.

(** Boolean comparisons of [Z] and [nat] in hypotheses become propositions. *)
Ltac bool_to_prop :=
  repeat match goal with
  | H : (_ <? _)%Z = true |- _ => apply Z.ltb_lt in H
  | H : (_ <? _)%Z = false |- _ => apply Z.ltb_ge in H
  | H : (_ <=? _)%Z = true |- _ => apply Z.leb_le in H
  | H : (_ <=? _)%Z = false |- _ => apply Z.leb_gt in H
  | H : (_ =? _)%Z = true |- _ => apply Z.eqb_eq in H
  | H : (_ =? _)%Z = false |- _ => apply Z.eqb_neq in H
  | H : (_ <? _)%nat = true |- _ => apply Nat.ltb_lt in H
  | H : (_ <? _)%nat = false |- _ => apply Nat.ltb_ge in H
  | H : (_ <=? _)%nat = true |- _ => apply Nat.leb_le in H
  | H : (_ <=? _)%nat = false |- _ => apply Nat.leb_gt in H
  | H : (_ =? _)%nat = true |- _ => apply Nat.eqb_eq in H
  | H : (_ =? _)%nat = false |- _ => apply Nat.eqb_neq in H
  | H : _ && _ = true |- _ => apply andb_true_iff in H as [? ?]
  | H : _ || _ = false |- _ => apply orb_false_iff in H as [? ?]
  | H : negb _ = true |- _ => apply negb_true_iff in H
  | H : negb _ = false |- _ => apply negb_false_iff in H
  | H : bool_decide _ = true |- _ => apply bool_decide_eq_true in H
  | H : bool_decide _ = false |- _ => apply bool_decide_eq_false in H
  end.

(** ** Sums of integers over a list *)

Definition zsum (l : list Z) : Z := foldr Z.add 0%Z l.

Section zsum.
Local Open Scope Z_scope.

Lemma zsum_cons x l : zsum (x :: l) = x + zsum l.
Proof. done. Qed.

Lemma zsum_app l k : zsum (l ++ k) = zsum l + zsum k.
Proof. induction l as [|x l IH]; simpl in *; [done|]. rewrite IH. lia. Qed.

Lemma zsum_nonneg l : Forall (λ x, 0 ≤ x) l → 0 ≤ zsum l.
Proof. induction 1; simpl in *; lia. Qed.

Lemma zsum_perm l k : l ≡ₚ k → zsum l = zsum k.
Proof. induction 1; simpl in *; lia. Qed.
End zsum.

(** ** Numbers handed out by a 64-bit counter

    [l] are the values a counter at [n] hands out, [n'] where it stands
    afterwards. *)
Definition consecutive (n : Z) (l : list Z) (n' : Z) : Prop :=
  n' = u64 (n + Z.of_nat (length l)) ∧
  ∀ k x, l !! k = Some x → x = u64 (n + Z.of_nat k).

Lemma consecutive_nil n : is_u64 n → consecutive n [] n.
Proof. intros Hn. split; [|done]. simpl. by rewrite Z.add_0_r, u64_id. Qed.

Lemma consecutive_one n : is_u64 n → consecutive n [n] (u64 (n + 1)).
Proof.
  intros Hn. split; [done|]. intros [|k] x Hk; [|done]. injection Hk as <-. simpl.
  by rewrite Z.add_0_r, u64_id.
Qed.

Lemma consecutive_app n l n' k n'' :
  consecutive n l n' → consecutive n' k n'' → consecutive n (l ++ k) n''.
Proof.
  intros [-> Hf] [-> Hg]. split.
  - rewrite u64_add_l, length_app. f_equal. lia.
  - intros i x [Hk|[Hle Hk]]%lookup_app_Some; [by apply Hf|].
    rewrite (Hg _ _ Hk), u64_add_l. f_equal. lia.
Qed.

Lemma consecutive_u64 n l n' : is_u64 n → consecutive n l n' → is_u64 n'.
Proof. intros _ [-> _]. apply u64_range. Qed.

(** Two different numbers of a window of [c] differ modulo [c]. *)
Lemma mod_window_ne c a b : a < b → b < a + c → a mod c ≠ b mod c.
Proof.
  intros H1 H2 E. pose proof (Nat.div_mod_eq a c) as Ha.
  pose proof (Nat.div_mod_eq b c) as Hb. rewrite E in Ha.
  revert Ha Hb. generalize (a / c) as qa, (b / c) as qb, (b mod c) as r.
  intros qa qb r Ha Hb. destruct (decide (qb ≤ qa)); nia.
Qed.

(** ** Lists used as arrays *)

Section lists.
Context {A : Type}.
Implicit Types (l : list A).

(** Concatenating the images of a list of keys. *)
Section concat.
Context {K : Type}.
Implicit Types (f : K → list A) (ks : list K).

Lemma elem_of_concat_fmap f ks x : x ∈ concat (f <$> ks) ↔ ∃ k, k ∈ ks ∧ x ∈ f k.
Proof.
  induction ks as [|k ks IH]; simpl; [set_solver|].
  rewrite elem_of_app, IH. set_solver.
Qed.

Lemma NoDup_concat_fmap f ks :
  NoDup ks → (∀ k, k ∈ ks → NoDup (f k)) →
  (∀ k k' x, x ∈ f k → x ∈ f k' → k = k') → NoDup (concat (f <$> ks)).
Proof.
  induction 1 as [|k ks Hk Hks IH]; intros Hf Hd; simpl; [constructor|].
  apply NoDup_app. split_and!; [apply Hf; set_solver| |apply IH; [set_solver|done]].
  intros x Hx (k'&Hk'&Hx')%elem_of_concat_fmap.
  rewrite (Hd _ _ _ Hx Hx') in Hk. done.
Qed.

Lemma length_concat_fmap {B} f (g : K → list B) ks :
  (∀ k, k ∈ ks → length (f k) = length (g k)) →
  length (concat (f <$> ks)) = length (concat (g <$> ks)).
Proof.
  induction ks as [|k ks IH]; intros H; [done|].
  rewrite !fmap_cons. cbn [concat].
  rewrite !length_app, (H k) by set_solver. f_equal. apply IH. set_solver.
Qed.
End concat.

Lemma lookup_total_alt_default `{!Inhabited A} l i :
  l !!! i = default inhabitant (l !! i).
Proof. apply list_lookup_total_alt. Qed.

Lemma lookup_lt_is_Some_total `{!Inhabited A} l i :
  i < length l → l !! i = Some (l !!! i).
Proof. intros. by apply list_lookup_lookup_total_lt. Qed.

(** Filters that keep nothing or everything, and filters of permutations. *)
Lemma list_filter_nil (f : A → bool) l : (∀ x, x ∈ l → f x = false) → List.filter f l = [].
Proof.
  induction l as [|x l IH]; intros Hl; [done|]. cbn. rewrite Hl by set_solver.
  apply IH. set_solver.
Qed.

Lemma list_filter_all (f : A → bool) l : (∀ x, x ∈ l → f x = true) → List.filter f l = l.
Proof.
  induction l as [|x l IH]; intros Hl; [done|]. cbn. rewrite Hl by set_solver.
  f_equal. apply IH. set_solver.
Qed.

Lemma filter_perm (f : A → bool) l k :
  l ≡ₚ k → length (List.filter f l) = length (List.filter f k).
Proof.
  induction 1 as [|x l k H IH|x y l|l k m H1 IH1 H2 IH2]; cbn; [done| | |congruence].
  - destruct (f x); cbn; congruence.
  - by destruct (f x), (f y).
Qed.

(** Two positions of a sorted list. *)
Lemma StronglySorted_lookup_le (R : A → A → Prop) l i j x y :
  StronglySorted R l → l !! i = Some x → l !! j = Some y → i < j → R x y.
Proof.
  intros Hs. revert i j. induction Hs as [|z l Hs IH Hz]; intros i j Hi Hj Hij; [done|].
  destruct j as [|j]; [lia|]. destruct i as [|i]; cbn in *.
  - injection Hi as ->. eapply Forall_forall in Hz; [exact Hz|]. by eapply list_elem_of_lookup_2.
  - eapply IH; [exact Hi|exact Hj|lia].
Qed.
End lists.
