(* ===== verification/Types.v ===== *)
(** * Core vocabulary (src/include/jane/core)

    The strong types of core/types.hpp are integers with a unit; the model
    keeps them as [Z] and writes the width of each arithmetic operation out
    through [StrongAmount].  [Order] is core/order.hpp.

    The enumerations have a byte as underlying type, and the messages that
    carry them are copied from the wire without a check, so every byte is a
    possible value.  The code only ever compares a side with an enumerator;
    it also passes the byte on, so [Order] keeps the byte.  Order types and
    times in force are only compared, and the bytes that are no enumerators
    are a constructor of their own. *)

From S2P Require Import Prelude.
From stdpp Require Import base tactics numbers list.

Set Default Goal Selector "!".

(** ** [StrongAmount<int64_t, Tag>]: Price, Quantity, Nanos, PnL *)
Module StrongAmount.
Definition add (a b : Z) : Z := i64 (a + b).
Definition sub (a b : Z) : Z := i64 (a - b).
Definition opp (a : Z) : Z := i64 (- a).
Definition mul (a s : Z) : Z := i64 (a * s).
End StrongAmount.

Inductive Side := Buy | Sell.
Inductive OrderType := Limit | Market | OtherType (b : Z).
Inductive TimeInForce := Day | IOC | FOK | OtherTif (b : Z).

Inductive RejectReason :=
  | RejNone
  | InvalidPrice
  | InvalidQuantity
  | UnknownSymbol
  | UnknownOrder
  | DuplicateOrderId
  | FokNotFillable
  | BookCapacityExceeded
  | RiskMaxOrderSize
  | RiskMaxPosition
  | RiskMaxLoss
  | RiskKillSwitch.

#[export] Instance Side_eq_dec : EqDecision Side.
Proof. solve_decision. Defined.
#[export] Instance OrderType_eq_dec : EqDecision OrderType.
Proof. solve_decision. Defined.
#[export] Instance TimeInForce_eq_dec : EqDecision TimeInForce.
Proof. solve_decision. Defined.
#[export] Instance RejectReason_eq_dec : EqDecision RejectReason.
Proof. solve_decision. Defined.

(** *** The bytes of the enumerators *)

Definition side_code (s : Side) : Z := match s with Buy => 0 | Sell => 1 end.
Definition order_type_code (t : OrderType) : Z :=
  match t with Limit => 0 | Market => 1 | OtherType b => b end.
Definition tif_code (t : TimeInForce) : Z :=
  match t with Day => 0 | IOC => 1 | FOK => 2 | OtherTif b => b end.
Definition reject_code (r : RejectReason) : Z :=
  match r with
  | RejNone => 0 | InvalidPrice => 1 | InvalidQuantity => 2 | UnknownSymbol => 3
  | UnknownOrder => 4 | DuplicateOrderId => 5 | FokNotFillable => 6 | BookCapacityExceeded => 7
  | RiskMaxOrderSize => 8 | RiskMaxPosition => 9 | RiskMaxLoss => 10 | RiskKillSwitch => 11
  end.

(** The value of a byte. *)
Definition order_type_of_byte (b : Z) : OrderType :=
  if (b =? 0)%Z then Limit else if (b =? 1)%Z then Market else OtherType b.
Definition tif_of_byte (b : Z) : TimeInForce :=
  if (b =? 0)%Z then Day else if (b =? 1)%Z then IOC
  else if (b =? 2)%Z then FOK else OtherTif b.

(** How the book and the engine read a side: they compare it with [Buy]. *)
Definition read_side (b : Z) : Side := if (b =? side_code Buy)%Z then Buy else Sell.

(** The byte is an enumerator. *)
Definition is_side (b : Z) : Prop := b = side_code Buy ∨ b = side_code Sell.

Definition opposite (s : Side) : Side :=
  if decide (s = Buy) then Sell else Buy.

(** ** The domain order *)
Record Order := mkOrder {
  ord_id : Z;
  ord_client : Z;
  ord_symbol : Z;
  ord_side_byte : Z;
  ord_type : OrderType;
  ord_tif : TimeInForce;
  ord_price : Z;
  ord_quantity : Z;
  ord_remaining : Z;
  ord_sequence : Z;
  ord_timestamp : Z;
}.

(** The side of the book an order belongs to. *)
Definition ord_side (o : Order) : Side := read_side (ord_side_byte o).

(** [Order{}]: every member initialised by its default. *)
Definition default_order : Order :=
  mkOrder 0 0 0 (side_code Buy) Limit Day 0 0 0 0 0.

#[export] Instance Order_inhabited : Inhabited Order := populate default_order.

#[export] Instance Order_eq_dec : EqDecision Order.
Proof. solve_decision. Defined.

Definition set_remaining (r : Z) (o : Order) : Order :=
  mkOrder (ord_id o) (ord_client o) (ord_symbol o) (ord_side_byte o) (ord_type o)
    (ord_tif o) (ord_price o) (ord_quantity o) r (ord_sequence o) (ord_timestamp o).

(** The copy both [replace] functions make of the resting order: new price
    and quantity, everything open again, new sequence and timestamp. *)
Definition retermed (o : Order) (price qty seq ts : Z) : Order :=
  mkOrder (ord_id o) (ord_client o) (ord_symbol o) (ord_side_byte o) (ord_type o)
    (ord_tif o) price qty qty seq ts.

Lemma ord_side_remaining r o : ord_side (set_remaining r o) = ord_side o.
Proof. done. Qed.

Lemma ord_side_retermed o price qty seq ts : ord_side (retermed o price qty seq ts) = ord_side o.
Proof. done. Qed.

Definition is_filled (o : Order) : bool := (ord_remaining o =? 0)%Z.
Definition filled_quantity (o : Order) : Z :=
  StrongAmount.sub (ord_quantity o) (ord_remaining o).

(** The range the C++ types give the amounts of an order. *)
Definition order_typed (o : Order) : Prop :=
  is_i64 (ord_price o) ∧ is_i64 (ord_quantity o) ∧ is_i64 (ord_remaining o).

Lemma read_side_code s : read_side (side_code s) = s.
Proof. by destruct s. Qed.

Lemma is_side_code b : is_side b → side_code (read_side b) = b.
Proof. by intros [-> | ->]. Qed.

Lemma side_code_is s : is_side (side_code s).
Proof. destruct s; [by left|by right]. Qed.

Lemma side_code_u8 s : is_u8 (side_code s).
Proof. destruct s; unfold is_u8; cbn; lia. Qed.

Lemma opposite_Buy : opposite Buy = Sell.
Proof. done. Qed.

Lemma opposite_Sell : opposite Sell = Buy.
Proof. done. Qed.

(** Case analysis on a side with [opposite] computed. *)
Ltac case_side s :=
  destruct s; rewrite ?opposite_Buy, ?opposite_Sell in *.

Lemma opposite_involutive s : opposite (opposite s) = s.
Proof. by destruct s. Qed.

Lemma opposite_ne s : opposite s ≠ s.
Proof. by destruct s. Qed.

Lemma amount_sub_small a b :
  (0 ≤ b)%Z → (b ≤ a)%Z → is_i64 a → StrongAmount.sub a b = (a - b)%Z.
Proof. intros. unfold StrongAmount.sub. apply i64_id. unfold_ints. lia. Qed.

#[export] Hint Resolve opposite_ne : jane.
