(* ===== verification/Bitmap.v ===== *)
(** * The occupancy bitmap (src/include/jane/book/bitmap.hpp)

    A vector of 64-bit words with the two bit-scan queries the price ladder
    needs.  The theorems compare both queries with the plain set of indices
    whose bit is set. *)

From S2P Require Import Prelude.
From stdpp Require Import base tactics numbers list.

Set Default Goal Selector "!".

Module Bitmap.

Record t := mk { num_bits : nat; words : list Z }.

Definition create (n : nat) : t := mk n (replicate ((n + 63) / 64) 0%Z).

(** [uint64_t{1} << k] for [k < 64]. *)
Definition bit (k : nat) : Z := Z.shiftl 1 (Z.of_nat k).

(** [words_[k]]; reading past the end is undefined in C++, the model reads
    an empty word there. *)
Definition word_at (ws : list Z) (k : nat) : Z := default 0%Z (ws !! k).

Definition set (bm : t) (i : nat) : t :=
  mk (num_bits bm) (alter (λ w, Z.lor w (bit (i mod 64)%nat)) (i / 64) (words bm)).

Definition clear (bm : t) (i : nat) : t :=
  mk (num_bits bm)
     (alter (λ w, Z.land w (u64_not (bit (i mod 64)%nat))) (i / 64) (words bm)).

Definition test (bm : t) (i : nat) : bool :=
  negb (Z.land (Z.shiftr (word_at (words bm) (i / 64)%nat) (Z.of_nat (i mod 64)%nat)) 1 =? 0)%Z.

(** <bit>: leading and trailing zero counts of a 64-bit word. *)
Definition countl_zero (w : Z) : Z := if (w =? 0)%Z then 64 else 63 - Z.log2 w.

Fixpoint pos_trailing (p : positive) : Z :=
  match p with xO q => 1 + pos_trailing q | _ => 0 end.

Definition countr_zero (w : Z) : Z :=
  match w with Z.pos p => pos_trailing p | _ => 64 end.

(** The downward loop of [find_highest_at_or_below]: [w] is the masked
    first word, [word_idx] counts down to zero. *)
Fixpoint scan_down (ws : list Z) (word_idx : nat) (w : Z) : option nat :=
  if (w =? 0)%Z then
    match word_idx with
    | O => None
    | S k => scan_down ws k (word_at ws k)
    end
  else Some (word_idx * 64 + Z.to_nat (63 - countl_zero w)).

Definition find_highest_at_or_below (bm : t) (i : nat) : option nat :=
  if (num_bits bm =? 0) then None
  else
    let i := if (num_bits bm <=? i) then num_bits bm - 1 else i in
    let word_idx := i / 64 in
    let bit_in_word := i mod 64 in
    let first_mask :=
      if (bit_in_word =? 63) then u64_not 0
      else (bit (bit_in_word + 1) - 1)%Z in
    scan_down (words bm) word_idx (Z.land (word_at (words bm) word_idx) first_mask).

(** The upward loop of [find_lowest_at_or_above]; [fuel] bounds the number
    of words still to visit. *)
Fixpoint scan_up (ws : list Z) (fuel : nat) (word_idx : nat) (w : Z) : option nat :=
  if (w =? 0)%Z then
    match fuel with
    | O => None
    | S fuel =>
        if (length ws <=? S word_idx) then None
        else scan_up ws fuel (S word_idx) (word_at ws (S word_idx))
    end
  else Some (word_idx * 64 + Z.to_nat (countr_zero w)).

Definition find_lowest_at_or_above (bm : t) (i : nat) : option nat :=
  if (num_bits bm <=? i) then None
  else
    let word_idx := i / 64 in
    let bit_in_word := i mod 64 in
    let first_mask := u64 (Z.shiftl (u64_not 0) (Z.of_nat bit_in_word)) in
    scan_up (words bm) (length (words bm)) word_idx
      (Z.land (word_at (words bm) word_idx) first_mask).

Definition size (bm : t) : nat := num_bits bm.

(** ** Well-formedness: the vector has the right length, every word is a
    64-bit value, and no bit at or above [num_bits] is set. *)
Record wf (bm : t) : Prop := {
  wf_length : length (words bm) = (num_bits bm + 63) / 64;
  wf_words : ∀ k w, words bm !! k = Some w → is_u64 w;
  wf_high : ∀ i, num_bits bm ≤ i → test bm i = false;
}.

(** ** Reference queries over the set of indices

    [is_highest f i o]: [o] is the greatest index at or below [i] on which
    [f] holds, [None] if there is none; [is_lowest] is its mirror image. *)
Definition is_highest (f : nat → bool) (i : nat) (o : option nat) : Prop :=
  match o with
  | Some j => j ≤ i ∧ f j = true ∧ ∀ k, j < k → k ≤ i → f k = false
  | None => ∀ k, k ≤ i → f k = false
  end.

Definition is_lowest (f : nat → bool) (i : nat) (o : option nat) : Prop :=
  match o with
  | Some j => i ≤ j ∧ f j = true ∧ ∀ k, i ≤ k → k < j → f k = false
  | None => ∀ k, i ≤ k → f k = false
  end.

Lemma is_highest_unique f i o1 o2 :
  is_highest f i o1 → is_highest f i o2 → o1 = o2.
Proof.
  destruct o1 as [j1|], o2 as [j2|]; simpl; intros H1 H2; try done.
  - destruct H1 as (?&E1&U1), H2 as (?&E2&U2). f_equal.
    destruct (lt_eq_lt_dec j1 j2) as [[?|?]|?]; [|done|].
    + rewrite U1 in E2; [done|lia|lia].
    + rewrite U2 in E1; [done|lia|lia].
  - destruct H1 as (?&E&_). rewrite H2 in E; [done|lia].
  - destruct H2 as (?&E&_). rewrite H1 in E; [done|lia].
Qed.

Lemma is_lowest_unique f i o1 o2 :
  is_lowest f i o1 → is_lowest f i o2 → o1 = o2.
Proof.
  destruct o1 as [j1|], o2 as [j2|]; simpl; intros H1 H2; try done.
  - destruct H1 as (?&E1&U1), H2 as (?&E2&U2). f_equal.
    destruct (lt_eq_lt_dec j1 j2) as [[?|?]|?]; [|done|].
    + rewrite U2 in E1; [done|lia|lia].
    + rewrite U1 in E2; [done|lia|lia].
  - destruct H1 as (?&E&_). rewrite H2 in E; [done|lia].
  - destruct H2 as (?&E&_). rewrite H1 in E; [done|lia].
Qed.

(** ** Word-level facts *)

Lemma bit_testbit k j :
  (0 ≤ j)%Z → Z.testbit (bit k) j = bool_decide (j = Z.of_nat k).
Proof.
  intros. unfold bit. rewrite Z.shiftl_1_l, Z.pow2_bits_eqb by lia.
  case_bool_decide; [apply Z.eqb_eq|apply Z.eqb_neq]; lia.
Qed.

Lemma u64_not_testbit x j :
  (0 ≤ j < 64)%Z → Z.testbit (u64_not x) j = negb (Z.testbit x j).
Proof.
  intros. unfold u64_not.
  rewrite Z.land_spec, Z.lnot_spec, Z.ones_spec_low by lia.
  by rewrite andb_true_r.
Qed.

Lemma u64_not_range x : is_u64 (u64_not x).
Proof.
  unfold u64_not, is_u64. rewrite Z.land_ones by lia.
  apply Z.mod_pos_bound. lia.
Qed.

Lemma is_u64_testbit w j : is_u64 w → (64 ≤ j)%Z → Z.testbit w j = false.
Proof.
  unfold is_u64. intros [? ?] ?.
  destruct (decide (w = 0)%Z) as [->|]; [apply Z.testbit_0_l|].
  apply Z.bits_above_log2; [lia|].
  assert (Z.log2 w < 64)%Z by (apply Z.log2_lt_pow2; lia). lia.
Qed.

Lemma is_u64_of_bits w :
  (0 ≤ w)%Z → (∀ j, (64 ≤ j)%Z → Z.testbit w j = false) → is_u64 w.
Proof.
  intros Hw H. unfold is_u64. split; [done|].
  destruct (decide (w = 0)%Z) as [->|]; [lia|].
  apply Z.log2_lt_cancel. rewrite Z.log2_pow2 by lia.
  destruct (decide (Z.log2 w < 64)%Z) as [|Hge]; [done|].
  pose proof (H (Z.log2 w)) as E. rewrite Z.bit_log2 in E by lia.
  discriminate E. lia.
Qed.

Lemma word_zero_bits w : w = 0%Z ↔ ∀ j, (0 ≤ j)%Z → Z.testbit w j = false.
Proof.
  split; [intros -> j _; apply Z.testbit_0_l|].
  intros H. apply Z.bits_inj'. intros j Hj. by rewrite H, Z.testbit_0_l.
Qed.

Lemma pos_trailing_nonneg p : (0 ≤ pos_trailing p)%Z.
Proof. induction p; simpl; lia. Qed.

Lemma countr_zero_spec w :
  (0 < w)%Z →
  (0 ≤ countr_zero w)%Z ∧ Z.testbit w (countr_zero w) = true ∧
  ∀ j, (0 ≤ j < countr_zero w)%Z → Z.testbit w j = false.
Proof.
  destruct w as [|p|p]; [lia| |lia]. intros _. unfold countr_zero.
  split; [apply pos_trailing_nonneg|].
  induction p as [p IH|p IH|]; simpl pos_trailing.
  - split; [done|]. intros; lia.
  - destruct IH as [IH1 IH2]. pose proof (pos_trailing_nonneg p).
    change (Z.pos p~0) with (2 * Z.pos p)%Z. split.
    + replace (1 + pos_trailing p)%Z with (Z.succ (pos_trailing p)) by lia.
      by rewrite Z.testbit_even_succ.
    + intros j ?. destruct (decide (j = 0)%Z) as [->|].
      * apply Z.testbit_even_0.
      * replace j with (Z.succ (j - 1))%Z by lia.
        rewrite Z.testbit_even_succ by lia. apply IH2. lia.
  - split; [done|]. intros; lia.
Qed.

Lemma countl_zero_spec w :
  (0 < w)%Z →
  Z.testbit w (63 - countl_zero w) = true ∧
  (0 ≤ 63 - countl_zero w)%Z ∧
  ∀ j, (63 - countl_zero w < j)%Z → Z.testbit w j = false.
Proof.
  intros. unfold countl_zero. rewrite (proj2 (Z.eqb_neq w 0)) by lia.
  replace (63 - (63 - Z.log2 w))%Z with (Z.log2 w) by lia.
  split_and!; [apply Z.bit_log2; lia|apply Z.log2_nonneg|].
  intros. apply Z.bits_above_log2; lia.
Qed.

(** The bit of index [i] in a vector of words. *)
Definition bit_at (ws : list Z) (i : nat) : bool :=
  Z.testbit (word_at ws (i / 64)%nat) (Z.of_nat (i mod 64)%nat).

Lemma test_bit_at bm i : test bm i = bit_at (words bm) i.
Proof.
  unfold test, bit_at. set (w := word_at _ _). set (k := Z.of_nat _).
  change 1%Z with (Z.ones 1). rewrite Z.land_ones by lia.
  change (2 ^ 1)%Z with 2%Z. rewrite <- Z.bit0_mod.
  rewrite Z.shiftr_spec by lia. rewrite Z.add_0_l.
  by destruct (Z.testbit w k).
Qed.

Lemma index_split i : i = 64 * (i / 64) + i mod 64 ∧ i mod 64 < 64.
Proof.
  split; [apply Nat.div_mod_eq|]. apply Nat.mod_upper_bound. lia.
Qed.

Lemma index_eq i j : i / 64 = j / 64 → i mod 64 = j mod 64 → i = j.
Proof.
  intros. pose proof (index_split i) as [Hi _].
  pose proof (index_split j) as [Hj _]. lia.
Qed.

Lemma index_mk q r : r < 64 → (q * 64 + r) / 64 = q ∧ (q * 64 + r) mod 64 = r.
Proof.
  intros. split.
  - rewrite Nat.div_add_l by lia. rewrite Nat.div_small; lia.
  - rewrite Nat.add_comm, Nat.Div0.mod_add. by apply Nat.mod_small.
Qed.

(** ** The word loops *)

(** What the loop sees of index [k]: the masked word [w] at [idx], the
    vector elsewhere. *)
Definition seen (ws : list Z) (idx : nat) (w : Z) (k : nat) : bool :=
  if decide (k / 64 = idx) then Z.testbit w (Z.of_nat (k mod 64)%nat)
  else bit_at ws k.

Lemma seen_self ws idx k : seen ws idx (word_at ws idx) k = bit_at ws k.
Proof. unfold seen, bit_at. by case_decide; simplify_eq. Qed.

(** A non-zero word ends the loop at its highest, respectively lowest, bit. *)
Lemma scan_down_hit ws idx w :
  is_u64 w → w ≠ 0%Z →
  is_highest (seen ws idx w) (idx * 64 + 63)
    (Some (idx * 64 + Z.to_nat (63 - countl_zero w))).
Proof.
  intros Hw Hnz.
  destruct (countl_zero_spec w) as (Hb&Hge&Hhi); [unfold is_u64 in Hw; lia|].
  assert (63 - countl_zero w < 64)%Z as Hlt.
  { destruct (decide (63 - countl_zero w < 64)%Z); [done|].
    rewrite is_u64_testbit in Hb by (done || lia). done. }
  set (r := Z.to_nat (63 - countl_zero w)).
  destruct (index_mk idx r) as [Hd Hm]; [unfold r; lia|].
  split_and!; [unfold r; lia| |].
  - unfold seen. rewrite decide_True by done. rewrite Hm. unfold r.
    rewrite Z2Nat.id by lia. done.
  - intros k ? ?. unfold seen. pose proof (index_split k).
    rewrite decide_True by lia. apply Hhi. unfold r in *. lia.
Qed.

Lemma scan_up_hit ws idx w :
  is_u64 w → w ≠ 0%Z →
  is_lowest (seen ws idx w) (idx * 64)
    (Some (idx * 64 + Z.to_nat (countr_zero w))).
Proof.
  intros Hw Hnz.
  destruct (countr_zero_spec w) as (Hge&Hb&Hlo); [unfold is_u64 in Hw; lia|].
  assert (countr_zero w < 64)%Z as Hlt.
  { destruct (decide (countr_zero w < 64)%Z); [done|].
    rewrite is_u64_testbit in Hb by (done || lia). done. }
  set (r := Z.to_nat (countr_zero w)).
  destruct (index_mk idx r) as [Hd Hm]; [unfold r; lia|].
  split_and!; [unfold r; lia| |].
  - unfold seen. rewrite decide_True by done. rewrite Hm. unfold r.
    rewrite Z2Nat.id by lia. done.
  - intros k ? ?. unfold seen. pose proof (index_split k).
    rewrite decide_True by lia. apply Hlo. unfold r in *. lia.
Qed.

Lemma scan_down_spec ws idx w :
  (∀ k, is_u64 (word_at ws k)) → is_u64 w →
  is_highest (seen ws idx w) (idx * 64 + 63) (scan_down ws idx w).
Proof.
  intros Hws. revert w. induction idx as [|idx IH]; intros w Hw; simpl scan_down.
  all: destruct (Z.eqb_spec w 0) as [->|Hnz];
    [|by apply scan_down_hit].
  - intros k Hk. unfold seen. pose proof (index_split k).
    rewrite decide_True by lia. apply Z.testbit_0_l.
  - pose proof (IH (word_at ws idx) (Hws _)) as H.
    destruct (scan_down ws idx (word_at ws idx)) as [j|]; unfold is_highest in *.
    + destruct H as (?&Hj&Hu). rewrite seen_self in Hj.
      pose proof (index_split j). split_and!; [lia| |].
      * unfold seen. rewrite decide_False by lia. done.
      * intros k ? ?. unfold seen. case_decide as Hc; [apply Z.testbit_0_l|].
        rewrite <- (seen_self ws idx). apply Hu; [done|].
        pose proof (index_split k). lia.
    + intros k ?. unfold seen. case_decide as Hc; [apply Z.testbit_0_l|].
      rewrite <- (seen_self ws idx). apply H.
      pose proof (index_split k). lia.
Qed.

Lemma bit_at_ge ws k : length ws ≤ k / 64 → bit_at ws k = false.
Proof.
  intros. unfold bit_at. unfold word_at. rewrite lookup_ge_None_2 by done.
  apply Z.testbit_0_l.
Qed.

Lemma scan_up_spec ws fuel idx w :
  (∀ k, is_u64 (word_at ws k)) → is_u64 w → length ws ≤ S idx + fuel →
  is_lowest (seen ws idx w) (idx * 64) (scan_up ws fuel idx w).
Proof.
  intros Hws. revert idx w.
  induction fuel as [|fuel IH]; intros idx w Hw Hf; simpl scan_up.
  all: destruct (Z.eqb_spec w 0) as [->|Hnz]; [|by apply scan_up_hit].
  - intros k Hk. unfold seen. case_decide; [apply Z.testbit_0_l|].
    apply bit_at_ge. pose proof (index_split k). lia.
  - destruct (Nat.leb_spec (length ws) (S idx)) as [Hle|Hlt].
    + intros k Hk. unfold seen. case_decide; [apply Z.testbit_0_l|].
      apply bit_at_ge. pose proof (index_split k). lia.
    + assert (length ws ≤ S (S idx) + fuel) as Hf' by lia.
      pose proof (IH (S idx) (word_at ws (S idx)) (Hws _) Hf') as H.
      destruct (scan_up ws fuel (S idx) _) as [j|]; unfold is_lowest in *.
      * destruct H as (?&Hj&Hu). rewrite seen_self in Hj.
        pose proof (index_split j). split_and!; [lia| |].
        -- unfold seen. rewrite decide_False by lia. done.
        -- intros k ? ?. unfold seen. case_decide as Hc; [apply Z.testbit_0_l|].
           rewrite <- (seen_self ws (S idx)). pose proof (index_split k).
           apply Hu; lia.
      * intros k ?. unfold seen. case_decide as Hc; [apply Z.testbit_0_l|].
        rewrite <- (seen_self ws (S idx)). pose proof (index_split k).
        apply H. lia.
Qed.

(** ** Updates *)

Lemma word_at_alter f ws k j :
  k < length ws →
  word_at (alter f k ws) j = if decide (j = k) then f (word_at ws j) else word_at ws j.
Proof.
  intros Hk. unfold word_at. case_decide as Hc.
  - subst. rewrite list_lookup_alter_eq. destruct (lookup_lt_is_Some_2 _ _ Hk) as [w ->].
    done.
  - by rewrite list_lookup_alter_ne by done.
Qed.

Lemma wf_index bm i : wf bm → i < num_bits bm → i / 64 < length (words bm).
Proof.
  intros [Hl _ _] Hi. rewrite Hl. apply Nat.Div0.div_lt_upper_bound.
  pose proof (Nat.div_mod_eq (num_bits bm + 63) 64).
  pose proof (Nat.mod_upper_bound (num_bits bm + 63) 64). lia.
Qed.

Lemma wf_word_at bm k : wf bm → is_u64 (word_at (words bm) k).
Proof.
  intros [_ Hw _]. unfold word_at. destruct (words bm !! k) as [w|] eqn:E; simpl.
  - by apply (Hw k).
  - unfold is_u64. lia.
Qed.

Lemma test_set bm i j :
  wf bm → i < num_bits bm →
  test (set bm i) j = bool_decide (j = i) || test bm j.
Proof.
  intros Hwf Hi. rewrite !test_bit_at. unfold bit_at, set; simpl.
  rewrite word_at_alter by by apply wf_index.
  case_decide as Hd.
  - rewrite Z.lor_spec, bit_testbit by lia. rewrite orb_comm. f_equal.
    apply bool_decide_ext. split; [|by intros ->].
    intros Hm%Nat2Z.inj. by apply index_eq.
  - rewrite bool_decide_eq_false_2; [done|]. by intros ->.
Qed.

Lemma test_clear bm i j :
  wf bm → i < num_bits bm →
  test (clear bm i) j = negb (bool_decide (j = i)) && test bm j.
Proof.
  intros Hwf Hi. rewrite !test_bit_at. unfold bit_at, clear; simpl.
  rewrite word_at_alter by by apply wf_index.
  pose proof (index_split j).
  case_decide as Hd.
  - rewrite Z.land_spec, u64_not_testbit, bit_testbit by lia. rewrite andb_comm.
    f_equal. f_equal. apply bool_decide_ext. split; [|by intros ->].
    intros Hm%Nat2Z.inj. by apply index_eq.
  - rewrite bool_decide_eq_false_2; [done|]. by intros ->.
Qed.

Lemma wf_create n : wf (create n).
Proof.
  split; simpl.
  - apply length_replicate.
  - intros k w Hw. apply lookup_replicate in Hw as [-> _]. unfold is_u64. lia.
  - intros i _. rewrite test_bit_at. unfold bit_at, word_at, create; simpl.
    destruct (replicate _ _ !! _) eqn:E; simpl; [|apply Z.testbit_0_l].
    apply lookup_replicate in E as [-> _]. apply Z.testbit_0_l.
Qed.

Lemma test_create n i : test (create n) i = false.
Proof.
  rewrite test_bit_at. unfold bit_at, word_at, create; simpl.
  destruct (replicate _ _ !! _) eqn:E; simpl; [|apply Z.testbit_0_l].
  apply lookup_replicate in E as [-> _]. apply Z.testbit_0_l.
Qed.

Lemma wf_alter bm f i :
  wf bm → (∀ w, is_u64 w → is_u64 (f w)) → i < num_bits bm →
  let bm' := mk (num_bits bm) (alter f (i / 64) (words bm)) in
  (∀ j, num_bits bm ≤ j → test bm' j = false) → wf bm'.
Proof.
  intros [Hl Hw Hh] Hf Hi bm' Hbm'. split; simpl.
  - by rewrite length_alter.
  - intros k w. rewrite list_lookup_alter. case_decide; [|by apply Hw].
    intros (w0&Hw0&->)%fmap_Some. eauto.
  - apply Hbm'.
Qed.

Lemma wf_set bm i : wf bm → i < num_bits bm → wf (set bm i).
Proof.
  intros Hwf Hi. apply wf_alter; [done| |done|].
  - intros w Hw. apply is_u64_of_bits.
    + apply Z.lor_nonneg. split; [unfold is_u64 in Hw; lia|].
      unfold bit. apply Z.shiftl_nonneg. lia.
    + intros j ?. pose proof (index_split i).
      rewrite Z.lor_spec, is_u64_testbit, bit_testbit by (done || lia).
      apply bool_decide_eq_false_2. lia.
  - intros j Hj. change (test (set bm i) j = false). rewrite test_set by done.
    rewrite bool_decide_eq_false_2 by lia. simpl. by apply Hwf.
Qed.

Lemma wf_clear bm i : wf bm → i < num_bits bm → wf (clear bm i).
Proof.
  intros Hwf Hi. apply wf_alter; [done| |done|].
  - intros w Hw. apply is_u64_of_bits.
    + apply Z.land_nonneg. left. unfold is_u64 in Hw; lia.
    + intros j ?. rewrite Z.land_spec, is_u64_testbit by (done || lia). done.
  - intros j Hj. change (test (clear bm i) j = false). rewrite test_clear by done.
    rewrite (wf_high _ Hwf) by done. apply andb_false_r.
Qed.

(** ** The queries *)

Lemma low_mask_testbit r j :
  r < 64 → (0 ≤ j < 64)%Z →
  Z.testbit (if (r =? 63) then u64_not 0 else (bit (r + 1) - 1)%Z) j =
  bool_decide (j ≤ Z.of_nat r)%Z.
Proof.
  intros Hr Hj. destruct (Nat.eqb_spec r 63) as [->|].
  - rewrite u64_not_testbit by lia. rewrite Z.testbit_0_l.
    rewrite bool_decide_eq_true_2 by lia. done.
  - unfold bit. rewrite Z.shiftl_1_l. rewrite Z.sub_1_r, <- Z.ones_equiv.
    case_bool_decide.
    + apply Z.ones_spec_low. lia.
    + apply Z.ones_spec_high. lia.
Qed.

Lemma high_mask_testbit r j :
  (0 ≤ j < 64)%Z →
  Z.testbit (u64 (Z.shiftl (u64_not 0) (Z.of_nat r))) j =
  bool_decide (Z.of_nat r ≤ j)%Z.
Proof.
  intros Hj. unfold u64. rewrite Z.mod_pow2_bits_low by lia.
  rewrite Z.shiftl_spec by lia. case_bool_decide.
  - rewrite u64_not_testbit by lia. by rewrite Z.testbit_0_l.
  - apply Z.testbit_neg_r. lia.
Qed.

Lemma land_u64 w m : is_u64 w → is_u64 (Z.land w m).
Proof.
  intros Hw. apply is_u64_of_bits.
  - apply Z.land_nonneg. left. unfold is_u64 in Hw; lia.
  - intros j ?. rewrite Z.land_spec, is_u64_testbit by (done || lia). done.
Qed.

Lemma find_highest_in_range bm i :
  wf bm → i < num_bits bm →
  let m := if (i mod 64 =? 63) then u64_not 0 else (bit (i mod 64 + 1) - 1)%Z in
  is_highest (test bm) i
    (scan_down (words bm) (i / 64) (Z.land (word_at (words bm) (i / 64)) m)).
Proof.
  intros Hwf Hi m.
  set (w := Z.land _ m).
  pose proof (scan_down_spec (words bm) (i / 64) w
    (λ k, wf_word_at _ k Hwf) (land_u64 _ _ (wf_word_at _ _ Hwf))) as H.
  pose proof (index_split i) as [Hsi Hri].
  assert (∀ k, k / 64 ≤ i / 64 →
    seen (words bm) (i / 64) w k = bool_decide (k ≤ i) && test bm k) as Hseen.
  { intros k Hk. unfold seen. pose proof (index_split k).
    rewrite test_bit_at. case_decide as Hc.
    - unfold w. rewrite Z.land_spec. unfold m. rewrite low_mask_testbit by lia.
      rewrite andb_comm. unfold bit_at. rewrite Hc. f_equal.
      apply bool_decide_ext. lia.
    - rewrite bool_decide_eq_true_2 by lia. done. }
  destruct (scan_down _ _ _) as [j|]; unfold is_highest in *.
  - destruct H as (Hj&Ht&Hu). pose proof (index_split j).
    rewrite Hseen in Ht by lia. bool_to_prop.
    split_and!; [done|done|]. intros k ? ?. pose proof (index_split k).
    specialize (Hu k). rewrite Hseen, bool_decide_eq_true_2 in Hu by lia.
    apply Hu; lia.
  - intros k ?. pose proof (index_split k).
    specialize (H k). rewrite Hseen, bool_decide_eq_true_2 in H by lia.
    apply H. lia.
Qed.

Lemma find_highest_spec bm i :
  wf bm → is_highest (test bm) i (find_highest_at_or_below bm i).
Proof.
  intros Hwf. unfold find_highest_at_or_below.
  destruct (Nat.eqb_spec (num_bits bm) 0) as [H0|H0].
  { intros k _. apply Hwf. lia. }
  destruct (Nat.leb_spec (num_bits bm) i) as [Hge|Hlt].
  2: { by apply find_highest_in_range. }
  pose proof (find_highest_in_range bm (num_bits bm - 1) Hwf) as H.
  specialize (H ltac:(lia)). simpl in H |- *.
  destruct (scan_down _ _ _) as [j|]; unfold is_highest in *.
  - destruct H as (?&?&Hu). split_and!; [lia|done|].
    intros k ? ?. destruct (decide (k < num_bits bm)).
    + apply Hu; lia.
    + apply Hwf. lia.
  - intros k ?. destruct (decide (k < num_bits bm)).
    + apply H. lia.
    + apply Hwf. lia.
Qed.

Lemma find_lowest_spec bm i :
  wf bm → is_lowest (test bm) i (find_lowest_at_or_above bm i).
Proof.
  intros Hwf. unfold find_lowest_at_or_above.
  destruct (Nat.leb_spec (num_bits bm) i) as [Hge|Hlt].
  { intros k ?. apply Hwf. lia. }
  set (m := u64 _). set (w := Z.land _ m).
  pose proof (scan_up_spec (words bm) (length (words bm)) (i / 64) w
    (λ k, wf_word_at _ k Hwf) (land_u64 _ _ (wf_word_at _ _ Hwf))) as H.
  specialize (H ltac:(lia)).
  pose proof (index_split i) as [Hsi Hri].
  assert (∀ k, i / 64 ≤ k / 64 →
    seen (words bm) (i / 64) w k = bool_decide (i ≤ k) && test bm k) as Hseen.
  { intros k Hk. unfold seen. pose proof (index_split k).
    rewrite test_bit_at. case_decide as Hc.
    - unfold w. rewrite Z.land_spec. unfold m. rewrite high_mask_testbit by lia.
      rewrite andb_comm. unfold bit_at. rewrite Hc. f_equal.
      apply bool_decide_ext. lia.
    - rewrite bool_decide_eq_true_2 by lia. done. }
  destruct (scan_up _ _ _ _) as [j|]; unfold is_lowest in *.
  - destruct H as (Hj&Ht&Hu). pose proof (index_split j).
    rewrite Hseen in Ht by lia. bool_to_prop.
    split_and!; [done|done|]. intros k ? ?. pose proof (index_split k).
    specialize (Hu k). rewrite Hseen, bool_decide_eq_true_2 in Hu by lia.
    apply Hu; lia.
  - intros k ?. pose proof (index_split k).
    specialize (H k). rewrite Hseen, bool_decide_eq_true_2 in H by lia.
    apply H. lia.
Qed.

End Bitmap.
