(* ===== verification/SlabPool.v ===== *)
(** * The slab allocator (src/include/jane/memory/slab_pool.hpp)

    A pointer handed out by the pool is the index of its slot in
    [storage_].  The pool is compared with the pair of its free list and
    the set of live slots. *)

From S2P Require Import Prelude.
From stdpp Require Import base tactics numbers list sets.

Set Default Goal Selector "!".

Module SlabPool.

Section pool.
Context {T : Type}.
(** [T()], what placement-new leaves in a slot. *)
Variable fresh : T.
Variable Capacity : nat.

(** [static_cast<uint32_t>(-1)] *)
Definition kNone : Z := u32 (-1).

Record t := mk {
  storage : list T;
  next_free : list Z;
  free_head : Z;
  live_count : Z;
}.

(** The constructor.  The bytes of [storage_] are indeterminate until
    [allocate] constructs an object there; no operation reads them before. *)
Definition create : t :=
  mk (replicate Capacity fresh)
     (map (λ i, if (i + 1 <? Capacity) then Z.of_nat (i + 1) else kNone) (seq 0 Capacity))
     0 0.

Definition allocate (p : t) : option nat * t :=
  if decide (free_head p = kNone) then (None, p)
  else
    let idx := Z.to_nat (free_head p) in
    (Some idx,
     mk (<[idx := fresh]> (storage p))
        (next_free p)
        (default kNone (next_free p !! idx))
        (u64 (live_count p + 1))).

Definition deallocate (p : t) (idx : nat) : t :=
  mk (storage p)
     (<[idx := free_head p]> (next_free p))
     (u32 (Z.of_nat idx))
     (u64 (live_count p - 1)).

(** ** Representation *)

(** [chain nf hd F]: following [next_free_] from [hd] visits the slots [F]
    and ends in [kNone]. *)
Fixpoint chain (nf : list Z) (hd : Z) (F : list nat) : Prop :=
  match F with
  | [] => hd = kNone
  | p :: F => hd = Z.of_nat p ∧ ∃ nx, nf !! p = Some nx ∧ chain nf nx F
  end.

(** [rep p F L]: [F] is the free list and [L] the live slots of [p]. *)
Record rep (p : t) (F L : list nat) : Prop := {
  rep_cap : (Z.of_nat Capacity ≤ 2 ^ 32 - 1)%Z;
  rep_storage : length (storage p) = Capacity;
  rep_nexts : length (next_free p) = Capacity;
  rep_chain : chain (next_free p) (free_head p) F;
  rep_slots : F ++ L ≡ₚ seq 0 Capacity;
  rep_live : live_count p = Z.of_nat (length L);
}.

Lemma kNone_val : kNone = (2 ^ 32 - 1)%Z.
Proof. done. Qed.

Lemma rep_NoDup p F L : rep p F L → NoDup (F ++ L).
Proof. intros H. rewrite (rep_slots _ _ _ H). apply NoDup_seq. Qed.

Lemma rep_lt p F L i : rep p F L → i ∈ F ++ L ↔ i < Capacity.
Proof. intros H. rewrite (rep_slots _ _ _ H), elem_of_seq. lia. Qed.

Lemma rep_count p F L : rep p F L → length F + length L = Capacity.
Proof.
  intros H. rewrite <- length_app, (rep_slots _ _ _ H). apply length_seq.
Qed.

Lemma rep_free_none p F L : rep p F L → free_head p = kNone ↔ F = [].
Proof.
  intros Hr. pose proof (rep_chain _ _ _ Hr) as Hc. destruct F as [|i F]; simpl in Hc; [done|].
  destruct Hc as [Hc _]. split; [|done]. intros Hk.
  assert (i < Capacity) as Hi by (apply (rep_lt _ _ _ _ Hr); set_solver).
  pose proof (rep_cap _ _ _ Hr). rewrite kNone_val in Hk. lia.
Qed.

Lemma chain_insert nf hd F p v :
  p ∉ F → chain nf hd F → chain (<[p := v]> nf) hd F.
Proof.
  revert hd. induction F as [|q F IH]; simpl; intros hd Hp; [done|].
  intros (->&nx&Hq&Hc). split; [done|]. exists nx.
  rewrite list_lookup_insert_ne by set_solver. set_solver.
Qed.

Lemma chain_seq nf k n :
  (∀ i, k ≤ i → i < k + n → nf !! i =
     Some (if (i + 1 <? k + n) then Z.of_nat (i + 1) else kNone)) →
  chain nf (if decide (n = 0) then kNone else Z.of_nat k) (seq k n).
Proof.
  revert k. induction n as [|n IH]; intros k H; simpl; [done|].
  split; [done|]. eexists. split; [apply H; lia|].
  specialize (IH (S k)). case_decide.
  - subst n. rewrite (proj2 (Nat.ltb_ge _ _)) by lia. apply IH. intros; lia.
  - rewrite (proj2 (Nat.ltb_lt _ _)) by lia.
    replace (k + 1) with (S k) by lia. apply IH.
    intros i ? ?. rewrite H by lia. by replace (S k + n) with (k + S n) by lia.
Qed.

Lemma pool_create_rep :
  0 < Capacity → (Z.of_nat Capacity ≤ 2 ^ 32 - 1)%Z →
  rep create (seq 0 Capacity) [].
Proof.
  intros Hpos Hcap. split; simpl.
  - done.
  - apply length_replicate.
  - by rewrite length_map, length_seq.
  - pose proof (chain_seq (next_free create) 0 Capacity) as H.
    rewrite decide_False in H by lia. apply H. intros i _ Hi. simpl.
    rewrite list_lookup_fmap, lookup_seq_lt by lia. done.
  - by rewrite app_nil_r.
  - done.
Qed.

(** Allocation takes the head of the free list and constructs a fresh
    object there; an empty free list makes it fail and change nothing. *)
Lemma allocate_rep p F L :
  rep p F L →
  match F with
  | [] => allocate p = (None, p)
  | i :: F' => ∃ p', allocate p = (Some i, p') ∧
      storage p' = <[i := fresh]> (storage p) ∧ i < Capacity ∧ (i ∉ L) ∧
      rep p' F' (i :: L)
  end.
Proof.
  intros H. pose proof (rep_NoDup _ _ _ H) as Hnd.
  pose proof (rep_count _ _ _ H) as Hc.
  destruct H as [Hcap Hst Hnx Hch Hsl Hlive]. unfold allocate.
  destruct F as [|i F]; simpl in Hch.
  { by rewrite decide_True by done. }
  destruct Hch as (Hhd&nx&Hi&Hch). simpl in Hnd, Hc.
  apply lookup_lt_Some in Hi as Hlt. rewrite Hnx in Hlt.
  rewrite decide_False by (rewrite Hhd, kNone_val; lia).
  rewrite Hhd, Nat2Z.id, Hi. simpl. eexists. split; [done|].
  apply NoDup_cons in Hnd as [Hni Hnd].
  split_and!; [done|done|set_solver|]. split; simpl; try done.
  - by rewrite length_insert.
  - rewrite <- Hsl. simpl. symmetry. apply Permutation_middle.
  - rewrite Hlive, u64_id by (unfold is_u64; lia). lia.
Qed.

(** Returning a live slot pushes it on the free list. *)
Lemma deallocate_rep p F L i :
  rep p F L → i ∈ L →
  ∃ L', L ≡ₚ i :: L' ∧ storage (deallocate p i) = storage p ∧
    rep (deallocate p i) (i :: F) L'.
Proof.
  intros H HiL. pose proof (rep_NoDup _ _ _ H) as Hnd.
  pose proof (rep_count _ _ _ H) as Hc.
  assert (i < Capacity) as Hlt by (rewrite <- (rep_lt _ _ _ i H); set_solver).
  destruct H as [Hcap Hst Hnx Hch Hsl Hlive].
  apply elem_of_Permutation in HiL as [L' HL]. exists L'. split; [done|].
  split; [done|]. assert (length L = S (length L')) by by rewrite HL.
  assert (i ∉ F) as HiF.
  { apply NoDup_app in Hnd as (_&Hd&_). intros ?. apply (Hd i); [done|].
    rewrite HL. set_solver. }
  split; simpl; try done.
  - by rewrite length_insert.
  - rewrite u32_id by (unfold is_u32; lia). split; [done|].
    exists (free_head p). split; [apply list_lookup_insert_eq; lia|].
    by apply chain_insert.
  - rewrite <- Hsl, HL. apply Permutation_middle.
  - rewrite Hlive, u64_id by (unfold is_u64; lia). lia.
Qed.

End pool.

Arguments t : clear implicits.

End SlabPool.
