(* ===== verification/Pools.v ===== *)
(** * Pools and bitmap as their clients use them

    Sequences of calls on the occupancy bitmap and on the two pools
    (src/include/jane/book/bitmap.hpp, memory/slab_pool.hpp and
    memory/pmr_pool.hpp), and what they promise over any such sequence. *)

From S2P Require Import Prelude Bitmap SlabPool.
From stdpp Require Import base tactics numbers list sets gmap.

Set Default Goal Selector "!".

Module Pools.

(** ** The bitmap over a sequence of calls *)

Inductive bit_op := BSet (i : nat) | BClear (i : nat).

Definition bit_index (o : bit_op) : nat := match o with BSet i | BClear i => i end.

Definition bit_exec (bm : Bitmap.t) (o : bit_op) : Bitmap.t :=
  match o with BSet i => Bitmap.set bm i | BClear i => Bitmap.clear bm i end.

(** The set of indices the calls describe. *)
Definition set_exec (S : gset nat) (o : bit_op) : gset nat :=
  match o with BSet i => {[i]} ∪ S | BClear i => S ∖ {[i]} end.

Lemma num_bits_exec bm o : Bitmap.num_bits (bit_exec bm o) = Bitmap.num_bits bm.
Proof. by destruct o. Qed.

Lemma bits_run n ops bm S :
  Bitmap.wf bm → Bitmap.num_bits bm = n → Forall (λ o, bit_index o < n) ops →
  (∀ k, Bitmap.test bm k = bool_decide (k ∈ S)) →
  Bitmap.wf (foldl bit_exec bm ops) ∧
  ∀ k, Bitmap.test (foldl bit_exec bm ops) k = bool_decide (k ∈ foldl set_exec S ops).
Proof.
  intros Hwf Hn Hops. revert bm S Hwf Hn. induction Hops as [|o ops Ho Hops IH];
    intros bm S Hwf Hn HS; [done|]. cbn [foldl]. apply IH.
  - destruct o as [i|i]; cbn in *; [apply Bitmap.wf_set|apply Bitmap.wf_clear]; done || lia.
  - by rewrite num_bits_exec.
  - intros k. destruct o as [i|i]; cbn in *.
    + rewrite Bitmap.test_set, HS by (done || lia). apply eq_bool_prop_intro.
      rewrite orb_True, !bool_decide_spec. set_solver.
    + rewrite Bitmap.test_clear, HS by (done || lia). apply eq_bool_prop_intro.
      rewrite andb_True, negb_True, !bool_decide_spec. set_solver.
Qed.

(** After any sequence of [set] and [clear] calls the bitmap holds exactly
    the set of indices the calls describe, and the two word-at-a-time scans
    return its greatest member at or below, and its least member at or
    above, any index, including indices past the end. *)
Theorem bitmap_is_a_set n ops i :
  Forall (λ o, bit_index o < n) ops →
  let bm := foldl bit_exec (Bitmap.create n) ops in
  let S := foldl set_exec ∅ ops in
  (∀ k, Bitmap.test bm k = bool_decide (k ∈ S)) ∧
  Bitmap.is_highest (λ k, bool_decide (k ∈ S)) i (Bitmap.find_highest_at_or_below bm i) ∧
  Bitmap.is_lowest (λ k, bool_decide (k ∈ S)) i (Bitmap.find_lowest_at_or_above bm i).
Proof.
  intros Hops bm S.
  destruct (bits_run n ops (Bitmap.create n) ∅) as [Hwf Ht];
    [apply Bitmap.wf_create|done|done|intros k; by rewrite Bitmap.test_create|].
  fold bm S in Hwf, Ht. split; [done|].
  pose proof (Bitmap.find_highest_spec bm i Hwf) as H1.
  pose proof (Bitmap.find_lowest_spec bm i Hwf) as H2. split.
  - destruct (Bitmap.find_highest_at_or_below bm i); cbn in *; setoid_rewrite <- Ht; done.
  - destruct (Bitmap.find_lowest_at_or_above bm i); cbn in *; setoid_rewrite <- Ht; done.
Qed.

Lemma bitmap_is_a_set_witness :
  Bitmap.find_highest_at_or_below
    (foldl bit_exec (Bitmap.create 130) [BSet 3; BSet 64; BSet 129; BClear 64]) 128 = Some 3 ∧
  3 ∈ foldl set_exec ∅ [BSet 3; BSet 64; BSet 129; BClear 64].
Proof.
  split; [vm_compute; reflexivity|].
  destruct (bitmap_is_a_set 130 [BSet 3; BSet 64; BSet 129; BClear 64] 128) as (_&H&_).
  - repeat constructor; cbn; lia.
  - cbv zeta in H. destruct (Bitmap.find_highest_at_or_below _ _) as [j|] eqn:E;
      [|vm_compute in E; discriminate E].
    assert (j = 3) as -> by (vm_compute in E; congruence).
    destruct H as (_&H&_). by apply bool_decide_eq_true in H.
Defined.

(** ** The slab pool over a sequence of calls *)

Section slab.
Context {T : Type} (fresh : T) (Capacity : nat).

(** States a correct client reaches, with the slots it holds: it returns
    only slots it holds. *)
Inductive pool_reach : SlabPool.t T → list nat → Prop :=
  | pr_create : pool_reach (SlabPool.create fresh Capacity) []
  | pr_allocate p L i p' :
      pool_reach p L → SlabPool.allocate fresh p = (Some i, p') → pool_reach p' (i :: L)
  | pr_deallocate p L i L' :
      pool_reach p L → L ≡ₚ i :: L' → pool_reach (SlabPool.deallocate p i) L'.

Lemma pool_perm (p : SlabPool.t T) F L L' :
  L ≡ₚ L' → SlabPool.rep Capacity p F L → SlabPool.rep Capacity p F L'.
Proof.
  intros HL [? ? ? ? Hs Hl]. split; try done.
  - by rewrite <- HL.
  - by rewrite Hl, HL.
Qed.

Lemma pool_reach_rep p L :
  0 < Capacity → (Z.of_nat Capacity ≤ 2 ^ 32 - 1)%Z → pool_reach p L →
  ∃ F, SlabPool.rep Capacity p F L.
Proof.
  intros H1 H2. induction 1 as [|p L i p' Hr [F HF] Ha|p L i L' Hr [F HF] HL].
  - eexists. by apply SlabPool.pool_create_rep.
  - pose proof (SlabPool.allocate_rep fresh _ _ _ _ HF) as Hal. destruct F as [|j F].
    + rewrite Ha in Hal. done.
    + destruct Hal as (p1&Hal&_&_&_&Hr'). rewrite Ha in Hal. injection Hal as -> ->. eauto.
  - destruct (SlabPool.deallocate_rep _ _ _ _ i HF) as (L1&HL1&_&Hr1); [rewrite HL; set_solver|].
    exists (i :: F). eapply pool_perm; [|exact Hr1].
    rewrite HL in HL1. by apply Permutation_cons_inv in HL1.
Qed.

(** C35: whatever a client allocates and returns, the slots it holds are
    distinct and below the capacity and [live_count] counts them; an
    allocation hands out a slot nobody holds, holding a freshly constructed
    object, and fails, changing nothing, exactly when all slots are held. *)
Theorem slab_pool_exclusive p L :
  0 < Capacity → (Z.of_nat Capacity ≤ 2 ^ 32 - 1)%Z → pool_reach p L →
  NoDup L ∧ Forall (λ i, i < Capacity) L ∧ SlabPool.live_count p = Z.of_nat (length L) ∧
  match SlabPool.allocate fresh p with
  | (None, p') => p' = p ∧ length L = Capacity
  | (Some i, p') => (i ∉ L) ∧ i < Capacity ∧ length L < Capacity ∧
      SlabPool.storage p' !! i = Some fresh ∧
      ∀ j, j ≠ i → SlabPool.storage p' !! j = SlabPool.storage p !! j
  end.
Proof.
  intros H1 H2 Hreach. destruct (pool_reach_rep p L H1 H2 Hreach) as [F Hr].
  pose proof (SlabPool.rep_NoDup _ _ _ _ Hr) as Hnd. apply NoDup_app in Hnd as (_&_&Hnd).
  pose proof (SlabPool.rep_count _ _ _ _ Hr) as Hc.
  split_and!; [done| |apply Hr|].
  { apply Forall_forall. intros i Hi. apply (SlabPool.rep_lt _ _ _ _ _ Hr). set_solver. }
  pose proof (SlabPool.allocate_rep fresh _ _ _ _ Hr) as Hal. destruct F as [|i F].
  - rewrite Hal. split; [done|]. cbn in Hc. lia.
  - destruct Hal as (p'&->&Hst&Hi&HiL&_). cbn in Hc. split_and!; [done|done|lia| |].
    + rewrite Hst. apply list_lookup_insert_eq. by rewrite (SlabPool.rep_storage _ _ _ _ Hr).
    + intros j Hj. by rewrite Hst, list_lookup_insert_ne.
Qed.

End slab.

Lemma slab_pool_exclusive_witness :
  let p := SlabPool.create 0 2 in
  let p1 := (SlabPool.allocate 0 p).2 in
  let p2 := (SlabPool.allocate 0 p1).2 in
  SlabPool.allocate 0 p2 = (None, p2) ∧ SlabPool.live_count p2 = 2%Z.
Proof.
  cbv zeta. split; [vm_compute; reflexivity|].
  destruct (slab_pool_exclusive 0 2 (SlabPool.allocate 0 (SlabPool.allocate 0
    (SlabPool.create 0 2)).2).2 [1; 0]) as (_&_&->&_); [lia|lia| |done].
  set (p1 := (SlabPool.allocate 0 (SlabPool.create 0 2)).2).
  apply (pr_allocate 0 2 p1 [0] 1); [|reflexivity].
  apply (pr_allocate 0 2 (SlabPool.create 0 2) [] 0); [constructor|reflexivity].
Defined.

(** ** The pmr pool

    The memory resource is the standard library's; [addr] stands for the
    block it hands out, given the blocks in use, and the only fact used is
    that it never hands out a block that is in use. *)
Section pmr.
Context (addr : list nat → nat).

Record PmrPool := mkPmr { pmr_capacity : Z; pmr_live_count : Z; pmr_blocks : list nat }.

Definition pmr_create (capacity : Z) : PmrPool := mkPmr capacity 0 [].

(** [None] is the thrown [std::bad_alloc]. *)
Definition pmr_allocate (p : PmrPool) : option (nat * PmrPool) :=
  if (pmr_capacity p <=? pmr_live_count p)%Z then None
  else
    let mem := addr (pmr_blocks p) in
    Some (mem, mkPmr (pmr_capacity p) (u64 (pmr_live_count p + 1)) (mem :: pmr_blocks p)).

Definition pmr_deallocate (p : PmrPool) (ptr : nat) : PmrPool :=
  mkPmr (pmr_capacity p) (u64 (pmr_live_count p - 1))
    (List.filter (λ q, negb (q =? ptr)) (pmr_blocks p)).

Inductive pmr_reach (capacity : Z) : PmrPool → Prop :=
  | pmr_init : pmr_reach capacity (pmr_create capacity)
  | pmr_alloc p mem p' :
      pmr_reach capacity p → pmr_allocate p = Some (mem, p') → pmr_reach capacity p'
  | pmr_free p ptr :
      pmr_reach capacity p → ptr ∈ pmr_blocks p → pmr_reach capacity (pmr_deallocate p ptr).

Lemma filter_out_length (l : list nat) x :
  NoDup l → x ∈ l → S (length (List.filter (λ q, negb (q =? x)) l)) = length l.
Proof.
  induction 1 as [|y l Hy Hl IH]; intros Hx; [set_solver|]. cbn.
  destruct (Nat.eqb_spec y x) as [-> |Hne]; cbn.
  - f_equal. clear -Hy. induction l as [|z l IH]; [done|]. cbn.
    rewrite (proj2 (Nat.eqb_neq z x)) by set_solver. cbn. rewrite IH by set_solver. done.
  - f_equal. apply IH. set_solver.
Qed.

Lemma filter_out_NoDup (l : list nat) x :
  NoDup l → NoDup (List.filter (λ q, negb (q =? x)) l).
Proof.
  induction 1 as [|y l Hy Hl IH]; cbn; [constructor|]. destruct (negb _); [|done].
  constructor; [|done]. intros [Hin _]%list_elem_of_In%filter_In. by apply Hy, list_elem_of_In.
Qed.

(** The counting pool never has more than [capacity] objects alive, throws
    exactly at that count, and every object it hands out is distinct from
    the live ones. *)
Theorem pmr_pool_bounded capacity p :
  (∀ used, addr used ∉ used) → is_u64 capacity → pmr_reach capacity p →
  NoDup (pmr_blocks p) ∧ pmr_live_count p = Z.of_nat (length (pmr_blocks p)) ∧
  (pmr_live_count p ≤ capacity)%Z ∧
  (pmr_allocate p = None ↔ pmr_live_count p = capacity).
Proof.
  intros Haddr Hcap Hr.
  assert (pmr_capacity p = capacity ∧ NoDup (pmr_blocks p) ∧
    pmr_live_count p = Z.of_nat (length (pmr_blocks p)) ∧ (pmr_live_count p ≤ capacity)%Z)
    as (Hc&Hnd&Hl&Hle).
  { induction Hr as [|p mem p' Hr IH Ha|p ptr Hr IH Hp].
    - cbn. unfold is_u64 in Hcap. split_and!; [done|constructor|done|lia].
    - destruct IH as (Hc&Hnd&Hl&Hle). unfold pmr_allocate in Ha.
      destruct (Z.leb_spec (pmr_capacity p) (pmr_live_count p)); [done|].
      injection Ha as <- <-. unfold is_u64 in Hcap. cbn.
      rewrite u64_id by (unfold is_u64; lia). split_and!; [done|by constructor|lia|lia].
    - destruct IH as (Hc&Hnd&Hl&Hle). pose proof (filter_out_length _ _ Hnd Hp) as Hlen.
      unfold is_u64 in Hcap. cbn. rewrite u64_id by (unfold is_u64; lia).
      split_and!; [done|by apply filter_out_NoDup|lia|lia]. }
  split_and!; try done. unfold pmr_allocate. rewrite Hc.
  destruct (Z.leb_spec capacity (pmr_live_count p)); split; intros H'; try done; lia.
Qed.

End pmr.

(** An allocator that takes the successor of the greatest block in use. *)
Definition next_block (used : list nat) : nat := S (foldr Nat.max 0 used).

Lemma next_block_unused used : next_block used ∉ used.
Proof.
  intros Hin. assert (∀ x, x ∈ used → x ≤ foldr Nat.max 0 used) as Hmax.
  { clear Hin. induction used as [|y used IH]; [set_solver|]. cbn.
    intros x [->|Hx]%elem_of_cons; [lia|]. specialize (IH x Hx). lia. }
  apply Hmax in Hin. unfold next_block in Hin. lia.
Qed.

Lemma pmr_pool_bounded_witness :
  ∃ p, pmr_reach next_block 1 p ∧ pmr_allocate next_block p = None ∧ pmr_live_count p = 1%Z.
Proof.
  exists (mkPmr 1 1 [1]). assert (pmr_reach next_block 1 (mkPmr 1 1 [1])) as Hr.
  { eapply pmr_alloc; [constructor|]. vm_compute. reflexivity. }
  split; [exact Hr|].
  destruct (pmr_pool_bounded next_block 1 (mkPmr 1 1 [1]) next_block_unused
    ltac:(unfold is_u64; lia) Hr) as (_&_&_&H).
  split; [apply H; reflexivity|reflexivity].
Defined.

End Pools.
