(* ===== verification/BenchPools.v ===== *)
(** * The allocator benchmarks (src/bench/bench_memory_pool.cpp)

    The workloads are templates over allocate and deallocate; [ObjectPool] is
    what they use of an allocator, with three instances: the slab pool, the
    pmr pool, and [new] and [delete].  A benchmark iterates as often as the
    framework asks.  The theorem says that a workload is valid: no
    allocation fails, nothing is freed twice or leaked. *)

From S2P Require Import Prelude SlabPool Pools.
From stdpp Require Import base tactics numbers list sets.

Set Default Goal Selector "!".

(** [None]: a null pointer or a thrown [std::bad_alloc]; a workload that
    gets one is no longer a measurement, so the model stops there. *)
Class ObjectPool (P : Type) := {
  op_allocate : P → option (nat * P);
  op_deallocate : P → nat → P;
}.

(** [op_holds p L]: [L] are the objects handed out and not returned. *)
Class ObjectPoolLaws (P : Type) `{!ObjectPool P} (capacity : nat) := {
  op_holds : P → list nat → Prop;
  op_holds_NoDup p L : op_holds p L → NoDup L;
  op_allocate_spec p L :
    op_holds p L → length L < capacity →
    ∃ i p', op_allocate p = Some (i, p') ∧ op_holds p' (i :: L);
  op_deallocate_spec p L i L' :
    op_holds p L → L ≡ₚ i :: L' → op_holds (op_deallocate p i) L';
  op_holds_perm p L L' : op_holds p L → L ≡ₚ L' → op_holds p L';
}.

Module BenchPools.

(** ** The workloads *)

(** The pooled type. *)
Record OrderLike := {
  id : Z; client : Z; price : Z; qty : Z; remaining : Z; sequence : Z; timestamp : Z;
  side : Z; type : Z;
}.

Definition value_initialized : OrderLike := {|
  id := 0; client := 0; price := 0; qty := 0; remaining := 0; sequence := 0; timestamp := 0;
  side := 0; type := 0;
|}.

Definition kPoolCapacity : nat := N.to_nat 65536.
Definition kChurnBatch : nat := N.to_nat 4096.

Section workloads.
Context {P : Type} `{!ObjectPool P}.

(** The body of the immediate-cycle benchmarks. *)
Definition immediate_cycle (p : P) : option P :=
  '(ptr, p) ← op_allocate p; Some (op_deallocate p ptr).

(** A loop of [n] iterations of a benchmark body. *)
Fixpoint iterate {A : Type} (n : nat) (body : A → option A) (a : A) : option A :=
  match n with
  | O => Some a
  | S n => a ← body a; iterate n body a
  end.

(** Every other index below [n]. *)
Definition evens (n : nat) : list nat := List.filter Nat.even (seq 0 n).

(** [live.push_back(allocate())], [n] times. *)
Fixpoint allocate_batch (n : nat) (live : list nat) (p : P) : option (list nat * P) :=
  match n with
  | O => Some (live, p)
  | S n => '(ptr, p) ← op_allocate p; allocate_batch n (live ++ [ptr]) p
  end.

(** [live[i] = allocate()] for the given indices. *)
Fixpoint refill (idx : list nat) (live : list nat) (p : P) : option (list nat * P) :=
  match idx with
  | [] => Some (live, p)
  | i :: idx => '(ptr, p) ← op_allocate p; refill idx (<[i := ptr]> live) p
  end.

(** One iteration of [run_churn]; [live] is empty before and after. *)
Definition churn (batch : nat) (p : P) : option P :=
  '(live, p) ← allocate_batch batch [] p;
  let p := foldl (λ p i, op_deallocate p (live !!! i)) p (evens batch) in
  '(live, p) ← refill (evens batch) live p;
  Some (foldl op_deallocate p live).

(** The items reported for the run are [iterations * batch]. *)
Definition run_churn (iterations batch : nat) (p : P) : option P :=
  iterate iterations (churn batch) p.

(** ** They are valid *)

Context {capacity : nat} `{!ObjectPoolLaws P capacity}.

Lemma allocate_batch_ok n live p :
  op_holds p live → length live + n ≤ capacity →
  ∃ live' p', allocate_batch n live p = Some (live', p') ∧ op_holds p' live' ∧
    length live' = length live + n.
Proof.
  revert live p. induction n as [|n IH]; intros live p Hh Hc; cbn [allocate_batch].
  { exists live, p. split_and!; [done|done|lia]. }
  destruct (op_allocate_spec p live Hh) as (i&p1&->&Hh1); [lia|]. cbn [mbind option_bind].
  destruct (IH (live ++ [i]) p1) as (live'&p'&E&Hh'&Hl).
  - eapply op_holds_perm; [done|]. apply Permutation_cons_append.
  - rewrite length_app. cbn. lia.
  - exists live', p'. split_and!; [done|done|]. rewrite Hl, length_app. cbn. lia.
Qed.

Lemma free_all_ok xs L p :
  op_holds p (xs ++ L) → op_holds (foldl op_deallocate p xs) L.
Proof.
  revert p. induction xs as [|x xs IH]; intros p Hh; [done|]. cbn [foldl].
  apply IH. by eapply op_deallocate_spec.
Qed.

(** Only the elements at [held] are handed out; the others come back. *)
Lemma refill_ok idx held live p :
  op_holds p ((live !!!.) <$> held) → NoDup (idx ++ held) →
  Forall (λ i, i < length live) idx → length idx + length held ≤ capacity →
  ∃ live' p', refill idx live p = Some (live', p') ∧ length live' = length live ∧
    op_holds p' ((live' !!!.) <$> idx ++ held).
Proof.
  revert held live p. induction idx as [|i idx IH]; intros held live p Hh Hnd Hlt Hc.
  { by exists live, p. }
  cbn [refill app] in *. apply NoDup_cons in Hnd as [Hi Hnd]. apply Forall_cons in Hlt as [Hil Hlt].
  destruct (op_allocate_spec p _ Hh) as (x&p1&->&Hh1); [rewrite length_fmap; cbn in Hc; lia|].
  cbn [mbind option_bind].
  assert (((<[i := x]> live !!!.) <$> held) = ((live !!!.) <$> held)) as Eh.
  { apply list_fmap_ext. intros k j Hj%list_elem_of_lookup_2.
    rewrite list_lookup_total_insert_ne; [done|]. intros ->. set_solver. }
  destruct (IH (i :: held) (<[i := x]> live) p1) as (live'&p'&E&Hl&Hh').
  - rewrite fmap_cons, list_lookup_total_insert_eq, Eh by done. done.
  - rewrite <- Permutation_middle. apply NoDup_cons. split; [set_solver|done].
  - by rewrite length_insert.
  - cbn in *. lia.
  - exists live', p'. rewrite length_insert in Hl. split_and!; [done|done|].
    eapply op_holds_perm; [done|]. apply fmap_Permutation.
    symmetry. apply Permutation_middle.
Qed.

Lemma fmap_total_seq (l : list nat) : (l !!!.) <$> seq 0 (length l) = l.
Proof.
  apply list_eq. intros k. rewrite list_lookup_fmap. destruct (l !! k) as [x|] eqn:E.
  - rewrite lookup_seq_lt by by eapply lookup_lt_Some. cbn. f_equal.
    by apply list_lookup_total_correct.
  - rewrite lookup_seq_ge; [done|]. by apply lookup_ge_None.
Qed.

Lemma evens_odds n :
  evens n ++ List.filter (λ i, negb (Nat.even i)) (seq 0 n) ≡ₚ seq 0 n.
Proof.
  unfold evens. induction (seq 0 n) as [|i l IH]; [done|]. cbn [List.filter].
  destruct (Nat.even i); cbn [negb app]; [by rewrite IH|]. by rewrite <- Permutation_middle, IH.
Qed.

Lemma churn_ok batch p :
  op_holds p [] → batch ≤ capacity → ∃ p1, churn batch p = Some p1 ∧ op_holds p1 [].
Proof.
  intros Hh Hb.
  unfold churn. destruct (allocate_batch_ok batch [] p Hh) as (live&p1&->&Hh1&Hl); [done|].
  cbn [length Nat.add] in Hl. cbn [mbind option_bind].
  pose proof (evens_odds batch) as Hp. set (odds := List.filter _ (seq 0 batch)) in Hp.
  set (held := (live !!!.) <$> odds).
  assert (live ≡ₚ ((live !!!.) <$> evens batch) ++ held) as Hlive.
  { unfold held. rewrite <- fmap_app, Hp, <- Hl. by rewrite fmap_total_seq. }
  pose proof (op_holds_perm _ _ _ Hh1 Hlive) as Hh2. apply free_all_ok in Hh2.
  rewrite foldl_fmap in Hh2.
  assert (NoDup (evens batch ++ odds)) as Hnd by (rewrite Hp; apply NoDup_seq).
  assert (length (evens batch) + length odds = batch) as Hlen
    by (rewrite <- length_app, Hp; apply length_seq).
  destruct (refill_ok (evens batch) odds live _ Hh2 Hnd) as (live'&p3&->&Hl'&Hh3); [|lia|].
  { apply Forall_forall. intros i Hi. assert (i ∈ seq 0 batch) as Hs by (rewrite <- Hp; set_solver).
    apply elem_of_seq in Hs. lia. }
  cbn [mbind option_bind]. eexists. split; [done|]. apply free_all_ok. rewrite app_nil_r.
  eapply op_holds_perm; [exact Hh3|]. rewrite Hp. rewrite <- Hl, <- Hl'. by rewrite fmap_total_seq.
Qed.

Lemma iterate_ok {A : Type} (I : A → Prop) (body : A → option A) n a :
  (∀ a, I a → ∃ a', body a = Some a' ∧ I a') → I a →
  ∃ a', iterate n body a = Some a' ∧ I a'.
Proof.
  intros Hb. revert a. induction n as [|n IH]; intros a Ha; [by exists a|].
  cbn [iterate]. destruct (Hb a Ha) as (a1&->&H1). cbn [mbind option_bind]. by apply IH.
Qed.

(** The churn workload is valid for any number of iterations on any
    allocator with room for a batch: no allocation fails, only live objects
    are returned, each once, and at the end nothing is live. *)
Theorem churn_valid iterations batch p :
  op_holds p [] → batch ≤ capacity →
  ∃ p', run_churn iterations batch p = Some p' ∧ op_holds p' [].
Proof.
  intros Hh Hb. apply (iterate_ok (λ p, op_holds p [])); [|done]. intros q Hq. by apply churn_ok.
Qed.

Lemma immediate_cycle_ok p :
  op_holds p [] → 0 < capacity → ∃ p', immediate_cycle p = Some p' ∧ op_holds p' [].
Proof.
  intros Hh Hc. unfold immediate_cycle. destruct (op_allocate_spec p [] Hh Hc) as (i&p1&->&Hh1).
  cbn [mbind option_bind]. eexists. split; [done|]. by eapply op_deallocate_spec.
Qed.

End workloads.

(** ** The three allocators *)

Lemma filter_out_perm (l L : list nat) i :
  i ∉ L → l ≡ₚ i :: L → List.filter (λ q, negb (q =? i)) l ≡ₚ L.
Proof.
  intros Hi Hl. trans (List.filter (λ q, negb (q =? i)) (i :: L)).
  - clear Hi. induction Hl as [|x l k H IH|x y l|l k m H1 IH1 H2 IH2]; cbn; [done| | |by etrans].
    + destruct (negb _); by rewrite IH.
    + destruct (negb _), (negb _); try done. apply Permutation_swap.
  - cbn. rewrite Nat.eqb_refl. cbn. rewrite list_filter_all; [done|].
    intros x Hx. apply negb_true_iff, Nat.eqb_neq. by intros ->.
Qed.

Section slab.
Context {T : Type} (fresh : T) (Capacity : nat).

Definition slab_object_pool : ObjectPool (SlabPool.t T) := {|
  op_allocate p := match SlabPool.allocate fresh p with
                   | (Some i, p) => Some (i, p) | (None, _) => None end;
  op_deallocate := SlabPool.deallocate;
|}.

Definition slab_laws : @ObjectPoolLaws (SlabPool.t T) slab_object_pool Capacity.
Proof.
  refine {| op_holds (p : SlabPool.t T) L := ∃ F, SlabPool.rep Capacity p F L |}.
  - intros p L [F Hr]. by pose proof (SlabPool.rep_NoDup _ _ _ _ Hr) as (_&_&?)%NoDup_app.
  - intros p L [F Hr] Hlt. pose proof (SlabPool.rep_count _ _ _ _ Hr) as Hc.
    pose proof (SlabPool.allocate_rep fresh _ _ _ _ Hr) as Ha.
    destruct F as [|i F]; [cbn in Hc; lia|]. destruct Ha as (p'&E&_&_&_&Hr').
    exists i, p'. cbn. rewrite E. eauto.
  - intros p L i L' [F Hr] HL.
    destruct (SlabPool.deallocate_rep _ _ _ _ i Hr) as (L1&HL1&_&Hr'); [rewrite HL; set_solver|].
    exists (i :: F). eapply Pools.pool_perm; [|exact Hr'].
    rewrite HL in HL1. by apply Permutation_cons_inv in HL1.
  - intros p L L' [F Hr] HL. exists F. by eapply Pools.pool_perm.
Defined.
End slab.

Section pmr.
Context (addr : list nat → nat) (Haddr : ∀ used, addr used ∉ used) (Capacity : nat).

Definition pmr_object_pool : ObjectPool Pools.PmrPool := {|
  op_allocate := Pools.pmr_allocate addr;
  op_deallocate := Pools.pmr_deallocate;
|}.

Definition pmr_laws :
  (Z.of_nat Capacity < 2 ^ 64)%Z → @ObjectPoolLaws Pools.PmrPool pmr_object_pool Capacity.
Proof.
  intros Hcap.
  refine {| op_holds (p : Pools.PmrPool) L := NoDup L ∧ Pools.pmr_blocks p ≡ₚ L ∧
    Pools.pmr_capacity p = Z.of_nat Capacity ∧ Pools.pmr_live_count p = Z.of_nat (length L) ∧
    length L ≤ Capacity |}.
  - intros p L (?&_). done.
  - intros p L (Hnd&Hb&Hc&Hl&Hle) Hlt. cbn. unfold Pools.pmr_allocate.
    rewrite Hc, Hl, (proj2 (Z.leb_gt _ _)) by lia.
    eexists _, _. split; [done|]. cbn. split_and!; [|by apply Permutation_skip|done| |lia].
    + apply NoDup_cons. split; [|done]. rewrite <- Hb. apply Haddr.
    + rewrite u64_id by (unfold is_u64; lia). lia.
  - intros p L i L' (Hnd&Hb&Hc&Hl&Hle) HL. rewrite HL in Hnd. cbn.
    assert (length L = S (length L')) as El by by rewrite HL.
    apply NoDup_cons in Hnd as [Hi Hnd]. split_and!; [done| |done| |lia].
    + apply filter_out_perm; [done|]. by rewrite Hb.
    + rewrite Hl, u64_id by (unfold is_u64; lia). lia.
  - intros p L L' (Hnd&Hb&Hc&Hl&Hle) HL.
    rewrite <- HL. split_and!; [done|by rewrite Hb|done|done|done].
Defined.
End pmr.

(** [new] and [delete]: the blocks in use. *)
Section heap.
Context (addr : list nat → nat) (Haddr : ∀ used, addr used ∉ used) (Capacity : nat).

Definition heap_object_pool : ObjectPool (list nat) := {|
  op_allocate used := Some (addr used, addr used :: used);
  op_deallocate used i := List.filter (λ q, negb (q =? i)) used;
|}.

Definition heap_laws : @ObjectPoolLaws (list nat) heap_object_pool Capacity.
Proof.
  refine {| op_holds (used : list nat) L := NoDup L ∧ used ≡ₚ L |}.
  - intros p L (?&_). done.
  - intros p L (Hnd&Hb) _. cbn. eexists _, _. split; [done|].
    split; [|by apply Permutation_skip].
    apply NoDup_cons. split; [|done]. rewrite <- Hb. apply Haddr.
  - intros p L i L' (Hnd&Hb) HL. rewrite HL in Hnd. apply NoDup_cons in Hnd as [Hi Hnd].
    split; [done|]. cbn. apply filter_out_perm; [done|]. by rewrite Hb.
  - intros p L L' (Hnd&Hb) HL. by rewrite <- HL.
Defined.
End heap.

(** The benchmarks on their pools. *)
Definition bench_slab_pool_churn (iterations : nat) : option (SlabPool.t OrderLike) :=
  @run_churn _ (slab_object_pool value_initialized) iterations kChurnBatch
    (SlabPool.create value_initialized kChurnBatch).

Definition bench_pmr_pool_churn (addr : list nat → nat) (iterations : nat) : option Pools.PmrPool :=
  @run_churn _ (pmr_object_pool addr) iterations kChurnBatch
    (Pools.pmr_create (Z.of_nat kChurnBatch)).

Definition bench_global_new_delete_churn (addr : list nat → nat) (iterations : nat)
    : option (list nat) :=
  @run_churn _ (heap_object_pool addr) iterations kChurnBatch [].

Definition bench_slab_pool_immediate_cycle (iterations : nat) : option (SlabPool.t OrderLike) :=
  iterate iterations (@immediate_cycle _ (slab_object_pool value_initialized))
    (SlabPool.create value_initialized kPoolCapacity).

Definition bench_pmr_pool_immediate_cycle (addr : list nat → nat) (iterations : nat)
    : option Pools.PmrPool :=
  iterate iterations (@immediate_cycle _ (pmr_object_pool addr))
    (Pools.pmr_create (Z.of_nat kPoolCapacity)).

Definition bench_global_new_delete_immediate_cycle (addr : list nat → nat) (iterations : nat)
    : option (list nat) :=
  iterate iterations (@immediate_cycle _ (heap_object_pool addr)) [].

(** The slab benchmark fills its pool exactly, and still never fails. *)
Lemma slab_churn_completes iterations :
  ∃ p, bench_slab_pool_churn iterations = Some p ∧ SlabPool.live_count p = 0%Z.
Proof.
  destruct (iterate_ok (λ p, @op_holds _ _ _ (slab_laws value_initialized kChurnBatch) p [])
    (@churn _ (slab_object_pool value_initialized) kChurnBatch) iterations
    (SlabPool.create value_initialized kChurnBatch)) as (p&E&F&Hr).
  - intros q Hq. by eapply churn_ok.
  - eexists. apply SlabPool.pool_create_rep; unfold kChurnBatch; lia.
  - exists p. split; [exact E|]. by rewrite (SlabPool.rep_live _ _ _ _ Hr).
Qed.

Lemma churn_valid_witness :
  ∃ p, @run_churn _ (slab_object_pool 0) 3 5 (SlabPool.create 0 5) = Some p ∧
    SlabPool.live_count p = 0%Z.
Proof.
  destruct (@churn_valid _ (slab_object_pool 0) 5 (slab_laws 0 5) 3 5 (SlabPool.create 0 5))
    as (p&E&F&Hr); [|lia|].
  - eexists. apply SlabPool.pool_create_rep; lia.
  - exists p. split; [exact E|]. exact (SlabPool.rep_live _ _ _ _ Hr).
Defined.

End BenchPools.
