(* ===== verification/Level.v ===== *)
(** * The FIFO of one price level
    (src/include/jane/book/order_node.hpp, src/include/jane/book/price_level.hpp)

    Resting orders are nodes of the pool's storage, threaded into a doubly
    linked list per price level.  A node pointer is the index of its slot,
    so the storage of the pool is the heap the list operations mutate.
    [level_rep] relates a level to the sequence of orders it stands for;
    push-back appends to that sequence, unlink deletes from it. *)

From S2P Require Import Prelude Types.
From stdpp Require Import base tactics numbers list sets.

Set Default Goal Selector "!".

Module Level.

Record OrderNode := mkNode {
  node_order : Order;
  node_prev : option nat;
  node_next : option nat;
  level_index : nat;
}.

(** [OrderNode()] *)
Definition default_node : OrderNode := mkNode default_order None None 0.

Abbreviation heap := (list OrderNode).

Record PriceLevel := mkLevel {
  head : option nat;
  tail : option nat;
  total_quantity : Z;
  order_count : Z;
}.

(** [PriceLevel{}] *)
Definition default_level : PriceLevel := mkLevel None None 0 0.

Definition empty (l : PriceLevel) : bool := (order_count l =? 0)%Z.

Definition set_prev (q : option nat) (n : OrderNode) : OrderNode :=
  mkNode (node_order n) q (node_next n) (level_index n).
Definition set_next (q : option nat) (n : OrderNode) : OrderNode :=
  mkNode (node_order n) (node_prev n) q (level_index n).
Definition set_order (o : Order) (n : OrderNode) : OrderNode :=
  mkNode o (node_prev n) (node_next n) (level_index n).
Definition set_level (i : nat) (n : OrderNode) : OrderNode :=
  mkNode (node_order n) (node_prev n) (node_next n) i.

(** [*node]; a pointer outside the heap is never dereferenced by the code
    modelled here, the model reads a default node there. *)
Definition deref (h : heap) (p : nat) : OrderNode := default default_node (h !! p).

(** [level_push_back(level, node)] *)
Definition level_push_back (h : heap) (l : PriceLevel) (p : nat) : heap * PriceLevel :=
  let h := alter (set_prev (tail l)) p h in
  let h := alter (set_next None) p h in
  let '(h, hd) :=
    match tail l with
    | Some t => (alter (set_next (Some p)) t h, head l)
    | None => (h, Some p)
    end in
  (h, mkLevel hd (Some p)
        (StrongAmount.add (total_quantity l) (ord_remaining (node_order (deref h p))))
        (u32 (order_count l + 1))).

(** [level_unlink(level, node)] *)
Definition level_unlink (h : heap) (l : PriceLevel) (p : nat) : heap * PriceLevel :=
  let '(h, hd) :=
    match node_prev (deref h p) with
    | Some q => (alter (set_next (node_next (deref h p))) q h, head l)
    | None => (h, node_next (deref h p))
    end in
  let '(h, tl) :=
    match node_next (deref h p) with
    | Some q => (alter (set_prev (node_prev (deref h p))) q h, tail l)
    | None => (h, node_prev (deref h p))
    end in
  let h := alter (set_prev None) p h in
  let h := alter (set_next None) p h in
  (h, mkLevel hd tl
        (StrongAmount.sub (total_quantity l) (ord_remaining (node_order (deref h p))))
        (u32 (order_count l - 1))).

(** The forward walk [for (node = level.head; node; node = node->next)],
    bounded by [fuel] nodes. *)
Fixpoint walk (h : heap) (fuel : nat) (p : option nat) : list nat :=
  match fuel, p with
  | S fuel, Some p => p :: walk h fuel (node_next (deref h p))
  | _, _ => []
  end.

(** ** What the heap holds at a pointer *)

Definition links (h : heap) (p : nat) : option (option nat * option nat) :=
  (λ n, (node_prev n, node_next n)) <$> h !! p.
Definition order_at (h : heap) (p : nat) : option Order := node_order <$> h !! p.
Definition index_at (h : heap) (p : nat) : option nat := level_index <$> h !! p.

(** ** Doubly linked segments

    [dseg h pv ps nx]: the nodes [ps] are linked in this order in both
    directions, the first points back to [pv] and the last on to [nx]. *)
Definition hd_ptr (ps : list nat) (nx : option nat) : option nat :=
  match ps with [] => nx | p :: _ => Some p end.

Definition last_ptr (pv : option nat) (ps : list nat) : option nat :=
  match last ps with None => pv | Some p => Some p end.

Fixpoint dseg (h : heap) (pv : option nat) (ps : list nat) (nx : option nat) : Prop :=
  match ps with
  | [] => True
  | p :: ps => links h p = Some (pv, hd_ptr ps nx) ∧ dseg h (Some p) ps nx
  end.

(** The level [l] holds the orders [os], in FIFO order, in the nodes [ps]. *)
Record level_rep (h : heap) (l : PriceLevel) (ps : list nat) (os : list Order) : Prop := {
  lr_head : head l = hd_ptr ps None;
  lr_tail : tail l = last ps;
  lr_links : dseg h None ps None;
  lr_nodup : NoDup ps;
  lr_orders : order_at h <$> ps = Some <$> os;
  lr_count : order_count l = u32 (Z.of_nat (length ps));
  lr_total : total_quantity l = i64 (zsum (ord_remaining <$> os));
}.

(** ** Heap projections under the node updates *)

Lemma links_alter f p h q :
  links (alter f p h) q =
  if decide (q = p) then (λ n, (node_prev (f n), node_next (f n))) <$> h !! q
  else links h q.
Proof.
  unfold links. rewrite list_lookup_alter.
  repeat case_decide; subst; try done. by destruct (h !! _).
Qed.

Lemma order_at_alter f p h q :
  order_at (alter f p h) q =
  if decide (q = p) then (node_order ∘ f) <$> h !! q else order_at h q.
Proof.
  unfold order_at. rewrite list_lookup_alter.
  repeat case_decide; subst; try done. by destruct (h !! _).
Qed.

Lemma index_at_alter f p h q :
  index_at (alter f p h) q =
  if decide (q = p) then (level_index ∘ f) <$> h !! q else index_at h q.
Proof.
  unfold index_at. rewrite list_lookup_alter.
  repeat case_decide; subst; try done. by destruct (h !! _).
Qed.

Lemma deref_order h p o : order_at h p = Some o → node_order (deref h p) = o.
Proof. unfold order_at, deref. by destruct (h !! p); simpl; intros [= <-]. Qed.

Lemma deref_links h p pv nx :
  links h p = Some (pv, nx) → node_prev (deref h p) = pv ∧ node_next (deref h p) = nx.
Proof. unfold links, deref. by destruct (h !! p); simpl; intros [= <- <-]. Qed.

Lemma deref_index h p i : index_at h p = Some i → level_index (deref h p) = i.
Proof. unfold index_at, deref. by destruct (h !! p); simpl; intros [= <-]. Qed.

(** Updates of the link fields leave orders and level indices alone. *)
Definition link_only (f : OrderNode → OrderNode) : Prop :=
  ∀ n, node_order (f n) = node_order n ∧ level_index (f n) = level_index n.

Lemma link_only_prev q : link_only (set_prev q).
Proof. done. Qed.

Lemma link_only_next q : link_only (set_next q).
Proof. done. Qed.

Lemma order_at_link f p h q :
  link_only f → order_at (alter f p h) q = order_at h q.
Proof.
  intros Hf. rewrite order_at_alter. case_decide; [|done]. unfold order_at.
  destruct (h !! q) as [n|]; simpl; [|done]. f_equal. apply Hf.
Qed.

Lemma index_at_link f p h q :
  link_only f → index_at (alter f p h) q = index_at h q.
Proof.
  intros Hf. rewrite index_at_alter. case_decide; [|done]. unfold index_at.
  destruct (h !! q) as [n|]; simpl; [|done]. f_equal. apply Hf.
Qed.

#[local] Hint Resolve link_only_prev link_only_next : jane.

(** Two heaps that agree on orders and level indices everywhere. *)
Record same_data (h h' : heap) : Prop := {
  sd_order : ∀ q, order_at h' q = order_at h q;
  sd_index : ∀ q, index_at h' q = index_at h q;
  sd_length : length h' = length h;
}.

#[export] Instance same_data_preorder : PreOrder same_data.
Proof.
  split; [by intros h|].
  intros h1 h2 h3 [A1 B1 C1] [A2 B2 C2].
  split; intros; etrans; eauto.
Qed.

Lemma same_data_alter f p h : link_only f → same_data h (alter f p h).
Proof.
  intros Hf. split.
  - intros q. by apply order_at_link.
  - intros q. by apply index_at_link.
  - apply length_alter.
Qed.

Lemma push_back_data h l p : same_data h (level_push_back h l p).1.
Proof.
  unfold level_push_back. destruct (tail l) as [t|]; simpl.
  all: repeat (etrans; [|apply same_data_alter; auto with jane]); done.
Qed.

Lemma unlink_data h l p : same_data h (level_unlink h l p).1.
Proof.
  unfold level_unlink.
  destruct (node_prev (deref h p)) as [q|]; simpl.
  all: destruct (node_next _) as [r|]; simpl.
  all: repeat (etrans; [|apply same_data_alter; auto with jane]); done.
Qed.

(** ** Segments *)

Lemma dseg_ext h h' pv ps nx :
  (∀ p, p ∈ ps → links h' p = links h p) → dseg h pv ps nx → dseg h' pv ps nx.
Proof.
  revert pv. induction ps as [|p ps IH]; intros pv Hl; simpl; [done|].
  intros [Hp Hps]. split; [rewrite Hl by set_solver; done|].
  apply IH; [set_solver|done].
Qed.

Lemma dseg_app h pv ps qs nx :
  dseg h pv (ps ++ qs) nx ↔
  dseg h pv ps (hd_ptr qs nx) ∧ dseg h (last_ptr pv ps) qs nx.
Proof.
  revert pv. induction ps as [|p ps IH]; intros pv; simpl; [tauto|].
  rewrite IH. replace (hd_ptr (ps ++ qs) nx) with (hd_ptr ps (hd_ptr qs nx))
    by by destruct ps.
  replace (last_ptr pv (p :: ps)) with (last_ptr (Some p) ps); [tauto|].
  unfold last_ptr. rewrite (last_cons p ps). by destruct (last ps).
Qed.

Lemma last_ptr_snoc pv ps p : last_ptr pv (ps ++ [p]) = Some p.
Proof. unfold last_ptr. by rewrite last_snoc. Qed.

(** Redirecting the last node's forward pointer. *)
Lemma dseg_relink_next h h' pv ps t nx nx' :
  NoDup (ps ++ [t]) →
  (∀ p, p ∈ ps → links h' p = links h p) →
  links h' t = Some (last_ptr pv ps, nx') →
  dseg h pv (ps ++ [t]) nx → dseg h' pv (ps ++ [t]) nx'.
Proof.
  intros Hnd Hl Ht. rewrite !dseg_app. simpl. intros [Hps _].
  split; [|done]. by eapply dseg_ext.
Qed.

(** Redirecting the first node's back pointer. *)
Lemma dseg_relink_prev h h' pv pv' q qs nx :
  (∀ p, p ∈ qs → links h' p = links h p) →
  links h' q = Some (pv', hd_ptr qs nx) →
  dseg h pv (q :: qs) nx → dseg h' pv' (q :: qs) nx.
Proof. intros Hl Hq [_ Hqs]. split; [done|]. by eapply dseg_ext. Qed.

Lemma dseg_links h pv ps p qs nx :
  dseg h pv (ps ++ p :: qs) nx → links h p = Some (last_ptr pv ps, hd_ptr qs nx).
Proof. rewrite dseg_app. simpl. tauto. Qed.

Lemma links_lt h p x : links h p = Some x → p < length h.
Proof.
  unfold links. intros (n&Hn&_)%fmap_Some. by eapply lookup_lt_Some.
Qed.

(** ** The links after each operation *)

Lemma push_back_links h l p q :
  p < length h → tail l ≠ Some p →
  links (level_push_back h l p).1 q =
  if decide (q = p) then Some (tail l, None)
  else if decide (tail l = Some q) then (λ x, (x.1, Some p)) <$> links h q
  else links h q.
Proof.
  intros [n Hn]%lookup_lt_is_Some_2 Ht. unfold level_push_back, links.
  destruct (tail l) as [t|]; simpl.
  all: rewrite !list_lookup_alter.
  all: repeat case_decide; simplify_eq; rewrite ?Hn; simpl; try done.
  by destruct (h !! q).
Qed.

Lemma unlink_links h l p pv nx q :
  links h p = Some (pv, nx) → pv ≠ Some p → nx ≠ Some p →
  (∀ r, pv = Some r → nx ≠ Some r) →
  links (level_unlink h l p).1 q =
  if decide (q = p) then Some (None, None)
  else if decide (pv = Some q) then (λ x, (x.1, nx)) <$> links h q
  else if decide (nx = Some q) then (λ x, (pv, x.2)) <$> links h q
  else links h q.
Proof.
  intros Hp Hpv Hnx Hne. unfold level_unlink.
  destruct (deref_links _ _ _ _ Hp) as [-> ->].
  assert (∀ r f, r ≠ p → deref (alter f r h) p = deref h p) as Hd.
  { intros r f ?. unfold deref. by rewrite list_lookup_alter_ne. }
  destruct (deref_links _ _ _ _ Hp) as [Hp1 Hp2].
  unfold links in *. apply fmap_Some in Hp as (n&Hn&_).
  destruct pv as [r|]; simpl; rewrite ?Hd by naive_solver; rewrite Hp2.
  all: destruct nx as [r'|]; simpl; rewrite ?Hd by naive_solver; rewrite ?Hp1.
  all: rewrite !list_lookup_alter.
  all: repeat case_decide; simplify_eq; rewrite ?Hn; simpl; try done.
  all: try (by destruct (h !! q)).
  all: exfalso; naive_solver.
Qed.

Lemma unlink_level h l p pv nx o :
  links h p = Some (pv, nx) → order_at h p = Some o →
  pv ≠ Some p → nx ≠ Some p →
  (level_unlink h l p).2 =
  mkLevel (match pv with Some _ => head l | None => nx end)
          (match nx with Some _ => tail l | None => pv end)
          (StrongAmount.sub (total_quantity l) (ord_remaining o))
          (u32 (order_count l - 1)).
Proof.
  intros Hp Ho Hpv Hnx.
  assert (ord_remaining (node_order (deref (level_unlink h l p).1 p)) = ord_remaining o) as Hr.
  { f_equal. apply deref_order. by rewrite (sd_order _ _ (unlink_data h l p)). }
  revert Hr. unfold level_unlink.
  destruct (deref_links _ _ _ _ Hp) as [-> ->].
  assert (∀ r f, r ≠ p → deref (alter f r h) p = deref h p) as Hd.
  { intros r f ?. unfold deref. by rewrite list_lookup_alter_ne. }
  destruct (deref_links _ _ _ _ Hp) as [Hp1 Hp2].
  destruct pv as [r|]; simpl; rewrite ?Hd by naive_solver; rewrite Hp2.
  all: destruct nx as [r'|]; simpl; rewrite ?Hd by naive_solver; rewrite ?Hp1.
  all: intros ->; done.
Qed.

(** ** Representation lemmas *)

Lemma level_rep_length h l ps os : level_rep h l ps os → length ps = length os.
Proof.
  intros H. pose proof (f_equal length (lr_orders _ _ _ _ H)) as E.
  by rewrite !length_fmap in E.
Qed.

Lemma fmap_order_ext h h' (ps : list nat) :
  (∀ p, p ∈ ps → order_at h' p = order_at h p) →
  order_at h' <$> ps = order_at h <$> ps.
Proof.
  intros H. apply list_fmap_ext. intros i p Hp. apply H.
  by eapply list_elem_of_lookup_2.
Qed.

Lemma level_rep_frame h h' l ps os :
  level_rep h l ps os →
  (∀ p, p ∈ ps → links h' p = links h p ∧ order_at h' p = order_at h p) →
  level_rep h' l ps os.
Proof.
  intros [Hh Ht Hl Hnd Ho Hc Hq] Hf. split; try done.
  - eapply dseg_ext; [|done]. intros p Hp. by apply Hf.
  - rewrite <- Ho. apply fmap_order_ext. intros p Hp. by apply Hf.
Qed.

Lemma level_rep_empty h : level_rep h default_level [] [].
Proof. split; try done. constructor. Qed.

Lemma push_back_rep h l ps os p o :
  level_rep h l ps os → p ∉ ps → order_at h p = Some o →
  level_rep (level_push_back h l p).1 (level_push_back h l p).2 (ps ++ [p]) (os ++ [o]).
Proof.
  intros [Hh Ht Hl Hnd Ho Hc Hq] Hp Hop.
  assert (p < length h) as Hlt.
  { unfold order_at in Hop. apply fmap_Some in Hop as (n&Hn&_).
    by eapply lookup_lt_Some. }
  assert (tail l ≠ Some p) as Htp.
  { rewrite Ht. intros E%last_Some_elem_of. done. }
  pose proof (push_back_data h l p) as [Hod _ _].
  pose proof (push_back_links h l p) as Hlk.
  set (h' := (level_push_back h l p).1) in *.
  assert (ord_remaining (node_order (deref h' p)) = ord_remaining o) as Hrem.
  { f_equal. apply deref_order. by rewrite Hod. }
  assert (level_push_back h l p =
    (h', mkLevel (match tail l with Some _ => head l | None => Some p end) (Some p)
           (StrongAmount.add (total_quantity l) (ord_remaining o))
           (u32 (order_count l + 1)))) as ->.
  { revert Hrem. unfold h', level_push_back. by destruct (tail l); simpl; intros ->. }
  split; simpl.
  - rewrite Ht, Hh. destruct ps as [|q ps]; [done|]. rewrite last_cons.
    by destruct (last ps).
  - by rewrite last_snoc.
  - destruct ps as [|t ps _] using rev_ind; simpl.
    + split; [|done]. rewrite Hlk, decide_True by done. by rewrite Ht.
    + rewrite last_snoc in Ht. rewrite dseg_app. simpl. split.
      * eapply dseg_relink_next; [done| | |done].
        -- intros q Hq'. rewrite Hlk by done. rewrite decide_False by set_solver.
           rewrite decide_False; [done|]. rewrite Ht. intros [= <-].
           apply NoDup_app in Hnd as (_&Hd&_). apply (Hd t); set_solver.
        -- rewrite Hlk by done. rewrite decide_False by set_solver.
           rewrite decide_True by done. by rewrite (dseg_links h None ps t [] None).
      * split; [|done]. rewrite Hlk, decide_True, Ht by done.
        by rewrite last_ptr_snoc.
  - apply NoDup_app. split_and!; [done|set_solver|apply NoDup_singleton].
  - rewrite !fmap_app. simpl. rewrite Hod, Hop. f_equal. rewrite <- Ho.
    apply fmap_order_ext. intros; apply Hod.
  - rewrite Hc, u32_add_l, length_app. simpl. f_equal. lia.
  - rewrite Hq, fmap_app, zsum_app. simpl. unfold StrongAmount.add.
    rewrite i64_add_l. f_equal. lia.
Qed.

Lemma last_ptr_None (ps : list nat) : last_ptr None ps = last ps.
Proof. unfold last_ptr. by destruct (last ps). Qed.

Lemma hd_ptr_in (ps : list nat) q : hd_ptr ps None = Some q → q ∈ ps.
Proof. destruct ps; simpl; [done|]. intros [= ->]. set_solver. Qed.

(** The doubly linked structure after the unlink. *)
Lemma unlink_dseg h l l1 p l2 :
  NoDup (l1 ++ p :: l2) → dseg h None (l1 ++ p :: l2) None →
  dseg (level_unlink h l p).1 None (l1 ++ l2) None.
Proof.
  intros Hnd Hseg.
  pose proof (dseg_links _ _ _ _ _ _ Hseg) as Hp.
  rewrite last_ptr_None in Hp.
  apply NoDup_app in Hnd as (Hn1&Hd&[Hp2 Hn2]%NoDup_cons).
  assert (last l1 ≠ Some p) as Hpv by (intros E%last_Some_elem_of; set_solver).
  assert (hd_ptr l2 None ≠ Some p) as Hnx by (intros E%hd_ptr_in; set_solver).
  assert (∀ r, last l1 = Some r → hd_ptr l2 None ≠ Some r) as Hne
    by (intros r E%last_Some_elem_of E'%hd_ptr_in; set_solver).
  pose proof (λ q, unlink_links h l p _ _ q Hp Hpv Hnx Hne) as Hlk.
  set (h' := (level_unlink h l p).1) in *.
  apply dseg_app in Hseg as [Hs1 [_ Hs2]]. simpl in Hs1.
  apply dseg_app. rewrite last_ptr_None. split.
  - destruct l1 as [|t l1 _] using rev_ind; [done|]. rewrite last_snoc in Hlk, Hne.
    apply NoDup_app in Hn1 as (_&Hd1&_).
    assert (∀ q, q ∈ l1 → links h' q = links h q) as Hsame.
    { intros q Hq. rewrite Hlk. rewrite decide_False by set_solver.
      rewrite decide_False; [|intros [= <-]; set_solver].
      rewrite decide_False; [done|]. intros E%hd_ptr_in. set_solver. }
    apply dseg_app in Hs1 as [Hs1 [Ht _]]. apply dseg_app.
    split; [by eapply dseg_ext|]. split; [|done].
    rewrite Hlk. rewrite decide_False by set_solver.
    rewrite decide_True by done. by rewrite Ht.
  - destruct l2 as [|t l2]; [done|]. simpl in Hlk, Hne.
    apply NoDup_cons in Hn2 as [Ht2 Hn2].
    eapply dseg_relink_prev; [| |done].
    + intros q Hq. rewrite Hlk. rewrite decide_False by set_solver.
      rewrite decide_False; [|intros E%last_Some_elem_of; set_solver].
      rewrite decide_False; [done|]. intros [= <-]. set_solver.
    + rewrite Hlk. rewrite decide_False by set_solver.
      rewrite decide_False by naive_solver. rewrite decide_True by done.
      destruct Hs2 as [-> _]. done.
Qed.

Lemma orders_split h l1 p l2 o1 (o : Order) o2 :
  length l1 = length o1 →
  order_at h <$> (l1 ++ p :: l2) = Some <$> (o1 ++ o :: o2) →
  order_at h <$> l1 = Some <$> o1 ∧ order_at h p = Some o ∧
  order_at h <$> l2 = Some <$> o2.
Proof.
  intros Hlen. rewrite !fmap_app, !fmap_cons.
  intros [H1 H2]%app_inj_1; [|by rewrite !length_fmap].
  apply (f_equal (drop 1)) in H2 as H3. apply (f_equal List.hd_error) in H2.
  simpl in H2, H3. rewrite !drop_0 in H3. injection H2 as H2. done.
Qed.

Lemma unlink_rep h l l1 p l2 o1 o o2 :
  level_rep h l (l1 ++ p :: l2) (o1 ++ o :: o2) → length l1 = length o1 →
  level_rep (level_unlink h l p).1 (level_unlink h l p).2 (l1 ++ l2) (o1 ++ o2).
Proof.
  intros [Hh Ht Hl Hnd Ho Hc Hq] Hlen.
  apply orders_split in Ho as (Ho1&Hop&Ho2); [|done].
  pose proof (dseg_links _ _ _ _ _ _ Hl) as Hp. rewrite last_ptr_None in Hp.
  pose proof (unlink_data h l p) as [Hod _ _].
  pose proof Hnd as (Hn1&Hd&[Hp2 Hn2]%NoDup_cons)%NoDup_app.
  rewrite (unlink_level h l p _ _ o Hp Hop); cycle 1.
  { intros E%last_Some_elem_of; set_solver. }
  { intros E%hd_ptr_in; set_solver. }
  split; simpl.
  - rewrite Hh. destruct l1 as [|q l1]; [done|]. rewrite last_cons.
    by destruct (last l1).
  - rewrite Ht, !last_app, last_cons. destruct l2 as [|q l2]; simpl; [done|].
    by destruct (last (q :: l2)) eqn:E; [|apply last_None in E].
  - by apply unlink_dseg.
  - apply NoDup_app. split_and!; [done|set_solver|done].
  - rewrite !fmap_app. rewrite <- Ho1, <- Ho2. f_equal; apply fmap_order_ext; intros; apply Hod.
  - rewrite Hc. unfold u32. rewrite Zminus_mod_idemp_l. f_equal.
    rewrite !length_app. simpl. lia.
  - rewrite Hq, !fmap_app, fmap_cons, !zsum_app. simpl. unfold StrongAmount.sub.
    rewrite i64_sub_l. f_equal. lia.
Qed.

(** Shrinking one order in place, with the aggregate adjusted by the caller. *)
Lemma level_rep_reduce h l l1 p l2 o1 o o2 amt :
  level_rep h l (l1 ++ p :: l2) (o1 ++ o :: o2) → length l1 = length o1 →
  (0 ≤ amt ≤ ord_remaining o)%Z → is_i64 (ord_remaining o) →
  let o' := set_remaining (StrongAmount.sub (ord_remaining o) amt) o in
  level_rep (alter (set_order o') p h)
    (mkLevel (head l) (tail l) (StrongAmount.sub (total_quantity l) amt) (order_count l))
    (l1 ++ p :: l2) (o1 ++ o' :: o2).
Proof.
  intros [Hh Ht Hl Hnd Ho Hc Hq] Hlen Hamt Hi o'.
  apply orders_split in Ho as (Ho1&Hop&Ho2); [|done].
  pose proof Hnd as (Hn1&Hd&[Hp2 Hn2]%NoDup_cons)%NoDup_app.
  split; simpl; try done.
  - eapply dseg_ext; [|done]. intros q _. rewrite links_alter. by case_decide.
  - rewrite !fmap_app, !fmap_cons. f_equal; [|f_equal].
    + rewrite <- Ho1. apply fmap_order_ext. intros q Hq'.
      rewrite order_at_alter, decide_False; [done|]. set_solver.
    + rewrite order_at_alter, decide_True by done. unfold order_at in Hop.
      by destruct (h !! p).
    + rewrite <- Ho2. apply fmap_order_ext. intros q Hq'.
      rewrite order_at_alter, decide_False; [done|]. set_solver.
  - rewrite Hq, !fmap_app, !fmap_cons, !zsum_app. simpl. unfold StrongAmount.sub at 1.
    rewrite amount_sub_small by (done || lia). rewrite i64_sub_l. f_equal. lia.
Qed.

(** The forward walk visits exactly the nodes of the level. *)
Lemma walk_dseg h fuel pv ps :
  length ps ≤ fuel → dseg h pv ps None → walk h fuel (hd_ptr ps None) = ps.
Proof.
  revert fuel pv. induction ps as [|p ps IH]; intros fuel pv Hf Hseg; simpl.
  { by destruct fuel. }
  destruct fuel as [|fuel]; simpl in *; [lia|]. destruct Hseg as [Hp Hseg].
  destruct (deref_links _ _ _ _ Hp) as [_ ->]. f_equal. eapply IH; [lia|done].
Qed.

End Level.
