(* ===== verification/HashMap.v ===== *)
(** * The interface of the flat hash map

    [ankerl::unordered_dense::map] is a third-party container that the book
    (order id to node) and the risk engine (account to exposure) look up.
    The class lists the operations the sources call and the laws they rely
    on; every client theorem is proved against the class.  [gmap] is an
    instance, so the laws can hold. *)

From S2P Require Import Prelude.
From stdpp Require Import base tactics gmap.

Set Default Goal Selector "!".

Class HashMap (K V M : Type) := {
  hm_empty : M;
  hm_find : M → K → option V;
  (** [emplace] keeps the value of a key that is present. *)
  hm_emplace : M → K → V → M;
  hm_erase : M → K → M;
  (** writing through the reference that [operator[]] returns *)
  hm_assign : M → K → V → M;
}.

Class HashMapLaws (K V M : Type) `{EqDecision K} `{!HashMap K V M} : Prop := {
  hm_find_empty (k : K) : hm_find hm_empty k = None;
  hm_find_emplace (m : M) (k k' : K) (v : V) :
    hm_find (hm_emplace m k v) k' =
    if decide (k' = k) then Some (default v (hm_find m k)) else hm_find m k';
  hm_find_erase (m : M) (k k' : K) :
    hm_find (hm_erase m k) k' = if decide (k' = k) then None else hm_find m k';
  hm_find_assign (m : M) (k k' : K) (v : V) :
    hm_find (hm_assign m k v) k' = if decide (k' = k) then Some v else hm_find m k';
}.

Definition hm_contains `{HashMap K V M} (m : M) (k : K) : bool :=
  match hm_find m k with Some _ => true | None => false end.

#[export] Instance gmap_hashmap (K V : Type) `{Countable K} : HashMap K V (gmap K V) := {|
  hm_empty := ∅;
  hm_find m k := m !! k;
  hm_emplace m k v := match m !! k with Some _ => m | None => <[k := v]> m end;
  hm_erase m k := delete k m;
  hm_assign m k v := <[k := v]> m;
|}.

#[export] Instance gmap_hashmap_laws (K V : Type) `{Countable K} :
  HashMapLaws K V (gmap K V).
Proof.
  split; simpl.
  - intros k. apply lookup_empty.
  - intros m k k' v. destruct (m !! k) eqn:E; case_decide; subst; simplify_map_eq; done.
  - intros m k k'. case_decide; subst; by simplify_map_eq.
  - intros m k k' v. case_decide; subst; by simplify_map_eq.
Qed.
