(* ===== verification/Ladder.v ===== *)
(** * One side of the price ladder
    (src/include/jane/book/order_book.hpp, class LadderSide)

    The price slots of one side, the occupancy bitmap and the cached best
    index.  The template parameter [IsBid] decides which direction is
    better.  The theorems show that the cached best index and [next_after]
    enumerate the occupied slots from best to worst. *)

From S2P Require Import Prelude Types Bitmap Level.
From Stdlib Require Import Sorted.
From stdpp Require Import base tactics numbers list sets.

Set Default Goal Selector "!".

Module Ladder.

Record t := mk {
  levels : list Level.PriceLevel;
  occupied : Bitmap.t;
  best_index : option nat;
}.

Definition create (NumLevels : nat) : t :=
  mk (replicate NumLevels Level.default_level) (Bitmap.create NumLevels) None.

(** [levels_[index]]; the callers only pass indices below [NumLevels]. *)
Definition level (s : t) (index : nat) : Level.PriceLevel :=
  default Level.default_level (levels s !! index).

(** Writing through the reference [level(index)] returns. *)
Definition set_level (s : t) (index : nat) (l : Level.PriceLevel) : t :=
  mk (<[index := l]> (levels s)) (occupied s) (best_index s).

Definition is_better (IsBid : bool) (a b : nat) : bool :=
  if IsBid then b <? a else a <? b.

Definition note_nonempty (IsBid : bool) (s : t) (index : nat) : t :=
  mk (levels s) (Bitmap.set (occupied s) index)
     (match best_index s with
      | None => Some index
      | Some b => if is_better IsBid index b then Some index else Some b
      end).

(** The next-best occupied index strictly worse than [index]. *)
Definition next_after (IsBid : bool) (s : t) (index : nat) : option nat :=
  if IsBid then
    if (index =? 0) then None
    else Bitmap.find_highest_at_or_below (occupied s) (index - 1)
  else Bitmap.find_lowest_at_or_above (occupied s) (index + 1).

Definition note_maybe_empty (IsBid : bool) (s : t) (index : nat) : t :=
  if negb (Level.empty (level s index)) then s
  else
    let occ := Bitmap.clear (occupied s) index in
    let s' := mk (levels s) occ (best_index s) in
    if decide (best_index s = Some index)
    then mk (levels s) occ (next_after IsBid s' index)
    else s'.

(** ** Priority *)

(** All slots from best to worst. *)
Definition prio (IsBid : bool) (NumLevels : nat) : list nat :=
  if IsBid then reverse (seq 0 NumLevels) else seq 0 NumLevels.

(** [o] is the best index on which [f] holds. *)
Definition is_best (IsBid : bool) (f : nat → bool) (o : option nat) : Prop :=
  match o with
  | Some j => f j = true ∧ ∀ k, f k = true → k = j ∨ is_better IsBid j k = true
  | None => ∀ k, f k = false
  end.

(** The bitmap and the cached best agree; the bitmap has [N] bits. *)
Record index_ok (IsBid : bool) (N : nat) (s : t) : Prop := {
  io_wf : Bitmap.wf (occupied s);
  io_bits : Bitmap.num_bits (occupied s) = N;
  io_best : is_best IsBid (Bitmap.test (occupied s)) (best_index s);
}.

(** The bitmap marks exactly the non-empty levels. *)
Record ok (IsBid : bool) (N : nat) (s : t) : Prop := {
  ok_index : index_ok IsBid N s;
  ok_length : length (levels s) = N;
  ok_occ : ∀ i, Bitmap.test (occupied s) i = negb (Level.empty (level s i));
}.

Lemma is_better_irrefl b i : is_better b i i = false.
Proof. destruct b; simpl; apply Nat.ltb_irrefl. Qed.

Lemma is_better_trans b i j k :
  is_better b i j = true → is_better b j k = true → is_better b i k = true.
Proof. destruct b; simpl; rewrite !Nat.ltb_lt; lia. Qed.

Lemma is_better_total b i j :
  i = j ∨ is_better b i j = true ∨ is_better b j i = true.
Proof. destruct b; simpl; rewrite !Nat.ltb_lt; lia. Qed.

Lemma is_better_asym b i j : is_better b i j = true → is_better b j i = false.
Proof. destruct b; simpl; rewrite Nat.ltb_lt, Nat.ltb_ge; lia. Qed.

Lemma is_best_unique b f o1 o2 : is_best b f o1 → is_best b f o2 → o1 = o2.
Proof.
  destruct o1 as [j1|], o2 as [j2|]; simpl; intros H1 H2; try done.
  - destruct H1 as [F1 U1], H2 as [F2 U2].
    destruct (U1 _ F2) as [->|B1]; [done|]. destruct (U2 _ F1) as [->|B2]; [done|].
    apply is_better_asym in B1. congruence.
  - destruct H1 as [F1 _]. by rewrite H2 in F1.
  - destruct H2 as [F2 _]. by rewrite H1 in F2.
Qed.

Lemma is_best_ext b f g o : (∀ k, f k = g k) → is_best b f o → is_best b g o.
Proof.
  intros E. destruct o as [j|]; simpl; rewrite ?E; [|setoid_rewrite E; done].
  intros [? U]. split; [done|]. intros k. rewrite <- E. apply U.
Qed.

Lemma next_after_best b s i :
  Bitmap.wf (occupied s) →
  is_best b (λ k, Bitmap.test (occupied s) k && is_better b i k) (next_after b s i).
Proof.
  intros Hwf. destruct b; simpl.
  - destruct (Nat.eqb_spec i 0) as [->|Hi].
    { intros k. rewrite (proj2 (Nat.ltb_ge k 0)) by lia. apply andb_false_r. }
    pose proof (Bitmap.find_highest_spec (occupied s) (i - 1) Hwf) as H.
    destruct (Bitmap.find_highest_at_or_below _ _) as [j|]; simpl in H |- *.
    + destruct H as (?&->&Hu). rewrite (proj2 (Nat.ltb_lt j i)) by lia.
      split; [done|]. intros k [Hk Hlt]%andb_true_iff. apply Nat.ltb_lt in Hlt.
      destruct (decide (j < k)).
      * rewrite Hu in Hk; [done|lia|lia].
      * rewrite Nat.ltb_lt. lia.
    + intros k. destruct (Nat.ltb_spec k i); [|apply andb_false_r].
      by rewrite H by lia.
  - pose proof (Bitmap.find_lowest_spec (occupied s) (i + 1) Hwf) as H.
    destruct (Bitmap.find_lowest_at_or_above _ _) as [j|]; simpl in H |- *.
    + destruct H as (?&->&Hu). rewrite (proj2 (Nat.ltb_lt i j)) by lia.
      split; [done|]. intros k [Hk Hlt]%andb_true_iff. apply Nat.ltb_lt in Hlt.
      destruct (decide (k < j)).
      * rewrite Hu in Hk; [done|lia|lia].
      * rewrite Nat.ltb_lt. lia.
    + intros k. destruct (Nat.ltb_spec i k); [|apply andb_false_r].
      by rewrite H by lia.
Qed.

(** ** The two notifications keep the index consistent *)

Lemma note_nonempty_index b N s i :
  index_ok b N s → i < N → index_ok b N (note_nonempty b s i).
Proof.
  intros [Hwf Hn Hb] Hi. split; simpl.
  - apply Bitmap.wf_set; [done|lia].
  - done.
  - assert (∀ k, Bitmap.test (Bitmap.set (occupied s) i) k =
      bool_decide (k = i) || Bitmap.test (occupied s) k) as Ht.
    { intros k. apply Bitmap.test_set; [done|lia]. }
    apply (is_best_ext _ _ _ _ (λ k, eq_sym (Ht k))).
    destruct (best_index s) as [j|]; unfold is_best in Hb |- *.
    + destruct Hb as [Hj Hu]. destruct (is_better b i j) eqn:E.
      * rewrite bool_decide_eq_true_2 by done. split; [done|].
        intros k [?%bool_decide_eq_true|Hk]%orb_true_iff; [by left|]. right.
        destruct (Hu k Hk) as [->|]; [done|]. by eapply is_better_trans.
      * rewrite Hj, orb_true_r. split; [done|].
        intros k [->%bool_decide_eq_true|Hk]%orb_true_iff; [|by apply Hu].
        destruct (is_better_total b i j) as [|[|]]; [by left|congruence|by right].
    + rewrite bool_decide_eq_true_2 by done. split; [done|].
      intros k [?%bool_decide_eq_true|Hk]%orb_true_iff; [by left|].
      by rewrite Hb in Hk.
Qed.

Lemma note_maybe_empty_index b N s i :
  index_ok b N s → i < N → index_ok b N (note_maybe_empty b s i).
Proof.
  intros [Hwf Hn Hb] Hi. unfold note_maybe_empty.
  destruct (negb _); [done|].
  assert (∀ k, Bitmap.test (Bitmap.clear (occupied s) i) k =
    negb (bool_decide (k = i)) && Bitmap.test (occupied s) k) as Ht.
  { intros k. apply Bitmap.test_clear; [done|lia]. }
  assert (Bitmap.wf (Bitmap.clear (occupied s) i)) as Hwf'
    by (apply Bitmap.wf_clear; [done|lia]).
  destruct (decide (best_index s = Some i)) as [E|E]; split; simpl; try done.
  - rewrite E in Hb. destruct Hb as [_ Hu].
    set (s' := mk _ _ _).
    assert (∀ k, Bitmap.test (occupied s') k =
      Bitmap.test (occupied s') k && is_better b i k) as Hs'.
    { intros k. unfold s'; simpl. rewrite Ht.
      destruct (Bitmap.test (occupied s) k) eqn:Hk; [|by rewrite andb_false_r].
      destruct (Hu k Hk) as [-> | ->]; [|by rewrite !andb_true_r].
      by rewrite bool_decide_eq_true_2. }
    eapply is_best_ext; [intros k; symmetry; apply Hs'|].
    by apply next_after_best.
  - eapply is_best_ext; [intros k; symmetry; apply Ht|].
    destruct (best_index s) as [j|]; unfold is_best in *.
    + destruct Hb as [Hj Hu].
      rewrite bool_decide_eq_false_2 by congruence. split; [done|].
      intros k [_ Hk]%andb_true_iff. by apply Hu.
    + intros k. rewrite Hb. apply andb_false_r.
Qed.

Lemma create_ok b N : ok b N (create N).
Proof.
  split; [split; simpl| |]; simpl.
  - apply Bitmap.wf_create.
  - done.
  - intros k. apply Bitmap.test_create.
  - apply length_replicate.
  - intros i. rewrite Bitmap.test_create. unfold level, create; simpl.
    destruct (replicate _ _ !! i) eqn:E; simpl; [|done].
    by apply lookup_replicate in E as [-> _].
Qed.

Lemma level_set_level s i l k :
  i < length (levels s) →
  level (set_level s i l) k = if decide (k = i) then l else level s k.
Proof.
  intros Hi. unfold level, set_level; simpl. case_decide; subst.
  - by rewrite list_lookup_insert_eq.
  - by rewrite list_lookup_insert_ne.
Qed.

(** Writing a non-empty level and notifying when it was empty before. *)
Lemma push_ok b N s i l :
  ok b N s → i < N → Level.empty l = false →
  ok b N (if Level.empty (level s i) then note_nonempty b (set_level s i l) i
          else set_level s i l).
Proof.
  intros [Hio Hl Ho] Hi He.
  assert (index_ok b N (set_level s i l)) as Hio' by by destruct Hio.
  assert (∀ k, level (set_level s i l) k = if decide (k = i) then l else level s k) as Hlv
    by (intros; apply level_set_level; lia).
  destruct (Level.empty (level s i)) eqn:Ee.
  - split.
    + by apply note_nonempty_index.
    + simpl. by rewrite length_insert.
    + intros k. change (level (note_nonempty b (set_level s i l) i) k)
        with (level (set_level s i l) k). rewrite Hlv. simpl.
      destruct Hio as [Hwf Hn _]. rewrite Bitmap.test_set by (done || lia).
      rewrite Ho. case_decide as Hk.
      * subst. rewrite bool_decide_eq_true_2 by done. by rewrite He.
      * by rewrite bool_decide_eq_false_2.
  - split; [done| |].
    + simpl. by rewrite length_insert.
    + intros k. rewrite Hlv. simpl. rewrite Ho. case_decide; [|done].
      subst. by rewrite Ee, He.
Qed.

(** Writing a level that is empty exactly when the old one was. *)
Lemma set_level_ok b N s i l :
  ok b N s → i < N → Level.empty l = Level.empty (level s i) → ok b N (set_level s i l).
Proof.
  intros [Hio Hl Ho] Hi He. split.
  - by destruct Hio.
  - simpl. by rewrite length_insert.
  - intros k. rewrite level_set_level by lia. simpl. rewrite Ho.
    case_decide; [|done]. subst. by rewrite He.
Qed.

(** Writing a level that may have become empty and notifying. *)
Lemma pop_ok b N s i l :
  ok b N s → i < N → Level.empty (level s i) = false →
  ok b N (note_maybe_empty b (set_level s i l) i).
Proof.
  intros [Hio Hl Ho] Hi Hne.
  assert (index_ok b N (set_level s i l)) as Hio' by by destruct Hio.
  assert (∀ k, level (set_level s i l) k = if decide (k = i) then l else level s k) as Hlv
    by (intros; apply level_set_level; lia).
  assert (levels (note_maybe_empty b (set_level s i l) i) = levels (set_level s i l)) as Hls.
  { unfold note_maybe_empty. destruct (negb _); [done|]. by destruct (decide _). }
  split.
  - by apply note_maybe_empty_index.
  - rewrite Hls. simpl. by rewrite length_insert.
  - intros k. unfold level. rewrite Hls. fold (level (set_level s i l) k). rewrite Hlv.
    unfold note_maybe_empty. rewrite Hlv, decide_True by done.
    destruct Hio as [Hwf Hn _].
    assert (∀ x, Bitmap.test (occupied (if decide (best_index (set_level s i l) = Some i) then
       mk (levels (set_level s i l)) (Bitmap.clear (occupied (set_level s i l)) i) x else
       mk (levels (set_level s i l)) (Bitmap.clear (occupied (set_level s i l)) i)
          (best_index (set_level s i l)))) k
       = negb (bool_decide (k = i)) && Bitmap.test (occupied s) k) as Hc.
    { intros x. case_decide; simpl; apply Bitmap.test_clear; done || lia. }
    destruct (Level.empty l) eqn:El; simpl negb; cbv iota.
    + rewrite Hc, Ho. clear Hc Hlv. case_decide as Hk.
      * subst. rewrite bool_decide_eq_true_2 by done. by rewrite El.
      * by rewrite bool_decide_eq_false_2.
    + clear Hc Hlv. simpl. rewrite Ho. case_decide; [|done]. subst. by rewrite Hne, El.
Qed.

(** ** Enumeration from best to worst *)

Lemma elem_of_prio b N i : i ∈ prio b N ↔ i < N.
Proof.
  unfold prio. destruct b; [rewrite elem_of_reverse|]; rewrite elem_of_seq; lia.
Qed.

Lemma prio_NoDup b N : NoDup (prio b N).
Proof.
  unfold prio. destruct b; [|apply NoDup_seq].
  rewrite (reverse_Permutation (seq 0 N)). apply NoDup_seq.
Qed.

Lemma length_prio b N : length (prio b N) = N.
Proof. unfold prio. destruct b; [rewrite length_reverse|]; apply length_seq. Qed.

Lemma prio_sorted b N : StronglySorted (λ i j, is_better b i j = true) (prio b N).
Proof.
  unfold prio. destruct b.
  - induction N as [|N IH]; [constructor|].
    rewrite seq_S, reverse_snoc. constructor; [done|].
    apply Forall_forall. intros i. rewrite elem_of_reverse, elem_of_seq.
    intros ?. apply Nat.ltb_lt. lia.
  - generalize 0. induction N as [|N IH]; intros k; simpl; constructor; [done|].
    apply Forall_forall. intros i. rewrite elem_of_seq.
    intros ?. apply Nat.ltb_lt. lia.
Qed.

Lemma hd_filter_best b f (l : list nat) :
  StronglySorted (λ i j, is_better b i j = true) l →
  (∀ k, f k = true → k ∈ l) →
  is_best b f (hd_error (List.filter f l)).
Proof.
  induction 1 as [|i l Hl IH Hi]; intros Hin; simpl.
  - intros k. destruct (f k) eqn:E; [|done]. apply Hin in E. set_solver.
  - destruct (f i) eqn:E; simpl.
    + split; [done|]. intros k Hk. apply Hin, elem_of_cons in Hk as [->|Hk]; [by left|].
      right. by eapply Forall_forall in Hi.
    + apply IH. intros k Hk. pose proof (Hin k Hk) as Hk2. apply elem_of_cons in Hk2 as [->|?]; [congruence|done].
Qed.

(** Occupied slots of a side, best first. *)
Definition occupied_prio (b : bool) (N : nat) (s : t) : list nat :=
  List.filter (Bitmap.test (occupied s)) (prio b N).

Lemma index_ok_lt b N s k : index_ok b N s → Bitmap.test (occupied s) k = true → k < N.
Proof.
  intros [Hwf Hn _] Hk. destruct (decide (k < N)); [done|].
  rewrite (Bitmap.wf_high _ Hwf) in Hk by lia. done.
Qed.

Lemma best_index_prio b N s :
  index_ok b N s → best_index s = hd_error (occupied_prio b N s).
Proof.
  intros H. eapply is_best_unique; [apply H|]. apply hd_filter_best.
  - apply prio_sorted.
  - intros k Hk. apply elem_of_prio. by eapply index_ok_lt.
Qed.

Lemma sorted_split_filter b f (pre : list nat) i post :
  StronglySorted (λ i j, is_better b i j = true) (pre ++ i :: post) →
  List.filter (λ k, f k && is_better b i k) (pre ++ i :: post) = List.filter f post.
Proof.
  intros Hs. rewrite List.filter_app. simpl. rewrite is_better_irrefl, andb_false_r.
  assert (List.filter (λ k, f k && is_better b i k) pre = []) as ->.
  { induction pre as [|j pre IH]; [done|]. simpl in Hs |- *.
    apply StronglySorted_inv in Hs as [Hs Hj].
    eapply Forall_forall in Hj; [|apply elem_of_app; right; left].
    apply is_better_asym in Hj. rewrite Hj, andb_false_r. by apply IH. }
  simpl. induction pre as [|j pre IH].
  2: { simpl in Hs. apply StronglySorted_inv in Hs as [Hs _]. by apply IH. }
  simpl in Hs. apply StronglySorted_inv in Hs as [_ Hi].
  induction post as [|j post IH]; simpl; [done|].
  apply Forall_cons in Hi as [-> Hi]. rewrite andb_true_r, IH by done. done.
Qed.

Lemma next_after_prio b N s pre i post :
  index_ok b N s → prio b N = pre ++ i :: post →
  next_after b s i = hd_error (List.filter (Bitmap.test (occupied s)) post).
Proof.
  intros H Hp. pose proof (prio_sorted b N) as Hs. rewrite Hp in Hs.
  rewrite <- (sorted_split_filter b _ pre i post Hs).
  eapply is_best_unique; [apply next_after_best, H|].
  apply hd_filter_best; [done|].
  intros k [Hk _]%andb_true_iff. rewrite <- Hp. apply elem_of_prio.
  by eapply index_ok_lt.
Qed.

End Ladder.
