(* ===== verification/OrderBook.v ===== *)
(** * The limit order book (src/include/jane/book/order_book.hpp, class OrderBook)

    Two ladder sides, the node pool, the id index and the order count.
    Operations are translated statement by statement; fallible ones return
    [inl error] or [inr result] together with the new book.  [rep] relates
    a book to the FIFO of orders at every price of every side. *)

From S2P Require Import Prelude Types Bitmap SlabPool Level HashMap Ladder.
From stdpp Require Import base tactics numbers list sets.

Set Default Goal Selector "!".

Module OrderBook.
Import Level.

Inductive AddError :=
  PriceOutOfRange | DuplicateId | PoolExhausted | BadQuantity | MarketOrderCannotRest.
Inductive CancelError := CancelNotFound.
Inductive ReduceError := ReduceNotFound | InvalidFillAmount.
Inductive ReplaceError :=
  ReplaceNotFound | ReplacePriceOutOfRange | ReplaceInvalidQuantity | ReplacePoolExhausted.

Section book.
Context (NumLevels MaxOrders : nat).
Context {M : Type} `{!HashMap Z nat M}.

Record t := mk {
  symbol : Z;
  base_price : Z;
  bids : Ladder.t;
  asks : Ladder.t;
  pool : SlabPool.t OrderNode;
  order_index : M;
  order_count : Z;
}.

Definition create (sym base : Z) : t :=
  mk sym base (Ladder.create NumLevels) (Ladder.create NumLevels)
     (SlabPool.create default_node MaxOrders) hm_empty 0.

(** ** Field access *)

Definition heap_of (b : t) : heap := SlabPool.storage (pool b).

Definition with_heap (b : t) (h : heap) : t :=
  mk (symbol b) (base_price b) (bids b) (asks b)
     (SlabPool.mk h (SlabPool.next_free (pool b)) (SlabPool.free_head (pool b))
        (SlabPool.live_count (pool b)))
     (order_index b) (order_count b).

Definition with_pool (b : t) (p : SlabPool.t OrderNode) : t :=
  mk (symbol b) (base_price b) (bids b) (asks b) p (order_index b) (order_count b).

Definition with_index (b : t) (m : M) (c : Z) : t :=
  mk (symbol b) (base_price b) (bids b) (asks b) (pool b) m c.

Definition side_of (b : t) (s : Side) : Ladder.t :=
  if decide (s = Buy) then bids b else asks b.

Definition with_side (b : t) (s : Side) (l : Ladder.t) : t :=
  if decide (s = Buy)
  then mk (symbol b) (base_price b) l (asks b) (pool b) (order_index b) (order_count b)
  else mk (symbol b) (base_price b) (bids b) l (pool b) (order_index b) (order_count b).

(** The template argument [IsBid] of the side. *)
Definition is_bid (s : Side) : bool := if decide (s = Buy) then true else false.

Definition level_for (b : t) (s : Side) (index : nat) : PriceLevel :=
  Ladder.level (side_of b s) index.

Definition put_level (b : t) (s : Side) (index : nat) (l : PriceLevel) : t :=
  with_side b s (Ladder.set_level (side_of b s) index l).

Definition note_nonempty_for (b : t) (s : Side) (index : nat) : t :=
  with_side b s (Ladder.note_nonempty (is_bid s) (side_of b s) index).

Definition note_maybe_empty_for (b : t) (s : Side) (index : nat) : t :=
  with_side b s (Ladder.note_maybe_empty (is_bid s) (side_of b s) index).

(** ** Prices and indices *)

Definition index_of (b : t) (p : Z) : option nat :=
  let offset := StrongAmount.sub p (base_price b) in
  if (offset <? 0)%Z || (Z.of_nat NumLevels <=? u64 offset)%Z then None
  else Some (Z.to_nat offset).

Definition price_at (b : t) (index : nat) : Z :=
  StrongAmount.add (base_price b) (Z.of_nat index).

Definition find (b : t) (id : Z) : option nat := hm_find (order_index b) id.

(** ** Operations *)

Definition add (b : t) (order : Order) : (AddError + Z) * t :=
  if decide (ord_type order = Limit) then
    if (ord_remaining order <=? 0)%Z then (inl BadQuantity, b)
    else
      match index_of b (ord_price order) with
      | None => (inl PriceOutOfRange, b)
      | Some index =>
          if hm_contains (order_index b) (ord_id order) then (inl DuplicateId, b)
          else
            match SlabPool.allocate default_node (pool b) with
            | (None, p) => (inl PoolExhausted, with_pool b p)
            | (Some node, p) =>
                let b := with_pool b p in
                let h := alter (set_order order) node (heap_of b) in
                let h := alter (set_level index) node h in
                let lvl := level_for b (ord_side order) index in
                let was_empty := empty lvl in
                let '(h, lvl) := level_push_back h lvl node in
                let b := put_level (with_heap b h) (ord_side order) index lvl in
                let b := if was_empty then note_nonempty_for b (ord_side order) index else b in
                (inr (ord_id order),
                 with_index b (hm_emplace (order_index b) (ord_id order) node)
                   (u64 (order_count b + 1)))
            end
      end
  else (inl MarketOrderCannotRest, b).

Definition unlink_and_free (b : t) (node : nat) : t :=
  let index := level_index (deref (heap_of b) node) in
  let side := ord_side (node_order (deref (heap_of b) node)) in
  let '(h, lvl) := level_unlink (heap_of b) (level_for b side index) node in
  let b := put_level (with_heap b h) side index lvl in
  let b := note_maybe_empty_for b side index in
  with_pool b (SlabPool.deallocate (pool b) node).

Definition cancel (b : t) (id : Z) : (CancelError + unit) * t :=
  match hm_find (order_index b) id with
  | None => (inl CancelNotFound, b)
  | Some node =>
      let b := unlink_and_free b node in
      (inr tt, with_index b (hm_erase (order_index b) id) (u64 (order_count b - 1)))
  end.

Definition reduce_quantity (b : t) (id : Z) (fill_amount : Z) : (ReduceError + unit) * t :=
  match hm_find (order_index b) id with
  | None => (inl ReduceNotFound, b)
  | Some node =>
      let o := node_order (deref (heap_of b) node) in
      if (fill_amount <=? 0)%Z || (ord_remaining o <? fill_amount)%Z
      then (inl InvalidFillAmount, b)
      else
        let index := level_index (deref (heap_of b) node) in
        let node_side := ord_side o in
        let lvl := level_for b node_side index in
        let o' := set_remaining (StrongAmount.sub (ord_remaining o) fill_amount) o in
        if (fill_amount =? ord_remaining o)%Z then
          let '(h, lvl) := level_unlink (heap_of b) lvl node in
          let h := alter (set_order o') node h in
          let b := put_level (with_heap b h) node_side index lvl in
          let b := note_maybe_empty_for b node_side index in
          let b := with_index b (hm_erase (order_index b) id) (order_count b) in
          let b := with_pool b (SlabPool.deallocate (pool b) node) in
          (inr tt, with_index b (order_index b) (u64 (order_count b - 1)))
        else
          let h := alter (set_order o') node (heap_of b) in
          let lvl := mkLevel (head lvl) (tail lvl)
                       (StrongAmount.sub (total_quantity lvl) fill_amount)
                       (Level.order_count lvl) in
          (inr tt, put_level (with_heap b h) node_side index lvl)
  end.

Definition replace (b : t) (id new_price new_quantity new_sequence new_timestamp : Z)
    : (ReplaceError + unit) * t :=
  match hm_find (order_index b) id with
  | None => (inl ReplaceNotFound, b)
  | Some node =>
      if (new_quantity <=? 0)%Z then (inl ReplaceInvalidQuantity, b)
      else
        match index_of b new_price with
        | None => (inl ReplacePriceOutOfRange, b)
        | Some _ =>
            let updated := retermed (node_order (deref (heap_of b) node))
                             new_price new_quantity new_sequence new_timestamp in
            let b := unlink_and_free b node in
            let b := with_index b (hm_erase (order_index b) id) (u64 (order_count b - 1)) in
            match add b updated with
            | (inl _, b) => (inl ReplacePoolExhausted, b)
            | (inr _, b) => (inr tt, b)
            end
        end
  end.

(** ** Queries *)

Definition best_price (b : t) (s : Side) : option Z :=
  price_at b <$> Ladder.best_index (side_of b s).

Definition best_bid (b : t) : option Z := best_price b Buy.
Definition best_ask (b : t) : option Z := best_price b Sell.

Definition level_at (b : t) (s : Side) (price : Z) : option PriceLevel :=
  level_for b s <$> index_of b price.

Definition front_at (b : t) (s : Side) (price : Z) : option nat :=
  match index_of b price with
  | None => None
  | Some index => head (level_for b s index)
  end.

(** [for_each_level]: the visitor returns its new state and whether to go
    on.  Each step moves to a strictly worse index, so [NumLevels] bounds
    the number of iterations. *)
Fixpoint for_each_loop {A} (fuel : nat) (b : t) (s : Side)
    (visit : A → Z → PriceLevel → A * bool) (acc : A) (idx : option nat) : A :=
  match fuel, idx with
  | S fuel, Some i =>
      let '(acc, go_on) := visit acc (price_at b i) (level_for b s i) in
      if (go_on : bool)
      then for_each_loop fuel b s visit acc (Ladder.next_after (is_bid s) (side_of b s) i)
      else acc
  | _, _ => acc
  end.

Definition for_each_level {A} (b : t) (s : Side)
    (visit : A → Z → PriceLevel → A * bool) (acc : A) : A :=
  for_each_loop NumLevels b s visit acc (Ladder.best_index (side_of b s)).

(** ** What a book holds *)

(** The orders resting at slot [i] of side [s], oldest first: the walk of
    the level's list.  At most [MaxOrders] nodes are linked. *)
Definition fifo (b : t) (s : Side) (i : nat) : list Order :=
  (λ p, node_order (deref (heap_of b) p)) <$>
    walk (heap_of b) MaxOrders (head (level_for b s i)).

(** All orders of a side in price-time priority. *)
Definition queue (b : t) (s : Side) : list Order :=
  concat (fifo b s <$> Ladder.prio (is_bid s) NumLevels).

(** The side a resting order lives on, its price, and its open quantity. *)
Record resting_ok (base : Z) (s : Side) (i : nat) (o : Order) : Prop := {
  ro_side : ord_side o = s;
  ro_price : ord_price o = (base + Z.of_nat i)%Z;
  ro_pos : (0 < ord_remaining o)%Z;
  ro_i64 : is_i64 (ord_remaining o);
  ro_limit : ord_type o = Limit;
}.

(** Every price of the ladder is an [int64_t], as is every offset. *)
Definition geometry (base : Z) : Prop :=
  is_i64 base ∧ (base + Z.of_nat NumLevels ≤ 2 ^ 63)%Z ∧ (Z.of_nat NumLevels < 2 ^ 63)%Z.

(** The ghost state: free slots [F], live slots [L], the nodes [G s i] and
    the orders [Q s i] of every level. *)
Record rep (b : t) (F L : list nat) (G : Side → nat → list nat)
    (Q : Side → nat → list Order) : Prop := {
  r_base : geometry (base_price b);
  r_pool : SlabPool.rep MaxOrders (pool b) F L;
  r_side s : Ladder.ok (is_bid s) NumLevels (side_of b s);
  r_level s i : i < NumLevels → level_rep (heap_of b) (level_for b s i) (G s i) (Q s i);
  r_out s i : NumLevels ≤ i → G s i = [] ∧ Q s i = [];
  r_disj s i s' i' p : p ∈ G s i → p ∈ G s' i' → s = s' ∧ i = i';
  r_live p : p ∈ L ↔ ∃ s i, p ∈ G s i;
  r_idx s i p : p ∈ G s i → index_at (heap_of b) p = Some i;
  r_order s i o : o ∈ Q s i → resting_ok (base_price b) s i o;
  r_index id p : hm_find (order_index b) id = Some p ↔
    p ∈ L ∧ ord_id <$> order_at (heap_of b) p = Some id;
  r_count : order_count b = Z.of_nat (length L);
}.

Definition ok (b : t) : Prop := ∃ F L G Q, rep b F L G Q.

(** Replacing the entry of one level. *)
Definition upd {A} (f : Side → nat → A) (s : Side) (i : nat) (x : A) : Side → nat → A :=
  λ s' i', if decide (s' = s ∧ i' = i) then x else f s' i'.

(** ** Projections of the updates *)

Lemma side_of_with_side b s l s' :
  side_of (with_side b s l) s' = if decide (s' = s) then l else side_of b s'.
Proof. by destruct s, s'. Qed.

Lemma upd_eq {A} (f : Side → nat → A) s i x : upd f s i x s i = x.
Proof. unfold upd. by rewrite decide_True. Qed.

Lemma upd_ne {A} (f : Side → nat → A) s i x s' i' :
  (s', i') ≠ (s, i) → upd f s i x s' i' = f s' i'.
Proof. intros Hne. unfold upd. rewrite decide_False; [done|]. by intros [-> ->]. Qed.

Lemma upd_cases {A} (f : Side → nat → A) s i x s' i' :
  (s' = s ∧ i' = i ∧ upd f s i x s' i' = x) ∨
  ((s', i') ≠ (s, i) ∧ upd f s i x s' i' = f s' i').
Proof.
  destruct (decide ((s', i') = (s, i))) as [[= -> ->]|Hne].
  - left. by rewrite upd_eq.
  - right. by rewrite upd_ne.
Qed.

(** ** Prices *)

Lemma price_at_exact b i :
  geometry (base_price b) →
  i < NumLevels → price_at b i = (base_price b + Z.of_nat i)%Z.
Proof.
  intros (?&?&?) ?. unfold price_at, StrongAmount.add. apply i64_id.
  unfold is_i64 in *. lia.
Qed.

Lemma index_of_spec b p i :
  geometry (base_price b) →
  is_i64 p →
  index_of b p = Some i ↔ i < NumLevels ∧ p = (base_price b + Z.of_nat i)%Z.
Proof.
  intros (Hb&Hn&Hs) Hp. unfold index_of, StrongAmount.sub.
  destruct (i64_spec (p - base_price b)) as [k Hk].
  pose proof (i64_range (p - base_price b)) as Hr.
  set (off := i64 (p - base_price b)) in *. unfold is_i64 in *.
  assert (off = p - base_price b ∨ (0 ≤ off ∧ off < Z.of_nat NumLevels → False))%Z as Hoff.
  { destruct (decide (k = 0)%Z) as [->|]; [left; lia|right; lia]. }
  destruct (Z.ltb_spec off 0) as [Hlt|Hge]; simpl.
  { split; [done|]. intros [? ->]. lia. }
  rewrite u64_id by (unfold is_u64; lia).
  destruct (Z.leb_spec (Z.of_nat NumLevels) off) as [Hle|Hgt].
  { split; [done|]. intros [? ->]. exfalso. destruct Hoff; lia. }
  destruct Hoff as [Hoff|Hoff]; [|lia]. split.
  - intros [= <-]. lia.
  - intros [? ->]. f_equal. lia.
Qed.

Lemma index_of_level b i :
  geometry (base_price b) → i < NumLevels →
  index_of b (base_price b + Z.of_nat i)%Z = Some i.
Proof.
  intros Hg Hi. apply index_of_spec; [done| |done].
  destruct Hg as (?&?&?). unfold is_i64 in *. lia.
Qed.

(** ** One level changes *)

(** The book with one ladder side, the pool and the index exchanged. *)
Definition edit (b : t) (s : Side) (lad : Ladder.t) (pl : SlabPool.t OrderNode)
    (m : M) (c : Z) : t :=
  with_index (with_pool (with_side b s lad) pl) m c.

Lemma edit_side b s lad pl m c s' :
  side_of (edit b s lad pl m c) s' = if decide (s' = s) then lad else side_of b s'.
Proof. by destruct s, s'. Qed.

Lemma edit_level b s i lvl lad pl m c s' i' :
  (∀ k, Ladder.level lad k = if decide (k = i) then lvl else level_for b s k) →
  level_for (edit b s lad pl m c) s' i' =
  if decide (s' = s ∧ i' = i) then lvl else level_for b s' i'.
Proof.
  intros Hlv. unfold level_for. rewrite edit_side. destruct (decide (s' = s)) as [->|Hs].
  - rewrite Hlv. by repeat case_decide; naive_solver.
  - rewrite decide_False by naive_solver. done.
Qed.

Lemma upd_nodes_disjoint (G : Side → nat → list nat) s i ps s1 i1 s2 i2 p :
  (∀ s i s' i' p, p ∈ G s i → p ∈ G s' i' → s = s' ∧ i = i') →
  (∀ p, p ∈ ps → ∀ s' i', (s', i') ≠ (s, i) → p ∉ G s' i') →
  p ∈ upd G s i ps s1 i1 → p ∈ upd G s i ps s2 i2 → s1 = s2 ∧ i1 = i2.
Proof.
  intros Hd Hps.
  destruct (upd_cases G s i ps s1 i1) as [(->&->&->)|(Hne1&->)];
    destruct (upd_cases G s i ps s2 i2) as [(->&->&->)|(Hne2&->)]; intros H1 H2.
  - done.
  - by destruct (Hps p H1 _ _ Hne2).
  - by destruct (Hps p H2 _ _ Hne1).
  - by eapply Hd.
Qed.

Lemma upd_nodes_elem (G : Side → nat → list nat) s i ps p :
  (∃ s' i', p ∈ upd G s i ps s' i') ↔ p ∈ ps ∨ ∃ s' i', (s', i') ≠ (s, i) ∧ p ∈ G s' i'.
Proof.
  split.
  - intros (s'&i'&Hp).
    destruct (upd_cases G s i ps s' i') as [(->&->&E)|(Hne&E)]; rewrite E in Hp; eauto.
  - intros [Hp|(s'&i'&Hne&Hp)].
    + exists s, i. by rewrite upd_eq.
    + exists s', i'. by rewrite upd_ne.
Qed.

(** The obligations common to add, cancel and reduce: level [i] of side [s]
    now holds the nodes [ps] and orders [os], everything else is as before. *)
Lemma rep_edit b F L G Q F' L' s i lvl ps os lad pl m c :
  rep b F L G Q → i < NumLevels →
  SlabPool.rep MaxOrders pl F' L' →
  Ladder.ok (is_bid s) NumLevels lad →
  (∀ k, Ladder.level lad k = if decide (k = i) then lvl else level_for b s k) →
  level_rep (SlabPool.storage pl) lvl ps os →
  (∀ s' i' p, (s', i') ≠ (s, i) → p ∈ G s' i' →
     links (SlabPool.storage pl) p = links (heap_of b) p ∧
     order_at (SlabPool.storage pl) p = order_at (heap_of b) p ∧
     index_at (SlabPool.storage pl) p = index_at (heap_of b) p) →
  (∀ p, p ∈ ps → index_at (SlabPool.storage pl) p = Some i ∧
     ∀ s' i', (s', i') ≠ (s, i) → p ∉ G s' i') →
  (∀ p, p ∈ L' ↔ p ∈ ps ∨ ∃ s' i', (s', i') ≠ (s, i) ∧ p ∈ G s' i') →
  (∀ o, o ∈ os → resting_ok (base_price b) s i o) →
  (∀ id p, hm_find m id = Some p ↔
     p ∈ L' ∧ ord_id <$> order_at (SlabPool.storage pl) p = Some id) →
  c = Z.of_nat (length L') →
  rep (edit b s lad pl m c) F' L' (upd G s i ps) (upd Q s i os).
Proof.
  intros Hr Hi Hpool Hside Hlv Hrep Hframe Hps HL Hos Hidx Hcnt.
  set (b' := edit b s lad pl m c).
  assert (base_price b' = base_price b) as Hbase by (unfold b'; by destruct s).
  split.
  - rewrite Hbase. apply Hr.
  - done.
  - intros s'. unfold b'. rewrite edit_side. case_decide; [by subst|apply Hr].
  - intros s' i' Hi'. unfold b'. rewrite (edit_level _ _ i lvl) by done.
    destruct (upd_cases G s i ps s' i') as [(->&->&->)|(Hne&->)].
    + by rewrite upd_eq, decide_True.
    + rewrite upd_ne, decide_False by naive_solver.
      eapply level_rep_frame; [by apply Hr|].
      intros p Hp. destruct (Hframe s' i' p Hne Hp) as (?&?&?). done.
  - intros s' i' Hi'. rewrite !upd_ne by (intros [= -> ->]; lia). by apply Hr.
  - intros s1 i1 s2 i2 p. apply upd_nodes_disjoint; [apply Hr|]. intros q Hq. by apply Hps.
  - intros p. by rewrite upd_nodes_elem.
  - intros s' i' p.
    destruct (upd_cases G s i ps s' i') as [(->&->&->)|(Hne&->)]; intros Hp.
    + by apply Hps.
    + destruct (Hframe s' i' p Hne Hp) as (_&_&E). unfold b', heap_of; simpl.
      rewrite E. by eapply Hr.
  - intros s' i' o. rewrite Hbase.
    destruct (upd_cases Q s i os s' i') as [(->&->&->)|(Hne&->)]; [by apply Hos|].
    by apply Hr.
  - done.
  - done.
Qed.

(** A node of another level is not in this one. *)
Lemma rep_elsewhere b F L G Q s i s' i' p :
  rep b F L G Q → (s', i') ≠ (s, i) → p ∈ G s' i' → p ∉ G s i.
Proof.
  intros Hr Hne H1 H2. apply Hne. by destruct (r_disj _ _ _ _ _ Hr _ _ _ _ _ H1 H2) as [-> ->].
Qed.

(** Facts about a pointer of a level. *)
Lemma rep_lookup b F L G Q s i k p :
  rep b F L G Q → G s i !! k = Some p →
  i < NumLevels ∧ ∃ o, Q s i !! k = Some o ∧ order_at (heap_of b) p = Some o ∧
    resting_ok (base_price b) s i o.
Proof.
  intros Hr Hk.
  assert (i < NumLevels) as Hi.
  { destruct (decide (i < NumLevels)); [done|].
    destruct (r_out _ _ _ _ _ Hr s i) as [E _]; [lia|]. by rewrite E in Hk. }
  split; [done|].
  pose proof (lr_orders _ _ _ _ (r_level _ _ _ _ _ Hr s i Hi)) as Ho.
  apply (f_equal (.!! k)) in Ho. rewrite !list_lookup_fmap, Hk in Ho.
  destruct (Q s i !! k) as [o|] eqn:E; simplify_eq/=.
  exists o. split_and!; [done|done|]. eapply Hr. by eapply list_elem_of_lookup_2.
Qed.

(** The id index finds exactly the resting orders. *)
Lemma rep_find b F L G Q id p :
  rep b F L G Q → hm_find (order_index b) id = Some p →
  ∃ s i k o, G s i !! k = Some p ∧ Q s i !! k = Some o ∧ i < NumLevels ∧
    order_at (heap_of b) p = Some o ∧ ord_id o = id ∧
    index_at (heap_of b) p = Some i ∧ resting_ok (base_price b) s i o.
Proof.
  intros Hr [HL Hid]%(r_index _ _ _ _ _ Hr).
  apply (r_live _ _ _ _ _ Hr) in HL as (s&i&Hp).
  pose proof (r_idx _ _ _ _ _ Hr _ _ _ Hp) as Hix.
  apply list_elem_of_lookup in Hp as [k Hk].
  destruct (rep_lookup _ _ _ _ _ _ _ _ _ Hr Hk) as (Hi&o&Hq&Ho&Hok).
  rewrite Ho in Hid. simpl in Hid. injection Hid as Hid.
  exists s, i, k, o. done.
Qed.

(** A level never holds more nodes than the pool has slots. *)
Lemma rep_level_length b F L G Q s i :
  rep b F L G Q → length (G s i) ≤ length L ∧ (Z.of_nat (length L) < 2 ^ 32)%Z.
Proof.
  intros Hr. split.
  - destruct (decide (i < NumLevels)) as [Hi|Hi].
    + apply submseteq_length, NoDup_submseteq.
      * apply (lr_nodup _ _ _ _ (r_level _ _ _ _ _ Hr s i Hi)).
      * intros p Hp. apply (r_live _ _ _ _ _ Hr). eauto.
    + destruct (r_out _ _ _ _ _ Hr s i) as [-> _]; simpl; lia.
  - pose proof (SlabPool.rep_count _ _ _ _ (r_pool _ _ _ _ _ Hr)).
    pose proof (SlabPool.rep_cap _ _ _ _ (r_pool _ _ _ _ _ Hr)). lia.
Qed.

Lemma level_empty_iff h l ps os :
  level_rep h l ps os → (Z.of_nat (length ps) < 2 ^ 32)%Z →
  empty l = bool_decide (ps = []).
Proof.
  intros Hl Hlt. unfold empty. rewrite (lr_count _ _ _ _ Hl), u32_id by (unfold is_u32; lia).
  destruct ps; simpl length; [done|]. by rewrite bool_decide_eq_false_2.
Qed.

(** The storage just before the push: the new node carries the order. *)
Lemma init_node_data (h : heap) node o index q :
  node < length h →
  let h' := alter (set_level index) node (alter (set_order o) node (<[node := default_node]> h)) in
  order_at h' q = (if decide (q = node) then Some o else order_at h q) ∧
  index_at h' q = (if decide (q = node) then Some index else index_at h q) ∧
  (q ≠ node → links h' q = links h q).
Proof.
  intros Hlt h'. unfold h', order_at, index_at, links. case_decide as Hq.
  - subst q. rewrite !list_lookup_alter_eq, list_lookup_insert_eq by done. done.
  - by rewrite !list_lookup_alter_ne, list_lookup_insert_ne by done.
Qed.

Lemma proj_with_side b s l :
  symbol (with_side b s l) = symbol b ∧ base_price (with_side b s l) = base_price b ∧
  pool (with_side b s l) = pool b ∧ order_index (with_side b s l) = order_index b ∧
  order_count (with_side b s l) = order_count b.
Proof. by destruct s. Qed.

Lemma pushed_side b s i lvl (w : bool) :
  (if w then note_nonempty_for (put_level b s i lvl) s i else put_level b s i lvl) =
  with_side b s
    (if w then Ladder.note_nonempty (is_bid s) (Ladder.set_level (side_of b s) i lvl) i
     else Ladder.set_level (side_of b s) i lvl).
Proof. by destruct w, s. Qed.

Lemma popped_side b s i lvl :
  note_maybe_empty_for (put_level b s i lvl) s i =
  with_side b s (Ladder.note_maybe_empty (is_bid s) (Ladder.set_level (side_of b s) i lvl) i).
Proof. by destruct s. Qed.

Lemma pushed_level bid (l : Ladder.t) i lvl (w : bool) k :
  i < length (Ladder.levels l) →
  Ladder.level (if w then Ladder.note_nonempty bid (Ladder.set_level l i lvl) i
                else Ladder.set_level l i lvl) k =
  if decide (k = i) then lvl else Ladder.level l k.
Proof. intros. rewrite <- Ladder.level_set_level by done. by destruct w. Qed.

Lemma popped_level bid (l : Ladder.t) i lvl k :
  i < length (Ladder.levels l) →
  Ladder.level (Ladder.note_maybe_empty bid (Ladder.set_level l i lvl) i) k =
  if decide (k = i) then lvl else Ladder.level l k.
Proof.
  intros. rewrite <- Ladder.level_set_level by done.
  unfold Ladder.note_maybe_empty. destruct (negb _); [done|]. by destruct (decide _).
Qed.

(** Links of the nodes outside the level are not touched by a push. *)
Lemma push_frame h l ps os p q :
  level_rep h l ps os → p < length h → p ∉ ps → q ≠ p → q ∉ ps →
  links (level_push_back h l p).1 q = links h q.
Proof.
  intros Hl Hlt Hp Hqp Hq. rewrite push_back_links; [|done|].
  - rewrite decide_False by done. rewrite decide_False; [done|].
    rewrite (lr_tail _ _ _ _ Hl). by intros E%last_Some_elem_of.
  - rewrite (lr_tail _ _ _ _ Hl). by intros E%last_Some_elem_of.
Qed.

(** Constructing a node in a free slot and pushing it on a level. *)
Lemma install_node h l ps os p o i :
  level_rep h l ps os → p < length h → p ∉ ps →
  let h2 := alter (set_level i) p (alter (set_order o) p (<[p := default_node]> h)) in
  let r := level_push_back h2 l p in
  level_rep r.1 r.2 (ps ++ [p]) (os ++ [o]) ∧ length r.1 = length h ∧
  ∀ q, order_at r.1 q = (if decide (q = p) then Some o else order_at h q) ∧
    index_at r.1 q = (if decide (q = p) then Some i else index_at h q) ∧
    (q ≠ p → q ∉ ps → links r.1 q = links h q).
Proof.
  intros Hl Hlt Hp h2 r.
  pose proof (λ q, init_node_data h p o i q Hlt) as Hdata. fold h2 in Hdata.
  assert (level_rep h2 l ps os) as Hl2.
  { eapply level_rep_frame; [done|]. intros q Hq.
    destruct (Hdata q) as (E1&_&E3). assert (q ≠ p) by (by intros ->).
    rewrite decide_False in E1 by done. auto. }
  assert (length h2 = length h) as Hlen2.
  { unfold h2. by rewrite !length_alter, length_insert. }
  assert (order_at h2 p = Some o) as Hp2.
  { destruct (Hdata p) as (E&_). by rewrite decide_True in E. }
  pose proof (push_back_data h2 l p) as [Hod Hid Hlen3].
  split_and!; [by apply push_back_rep|unfold r; lia|].
  intros q. destruct (Hdata q) as (E1&E2&E3). unfold r.
  rewrite Hod, Hid. split_and!; [done|done|].
  intros Hqp Hq. rewrite (push_frame _ _ _ _ p q Hl2) by (done || lia). auto.
Qed.

Context `{!HashMapLaws Z nat M}.

Lemma pool_rep_heap (pl : SlabPool.t OrderNode) F L (h : heap) :
  SlabPool.rep MaxOrders pl F L → length h = MaxOrders →
  SlabPool.rep MaxOrders
    (SlabPool.mk h (SlabPool.next_free pl) (SlabPool.free_head pl) (SlabPool.live_count pl)) F L.
Proof. intros [? ? ? ? ? ?] ?. by split. Qed.

(** On a valid order with a free slot, [add] is this edit of the book. *)
Lemma add_unfold b o i p pl :
  ord_type o = Limit → (0 < ord_remaining o)%Z →
  index_of b (ord_price o) = Some i → hm_find (order_index b) (ord_id o) = None →
  SlabPool.allocate default_node (pool b) = (Some p, pl) →
  let s := ord_side o in
  let h2 := alter (set_level i) p (alter (set_order o) p (SlabPool.storage pl)) in
  let r := level_push_back h2 (level_for b s i) p in
  let lad := Ladder.set_level (side_of b s) i r.2 in
  add b o = (inr (ord_id o),
    edit b s
      (if empty (level_for b s i) then Ladder.note_nonempty (is_bid s) lad i else lad)
      (SlabPool.mk r.1 (SlabPool.next_free pl) (SlabPool.free_head pl) (SlabPool.live_count pl))
      (hm_emplace (order_index b) (ord_id o) p) (u64 (order_count b + 1))).
Proof.
  intros Hty Hpos Hix Hfresh Hall s h2 r lad.
  unfold add. rewrite decide_True by done.
  rewrite (proj2 (Z.leb_gt _ _)) by done. rewrite Hix.
  unfold hm_contains. rewrite Hfresh, Hall.
  change (level_for (with_pool b pl) (ord_side o) i) with (level_for b s i).
  change (heap_of (with_pool b pl)) with (SlabPool.storage pl).
  fold h2. change (ord_side o) with s.
  unfold lad, r. destruct (level_push_back h2 (level_for b s i) p) as [h3 lvl']. simpl.
  rewrite pushed_side. by destruct (empty (level_for b s i)), s.
Qed.

(** The id index after an order with a new id was put in a free slot. *)
Lemma index_emplaced b F L G Q o p (h : heap) :
  rep b F L G Q → p ∉ L → hm_find (order_index b) (ord_id o) = None →
  (∀ q, order_at h q = if decide (q = p) then Some o else order_at (heap_of b) q) →
  ∀ id q, hm_find (hm_emplace (order_index b) (ord_id o) p) id = Some q ↔
    q ∈ p :: L ∧ ord_id <$> order_at h q = Some id.
Proof.
  intros Hr HpL Hfresh Hh id q. rewrite hm_find_emplace, elem_of_cons, Hh, Hfresh. simpl.
  pose proof (r_index _ _ _ _ _ Hr id q) as Hidq.
  destruct (decide (id = ord_id o)) as [->|Hid], (decide (q = p)) as [->|Hq]; simpl.
  - naive_solver.
  - rewrite Hfresh in Hidq. naive_solver.
  - naive_solver.
  - naive_solver.
Qed.

(** The nodes after one was appended to level [i]. *)
Lemma live_appended b F L G Q s i p q :
  rep b F L G Q →
  q ∈ p :: L ↔ q ∈ G s i ++ [p] ∨ ∃ s' i', (s', i') ≠ (s, i) ∧ q ∈ G s' i'.
Proof.
  intros Hr. rewrite elem_of_cons, (r_live _ _ _ _ _ Hr q), elem_of_app, list_elem_of_singleton.
  split.
  - intros [->|(s'&i'&Hq)]; [by auto|].
    destruct (decide ((s', i') = (s, i))) as [[= -> ->]|]; eauto 6.
  - intros [[Hq| ->]|(s'&i'&_&Hq)]; eauto.
Qed.

Lemma add_success b F L G Q o i p :
  rep b (p :: F) L G Q → ord_type o = Limit → (0 < ord_remaining o)%Z →
  is_i64 (ord_remaining o) → is_i64 (ord_price o) →
  index_of b (ord_price o) = Some i → hm_find (order_index b) (ord_id o) = None →
  ∃ b', add b o = (inr (ord_id o), b') ∧ symbol b' = symbol b ∧
    base_price b' = base_price b ∧
    rep b' F (p :: L) (upd G (ord_side o) i (G (ord_side o) i ++ [p]))
      (upd Q (ord_side o) i (Q (ord_side o) i ++ [o])).
Proof.
  intros Hr Hty Hpos Hri Hpi Hix Hfresh.
  pose proof (SlabPool.allocate_rep default_node MaxOrders _ _ _ (r_pool _ _ _ _ _ Hr))
    as (pl&Hall&Hst&Hplt&HpL&Hpool). cbn beta iota in Hall.
  pose proof (proj1 (index_of_spec b _ i (r_base _ _ _ _ _ Hr) Hpi) Hix) as [Hi Hprice].
  pose proof (add_unfold b o i p pl Hty Hpos Hix Hfresh Hall) as Hadd. cbv zeta in Hadd.
  set (s := ord_side o) in *. rewrite Hst in Hadd.
  change (SlabPool.storage (pool b)) with (heap_of b) in Hadd.
  assert (length (heap_of b) = MaxOrders) as Hlen0 by apply (r_pool _ _ _ _ _ Hr).
  assert (∀ s' i', p ∉ G s' i') as HpG.
  { intros s' i' Hp'. apply HpL, (r_live _ _ _ _ _ Hr). eauto. }
  pose proof (install_node _ _ _ _ p o i (r_level _ _ _ _ _ Hr s i Hi) ltac:(lia) (HpG s i))
    as (Hrep&Hlen3&Hdata).
  destruct (level_push_back _ (level_for b s i) p) as [h3 lvl'] eqn:Epush. simpl in *.
  destruct (rep_level_length _ _ _ _ _ s i Hr) as [HGL HL32].
  pose proof (SlabPool.rep_count _ _ _ _ Hpool) as Hcnt. simpl in Hcnt.
  pose proof (SlabPool.rep_cap _ _ _ _ Hpool) as Hcap.
  assert (length (Ladder.levels (side_of b s)) = NumLevels) as HlenL by apply (r_side _ _ _ _ _ Hr).
  eexists. split; [exact Hadd|]. split; [by destruct s|]. split; [by destruct s|].
  eapply (rep_edit _ _ _ _ _ _ _ _ _ lvl'); simpl; try done.
  - by apply pool_rep_heap; [|lia].
  - apply Ladder.push_ok; [apply Hr|done|].
    rewrite (level_empty_iff _ _ _ _ Hrep), bool_decide_eq_false_2; [done| |].
    + by destruct (G s i).
    + rewrite length_app. simpl. lia.
  - intros k. apply pushed_level. lia.
  - intros s' i' q Hne Hq. assert (q ≠ p) by (intros ->; by eapply HpG).
    destruct (Hdata q) as (->&->&E). rewrite !decide_False by done.
    split_and!; [apply E|done|done]; [done|]. by eapply rep_elsewhere.
  - intros q [Hq| ->%list_elem_of_singleton]%elem_of_app.
    + assert (q ≠ p) by (intros ->; by eapply HpG).
      destruct (Hdata q) as (_&->&_). rewrite decide_False by done.
      split; [by eapply Hr|]. intros s' i' Hne Hq2. by eapply rep_elsewhere.
    + destruct (Hdata p) as (_&->&_). by rewrite decide_True.
  - intros q. by apply (live_appended _ _ _ _ _ _ _ _ _ Hr).
  - intros o' [Ho'| ->%list_elem_of_singleton]%elem_of_app; [by eapply Hr|]. by split.
  - apply (index_emplaced _ _ _ _ _ _ _ _ Hr); [done|done|]. intros q. apply Hdata.
  - rewrite (r_count _ _ _ _ _ Hr), u64_id by (unfold is_u64; lia). lia.
Qed.

(** ** Removing a node *)

Lemma unlink_frame h l l1 p l2 os q :
  level_rep h l (l1 ++ p :: l2) os → q ∉ l1 ++ p :: l2 →
  links (level_unlink h l p).1 q = links h q.
Proof.
  intros Hl Hq. pose proof (dseg_links _ _ _ _ _ _ (lr_links _ _ _ _ Hl)) as Hp.
  rewrite last_ptr_None in Hp.
  pose proof (lr_nodup _ _ _ _ Hl) as (Hn1&Hd&[Hp2 Hn2]%NoDup_cons)%NoDup_app.
  rewrite (unlink_links _ _ _ _ _ _ Hp).
  - rewrite decide_False by set_solver.
    rewrite decide_False by (intros E%last_Some_elem_of; set_solver).
    rewrite decide_False by (intros E%hd_ptr_in; set_solver). done.
  - intros E%last_Some_elem_of; set_solver.
  - intros E%hd_ptr_in; set_solver.
  - intros r E%last_Some_elem_of E'%hd_ptr_in; set_solver.
Qed.

Lemma same_slots_data (h h' : heap) q :
  h' !! q = h !! q →
  links h' q = links h q ∧ order_at h' q = order_at h q ∧ index_at h' q = index_at h q.
Proof. unfold links, order_at, index_at. by intros ->. Qed.

(** The id index after the order of a live node was erased. *)
Lemma index_erased b F L G Q L' o p (h : heap) :
  rep b F L G Q → L ≡ₚ p :: L' → p ∉ L' → order_at (heap_of b) p = Some o →
  (∀ q, q ≠ p → order_at h q = order_at (heap_of b) q) →
  ∀ id q, hm_find (hm_erase (order_index b) (ord_id o)) id = Some q ↔
    q ∈ L' ∧ ord_id <$> order_at h q = Some id.
Proof.
  intros Hr HL HpL' Hop Hh id q. rewrite hm_find_erase.
  pose proof (r_index _ _ _ _ _ Hr id q) as Hidq.
  pose proof (r_index _ _ _ _ _ Hr (ord_id o) p) as Hidp.
  rewrite HL, elem_of_cons in Hidq, Hidp. destruct (decide (q = p)) as [->|Hqp].
  - split; [|naive_solver]. case_decide; [done|]. rewrite Hidq, Hop. naive_solver.
  - rewrite Hh by done. case_decide as Hd; [|naive_solver].
    split; [done|]. intros [Hq Ho]. exfalso. subst id.
    assert (hm_find (order_index b) (ord_id o) = Some q) as E1 by naive_solver.
    rewrite Hop in Hidp. assert (hm_find (order_index b) (ord_id o) = Some p) by naive_solver.
    congruence.
Qed.

(** The nodes after [p] left level [i]. *)
Lemma live_removed b F L G Q s i l1 p l2 L' q :
  rep b F L G Q → G s i = l1 ++ p :: l2 → p ∉ l1 ++ l2 → L ≡ₚ p :: L' → p ∉ L' →
  q ∈ L' ↔ q ∈ l1 ++ l2 ∨ ∃ s' i', (s', i') ≠ (s, i) ∧ q ∈ G s' i'.
Proof.
  intros Hr HG Hp HL HpL'.
  assert (q ∈ L ↔ q = p ∨ q ∈ L') as Hq1 by (rewrite HL; apply elem_of_cons).
  assert (q ∈ G s i ↔ q = p ∨ q ∈ l1 ++ l2) as Hq2 by (rewrite HG; set_solver).
  rewrite (r_live _ _ _ _ _ Hr q) in Hq1. split.
  - intros Hq. destruct (proj2 Hq1 (or_intror Hq)) as (s'&i'&Hq').
    destruct (decide ((s', i') = (s, i))) as [[= -> ->]|Hne]; [|eauto].
    apply Hq2 in Hq' as [->|]; [done|by left].
  - intros [Hq|(s'&i'&Hne&Hq)].
    + destruct (proj1 Hq1 ltac:(by exists s, i; apply Hq2; right)) as [->|]; done.
    + destruct (proj1 Hq1 ltac:(by eauto)) as [->|]; [|done].
      destruct (rep_elsewhere _ _ _ _ _ _ _ _ _ _ Hr Hne Hq). apply Hq2. by left.
Qed.

(** The book after the node [p], holding [o], has left its level, its slot
    and the index.  [h'] is the storage after the unlink; only the freed
    slot may have been written again. *)
Lemma remove_rep b F L G Q s i l1 p l2 o1 o o2 (h' : heap) :
  rep b F L G Q → i < NumLevels →
  G s i = l1 ++ p :: l2 → Q s i = o1 ++ o :: o2 → length l1 = length o1 →
  let r := level_unlink (heap_of b) (level_for b s i) p in
  length h' = MaxOrders → (∀ q, q ≠ p → h' !! q = r.1 !! q) →
  ∃ L', L ≡ₚ p :: L' ∧
    rep (edit b s
           (Ladder.note_maybe_empty (is_bid s) (Ladder.set_level (side_of b s) i r.2) i)
           (SlabPool.deallocate
              (SlabPool.mk h' (SlabPool.next_free (pool b)) (SlabPool.free_head (pool b))
                 (SlabPool.live_count (pool b))) p)
           (hm_erase (order_index b) (ord_id o)) (u64 (order_count b - 1)))
      (p :: F) L' (upd G s i (l1 ++ l2)) (upd Q s i (o1 ++ o2)).
Proof.
  intros Hr Hi HG HQ Hlen r Hh' Hsame.
  pose proof (r_level _ _ _ _ _ Hr s i Hi) as Hl. rewrite HG, HQ in Hl.
  assert (p ∈ L) as HpL.
  { apply (r_live _ _ _ _ _ Hr). exists s, i. rewrite HG. set_solver. }
  pose proof (lr_nodup _ _ _ _ Hl) as (Hn1&Hd&[Hp2 Hn2]%NoDup_cons)%NoDup_app.
  assert (p ∉ l1 ++ l2) as Hpl by set_solver.
  assert (∀ q, q ∈ l1 ++ l2 → q ∈ G s i ∧ q ≠ p) as Hin.
  { intros q Hq. rewrite HG. split; set_solver. }
  destruct (SlabPool.deallocate_rep MaxOrders _ _ _ p
    (pool_rep_heap _ _ _ h' (r_pool _ _ _ _ _ Hr) Hh') HpL) as (L'&HL&Hst&Hpool).
  exists L'. split; [done|].
  assert (p ∉ L') as HpL'.
  { pose proof (SlabPool.rep_NoDup _ _ _ _ (r_pool _ _ _ _ _ Hr)) as (_&_&Hnd)%NoDup_app.
    rewrite HL in Hnd. by apply NoDup_cons in Hnd as [? _]. }
  destruct (orders_split _ _ _ _ _ _ _ Hlen (lr_orders _ _ _ _ Hl)) as (_&Hop&_).
  pose proof (unlink_data (heap_of b) (level_for b s i) p) as [Hod Hid _].
  assert (∀ q, q ≠ p → order_at h' q = order_at (heap_of b) q ∧
    index_at h' q = index_at (heap_of b) q) as Hdat.
  { intros q Hq. destruct (same_slots_data _ _ _ (Hsame q Hq)) as (_&->&->).
    by rewrite Hod, Hid. }
  assert (length (Ladder.levels (side_of b s)) = NumLevels) as HlenL by apply (r_side _ _ _ _ _ Hr).
  destruct (rep_level_length _ _ _ _ _ s i Hr) as [HGL HL32].
  eapply (rep_edit _ _ _ _ _ _ _ _ _ r.2); simpl; try done.
  - apply Ladder.pop_ok; [apply Hr|done|].
    rewrite HG in HGL. pose proof (level_empty_iff _ _ _ _ Hl ltac:(lia)) as E.
    unfold level_for in E. rewrite E. apply bool_decide_eq_false_2. by destruct l1.
  - intros k. apply popped_level. lia.
  - eapply level_rep_frame; [by eapply unlink_rep|]. intros q Hq.
    destruct (Hin q Hq) as [_ Hqp]. by destruct (same_slots_data _ _ _ (Hsame q Hqp)) as (?&?&_).
  - intros s' i' q Hne Hq.
    pose proof (rep_elsewhere _ _ _ _ _ _ _ _ _ _ Hr Hne Hq) as Hq2. rewrite HG in Hq2.
    assert (q ≠ p) as Hqp by set_solver.
    destruct (Hdat q Hqp) as [-> ->]. split_and!; [|done|done].
    destruct (same_slots_data _ _ _ (Hsame q Hqp)) as (->&_).
    by apply (unlink_frame _ _ _ _ _ _ _ Hl).
  - intros q Hq. destruct (Hin q Hq) as [HqG Hqp]. destruct (Hdat q Hqp) as [_ ->].
    split; [by eapply Hr|]. intros s' i' Hne Hq2. by eapply rep_elsewhere.
  - intros q. by apply (live_removed _ _ _ _ _ _ _ _ _ _ _ _ Hr HG).
  - intros o' Ho'. eapply (r_order _ _ _ _ _ Hr). rewrite HQ. set_solver.
  - apply (index_erased _ _ _ _ _ _ _ _ _ Hr HL HpL' Hop). intros q Hq. by apply Hdat.
  - assert (length L = S (length L')) by by rewrite HL.
    rewrite (r_count _ _ _ _ _ Hr), u64_id by (unfold is_u64; lia). lia.
Qed.

(** The position of a resting order in its level. *)
Lemma rep_split b F L G Q id p :
  rep b F L G Q → hm_find (order_index b) id = Some p →
  ∃ s i l1 l2 o1 o o2, i < NumLevels ∧ G s i = l1 ++ p :: l2 ∧ Q s i = o1 ++ o :: o2 ∧
    length l1 = length o1 ∧ ord_id o = id ∧ node_order (deref (heap_of b) p) = o ∧
    level_index (deref (heap_of b) p) = i ∧ resting_ok (base_price b) s i o.
Proof.
  intros Hr Hf.
  destruct (rep_find _ _ _ _ _ _ _ Hr Hf) as (s&i&k&o&HG&HQ&Hi&Ho&Hid&Hix&Hok).
  exists s, i, (take k (G s i)), (drop (S k) (G s i)),
    (take k (Q s i)), o, (drop (S k) (Q s i)).
  apply lookup_lt_Some in HG as Hk1. apply lookup_lt_Some in HQ as Hk2.
  split_and!; try done.
  - symmetry. by apply take_drop_middle.
  - symmetry. by apply take_drop_middle.
  - rewrite !length_take. lia.
  - by apply deref_order.
  - by apply deref_index.
Qed.

Lemma unlink_and_free_unfold b p s i m c :
  ord_side (node_order (deref (heap_of b) p)) = s → level_index (deref (heap_of b) p) = i →
  let r := level_unlink (heap_of b) (level_for b s i) p in
  with_index (unlink_and_free b p) m c =
  edit b s
    (Ladder.note_maybe_empty (is_bid s) (Ladder.set_level (side_of b s) i r.2) i)
    (SlabPool.deallocate
       (SlabPool.mk r.1 (SlabPool.next_free (pool b)) (SlabPool.free_head (pool b))
          (SlabPool.live_count (pool b))) p) m c.
Proof.
  intros Hs Hi r. unfold unlink_and_free. rewrite Hs, Hi. fold r.
  destruct r as [h lvl]. simpl. rewrite popped_side. by destruct s.
Qed.

Lemma unlink_and_free_proj b p :
  order_index (unlink_and_free b p) = order_index b ∧
  order_count (unlink_and_free b p) = order_count b.
Proof.
  unfold unlink_and_free.
  destruct (level_unlink _ _ _) as [h lvl], (ord_side _); done.
Qed.

Lemma proj_edit b s lad pl m c :
  symbol (edit b s lad pl m c) = symbol b ∧ base_price (edit b s lad pl m c) = base_price b.
Proof. by destruct s. Qed.

Lemma length_unlinked b F L G Q s i p :
  rep b F L G Q → length (level_unlink (heap_of b) (level_for b s i) p).1 = MaxOrders.
Proof.
  intros Hr. rewrite (sd_length _ _ (unlink_data _ _ _)). apply (r_pool _ _ _ _ _ Hr).
Qed.

(** Removing a found order through [unlink_and_free] and the index. *)
Lemma erase_success b F L G Q id p :
  rep b F L G Q → hm_find (order_index b) id = Some p →
  let b' := with_index (unlink_and_free b p)
    (hm_erase (order_index (unlink_and_free b p)) id)
    (u64 (order_count (unlink_and_free b p) - 1)) in
  ∃ s i o1 o o2 l1 l2 L', i < NumLevels ∧ Q s i = o1 ++ o :: o2 ∧ ord_id o = id ∧
    node_order (deref (heap_of b) p) = o ∧ resting_ok (base_price b) s i o ∧
    L ≡ₚ p :: L' ∧ symbol b' = symbol b ∧ base_price b' = base_price b ∧
    order_index b' = hm_erase (order_index b) id ∧
    rep b' (p :: F) L' (upd G s i (l1 ++ l2)) (upd Q s i (o1 ++ o2)).
Proof.
  intros Hr Hf b'.
  destruct (rep_split _ _ _ _ _ _ _ Hr Hf) as
    (s&i&l1&l2&o1&o&o2&Hi&HG&HQ&Hlen&Hid&Ho&Hix&Hok).
  destruct (unlink_and_free_proj b p) as [Eidx Ecnt].
  pose proof (unlink_and_free_unfold b p s i (hm_erase (order_index b) id)
    (u64 (order_count b - 1))) as E.
  rewrite Ho in E. specialize (E (ro_side _ _ _ _ Hok) Hix). cbv zeta in E.
  unfold b'. rewrite Eidx, Ecnt, E, <- Hid.
  destruct (remove_rep _ _ _ _ _ s i l1 p l2 o1 o o2
    (level_unlink (heap_of b) (level_for b s i) p).1 Hr Hi HG HQ Hlen) as (L'&HL&Hr').
  { by eapply length_unlinked. }
  { done. }
  destruct (proj_edit b s (Ladder.note_maybe_empty (is_bid s) (Ladder.set_level (side_of b s) i
    (level_unlink (heap_of b) (level_for b s i) p).2) i) (SlabPool.deallocate
       (SlabPool.mk (level_unlink (heap_of b) (level_for b s i) p).1
          (SlabPool.next_free (pool b)) (SlabPool.free_head (pool b))
          (SlabPool.live_count (pool b))) p)
    (hm_erase (order_index b) (ord_id o)) (u64 (order_count b - 1))) as [Es Eb].
  exists s, i, o1, o, o2, l1, l2, L'. split_and!; done.
Qed.

Lemma cancel_success b F L G Q id p :
  rep b F L G Q → hm_find (order_index b) id = Some p →
  ∃ s i o1 o o2 b' L' G', cancel b id = (inr tt, b') ∧ i < NumLevels ∧
    Q s i = o1 ++ o :: o2 ∧ ord_id o = id ∧ resting_ok (base_price b) s i o ∧
    node_order (deref (heap_of b) p) = o ∧
    L ≡ₚ p :: L' ∧ symbol b' = symbol b ∧ base_price b' = base_price b ∧
    hm_find (order_index b') id = None ∧
    rep b' (p :: F) L' G' (upd Q s i (o1 ++ o2)).
Proof.
  intros Hr Hf.
  destruct (erase_success _ _ _ _ _ _ _ Hr Hf) as
    (s&i&o1&o&o2&l1&l2&L'&Hi&HQ&Hid&Ho&Hok&HL&Es&Eb&Ei&Hr').
  unfold cancel. rewrite Hf.
  do 8 eexists. split; [reflexivity|]. split_and!; try done.
  rewrite Ei, hm_find_erase. by rewrite decide_True.
Qed.

(** What is left of an order after a fill of [amt]. *)
Definition reduced (o : Order) (amt : Z) : list Order :=
  if (amt =? ord_remaining o)%Z then []
  else [set_remaining (ord_remaining o - amt) o].

Lemma reduced_ok base s i o amt :
  resting_ok base s i o → (0 < amt ≤ ord_remaining o)%Z →
  Forall (resting_ok base s i) (reduced o amt).
Proof.
  intros [Hs Hp Hpos Hi Hl] Hamt. unfold reduced.
  destruct (Z.eqb_spec amt (ord_remaining o)); constructor; [|constructor].
  split; simpl; try done; [lia|]. unfold is_i64 in *. lia.
Qed.

(** A partial fill edits the order in place. *)
Lemma reduce_partial b F L G Q s i l1 p l2 o1 o o2 amt :
  rep b F L G Q → i < NumLevels →
  G s i = l1 ++ p :: l2 → Q s i = o1 ++ o :: o2 → length l1 = length o1 →
  resting_ok (base_price b) s i o → (0 < amt < ord_remaining o)%Z →
  let o' := set_remaining (StrongAmount.sub (ord_remaining o) amt) o in
  let lvl := level_for b s i in
  rep (put_level (with_heap b (alter (set_order o') p (heap_of b))) s i
         (mkLevel (head lvl) (tail lvl) (StrongAmount.sub (total_quantity lvl) amt)
            (Level.order_count lvl)))
    F L (upd G s i (G s i)) (upd Q s i (o1 ++ o' :: o2)).
Proof.
  intros Hr Hi HG HQ Hlen Hok Hamt o' lvl.
  pose proof (r_level _ _ _ _ _ Hr s i Hi) as Hl. rewrite HG, HQ in Hl. fold lvl in Hl.
  assert (StrongAmount.sub (ord_remaining o) amt = ord_remaining o - amt)%Z as Hsub.
  { apply amount_sub_small; [lia|lia|apply Hok]. }
  set (h' := alter (set_order o') p (heap_of b)). set (lvl' := mkLevel _ _ _ _).
  replace (put_level (with_heap b h') s i lvl') with
    (edit b s (Ladder.set_level (side_of b s) i lvl')
      (SlabPool.mk h' (SlabPool.next_free (pool b)) (SlabPool.free_head (pool b))
         (SlabPool.live_count (pool b))) (order_index b) (order_count b)) by by destruct s.
  assert (order_at (heap_of b) p = Some o) as Hop.
  { by destruct (orders_split _ _ _ _ _ _ _ Hlen (lr_orders _ _ _ _ Hl)) as (_&?&_). }
  assert (∀ q, links h' q = links (heap_of b) q ∧ index_at h' q = index_at (heap_of b) q) as Hlk.
  { intros q. unfold h'. rewrite links_alter, index_at_alter. by case_decide. }
  assert (∀ q, q ≠ p → order_at h' q = order_at (heap_of b) q) as Hoq.
  { intros q Hq. unfold h'. rewrite order_at_alter. by rewrite decide_False. }
  assert (length (Ladder.levels (side_of b s)) = NumLevels) as HlenL by apply (r_side _ _ _ _ _ Hr).
  eapply (rep_edit _ _ _ _ _ _ _ _ _ lvl'); simpl; try done.
  - apply pool_rep_heap; [apply Hr|]. unfold h'. rewrite length_alter.
    apply (r_pool _ _ _ _ _ Hr).
  - apply Ladder.set_level_ok; [apply Hr|done|done].
  - intros k. apply Ladder.level_set_level. lia.
  - rewrite HG. eapply level_rep_reduce; [done|done|lia|apply Hok].
  - intros s' i' q Hne Hq. destruct (Hlk q) as [-> ->]. split_and!; [done| |done].
    apply Hoq. intros ->. apply Hne.
    destruct (r_disj _ _ _ _ _ Hr s i s' i' p) as [-> ->]; [rewrite HG; set_solver|done|done].
  - intros q Hq. destruct (Hlk q) as [_ ->]. split; [by eapply Hr|].
    intros s' i' Hne Hq'. apply Hne. by destruct (r_disj _ _ _ _ _ Hr _ _ _ _ _ Hq' Hq) as [-> ->].
  - intros q. rewrite (r_live _ _ _ _ _ Hr q). split; [|naive_solver].
    intros (s'&i'&Hq). destruct (decide ((s', i') = (s, i))) as [[= -> ->]|]; eauto.
  - intros x Hx. apply elem_of_app in Hx as [Hx|Hx]; [|apply elem_of_cons in Hx as [->|Hx]].
    + eapply (r_order _ _ _ _ _ Hr). rewrite HQ. set_solver.
    + destruct Hok as [? ? ? ? ?]. unfold o'. split; simpl; try done; rewrite Hsub; [lia|].
      unfold is_i64 in *. lia.
    + eapply (r_order _ _ _ _ _ Hr). rewrite HQ. set_solver.
  - intros id q. rewrite (r_index _ _ _ _ _ Hr). destruct (decide (q = p)) as [->|Hq].
    + unfold h'. rewrite order_at_alter, decide_True by done. unfold order_at in *.
      destruct (heap_of b !! p); naive_solver.
    + by rewrite Hoq.
  - apply Hr.
Qed.

Lemma reduce_success b F L G Q id p amt :
  rep b F L G Q → hm_find (order_index b) id = Some p →
  (0 < amt ≤ ord_remaining (node_order (deref (heap_of b) p)))%Z →
  ∃ s i o1 o o2 b' F' L' G', reduce_quantity b id amt = (inr tt, b') ∧ i < NumLevels ∧
    Q s i = o1 ++ o :: o2 ∧ ord_id o = id ∧ resting_ok (base_price b) s i o ∧
    node_order (deref (heap_of b) p) = o ∧
    symbol b' = symbol b ∧ base_price b' = base_price b ∧
    length L' + (if (amt =? ord_remaining o)%Z then 1 else 0) = length L ∧
    rep b' F' L' G' (upd Q s i (o1 ++ reduced o amt ++ o2)).
Proof.
  intros Hr Hf Hamt.
  destruct (rep_split _ _ _ _ _ _ _ Hr Hf) as
    (s&i&l1&l2&o1&o&o2&Hi&HG&HQ&Hlen&Hid&Ho&Hix&Hok).
  unfold reduce_quantity. rewrite Hf, Ho in *. cbv zeta.
  rewrite (proj2 (Z.leb_gt _ _)) by lia. rewrite (proj2 (Z.ltb_ge _ _)) by lia.
  simpl orb. cbv iota. rewrite Hix, (ro_side _ _ _ _ Hok).
  exists s, i, o1, o, o2. unfold reduced.
  destruct (Z.eqb_spec amt (ord_remaining o)) as [Hfull|Hpart].
  - pose proof (length_unlinked _ _ _ _ _ s i p Hr) as Hlu.
    set (r := level_unlink (heap_of b) (level_for b s i) p) in *.
    set (o' := set_remaining _ o).
    destruct (remove_rep _ _ _ _ _ s i l1 p l2 o1 o o2 (alter (set_order o') p r.1)
      Hr Hi HG HQ Hlen) as (L'&HL&Hr').
    { by rewrite length_alter. }
    { intros q Hq. by rewrite list_lookup_alter_ne. }
    fold r in Hr'. destruct r as [h lvl] eqn:Er. simpl in *.
    rewrite popped_side. eexists _, (p :: F), L', _. split; [reflexivity|].
    assert (length L = S (length L')) by by rewrite HL.
    split_and!; try done; [by destruct s|by destruct s|lia|].
    rewrite <- Hid. clear -Hr'. destruct s; exact Hr'.
  - pose proof (reduce_partial _ _ _ _ _ s i l1 p l2 o1 o o2 amt Hr Hi HG HQ Hlen Hok
      ltac:(lia)) as Hr'. cbv zeta in Hr'.
    assert (StrongAmount.sub (ord_remaining o) amt = ord_remaining o - amt)%Z as Hsub.
    { apply amount_sub_small; [lia|lia|apply Hok]. }
    rewrite <- Hsub. eexists _, F, L, _. split; [reflexivity|].
    split_and!; try done; first [lia | by destruct s].
Qed.

(** ** The empty book, and reading the ghost state back *)

Lemma book_create_rep sym base :
  geometry base → 0 < MaxOrders → (Z.of_nat MaxOrders ≤ 2 ^ 32 - 1)%Z →
  rep (create sym base) (seq 0 MaxOrders) [] (λ _ _, []) (λ _ _, []).
Proof.
  intros Hg Hpos Hcap. split; try done.
  - by apply SlabPool.pool_create_rep.
  - intros s. replace (side_of (create sym base) s) with (Ladder.create NumLevels)
      by by destruct s. apply Ladder.create_ok.
  - intros s i Hi. replace (level_for (create sym base) s i) with default_level.
    { apply level_rep_empty. }
    unfold level_for. replace (side_of (create sym base) s) with (Ladder.create NumLevels)
      by by destruct s. unfold Ladder.level, Ladder.create; simpl.
    destruct (replicate _ _ !! i) eqn:E; [|done]. by apply lookup_replicate in E as [-> _].
  - set_solver.
  - set_solver.
  - set_solver.
  - set_solver.
  - intros id p. simpl. rewrite hm_find_empty. set_solver.
Qed.

Lemma fifo_rep b F L G Q s i : rep b F L G Q → i < NumLevels → fifo b s i = Q s i.
Proof.
  intros Hr Hi. pose proof (r_level _ _ _ _ _ Hr s i Hi) as Hl. unfold fifo.
  destruct (rep_level_length _ _ _ _ _ s i Hr) as [HGL _].
  pose proof (SlabPool.rep_count _ _ _ _ (r_pool _ _ _ _ _ Hr)) as Hc.
  rewrite (lr_head _ _ _ _ Hl), (walk_dseg _ _ None (G s i)); [|lia|apply Hl].
  pose proof (lr_orders _ _ _ _ Hl) as Ho. clear -Ho. revert Ho. generalize (Q s i) as os.
  induction (G s i) as [|p ps IH]; intros [|o os]; try done.
  rewrite !fmap_cons. intros E.
  apply (f_equal (drop 1)) in E as E2. apply (f_equal List.hd_error) in E.
  simpl in E, E2. rewrite !drop_0 in E2. injection E as E. f_equal.
  - by apply deref_order.
  - by apply IH.
Qed.

(** The cascade of checks of [add], in order. *)
Definition add_verdict (b : t) (o : Order) : option AddError :=
  if decide (ord_type o = Limit) then
    if (ord_remaining o <=? 0)%Z then Some BadQuantity
    else
      match index_of b (ord_price o) with
      | None => Some PriceOutOfRange
      | Some _ =>
          if hm_contains (order_index b) (ord_id o) then Some DuplicateId
          else if decide (SlabPool.free_head (pool b) = SlabPool.kNone)
          then Some PoolExhausted else None
      end
  else Some MarketOrderCannotRest.

Lemma add_rejects b o e : add_verdict b o = Some e → add b o = (inl e, b).
Proof.
  unfold add_verdict, add. intros H.
  destruct (decide (ord_type o = Limit)); [|by simplify_eq].
  destruct (ord_remaining o <=? 0)%Z; [by simplify_eq|].
  destruct (index_of b (ord_price o)); [|by simplify_eq].
  destruct (hm_contains _ _); [by simplify_eq|].
  unfold SlabPool.allocate. destruct (decide _); simplify_eq. by destruct b.
Qed.

Lemma add_accepts b F L G Q o :
  rep b F L G Q → is_i64 (ord_remaining o) → is_i64 (ord_price o) →
  add_verdict b o = None →
  ∃ i p F' b', F = p :: F' ∧ index_of b (ord_price o) = Some i ∧ i < NumLevels ∧
    ord_price o = (base_price b + Z.of_nat i)%Z ∧ hm_find (order_index b) (ord_id o) = None ∧
    add b o = (inr (ord_id o), b') ∧ symbol b' = symbol b ∧ base_price b' = base_price b ∧
    rep b' F' (p :: L) (upd G (ord_side o) i (G (ord_side o) i ++ [p]))
      (upd Q (ord_side o) i (Q (ord_side o) i ++ [o])).
Proof.
  intros Hr Hri Hpi. unfold add_verdict. intros H.
  destruct (decide (ord_type o = Limit)) as [Hty|]; [|done].
  destruct (Z.leb_spec (ord_remaining o) 0); [done|].
  destruct (index_of b (ord_price o)) as [i|] eqn:Hix; [|done].
  unfold hm_contains in H.
  destruct (hm_find (order_index b) (ord_id o)) as [|] eqn:Hf; [done|].
  destruct (decide _) as [|Hne] in H; [done|].
  pose proof (SlabPool.rep_chain _ _ _ _ (r_pool _ _ _ _ _ Hr)) as Hch.
  destruct F as [|p F]; simpl in Hch; [done|].
  destruct (add_success _ _ _ _ _ o i p Hr) as (b'&Hadd&Es&Eb&Hr'); try done.
  pose proof (proj1 (index_of_spec b _ i (r_base _ _ _ _ _ Hr) Hpi) Hix) as [Hi Hprice].
  exists i, p, F, b'. done.
Qed.

(** A found id can be cancelled, an unknown one changes nothing. *)
Lemma cancel_unknown b id :
  hm_find (order_index b) id = None → cancel b id = (inl CancelNotFound, b).
Proof. intros H. unfold cancel. by rewrite H. Qed.

End book.

Arguments t : clear implicits.

End OrderBook.
