(* ===== verification/BookSpec.v ===== *)
(** * Abstract specification of the order book

    One side of the book is specified by the list of its resting orders in
    price-time priority.  Resting inserts an order behind every order that
    is not worse in price, cancelling removes it by id, a fill shortens the
    order or removes it.  The lemmas show that the operations of
    [OrderBook] act on [OrderBook.queue] exactly so. *)

From S2P Require Import Prelude Types Bitmap SlabPool Level HashMap Ladder OrderBook.
From Stdlib Require Import Sorted.
From stdpp Require Import base tactics numbers list sets.

Set Default Goal Selector "!".

Module BookSpec.
Import Level OrderBook.

(** [p] is a strictly better price than [q] for an order resting on [s]. *)
Definition better (s : Side) (p q : Z) : bool :=
  match s with Buy => (q <? p)%Z | Sell => (p <? q)%Z end.

Fixpoint insert (s : Side) (o : Order) (q : list Order) : list Order :=
  match q with
  | [] => [o]
  | o' :: q' => if better s (ord_price o) (ord_price o') then o :: o' :: q'
                else o' :: insert s o q'
  end.

Definition remove (id : Z) (q : list Order) : list Order :=
  List.filter (λ o, negb (ord_id o =? id)%Z) q.

(** Price priority: nobody behind an order has a strictly better price. *)
Definition price_sorted (s : Side) (q : list Order) : Prop :=
  StronglySorted (λ o o', better s (ord_price o') (ord_price o) = false) q.

Lemma insert_split s o A B :
  Forall (λ o', better s (ord_price o) (ord_price o') = false) A →
  Forall (λ o', better s (ord_price o) (ord_price o') = true) B →
  insert s o (A ++ B) = A ++ o :: B.
Proof.
  induction 1 as [|x A Hx HA IH]; intros HB; simpl.
  - destruct HB as [|y B Hy HB]; simpl; [done|]. by rewrite Hy.
  - rewrite Hx. f_equal. by apply IH.
Qed.

Lemma remove_split id A o B :
  ord_id o = id → Forall (λ o', ord_id o' ≠ id) A → Forall (λ o', ord_id o' ≠ id) B →
  remove id (A ++ o :: B) = A ++ B.
Proof.
  intros Ho HA HB. unfold remove. rewrite List.filter_app. simpl.
  rewrite Ho, Z.eqb_refl. simpl.
  assert (∀ l, Forall (λ o', ord_id o' ≠ id) l →
    List.filter (λ o', negb (ord_id o' =? id)%Z) l = l) as Hid.
  { induction 1 as [|x l Hx Hl IH]; simpl; [done|].
    rewrite (proj2 (Z.eqb_neq _ _)) by done. simpl. by f_equal. }
  by rewrite !Hid.
Qed.

(** Visiting a list of priced levels until the visitor says stop. *)
Fixpoint visit_list {A} (visit : A → Z → PriceLevel → A * bool) (acc : A)
    (l : list (Z * PriceLevel)) : A :=
  match l with
  | [] => acc
  | (p, lvl) :: l =>
      let '(acc, go_on) := visit acc p lvl in
      if (go_on : bool) then visit_list visit acc l else acc
  end.

Section refine.
Context (NumLevels MaxOrders : nat).
Context {M : Type} `{!HashMap Z nat M}.
Implicit Types (b : t M).

Abbreviation rep := (OrderBook.rep NumLevels MaxOrders).
Abbreviation queue := (OrderBook.queue NumLevels MaxOrders).

(** ** The queue as the concatenation of the levels *)

Definition flat (Q : Side → nat → list Order) (s : Side) : list Order :=
  concat (Q s <$> Ladder.prio (is_bid s) NumLevels).

Lemma queue_rep b F L G Q s : rep b F L G Q → queue b s = flat Q s.
Proof.
  intros Hr. unfold OrderBook.queue, flat. f_equal. apply list_fmap_ext.
  intros k i Hi. apply list_elem_of_lookup_2, Ladder.elem_of_prio in Hi.
  by eapply fifo_rep.
Qed.

Lemma prio_split bid i :
  i < NumLevels →
  ∃ pre post, Ladder.prio bid NumLevels = pre ++ i :: post ∧
    (∀ j, j ∈ pre → Ladder.is_better bid j i = true) ∧
    (∀ j, j ∈ post → Ladder.is_better bid i j = true).
Proof.
  intros Hi. apply (Ladder.elem_of_prio bid) in Hi.
  apply list_elem_of_split in Hi as (pre&post&E). exists pre, post. split; [done|].
  pose proof (Ladder.prio_sorted bid NumLevels) as Hs. rewrite E in Hs. clear E.
  split.
  - induction pre as [|j pre IH]; [set_solver|]. simpl in Hs.
    apply StronglySorted_inv in Hs as [Hs Hj]. intros k [->|Hk]%elem_of_cons.
    + eapply Forall_forall in Hj; [exact Hj|]. set_solver.
    + by apply IH.
  - induction pre as [|j pre IH].
    + simpl in Hs. apply StronglySorted_inv in Hs as [_ Hs]. by apply Forall_forall.
    + simpl in Hs. apply StronglySorted_inv in Hs as [Hs _]. by apply IH.
Qed.

Lemma fmap_upd_notin (Q : Side → nat → list Order) s i x (l : list nat) :
  i ∉ l → upd Q s i x s <$> l = Q s <$> l.
Proof.
  intros Hi. apply list_fmap_ext. intros k j Hj. apply upd_ne.
  apply list_elem_of_lookup_2 in Hj. intros [= ->]. done.
Qed.

(** Updating one level splits the queue around that level. *)
Lemma flat_upd Q s i :
  i < NumLevels →
  ∃ A B pre post, Ladder.prio (is_bid s) NumLevels = pre ++ i :: post ∧
    (∀ j, j ∈ pre → Ladder.is_better (is_bid s) j i = true) ∧
    (∀ j, j ∈ post → Ladder.is_better (is_bid s) i j = true) ∧
    A = concat (Q s <$> pre) ∧ B = concat (Q s <$> post) ∧
    flat Q s = A ++ Q s i ++ B ∧
    (∀ x, flat (upd Q s i x) s = A ++ x ++ B) ∧
    (∀ x s', s' ≠ s → flat (upd Q s i x) s' = flat Q s').
Proof.
  intros Hi. destruct (prio_split (is_bid s) i Hi) as (pre&post&E&Hpre&Hpost).
  exists (concat (Q s <$> pre)), (concat (Q s <$> post)), pre, post.
  split_and!; try done.
  - unfold flat. rewrite E, fmap_app, fmap_cons, concat_app. done.
  - intros x. unfold flat. rewrite E, fmap_app, fmap_cons, concat_app. simpl.
    rewrite upd_eq. rewrite !fmap_upd_notin; [done| |].
    + intros Hin%Hpost. by rewrite Ladder.is_better_irrefl in Hin.
    + intros Hin%Hpre. by rewrite Ladder.is_better_irrefl in Hin.
  - intros x s' Hs. unfold flat. f_equal. apply list_fmap_ext.
    intros k j _. apply upd_ne. congruence.
Qed.

Lemma elem_of_levels (Q : Side → nat → list Order) s (l : list nat) o :
  o ∈ concat (Q s <$> l) ↔ ∃ j, j ∈ l ∧ o ∈ Q s j.
Proof. apply elem_of_concat_fmap. Qed.

(** Prices of two levels compare like their indices. *)
Lemma level_price_better base s i j o o' :
  resting_ok base s i o → resting_ok base s j o' →
  better s (ord_price o) (ord_price o') = Ladder.is_better (is_bid s) i j.
Proof.
  intros [_ -> _ _ _] [_ -> _ _ _]. destruct s; simpl.
  - apply Bool.eq_true_iff_eq. rewrite Z.ltb_lt, Nat.ltb_lt. lia.
  - apply Bool.eq_true_iff_eq. rewrite Z.ltb_lt, Nat.ltb_lt. lia.
Qed.

(** Positions are determined by the id. *)
Lemma rep_unique_id b F L G Q s i k o s' i' k' o' :
  rep b F L G Q → Q s i !! k = Some o → Q s' i' !! k' = Some o' →
  ord_id o = ord_id o' → s = s' ∧ i = i' ∧ k = k'.
Proof.
  intros Hr H1 H2 Hid.
  assert (∀ s i k o, Q s i !! k = Some o → ∃ p, i < NumLevels ∧ G s i !! k = Some p ∧
    hm_find (order_index b) (ord_id o) = Some p) as Hget.
  { clear -Hr. intros s i k o Hk.
    assert (i < NumLevels) as Hi.
    { destruct (decide (i < NumLevels)); [done|].
      destruct (r_out _ _ _ _ _ _ _ Hr s i) as [_ E]; [lia|]. by rewrite E in Hk. }
    pose proof (r_level _ _ _ _ _ _ _ Hr s i Hi) as Hl.
    pose proof (level_rep_length _ _ _ _ Hl) as Hlen.
    apply lookup_lt_Some in Hk as Hlt. rewrite <- Hlen in Hlt.
    destruct (lookup_lt_is_Some_2 _ _ Hlt) as [p Hp]. exists p. split_and!; [done|done|].
    destruct (rep_lookup _ _ _ _ _ _ _ _ _ _ _ Hr Hp) as (_&o'&Ho'&Hat&_).
    rewrite Hk in Ho'. injection Ho' as <-.
    apply (r_index _ _ _ _ _ _ _ Hr). rewrite Hat. split; [|done].
    apply (r_live _ _ _ _ _ _ _ Hr). exists s, i. by eapply list_elem_of_lookup_2. }
  destruct (Hget _ _ _ _ H1) as (p&Hi&Hp&Hf), (Hget _ _ _ _ H2) as (p'&Hi'&Hp'&Hf').
  rewrite <- Hid, Hf in Hf'. injection Hf' as <-.
  destruct (r_disj _ _ _ _ _ _ _ Hr s i s' i' p) as [-> ->];
    [by eapply list_elem_of_lookup_2..|].
  split_and!; try done. eapply NoDup_lookup; [|done..].
  apply (lr_nodup _ _ _ _ (r_level _ _ _ _ _ _ _ Hr s' i' Hi)).
Qed.

(** ** Each operation on the queue *)

Lemma levels_sorted base (Q : Side → nat → list Order) s (l : list nat) :
  (∀ i o, o ∈ Q s i → resting_ok base s i o) →
  StronglySorted (λ i j, Ladder.is_better (is_bid s) i j = true) l →
  price_sorted s (concat (Q s <$> l)).
Proof.
  intros HQ Hl. induction Hl as [|i l Hl IH Hi]; simpl; [constructor|].
  assert (∀ o, o ∈ Q s i → resting_ok base s i o) as HQi by auto.
  induction (Q s i) as [|o os IHos]; simpl; [done|].
  constructor; [apply IHos; set_solver|]. apply Forall_app. split.
  - apply Forall_forall. intros o' Ho'.
    rewrite (level_price_better base s i i); [|apply HQi; set_solver..].
    apply Ladder.is_better_irrefl.
  - apply Forall_forall. intros o' (j&Hj&Ho')%elem_of_levels.
    rewrite (level_price_better base s j i); [|by auto|apply HQi; set_solver].
    apply Ladder.is_better_asym. by eapply Forall_forall in Hi.
Qed.

Lemma queue_sorted b F L G Q s : rep b F L G Q → price_sorted s (queue b s).
Proof.
  intros Hr. rewrite (queue_rep _ _ _ _ _ s Hr).
  apply (levels_sorted (base_price b)); [|apply Ladder.prio_sorted].
  intros i o. apply (r_order _ _ _ _ _ _ _ Hr).
Qed.

Lemma queue_elem b F L G Q s o :
  rep b F L G Q → o ∈ queue b s ↔ ∃ i, i < NumLevels ∧ o ∈ Q s i.
Proof.
  intros Hr. rewrite (queue_rep _ _ _ _ _ s Hr). unfold flat.
  rewrite elem_of_levels. setoid_rewrite Ladder.elem_of_prio. done.
Qed.

(** Splitting a side at an order of a level. *)
Lemma queue_at b F L G Q s i o1 o o2 :
  rep b F L G Q → i < NumLevels → Q s i = o1 ++ o :: o2 →
  ∃ A B, queue b s = A ++ o :: B ∧
    Forall (λ o', ord_id o' ≠ ord_id o) A ∧ Forall (λ o', ord_id o' ≠ ord_id o) B ∧
    (∀ x, flat (upd Q s i (o1 ++ x ++ o2)) s = A ++ x ++ B) ∧
    (∀ x s', s' ≠ s → flat (upd Q s i x) s' = queue b s').
Proof.
  intros Hr Hi HQ.
  destruct (flat_upd Q s i Hi) as (A&B&pre&post&Eprio&Hpre&Hpost&EA&EB&Ef&Eu&Eo).
  assert (Q s i !! length o1 = Some o) as Hk.
  { rewrite HQ, lookup_app_r, Nat.sub_diag by lia. done. }
  assert (∀ j o', (j ≠ i) → o' ∈ Q s j → ord_id o' ≠ ord_id o) as Hother.
  { intros j o' Hj [k' Hk']%list_elem_of_lookup E. apply Hj.
    by destruct (rep_unique_id _ _ _ _ _ _ _ _ _ _ _ _ _ Hr Hk' Hk E) as (_&?&_). }
  assert (∀ o' k', k' ≠ length o1 → Q s i !! k' = Some o' → ord_id o' ≠ ord_id o) as Hsame.
  { intros o' k' Hne Hk' E. apply Hne.
    by destruct (rep_unique_id _ _ _ _ _ _ _ _ _ _ _ _ _ Hr Hk' Hk E) as (_&_&?). }
  exists (A ++ o1), (o2 ++ B). split_and!.
  - rewrite (queue_rep _ _ _ _ _ s Hr), Ef, HQ, <- !app_assoc. done.
  - apply Forall_app. split; apply Forall_forall; intros o' Ho'.
    + rewrite EA in Ho'. apply elem_of_levels in Ho' as (j&Hj&Ho'). eapply Hother; [|done].
      intros ->. apply Hpre in Hj. by rewrite Ladder.is_better_irrefl in Hj.
    + apply list_elem_of_lookup in Ho' as [k Hk'].
      apply lookup_lt_Some in Hk' as Hlt. eapply (Hsame _ k); [lia|].
      rewrite HQ, lookup_app_l by done. done.
  - apply Forall_app. split; apply Forall_forall; intros o' Ho'.
    + apply list_elem_of_lookup in Ho' as [k Hk'].
      eapply (Hsame _ (length o1 + S k)); [lia|]. rewrite HQ, lookup_app_r by lia.
      by replace (length o1 + S k - length o1) with (S k) by lia.
    + rewrite EB in Ho'. apply elem_of_levels in Ho' as (j&Hj&Ho'). eapply Hother; [|done].
      intros ->. apply Hpost in Hj. by rewrite Ladder.is_better_irrefl in Hj.
  - intros x. rewrite Eu, <- !app_assoc. done.
  - intros x s' Hs. rewrite Eo by done. symmetry. by eapply queue_rep.
Qed.

(** ** Queries *)

(** The occupied slots are the levels that hold an order. *)
Lemma occupied_level b F L G Q s i :
  rep b F L G Q → i < NumLevels →
  Bitmap.test (Ladder.occupied (side_of b s)) i = bool_decide (Q s i ≠ []).
Proof.
  intros Hr Hi. rewrite (Ladder.ok_occ _ _ _ (r_side _ _ _ _ _ _ _ Hr s)).
  pose proof (r_level _ _ _ _ _ _ _ Hr s i Hi) as Hl.
  destruct (rep_level_length _ _ _ _ _ _ _ s i Hr) as [HGL HL32].
  pose proof (level_empty_iff _ _ _ _ Hl ltac:(lia)) as E. unfold level_for in E. rewrite E.
  pose proof (level_rep_length _ _ _ _ Hl) as Hlen.
  destruct (G s i), (Q s i); try done.
Qed.

Lemma occupied_level_lt b F L G Q s i :
  rep b F L G Q → Bitmap.test (Ladder.occupied (side_of b s)) i = true → i < NumLevels.
Proof.
  intros Hr. eapply Ladder.index_ok_lt. apply (r_side _ _ _ _ _ _ _ Hr s).
Qed.

(** Slots that hold an order, best first. *)
Definition busy (Q : Side → nat → list Order) (s : Side) (l : list nat) : list nat :=
  List.filter (λ i, bool_decide (Q s i ≠ [])) l.

Lemma filter_ext_elem {A} (f g : A → bool) (l : list A) :
  (∀ x, x ∈ l → f x = g x) → List.filter f l = List.filter g l.
Proof.
  intros H. induction l as [|x l IH]; simpl; [done|].
  rewrite (H x) by set_solver. rewrite IH by set_solver. done.
Qed.

Lemma occupied_busy b F L G Q s (l : list nat) :
  rep b F L G Q → (∀ i, i ∈ l → i < NumLevels) →
  List.filter (Bitmap.test (Ladder.occupied (side_of b s))) l = busy Q s l.
Proof.
  intros Hr Hl. apply filter_ext_elem. intros i Hi. eapply occupied_level; [done|auto].
Qed.

Lemma busy_concat Q s (l : list nat) : concat (Q s <$> busy Q s l) = concat (Q s <$> l).
Proof.
  induction l as [|i l IH]; [done|]. unfold busy in *. cbn [List.filter].
  case_bool_decide as H.
  - rewrite !fmap_cons. simpl. by rewrite IH.
  - rewrite fmap_cons. simpl. by rewrite H, IH.
Qed.

Lemma best_index_busy b F L G Q s :
  rep b F L G Q →
  Ladder.best_index (side_of b s) = hd_error (busy Q s (Ladder.prio (is_bid s) NumLevels)).
Proof.
  intros Hr. rewrite (Ladder.best_index_prio (is_bid s) NumLevels);
    [|apply (r_side _ _ _ _ _ _ _ Hr s)].
  unfold Ladder.occupied_prio. by rewrite (occupied_busy _ _ _ _ _ _ _ Hr)
    by (intros i; apply Ladder.elem_of_prio).
Qed.

Lemma busy_hd Q s (l : list nat) i tl :
  busy Q s l = i :: tl → i ∈ l ∧ Q s i ≠ [].
Proof.
  intros E. assert (i ∈ busy Q s l) as Hi by (rewrite E; set_solver).
  apply list_elem_of_In, filter_In in Hi as [Hi Hb].
  by apply list_elem_of_In in Hi; apply bool_decide_eq_true in Hb.
Qed.

(** The best price is the price of the first order of the queue, and the
    node at the front of its level holds that order. *)
Lemma best_front b F L G Q s :
  rep b F L G Q →
  match queue b s with
  | [] => best_price b s = None
  | o :: _ => best_price b s = Some (ord_price o) ∧
      ∃ p, front_at NumLevels b s (ord_price o) = Some p ∧
        node_order (deref (heap_of b) p) = o ∧ hm_find (order_index b) (ord_id o) = Some p
  end.
Proof.
  intros Hr. rewrite (queue_rep _ _ _ _ _ s Hr). unfold flat, best_price.
  rewrite (best_index_busy _ _ _ _ _ s Hr), <- busy_concat.
  destruct (busy Q s _) as [|i tl] eqn:E; simpl; [done|].
  apply busy_hd in E as [Hi%Ladder.elem_of_prio HQ].
  destruct (Q s i) as [|o os] eqn:EQ; [done|]. simpl.
  pose proof (r_level _ _ _ _ _ _ _ Hr s i Hi) as Hl. rewrite EQ in Hl.
  pose proof (level_rep_length _ _ _ _ Hl) as Hlen.
  destruct (G s i) as [|p ps] eqn:EG; [done|].
  assert (resting_ok (base_price b) s i o) as Hok.
  { apply (r_order _ _ _ _ _ _ _ Hr). rewrite EQ. set_solver. }
  pose proof (r_base _ _ _ _ _ _ _ Hr) as Hg.
  rewrite (price_at_exact NumLevels) by done. rewrite (ro_price _ _ _ _ Hok).
  split; [done|]. exists p.
  destruct (rep_lookup _ _ _ _ _ _ _ s i 0 p Hr) as (_&o'&HQ'&Hat&_); [by rewrite EG|].
  rewrite EQ in HQ'. simpl in HQ'. injection HQ' as <-. split_and!.
  - unfold front_at. rewrite index_of_level by done. apply (lr_head _ _ _ _ Hl).
  - by apply deref_order.
  - apply (r_index _ _ _ _ _ _ _ Hr). rewrite Hat. split; [|done].
    apply (r_live _ _ _ _ _ _ _ Hr). exists s, i. rewrite EG. set_solver.
Qed.

(** [for_each_level] visits the levels that hold orders from best to worst. *)
Lemma filter_hd_split (f : nat → bool) (l : list nat) i tl :
  List.filter f l = i :: tl →
  ∃ a post, l = a ++ i :: post ∧ List.filter f a = [] ∧ List.filter f post = tl.
Proof.
  induction l as [|x l IH]; simpl; [done|]. destruct (f x) eqn:E.
  - intros [= -> Hl]. by exists [], l.
  - intros (a&post&->&Ha&Hp)%IH. exists (x :: a), post. simpl. by rewrite E.
Qed.

Lemma for_each_loop_spec {A} b F L G Q s (visit : A → Z → PriceLevel → A * bool)
    fuel acc pre rest :
  rep b F L G Q → Ladder.prio (is_bid s) NumLevels = pre ++ rest → length rest ≤ fuel →
  let f := Bitmap.test (Ladder.occupied (side_of b s)) in
  for_each_loop fuel b s visit acc (hd_error (List.filter f rest)) =
  visit_list visit acc ((λ i, (price_at b i, level_for b s i)) <$> List.filter f rest).
Proof.
  intros Hr. revert acc pre rest. induction fuel as [|fuel IH]; intros acc pre rest Hp Hf f.
  { destruct rest; simpl in *; [done|lia]. }
  destruct (List.filter f rest) as [|i tl] eqn:E; [done|].
  destruct (filter_hd_split _ _ _ _ E) as (a&post&->&Ha&Hpost).
  rewrite fmap_cons. simpl. destruct (visit acc _ _) as [acc' [|]]; [|done].
  rewrite (Ladder.next_after_prio (is_bid s) NumLevels _ (pre ++ a) i post).
  - fold f. rewrite <- Hpost. apply (IH acc' (pre ++ a ++ [i]) post).
    + by rewrite Hp, <- !app_assoc.
    + rewrite length_app in Hf. simpl in Hf. lia.
  - apply (r_side _ _ _ _ _ _ _ Hr s).
  - by rewrite Hp, <- app_assoc.
Qed.

(** The levels of a side as the visitor sees them. *)
Definition level_view b (Q : Side → nat → list Order) (s : Side) : list (Z * PriceLevel) :=
  (λ i, (price_at b i, level_for b s i)) <$> busy Q s (Ladder.prio (is_bid s) NumLevels).

Lemma for_each_level_spec {A} b F L G Q s (visit : A → Z → PriceLevel → A * bool) acc :
  rep b F L G Q →
  for_each_level NumLevels b s visit acc = visit_list visit acc (level_view b Q s).
Proof.
  intros Hr. unfold for_each_level, level_view.
  rewrite (best_index_busy _ _ _ _ _ s Hr).
  rewrite <- (occupied_busy _ _ _ _ _ s _ Hr) by (intros i; apply Ladder.elem_of_prio).
  apply (for_each_loop_spec _ _ _ _ _ _ _ _ _ [] _ Hr); [done|].
  by rewrite Ladder.length_prio.
Qed.

Context `{!HashMapLaws Z nat M}.

(** Resting an order: [insert] on its side, the other side untouched. *)
Lemma add_queue b F L G Q o :
  rep b F L G Q → is_i64 (ord_remaining o) → is_i64 (ord_price o) →
  add_verdict NumLevels b o = None →
  ∃ b' F' L' G' Q', add NumLevels b o = (inr (ord_id o), b') ∧ rep b' F' L' G' Q' ∧
    symbol b' = symbol b ∧ base_price b' = base_price b ∧ length L' = S (length L) ∧
    queue b' (ord_side o) = insert (ord_side o) o (queue b (ord_side o)) ∧
    queue b' (opposite (ord_side o)) = queue b (opposite (ord_side o)).
Proof.
  intros Hr Hri Hpi Hv.
  destruct (add_accepts _ _ _ _ _ _ _ _ Hr Hri Hpi Hv) as
    (i&p&F'&b'&->&Hix&Hi&Hprice&Hf&Hadd&Es&Eb&Hr').
  set (s := ord_side o) in *.
  destruct (flat_upd Q s i Hi) as (A&B&pre&post&Eprio&Hpre&Hpost&EA&EB&Ef&Eu&Eo).
  exists b', F', (p :: L). do 2 eexists. split_and!; [exact Hadd|exact Hr'|done|done|done| |].
  - rewrite (queue_rep _ _ _ _ _ s Hr'), (queue_rep _ _ _ _ _ s Hr), Eu, Ef.
    rewrite !app_assoc, insert_split, <- !app_assoc; [done| |].
    + assert (resting_ok (base_price b) s i o) as Hok.
      { rewrite <- Eb. apply (r_order _ _ _ _ _ _ _ Hr'). rewrite upd_eq. set_solver. }
      apply Forall_app. split; apply Forall_forall; intros o' Ho'.
      * rewrite EA in Ho'. apply elem_of_levels in Ho' as (j&Hj&Ho').
        apply (r_order _ _ _ _ _ _ _ Hr) in Ho'.
        rewrite (level_price_better _ _ _ _ _ _ Hok Ho').
        by apply Ladder.is_better_asym, Hpre.
      * apply (r_order _ _ _ _ _ _ _ Hr) in Ho'.
        rewrite (level_price_better _ _ _ _ _ _ Hok Ho'). apply Ladder.is_better_irrefl.
    + assert (resting_ok (base_price b) s i o) as Hok.
      { rewrite <- Eb. apply (r_order _ _ _ _ _ _ _ Hr'). rewrite upd_eq. set_solver. }
      apply Forall_forall. intros o' Ho'. rewrite EB in Ho'.
      apply elem_of_levels in Ho' as (j&Hj&Ho'). apply (r_order _ _ _ _ _ _ _ Hr) in Ho'.
      rewrite (level_price_better _ _ _ _ _ _ Hok Ho'). by apply Hpost.
  - rewrite (queue_rep _ _ _ _ _ _ Hr'), (queue_rep _ _ _ _ _ _ Hr).
    apply Eo, opposite_ne.
Qed.

(** Cancelling a resting order: [remove] on both sides. *)
Lemma cancel_queue b F L G Q id p :
  rep b F L G Q → hm_find (order_index b) id = Some p →
  ∃ b' F' L' G' Q' s A o B, cancel b id = (inr tt, b') ∧ rep b' F' L' G' Q' ∧
    symbol b' = symbol b ∧ base_price b' = base_price b ∧ S (length L') = length L ∧
    hm_find (order_index b') id = None ∧ F' ≠ [] ∧
    ord_id o = id ∧ ord_side o = s ∧ node_order (deref (heap_of b) p) = o ∧
    queue b s = A ++ o :: B ∧ queue b' s = A ++ B ∧
    queue b' s = remove id (queue b s) ∧
    queue b' (opposite s) = queue b (opposite s).
Proof.
  intros Hr Hf.
  destruct (cancel_success _ _ _ _ _ _ _ _ _ Hr Hf) as
    (s&i&o1&o&o2&b'&L'&G'&Hc&Hi&HQ&Hid&Hok&Hn&HL&Es&Eb&Hnone&Hr').
  destruct (queue_at _ _ _ _ _ _ _ _ _ _ Hr Hi HQ) as (A&B&Eq&HA&HB&Eu&Eo).
  assert (queue b' s = A ++ B) as Eq'.
  { rewrite (queue_rep _ _ _ _ _ s Hr'). apply (Eu []). }
  exists b', (p :: F), L', G'. eexists. exists s, A, o, B.
  split_and!; [exact Hc|exact Hr'|done|done| |done|done|done|apply Hok|done|done|done| |].
  - by rewrite HL.
  - rewrite Eq', Eq, remove_split; [done|done|by rewrite <- Hid..].
  - rewrite (queue_rep _ _ _ _ _ _ Hr'). apply Eo, opposite_ne.
Qed.

(** A fill of a resting order. *)
Lemma reduce_queue b F L G Q id p amt :
  rep b F L G Q → hm_find (order_index b) id = Some p →
  (0 < amt ≤ ord_remaining (node_order (deref (heap_of b) p)))%Z →
  ∃ b' F' L' G' Q' s A o B, reduce_quantity b id amt = (inr tt, b') ∧ rep b' F' L' G' Q' ∧
    symbol b' = symbol b ∧ base_price b' = base_price b ∧
    length L' + (if (amt =? ord_remaining o)%Z then 1 else 0) = length L ∧
    ord_id o = id ∧ ord_side o = s ∧ node_order (deref (heap_of b) p) = o ∧
    Forall (λ o', ord_id o' ≠ id) A ∧
    queue b s = A ++ o :: B ∧ queue b' s = A ++ reduced o amt ++ B ∧
    queue b' (opposite s) = queue b (opposite s).
Proof.
  intros Hr Hf Hamt.
  destruct (reduce_success _ _ _ _ _ _ _ _ _ _ Hr Hf Hamt) as
    (s&i&o1&o&o2&b'&F'&L'&G'&Hc&Hi&HQ&Hid&Hok&Hn&Es&Eb&HL&Hr').
  destruct (queue_at _ _ _ _ _ _ _ _ _ _ Hr Hi HQ) as (A&B&Eq&HA&HB&Eu&Eo).
  exists b', F', L', G'. eexists. exists s, A, o, B.
  split_and!; [exact Hc|exact Hr'|done|done|done|done|apply Hok|done|by rewrite <- Hid|done| |].
  - rewrite (queue_rep _ _ _ _ _ s Hr'). apply Eu.
  - rewrite (queue_rep _ _ _ _ _ _ Hr'). apply Eo, opposite_ne.
Qed.

End refine.

End BookSpec.
