(* ===== verification/Matching.v ===== *)
(** * The matching engine (src/include/jane/matching/matching_engine.hpp)

    [submit], [cancel] and [replace] with the fill-or-kill pre-check and
    the match loop, as written.  MatchSpec.v, Liquidity.v and Exchange.v say
    what they compute. *)

From S2P Require Import Prelude Types Bitmap SlabPool Level HashMap Ladder OrderBook.
From S2P Require Import BookSpec.
From Stdlib Require Import Sorted.
From stdpp Require Import base tactics numbers list sets.

Set Default Goal Selector "!".

Module Matching.
Import Level OrderBook.

Record Fill := mkFill {
  match_id : Z;
  resting_order_id : Z;
  resting_client_id : Z;
  aggressor_order_id : Z;
  aggressor_client_id : Z;
  fill_symbol : Z;
  fill_price : Z;
  fill_quantity : Z;
  aggressor_side_byte : Z;
  resting_fully_filled : bool;
}.

Definition aggressor_side (f : Fill) : Side := read_side (aggressor_side_byte f).

Record NewOrderResult := mkNewOrderResult {
  reject_reason : RejectReason;
  fill_count : nat;
  rested : bool;
  remaining_after : Z;
}.

Record CancelResult := mkCancelResult { cancel_accepted : bool }.

Record ReplaceResult := mkReplaceResult {
  rep_accepted : bool;
  rep_reject_reason : RejectReason;
  rep_fill_count : nat;
  rep_rested : bool;
  rep_remaining_after : Z;
}.

(** The crossing condition of a limit price against a resting price. *)
Definition crosses (aggressor : Side) (limit level_price : Z) : bool :=
  if decide (aggressor = Buy) then (level_price <=? limit)%Z else (limit <=? level_price)%Z.

Section engine.
Context (NumLevels MaxOrders : nat).
Context {M : Type} `{!HashMap Z nat M}.

Record t := mk { book : OrderBook.t M; next_match_id : Z }.

Definition create (sym base : Z) : t := mk (OrderBook.create NumLevels MaxOrders sym base) 1.

(** The visitor of the fill-or-kill pre-check: add up the levels that
    cross until [cap] is reached. *)
Definition liquidity_visitor (aggr : Side) (is_market : bool) (limit_price cap : Z)
    (total : Z) (level_price : Z) (lvl : PriceLevel) : Z * bool :=
  if negb is_market && negb (crosses aggr limit_price level_price) then (total, false)
  else
    let total := StrongAmount.add total (total_quantity lvl) in
    (total, (total <? cap)%Z).

Definition available_liquidity (e : t) (aggr : Side) (is_market : bool)
    (limit_price cap : Z) : Z :=
  for_each_level NumLevels (book e) (opposite aggr)
    (liquidity_visitor aggr is_market limit_price cap) 0%Z.

(** The loop of [match_against_book].  An iteration either removes a
    resting order or fills the aggressor, so one more iteration than there
    are resting orders is enough. *)
Fixpoint match_loop (fuel : nat) (e : t) (aggressor : Order) (out_fills : list Fill)
    : t * Order * list Fill :=
  match fuel with
  | O => (e, aggressor, out_fills)
  | S fuel =>
      let opposite_side := opposite (ord_side aggressor) in
      if (0 <? ord_remaining aggressor)%Z then
        match (if decide (opposite_side = Buy) then best_bid (book e) else best_ask (book e)) with
        | None => (e, aggressor, out_fills)
        | Some best =>
            if bool_decide (ord_type aggressor = Limit) &&
               negb (crosses (ord_side aggressor) (ord_price aggressor) best)
            then (e, aggressor, out_fills)
            else
              match front_at NumLevels (book e) opposite_side best with
              | None => (e, aggressor, out_fills)
              | Some node =>
                  let resting := node_order (deref (heap_of (book e)) node) in
                  let fill_qty := Z.min (ord_remaining aggressor) (ord_remaining resting) in
                  let fill := mkFill (next_match_id e) (ord_id resting) (ord_client resting)
                    (ord_id aggressor) (ord_client aggressor) (ord_symbol aggressor)
                    best fill_qty (ord_side_byte aggressor)
                    (fill_qty =? ord_remaining resting)%Z in
                  let book' := (reduce_quantity (book e) (ord_id resting) fill_qty).2 in
                  match_loop fuel (mk book' (u64 (next_match_id e + 1)))
                    (set_remaining (StrongAmount.sub (ord_remaining aggressor) fill_qty) aggressor)
                    (out_fills ++ [fill])
              end
        end
      else (e, aggressor, out_fills)
  end.

Definition match_against_book (e : t) (aggressor : Order) (out_fills : list Fill)
    : t * Order * list Fill :=
  match_loop (S (Z.to_nat (order_count (book e)))) e aggressor out_fills.

Definition submit (e : t) (order : Order) (out_fills : list Fill)
    : NewOrderResult * t * list Fill :=
  if negb (ord_symbol order =? symbol (book e))%Z then
    (mkNewOrderResult UnknownSymbol 0 false (ord_quantity order), e, out_fills)
  else if (ord_quantity order <=? 0)%Z then
    (mkNewOrderResult InvalidQuantity 0 false (ord_quantity order), e, out_fills)
  else
    let order := set_remaining (ord_quantity order) order in
    if bool_decide (ord_tif order = FOK) &&
       (available_liquidity e (ord_side order) (bool_decide (ord_type order = Market))
          (ord_price order) (ord_quantity order) <? ord_quantity order)%Z
    then (mkNewOrderResult FokNotFillable 0 false (ord_quantity order), e, out_fills)
    else
      let before := length out_fills in
      let '(e, order, out_fills) := match_against_book e order out_fills in
      let count := length out_fills - before in
      if (0 <? ord_remaining order)%Z && bool_decide (ord_type order = Limit) &&
         bool_decide (ord_tif order = Day)
      then
        match add NumLevels (book e) order with
        | (inr _, b) =>
            (mkNewOrderResult RejNone count true (ord_remaining order),
             mk b (next_match_id e), out_fills)
        | (inl _, b) =>
            (mkNewOrderResult BookCapacityExceeded count false (ord_remaining order),
             mk b (next_match_id e), out_fills)
        end
      else (mkNewOrderResult RejNone count false (ord_remaining order), e, out_fills).

Definition cancel (e : t) (id : Z) : CancelResult * t :=
  match OrderBook.cancel (book e) id with
  | (inr _, b) => (mkCancelResult true, mk b (next_match_id e))
  | (inl _, b) => (mkCancelResult false, mk b (next_match_id e))
  end.

Definition replace (e : t) (id new_price new_quantity new_sequence new_timestamp : Z)
    (out_fills : list Fill) : ReplaceResult * t * list Fill :=
  match find (book e) id with
  | None => (mkReplaceResult false UnknownOrder 0 false 0, e, out_fills)
  | Some existing =>
      if (new_quantity <=? 0)%Z then
        (mkReplaceResult false InvalidQuantity 0 false 0, e, out_fills)
      else
        match index_of NumLevels (book e) new_price with
        | None => (mkReplaceResult false InvalidPrice 0 false 0, e, out_fills)
        | Some _ =>
            let updated := retermed (node_order (deref (heap_of (book e)) existing))
                             new_price new_quantity new_sequence new_timestamp in
            let e := mk (OrderBook.cancel (book e) id).2 (next_match_id e) in
            let '(submitted, e, out_fills) := submit e updated out_fills in
            (mkReplaceResult (bool_decide (reject_reason submitted = RejNone))
               (reject_reason submitted) (fill_count submitted) (rested submitted)
               (remaining_after submitted), e, out_fills)
        end
  end.

End engine.

Arguments t : clear implicits.

End Matching.
