(* ===== verification/MatchSpec.v ===== *)
(** * Price-time priority matching: specification and refinement

    [spec_match] consumes the opposite side's queue from the front.  The
    lemmas of this file show what it computes, and that the match loop of
    the engine computes it on [OrderBook.queue]. *)

From S2P Require Import Prelude Types Bitmap SlabPool Level HashMap Ladder OrderBook.
From S2P Require Import BookSpec Matching.
From Stdlib Require Import Sorted.
From stdpp Require Import base tactics numbers list sets.

Set Default Goal Selector "!".

Module MatchSpec.
Import Level OrderBook Matching.

(** A resting price the incoming order may trade at. *)
Definition acceptable (a : Order) (price : Z) : bool :=
  negb (bool_decide (ord_type a = Limit)) || crosses (ord_side a) (ord_price a) price.

(** The fill of [a] against the resting order [o] for [amt]. *)
Definition fill_of (a o : Order) (id amt : Z) : Fill :=
  mkFill id (ord_id o) (ord_client o) (ord_id a) (ord_client a) (ord_symbol a)
    (ord_price o) amt (ord_side_byte a) (amt =? ord_remaining o)%Z.

(** [spec_match a rem id q]: match the open quantity [rem] of [a] against
    the queue [q]; the fills, the quantity left and the queue left. *)
Fixpoint spec_match (a : Order) (rem id : Z) (q : list Order) : list Fill * Z * list Order :=
  match q with
  | [] => ([], rem, [])
  | o :: q' =>
      if (0 <? rem)%Z && acceptable a (ord_price o) then
        let amt := Z.min rem (ord_remaining o) in
        let '(fs, rem', rest) := spec_match a (rem - amt) (u64 (id + 1)) q' in
        (fill_of a o id amt :: fs, rem', reduced o amt ++ rest)
      else ([], rem, q)
  end.

Definition filled (fs : list Fill) : Z := zsum (fill_quantity <$> fs).

(** Open quantity of a queue, and the part of it [a] may trade with. *)
Definition volume (q : list Order) : Z := zsum (ord_remaining <$> q).

Definition open_ok (q : list Order) : Prop :=
  Forall (λ o, (0 < ord_remaining o)%Z ∧ is_i64 (ord_remaining o)) q.

(** ** What the specification computes *)

Lemma spec_match_conserves a rem id q fs rem' rest :
  spec_match a rem id q = (fs, rem', rest) →
  (rem = filled fs + rem')%Z ∧ (volume q = filled fs + volume rest)%Z.
Proof.
  unfold filled, volume. revert rem id fs rem' rest.
  induction q as [|o q IH]; intros rem id fs rem' rest; cbn [spec_match].
  { intros [= <- <- <-]. simpl. lia. }
  destruct ((0 <? rem)%Z && acceptable a (ord_price o)).
  2: { intros [= <- <- <-]. simpl. lia. }
  destruct (spec_match a _ _ q) as [[fs1 r1] rest1] eqn:E. intros [= <- <- <-].
  destruct (IH _ _ _ _ _ E) as [H1 H2].
  rewrite !fmap_cons, fmap_app, !zsum_cons, zsum_app. unfold reduced.
  cbn [fill_quantity fill_of].
  destruct (Z.eqb_spec (Z.min rem (ord_remaining o)) (ord_remaining o)).
  - simpl (zsum (_ <$> [])). lia.
  - rewrite fmap_cons, zsum_cons. cbn [ord_remaining set_remaining].
    simpl (zsum (_ <$> [])). lia.
Qed.

Lemma spec_match_range a rem id q fs rem' rest :
  open_ok q → (0 ≤ rem)%Z → spec_match a rem id q = (fs, rem', rest) →
  (0 ≤ rem' ≤ rem)%Z ∧ Forall (λ f, 0 < fill_quantity f)%Z fs.
Proof.
  intros Hq. revert rem id fs rem' rest.
  induction Hq as [|o q [Ho Hi] Hq IH]; intros rem id fs rem' rest Hrem; simpl.
  { intros [= <- <- <-]. split; [lia|constructor]. }
  destruct (Z.ltb_spec 0 rem); simpl.
  2: { intros [= <- <- <-]. split; [lia|constructor]. }
  destruct (acceptable a (ord_price o)).
  2: { intros [= <- <- <-]. split; [lia|constructor]. }
  destruct (spec_match a _ _ q) as [[fs1 r1] rest1] eqn:E. intros [= <- <- <-].
  apply IH in E as [? ?]; [|lia].
  split; [lia|]. constructor; [|done]. simpl. lia.
Qed.

(** The loop stops only when the order is filled, the queue is empty, or
    the best remaining price is not acceptable. *)
Lemma spec_match_exit a rem id q fs rem' rest :
  open_ok q → (0 ≤ rem)%Z → spec_match a rem id q = (fs, rem', rest) →
  (rem' = 0)%Z ∨ match rest with [] => True | o :: _ => acceptable a (ord_price o) = false end.
Proof.
  intros Hq. revert rem id fs rem' rest.
  induction Hq as [|o q [Ho Hi] Hq IH]; intros rem id fs rem' rest Hrem; simpl.
  { intros [= <- <- <-]. by right. }
  destruct (Z.ltb_spec 0 rem); simpl.
  2: { intros [= <- <- <-]. left. lia. }
  destruct (acceptable a (ord_price o)) eqn:Ha.
  2: { intros [= <- <- <-]. by right. }
  destruct (spec_match a _ _ q) as [[fs1 r1] rest1] eqn:E. intros [= <- <- <-].
  destruct (Z.eqb_spec (Z.min rem (ord_remaining o)) (ord_remaining o)) as [Hm|Hm].
  - unfold reduced. rewrite (proj2 (Z.eqb_eq _ _)) by done. simpl.
    eapply IH; [|done]. lia.
  - left. apply spec_match_range in E as [? _]; [lia|done|lia].
Qed.

(** Match ids are consecutive. *)
Lemma spec_match_ids a rem id q fs rem' rest k f :
  is_u64 id → spec_match a rem id q = (fs, rem', rest) → fs !! k = Some f →
  match_id f = u64 (id + Z.of_nat k).
Proof.
  intros Hid. revert rem id fs rem' rest k Hid.
  induction q as [|o q IH]; intros rem id fs rem' rest k Hid; simpl.
  { by intros [= <- <- <-]. }
  destruct ((0 <? rem)%Z && acceptable a (ord_price o)); [|by intros [= <- <- <-]].
  destruct (spec_match a _ _ q) as [[fs1 r1] rest1] eqn:E. intros [= <- <- <-] Hk.
  destruct k as [|k]; simpl in Hk.
  - injection Hk as <-. simpl. by rewrite Z.add_0_r, u64_id.
  - rewrite (IH _ _ _ _ _ k (u64_range _) E Hk), u64_add_l. f_equal. lia.
Qed.

(** The fills consume the queue from the front: the k-th fill is against
    the k-th order, at that order's price, and every fill but the last
    takes the whole order. *)
Lemma spec_match_prefix a rem id q fs rem' rest k f :
  open_ok q → is_u64 id → spec_match a rem id q = (fs, rem', rest) → fs !! k = Some f →
  ∃ o, q !! k = Some o ∧ acceptable a (ord_price o) = true ∧
    f = fill_of a o (u64 (id + Z.of_nat k)) (fill_quantity f) ∧
    (0 < fill_quantity f ≤ ord_remaining o)%Z ∧
    (S k < length fs → fill_quantity f = ord_remaining o).
Proof.
  intros Hq. revert rem id fs rem' rest k.
  induction Hq as [|o q [Ho Hi] Hq IH]; intros rem id fs rem' rest k Hid; cbn [spec_match].
  { by intros [= <- <- <-]. }
  destruct (Z.ltb_spec 0 rem); cbn [andb]; [|by intros [= <- <- <-]].
  destruct (acceptable a (ord_price o)) eqn:Ha; [|by intros [= <- <- <-]].
  destruct (spec_match a _ _ q) as [[fs1 r1] rest1] eqn:E. intros [= <- <- <-] Hk.
  destruct k as [|k]; simpl in Hk.
  - injection Hk as <-. exists o. cbn [fill_quantity fill_of length].
    rewrite Z.add_0_r, u64_id by done. split_and!; [done|done|done|lia|lia|].
    intros Hlen. destruct (decide (rem < ord_remaining o)%Z); [|lia]. exfalso.
    rewrite Z.min_l in E by lia. rewrite Z.sub_diag in E.
    destruct q; simpl in E; injection E as <- <- <-; simpl in Hlen; lia.
  - destruct (IH _ _ _ _ _ k (u64_range _) E Hk) as (o'&Hk'&Ha'&Hf&?&Hl).
    exists o'. rewrite u64_add_l in Hf. split_and!; [done|done| |lia|lia|].
    + etrans; [exact Hf|]. f_equal. f_equal. lia.
    + intros. apply Hl. simpl in *. lia.
Qed.

(** What is left of the queue are orders of the queue, some shortened. *)
Lemma spec_match_rest a rem id q fs rem' rest o :
  spec_match a rem id q = (fs, rem', rest) → o ∈ rest →
  ∃ o0 r, o0 ∈ q ∧ o = set_remaining r o0.
Proof.
  revert rem id fs rem' rest. induction q as [|x q IH]; intros rem id fs rem' rest; simpl.
  { intros [= <- <- <-]. set_solver. }
  destruct (_ && _).
  2: { intros [= <- <- <-] Ho. exists o, (ord_remaining o). split; [done|]. by destruct o. }
  destruct (spec_match a _ _ q) as [[fs1 r1] rest1] eqn:E. intros [= <- <- <-].
  intros [Ho|Ho]%elem_of_app.
  - unfold reduced in Ho. destruct (_ =? _)%Z; [set_solver|].
    apply list_elem_of_singleton in Ho as ->. exists x. eexists. split; [set_solver|done].
  - destruct (IH _ _ _ _ _ E Ho) as (o0&r&?&?). exists o0, r. split; [set_solver|done].
Qed.

Lemma acceptable_match (a : Order) price :
  bool_decide (ord_type a = Limit) && negb (crosses (ord_side a) (ord_price a) price) =
  negb (acceptable a price).
Proof.
  unfold acceptable. by destruct (bool_decide _), (crosses _ _ _).
Qed.

Lemma set_remaining_id o : set_remaining (ord_remaining o) o = o.
Proof. by destruct o. Qed.

Lemma set_remaining_twice r r' o : set_remaining r (set_remaining r' o) = set_remaining r o.
Proof. done. Qed.

Lemma spec_match_agg a r rem id q :
  spec_match (set_remaining r a) rem id q = spec_match a rem id q.
Proof.
  revert rem id. induction q as [|o q IH]; intros rem id; cbn [spec_match]; [done|].
  rewrite IH. done.
Qed.

Section refine.
Context (NumLevels MaxOrders : nat).
Context {M : Type} `{!HashMap Z nat M, !HashMapLaws Z nat M}.
Implicit Types (b : OrderBook.t M) (e : Matching.t M).

Abbreviation rep := (OrderBook.rep NumLevels MaxOrders).
Abbreviation queue := (OrderBook.queue NumLevels MaxOrders).

Lemma queue_open b F L G Q s : rep b F L G Q → open_ok (queue b s).
Proof.
  intros Hr. apply Forall_forall. intros o Ho.
  apply (BookSpec.queue_elem _ _ _ _ _ _ _ _ _ Hr) in Ho as (i&Hi&Ho).
  apply (r_order _ _ _ _ _ _ _ Hr) in Ho as [_ _ ? ? _]. done.
Qed.

(** One iteration: the head of the queue is filled. *)
Lemma match_step b F L G Q s o q amt :
  rep b F L G Q → queue b s = o :: q → (0 < amt ≤ ord_remaining o)%Z →
  best_price b s = Some (ord_price o) ∧
  ∃ p b' F' L' G' Q', front_at NumLevels b s (ord_price o) = Some p ∧
    node_order (deref (heap_of b) p) = o ∧
    reduce_quantity b (ord_id o) amt = (inr tt, b') ∧ rep b' F' L' G' Q' ∧
    symbol b' = symbol b ∧ base_price b' = base_price b ∧
    length L' + (if (amt =? ord_remaining o)%Z then 1 else 0) = length L ∧
    queue b' s = reduced o amt ++ q ∧ queue b' (opposite s) = queue b (opposite s).
Proof.
  intros Hr Hq Hamt. pose proof (BookSpec.best_front _ _ _ _ _ _ _ s Hr) as Hbest.
  rewrite Hq in Hbest. destruct Hbest as (Hb&p&Hfront&Hn&Hfind).
  split; [done|].
  destruct (BookSpec.reduce_queue _ _ _ _ _ _ _ _ p amt Hr Hfind) as
    (b'&F'&L'&G'&Q'&s'&A&o'&B&Hred&Hr'&Es&Eb&HL&Hid&Hs&Hn'&HA&Eq&Eq'&Eo).
  { by rewrite Hn. }
  rewrite Hn in Hn'. subst o'.
  assert (o ∈ queue b s) as Ho by (rewrite Hq; set_solver).
  apply (BookSpec.queue_elem _ _ _ _ _ _ _ _ _ Hr) in Ho as (i&Hi&Ho).
  apply (r_order _ _ _ _ _ _ _ Hr) in Ho as [Hside _ _ _ _].
  rewrite Hside in Hs. subst s'.
  exists p, b', F', L', G', Q'. split_and!; try done.
  rewrite Hq in Eq. destruct A as [|o' A]; simpl in Eq.
  - by injection Eq as ->.
  - injection Eq as <- _. by apply Forall_cons in HA as [? _].
Qed.

Lemma match_loop_done fuel e a out :
  ord_remaining a = 0%Z → match_loop NumLevels fuel e a out = (e, a, out).
Proof. intros H. destruct fuel; cbn [match_loop]; [done|]. by rewrite H. Qed.

Lemma spec_match_done a id q : spec_match a 0 id q = ([], 0%Z, q).
Proof. by destruct q. Qed.

(** [res] is what the loop returns when it turned the engine [e] into one
    with [fs] more fills, [rem'] left of [a], and [rest] of the queue. *)
Definition matched e a out fs rem' rest (res : Matching.t M * Order * list Fill) : Prop :=
  ∃ b' F' L' G' Q',
    res = (Matching.mk b' (u64 (next_match_id e + Z.of_nat (length fs))),
           set_remaining rem' a, out ++ fs) ∧
    rep b' F' L' G' Q' ∧
    symbol b' = symbol (book e) ∧ base_price b' = base_price (book e) ∧
    queue b' (opposite (ord_side a)) = rest ∧
    queue b' (ord_side a) = queue (book e) (ord_side a).

Lemma matched_nil e F L G Q a out :
  rep (book e) F L G Q → is_u64 (next_match_id e) →
  matched e a out [] (ord_remaining a) (queue (book e) (opposite (ord_side a))) (e, a, out).
Proof.
  intros Hr Hid. exists (book e), F, L, G, Q. split_and!; try done.
  rewrite set_remaining_id, Z.add_0_r, u64_id, app_nil_r by done. by destruct e.
Qed.

(** One fill, then what the loop does from there. *)
Lemma matched_cons e b r a out f fs rem' rest res :
  symbol b = symbol (book e) → base_price b = base_price (book e) →
  queue b (ord_side a) = queue (book e) (ord_side a) →
  matched (Matching.mk b (u64 (next_match_id e + 1))) (set_remaining r a) (out ++ [f])
    fs rem' rest res →
  matched e a out (f :: fs) rem' rest res.
Proof.
  intros Es Eb Eo (b'&F'&L'&G'&Q'&->&Hr'&Es'&Eb'&Eq'&Eo'). cbn [book next_match_id] in *.
  exists b', F', L', G', Q'. rewrite u64_add_l, set_remaining_twice, <- app_assoc.
  split_and!; [|done|congruence|congruence|done|by rewrite <- Eo].
  do 3 f_equal. cbn [length]. f_equal. lia.
Qed.

(** The loop computes the specification, and stops for the reasons the
    specification stops. *)
Lemma match_loop_spec fuel e F L G Q a out fs rem' rest :
  rep (book e) F L G Q → length L < fuel → is_u64 (next_match_id e) →
  is_i64 (ord_remaining a) → (0 ≤ ord_remaining a)%Z →
  spec_match a (ord_remaining a) (next_match_id e)
    (queue (book e) (opposite (ord_side a))) = (fs, rem', rest) →
  matched e a out fs rem' rest (match_loop NumLevels fuel e a out).
Proof.
  revert e F L G Q a out fs rem' rest.
  induction fuel as [|fuel IH]; intros e F L G Q a out fs rem' rest Hr Hf Hid Hai Ha0 Hspec;
    [lia|].
  pose proof (matched_nil e F L G Q a out Hr Hid) as Hstop.
  cbn [match_loop]. set (s := opposite (ord_side a)) in *.
  assert ((if decide (s = Buy) then best_bid (book e) else best_ask (book e)) =
    best_price (book e) s) as -> by by destruct s.
  pose proof (queue_open _ _ _ _ _ s Hr) as Hopen.
  pose proof (BookSpec.best_front _ _ _ _ _ _ _ s Hr) as Hbest.
  destruct (queue (book e) s) as [|o q] eqn:Eq; cbn [spec_match] in Hspec.
  { rewrite Hbest. injection Hspec as <- <- <-. by destruct (0 <? _)%Z. }
  apply Forall_cons in Hopen as [[Ho Hoi] Hopen].
  destruct (Z.ltb_spec 0 (ord_remaining a)) as [Hpos|]; cbn [andb] in Hspec;
    [|by injection Hspec as <- <- <-].
  destruct Hbest as [Hbest _]. rewrite Hbest, acceptable_match.
  destruct (acceptable a (ord_price o)) eqn:Hacc; cbn [negb];
    [|by injection Hspec as <- <- <-].
  set (amt := Z.min (ord_remaining a) (ord_remaining o)) in *.
  destruct (match_step _ _ _ _ _ s o q amt Hr Eq ltac:(unfold amt; lia)) as
    (_&p&b'&F'&L'&G'&Q'&->&Hn&Hred&Hr'&Es&Eb&HL&Eq'&Eo).
  unfold s in Eo. rewrite opposite_involutive in Eo.
  rewrite Hn. fold amt. rewrite Hred. cbn [snd].
  destruct (spec_match a (ord_remaining a - amt) _ q) as [[fs1 r1] rest1] eqn:E1.
  injection Hspec as <- <- <-. rewrite amount_sub_small by (done || lia).
  change (mkFill _ _ _ _ _ _ _ _ _ _) with (fill_of a o (next_match_id e) amt).
  apply (matched_cons e b' (ord_remaining a - amt)%Z); [done|done|done|].
  unfold reduced in *. destruct (Z.eqb_spec amt (ord_remaining o)) as [Hfull|Hpart].
  - apply (IH _ F' L' G' Q'); cbn [book next_match_id]; [done|lia|apply u64_range| | |].
    + cbn. unfold is_i64 in *. lia.
    + cbn. lia.
    + cbn [set_remaining ord_remaining]. change (ord_side (set_remaining _ a)) with (ord_side a).
      fold s. rewrite spec_match_agg, Eq'. done.
  - assert (ord_remaining a - amt = 0)%Z as H0 by lia. rewrite H0 in *.
    rewrite spec_match_done in E1. injection E1 as <- <- <-.
    rewrite match_loop_done by done. fold s in Eq'. rewrite <- Eq'.
    apply (matched_nil (Matching.mk b' _) F' L' G' Q'); [done|apply u64_range].
Qed.

Lemma match_against_book_spec e F L G Q a out fs rem' rest :
  rep (book e) F L G Q → is_u64 (next_match_id e) →
  is_i64 (ord_remaining a) → (0 ≤ ord_remaining a)%Z →
  spec_match a (ord_remaining a) (next_match_id e)
    (queue (book e) (opposite (ord_side a))) = (fs, rem', rest) →
  matched e a out fs rem' rest (match_against_book NumLevels e a out).
Proof.
  intros Hr. unfold match_against_book. apply (match_loop_spec _ _ F L G Q); [done|].
  rewrite (r_count _ _ _ _ _ _ _ Hr). lia.
Qed.

End refine.

End MatchSpec.
