(* ===== verification/Liquidity.v ===== *)
(** * The fill-or-kill pre-check

    [available_liquidity] adds up level aggregates until the cap is
    reached.  Compared with the open quantity at the prices its test accepts
    it decides fill-or-kill exactly, as long as that quantity is an [int64_t];
    without this bound it may only err towards rejecting. *)

From S2P Require Import Prelude Types Bitmap SlabPool Level HashMap Ladder OrderBook.
From S2P Require Import BookSpec Matching MatchSpec.
From Stdlib Require Import Sorted.
From stdpp Require Import base tactics numbers list sets.

Set Default Goal Selector "!".

Module Liquidity.
Import Level OrderBook Matching MatchSpec.

(** Open quantity at the prices a test accepts. *)
Definition volume_at (f : Z → bool) (q : list Order) : Z :=
  volume (List.filter (λ o, f (ord_price o)) q).

(** Open quantity the order [a] may trade with. *)
Definition acc_volume (a : Order) : list Order → Z := volume_at (acceptable a).

(** The test of the pre-check.  It asks whether the order is a market order,
    the match loop whether it is a limit order: the two differ on a type
    that is neither. *)
Definition fok_acceptable (a : Order) (price : Z) : bool :=
  bool_decide (ord_type a = Market) || crosses (ord_side a) (ord_price a) price.

Definition fok_volume (a : Order) : list Order → Z := volume_at (fok_acceptable a).

Lemma fok_acceptable_le a p : fok_acceptable a p = true → acceptable a p = true.
Proof.
  unfold fok_acceptable, acceptable. intros [H|H]%orb_true_iff; [|by rewrite H, orb_true_r].
  apply bool_decide_eq_true in H. by rewrite H.
Qed.

Lemma fok_acceptable_enum a p :
  ord_type a = Limit ∨ ord_type a = Market → fok_acceptable a p = acceptable a p.
Proof. unfold fok_acceptable, acceptable. by intros [-> | ->]. Qed.

(** Worse prices stay unacceptable. *)
Lemma crosses_mono a p p' :
  BookSpec.better (opposite (ord_side a)) p' p = false →
  crosses (ord_side a) (ord_price a) p = false → crosses (ord_side a) (ord_price a) p' = false.
Proof.
  unfold crosses. destruct (ord_side a); simpl; rewrite ?Z.ltb_ge, ?Z.leb_gt; lia.
Qed.

Lemma acceptable_mono a p p' :
  BookSpec.better (opposite (ord_side a)) p' p = false →
  acceptable a p = false → acceptable a p' = false.
Proof.
  unfold acceptable. destruct (bool_decide _); simpl; [|done]. apply crosses_mono.
Qed.

Lemma fok_acceptable_mono a p p' :
  BookSpec.better (opposite (ord_side a)) p' p = false →
  fok_acceptable a p = false → fok_acceptable a p' = false.
Proof.
  unfold fok_acceptable. destruct (bool_decide _); simpl; [done|]. apply crosses_mono.
Qed.

Lemma volume_cons o q : volume (o :: q) = (ord_remaining o + volume q)%Z.
Proof. done. Qed.

Lemma volume_app q q' : volume (q ++ q') = (volume q + volume q')%Z.
Proof. unfold volume. by rewrite fmap_app, zsum_app. Qed.

Lemma open_volume q : open_ok q → (0 ≤ volume q)%Z.
Proof.
  induction 1 as [|o q [? _] _ IH]; [done|]. rewrite volume_cons. lia.
Qed.

Lemma open_filter f q : open_ok q → open_ok (List.filter f q).
Proof.
  induction 1 as [|o q Ho Hq IH]; simpl; [constructor|].
  destruct (f o); [|done]. by constructor.
Qed.

Lemma volume_at_none f q :
  Forall (λ o, f (ord_price o) = false) q → volume_at f q = 0%Z.
Proof.
  unfold volume_at. induction 1 as [|o q Ho Hq IH]; simpl; [done|]. by rewrite Ho.
Qed.

Lemma volume_at_all f q :
  Forall (λ o, f (ord_price o) = true) q → volume_at f q = volume q.
Proof.
  unfold volume_at. induction 1 as [|o q Ho Hq IH]; simpl; [done|].
  by rewrite Ho, !volume_cons, IH.
Qed.

Lemma volume_at_app f q q' : volume_at f (q ++ q') = (volume_at f q + volume_at f q')%Z.
Proof. unfold volume_at. by rewrite List.filter_app, volume_app. Qed.

Lemma volume_at_le f q : open_ok q → (0 ≤ volume_at f q ≤ volume q)%Z.
Proof.
  unfold volume_at. induction 1 as [|o q [? _] Hq IH]; simpl; [done|].
  destruct (f (ord_price o)); rewrite ?volume_cons; lia.
Qed.

(** The pre-check never counts more than the match loop can take. *)
Lemma fok_volume_le a q : open_ok q → (fok_volume a q ≤ acc_volume a q)%Z.
Proof.
  unfold fok_volume, acc_volume, volume_at. induction 1 as [|o q [? _] Hq IH]; simpl; [done|].
  pose proof (volume_at_le (acceptable a) q Hq) as Hle. unfold volume_at in Hle.
  destruct (fok_acceptable a (ord_price o)) eqn:E.
  - rewrite (fok_acceptable_le _ _ E), !volume_cons. lia.
  - destruct (acceptable a (ord_price o)); rewrite ?volume_cons; lia.
Qed.

(** Matching fills as much as is acceptable, up to the open quantity. *)
Lemma spec_match_filled a rem id q fs rem' rest :
  open_ok q → BookSpec.price_sorted (opposite (ord_side a)) q → (0 ≤ rem)%Z →
  spec_match a rem id q = (fs, rem', rest) →
  filled fs = Z.min rem (acc_volume a q).
Proof.
  intros Hq Hs. revert rem id fs rem' rest.
  induction Hs as [|o q Hs IH Ho]; intros rem id fs rem' rest Hrem; cbn [spec_match].
  { intros [= <- <- <-]. unfold filled, acc_volume, volume_at, volume; simpl. lia. }
  apply Forall_cons in Hq as [[Hpos _] Hq].
  pose proof (volume_at_le (acceptable a) q Hq) as Hle. fold (acc_volume a q) in Hle.
  assert (acc_volume a (o :: q) = (if acceptable a (ord_price o) then ord_remaining o else 0)
    + acc_volume a q)%Z as ->.
  { unfold acc_volume, volume_at. simpl. destruct (acceptable a (ord_price o)); [|done].
    by rewrite volume_cons. }
  destruct (acceptable a (ord_price o)) eqn:Ha.
  - destruct (Z.ltb_spec 0 rem); cbn [andb].
    2: { intros [= <- <- <-]. unfold filled; simpl. lia. }
    destruct (spec_match a _ _ q) as [[fs1 r1] rest1] eqn:E. intros [= <- <- <-].
    apply IH in E; [|done|lia]. unfold filled in *. rewrite fmap_cons, zsum_cons.
    cbn [fill_quantity fill_of]. lia.
  - rewrite andb_false_r. intros [= <- <- <-].
    unfold acc_volume. rewrite volume_at_none; [unfold filled; simpl; lia|].
    eapply Forall_impl; [exact Ho|]. intros o' Hb.
    eapply acceptable_mono; [exact Hb|done].
Qed.

(** ** The visitor over a list of levels *)

(** [lvls] are levels holding [qs], each at one price. *)
Definition levels_of (lvls : list (Z * PriceLevel)) (qs : list (list Order)) : Prop :=
  Forall2 (λ '(p, l) q, total_quantity l = i64 (volume q) ∧ Forall (λ o, ord_price o = p) q)
    lvls qs.

Lemma level_volume_at f p q :
  Forall (λ o, ord_price o = p) q →
  volume_at f q = if f p then volume q else 0%Z.
Proof.
  intros Hp. destruct (f p) eqn:E.
  - apply volume_at_all. eapply Forall_impl; [exact Hp|]. by intros o ->.
  - apply volume_at_none. eapply Forall_impl; [exact Hp|]. by intros o ->.
Qed.

Lemma visitor_acceptable (a : Order) p :
  negb (bool_decide (ord_type a = Market)) && negb (crosses (ord_side a) (ord_price a) p) =
  negb (fok_acceptable a p).
Proof. unfold fok_acceptable. by rewrite negb_orb. Qed.

(** Exact comparison with the cap, if the total is an [int64_t]. *)
Lemma visit_liquidity a cap acc lvls qs :
  levels_of lvls qs → open_ok (concat qs) →
  StronglySorted (λ p p', BookSpec.better (opposite (ord_side a)) p' p = false) (lvls.*1) →
  (0 ≤ acc < cap)%Z → (acc + volume (concat qs) < 2 ^ 63)%Z →
  (BookSpec.visit_list (liquidity_visitor (ord_side a) (bool_decide (ord_type a = Market))
     (ord_price a) cap) acc lvls <? cap)%Z =
  (acc + fok_volume a (concat qs) <? cap)%Z.
Proof.
  intros Hl. revert acc.
  induction Hl as [|[p l] q lvls qs [Ht Hp] Hl IH]; intros acc Hopen Hs Hacc Hvol.
  { simpl. unfold fok_volume, volume_at, volume; simpl. f_equal. lia. }
  simpl in Hopen, Hvol, Hs |- *. apply Forall_app in Hopen as [Hq Hopen].
  apply StronglySorted_inv in Hs as [Hs Hps].
  rewrite volume_app in Hvol. unfold fok_volume in *. rewrite volume_at_app, (level_volume_at _ p q Hp).
  pose proof (open_volume _ Hq). pose proof (open_volume _ Hopen).
  pose proof (volume_at_le (fok_acceptable a) _ Hopen).
  unfold liquidity_visitor. rewrite visitor_acceptable.
  destruct (fok_acceptable a p) eqn:Ha; cbn [negb].
  - unfold StrongAmount.add. rewrite Ht, i64_add_r, i64_id by (unfold is_i64; lia).
    destruct (Z.ltb_spec (acc + volume q) cap) as [Hlt|Hge].
    + rewrite IH by (done || lia). f_equal. lia.
    + transitivity false; [|symmetry]; apply Z.ltb_ge; lia.
  - rewrite volume_at_none; [f_equal; lia|].
    assert (Forall (λ p', fok_acceptable a p' = false) (lvls.*1)) as Hall.
    { eapply Forall_impl; [exact Hps|]. intros p' Hb.
      eapply fok_acceptable_mono; [exact Hb|done]. }
    clear -Hl Hall. induction Hl as [|[p l] q lvls qs [_ Hp] Hl IH]; simpl; [constructor|].
    simpl in Hall. apply Forall_cons in Hall as [Hp0 Hall]. apply Forall_app. split; [|auto].
    eapply Forall_impl; [exact Hp|]. by intros o ->.
Qed.

(** Whatever the total, the result never exceeds what is there. *)
Lemma visit_liquidity_le a cap acc lvls qs :
  levels_of lvls qs → open_ok (concat qs) → (- 2 ^ 63 ≤ acc)%Z →
  (BookSpec.visit_list (liquidity_visitor (ord_side a) (bool_decide (ord_type a = Market))
     (ord_price a) cap) acc lvls ≤ acc + fok_volume a (concat qs))%Z.
Proof.
  intros Hl. revert acc.
  induction Hl as [|[p l] q lvls qs [Ht Hp] Hl IH]; intros acc Hopen Hacc.
  { simpl. unfold fok_volume, volume_at, volume; simpl. lia. }
  simpl in Hopen |- *. apply Forall_app in Hopen as [Hq Hopen].
  unfold fok_volume in *. rewrite volume_at_app, (level_volume_at _ p q Hp).
  pose proof (open_volume _ Hq). pose proof (volume_at_le (fok_acceptable a) _ Hopen).
  unfold liquidity_visitor. rewrite visitor_acceptable.
  destruct (fok_acceptable a p) eqn:Ha; cbn [negb]; [|lia].
  unfold StrongAmount.add. rewrite Ht, i64_add_r.
  pose proof (i64_le (acc + volume q) ltac:(lia)).
  pose proof (i64_range (acc + volume q)) as [? _].
  destruct (_ <? cap)%Z; [|lia]. etrans; [apply IH; [done|lia]|]. lia.
Qed.

Section engine.
Context (NumLevels MaxOrders : nat).
Context {M : Type} `{!HashMap Z nat M}.
Implicit Types (b : OrderBook.t M) (e : Matching.t M).

Abbreviation rep := (OrderBook.rep NumLevels MaxOrders).
Abbreviation queue := (OrderBook.queue NumLevels MaxOrders).

Lemma sorted_filter {A} (R : A → A → Prop) f (l : list A) :
  StronglySorted R l → StronglySorted R (List.filter f l).
Proof.
  induction 1 as [|x l Hl IH Hx]; simpl; [constructor|].
  destruct (f x); [|done]. constructor; [done|].
  apply Forall_forall. intros y Hy. eapply Forall_forall in Hx; [exact Hx|].
  apply list_elem_of_In, filter_In in Hy as [Hy _]. by apply list_elem_of_In.
Qed.

Lemma busy_elem Q s (l : list nat) i : i ∈ BookSpec.busy Q s l → i ∈ l.
Proof.
  intros Hi. apply list_elem_of_In, filter_In in Hi as [Hi _]. by apply list_elem_of_In.
Qed.

Lemma level_view_levels b F L G Q s :
  rep b F L G Q →
  levels_of (BookSpec.level_view NumLevels b Q s)
    (Q s <$> BookSpec.busy Q s (Ladder.prio (is_bid s) NumLevels)).
Proof.
  intros Hr. unfold levels_of, BookSpec.level_view. apply Forall2_fmap_l, Forall2_fmap_r.
  apply Forall_Forall2_diag, Forall_forall. intros i Hi.
  apply busy_elem, Ladder.elem_of_prio in Hi. split.
  - apply (lr_total _ _ _ _ (r_level _ _ _ _ _ _ _ Hr s i Hi)).
  - apply Forall_forall. intros o Ho. apply (r_order _ _ _ _ _ _ _ Hr) in Ho.
    rewrite (ro_price _ _ _ _ Ho), (price_at_exact NumLevels); [done|apply Hr|done].
Qed.

Lemma level_view_sorted b F L G Q s :
  rep b F L G Q →
  StronglySorted (λ p p', BookSpec.better s p' p = false)
    ((BookSpec.level_view NumLevels b Q s).*1).
Proof.
  intros Hr. unfold BookSpec.level_view. rewrite <- list_fmap_compose.
  assert (∀ i, i ∈ BookSpec.busy Q s (Ladder.prio (is_bid s) NumLevels) → i < NumLevels) as Hlt.
  { intros i Hi. by apply busy_elem, Ladder.elem_of_prio in Hi. }
  pose proof (sorted_filter _ (λ i, bool_decide (Q s i ≠ [])) _
    (Ladder.prio_sorted (is_bid s) NumLevels)) as Hs.
  fold (BookSpec.busy Q s (Ladder.prio (is_bid s) NumLevels)) in Hs.
  revert Hlt. induction Hs as [|i l Hl IH Hi]; intros Hlt; simpl; constructor.
  - apply IH. set_solver.
  - apply Forall_fmap. apply Forall_forall. intros j Hj. simpl.
    rewrite !(price_at_exact NumLevels); [|apply Hr|apply Hlt; set_solver|apply Hr|apply Hlt; set_solver].
    eapply Forall_forall in Hi; [|exact Hj].
    destruct s; simpl in *; rewrite Nat.ltb_lt in Hi; apply Z.ltb_ge; lia.
Qed.

Lemma queue_busy b F L G Q s :
  rep b F L G Q →
  queue b s = concat (Q s <$> BookSpec.busy Q s (Ladder.prio (is_bid s) NumLevels)).
Proof.
  intros Hr. rewrite (BookSpec.queue_rep _ _ _ _ _ _ _ s Hr). by rewrite BookSpec.busy_concat.
Qed.

(** The pre-check compared with the acceptable volume. *)
Lemma available_exact e F L G Q a :
  rep (book e) F L G Q → (0 < ord_quantity a)%Z →
  (volume (queue (book e) (opposite (ord_side a))) < 2 ^ 63)%Z →
  (available_liquidity NumLevels e (ord_side a) (bool_decide (ord_type a = Market))
     (ord_price a) (ord_quantity a) <? ord_quantity a)%Z =
  (fok_volume a (queue (book e) (opposite (ord_side a))) <? ord_quantity a)%Z.
Proof.
  intros Hr Hpos Hvol. unfold available_liquidity.
  rewrite (BookSpec.for_each_level_spec _ _ _ _ _ _ _ _ _ _ Hr).
  pose proof (queue_open _ _ _ _ _ _ _ (opposite (ord_side a)) Hr) as Hopen.
  rewrite (queue_busy _ _ _ _ _ _ Hr) in *.
  rewrite (visit_liquidity a (ord_quantity a) 0 _ _ (level_view_levels _ _ _ _ _ _ Hr));
    [by rewrite Z.add_0_l|done|by eapply level_view_sorted|lia|lia].
Qed.

Lemma available_le e F L G Q a :
  rep (book e) F L G Q →
  (available_liquidity NumLevels e (ord_side a) (bool_decide (ord_type a = Market))
     (ord_price a) (ord_quantity a) ≤
   fok_volume a (queue (book e) (opposite (ord_side a))))%Z.
Proof.
  intros Hr. unfold available_liquidity.
  rewrite (BookSpec.for_each_level_spec _ _ _ _ _ _ _ _ _ _ Hr).
  pose proof (queue_open _ _ _ _ _ _ _ (opposite (ord_side a)) Hr) as Hopen.
  rewrite (queue_busy _ _ _ _ _ _ Hr) in *.
  etrans; [by eapply visit_liquidity_le; [apply (level_view_levels _ _ _ _ _ _ Hr)| |]|]. lia.
Qed.

End engine.

End Liquidity.
