(* ===== verification/Exchange.v ===== *)
(** * The abstract exchange and the refinement of the engine

    The abstract state is the pair of priority queues and the next match
    id.  [spec_submit], [spec_cancel] and [spec_replace] are what the
    engine promises; the lemmas show that [Matching.submit], [cancel] and
    [replace] do exactly that to [abs_of], branch by branch. *)

From S2P Require Import Prelude Types Bitmap SlabPool Level HashMap Ladder OrderBook.
From S2P Require Import BookSpec Matching MatchSpec Liquidity.
From Stdlib Require Import Sorted.
From stdpp Require Import base tactics numbers list sets.

Set Default Goal Selector "!".

Module Exchange.
Import Level OrderBook Matching MatchSpec Liquidity.

Record Abs := mkAbs { a_bids : list Order; a_asks : list Order; a_next : Z }.

Definition a_side (A : Abs) (s : Side) : list Order :=
  match s with Buy => a_bids A | Sell => a_asks A end.

Definition a_with (A : Abs) (s : Side) (q : list Order) : Abs :=
  match s with
  | Buy => mkAbs q (a_asks A) (a_next A)
  | Sell => mkAbs (a_bids A) q (a_next A)
  end.

Definition a_step_id (A : Abs) (n : nat) : Abs :=
  mkAbs (a_bids A) (a_asks A) (u64 (a_next A + Z.of_nat n)).

Definition a_orders (A : Abs) : list Order := a_bids A ++ a_asks A.

(** No bid reaches an ask. *)
Definition uncrossed (A : Abs) : Prop :=
  ∀ o o', o ∈ a_bids A → o' ∈ a_asks A → (ord_price o < ord_price o')%Z.

Section spec.
(** The ladder geometry and the symbol of the book. *)
Context (NumLevels MaxOrders : nat) (sym base : Z).

(** A remainder can rest: price on the ladder, id not resting, a free slot. *)
Definition in_range (price : Z) : bool :=
  (base <=? price)%Z && (price <? base + Z.of_nat NumLevels)%Z.

Definition can_rest (A : Abs) (o : Order) : bool :=
  in_range (ord_price o) &&
  bool_decide (ord_id o ∉ ord_id <$> a_orders A) &&
  (length (a_orders A) <? MaxOrders).

(** Match what crosses, then rest, drop or refuse the remainder. *)
Definition spec_take (A : Abs) (order : Order) (out_fills : list Fill)
    : NewOrderResult * Abs * list Fill :=
  let s := ord_side order in
  let '(fs, rem, rest) :=
    spec_match order (ord_quantity order) (a_next A) (a_side A (opposite s)) in
  let A := a_step_id (a_with A (opposite s) rest) (length fs) in
  let order := set_remaining rem order in
  if (0 <? rem)%Z && bool_decide (ord_type order = Limit) && bool_decide (ord_tif order = Day)
  then
    if can_rest A order then
      (mkNewOrderResult RejNone (length fs) true rem,
       a_with A s (BookSpec.insert s order (a_side A s)), out_fills ++ fs)
    else
      (mkNewOrderResult BookCapacityExceeded (length fs) false rem, A, out_fills ++ fs)
  else (mkNewOrderResult RejNone (length fs) false rem, A, out_fills ++ fs).

Definition spec_submit (A : Abs) (order : Order) (out_fills : list Fill)
    : NewOrderResult * Abs * list Fill :=
  if negb (ord_symbol order =? sym)%Z then
    (mkNewOrderResult UnknownSymbol 0 false (ord_quantity order), A, out_fills)
  else if (ord_quantity order <=? 0)%Z then
    (mkNewOrderResult InvalidQuantity 0 false (ord_quantity order), A, out_fills)
  else if bool_decide (ord_tif order = FOK) &&
     (fok_volume order (a_side A (opposite (ord_side order))) <? ord_quantity order)%Z
  then (mkNewOrderResult FokNotFillable 0 false (ord_quantity order), A, out_fills)
  else spec_take A order out_fills.

Definition a_find (A : Abs) (id : Z) : option Order :=
  List.find (λ o, ord_id o =? id)%Z (a_orders A).

Definition a_remove (A : Abs) (id : Z) : Abs :=
  mkAbs (BookSpec.remove id (a_bids A)) (BookSpec.remove id (a_asks A)) (a_next A).

Definition spec_cancel (A : Abs) (id : Z) : CancelResult * Abs :=
  match a_find A id with
  | None => (mkCancelResult false, A)
  | Some _ => (mkCancelResult true, a_remove A id)
  end.

Definition spec_replace (A : Abs) (id price qty seq ts : Z) (out_fills : list Fill)
    : ReplaceResult * Abs * list Fill :=
  match a_find A id with
  | None => (mkReplaceResult false UnknownOrder 0 false 0, A, out_fills)
  | Some o =>
      if (qty <=? 0)%Z then (mkReplaceResult false InvalidQuantity 0 false 0, A, out_fills)
      else if negb (in_range price) then
        (mkReplaceResult false InvalidPrice 0 false 0, A, out_fills)
      else
        let '(r, A, out_fills) :=
          spec_submit (a_remove A id) (retermed o price qty seq ts) out_fills in
        (mkReplaceResult (bool_decide (reject_reason r = RejNone)) (reject_reason r)
           (fill_count r) (rested r) (remaining_after r), A, out_fills)
  end.

End spec.

Section refine.
Context (NumLevels MaxOrders : nat).
Context {M : Type} `{!HashMap Z nat M}.
Implicit Types (b : OrderBook.t M) (e : Matching.t M).

Abbreviation rep := (OrderBook.rep NumLevels MaxOrders).
Abbreviation queue := (OrderBook.queue NumLevels MaxOrders).

Definition abs_of e : Abs :=
  mkAbs (queue (book e) Buy) (queue (book e) Sell) (next_match_id e).

Lemma abs_side e s : a_side (abs_of e) s = queue (book e) s.
Proof. by destruct s. Qed.

(** ** Counting and finding through the queues *)

Definition ptrs (G : Side → nat → list nat) (s : Side) : list nat :=
  concat (G s <$> Ladder.prio (is_bid s) NumLevels).

Lemma elem_of_ptrs b F L G Q s p :
  rep b F L G Q → p ∈ ptrs G s ↔ ∃ i, p ∈ G s i.
Proof.
  intros Hr. unfold ptrs. rewrite elem_of_concat_fmap. split; [naive_solver|].
  intros [i Hp]. exists i. split; [|done]. apply Ladder.elem_of_prio.
  destruct (decide (i < NumLevels)); [done|].
  destruct (r_out _ _ _ _ _ _ _ Hr s i) as [E _]; [lia|]. rewrite E in Hp. set_solver.
Qed.

Lemma ptrs_NoDup b F L G Q s : rep b F L G Q → NoDup (ptrs G s).
Proof.
  intros Hr. apply NoDup_concat_fmap.
  - apply Ladder.prio_NoDup.
  - intros i Hi%Ladder.elem_of_prio. apply (lr_nodup _ _ _ _ (r_level _ _ _ _ _ _ _ Hr s i Hi)).
  - intros i j p Hi Hj. by destruct (r_disj _ _ _ _ _ _ _ Hr s i s j p Hi Hj).
Qed.

Lemma ptrs_live b F L G Q : rep b F L G Q → ptrs G Buy ++ ptrs G Sell ≡ₚ L.
Proof.
  intros Hr. apply NoDup_Permutation.
  - apply NoDup_app. split_and!; [by eapply ptrs_NoDup| |by eapply ptrs_NoDup].
    intros p Hp Hp'. rewrite elem_of_ptrs in Hp, Hp' by done.
    destruct Hp as [i Hi], Hp' as [j Hj].
    by destruct (r_disj _ _ _ _ _ _ _ Hr _ _ _ _ _ Hi Hj).
  - pose proof (SlabPool.rep_NoDup _ _ _ _ (r_pool _ _ _ _ _ _ _ Hr)) as Hn.
    by apply NoDup_app in Hn as (_&_&?).
  - intros p. rewrite elem_of_app, !(elem_of_ptrs _ _ _ _ _ _ _ Hr).
    rewrite (r_live _ _ _ _ _ _ _ Hr). split.
    + intros [[i Hi]|[i Hi]]; eauto.
    + intros ([|]&i&Hi); eauto.
Qed.

Lemma ptrs_length b F L G Q s : rep b F L G Q → length (ptrs G s) = length (queue b s).
Proof.
  intros Hr. rewrite (BookSpec.queue_rep _ _ _ _ _ _ _ s Hr). unfold ptrs, BookSpec.flat.
  apply length_concat_fmap. intros i Hi%Ladder.elem_of_prio.
  apply (level_rep_length _ _ _ _ (r_level _ _ _ _ _ _ _ Hr s i Hi)).
Qed.

Lemma live_orders e F L G Q :
  rep (book e) F L G Q → length L = length (a_orders (abs_of e)).
Proof.
  intros Hr. rewrite <- (ptrs_live _ _ _ _ _ Hr). unfold a_orders, abs_of.
  cbn [a_bids a_asks]. by rewrite !length_app, !(ptrs_length _ _ _ _ _ _ Hr).
Qed.

Lemma find_queue b F L G Q id p :
  rep b F L G Q → hm_find (order_index b) id = Some p →
  ∃ s o, o ∈ queue b s ∧ ord_id o = id ∧ node_order (deref (heap_of b) p) = o.
Proof.
  intros Hr (s&i&k&o&HG&HQ&Hi&Ho&Hid&_&_)%(rep_find _ _ _ _ _ _ _ _ _ Hr).
  exists s, o. split_and!; [|done|by apply deref_order].
  eapply BookSpec.queue_elem; [done|]. exists i. split; [done|].
  by eapply list_elem_of_lookup_2.
Qed.

Lemma queue_find b F L G Q s o :
  rep b F L G Q → o ∈ queue b s →
  ∃ p, hm_find (order_index b) (ord_id o) = Some p ∧ node_order (deref (heap_of b) p) = o.
Proof.
  intros Hr (i&Hi&[k Hk]%list_elem_of_lookup)%(BookSpec.queue_elem _ _ _ _ _ _ _ _ _ Hr).
  pose proof (level_rep_length _ _ _ _ (r_level _ _ _ _ _ _ _ Hr s i Hi)) as Hlen.
  apply lookup_lt_Some in Hk as Hlt. rewrite <- Hlen in Hlt.
  destruct (lookup_lt_is_Some_2 _ _ Hlt) as [p Hp]. exists p.
  destruct (rep_lookup _ _ _ _ _ _ _ _ _ _ _ Hr Hp) as (_&o'&Ho'&Hat&_).
  rewrite Hk in Ho'. injection Ho' as <-. split; [|by apply deref_order].
  apply (r_index _ _ _ _ _ _ _ Hr). rewrite Hat. split; [|done].
  apply (r_live _ _ _ _ _ _ _ Hr). exists s, i. by eapply list_elem_of_lookup_2.
Qed.

Lemma elem_of_a_orders e o :
  o ∈ a_orders (abs_of e) ↔ ∃ s, o ∈ queue (book e) s.
Proof.
  unfold a_orders. rewrite elem_of_app. cbn [a_bids a_asks abs_of]. split.
  - intros [H|H]; eauto.
  - intros [[|] H]; eauto.
Qed.

Lemma find_none e F L G Q id :
  rep (book e) F L G Q →
  hm_find (order_index (book e)) id = None ↔ id ∉ ord_id <$> a_orders (abs_of e).
Proof.
  intros Hr. split.
  - intros Hn (o&->&[s Ho]%elem_of_a_orders)%list_elem_of_fmap.
    destruct (queue_find _ _ _ _ _ _ _ Hr Ho) as (p&Hp&_). congruence.
  - intros Hn. destruct (hm_find _ id) as [p|] eqn:E; [|done]. exfalso. apply Hn.
    destruct (find_queue _ _ _ _ _ _ _ Hr E) as (s&o&Ho&<-&_).
    apply list_elem_of_fmap. exists o. split; [done|]. apply elem_of_a_orders. eauto.
Qed.

Lemma in_range_index b price :
  geometry NumLevels (base_price b) → is_i64 price →
  in_range NumLevels (base_price b) price =
  match index_of NumLevels b price with Some _ => true | None => false end.
Proof.
  intros Hg Hp. unfold in_range. destruct (index_of NumLevels b price) as [i|] eqn:E.
  - apply index_of_spec in E as [Hi ->]; [|done..].
    apply andb_true_iff. rewrite Z.leb_le, Z.ltb_lt. lia.
  - apply not_true_iff_false. intros [H1%Z.leb_le H2%Z.ltb_lt]%andb_true_iff.
    assert (index_of NumLevels b price = Some (Z.to_nat (price - base_price b))) as E'.
    { apply index_of_spec; [done..|]. lia. }
    congruence.
Qed.

Lemma verdict_can_rest e F L G Q o :
  rep (book e) F L G Q → is_i64 (ord_price o) → ord_type o = Limit → (0 < ord_remaining o)%Z →
  can_rest NumLevels MaxOrders (base_price (book e)) (abs_of e) o =
  bool_decide (add_verdict NumLevels (book e) o = None).
Proof.
  intros Hr Hp Ht Hrem. unfold can_rest, add_verdict.
  rewrite (in_range_index _ _ (r_base _ _ _ _ _ _ _ Hr) Hp).
  rewrite decide_True by done. rewrite (proj2 (Z.leb_gt _ _)) by done.
  destruct (index_of _ _ _); [|done]. unfold hm_contains. cbn [andb].
  destruct (hm_find _ (ord_id o)) as [p|] eqn:E.
  - rewrite bool_decide_eq_false_2; [done|]. intros Hn.
    apply (find_none _ _ _ _ _ _ Hr) in Hn. congruence.
  - apply (find_none _ _ _ _ _ _ Hr) in E. rewrite bool_decide_eq_true_2 by done.
    rewrite <- (live_orders _ _ _ _ _ Hr). cbn [andb].
    pose proof (SlabPool.rep_count _ _ _ _ (r_pool _ _ _ _ _ _ _ Hr)) as Hc.
    pose proof (SlabPool.rep_free_none _ _ _ _ (r_pool _ _ _ _ _ _ _ Hr)) as Hf.
    destruct (decide (SlabPool.free_head _ = _)) as [H|H].
    + apply Hf in H as ->. simpl in Hc. apply Nat.ltb_ge. lia.
    + apply Nat.ltb_lt. destruct F; [tauto|]. simpl in Hc. lia.
Qed.

(** ** The engine invariant *)

(** Every resting order is a day order of the engine's symbol. *)
Definition day_order (sym : Z) (o : Order) : Prop := ord_symbol o = sym ∧ ord_tif o = Day.

Record engine_ok (sym base : Z) e : Prop := {
  eo_book : OrderBook.ok NumLevels MaxOrders (book e);
  eo_symbol : symbol (book e) = sym;
  eo_base : base_price (book e) = base;
  eo_next : is_u64 (next_match_id e);
  eo_uncrossed : uncrossed (abs_of e);
  eo_day : Forall (day_order sym) (a_orders (abs_of e));
}.

Lemma create_queue sym base s : queue (OrderBook.create NumLevels MaxOrders sym base) s = [].
Proof.
  destruct (queue _ s) as [|o q] eqn:E; [done|]. exfalso.
  assert (o ∈ queue (OrderBook.create NumLevels MaxOrders sym base) s) as Ho
    by (rewrite E; set_solver).
  unfold OrderBook.queue in Ho. apply elem_of_concat_fmap in Ho as (i&Hi&Ho).
  unfold fifo in Ho. replace (head _) with (None : option nat) in Ho; [destruct MaxOrders; set_solver|].
  unfold level_for. replace (side_of _ s) with (Ladder.create NumLevels) by by destruct s.
  unfold Ladder.level, Ladder.create; simpl. destruct (replicate _ _ !! i) eqn:E'; [|done].
  by apply lookup_replicate in E' as [-> _].
Qed.

Lemma create_engine_ok `{!HashMapLaws Z nat M} sym base :
  geometry NumLevels base → 0 < MaxOrders → (Z.of_nat MaxOrders ≤ 2 ^ 32 - 1)%Z →
  engine_ok sym base (Matching.create NumLevels MaxOrders sym base).
Proof.
  intros Hg H1 H2. split; try done.
  - do 4 eexists. by apply book_create_rep.
  - unfold uncrossed. cbn [a_bids a_asks abs_of Matching.create book].
    rewrite !create_queue. set_solver.
  - unfold a_orders. cbn [a_bids a_asks abs_of Matching.create book].
    rewrite !create_queue. constructor.
Qed.

Lemma uncrossed_side A :
  uncrossed A ↔ ∀ s o o', o ∈ a_side A s → o' ∈ a_side A (opposite s) →
    crosses s (ord_price o) (ord_price o') = false.
Proof.
  unfold uncrossed, crosses. split.
  - intros H [|] o o' Ho Ho'; cbn in *; apply Z.leb_gt; eauto.
  - intros H o o' Ho Ho'. specialize (H Buy o o' Ho Ho'). simpl in H. by apply Z.leb_gt in H.
Qed.

Lemma crosses_sym s p p' : crosses (opposite s) p p' = crosses s p' p.
Proof. by destruct s. Qed.

(** Both sides may only lose orders or shorten them. *)
Definition shrinks (q q' : list Order) : Prop :=
  ∀ o, o ∈ q' → ∃ o0 r, o0 ∈ q ∧ o = set_remaining r o0.

Lemma shrinks_refl q : shrinks q q.
Proof. intros o Ho. exists o, (ord_remaining o). split; [done|]. by destruct o. Qed.

Lemma shrinks_uncrossed A A' :
  (∀ s, shrinks (a_side A s) (a_side A' s)) → uncrossed A → uncrossed A'.
Proof.
  intros Hs Hu o o' Ho Ho'.
  destruct (Hs Buy o Ho) as (x&r&Hx&->), (Hs Sell o' Ho') as (x'&r'&Hx'&->).
  exact (Hu x x' Hx Hx').
Qed.

Lemma day_side A sym :
  Forall (day_order sym) (a_orders A) ↔ ∀ s o, o ∈ a_side A s → day_order sym o.
Proof.
  unfold a_orders. rewrite Forall_app, !Forall_forall. split.
  - intros [Hb Ha] [|] o Ho; eauto.
  - intros H. split; [exact (H Buy)|exact (H Sell)].
Qed.

Lemma shrinks_day A A' sym :
  (∀ s, shrinks (a_side A s) (a_side A' s)) →
  Forall (day_order sym) (a_orders A) → Forall (day_order sym) (a_orders A').
Proof.
  rewrite !day_side. intros Hs Hd s o Ho. destruct (Hs s o Ho) as (x&r&Hx&->).
  destruct (Hd s x Hx). done.
Qed.

Context `{!HashMapLaws Z nat M}.

Lemma abs_with b n s q :
  queue b s = q → a_with (mkAbs (queue b Buy) (queue b Sell) n) s q = abs_of (Matching.mk b n).
Proof. intros <-. by destruct s. Qed.

Lemma insert_elem s o q x : x ∈ BookSpec.insert s o q ↔ x = o ∨ x ∈ q.
Proof.
  induction q as [|y q IH]; simpl; [set_solver|].
  destruct (BookSpec.better _ _ _); [set_solver|]. rewrite !elem_of_cons, IH. tauto.
Qed.

(** A sorted queue whose first order is not acceptable has no acceptable order. *)
Lemma none_acceptable a q :
  BookSpec.price_sorted (opposite (ord_side a)) q →
  match q with [] => True | o :: _ => acceptable a (ord_price o) = false end →
  ∀ o, o ∈ q → acceptable a (ord_price o) = false.
Proof.
  intros Hs H o Ho. destruct Hs as [|o' q Hs Hq]; [set_solver|].
  apply elem_of_cons in Ho as [->|Ho]; [done|].
  eapply acceptable_mono; [|exact H]. by eapply Forall_forall in Hq.
Qed.

(** Matching on the engine is matching on the abstract queues. *)
Lemma match_refines sym base e order out fs rem rest :
  engine_ok sym base e → is_i64 (ord_quantity order) → (0 ≤ ord_quantity order)%Z →
  ord_remaining order = ord_quantity order →
  spec_match order (ord_quantity order) (next_match_id e)
    (queue (book e) (opposite (ord_side order))) = (fs, rem, rest) →
  ∃ e', match_against_book NumLevels e order out = (e', set_remaining rem order, out ++ fs) ∧
    engine_ok sym base e' ∧ (0 ≤ rem ≤ ord_quantity order)%Z ∧
    abs_of e' = a_step_id (a_with (abs_of e) (opposite (ord_side order)) rest) (length fs) ∧
    ((0 < rem)%Z → ∀ o, o ∈ a_side (abs_of e') (opposite (ord_side order)) →
       acceptable order (ord_price o) = false).
Proof.
  intros [(F&L&G&Q&Hr) Hsym Hbase Hnext Hu Hd] Hq Hpos Hrem E.
  rewrite <- Hrem in E, Hq, Hpos.
  destruct (match_against_book_spec _ _ _ _ _ _ _ _ out _ _ _ Hr Hnext Hq Hpos E) as
    (b'&F'&L'&G'&Q'&Hm&Hr'&Es&Eb&Eq&Eo).
  set (e' := Matching.mk b' _) in Hm. exists e'.
  assert (abs_of e' = a_step_id (a_with (abs_of e) (opposite (ord_side order)) rest) (length fs))
    as Habs.
  { unfold abs_of, e', a_step_id. cbn [book next_match_id].
    case_side (ord_side order); cbn; by rewrite Eq, Eo. }
  assert (∀ s, shrinks (a_side (abs_of e) s) (a_side (abs_of e') s)) as Hs.
  { intros s. rewrite !abs_side. cbn [book e'].
    destruct (decide (s = opposite (ord_side order))) as [->|Hne].
    - rewrite Eq. intros o Ho. by eapply spec_match_rest.
    - replace s with (ord_side order) by (by destruct s, (ord_side order)).
      rewrite Eo. apply shrinks_refl. }
  pose proof (queue_open _ _ _ _ _ _ _ (opposite (ord_side order)) Hr) as Hopen.
  destruct (spec_match_range _ _ _ _ _ _ _ Hopen Hpos E) as [Hrg _]. rewrite Hrem in Hrg.
  split; [exact Hm|]. split; [|split; [done|split; [done|]]].
  - split; [by do 4 eexists|by subst|by subst|apply u64_range|by eapply shrinks_uncrossed|
      by eapply shrinks_day].
  - intros Hr0. rewrite abs_side. cbn [book e']. apply none_acceptable.
    + by eapply BookSpec.queue_sorted.
    + rewrite Eq.
      destruct (spec_match_exit _ _ _ _ _ _ _ Hopen Hpos E); [lia|done].
Qed.

(** Resting the remainder keeps the invariant. *)
Lemma rest_refines sym base e order :
  engine_ok sym base e → order_typed order → ord_type order = Limit →
  (0 < ord_remaining order)%Z → day_order sym order →
  (∀ o, o ∈ a_side (abs_of e) (opposite (ord_side order)) →
     acceptable order (ord_price o) = false) →
  let s := ord_side order in
  if can_rest NumLevels MaxOrders base (abs_of e) order then
    ∃ b', add NumLevels (book e) order = (inr (ord_id order), b') ∧
      abs_of (Matching.mk b' (next_match_id e)) =
        a_with (abs_of e) s (BookSpec.insert s order (a_side (abs_of e) s)) ∧
      engine_ok sym base (Matching.mk b' (next_match_id e))
  else ∃ err, add NumLevels (book e) order = (inl err, book e).
Proof.
  intros [(F&L&G&Q&Hr) Hsym Hbase Hnext Hu Hd] (Hp&_&Hri) Ht Hrem Hday Hacc s.
  rewrite <- Hbase, (verdict_can_rest _ _ _ _ _ _ Hr) by done.
  case_bool_decide as Hv.
  2: { destruct (add_verdict _ _ _) as [err|] eqn:E; [|done]. exists err. by apply add_rejects. }
  destruct (BookSpec.add_queue _ _ _ _ _ _ _ _ Hr Hri Hp Hv) as
    (b'&F'&L'&G'&Q'&Hadd&Hr'&Es&Eb&HL&Eq&Eo).
  exists b'. set (e' := Matching.mk b' _). split; [done|].
  assert (∀ s', a_side (abs_of e') s' =
    if decide (s' = s) then BookSpec.insert s order (queue (book e) s) else queue (book e) s')
    as Hside.
  { intros s'. rewrite abs_side. cbn [book e']. case_decide as Hs; [by subst s'|].
    replace s' with (opposite s) by (by destruct s, s'). done. }
  split.
  { rewrite abs_side. unfold s in *. rewrite <- Eq.
    unfold abs_of, e'; cbn [book next_match_id]. case_side (ord_side order); cbn; by rewrite Eo. }
  split; [by do 4 eexists|by etrans|done|done| |].
  - apply uncrossed_side. rewrite uncrossed_side in Hu. intros s' o o'. rewrite !Hside.
    intros Ho Ho'. assert (∀ o, o ∈ queue (book e) (opposite s) →
      crosses s (ord_price order) (ord_price o) = false) as Hc.
    { intros x Hx. rewrite <- abs_side in Hx. apply Hacc in Hx. unfold acceptable in Hx.
      rewrite bool_decide_eq_true_2 in Hx by done. done. }
    destruct (decide (s' = s)) as [-> |Hs].
    + rewrite decide_False in Ho' by apply opposite_ne.
      apply insert_elem in Ho as [-> |Ho]; [by apply Hc|]. by apply Hu; rewrite abs_side.
    + assert (s' = opposite s) as -> by (by destruct s, s').
      rewrite opposite_involutive, decide_True in Ho' by done.
      apply insert_elem in Ho' as [-> |Ho']; [rewrite crosses_sym; by apply Hc|].
      apply Hu; rewrite abs_side; [done|]. by rewrite opposite_involutive.
  - apply day_side. rewrite day_side in Hd. intros s' o. rewrite Hside.
    case_decide; [rewrite insert_elem; intros [-> |Ho]|intros Ho]; [done|..];
      by eapply Hd; rewrite abs_side.
Qed.

(** ** Refinement of the operations *)

Definition amounts_typed (order : Order) : Prop :=
  is_i64 (ord_price order) ∧ is_i64 (ord_quantity order).

(** The fill-or-kill pre-check as the engine computes it. *)
Definition fok_short e (order : Order) : bool :=
  bool_decide (ord_tif order = FOK) &&
  (available_liquidity NumLevels e (ord_side order) (bool_decide (ord_type order = Market))
     (ord_price order) (ord_quantity order) <? ord_quantity order)%Z.

(** Past the checks, [submit] is [spec_take]. *)
Lemma submit_take sym base e order out :
  engine_ok sym base e → amounts_typed order →
  ord_symbol order = sym → (0 < ord_quantity order)%Z → fok_short e order = false →
  ∃ r e' out', submit NumLevels e order out = (r, e', out') ∧ engine_ok sym base e' ∧
    spec_take NumLevels MaxOrders base (abs_of e) order out = (r, abs_of e', out').
Proof.
  intros Hok (Hp&Hq) Hsym Hpos Hfok. unfold submit, spec_take.
  rewrite (eo_symbol _ _ _ Hok), Hsym, Z.eqb_refl. rewrite (proj2 (Z.leb_gt _ _)) by done.
  cbn [negb]. unfold fok_short in Hfok.
  change (ord_tif (set_remaining _ order)) with (ord_tif order).
  change (ord_type (set_remaining _ order)) with (ord_type order).
  change (ord_side (set_remaining _ order)) with (ord_side order).
  change (ord_price (set_remaining _ order)) with (ord_price order).
  change (ord_quantity (set_remaining _ order)) with (ord_quantity order).
  rewrite Hfok, abs_side. clear Hfok. cbn [a_next abs_of].
  destruct (spec_match order _ _ _) as [[fs rem] rest] eqn:E.
  set (order1 := set_remaining (ord_quantity order) order).
  destruct (match_refines sym base e order1 out fs rem rest Hok) as (e1&Hm&Hok1&Hrg&Habs&Hacc);
    [done|cbn; lia|done|by unfold order1; rewrite spec_match_agg|].
  change (ord_side order1) with (ord_side order) in Habs, Hacc.
  rewrite Hm, length_app. replace (length out + length fs - length out) with (length fs) by lia.
  cbn [ord_remaining ord_type ord_tif set_remaining order1]. rewrite <- Habs.
  destruct (Z.ltb_spec 0 rem) as [Hrem|Hrem]; cbn [andb]; [|by do 3 eexists].
  case_bool_decide as Ht; cbn [andb]; [|by do 3 eexists].
  case_bool_decide as Htif; [|by do 3 eexists].
  pose proof (rest_refines sym base e1 (set_remaining rem order) Hok1) as Hrest.
  rewrite ord_side_remaining in Hrest. cbn [ord_remaining ord_type set_remaining] in Hrest. cbv zeta in Hrest.
  change (set_remaining rem order1) with (set_remaining rem order).
  destruct (can_rest _ _ _ _ _).
  - destruct Hrest as (b'&Hadd&Habs'&Hok'); try done.
    + split_and!; [done|done|]. cbn in *. unfold is_i64 in *. lia.
    + by apply Hacc.
    + rewrite Hadd. do 3 eexists. split; [done|]. split; [done|]. by rewrite Habs'.
  - destruct Hrest as (err&Hadd); try done.
    + split_and!; [done|done|]. cbn in *. unfold is_i64 in *. lia.
    + by apply Hacc.
    + rewrite Hadd. do 3 eexists. split; [done|]. by destruct e1.
Qed.

(** The pre-check of a fill-or-kill order decides by the acceptable volume. *)
Lemma fok_short_exact sym base e order :
  engine_ok sym base e → (0 < ord_quantity order)%Z →
  (ord_tif order = FOK → (volume (queue (book e) (opposite (ord_side order))) < 2 ^ 63)%Z) →
  fok_short e order =
  bool_decide (ord_tif order = FOK) &&
  (fok_volume order (a_side (abs_of e) (opposite (ord_side order))) <? ord_quantity order)%Z.
Proof.
  intros [(F&L&G&Q&Hr) _ _ _ _ _] Hpos Hvol. unfold fok_short.
  case_bool_decide; cbn [andb]; [|done]. rewrite abs_side.
  by apply (available_exact _ _ _ _ _ _ _ _ Hr); [|apply Hvol].
Qed.

(** [submit] keeps the invariant on every path. *)
Lemma submit_engine_ok sym base e order out :
  engine_ok sym base e → amounts_typed order →
  ∃ r e' out', submit NumLevels e order out = (r, e', out') ∧ engine_ok sym base e'.
Proof.
  intros Hok Hty.
  destruct (decide (ord_symbol order = sym)) as [Hs|Hs];
    [destruct (decide (0 < ord_quantity order)%Z) as [Hq|Hq];
       [destruct (fok_short e order) eqn:Hf|]|].
  2: { destruct (submit_take sym base e order out) as (r&e'&out'&?&?&_); try done; eauto. }
  all: unfold submit; rewrite (eo_symbol _ _ _ Hok).
  - unfold fok_short in Hf. rewrite Hs, Z.eqb_refl, (proj2 (Z.leb_gt _ _)) by done. cbn [negb].
    rewrite ord_side_remaining. cbn [ord_tif ord_price ord_quantity ord_type set_remaining].
    rewrite Hf. eauto.
  - rewrite Hs, Z.eqb_refl, (proj2 (Z.leb_le _ _)) by lia. cbn [negb]. eauto.
  - rewrite (proj2 (Z.eqb_neq _ _)) by done. cbn [negb]. eauto.
Qed.

Lemma submit_spec sym base e order out :
  engine_ok sym base e → amounts_typed order →
  (ord_tif order = FOK → (volume (queue (book e) (opposite (ord_side order))) < 2 ^ 63)%Z) →
  ∃ r e' out', submit NumLevels e order out = (r, e', out') ∧ engine_ok sym base e' ∧
    spec_submit NumLevels MaxOrders sym base (abs_of e) order out = (r, abs_of e', out').
Proof.
  intros Hok Hty Hvol. unfold spec_submit.
  destruct (Z.eqb_spec (ord_symbol order) sym) as [Hs|Hs]; cbn [negb];
    [destruct (Z.leb_spec (ord_quantity order) 0) as [Hq|Hq];
       [|rewrite <- (fok_short_exact sym base) by done; destruct (fok_short e order) eqn:Hf]|].
  3: { destruct (submit_take sym base e order out) as (r&e'&out'&?&?&?); try done; eauto 10. }
  all: unfold submit; rewrite (eo_symbol _ _ _ Hok).
  - rewrite Hs, Z.eqb_refl, (proj2 (Z.leb_le _ _)) by lia. cbn [negb]. eauto 10.
  - unfold fok_short in Hf. rewrite Hs, Z.eqb_refl, (proj2 (Z.leb_gt _ _)) by done. cbn [negb].
    rewrite ord_side_remaining. cbn [ord_tif ord_price ord_quantity ord_type set_remaining].
    rewrite Hf. eauto 10.
  - rewrite (proj2 (Z.eqb_neq _ _)) by done. cbn [negb]. eauto 10.
Qed.

(** *** Cancel *)

Lemma find_a_find e F L G Q id :
  rep (book e) F L G Q →
  a_find (abs_of e) id =
  (λ p, node_order (deref (heap_of (book e)) p)) <$> hm_find (order_index (book e)) id.
Proof.
  intros Hr. unfold a_find. destruct (List.find _ _) as [o|] eqn:E.
  - apply List.find_some in E as [Ho Hid%Z.eqb_eq]. apply list_elem_of_In in Ho.
    apply elem_of_a_orders in Ho as [s Ho].
    destruct (queue_find _ _ _ _ _ _ _ Hr Ho) as (p&Hp&Hn). rewrite Hid in Hp.
    rewrite Hp. simpl. by rewrite Hn.
  - destruct (hm_find _ _) as [p|] eqn:Ep; [|done]. exfalso.
    destruct (find_queue _ _ _ _ _ _ _ Hr Ep) as (s&o&Ho&Hid&_).
    eapply List.find_none in E; [|apply list_elem_of_In, elem_of_a_orders; by exists s].
    by apply Z.eqb_neq in E.
Qed.

Lemma remove_none id q : Forall (λ o, ord_id o ≠ id) q → BookSpec.remove id q = q.
Proof.
  induction 1 as [|o q Ho Hq IH]; [done|]. unfold BookSpec.remove in *. simpl.
  rewrite (proj2 (Z.eqb_neq _ _)) by done. simpl. by rewrite IH.
Qed.

Lemma remove_elem id q o : o ∈ BookSpec.remove id q → o ∈ q ∧ ord_id o ≠ id.
Proof.
  intros [Ho Hid]%list_elem_of_In%filter_In. apply list_elem_of_In in Ho.
  by apply negb_true_iff, Z.eqb_neq in Hid.
Qed.

Lemma cancel_found sym base e id p :
  engine_ok sym base e → hm_find (order_index (book e)) id = Some p →
  ∃ b', OrderBook.cancel (book e) id = (inr tt, b') ∧
    engine_ok sym base (Matching.mk b' (next_match_id e)) ∧
    abs_of (Matching.mk b' (next_match_id e)) = a_remove (abs_of e) id.
Proof.
  intros [(F&L&G&Q&Hr) Hsym Hbase Hnext Hu Hd] Hp.
  destruct (BookSpec.cancel_queue _ _ _ _ _ _ _ _ p Hr Hp) as
    (b'&F'&L'&G'&Q'&s&A&o&B&Hc&Hr'&Es&Eb&HL&Hnone&_&Hid&Hside&Hn&_&_&Eq&Eo).
  exists b'. set (e' := Matching.mk b' _).
  assert (abs_of e' = a_remove (abs_of e) id) as Habs.
  { assert (Forall (λ o, ord_id o ≠ id) (queue (book e) (opposite s))) as Hno.
    { apply Forall_forall. intros x Hx Hxid.
      destruct (queue_find _ _ _ _ _ _ _ Hr Hx) as (px&Hpx&Hnx).
      rewrite Hxid, Hp in Hpx. injection Hpx as <-. rewrite Hn in Hnx. subst x.
      apply (BookSpec.queue_elem _ _ _ _ _ _ _ _ _ Hr) in Hx as (i&_&Hx).
      apply (r_order _ _ _ _ _ _ _ Hr) in Hx as [Hx _ _ _ _].
      rewrite Hside in Hx. symmetry in Hx. by apply opposite_ne in Hx. }
    apply remove_none in Hno. unfold abs_of, a_remove, e'; cbn [book next_match_id a_bids a_asks a_next].
    clear -Eq Eo Hno. case_side s; by rewrite Eq, Eo, Hno. }
  assert (∀ s', shrinks (a_side (abs_of e) s') (a_side (abs_of e') s')) as Hs.
  { intros s' x Hx. apply shrinks_refl. rewrite Habs in Hx.
    destruct s'; cbn in Hx; by apply remove_elem in Hx as [? _]. }
  split_and!; [done| |done].
  split; [by do 4 eexists|by subst|by subst|done|by eapply shrinks_uncrossed|by eapply shrinks_day].
Qed.

Lemma cancel_spec sym base e id :
  engine_ok sym base e →
  ∃ r e', Matching.cancel e id = (r, e') ∧ engine_ok sym base e' ∧
    spec_cancel (abs_of e) id = (r, abs_of e').
Proof.
  intros Hok. destruct (eo_book _ _ _ Hok) as (F&L&G&Q&Hr).
  unfold Matching.cancel, spec_cancel. rewrite (find_a_find _ _ _ _ _ _ Hr).
  destruct (hm_find _ id) as [p|] eqn:Hp; simpl.
  - destruct (cancel_found _ _ _ _ _ Hok Hp) as (b'&Hc&Hok'&<-). rewrite Hc. eauto 10.
  - rewrite cancel_unknown by done. destruct e. eauto 10.
Qed.

(** *** Replace *)

Lemma replace_spec sym base e id price qty seq ts out :
  engine_ok sym base e → is_i64 price → is_i64 qty →
  ∃ r e' out', Matching.replace NumLevels e id price qty seq ts out = (r, e', out') ∧
    engine_ok sym base e' ∧
    spec_replace NumLevels MaxOrders sym base (abs_of e) id price qty seq ts out =
      (r, abs_of e', out').
Proof.
  intros Hok Hp Hq. destruct (eo_book _ _ _ Hok) as (F&L&G&Q&Hr).
  unfold Matching.replace, spec_replace, find. rewrite (find_a_find _ _ _ _ _ _ Hr).
  destruct (hm_find _ id) as [p|] eqn:Hf; simpl; [|eauto 10].
  destruct (Z.leb_spec qty 0); [eauto 10|].
  rewrite <- (eo_base _ _ _ Hok), (in_range_index _ _ (r_base _ _ _ _ _ _ _ Hr) Hp).
  rewrite (eo_base _ _ _ Hok). destruct (index_of _ _ price); simpl; [|eauto 10].
  set (o := node_order _).
  destruct (find_queue _ _ _ _ _ _ _ Hr Hf) as (s&o'&Ho&_&Heq). fold o in Heq. subst o'.
  pose proof (eo_day _ _ _ Hok) as Hd. rewrite day_side in Hd.
  rewrite <- abs_side in Ho. destruct (Hd s o Ho) as [Hos Hot].
  destruct (cancel_found _ _ _ _ _ Hok Hf) as (b'&Hc&Hok'&Habs). rewrite Hc, <- Habs. cbn [snd].
  destruct (submit_spec sym base _ (retermed o price qty seq ts) out Hok') as
    (r&e'&out'&Hsub&Hok''&Hspec).
  - done.
  - cbn. by rewrite Hot.
  - rewrite Hsub, Hspec. eauto 10.
Qed.

End refine.

End Exchange.
