(* ===== verification/BookProps.v ===== *)
(** * What the order book guarantees on its own

    Books reachable through the public interface of
    src/include/jane/book/order_book.hpp, including the book-level [replace]
    the engine does not use, and the properties that hold in all of them. *)

From S2P Require Import Prelude Types Bitmap SlabPool Level HashMap Ladder OrderBook.
From S2P Require Import BookSpec Matching MatchSpec Liquidity Exchange.
From Stdlib Require Import Sorted.
From stdpp Require Import base tactics numbers list sets gmap.

Set Default Goal Selector "!".

Module BookProps.
Import Level OrderBook.

Inductive book_op :=
  | OpAdd (o : Order)
  | OpCancel (id : Z)
  | OpReduce (id amount : Z)
  | OpReplace (id price qty seq ts : Z).

Definition op_typed (op : book_op) : Prop :=
  match op with
  | OpAdd o => is_i64 (ord_price o) ∧ is_i64 (ord_remaining o)
  | OpCancel _ => True
  | OpReduce _ amount => is_i64 amount
  | OpReplace _ price qty _ _ => is_i64 price ∧ is_i64 qty
  end.

Section book.
Context (NumLevels MaxOrders : nat).
Context {M : Type} `{!HashMap Z nat M}.
Implicit Types (b : OrderBook.t M).

Definition book_exec b (op : book_op) : OrderBook.t M :=
  match op with
  | OpAdd o => (add NumLevels b o).2
  | OpCancel id => (cancel b id).2
  | OpReduce id amount => (reduce_quantity b id amount).2
  | OpReplace id price qty seq ts => (replace NumLevels b id price qty seq ts).2
  end.

Inductive book_reach (sym base : Z) : OrderBook.t M → Prop :=
  | br_create : book_reach sym base (create NumLevels MaxOrders sym base)
  | br_step b op : book_reach sym base b → op_typed op → book_reach sym base (book_exec b op).

Context `{!HashMapLaws Z nat M}.

Abbreviation rep := (OrderBook.rep NumLevels MaxOrders).
Abbreviation queue := (OrderBook.queue NumLevels MaxOrders).

(** The book [replace] as a cancel followed by an add. *)
Lemma replace_unfold b id price qty seq ts p i :
  hm_find (order_index b) id = Some p → (0 < qty)%Z → index_of NumLevels b price = Some i →
  replace NumLevels b id price qty seq ts =
  match add NumLevels (cancel b id).2
          (retermed (node_order (deref (heap_of b) p)) price qty seq ts) with
  | (inl _, b) => (inl ReplacePoolExhausted, b)
  | (inr _, b) => (inr tt, b)
  end.
Proof.
  intros Hf Hq Hi. unfold replace, cancel. rewrite Hf, Hi, (proj2 (Z.leb_gt _ _)) by done. done.
Qed.

(** Cancelling always leaves room for the same id. *)
Lemma replace_rep b F L G Q id price qty seq ts p i :
  rep b F L G Q → is_i64 price → is_i64 qty →
  hm_find (order_index b) id = Some p → (0 < qty)%Z → index_of NumLevels b price = Some i →
  ∃ b' F' L' G' Q' o, replace NumLevels b id price qty seq ts = (inr tt, b') ∧
    rep b' F' L' G' Q' ∧ o ∈ queue b (ord_side o) ∧ ord_id o = id ∧
    let s := ord_side o in
    queue b' s = BookSpec.insert s (retermed o price qty seq ts) (BookSpec.remove id (queue b s)) ∧
    queue b' (opposite s) = queue b (opposite s).
Proof.
  intros Hr Hp Hqi Hf Hq Hi. rewrite (replace_unfold _ _ _ _ _ _ _ _ Hf Hq Hi).
  destruct (BookSpec.cancel_queue _ _ _ _ _ _ _ _ p Hr Hf) as
    (b1&F1&L1&G1&Q1&s&A&o&B&->&Hr1&Es&Eb&_&Hnone&HF&Hid&Hs&Ho&Eq&_&Eq1&Eo1).
  assert (o ∈ queue b s) as Hin by (rewrite Eq; set_solver).
  pose proof Hin as (j&_&Hj)%(BookSpec.queue_elem _ _ _ _ _ _ _ _ _ Hr).
  apply (r_order _ _ _ _ _ _ _ Hr) in Hj as [_ _ _ _ Hlim].
  cbn [snd]. rewrite Ho. set (u := retermed o price qty seq ts).
  assert (add_verdict NumLevels b1 u = None) as Hv.
  { unfold add_verdict. rewrite decide_True by done. cbn [ord_remaining ord_price ord_id u retermed].
    rewrite (proj2 (Z.leb_gt _ _)) by done. unfold index_of in *. rewrite Eb, Hi.
    unfold hm_contains. rewrite Hid, Hnone. rewrite decide_False; [done|].
    by rewrite (SlabPool.rep_free_none _ _ _ _ (r_pool _ _ _ _ _ _ _ Hr1)). }
  destruct (BookSpec.add_queue _ _ _ _ _ _ _ u Hr1 Hqi Hp Hv) as
    (b2&F2&L2&G2&Q2&->&Hr2&_&_&_&Eq2&Eo2).
  change (ord_side u) with (ord_side o) in Eq2, Eo2. rewrite Hs in *.
  exists b2, F2, L2, G2, Q2, o. rewrite Hs. split_and!; try done.
  - by rewrite Eq2, Eq1.
  - by rewrite Eo2.
Qed.

Lemma exec_rep b op : OrderBook.ok NumLevels MaxOrders b → op_typed op →
  OrderBook.ok NumLevels MaxOrders (book_exec b op).
Proof.
  intros (F&L&G&Q&Hr) Hop. destruct op as [o|id|id amt|id price qty seq ts]; cbn in *.
  - destruct Hop as [Hp Hq]. destruct (add_verdict NumLevels b o) as [err|] eqn:Hv.
    + rewrite (add_rejects _ _ _ _ Hv). by do 4 eexists.
    + destruct (BookSpec.add_queue _ _ _ _ _ _ _ o Hr Hq Hp Hv) as (b'&F'&L'&G'&Q'&->&?&_).
      by do 4 eexists.
  - destruct (hm_find (order_index b) id) as [p|] eqn:Hf.
    + destruct (BookSpec.cancel_queue _ _ _ _ _ _ _ _ p Hr Hf) as
        (b'&F'&L'&G'&Q'&?&?&?&?&->&?&_). by do 4 eexists.
    + rewrite cancel_unknown by done. by do 4 eexists.
  - destruct (hm_find (order_index b) id) as [p|] eqn:Hf.
    + destruct (decide (0 < amt ≤ ord_remaining (node_order (deref (heap_of b) p)))%Z) as [Ha|Ha].
      * destruct (BookSpec.reduce_queue _ _ _ _ _ _ _ _ p amt Hr Hf Ha) as
          (b'&F'&L'&G'&Q'&?&?&?&?&->&?&_). by do 4 eexists.
      * unfold reduce_quantity. rewrite Hf.
        assert ((amt <=? 0)%Z || (ord_remaining (node_order (deref (heap_of b) p)) <? amt)%Z = true)
          as ->; [|by do 4 eexists].
        apply orb_true_iff. rewrite Z.leb_le, Z.ltb_lt. lia.
    + unfold reduce_quantity. rewrite Hf. by do 4 eexists.
  - destruct Hop as [Hp Hq]. destruct (hm_find (order_index b) id) as [p|] eqn:Hf;
      [destruct (Z.leb_spec qty 0) as [H0|H0];
         [|destruct (index_of NumLevels b price) as [i|] eqn:Hi]|].
    2: { destruct (replace_rep _ _ _ _ _ _ _ _ seq ts _ _ Hr Hp Hq Hf H0 Hi) as
           (b'&F'&L'&G'&Q'&?&->&?&_). by do 4 eexists. }
    all: unfold replace; rewrite Hf; try (rewrite (proj2 (Z.leb_le _ _)) by lia);
      try (rewrite (proj2 (Z.leb_gt _ _)), Hi by lia); by do 4 eexists.
Qed.

Lemma reach_rep sym base b :
  geometry NumLevels base → 0 < MaxOrders → (Z.of_nat MaxOrders ≤ 2 ^ 32 - 1)%Z →
  book_reach sym base b → OrderBook.ok NumLevels MaxOrders b.
Proof.
  intros Hg H1 H2. induction 1; [|by apply exec_rep].
  do 4 eexists. by apply book_create_rep.
Qed.

(** ** The queue through the nodes *)

Lemma queue_ptrs b F L G Q s :
  rep b F L G Q →
  queue b s = (λ p, node_order (deref (heap_of b) p)) <$> Exchange.ptrs NumLevels G s.
Proof.
  intros Hr. unfold OrderBook.queue, Exchange.ptrs.
  assert (∀ l, (∀ i, i ∈ l → i < NumLevels) →
    concat (fifo MaxOrders b s <$> l) =
    (λ p, node_order (deref (heap_of b) p)) <$> concat (G s <$> l)) as H.
  { induction l as [|i l IH]; intros Hl; [done|]. rewrite !fmap_cons. cbn [concat].
    rewrite fmap_app, IH by set_solver. f_equal. unfold fifo.
    destruct (rep_level_length _ _ _ _ _ _ _ s i Hr) as [HGL _].
    pose proof (SlabPool.rep_count _ _ _ _ (r_pool _ _ _ _ _ _ _ Hr)) as Hc.
    pose proof (r_level _ _ _ _ _ _ _ Hr s i ltac:(apply Hl; set_solver)) as Hlv.
    by rewrite (lr_head _ _ _ _ Hlv), (walk_dseg _ _ None (G s i)); [|lia|apply Hlv]. }
  apply H. intros i. apply Ladder.elem_of_prio.
Qed.

Lemma live_id b F L G Q p q :
  rep b F L G Q → p ∈ L → q ∈ L →
  ord_id (node_order (deref (heap_of b) p)) = ord_id (node_order (deref (heap_of b) q)) → p = q.
Proof.
  intros Hr Hp Hq E.
  assert (∀ x, x ∈ L →
    hm_find (order_index b) (ord_id (node_order (deref (heap_of b) x))) = Some x) as Hx.
  { intros x Hx. apply (r_index _ _ _ _ _ _ _ Hr). split; [done|].
    apply (r_live _ _ _ _ _ _ _ Hr) in Hx as (s&i&[k Hk]%list_elem_of_lookup).
    destruct (rep_lookup _ _ _ _ _ _ _ _ _ _ _ Hr Hk) as (_&o&_&Ho&_).
    by rewrite Ho, (deref_order _ _ _ Ho). }
  pose proof (Hx p Hp) as H1. pose proof (Hx q Hq) as H2. rewrite E, H2 in H1. congruence.
Qed.

Lemma queue_ids_NoDup b F L G Q :
  rep b F L G Q → NoDup (ord_id <$> queue b Buy ++ queue b Sell).
Proof.
  intros Hr. rewrite !(queue_ptrs _ _ _ _ _ _ Hr), <- fmap_app, <- list_fmap_compose.
  pose proof (Exchange.ptrs_live _ _ _ _ _ _ _ Hr) as HL.
  apply NoDup_fmap_2_strong.
  - intros p q Hp Hq E. rewrite HL in Hp, Hq. by eapply live_id.
  - rewrite HL. pose proof (SlabPool.rep_NoDup _ _ _ _ (r_pool _ _ _ _ _ _ _ Hr)) as Hn.
    by apply NoDup_app in Hn as (_&_&?).
Qed.

(** The orders at one price are the FIFO of that level. *)
Lemma queue_at_price b F L G Q s i :
  rep b F L G Q → i < NumLevels →
  List.filter (λ o, ord_price o =? base_price b + Z.of_nat i)%Z (queue b s) = Q s i.
Proof.
  intros Hr Hi. rewrite (BookSpec.queue_rep _ _ _ _ _ _ _ s Hr).
  destruct (BookSpec.flat_upd _ Q s i Hi) as (A&B&pre&post&_&Hpre&Hpost&EA&EB&->&_).
  rewrite !List.filter_app, (list_filter_nil _ A), (list_filter_all _ (Q s i)), (list_filter_nil _ B); [by rewrite app_nil_r|..].
  - intros o Ho. rewrite EB in Ho. apply BookSpec.elem_of_levels in Ho as (j&Hj&Ho).
    apply (r_order _ _ _ _ _ _ _ Hr) in Ho as [_ -> _ _ _]. apply Z.eqb_neq. intros E.
    assert (j = i) as -> by lia. apply Hpost in Hj. by rewrite Ladder.is_better_irrefl in Hj.
  - intros o Ho. apply (r_order _ _ _ _ _ _ _ Hr) in Ho as [_ -> _ _ _]. apply Z.eqb_refl.
  - intros o Ho. rewrite EA in Ho. apply BookSpec.elem_of_levels in Ho as (j&Hj&Ho).
    apply (r_order _ _ _ _ _ _ _ Hr) in Ho as [_ -> _ _ _]. apply Z.eqb_neq. intros E.
    assert (j = i) as -> by lia. apply Hpre in Hj. by rewrite Ladder.is_better_irrefl in Hj.
Qed.

(** The cached aggregates of one slot. *)
Lemma level_fields b F L G Q s i :
  rep b F L G Q → i < NumLevels →
  total_quantity (level_for b s i) = i64 (zsum (ord_remaining <$> Q s i)) ∧
  Level.order_count (level_for b s i) = Z.of_nat (length (Q s i)).
Proof.
  intros Hr Hi. pose proof (r_level _ _ _ _ _ _ _ Hr s i Hi) as Hl. split; [apply Hl|].
  rewrite (lr_count _ _ _ _ Hl), (level_rep_length _ _ _ _ Hl).
  destruct (rep_level_length _ _ _ _ _ _ _ s i Hr) as [Ha Hb].
  rewrite <- (level_rep_length _ _ _ _ Hl). apply u32_id. unfold is_u32. lia.
Qed.

(** ** Properties *)

(** Sizes under which the ladder's prices and the pool's indices fit. *)
Definition sized (base : Z) : Prop :=
  geometry NumLevels base ∧ 0 < MaxOrders ∧ (Z.of_nat MaxOrders ≤ 2 ^ 32 - 1)%Z.

(** C13: in every reachable book the count is the number of resting orders and
    never exceeds the capacity, order ids are unique, [find] knows exactly
    the resting ids, and each side is sorted by price priority and holds
    only open limit orders of that side. *)
Theorem book_wellformed sym base b :
  sized base → book_reach sym base b →
  let all := queue b Buy ++ queue b Sell in
  order_count b = Z.of_nat (length all) ∧ length all ≤ MaxOrders ∧ NoDup (ord_id <$> all) ∧
  (∀ id, find b id ≠ None ↔ id ∈ ord_id <$> all) ∧
  ∀ s, BookSpec.price_sorted s (queue b s) ∧
    Forall (λ o, ord_side o = s ∧ ord_type o = Limit ∧ (0 < ord_remaining o)%Z) (queue b s).
Proof.
  intros (Hg&H1&H2) Hreach all. destruct (reach_rep _ _ _ Hg H1 H2 Hreach) as (F&L&G&Q&Hr).
  set (e := Matching.mk b 0).
  pose proof (Exchange.live_orders _ _ e _ _ _ _ Hr) as HL.
  change (Exchange.a_orders _) with all in HL.
  pose proof (SlabPool.rep_count _ _ _ _ (r_pool _ _ _ _ _ _ _ Hr)) as Hc.
  split_and!.
  - rewrite (r_count _ _ _ _ _ _ _ Hr). by rewrite HL.
  - lia.
  - by eapply queue_ids_NoDup.
  - intros id. pose proof (Exchange.find_none _ _ e _ _ _ _ id Hr) as Hn.
    change (Exchange.a_orders _) with all in Hn. unfold find. cbn [Matching.book e] in Hn.
    rewrite Hn. split; [|tauto]. intros H. by destruct (decide (id ∈ ord_id <$> all)).
  - intros s. split; [by eapply BookSpec.queue_sorted|]. apply Forall_forall. intros o Ho.
    apply (BookSpec.queue_elem _ _ _ _ _ _ _ _ _ Hr) in Ho as (i&_&Ho).
    by apply (r_order _ _ _ _ _ _ _ Hr) in Ho as [? _ ? _ ?].
Qed.

(** C14: in every reachable book the cached aggregates of a level are the sum
    (modulo 2^64) and the number of the orders resting at that price, and
    [best_bid]/[best_ask] is the price of the first order of the side. *)
Theorem book_aggregates sym base b s price l :
  sized base → book_reach sym base b → is_i64 price → level_at NumLevels b s price = Some l →
  let os := List.filter (λ o, ord_price o =? price)%Z (queue b s) in
  total_quantity l = i64 (zsum (ord_remaining <$> os)) ∧
  Level.order_count l = Z.of_nat (length os) ∧
  best_price b s = ord_price <$> hd_error (queue b s).
Proof.
  intros (Hg&H1&H2) Hreach Hp Hlv. destruct (reach_rep _ _ _ Hg H1 H2 Hreach) as (F&L&G&Q&Hr).
  unfold level_at in Hlv. destruct (index_of NumLevels b price) as [i|] eqn:Hi; [|done].
  injection Hlv as <-. apply index_of_spec in Hi as [Hi ->]; [|apply Hr|done].
  cbv zeta. rewrite (queue_at_price _ _ _ _ _ _ _ Hr Hi).
  destruct (level_fields _ _ _ _ _ s i Hr Hi) as [Ht Hn]. split_and!; [exact Ht|exact Hn|].
  pose proof (BookSpec.best_front _ _ _ _ _ _ _ s Hr) as Hb.
  destruct (queue b s); [done|]. by destruct Hb as [-> _].
Qed.

(** Adding to a reachable book fails for the reported reason and changes
    nothing, or puts the order behind every order that is not worse in price
    and leaves the other side alone. *)
Theorem book_add sym base b o :
  sized base → book_reach sym base b → is_i64 (ord_price o) → is_i64 (ord_remaining o) →
  match add_verdict NumLevels b o with
  | Some err => add NumLevels b o = (inl err, b)
  | None => ∃ b', add NumLevels b o = (inr (ord_id o), b') ∧
      queue b' (ord_side o) = BookSpec.insert (ord_side o) o (queue b (ord_side o)) ∧
      queue b' (opposite (ord_side o)) = queue b (opposite (ord_side o))
  end.
Proof.
  intros (Hg&H1&H2) Hreach Hp Hq. destruct (reach_rep _ _ _ Hg H1 H2 Hreach) as (F&L&G&Q&Hr).
  destruct (add_verdict NumLevels b o) as [err|] eqn:Hv; [by apply add_rejects|].
  destruct (BookSpec.add_queue _ _ _ _ _ _ _ o Hr Hq Hp Hv) as (b'&_&_&_&_&->&_&_&_&_&?&?). eauto.
Qed.

(** The book-level replace of a resting order with a positive quantity and
    a price on the ladder cannot fail, keeps id, owner, side and type, and
    re-queues the order behind every order that is not worse in price: it
    loses time priority even when the price is unchanged. *)
Theorem book_replace_requeues sym base b id price qty seq ts :
  sized base → book_reach sym base b → is_i64 price → is_i64 qty →
  find b id ≠ None → (0 < qty)%Z → index_of NumLevels b price ≠ None →
  ∃ b' o, replace NumLevels b id price qty seq ts = (inr tt, b') ∧
    o ∈ queue b (ord_side o) ∧ ord_id o = id ∧
    let s := ord_side o in
    queue b' s = BookSpec.insert s (retermed o price qty seq ts) (BookSpec.remove id (queue b s)) ∧
    queue b' (opposite s) = queue b (opposite s).
Proof.
  intros (Hg&H1&H2) Hreach Hp Hq Hf H0 Hi.
  destruct (reach_rep _ _ _ Hg H1 H2 Hreach) as (F&L&G&Q&Hr). unfold find in Hf.
  destruct (hm_find (order_index b) id) as [p|] eqn:Ef; [|done].
  destruct (index_of NumLevels b price) as [i|] eqn:Ei; [|done].
  destruct (replace_rep _ _ _ _ _ _ _ _ seq ts _ _ Hr Hp Hq Ef H0 Ei) as
    (b'&_&_&_&_&o&->&_&?&?&?&?). by exists b', o.
Qed.

End book.

(** ** A concrete book *)

Definition demo_order (id price qty : Z) : Order :=
  mkOrder id 1 7 (side_code Buy) Limit Day price qty qty id 0.

Definition demo_ops : list book_op :=
  [OpAdd (demo_order 1 102 5); OpAdd (demo_order 2 102 4); OpAdd (demo_order 3 101 6);
   OpReduce 1 2].

Definition demo_book : OrderBook.t (gmap Z nat) :=
  foldl (book_exec 8) (create 8 4 7 100) demo_ops.

Lemma demo_sized : sized 8 4 100.
Proof. unfold sized, geometry, is_i64. lia. Qed.

Lemma demo_book_reach : book_reach 8 4 7 100 demo_book.
Proof.
  unfold demo_book, demo_ops. cbn [foldl].
  repeat (apply br_step; [|cbn; unfold is_i64; lia]). constructor.
Qed.

Lemma book_wellformed_witness :
  order_count demo_book = 3%Z ∧
  NoDup (ord_id <$> queue 8 4 demo_book Buy ++ queue 8 4 demo_book Sell).
Proof.
  destruct (book_wellformed 8 4 7 100 demo_book demo_sized demo_book_reach) as (_&_&H&_).
  split; [vm_compute; reflexivity|exact H].
Defined.

Lemma book_aggregates_witness :
  ∃ l, level_at 8 demo_book Buy 102 = Some l ∧ total_quantity l = 7%Z ∧
    best_price demo_book Buy = Some 102%Z.
Proof.
  eexists. split; [vm_compute; reflexivity|].
  edestruct (book_aggregates 8 4 7 100 demo_book Buy 102) as (H1&_&H3);
    [exact demo_sized|exact demo_book_reach|unfold is_i64; lia|vm_compute; reflexivity|].
  split; [reflexivity|]. etrans; [exact H3|]. vm_compute. reflexivity.
Defined.

Lemma book_add_witness :
  ∃ b', add 8 demo_book (demo_order 9 102 1) = (inr 9%Z, b') ∧
    (ord_id <$> queue 8 4 b' Buy) = [1; 2; 9; 3]%Z.
Proof.
  pose proof (book_add 8 4 7 100 demo_book (demo_order 9 102 1) demo_sized demo_book_reach
    ltac:(unfold is_i64; cbn; lia) ltac:(unfold is_i64; cbn; lia)) as H.
  destruct (add_verdict 8 demo_book (demo_order 9 102 1)) eqn:E; [vm_compute in E; discriminate E|].
  destruct H as (b'&H1&H2&_). exists b'. split; [exact H1|].
  etrans; [exact (f_equal (fmap ord_id) H2)|]. vm_compute. reflexivity.
Defined.

Lemma book_replace_requeues_witness :
  ∃ b', replace 8 demo_book 1 102 5 9 9 = (inr tt, b') ∧
    (ord_id <$> queue 8 4 b' Buy) = [2; 1; 3]%Z.
Proof.
  destruct (book_replace_requeues 8 4 7 100 demo_book 1 102 5 9 9) as (b'&o&H1&_);
    [exact demo_sized|exact demo_book_reach|unfold is_i64; lia|unfold is_i64; lia
    |vm_compute; discriminate|lia|vm_compute; discriminate|].
  exists b'. split; [exact H1|].
  replace b' with (replace 8 demo_book 1 102 5 9 9).2 by (rewrite H1; reflexivity).
  vm_compute. reflexivity.
Defined.

End BookProps.
