(* ===== verification/BenchEngine.v ===== *)
(** * The matching engine benchmarks (src/bench/bench_matching_engine.cpp)

    The benchmarks run fixed order flows against one engine, as often as the
    framework asks.  What they measure depends on every iteration doing the
    same thing, which is what the theorems say: each crossing iteration
    fills exactly one order and leaves the book as it found it, each sweep
    fills exactly the orders it rested.  The benchmarks that compare a
    reused with a fresh vector of fills run the same trades. *)

From S2P Require Import Prelude Types Bitmap SlabPool Level HashMap Ladder OrderBook.
From S2P Require Import BookSpec Matching MatchSpec Liquidity Exchange.
From stdpp Require Import base tactics numbers list sets gmap.

Set Default Goal Selector "!".

Module BenchEngine.
Import OrderBook Matching MatchSpec Exchange.

Definition make_limit (id : Z) (side : Side) (price qty : Z) : Order :=
  mkOrder id 1 1 (side_code side) Limit Day price qty qty 0 0.

Definition kSweepFillCount : nat := 20.

Section benchmarks.
Context (NumLevels MaxOrders : nat).
Context {M : Type} `{!HashMap Z nat M}.

(** The locals of a benchmark. *)
Record bench := mkBench { engine : Matching.t M; next_id : Z; fills : list Fill }.

Definition start : bench :=
  mkBench (Matching.create NumLevels MaxOrders 1 0) 1 [].

Definition clear (s : bench) : bench := mkBench (engine s) (next_id s) [].

(** [engine.submit(make_limit(id++, side, 100, qty), fills)] *)
Definition submit_next (side : Side) (qty : Z) (s : bench) : NewOrderResult * bench :=
  let '(r, e, out) := submit NumLevels (engine s) (make_limit (next_id s) side 100 qty) (fills s) in
  (r, mkBench e (u64 (next_id s + 1)) out).

(** [n] iterations, with what each returned. *)
Fixpoint iterations {A R : Type} (n : nat) (body : A → R * A) (s : A) : list R * A :=
  match n with
  | O => ([], s)
  | S n => let '(r, s) := body s in let '(rs, s) := iterations n body s in (r :: rs, s)
  end.

Definition crossing (s : bench) : list NewOrderResult * bench :=
  let s := clear s in
  let '(result, s) := submit_next Buy 10 s in
  let '(rest, s) := submit_next Sell 10 s in
  ([result; rest], s).

Definition bench_submit_crossing_single_fill (n : nat) : list (list NewOrderResult) * bench :=
  iterations n crossing (submit_next Sell 10 start).2.

(** The same body, under another name. *)
Definition bench_reused_out_fills (n : nat) : list (list NewOrderResult) * bench :=
  iterations n crossing (submit_next Sell 10 start).2.

(** A new vector for every submit. *)
Definition crossing_fresh (s : bench) : list NewOrderResult * bench :=
  let '(r1, s) := submit_next Buy 10 (clear s) in
  let '(r2, s) := submit_next Sell 10 (clear s) in
  ([r1; r2], s).

Definition bench_fresh_out_fills (n : nat) : list (list NewOrderResult) * bench :=
  iterations n crossing_fresh (submit_next Sell 10 start).2.

Definition non_crossing (s : bench) : NewOrderResult * bool * bench :=
  let '(result, e, out) :=
    submit NumLevels (engine s) (make_limit (next_id s) Buy 100 10) (fills s) in
  let '(c, e) := Matching.cancel e (next_id s) in
  (result, cancel_accepted c, mkBench e (u64 (next_id s + 1)) out).

Definition bench_submit_non_crossing_then_cancel (n : nat)
    : list (NewOrderResult * bool) * bench :=
  iterations n non_crossing start.

(** [for (int i = 0; i < n; ++i) engine.submit(make_limit(id++, Sell, 100, 10), fills)] *)
Fixpoint rest_sells (n : nat) (s : bench) : list NewOrderResult * bench :=
  match n with
  | O => ([], s)
  | S n =>
      let '(r, s) := submit_next Sell 10 s in
      let '(rs, s) := rest_sells n s in (r :: rs, s)
  end.

Definition sweep (n : nat) (s : bench) : list NewOrderResult * bench :=
  let '(rs, s) := rest_sells n (clear s) in
  let '(r, s) := submit_next Buy (10 * Z.of_nat n) (clear s) in
  (rs ++ [r], s).

Definition bench_submit_sweeps_ten_resting_orders (n : nat) : list (list NewOrderResult) * bench :=
  iterations n (sweep 10) start.

Definition bench_reused_out_fills_20_way_sweep (n : nat) : list (list NewOrderResult) * bench :=
  iterations n (sweep kSweepFillCount) start.

(** With [setup_fills] and, for the sweep itself, a vector of its own. *)
Definition sweep_fresh (n : nat) (s : bench * list Fill)
    : list NewOrderResult * (bench * list Fill) :=
  let '(s, _) := s in
  let '(rs, s) := rest_sells n (clear s) in
  let '(r, e, fresh) :=
    submit NumLevels (engine s) (make_limit (next_id s) Buy 100 (10 * Z.of_nat n)) [] in
  (rs ++ [r], (mkBench e (u64 (next_id s + 1)) (fills s), fresh)).

Definition bench_fresh_out_fills_20_way_sweep (n : nat)
    : list (list NewOrderResult) * (bench * list Fill) :=
  iterations n (sweep_fresh kSweepFillCount) (start, []).

(** ** The vector of fills is only appended to *)

Lemma match_loop_append fuel e a out :
  match_loop NumLevels fuel e a out =
  let '(e', a', fs) := match_loop NumLevels fuel e a [] in (e', a', out ++ fs).
Proof.
  revert e a out. induction fuel as [|fuel IH]; intros e a out; cbn [match_loop];
    [by rewrite app_nil_r|].
  destruct (0 <? _)%Z; [|by rewrite app_nil_r].
  destruct (if decide _ then _ else _) as [best|]; [|by rewrite app_nil_r].
  destruct (_ && _); [by rewrite app_nil_r|].
  destruct (front_at _ _ _ _) as [node|]; [|by rewrite app_nil_r].
  rewrite IH. rewrite (IH _ _ ([] ++ _)).
  destruct (match_loop _ _ _ _ _) as [[e' a'] fs]. by rewrite <- app_assoc.
Qed.

Lemma submit_append e o out :
  submit NumLevels e o out =
  let '(r, e', fs) := submit NumLevels e o [] in (r, e', out ++ fs).
Proof.
  unfold submit. destruct (negb _); [by rewrite app_nil_r|].
  destruct (_ <=? 0)%Z; [by rewrite app_nil_r|].
  destruct (_ && _); [by rewrite app_nil_r|]. unfold match_against_book. rewrite match_loop_append.
  destruct (match_loop _ _ _ _ _) as [[e' a'] fs]. rewrite length_app.
  replace (length out + length fs - length out) with (length fs - length (@nil Fill)) by (cbn; lia).
  destruct (_ && _); [|done]. by destruct (add _ _ _) as [[?|?] b].
Qed.

(** Benchmarks that differ only in their vectors of fills. *)
Definition same_run (s s' : bench) : Prop := engine s' = engine s ∧ next_id s' = next_id s.

Lemma submit_next_same side qty s s' :
  same_run s s' →
  (submit_next side qty s').1 = (submit_next side qty s).1 ∧
  same_run (submit_next side qty s).2 (submit_next side qty s').2.
Proof.
  intros [He Hn]. unfold submit_next, same_run.
  rewrite (submit_append (engine s) _ (fills s)), (submit_append (engine s') _ (fills s')), He, Hn.
  by destruct (submit NumLevels (engine s) _ []) as [[r e] out].
Qed.

Lemma rest_sells_same n s s' :
  same_run s s' →
  (rest_sells n s').1 = (rest_sells n s).1 ∧ same_run (rest_sells n s).2 (rest_sells n s').2.
Proof.
  revert s s'. induction n as [|n IH]; intros s s' Hs; cbn [rest_sells]; [done|].
  destruct (submit_next_same Sell 10 s s' Hs) as [H1 H2].
  destruct (submit_next Sell 10 s) as [r t], (submit_next Sell 10 s') as [r' t'].
  cbn [fst snd] in H1, H2. subst r'. destruct (IH t t' H2) as [H3 H4].
  destruct (rest_sells n t), (rest_sells n t'). cbn [fst snd] in *. by subst.
Qed.

Lemma crossing_same s s' :
  same_run s s' →
  (crossing_fresh s').1 = (crossing s).1 ∧ same_run (crossing s).2 (crossing_fresh s').2.
Proof.
  intros Hs. unfold crossing, crossing_fresh.
  destruct (submit_next_same Buy 10 (clear s) (clear s') Hs) as [H1 H2].
  destruct (submit_next Buy 10 (clear s)) as [r t], (submit_next Buy 10 (clear s')) as [r' t'].
  cbn [fst snd] in H1, H2. subst r'.
  destruct (submit_next_same Sell 10 t (clear t') H2) as [H3 H4].
  destruct (submit_next Sell 10 t), (submit_next Sell 10 (clear t')). cbn [fst snd] in *. by subst.
Qed.

Lemma sweep_same n s s' fresh :
  same_run s s' →
  (sweep_fresh n (s', fresh)).1 = (sweep n s).1 ∧
  same_run (sweep n s).2 (sweep_fresh n (s', fresh)).2.1 ∧
  (sweep_fresh n (s', fresh)).2.2 = fills (sweep n s).2.
Proof.
  intros Hs. unfold sweep, sweep_fresh.
  destruct (rest_sells_same n (clear s) (clear s') Hs) as [H1 [He Hn]].
  destruct (rest_sells n (clear s)) as [rs t], (rest_sells n (clear s')) as [rs' t'].
  cbn [fst snd] in H1, He, Hn. subst rs'. unfold submit_next, same_run. cbn [clear engine next_id fills].
  rewrite He, Hn. by destruct (submit NumLevels (engine t) _ []) as [[r e] out].
Qed.

(** Two loops whose bodies stay related return the same. *)
Lemma iterations_same {A B C : Type} (R : A → B → Prop) (f : A → C * A) (g : B → C * B) n a b :
  (∀ a b, R a b → (g b).1 = (f a).1 ∧ R (f a).2 (g b).2) → R a b →
  (iterations n g b).1 = (iterations n f a).1 ∧ R (iterations n f a).2 (iterations n g b).2.
Proof.
  intros Hfg. revert a b. induction n as [|n IH]; intros a b Hab; cbn [iterations]; [done|].
  destruct (Hfg a b Hab) as [H1 H2]. destruct (f a) as [r a'], (g b) as [r' b'].
  cbn [fst snd] in H1, H2. subst r'. destruct (IH a' b' H2) as [H3 H4].
  destruct (iterations n f a'), (iterations n g b'). cbn [fst snd] in *. by subst.
Qed.

(** The comparison is fair: with fresh vectors of fills instead of a reused
    one, the benchmarks get the same results from every submit and leave
    the same engine, and the fresh vector of a sweep holds exactly the
    fills the reused one ends with. *)
Theorem fresh_fills_same_run n :
  (bench_fresh_out_fills n).1 = (bench_reused_out_fills n).1 ∧
  engine (bench_fresh_out_fills n).2 = engine (bench_reused_out_fills n).2 ∧
  (bench_fresh_out_fills_20_way_sweep n).1 = (bench_reused_out_fills_20_way_sweep n).1 ∧
  engine (bench_fresh_out_fills_20_way_sweep n).2.1 =
    engine (bench_reused_out_fills_20_way_sweep n).2 ∧
  (bench_fresh_out_fills_20_way_sweep n).2.2 = fills (bench_reused_out_fills_20_way_sweep n).2.
Proof.
  destruct (iterations_same same_run crossing crossing_fresh n (submit_next Sell 10 start).2
    (submit_next Sell 10 start).2) as [H1 [H2 _]]; [apply crossing_same|done|].
  destruct (iterations_same (λ s '(s', fresh), same_run s s' ∧ fresh = fills s)
    (sweep kSweepFillCount) (sweep_fresh kSweepFillCount) n start (start, [])) as [H3 H4]; [|done|].
  { intros s [s' fresh] [Hs _]. destruct (sweep_same kSweepFillCount s s' fresh Hs) as (?&?&?).
    split; [done|]. by destruct (sweep_fresh _ _) as [? [? ?]]. }
  unfold bench_fresh_out_fills_20_way_sweep, bench_reused_out_fills_20_way_sweep.
  destruct (iterations n (sweep_fresh _) _) as [rs [t fresh]]. cbn [fst snd] in *.
  destruct H4 as [[H4 _] H5]. by split_and!.
Qed.

(** ** One submit on the abstract book *)

Context `{!HashMapLaws Z nat M}.
Context (Hlevels : 100 < NumLevels) (Horders : 0 < MaxOrders).

Abbreviation abs_of := (Exchange.abs_of NumLevels MaxOrders).
Abbreviation engine_ok := (Exchange.engine_ok NumLevels MaxOrders 1 0).

Definition sell (id : Z) : Order := make_limit id Sell 100 10.

Lemma insert_sell id q :
  Forall (λ o, ord_price o = 100%Z) q → BookSpec.insert Sell (sell id) q = q ++ [sell id].
Proof.
  intros Hq. rewrite <- (app_nil_r q) at 1. apply BookSpec.insert_split; [|done].
  eapply Forall_impl; [exact Hq|]. intros o ->. done.
Qed.

Lemma typed_limit id s qty : is_i64 qty → amounts_typed (make_limit id s 100 qty).
Proof. intros Hq. split; [unfold is_i64; cbn; lia|exact Hq]. Qed.

Lemma price_in_range : in_range NumLevels 0 100 = true.
Proof. unfold in_range. apply andb_true_iff. rewrite Z.leb_le, Z.ltb_lt. lia. Qed.

Lemma can_rest_sell id ids k r :
  id ∉ ids → length ids < MaxOrders →
  can_rest NumLevels MaxOrders 0 (mkAbs [] (sell <$> ids) k) (set_remaining r (sell id)) = true.
Proof.
  intros Hid Hlen. unfold can_rest.
  change (ord_price (set_remaining r (sell id))) with 100%Z. rewrite price_in_range.
  change (ord_id (set_remaining r (sell id))) with id.
  unfold a_orders. cbn [a_bids a_asks app andb].
  rewrite length_fmap, (proj2 (Nat.ltb_lt _ _)), andb_true_r by done.
  apply bool_decide_eq_true_2. rewrite <- list_fmap_compose.
  by intros (x&->&Hx)%list_elem_of_fmap.
Qed.

Lemma spec_sell id ids k out :
  is_u64 k → id ∉ ids → length ids < MaxOrders →
  spec_submit NumLevels MaxOrders 1 0 (mkAbs [] (sell <$> ids) k) (sell id) out =
    (mkNewOrderResult RejNone 0 true 10, mkAbs [] (sell <$> ids ++ [id]) k, out).
Proof.
  intros Hk Hid Hlen. unfold spec_submit, spec_take, a_step_id.
  change (ord_symbol (sell id)) with 1%Z. change (ord_quantity (sell id)) with 10%Z.
  change (ord_side (sell id)) with Sell. change (opposite Sell) with Buy.
  change (ord_tif (sell id)) with Day.
  cbn [Z.eqb Pos.eqb negb Z.leb Z.compare a_side a_bids a_asks a_next spec_match a_with length].
  rewrite bool_decide_eq_false_2 by done. cbn [andb].
  change (Z.of_nat 0) with 0%Z. rewrite Z.add_0_r, u64_id, can_rest_sell by done.
  rewrite !bool_decide_eq_true_2 by done. cbn [Z.ltb Z.compare andb].
  change (set_remaining 10 (sell id)) with (sell id).
  rewrite insert_sell by (apply Forall_fmap, Forall_true; done).
  by rewrite app_nil_r, fmap_app.
Qed.

(** A sell that meets no bid rests behind the others. *)
Lemma submit_sell e id ids k out :
  engine_ok e → abs_of e = mkAbs [] (sell <$> ids) k → id ∉ ids → length ids < MaxOrders →
  ∃ e', submit NumLevels e (sell id) out = (mkNewOrderResult RejNone 0 true 10, e', out) ∧
    engine_ok e' ∧ abs_of e' = mkAbs [] (sell <$> ids ++ [id]) k.
Proof.
  intros Hok Ha Hid Hlen.
  destruct (submit_spec NumLevels MaxOrders 1 0 e (sell id) out Hok) as (r&e'&out'&Hs&Hok'&Hspec);
    [by apply typed_limit|done|].
  assert (is_u64 k) as Hk.
  { pose proof (eo_next _ _ _ _ _ Hok) as Hk. change (next_match_id e) with (a_next (abs_of e)) in Hk.
    by rewrite Ha in Hk. }
  rewrite Ha, spec_sell in Hspec by done. 
  apply pair_equal_spec in Hspec as [[<- E]%pair_equal_spec <-].
  exists e'. by rewrite <- E.
Qed.

(** Matching a buy of [10 * n] against [n] resting sells of 10. *)
Lemma match_sells a k ids :
  ord_side a = Buy → ord_price a = 100%Z → ord_type a = Limit →
  ∃ fs, spec_match a (10 * Z.of_nat (length ids)) k (sell <$> ids) = (fs, 0%Z, []) ∧
    resting_order_id <$> fs = ids ∧ Forall (λ f, fill_quantity f = 10%Z) fs.
Proof.
  intros Hs Hp Ht. revert k. induction ids as [|i ids IH]; intros k; [by exists []|].
  destruct (IH (u64 (k + 1))) as (fs&E&H1&H2).
  rewrite fmap_cons. cbn [spec_match length].
  assert (acceptable a (ord_price (sell i)) = true) as ->.
  { unfold acceptable. rewrite Ht, Hs, Hp, bool_decide_eq_true_2 by done. done. }
  rewrite (proj2 (Z.ltb_lt _ _)), Z.min_r by (cbn; lia). cbn [andb].
  change (ord_remaining (sell i)) with 10%Z.
  replace (10 * Z.of_nat (S (length ids)) - 10)%Z with (10 * Z.of_nat (length ids))%Z by lia.
  rewrite E. eexists. split; [done|]. cbn. by rewrite H1; auto.
Qed.

(** A buy of everything resting. *)
Lemma submit_buy e id ids k out :
  engine_ok e → abs_of e = mkAbs [] (sell <$> ids) k → ids ≠ [] →
  is_i64 (10 * Z.of_nat (length ids)) →
  ∃ e' fs, submit NumLevels e (make_limit id Buy 100 (10 * Z.of_nat (length ids))) out =
      (mkNewOrderResult RejNone (length ids) false 0, e', out ++ fs) ∧
    engine_ok e' ∧ abs_of e' = mkAbs [] [] (u64 (k + Z.of_nat (length ids))) ∧
    resting_order_id <$> fs = ids ∧ Forall (λ f, fill_quantity f = 10%Z) fs.
Proof.
  intros Hok Ha Hne Hty. set (o := make_limit id Buy 100 (10 * Z.of_nat (length ids))).
  assert (0 < length ids) as Hpos by (destruct ids; [done|cbn; lia]).
  destruct (submit_spec NumLevels MaxOrders 1 0 e o out Hok) as (r&e'&out'&Hs&Hok'&Hspec);
    [by apply typed_limit|done|].
  destruct (match_sells o k ids) as (fs&Em&H1&H2); [done..|].
  assert (length fs = length ids) as Hfs by by rewrite <- H1, length_fmap.
  exists e', fs. rewrite Hs. rewrite Ha in Hspec. unfold spec_submit, spec_take, a_step_id in Hspec.
  change (ord_symbol o) with 1%Z in Hspec. change (ord_side o) with Buy in Hspec.
  change (ord_quantity o) with (10 * Z.of_nat (length ids))%Z in Hspec.
  change (opposite Buy) with Sell in Hspec. change (ord_tif o) with Day in Hspec.
  rewrite (bool_decide_eq_false_2 (Day = FOK)), (proj2 (Z.leb_gt _ _)) in Hspec by done || lia.
  cbn [Z.eqb Pos.eqb negb andb a_side a_asks a_next] in Hspec. rewrite Em in Hspec.
  cbn [Z.ltb Z.compare andb a_with a_bids a_asks a_next] in Hspec. rewrite Hfs in Hspec.
  apply pair_equal_spec in Hspec as [[<- E]%pair_equal_spec <-]. rewrite <- E. done.
Qed.

(** ** Iterations *)

(** The book holds the sells [ids] at 100; the next match is number [k]. *)
Definition at_rest (s : bench) (ids : list Z) (k : Z) : Prop :=
  engine_ok (engine s) ∧ abs_of (engine s) = mkAbs [] (sell <$> ids) k.

Definition rested_sell : NewOrderResult := mkNewOrderResult RejNone 0 true 10.
Definition filled_buy (n : nat) : NewOrderResult := mkNewOrderResult RejNone n false 0.

Lemma next_sell s ids k :
  at_rest s ids k → next_id s ∉ ids → length ids < MaxOrders →
  ∃ s', submit_next Sell 10 s = (rested_sell, s') ∧ at_rest s' (ids ++ [next_id s]) k ∧
    next_id s' = u64 (next_id s + 1) ∧ fills s' = fills s.
Proof.
  intros [Hok Ha] Hid Hlen. unfold submit_next. fold (sell (next_id s)).
  destruct (submit_sell _ _ _ _ (fills s) Hok Ha Hid Hlen) as (e'&->&Hok'&Ha').
  eexists. split; [done|]. by split_and!.
Qed.

Lemma next_buy s ids k :
  at_rest s ids k → ids ≠ [] → is_i64 (10 * Z.of_nat (length ids)) →
  ∃ s' fs, submit_next Buy (10 * Z.of_nat (length ids)) s = (filled_buy (length ids), s') ∧
    at_rest s' [] (u64 (k + Z.of_nat (length ids))) ∧
    next_id s' = u64 (next_id s + 1) ∧ fills s' = fills s ++ fs ∧
    resting_order_id <$> fs = ids ∧ Forall (λ f, fill_quantity f = 10%Z) fs.
Proof.
  intros [Hok Ha] Hne Hty. unfold submit_next.
  destruct (submit_buy _ (next_id s) _ _ (fills s) Hok Ha Hne Hty) as (e'&fs&->&Hok'&Ha'&H1&H2).
  eexists _, fs. split; [done|]. by split_and!.
Qed.

Lemma crossing_step s id k :
  at_rest s [id] k →
  ∃ s', crossing s = ([filled_buy 1; rested_sell], s') ∧
    at_rest s' [u64 (next_id s + 1)] (u64 (k + 1)) ∧
    resting_order_id <$> fills s' = [id] ∧ Forall (λ f, fill_quantity f = 10%Z) (fills s').
Proof.
  intros Hr. unfold crossing.
  destruct (next_buy (clear s) [id] k) as (s1&fs&E1&Hr1&Hn1&Hf1&H1&H2);
    [done|done|unfold is_i64; cbn; lia|].
  change (10 * Z.of_nat (length [id]))%Z with 10%Z in E1. rewrite E1.
  destruct (next_sell s1 [] _ Hr1) as (s2&E2&Hr2&_&Hf2); [set_solver|done|]. rewrite E2.
  exists s2. rewrite Hn1 in Hr2. rewrite Hf2, Hf1. by split_and!.
Qed.

(** Sells with consecutive ids, however the counter wraps. *)
Definition ids_from (id : Z) (n : nat) : list Z := (λ j, u64 (id + Z.of_nat j)) <$> seq 0 n.

Lemma ids_from_S id n : ids_from id (S n) = ids_from id n ++ [u64 (id + Z.of_nat n)].
Proof. unfold ids_from. by rewrite seq_S, fmap_app. Qed.

Lemma ids_from_fresh id n : (Z.of_nat n < 2 ^ 64)%Z → u64 (id + Z.of_nat n) ∉ ids_from id n.
Proof.
  intros Hn (j&E&Hj%elem_of_seq)%list_elem_of_fmap. unfold u64 in E.
  assert ((Z.of_nat n - Z.of_nat j) mod 2 ^ 64 = 0)%Z as Hz.
  { replace (Z.of_nat n - Z.of_nat j)%Z with ((id + Z.of_nat n) - (id + Z.of_nat j))%Z by lia.
    rewrite Zminus_mod, E, Z.sub_diag. done. }
  rewrite Z.mod_small in Hz by lia. lia.
Qed.

Lemma rest_sells_step id m j s k :
  at_rest s (ids_from id j) k → next_id s = u64 (id + Z.of_nat j) →
  j + m ≤ MaxOrders → (Z.of_nat MaxOrders < 2 ^ 64)%Z →
  ∃ s', rest_sells m s = (replicate m rested_sell, s') ∧ at_rest s' (ids_from id (j + m)) k.
Proof.
  revert j s. induction m as [|m IH]; intros j s Hr Hn Hle Hcap; cbn [rest_sells replicate].
  { exists s. by rewrite Nat.add_0_r. }
  destruct (next_sell s _ k Hr) as (s1&->&Hr1&Hn1&_).
  - rewrite Hn. apply ids_from_fresh. lia.
  - unfold ids_from. rewrite length_fmap, length_seq. lia.
  - rewrite Hn, <- ids_from_S in Hr1. rewrite Hn, u64_add_l in Hn1.
    destruct (IH (S j) s1 Hr1) as (s2&->&Hr2); [|lia|done|].
    + rewrite Hn1. f_equal. lia.
    + exists s2. split; [done|]. by replace (j + S m) with (S j + m) by lia.
Qed.

Lemma sweep_step n s k :
  0 < n ≤ MaxOrders → (Z.of_nat MaxOrders ≤ 2 ^ 32 - 1)%Z → at_rest s [] k → is_u64 (next_id s) →
  ∃ s', sweep n s = (replicate n rested_sell ++ [filled_buy n], s') ∧
    at_rest s' [] (u64 (k + Z.of_nat n)) ∧ is_u64 (next_id s') ∧
    length (fills s') = n ∧ Forall (λ f, fill_quantity f = 10%Z) (fills s').
Proof.
  intros Hn Hcap Hr Hid. unfold sweep.
  destruct (rest_sells_step (next_id s) n 0 (clear s) k) as (s1&->&Hr1); [done| |lia|lia|].
  { cbn. by rewrite Z.add_0_r, u64_id. }
  cbn [Nat.add] in Hr1. set (ids := ids_from (next_id s) n) in *.
  assert (length ids = n) as Hlen by (unfold ids, ids_from; by rewrite length_fmap, length_seq).
  destruct (next_buy (clear s1) ids k) as (s2&fs&E&Hr2&Hn2&Hf&H1&H2);
    [done|by intros E; rewrite E in Hlen; cbn in Hlen; lia|unfold is_i64; lia|].
  rewrite Hlen in *. rewrite E. exists s2. split; [done|]. split; [done|].
  split; [rewrite Hn2; apply u64_range|]. rewrite Hf. cbn [clear fills app].
  split; [|done]. rewrite <- Hlen, <- H1. by rewrite length_fmap.
Qed.

Lemma start_at_rest :
  (Z.of_nat NumLevels < 2 ^ 63)%Z → (Z.of_nat MaxOrders ≤ 2 ^ 32 - 1)%Z → at_rest start [] 1.
Proof.
  intros H1 H2. assert (geometry NumLevels 0) as Hg by (unfold geometry, is_i64; lia).
  split; [by apply create_engine_ok|]. unfold abs_of. cbn. by rewrite !create_queue.
Qed.

(** A loop whose body keeps [I] and always returns [r]. *)
Lemma iterations_const {A R : Type} (I : A → Prop) (f : A → R * A) r n a :
  (∀ a, I a → ∃ a', f a = (r, a') ∧ I a') → I a →
  ∃ a', iterations n f a = (replicate n r, a') ∧ I a'.
Proof.
  intros Hf. revert a. induction n as [|n IH]; intros a Ha; cbn [iterations replicate]; [eauto|].
  destruct (Hf a Ha) as (a1&->&H1). destruct (IH a1 H1) as (a2&->&H2). eauto.
Qed.

(** A buy that meets no ask rests, and its cancel empties the book again. *)
Lemma non_crossing_step s k :
  at_rest s [] k →
  ∃ s', non_crossing s = (rested_sell, true, s') ∧ at_rest s' [] k ∧ fills s' = fills s.
Proof.
  intros [Hok Ha]. unfold non_crossing. set (o := make_limit (next_id s) Buy 100 10).
  destruct (submit_spec NumLevels MaxOrders 1 0 (engine s) o (fills s) Hok)
    as (r&e'&out'&->&Hok'&Hspec); [by apply typed_limit|done|].
  assert (is_u64 k) as Hk.
  { pose proof (eo_next _ _ _ _ _ Hok) as Hk.
    change (next_match_id (engine s)) with (a_next (abs_of (engine s))) in Hk. by rewrite Ha in Hk. }
  assert (can_rest NumLevels MaxOrders 0 (mkAbs [] [] k) (set_remaining 10 o) = true) as Hc.
  { unfold can_rest. change (ord_price (set_remaining 10 o)) with 100%Z.
    rewrite price_in_range, bool_decide_eq_true_2 by (cbn; set_solver).
    by apply (proj2 (Nat.ltb_lt 0 MaxOrders)). }
  rewrite Ha in Hspec. unfold spec_submit, spec_take, a_step_id in Hspec.
  change (ord_symbol o) with 1%Z in Hspec. change (ord_side o) with Buy in Hspec.
  change (ord_quantity o) with 10%Z in Hspec. change (opposite Buy) with Sell in Hspec.
  change (ord_tif o) with Day in Hspec. rewrite (bool_decide_eq_false_2 (Day = FOK)) in Hspec by done.
  cbn [Z.eqb Pos.eqb negb andb Z.leb Z.compare a_side a_bids a_asks a_next spec_match a_with length
    fmap list_fmap] in Hspec.
  change (Z.of_nat 0) with 0%Z in Hspec. rewrite Z.add_0_r, u64_id, Hc in Hspec by done.
  rewrite !bool_decide_eq_true_2 in Hspec by done.
  cbn [Z.ltb Z.compare andb BookSpec.insert] in Hspec. rewrite app_nil_r in Hspec.
  apply pair_equal_spec in Hspec as [[<- E]%pair_equal_spec <-]. symmetry in E.
  destruct (cancel_spec NumLevels MaxOrders 1 0 e' (next_id s) Hok') as (c&e2&->&Hok2&Hcs).
  unfold spec_cancel, a_find, a_remove, BookSpec.remove in Hcs. rewrite E in Hcs.
  cbn in Hcs. rewrite Z.eqb_refl in Hcs. cbn in Hcs.
  apply pair_equal_spec in Hcs as [<- E2]. eexists. split; [done|]. split; [|done].
  split; [done|]. symmetry. exact E2.
Qed.

(** What the benchmarks measure: for any number of iterations, every
    crossing iteration gets one fill and rests one order again, every sweep
    rests its orders and then fills exactly those, and every non-crossing
    iteration rests an order and cancels it.  No iteration is refused, and
    none leaves anything behind for the next. *)
Theorem engine_iterations_exact n m :
  (Z.of_nat NumLevels < 2 ^ 63)%Z → (Z.of_nat MaxOrders ≤ 2 ^ 32 - 1)%Z → 0 < m ≤ MaxOrders →
  (bench_submit_crossing_single_fill n).1 = replicate n [filled_buy 1; rested_sell] ∧
  (iterations n (sweep m) start).1 = replicate n (replicate m rested_sell ++ [filled_buy m]) ∧
  (bench_submit_non_crossing_then_cancel n).1 = replicate n (rested_sell, true).
Proof.
  intros H1 H2 Hm. pose proof (start_at_rest H1 H2) as H0. split_and!.
  - destruct (next_sell start [] 1 H0) as (s1&E&Hr1&_); [set_solver|done|].
    unfold bench_submit_crossing_single_fill. rewrite E. cbn [snd].
    destruct (iterations_const (λ s, ∃ id k, at_rest s [id] k) crossing
      [filled_buy 1; rested_sell] n s1) as (s2&->&_); [|by do 2 eexists|done].
    intros s (id&k&Hr). destruct (crossing_step s id k Hr) as (s'&E'&Hr'&_). eauto.
  - destruct (iterations_const (λ s, (∃ k, at_rest s [] k) ∧ is_u64 (next_id s)) (sweep m)
      (replicate m rested_sell ++ [filled_buy m]) n start) as (s2&->&_);
      [|split; [by eexists|unfold is_u64; cbn; lia]|done].
    intros s [[k Hr] Hid]. destruct (sweep_step m s k Hm H2 Hr Hid) as (s'&E'&Hr'&Hid'&_). eauto 10.
  - unfold bench_submit_non_crossing_then_cancel.
    destruct (iterations_const (λ s, ∃ k, at_rest s [] k) non_crossing (rested_sell, true) n start)
      as (s2&->&_); [|by eexists|done].
    intros s [k Hr]. destruct (non_crossing_step s k Hr) as (s'&E'&Hr'&_). eauto.
Qed.

End benchmarks.

Lemma engine_iterations_exact_witness :
  (bench_submit_crossing_single_fill (M := gmap Z nat) 128 4 2).1 =
    replicate 2 [filled_buy 1; rested_sell] ∧
  (iterations 2 (sweep 128 3) (start (M := gmap Z nat) 128 4)).1 =
    replicate 2 (replicate 3 rested_sell ++ [filled_buy 3]).
Proof.
  destruct (engine_iterations_exact 128 4 (M := gmap Z nat)) with (n := 2) (m := 3)
    as (H1&H2&_); [lia..|]. split; [exact H1|exact H2].
Defined.

End BenchEngine.
