(* ===== verification/BenchBook.v ===== *)
(** * The order book benchmarks (src/bench/bench_order_book.cpp)

    The book is driven without an engine: an order added and cancelled
    again, the best bid queried in a populated book, and bids spread over
    many levels cancelled in the order they were added. *)

From S2P Require Import Prelude Types Bitmap SlabPool Level HashMap Ladder OrderBook.
From S2P Require Import BookSpec Matching MatchSpec Liquidity Exchange.
From stdpp Require Import base tactics numbers list sets gmap.

Set Default Goal Selector "!".

Module BenchBook.
Import OrderBook.

Definition make_order (id : Z) (side : Side) (price qty : Z) : Order :=
  mkOrder id 1 1 (side_code side) Limit Day price qty qty 0 0.

Definition kChurnLevels : nat := N.to_nat 2048.

Section benchmarks.
Context (NumLevels MaxOrders : nat).
Context {M : Type} `{!HashMap Z nat M}.
Implicit Types (b : OrderBook.t M).

Definition start : OrderBook.t M := create NumLevels MaxOrders 1 0.

(** One iteration of [bench_add_cancel_same_level]. *)
Definition add_cancel b : (AddError + Z) * (CancelError + unit) * OrderBook.t M :=
  let '(added, b) := add NumLevels b (make_order 1 Buy 100 10) in
  let '(cancelled, b) := cancel b 1 in
  (added, cancelled, b).

(** The [i]-th order of the loops over levels. *)
Definition level_order (i : nat) : Order := make_order (Z.of_nat i + 1) Buy (Z.of_nat i) 10.

(** [for (i = from; i < from + n; ++i) book.add(make_order(i + 1, Buy, i, 10))] *)
Fixpoint add_levels (from n : nat) b : list (AddError + Z) * OrderBook.t M :=
  match n with
  | O => ([], b)
  | S n =>
      let '(r, b) := add NumLevels b (level_order from) in
      let '(rs, b) := add_levels (S from) n b in (r :: rs, b)
  end.

(** [n] orders, 1000 in the benchmark, and the query. *)
Definition bench_best_bid_query (n : nat) : option Z :=
  best_bid (add_levels 0 n start).2.

Fixpoint cancel_all (ids : list Z) b : list (CancelError + unit) * OrderBook.t M :=
  match ids with
  | [] => ([], b)
  | id :: ids =>
      let '(r, b) := cancel b id in
      let '(rs, b) := cancel_all ids b in (r :: rs, b)
  end.

(** [*result], which is undefined on an error. *)
Fixpoint values (rs : list (AddError + Z)) : option (list Z) :=
  match rs with
  | [] => Some []
  | inr id :: rs => ids ← values rs; Some (id :: ids)
  | inl _ :: _ => None
  end.

(** One iteration of [bench_churn_across_levels] over [n] levels. *)
Definition churn (n : nat) b : option (list (CancelError + unit) * OrderBook.t M) :=
  let '(rs, b) := add_levels 0 n b in
  ids ← values rs;
  Some (cancel_all ids b).

Definition iterate {A : Type} (n : nat) (body : OrderBook.t M → option (A * OrderBook.t M)) b
    : option (list A * OrderBook.t M) :=
  Nat.iter n (λ s, '(log, b) ← s; '(r, b) ← body b; Some (log ++ [r], b)) (Some ([], b)).

Definition bench_add_cancel_same_level (n : nat) :=
  iterate n (λ b, let '(added, cancelled, b) := add_cancel b in Some ((added, cancelled), b)) start.

Definition bench_churn_across_levels (n : nat) := iterate n (churn kChurnLevels) start.

(** ** A book of bids *)

Context `{!HashMapLaws Z nat M}.

Abbreviation queue := (OrderBook.queue NumLevels MaxOrders).

(** The bids are [q], best first, and there are no asks. *)
Definition bids b (q : list Order) : Prop :=
  OrderBook.ok NumLevels MaxOrders b ∧ base_price b = 0%Z ∧ queue b Buy = q ∧ queue b Sell = [].

Lemma bids_start :
  (Z.of_nat NumLevels < 2 ^ 63)%Z → 0 < MaxOrders → (Z.of_nat MaxOrders ≤ 2 ^ 32 - 1)%Z →
  bids start [].
Proof.
  intros H1 H2 H3. split; [|split; [reflexivity|split; apply Exchange.create_queue]].
  assert (geometry NumLevels 0) as Hg by (unfold geometry, is_i64; lia).
  do 4 eexists. by apply book_create_rep.
Qed.

Lemma bids_add b q id price :
  bids b q → id ∉ ord_id <$> q → (0 ≤ price < Z.of_nat NumLevels)%Z →
  (Z.of_nat NumLevels < 2 ^ 63)%Z → length q < MaxOrders →
  ∃ b', add NumLevels b (make_order id Buy price 10) = (inr id, b') ∧
    bids b' (BookSpec.insert Buy (make_order id Buy price 10) q).
Proof.
  intros ((F&L&G&Q&Hr)&Hb&Hq&Hs) Hid Hp Hn Hlen. set (o := make_order id Buy price 10).
  pose (e := Matching.mk b 1).
  assert (add_verdict NumLevels b o = None) as Hv.
  { apply (bool_decide_eq_true_1 (add_verdict NumLevels b o = None)).
    change b with (Matching.book e) in Hr |- *.
    rewrite <- (Exchange.verdict_can_rest _ _ e _ _ _ _ o Hr); [|unfold is_i64; cbn; lia|done|done].
    unfold Exchange.can_rest, Exchange.in_range, Exchange.a_orders, Exchange.abs_of.
    cbn [Exchange.a_bids Exchange.a_asks Matching.book e]. rewrite Hb, Hq, Hs, app_nil_r.
    change (ord_price o) with price. change (ord_id o) with id.
    rewrite (proj2 (Z.leb_le _ _)), (proj2 (Z.ltb_lt _ _)), bool_decide_eq_true_2 by done || lia.
    by apply Nat.ltb_lt. }
  destruct (BookSpec.add_queue _ _ _ _ _ _ _ o Hr) as (b'&F'&L'&G'&Q'&->&Hr'&_&Eb&_&Eq&Eo);
    [unfold is_i64; cbn; lia|unfold is_i64; cbn; lia|done|].
  exists b'. split; [done|]. change (ord_side o) with Buy in *. change (opposite Buy) with Sell in Eo.
  split_and!; [by do 4 eexists|congruence|by rewrite Eq, Hq|congruence].
Qed.

Lemma bids_cancel b q o :
  bids b q → o ∈ q →
  ∃ b', cancel b (ord_id o) = (inr tt, b') ∧ bids b' (BookSpec.remove (ord_id o) q).
Proof.
  intros ((F&L&G&Q&Hr)&Hb&Hq&Hs) Ho. rewrite <- Hq in Ho.
  destruct (Exchange.queue_find _ _ _ _ _ _ _ _ _ Hr Ho) as (p&Hf&_).
  destruct (BookSpec.cancel_queue _ _ _ _ _ _ _ _ p Hr Hf) as
    (b'&F'&L'&G'&Q'&s&A&o'&B&->&Hr'&_&Eb&_&_&_&_&_&_&Eq&_&Er&Eo).
  assert (s = Buy) as -> by (destruct s; [done|]; rewrite Hs in Eq; by destruct A).
  change (opposite Buy) with Sell in Eo.
  exists b'. split; [done|]. split_and!; [by do 4 eexists|congruence|congruence|congruence].
Qed.

(** ** The loops *)

(** Each new bid is the best, so the queue is the levels downwards. *)
Definition ladder_of (from n : nat) : list Order := level_order <$> reverse (seq from n).

Lemma ladder_ids from n id :
  id ∈ ord_id <$> ladder_of from n ↔ ∃ i, from ≤ i < from + n ∧ id = (Z.of_nat i + 1)%Z.
Proof.
  unfold ladder_of. rewrite <- list_fmap_compose, list_elem_of_fmap. setoid_rewrite elem_of_reverse.
  setoid_rewrite elem_of_seq. naive_solver.
Qed.

Lemma ladder_of_S from n :
  ladder_of from (S n) = level_order (from + n) :: ladder_of from n.
Proof. unfold ladder_of. by rewrite seq_S, reverse_app. Qed.

Lemma insert_level n :
  BookSpec.insert Buy (level_order n) (ladder_of 0 n) = ladder_of 0 (S n).
Proof.
  rewrite ladder_of_S. apply (BookSpec.insert_split Buy _ []); [done|].
  apply Forall_fmap, Forall_forall. intros i Hi%elem_of_reverse%elem_of_seq. cbn. apply Z.ltb_lt. lia.
Qed.

Definition level_ids (from n : nat) : list Z := (λ i, (Z.of_nat i + 1)%Z) <$> seq from n.

Lemma add_levels_ok from n b :
  bids b (ladder_of 0 from) → from + n ≤ NumLevels → from + n ≤ MaxOrders →
  (Z.of_nat NumLevels < 2 ^ 63)%Z →
  ∃ b', add_levels from n b = (inr <$> level_ids from n, b') ∧
    bids b' (ladder_of 0 (from + n)).
Proof.
  revert from b. induction n as [|n IH]; intros from b Hb H1 H2 H3; cbn [add_levels seq].
  { exists b. by rewrite Nat.add_0_r. }
  destruct (bids_add b _ (Z.of_nat from + 1) (Z.of_nat from) Hb) as (b1&E1&Hb1).
  - rewrite ladder_ids. intros (i&Hi&E). lia.
  - lia.
  - done.
  - unfold ladder_of. rewrite length_fmap, length_reverse, length_seq. lia.
  - unfold level_order at 1. rewrite E1. fold (level_order from) in Hb1. rewrite insert_level in Hb1.
    destruct (IH (S from) b1 Hb1) as (b2&->&Hb2); [lia|lia|done|].
    exists b2. split; [done|]. by replace (from + S n) with (S from + n) by lia.
Qed.

Lemma remove_level from n :
  BookSpec.remove (Z.of_nat from + 1) (ladder_of from (S n)) = ladder_of (S from) n.
Proof.
  unfold ladder_of. rewrite <- cons_seq. rewrite reverse_cons, fmap_app.
  rewrite <- (app_nil_r (_ <$> reverse (seq (S from) n))) at 2.
  apply (BookSpec.remove_split _ _ (level_order from)); [done| |done].
  apply Forall_fmap, Forall_forall. intros i Hi%elem_of_reverse%elem_of_seq. cbn. lia.
Qed.

Lemma cancel_all_ok from n b :
  bids b (ladder_of from n) →
  ∃ b', cancel_all (level_ids from n) b = (replicate n (inr tt), b') ∧
    bids b' [].
Proof.
  revert from b. induction n as [|n IH]; intros from b Hb.
  { by exists b. }
  destruct (bids_cancel b _ (level_order from) Hb) as (b1&E1&Hb1).
  { unfold ladder_of. apply list_elem_of_fmap_2, elem_of_reverse, elem_of_seq. lia. }
  change (ord_id (level_order from)) with (Z.of_nat from + 1)%Z in E1, Hb1.
  unfold level_ids. rewrite <- cons_seq, fmap_cons. fold (level_ids (S from) n).
  cbn [cancel_all]. rewrite E1.
  rewrite remove_level in Hb1. destruct (IH (S from) b1 Hb1) as (b2&E2&Hb2).
  rewrite E2. by exists b2.
Qed.

Lemma values_inr (ids : list Z) : values (inr <$> ids) = Some ids.
Proof.
  induction ids as [|id ids IH]; [done|]. rewrite fmap_cons. cbn [values]. by rewrite IH.
Qed.

(** Over any number of levels the book has room for, one churn iteration
    adds every order, cancels every order, and leaves the book empty. *)
Lemma level_churn_ok n b :
  bids b [] → n ≤ NumLevels → n ≤ MaxOrders → (Z.of_nat NumLevels < 2 ^ 63)%Z →
  ∃ b', churn n b = Some (replicate n (inr tt), b') ∧ bids b' [].
Proof.
  intros Hb H1 H2 H3. unfold churn.
  destruct (add_levels_ok 0 n b Hb) as (b1&->&Hb1); [done..|]. cbn [Nat.add] in Hb1.
  rewrite values_inr. cbn [mbind option_bind].
  destruct (cancel_all_ok 0 n b1 Hb1) as (b2&E&Hb2). rewrite E. eauto.
Qed.

Lemma add_cancel_ok b :
  bids b [] → 100 < NumLevels → (Z.of_nat NumLevels < 2 ^ 63)%Z → 0 < MaxOrders →
  ∃ b', add_cancel b = (inr 1%Z, inr tt, b') ∧ bids b' [].
Proof.
  intros Hb H1 H2 H3. unfold add_cancel.
  destruct (bids_add b [] 1 100 Hb) as (b1&->&Hb1); [set_solver|lia|done|done|].
  destruct (bids_cancel b1 _ (make_order 1 Buy 100 10) Hb1) as (b2&E&Hb2); [set_solver|].
  change (ord_id (make_order 1 Buy 100 10)) with 1%Z in E. rewrite E. by exists b2.
Qed.

Lemma iterate_const {A : Type} (I : OrderBook.t M → Prop) body (r : A) n b :
  (∀ b, I b → ∃ b', body b = Some (r, b') ∧ I b') → I b →
  ∃ b', iterate n body b = Some (replicate n r, b') ∧ I b'.
Proof.
  intros Hf Hb. unfold iterate. induction n as [|n (b1&E&H1)]; [by exists b|].
  rewrite Nat.iter_succ, E. cbn [mbind option_bind]. destruct (Hf b1 H1) as (b2&->&H2).
  cbn [mbind option_bind]. exists b2. split; [|done]. by rewrite replicate_S_end.
Qed.

(** What the book benchmarks measure: the best bid query finds the highest
    of the prices added; and for any number of iterations every add and
    every cancel of the other two succeeds, across all [levels] of the
    churn, with the book empty at the end. *)
Theorem book_iterations_exact n levels :
  (Z.of_nat NumLevels < 2 ^ 63)%Z → (Z.of_nat MaxOrders ≤ 2 ^ 32 - 1)%Z →
  100 < NumLevels → 0 < levels ≤ NumLevels → levels ≤ MaxOrders →
  bench_best_bid_query levels = Some (Z.of_nat levels - 1)%Z ∧
  (∃ b, bench_add_cancel_same_level n = Some (replicate n (inr 1%Z, inr tt), b) ∧ bids b []) ∧
  (∃ b, iterate n (churn levels) start = Some (replicate n (replicate levels (inr tt)), b) ∧
    bids b []).
Proof.
  intros H1 H2 H3 H4 H5. assert (bids start []) as H0 by (apply bids_start; lia). split_and!.
  - unfold bench_best_bid_query. destruct (add_levels_ok 0 levels start H0) as (b&->&Hb); [lia..|].
    destruct Hb as ((F&L&G&Q&Hr)&_&Hq&_). cbn [Nat.add snd] in *.
    pose proof (BookSpec.best_front _ _ _ _ _ _ _ Buy Hr) as Hf. rewrite Hq in Hf.
    destruct levels as [|k]; [lia|]. rewrite ladder_of_S in Hf. destruct Hf as [Hf _].
    unfold best_bid. rewrite Hf. cbn. f_equal. lia.
  - apply (iterate_const (λ b, bids b [])); [|done]. intros b Hb.
    destruct (add_cancel_ok b Hb) as (b'&->&Hb'); [lia..|]. eauto.
  - apply (iterate_const (λ b, bids b [])); [|done]. intros b Hb. apply level_churn_ok; lia || done.
Qed.

End benchmarks.

Lemma book_iterations_exact_witness :
  bench_best_bid_query (M := gmap Z nat) 128 8 5 = Some 4%Z ∧
  ∃ b, iterate 2 (churn 128 5) (start (M := gmap Z nat) 128 8) =
    Some (replicate 2 (replicate 5 (inr tt)), b).
Proof.
  destruct (book_iterations_exact 128 8 (M := gmap Z nat) 2 5) as (H1&_&b&H2&_); [lia..|].
  split; [exact H1|]. exists b. exact H2.
Defined.

End BenchBook.
