(* ===== verification/Engine.v ===== *)
(** * What the matching engine guarantees

    Commands, runs and reachable engines, and the properties that hold in
    every reachable state: the operations refine the abstract exchange, the
    book never crosses, quantity is conserved, fills follow price-time
    priority, fill-or-kill is all-or-nothing, the match loop ends because
    its condition fails, match ids are consecutive. *)

From S2P Require Import Prelude Types Bitmap SlabPool Level HashMap Ladder OrderBook.
From S2P Require Import BookSpec Matching MatchSpec Liquidity Exchange.
From Stdlib Require Import Sorted.
From stdpp Require Import base tactics numbers list sets gmap.

Set Default Goal Selector "!".

Module Engine.
Import Level OrderBook Matching MatchSpec Liquidity Exchange.

(** One call of the engine's interface. *)
Inductive command :=
  | CmdSubmit (order : Order)
  | CmdCancel (id : Z)
  | CmdReplace (id price qty seq ts : Z).

(** The arguments fit their C++ types. *)
Definition cmd_typed (c : command) : Prop :=
  match c with
  | CmdSubmit o => amounts_typed o
  | CmdCancel _ => True
  | CmdReplace _ price qty _ _ => is_i64 price ∧ is_i64 qty
  end.

Section engine.
Context (NumLevels MaxOrders : nat).
Context {M : Type} `{!HashMap Z nat M}.
Implicit Types (e : Matching.t M).

(** The state and the caller's fill vector after one call. *)
Definition exec (e : Matching.t M) (out : list Fill) (c : command) : Matching.t M * list Fill :=
  match c with
  | CmdSubmit o => let '(_, e, out) := submit NumLevels e o out in (e, out)
  | CmdCancel id => ((Matching.cancel e id).2, out)
  | CmdReplace id price qty seq ts =>
      let '(_, e, out) := Matching.replace NumLevels e id price qty seq ts out in (e, out)
  end.

Fixpoint run (e : Matching.t M) (out : list Fill) (cs : list command) : Matching.t M * list Fill :=
  match cs with
  | [] => (e, out)
  | c :: cs => let '(e, out) := exec e out c in run e out cs
  end.

(** Sizes for which the ladder's prices are [int64_t] and the pool's
    indices fit below its end marker. *)
Definition config_ok (base : Z) : Prop :=
  geometry NumLevels base ∧ 0 < MaxOrders ∧ (Z.of_nat MaxOrders ≤ 2 ^ 32 - 1)%Z.

(** Engines that calls can reach from the constructor. *)
Inductive reachable (sym base : Z) : Matching.t M → Prop :=
  | reach_init : reachable sym base (Matching.create NumLevels MaxOrders sym base)
  | reach_step e out c :
      reachable sym base e → cmd_typed c → reachable sym base (exec e out c).1.

Context `{!HashMapLaws Z nat M}.

Abbreviation engine_ok := (Exchange.engine_ok NumLevels MaxOrders).
Abbreviation abs_of := (Exchange.abs_of NumLevels MaxOrders).
Abbreviation spec_submit := (Exchange.spec_submit NumLevels MaxOrders).
Abbreviation spec_replace := (Exchange.spec_replace NumLevels MaxOrders).

Lemma exec_engine_ok sym base e out c :
  engine_ok sym base e → cmd_typed c → engine_ok sym base (exec e out c).1.
Proof.
  intros Hok Hc. destruct c as [o|id|id price qty seq ts]; cbn [exec].
  - by destruct (submit_engine_ok _ _ _ _ _ _ out Hok Hc) as (r&e'&out'&->&?).
  - by destruct (cancel_spec _ _ _ _ _ id Hok) as (r&e'&->&?&_).
  - destruct Hc as [Hp Hq].
    by destruct (replace_spec _ _ _ _ _ id _ _ seq ts out Hok Hp Hq) as (r&e'&out'&->&?&_).
Qed.

Lemma reachable_engine_ok sym base e :
  config_ok base → reachable sym base e → engine_ok sym base e.
Proof.
  intros (Hg&Hm&Hc). induction 1; [by apply create_engine_ok|by apply exec_engine_ok].
Qed.

Lemma reachable_run sym base e out cs :
  reachable sym base e → Forall cmd_typed cs → reachable sym base (run e out cs).1.
Proof.
  intros Hr Hcs. revert e out Hr. induction Hcs as [|c cs Hc Hcs IH]; intros e out Hr; [done|].
  cbn [run]. destruct (exec e out c) as [e' out'] eqn:E. apply IH.
  replace e' with (exec e out c).1 by by rewrite E. by constructor.
Qed.

(** ** Facts about one submit *)

(** What the specification of [submit] says of the volumes. *)
Lemma volume_insert s o q : volume (BookSpec.insert s o q) = (ord_remaining o + volume q)%Z.
Proof.
  induction q as [|x q IH]; cbn [BookSpec.insert]; [done|].
  destruct (BookSpec.better _ _ _); rewrite !volume_cons; [done|]. rewrite IH. lia.
Qed.

Lemma side_with A s s' q :
  a_side (a_with A s q) s' = if decide (s' = s) then q else a_side A s'.
Proof. by destruct s, s'. Qed.

Lemma side_step_id A n s : a_side (a_step_id A n) s = a_side A s.
Proof. by destruct s. Qed.

(** The fills of a [spec_take] and where the remainder went. *)
Lemma spec_take_inv base A order out r A' out' :
  spec_take NumLevels MaxOrders base A order out = (r, A', out') →
  let s := ord_side order in
  ∃ fs rem rest,
    spec_match order (ord_quantity order) (a_next A) (a_side A (opposite s)) = (fs, rem, rest) ∧
    out' = out ++ fs ∧ fill_count r = length fs ∧ remaining_after r = rem ∧
    a_side A' (opposite s) = rest ∧
    a_side A' s = (if rested r then BookSpec.insert s (set_remaining rem order) (a_side A s)
                   else a_side A s) ∧
    a_next A' = u64 (a_next A + Z.of_nat (length fs)) ∧
    (rested r = true → (0 < rem)%Z ∧ ord_type order = Limit ∧ ord_tif order = Day) ∧
    (reject_reason r = RejNone ∨ reject_reason r = BookCapacityExceeded).
Proof.
  intros E s. unfold spec_take in E. fold s in E.
  destruct (spec_match _ _ _ _) as [[fs rem] rest].
  exists fs, rem, rest. split; [done|].
  assert (opposite s ≠ s) as Ho by apply opposite_ne. assert (s ≠ opposite s) as Ho' by done.
  destruct (_ && _ && _) eqn:Hb in E; [destruct (can_rest _ _ _ _ _) in E|];
    injection E as <- <- <-; cbn [fill_count remaining_after rested reject_reason];
    fold s; rewrite ?side_with, ?side_step_id, ?side_with, ?decide_True, ?decide_False by done;
    split_and!; try done; try (by left); try (by right); try (by destruct s).
  bool_to_prop. intros _. cbn in *. done.
Qed.

(** What is left of an order rests exactly if it may and the book takes it. *)
Lemma spec_take_rests base A order out r A' out' :
  spec_take NumLevels MaxOrders base A order out = (r, A', out') →
  rested r = bool_decide (reject_reason r = RejNone) && (0 <? remaining_after r)%Z &&
    bool_decide (ord_type order = Limit) && bool_decide (ord_tif order = Day).
Proof.
  intros E. unfold spec_take in E. destruct (spec_match _ _ _ _) as [[fs rem] rest].
  destruct (_ && _ && _) eqn:Hb in E; [destruct (can_rest _ _ _ _ _) in E|];
    injection E as <- <- <-; cbn [rested reject_reason remaining_after] in *;
    cbn [ord_type ord_tif set_remaining] in Hb; [|done|]; by rewrite bool_decide_eq_true_2.
Qed.

(** Either a check fails and nothing happens, or the order is taken. *)
Lemma submit_inv sym base e order out r e' out' :
  engine_ok sym base e → amounts_typed order →
  submit NumLevels e order out = (r, e', out') →
  engine_ok sym base e' ∧
  ((reject_reason r ∈ [UnknownSymbol; InvalidQuantity; FokNotFillable] ∧ e' = e ∧ out' = out ∧
    fill_count r = 0 ∧ rested r = false ∧ remaining_after r = ord_quantity order) ∨
   (ord_symbol order = sym ∧ (0 < ord_quantity order)%Z ∧ fok_short NumLevels e order = false ∧
    spec_take NumLevels MaxOrders base (abs_of e) order out = (r, abs_of e', out'))).
Proof.
  intros Hok Hty E.
  destruct (decide (ord_symbol order = sym)) as [Hs|Hs];
    [destruct (decide (0 < ord_quantity order)%Z) as [Hq|Hq];
       [destruct (fok_short NumLevels e order) eqn:Hf|]|].
  2: { destruct (submit_take NumLevels MaxOrders sym base e order out) as (r1&e1&out1&E1&?&?); try done.
       rewrite E in E1. injection E1 as -> -> ->. split; [done|]. by right. }
  all: unfold submit in E; rewrite (eo_symbol _ _ _ _ _ Hok) in E.
  - unfold fok_short in Hf. rewrite Hs, Z.eqb_refl, (proj2 (Z.leb_gt _ _)) in E by done.
    rewrite ord_side_remaining in E.
    cbn [negb ord_tif ord_price ord_quantity ord_type set_remaining] in E.
    rewrite Hf in E. injection E as <- <- <-. split; [done|left]. split_and!; try done. set_solver.
  - rewrite Hs, Z.eqb_refl, (proj2 (Z.leb_le _ _)) in E by lia. cbn [negb] in E.
    injection E as <- <- <-. split; [done|left]. split_and!; try done. set_solver.
  - rewrite (proj2 (Z.eqb_neq _ _)) in E by done. cbn [negb] in E.
    injection E as <- <- <-. split; [done|left]. split_and!; try done. set_solver.
Qed.

(** ** What every resting order keeps *)

(** A property of orders that does not depend on the open quantity or the
    terms holds of all resting orders if it holds of the submitted ones. *)
Section keeps.
Context (P : Order → Prop).

Definition all_orders (A : Abs) : Prop := ∀ s o, o ∈ a_side A s → P o.

Definition cmd_keeps (c : command) : Prop :=
  match c with CmdSubmit o => P o | _ => True end.

Lemma all_orders_Forall A : all_orders A ↔ Forall P (a_orders A).
Proof.
  rewrite Forall_forall. unfold a_orders. split.
  - intros H o [Ho|Ho]%elem_of_app; [by apply (H Buy)|by apply (H Sell)].
  - intros H [] o Ho; apply H; set_solver.
Qed.

Lemma a_remove_keeps A id : all_orders A → all_orders (a_remove A id).
Proof. intros HA s o Ho. apply (HA s). by destruct s; cbn in Ho; apply remove_elem in Ho as [? _]. Qed.

Lemma a_find_keeps A id o : all_orders A → a_find A id = Some o → P o.
Proof.
  intros HA Hf. unfold a_find in Hf. apply List.find_some in Hf as [Ho _].
  apply all_orders_Forall in HA. rewrite Forall_forall in HA. by apply HA, list_elem_of_In.
Qed.

Hypothesis P_remaining : ∀ o n, P o → P (set_remaining n o).
Hypothesis P_retermed : ∀ o price qty seq ts, P o → P (retermed o price qty seq ts).

Lemma spec_take_keeps base A order out r A' out' :
  all_orders A → P order → spec_take NumLevels MaxOrders base A order out = (r, A', out') →
  all_orders A'.
Proof.
  intros HA Ho E. destruct (spec_take_inv _ _ _ _ _ _ _ E) as (fs&rem&rest&Em&_&_&_&Eo&Es&_).
  set (s := ord_side order) in *. intros s' o Hx. destruct (decide (s' = s)) as [-> |Hs].
  - rewrite Es in Hx. destruct (rested r); [|by eapply HA].
    apply insert_elem in Hx as [-> |Hx]; [by apply P_remaining|by eapply HA].
  - assert (s' = opposite s) as -> by (by destruct s, s'). rewrite Eo in Hx.
    destruct (spec_match_rest _ _ _ _ _ _ _ _ Em Hx) as (o0&r0&Ho0&->).
    eapply P_remaining, HA, Ho0.
Qed.

Lemma spec_submit_keeps sym base A order out r A' out' :
  all_orders A → P order → spec_submit sym base A order out = (r, A', out') → all_orders A'.
Proof.
  intros HA Ho. unfold Exchange.spec_submit. do 3 (case_match; [by intros [= <- <- <-]|]).
  by apply spec_take_keeps.
Qed.

Lemma exec_keeps sym base e out c :
  engine_ok sym base e → cmd_typed c → cmd_keeps c →
  all_orders (abs_of e) → all_orders (abs_of (exec e out c).1).
Proof.
  intros Hok Hc Hp HA. destruct c as [o|id|id price qty seq ts]; cbn [exec].
  - destruct (submit NumLevels e o out) as [[r e'] out'] eqn:E.
    destruct (submit_inv _ _ _ _ _ _ _ _ Hok Hc E) as [_ [(_&->&_)|(_&_&_&Ht)]]; [done|].
    by eapply spec_take_keeps.
  - destruct (cancel_spec _ _ _ _ _ id Hok) as (r&e'&->&_&E). cbn [snd fst]. unfold spec_cancel in E.
    revert E. generalize (abs_of e'). intros A' E.
    destruct (a_find _ _); injection E as _ <-; [by apply a_remove_keeps|done].
  - destruct Hc as [Hx Hq].
    destruct (replace_spec _ _ _ _ _ id _ _ seq ts out Hok Hx Hq) as (r&e'&out'&->&_&E).
    cbn [fst]. unfold Exchange.spec_replace in E. revert E. generalize (abs_of e'). intros A' E.
    destruct (a_find _ _) as [o|] eqn:Hf; [|by injection E as _ <- _].
    destruct (qty <=? 0)%Z; [by injection E as _ <- _|].
    destruct (negb _); [by injection E as _ <- _|].
    destruct (Exchange.spec_submit _ _ _ _ _ _ _) as [[r1 A1] out1] eqn:E1. injection E as _ <- _.
    eapply spec_submit_keeps; [by apply a_remove_keeps|by eapply P_retermed, a_find_keeps|exact E1].
Qed.

Lemma run_keeps sym base e out cs :
  engine_ok sym base e → Forall cmd_typed cs → Forall cmd_keeps cs →
  all_orders (abs_of e) → all_orders (abs_of (run e out cs).1).
Proof.
  intros Hok Hcs. revert e out Hok. induction Hcs as [|c cs Hc Hcs IH]; intros e out Hok Hk HA; [done|].
  apply Forall_cons in Hk as [Hk1 Hk2].
  pose proof (exec_keeps _ _ _ out c Hok Hc Hk1 HA) as HA1.
  pose proof (exec_engine_ok _ _ _ out c Hok Hc) as Hok1. cbn [run].
  destruct (exec e out c) as [e' out']. by apply IH.
Qed.

End keeps.

Lemma engine_open sym base e s :
  engine_ok sym base e →
  open_ok (a_side (abs_of e) s) ∧ BookSpec.price_sorted s (a_side (abs_of e) s).
Proof.
  intros [(F&L&G&Q&Hr) _ _ _ _ _]. rewrite abs_side. split.
  - by eapply queue_open.
  - by eapply BookSpec.queue_sorted.
Qed.

(** What an accepted order has filled, in terms of the book it met. *)
Lemma submit_fills sym base e order out r e' out' :
  engine_ok sym base e → amounts_typed order →
  submit NumLevels e order out = (r, e', out') →
  reject_reason r ∉ [UnknownSymbol; InvalidQuantity; FokNotFillable] →
  let s := ord_side order in
  ∃ fs, out' = out ++ fs ∧ fill_count r = length fs ∧
    spec_match order (ord_quantity order) (next_match_id e) (a_side (abs_of e) (opposite s)) =
      (fs, remaining_after r, a_side (abs_of e') (opposite s)) ∧
    (0 < ord_quantity order)%Z ∧ fok_short NumLevels e order = false ∧
    a_side (abs_of e') s =
      (if rested r
       then BookSpec.insert s (set_remaining (remaining_after r) order) (a_side (abs_of e) s)
       else a_side (abs_of e) s) ∧
    next_match_id e' = u64 (next_match_id e + Z.of_nat (length fs)) ∧
    (rested r = true → (0 < remaining_after r)%Z ∧ ord_type order = Limit ∧ ord_tif order = Day) ∧
    (reject_reason r = RejNone ∨ reject_reason r = BookCapacityExceeded).
Proof.
  intros Hok Hty E Hrej s.
  destruct (submit_inv _ _ _ _ _ _ _ _ Hok Hty E) as [_ [(?&_)|(_&Hq&Hf&Ht)]]; [done|].
  destruct (spec_take_inv _ _ _ _ _ _ _ Ht) as (fs&rem&rest&Em&->&Hc&<-&<-&Hs&Hn&Hr&Hj).
  exists fs. split_and!; try done; by apply Hr.
Qed.

(** The match loop stops by its own conditions. *)
Lemma stopped_stable b F L G Q n a out fuel :
  OrderBook.rep NumLevels MaxOrders b F L G Q →
  (ord_remaining a = 0%Z ∨
   match OrderBook.queue NumLevels MaxOrders b (opposite (ord_side a)) with
   | [] => True
   | o :: _ => acceptable a (ord_price o) = false
   end) →
  match_loop NumLevels fuel (Matching.mk b n) a out = (Matching.mk b n, a, out).
Proof.
  intros Hr [H0|Hx]; [by apply match_loop_done|].
  destruct fuel as [|fuel]; cbn [match_loop]; [done|]. set (s := opposite (ord_side a)) in *.
  destruct (0 <? ord_remaining a)%Z; [|done]. cbn [book].
  replace (if decide (s = Buy) then best_bid b else best_ask b) with (best_price b s)
    by by destruct s.
  pose proof (BookSpec.best_front _ _ _ _ _ _ _ s Hr) as Hb.
  destruct (OrderBook.queue NumLevels MaxOrders b s) as [|o q]; [by rewrite Hb|].
  destruct Hb as [-> _]. by rewrite acceptable_match, Hx.
Qed.

(** *** Replacing keeps room for the order *)

Lemma spec_match_length a rem id q fs rem' rest :
  spec_match a rem id q = (fs, rem', rest) → length rest ≤ length q.
Proof.
  revert rem id fs rem' rest. induction q as [|x q IH]; intros rem id fs rem' rest; simpl.
  { by intros [= <- <- <-]. }
  destruct (_ && _); [|by intros [= <- <- <-]].
  destruct (spec_match a _ _ q) as [[fs1 r1] rest1] eqn:E. intros [= <- <- <-].
  apply IH in E. unfold reduced. destruct (_ =? _)%Z; simpl; lia.
Qed.

Lemma remove_length id q o :
  o ∈ q → ord_id o = id → length (BookSpec.remove id q) < length q.
Proof.
  intros Ho Hid. unfold BookSpec.remove. induction q as [|x q IH]; [set_solver|]. simpl.
  pose proof (List.filter_length_le (λ o, negb (ord_id o =? id)%Z) q).
  apply elem_of_cons in Ho as [<-|Ho].
  - rewrite Hid, Z.eqb_refl. simpl. lia.
  - specialize (IH Ho). destruct (negb _); simpl; lia.
Qed.

Lemma a_remove_length A id o :
  a_find A id = Some o → length (a_orders (a_remove A id)) < length (a_orders A).
Proof.
  unfold a_find. intros [Ho Hid%Z.eqb_eq]%List.find_some. apply list_elem_of_In in Ho.
  replace (a_orders (a_remove A id)) with (BookSpec.remove id (a_orders A)).
  - by eapply remove_length.
  - unfold a_orders, a_remove, BookSpec.remove. cbn. by rewrite List.filter_app.
Qed.

Lemma a_orders_perm A s : a_orders A ≡ₚ a_side A s ++ a_side A (opposite s).
Proof.
  unfold a_orders. case_side s; cbn [a_side]; [done|]. apply Permutation_app_comm.
Qed.

(** A day limit order with a price on the ladder, an unused id and a free
    slot is never refused. *)
Lemma spec_take_accepts base A order out :
  in_range NumLevels base (ord_price order) = true →
  ord_id order ∉ ord_id <$> a_orders A → length (a_orders A) < MaxOrders →
  reject_reason (spec_take NumLevels MaxOrders base A order out).1.1 = RejNone.
Proof.
  intros Hp Hid Hlen. unfold spec_take. set (s := ord_side order).
  destruct (spec_match _ _ _ _) as [[fs rem] rest] eqn:E.
  destruct (_ && _ && _); [|done]. set (A' := a_step_id _ _).
  assert (a_orders A' ≡ₚ a_side A s ++ rest) as HA'.
  { rewrite (a_orders_perm _ s). unfold A'. rewrite !side_step_id, !side_with.
    rewrite decide_False by (intros Hx; symmetry in Hx; by apply opposite_ne in Hx).
    by rewrite decide_True. }
  assert (can_rest NumLevels MaxOrders base A' (set_remaining rem order) = true) as ->; [|done].
  unfold can_rest. cbn [ord_price ord_id set_remaining]. rewrite Hp. cbn [andb].
  apply andb_true_iff. split.
  - apply bool_decide_eq_true. intros (x&Hx&Hin)%list_elem_of_fmap. apply Hid.
    rewrite HA', elem_of_app in Hin.
    assert (∃ y, y ∈ a_orders A ∧ ord_id y = ord_id order) as (y&Hy&Hyid).
    { destruct Hin as [Hin|Hin].
      - exists x. rewrite (a_orders_perm _ s). split; [set_solver|done].
      - destruct (spec_match_rest _ _ _ _ _ _ _ _ E Hin) as (o0&r0&Ho0&->).
        exists o0. rewrite (a_orders_perm _ s). split; [set_solver|]. by cbn in Hx. }
    apply list_elem_of_fmap. eauto.
  - apply Nat.ltb_lt. rewrite HA', length_app. rewrite (a_orders_perm A s), length_app in Hlen.
    apply spec_match_length in E. unfold s in *. lia.
Qed.

Lemma engine_capacity sym base e :
  engine_ok sym base e → length (a_orders (abs_of e)) ≤ MaxOrders.
Proof.
  intros [(F&L&G&Q&Hr) _ _ _ _ _]. rewrite <- (live_orders _ _ _ _ _ _ _ Hr).
  pose proof (SlabPool.rep_count _ _ _ _ (r_pool _ _ _ _ _ _ _ Hr)). lia.
Qed.

Lemma replace_never_refused sym base e id price qty seq ts out o :
  engine_ok sym base e → is_i64 price → is_i64 qty →
  a_find (abs_of e) id = Some o → (0 < qty)%Z → in_range NumLevels base price = true →
  let '(r, _, _) := Matching.replace NumLevels e id price qty seq ts out in
  rep_accepted r = true ∧ rep_reject_reason r = RejNone.
Proof.
  intros Hok Hp Hq Hf Hpos Hrange.
  destruct (replace_spec NumLevels MaxOrders sym base e id price qty seq ts out Hok Hp Hq)
    as (r&e'&out'&->&_&E). unfold Exchange.spec_replace in E.
  rewrite Hf, Hrange, (proj2 (Z.leb_gt _ _)) in E by done. cbn [negb] in E.
  pose proof (a_remove_length _ _ _ Hf) as Hlen. pose proof (engine_capacity _ _ _ Hok) as Hcap.
  unfold a_find in Hf. apply List.find_some in Hf as [Ho Hid%Z.eqb_eq].
  apply list_elem_of_In in Ho. pose proof (eo_day _ _ _ _ _ Hok) as Hd.
  eapply Forall_forall in Hd as [Hsym Hday]; [|exact Ho].
  pose proof (spec_take_accepts base (a_remove (abs_of e) id)
    (retermed o price qty seq ts) out Hrange) as Hacc.
  unfold Exchange.spec_submit in E. cbn [ord_symbol ord_quantity ord_tif retermed] in E.
  rewrite Hsym, Z.eqb_refl, (proj2 (Z.leb_gt _ _)), Hday in E by done.
  rewrite bool_decide_eq_false_2 in E by done. cbn [negb andb] in E.
  destruct (spec_take _ _ _ _ _ _) as [[r0 A0] out0]. injection E as <- _ _. cbn in *.
  rewrite Hacc; [done| |lia]. rewrite Hid. intros (x&Hx&Hin)%list_elem_of_fmap.
  unfold a_orders in Hin. apply elem_of_app in Hin as [Hin|Hin];
    apply remove_elem in Hin as [_ Hne]; congruence.
Qed.

(** *** Match ids *)

(** [fs] carries the ids that follow [n]. *)
Definition numbered (n : Z) (fs : list Fill) (n' : Z) : Prop :=
  consecutive n (match_id <$> fs) n'.

Lemma spec_match_numbered a rem n q fs rem' rest :
  is_u64 n → spec_match a rem n q = (fs, rem', rest) →
  numbered n fs (u64 (n + Z.of_nat (length fs))).
Proof.
  intros Hn Em. split; [by rewrite length_fmap|]. intros k x Hk.
  apply list_lookup_fmap_Some in Hk as (f&->&Hf). by eapply spec_match_ids.
Qed.

Lemma spec_take_numbered base A order out r A' out' :
  is_u64 (a_next A) →
  spec_take NumLevels MaxOrders base A order out = (r, A', out') →
  ∃ fs, out' = out ++ fs ∧ numbered (a_next A) fs (a_next A').
Proof.
  intros Hn (fs&rem&rest&Em&->&_&_&_&_&->&_)%spec_take_inv. exists fs. split; [done|].
  by eapply spec_match_numbered.
Qed.

Lemma exec_numbered sym base e out c :
  engine_ok sym base e → cmd_typed c →
  ∃ fs, (exec e out c).2 = out ++ fs ∧
    numbered (next_match_id e) fs (next_match_id (exec e out c).1).
Proof.
  intros Hok Hc. pose proof (eo_next _ _ _ _ _ Hok) as Hn.
  assert (∃ fs, out = out ++ fs ∧ numbered (next_match_id e) fs (next_match_id e)) as Hnone.
  { exists []. rewrite app_nil_r. split; [done|]. by apply consecutive_nil. }
  destruct c as [o|id|id price qty seq ts]; cbn [exec].
  - destruct (submit NumLevels e o out) as [[r e'] out'] eqn:E.
    destruct (submit_inv _ _ _ _ _ _ _ _ Hok Hc E) as [_ [(_&->&->&_)|(_&_&_&Ht)]]; [done|].
    by apply spec_take_numbered in Ht.
  - destruct (cancel_spec _ _ _ _ _ id Hok) as (r&e'&->&_&Hs). cbn. unfold spec_cancel in Hs.
    replace (next_match_id e') with (next_match_id e); [done|].
    change (a_next (abs_of e) = a_next (abs_of e')).
    revert Hs. generalize (abs_of e) as A, (abs_of e') as A'. intros A A' Hs.
    destruct (a_find _ _); by injection Hs as _ <-.
  - destruct Hc as [Hp Hq].
    destruct (replace_spec _ _ _ _ _ id _ _ seq ts out Hok Hp Hq) as (r&e'&out'&->&_&Hs). cbn.
    change (∃ fs, out' = out ++ fs ∧ numbered (a_next (abs_of e)) fs (a_next (abs_of e'))).
    change (is_u64 (a_next (abs_of e))) in Hn.
    change (∃ fs, out = out ++ fs ∧ numbered (a_next (abs_of e)) fs (a_next (abs_of e))) in Hnone.
    revert Hs Hn Hnone. generalize (abs_of e) as A, (abs_of e') as A'. intros A A' Hs Hn Hnone.
    unfold Exchange.spec_replace, Exchange.spec_submit in Hs.
    destruct (a_find _ _) as [o|]; [|by injection Hs as _ <- <-].
    destruct (qty <=? 0)%Z; [by injection Hs as _ <- <-|].
    destruct (negb (in_range _ _ _)); [by injection Hs as _ <- <-|].
    destruct (negb _); [by injection Hs as _ <- <-|].
    destruct (ord_quantity _ <=? 0)%Z; [by injection Hs as _ <- <-|].
    destruct (_ && _); [by injection Hs as _ <- <-|].
    destruct (spec_take _ _ _ _ _ _) as [[r0 A0] out0] eqn:Et. injection Hs as _ <- <-.
    by apply spec_take_numbered in Et.
Qed.

Lemma run_numbered sym base e out cs :
  engine_ok sym base e → Forall cmd_typed cs →
  ∃ fs, (run e out cs).2 = out ++ fs ∧
    numbered (next_match_id e) fs (next_match_id (run e out cs).1).
Proof.
  intros Hok Hcs. revert e out Hok. induction Hcs as [|c cs Hc Hcs IH]; intros e out Hok.
  { exists []. rewrite app_nil_r. split; [done|]. apply consecutive_nil, Hok. }
  cbn [run]. pose proof (exec_engine_ok _ _ _ out _ Hok Hc) as Hok'.
  destruct (exec_numbered _ _ _ out _ Hok Hc) as (fs&E1&H1).
  destruct (exec e out c) as [e' out']. cbn in *. subst out'.
  destruct (IH e' (out ++ fs) Hok') as (gs&->&H2).
  exists (fs ++ gs). rewrite app_assoc. split; [done|]. unfold numbered. rewrite fmap_app.
  by eapply consecutive_app.
Qed.

(** ** Properties *)

(** C1: in every reachable engine [submit] computes exactly what the abstract
    exchange does to the two priority queues: same result, same fills, and
    the queues of the new book are the abstract ones.  The bound is needed
    only by fill-or-kill orders, whose pre-check adds level totals in
    [int64_t]. *)
Theorem submit_refines sym base e order out :
  config_ok base → reachable sym base e → amounts_typed order →
  (ord_tif order = FOK →
     (volume (a_side (abs_of e) (opposite (ord_side order))) < 2 ^ 63)%Z) →
  let '(r, e', out') := submit NumLevels e order out in
  spec_submit sym base (abs_of e) order out = (r, abs_of e', out').
Proof.
  intros Hc Hr Hty Hvol. rewrite abs_side in Hvol.
  destruct (submit_spec NumLevels MaxOrders sym base e order out
    (reachable_engine_ok _ _ _ Hc Hr) Hty Hvol) as (r&e'&out'&->&_&?). done.
Qed.

(** C3: in every reachable engine [cancel] removes exactly the order with the
    id from the queues, and changes nothing when there is none. *)
Theorem cancel_refines sym base e id :
  config_ok base → reachable sym base e →
  let '(r, e') := Matching.cancel e id in spec_cancel (abs_of e) id = (r, abs_of e').
Proof.
  intros Hc Hr. destruct (cancel_spec NumLevels MaxOrders sym base e id
    (reachable_engine_ok _ _ _ Hc Hr)) as (r&e'&->&_&?). done.
Qed.

(** C2: in every reachable engine [replace] validates in order and otherwise
    equals cancelling the order and submitting it with the new terms on the
    abstract queues; a replace that passes validation (known id, positive
    quantity, price on the ladder) is never refused, because cancelling first
    frees the slot and the id it needs to rest again. *)
Theorem replace_refines sym base e id price qty seq ts out :
  config_ok base → reachable sym base e → is_i64 price → is_i64 qty →
  let '(r, e', out') := Matching.replace NumLevels e id price qty seq ts out in
  spec_replace sym base (abs_of e) id price qty seq ts out = (r, abs_of e', out') ∧
  (∀ o, a_find (abs_of e) id = Some o → (0 < qty)%Z → in_range NumLevels base price = true →
     rep_accepted r = true ∧ rep_reject_reason r = RejNone).
Proof.
  intros Hc Hr Hp Hq. pose proof (reachable_engine_ok _ _ _ Hc Hr) as Hok.
  pose proof (λ o, replace_never_refused sym base e id price qty seq ts out o Hok Hp Hq) as Hacc.
  destruct (replace_spec NumLevels MaxOrders sym base e id price qty seq ts out Hok Hp Hq)
    as (r&e'&out'&E&_&?). rewrite E in *. done.
Qed.

(** C7: a reachable book is never crossed nor locked: the best bid is strictly
    below the best ask. *)
Theorem never_crossed sym base e bid ask :
  config_ok base → reachable sym base e →
  best_bid (book e) = Some bid → best_ask (book e) = Some ask → (bid < ask)%Z.
Proof.
  intros Hc Hr Hb Ha. destruct (reachable_engine_ok _ _ _ Hc Hr) as [(F&L&G&Q&Hrep) _ _ _ Hu _].
  pose proof (BookSpec.best_front _ _ _ _ _ _ _ Buy Hrep) as H1.
  pose proof (BookSpec.best_front _ _ _ _ _ _ _ Sell Hrep) as H2.
  unfold best_bid in Hb. unfold best_ask in Ha. unfold uncrossed in Hu. cbn in Hu.
  destruct (OrderBook.queue _ _ _ Buy) as [|o q]; [congruence|].
  destruct (OrderBook.queue _ _ _ Sell) as [|o' q']; [congruence|].
  destruct H1 as [H1 _], H2 as [H2 _]. simplify_eq. apply Hu; set_solver.
Qed.

(** C8: quantity is conserved by [submit].  What an order asked for is what it
    filled plus what is left of it; the other side of the book lost exactly
    the filled volume; its own side gained exactly the rested remainder. *)
Theorem submit_conserves sym base e order out r e' out' :
  config_ok base → reachable sym base e → amounts_typed order →
  submit NumLevels e order out = (r, e', out') →
  let s := ord_side order in
  ∃ fs, out' = out ++ fs ∧ fill_count r = length fs ∧
    (ord_quantity order = filled fs + remaining_after r)%Z ∧
    (volume (a_side (abs_of e) (opposite s)) =
       filled fs + volume (a_side (abs_of e') (opposite s)))%Z ∧
    (volume (a_side (abs_of e') s) =
       volume (a_side (abs_of e) s) + (if rested r then remaining_after r else 0))%Z.
Proof.
  intros Hc Hr Hty E s. pose proof (reachable_engine_ok _ _ _ Hc Hr) as Hok.
  destruct (decide (reject_reason r ∈ [UnknownSymbol; InvalidQuantity; FokNotFillable])) as [Hj|Hj].
  - destruct (submit_inv _ _ _ _ _ _ _ _ Hok Hty E) as [_ [(_&->&->&Hc0&->&->)|(_&_&_&Ht)]].
    + exists []. rewrite app_nil_r. cbn. split_and!; try done; lia.
    + destruct (spec_take_inv _ _ _ _ _ _ _ Ht) as (?&?&?&?&?&?&?&?&?&?&?&[Hx|Hx]);
        rewrite Hx in Hj; set_solver.
  - destruct (submit_fills _ _ _ _ _ _ _ _ Hok Hty E Hj) as (fs&->&Hn&Hm&_&_&Hs&_&_&_).
    exists fs. destruct (spec_match_conserves _ _ _ _ _ _ _ Hm) as [H1 H2].
    split_and!; try done. fold s in Hs. rewrite Hs. destruct (rested r); [|lia].
    rewrite volume_insert. cbn. lia.
Qed.

(** C9: price-time priority.  The k-th fill of a submit is against the k-th
    order of the opposite queue, at that order's price, which the
    aggressor's limit accepts; every fill but the last takes its resting
    order completely, and the flag of a fill says whether it did. *)
Theorem submit_priority sym base e order out r e' out' k f :
  config_ok base → reachable sym base e → amounts_typed order →
  submit NumLevels e order out = (r, e', out') → drop (length out) out' !! k = Some f →
  ∃ o, a_side (abs_of e) (opposite (ord_side order)) !! k = Some o ∧
    acceptable order (ord_price o) = true ∧
    f = fill_of order o (u64 (next_match_id e + Z.of_nat k)) (fill_quantity f) ∧
    (0 < fill_quantity f ≤ ord_remaining o)%Z ∧
    (S k < fill_count r → fill_quantity f = ord_remaining o).
Proof.
  intros Hc Hr Hty E Hk. pose proof (reachable_engine_ok _ _ _ Hc Hr) as Hok.
  destruct (submit_inv _ _ _ _ _ _ _ _ Hok Hty E) as [_ [(_&_&->&_)|(_&_&_&Ht)]].
  { by rewrite drop_all in Hk. }
  destruct (spec_take_inv _ _ _ _ _ _ _ Ht) as (fs&rem&rest&Em&->&Hn&_).
  rewrite drop_app_length in Hk. rewrite Hn.
  destruct (engine_open _ _ _ (opposite (ord_side order)) Hok) as [Hopen _].
  eapply spec_match_prefix; [done|apply Hok|done|done].
Qed.

(** C10: fill-or-kill is all or nothing, with no bound on the volume in the
    book: the order is filled completely, or it is rejected and book, match
    id and fills are untouched. *)
Theorem fok_all_or_nothing sym base e order out r e' out' :
  config_ok base → reachable sym base e → amounts_typed order → ord_tif order = FOK →
  submit NumLevels e order out = (r, e', out') →
  (reject_reason r = RejNone ∧ remaining_after r = 0%Z ∧ rested r = false ∧
     filled (drop (length out) out') = ord_quantity order) ∨
  (reject_reason r ∈ [UnknownSymbol; InvalidQuantity; FokNotFillable] ∧ e' = e ∧ out' = out).
Proof.
  intros Hc Hr Hty Hfok E. pose proof (reachable_engine_ok _ _ _ Hc Hr) as Hok.
  destruct (submit_inv _ _ _ _ _ _ _ _ Hok Hty E) as [_ [(?&?&?&_)|(_&Hq&Hs&Ht)]]; [by right|].
  left. unfold spec_take in Ht.
  destruct (spec_match _ _ _ _) as [[fs rem] rest] eqn:Em.
  cbn [ord_tif set_remaining] in Ht. rewrite Hfok, andb_false_r in Ht.
  injection Ht as <- _ _ _ <-. rewrite drop_app_length. cbn.
  destruct (engine_open _ _ _ (opposite (ord_side order)) Hok) as [Hopen Hsort].
  pose proof (spec_match_filled _ _ _ _ _ _ _ Hopen Hsort (Z.lt_le_incl _ _ Hq) Em) as Hfill.
  destruct (spec_match_conserves _ _ _ _ _ _ _ Em) as [H1 _].
  unfold fok_short in Hs. rewrite bool_decide_eq_true_2 in Hs by done. cbn [andb] in Hs.
  bool_to_prop. destruct Hok as [(F&L&G&Q&Hrep) _ _ _ _ _].
  pose proof (available_le _ _ _ _ _ _ _ order Hrep) as Hle. rewrite abs_side in Hfill, Hopen.
  pose proof (fok_volume_le order _ Hopen).
  split_and!; try done; lia.
Qed.

(** C11: an accepted order takes all it can: the filled volume is its quantity
    or everything resting at acceptable prices, whichever is smaller, so a
    remainder never rests or expires while it could still trade. *)
Theorem submit_takes_all sym base e order out r e' out' :
  config_ok base → reachable sym base e → amounts_typed order →
  submit NumLevels e order out = (r, e', out') →
  reject_reason r ∉ [UnknownSymbol; InvalidQuantity; FokNotFillable] →
  filled (drop (length out) out') =
    Z.min (ord_quantity order)
      (acc_volume order (a_side (abs_of e) (opposite (ord_side order)))) ∧
  ((0 < remaining_after r)%Z → ∀ o, o ∈ a_side (abs_of e') (opposite (ord_side order)) →
     acceptable order (ord_price o) = false).
Proof.
  intros Hc Hr Hty E Hj. pose proof (reachable_engine_ok _ _ _ Hc Hr) as Hok.
  destruct (submit_fills _ _ _ _ _ _ _ _ Hok Hty E Hj) as (fs&->&_&Hm&Hq&_).
  destruct (submit_inv _ _ _ _ _ _ _ _ Hok Hty E) as [Hok' _].
  destruct (engine_open _ _ _ (opposite (ord_side order)) Hok) as [Hopen Hsort].
  rewrite drop_app_length. split; [eapply spec_match_filled; [done|done|lia|done]|].
  intros Hrem. apply none_acceptable.
  - apply (engine_open _ _ _ _ Hok').
  - destruct (spec_match_exit _ _ _ _ _ _ _ Hopen (Z.lt_le_incl _ _ Hq) Hm); [lia|done].
Qed.

(** C33: the match loop terminates by its own conditions: run for one more
    iteration than there are resting orders, it has reached a state in
    which any number of further iterations changes nothing. *)
Theorem match_loop_ends sym base e order out :
  config_ok base → reachable sym base e → amounts_typed order →
  ord_remaining order = ord_quantity order → (0 ≤ ord_quantity order)%Z →
  let '(e', order', out') := match_against_book NumLevels e order out in
  ∀ fuel, match_loop NumLevels fuel e' order' out' = (e', order', out').
Proof.
  intros Hc Hr [Hp Hq] Hrem Hpos.
  destruct (reachable_engine_ok _ _ _ Hc Hr) as [(F&L&G&Q&Hrep) _ _ Hn _ _].
  rewrite <- Hrem in Hq, Hpos.
  destruct (spec_match order (ord_remaining order) (next_match_id e)
    (OrderBook.queue NumLevels MaxOrders (book e) (opposite (ord_side order)))) as [[fs rem] rest] eqn:Em.
  destruct (match_against_book_spec _ _ _ _ _ _ _ _ out _ _ _ Hrep Hn Hq Hpos Em) as
    (b'&F'&L'&G'&Q'&->&Hrep'&_&_&Eq&_).
  intros fuel. eapply stopped_stable; [done|]. rewrite ord_side_remaining. cbn [ord_remaining set_remaining].
  rewrite Eq. destruct (spec_match_exit _ _ _ _ _ _ _ (queue_open _ _ _ _ _ _ _ _ Hrep) Hpos Em);
    [by left|]. right. by destruct rest.
Qed.

(** Over any run the fills are numbered consecutively from 1 in the order
    they are produced, so match ids are unique and increasing (for the first
    2^64 - 1 fills). *)
Theorem run_match_ids sym base cs k f :
  config_ok base → Forall cmd_typed cs →
  (run (Matching.create NumLevels MaxOrders sym base) [] cs).2 !! k = Some f →
  match_id f = u64 (1 + Z.of_nat k).
Proof.
  intros (Hg&Hm&Hc) Hcs. set (e := Matching.create _ _ _ _).
  destruct (run_numbered sym base e [] cs) as (fs&->&_&H); [by apply create_engine_ok|done|].
  intros Hk. apply H. rewrite app_nil_l in Hk. by rewrite list_lookup_fmap, Hk.
Qed.

End engine.

(** ** A concrete engine: eight levels from price 100, four slots *)

Definition lim (id : Z) (s : Side) (tif : TimeInForce) (price qty : Z) : Order :=
  mkOrder id (10 + id) 7 (side_code s) Limit tif price qty qty id 0.

Definition demo_cmds : list command :=
  [CmdSubmit (lim 1 Sell Day 103 5); CmdSubmit (lim 2 Sell Day 103 4);
   CmdSubmit (lim 3 Buy Day 101 6)].

Definition demo : Matching.t (gmap Z nat) :=
  (run 8 (Matching.create 8 4 7 100) [] demo_cmds).1.

Lemma demo_config : config_ok 8 4 100.
Proof. unfold config_ok, geometry, is_i64. lia. Qed.

Lemma demo_typed : Forall cmd_typed demo_cmds.
Proof. repeat constructor; cbn; unfold is_i64; lia. Qed.

Lemma demo_reach : reachable 8 4 7 100 demo.
Proof. apply reachable_run; [constructor|apply demo_typed]. Qed.

Lemma lim_typed id s tif price qty :
  is_i64 price → is_i64 qty → amounts_typed (lim id s tif price qty).
Proof. done. Qed.

Ltac demo_side :=
  first [exact demo_config | exact demo_reach | apply lim_typed; unfold is_i64; lia
        | unfold is_i64; lia | vm_compute; reflexivity | cbn; lia | intros _; vm_compute; reflexivity ].

Lemma submit_refines_witness :
  let '(r, e', out') := submit 8 demo (lim 4 Buy FOK 103 7) [] in
  Exchange.spec_submit 8 4 7 100 (Exchange.abs_of 8 4 demo) (lim 4 Buy FOK 103 7) [] =
    (r, Exchange.abs_of 8 4 e', out').
Proof. apply (submit_refines 8 4 7 100 demo (lim 4 Buy FOK 103 7) []); demo_side. Defined.

Lemma cancel_refines_witness :
  let '(r, e') := Matching.cancel demo 1 in
  spec_cancel (Exchange.abs_of 8 4 demo) 1 = (r, Exchange.abs_of 8 4 e').
Proof. apply (cancel_refines 8 4 7 100 demo 1); demo_side. Defined.

Lemma replace_refines_witness :
  let '(r, e', out') := Matching.replace 8 demo 3 104 8 9 9 [] in
  Exchange.spec_replace 8 4 7 100 (Exchange.abs_of 8 4 demo) 3 104 8 9 9 [] =
    (r, Exchange.abs_of 8 4 e', out') ∧ rep_accepted r = true.
Proof.
  pose proof (replace_refines 8 4 7 100 demo 3 104 8 9 9 []) as H.
  destruct (Matching.replace 8 demo 3 104 8 9 9 []) as [[r e'] out'].
  destruct H as [H1 H2]; [demo_side..|]. split; [exact H1|].
  destruct (H2 (lim 3 Buy Day 101 6)) as [H _]; [demo_side..|exact H].
Defined.

Lemma never_crossed_witness :
  best_bid (book demo) = Some 101%Z ∧ best_ask (book demo) = Some 103%Z ∧ (101 < 103)%Z.
Proof.
  split; [vm_compute; reflexivity|split; [vm_compute; reflexivity|]].
  apply (never_crossed 8 4 7 100 demo 101 103); demo_side.
Defined.

(** A buy that fills the first ask and half of the second one. *)
Definition demo_taker : Order := lim 4 Buy Day 103 7.
Definition demo_take := submit 8 demo demo_taker [].

Lemma submit_conserves_witness :
  ∃ fs, demo_take.2 = [] ++ fs ∧ fill_count demo_take.1.1 = length fs ∧
    (ord_quantity demo_taker = filled fs + remaining_after demo_take.1.1)%Z ∧
    (volume (a_side (Exchange.abs_of 8 4 demo) Sell) =
       filled fs + volume (a_side (Exchange.abs_of 8 4 demo_take.1.2) Sell))%Z ∧
    (volume (a_side (Exchange.abs_of 8 4 demo_take.1.2) Buy) =
       volume (a_side (Exchange.abs_of 8 4 demo) Buy) +
       (if rested demo_take.1.1 then remaining_after demo_take.1.1 else 0))%Z.
Proof.
  apply (submit_conserves 8 4 7 100 demo demo_taker [] demo_take.1.1 demo_take.1.2 demo_take.2);
    demo_side.
Defined.

Lemma submit_priority_witness :
  ∃ f o, demo_take.2 !! 0 = Some f ∧ a_side (Exchange.abs_of 8 4 demo) Sell !! 0 = Some o ∧
    fill_quantity f = ord_remaining o.
Proof.
  eexists. destruct (submit_priority 8 4 7 100 demo demo_taker [] demo_take.1.1 demo_take.1.2
    demo_take.2 0 (fill_of demo_taker (lim 1 Sell Day 103 5) 1 5)) as (o&Ho&_&_&_&Hfull);
    [demo_side..|].
  exists o. split; [vm_compute; reflexivity|]. split; [exact Ho|].
  apply Hfull. vm_compute. lia.
Defined.

Definition demo_fok := submit 8 demo (lim 4 Buy FOK 103 10) [].

Lemma fok_all_or_nothing_witness :
  reject_reason demo_fok.1.1 = FokNotFillable ∧ demo_fok.1.2 = demo ∧ demo_fok.2 = [].
Proof.
  split; [vm_compute; reflexivity|].
  destruct (fok_all_or_nothing 8 4 7 100 demo (lim 4 Buy FOK 103 10) [] demo_fok.1.1
    demo_fok.1.2 demo_fok.2) as [[H _]|[_ H]]; [demo_side..| |exact H].
  vm_compute in H. discriminate H.
Defined.

Lemma submit_takes_all_witness :
  filled demo_take.2 = 7%Z ∧
  Z.min 7 (acc_volume demo_taker (a_side (Exchange.abs_of 8 4 demo) Sell)) = 7%Z.
Proof.
  destruct (submit_takes_all 8 4 7 100 demo demo_taker [] demo_take.1.1 demo_take.1.2
    demo_take.2) as [H _]; [demo_side..|vm_compute; set_solver|].
  split; [|vm_compute; reflexivity]. etrans; [exact H|]. vm_compute. reflexivity.
Defined.

Lemma match_loop_ends_witness :
  let '(e', order', out') := match_against_book 8 demo demo_taker [] in
  ∀ fuel, match_loop 8 fuel e' order' out' = (e', order', out').
Proof. apply (match_loop_ends 8 4 7 100 demo demo_taker []); demo_side. Defined.

Lemma run_match_ids_witness :
  ∃ f, (run (M := gmap Z nat) 8 (Matching.create 8 4 7 100) []
      (demo_cmds ++ [CmdSubmit demo_taker])).2 !! 1 = Some f ∧ match_id f = 2%Z.
Proof.
  eexists. split; [vm_compute; reflexivity|].
  apply (run_match_ids 8 4 (M := gmap Z nat) 7 100 (demo_cmds ++ [CmdSubmit demo_taker]) 1);
    [demo_side| |demo_side].
  apply Forall_app. split; [exact demo_typed|]. constructor; [demo_side|constructor].
Defined.

End Engine.
