(* ===== verification/Account.v ===== *)
(** * One client's account at the exchange

    How a command of the engine moves the position of a client and the open
    quantity of its resting orders.  The measure is what a side can still
    lead to: on the buy side the position plus all open bids, on the sell
    side the negated position plus all open asks.  Commands of other clients
    never raise it, on either side; an order of the client raises it, on its
    own side, by at most its quantity.  Nothing here is code of the
    repository; a strategy's limits are shown with it in Quoting.v. *)

From S2P Require Import Prelude Types HashMap OrderBook BookSpec Matching MatchSpec Liquidity.
From S2P Require Import Exchange Engine.
From stdpp Require Import base tactics numbers list sets.

Set Default Goal Selector "!".

Module Account.
Import OrderBook BookSpec Matching MatchSpec Liquidity Exchange Engine.

Definition sgn (s : Side) : Z := match s with Buy => 1 | Sell => -1 end.

Section account.
Context (c : Z).

Definition mine (o : Order) : bool := (ord_client o =? c)%Z.

(** Open quantity of the client's orders in a queue. *)
Definition open_of (q : list Order) : Z := volume (List.filter mine q).

(** Quantity of the fills that the client's resting orders gave. *)
Definition given (fs : list Fill) : Z := filled (List.filter (λ f, resting_client_id f =? c)%Z fs).

(** What the fills add to the client's position. *)
Definition net_fill (f : Fill) : Z :=
  (if (resting_client_id f =? c)%Z then sgn (opposite (aggressor_side f)) * fill_quantity f else 0) +
  (if (aggressor_client_id f =? c)%Z then sgn (aggressor_side f) * fill_quantity f else 0).
Definition net (fs : list Fill) : Z := zsum (net_fill <$> fs).

Definition reach (s : Side) (P : Z) (A : Abs) : Z := sgn s * P + open_of (a_side A s).

(** From position [P] and book [A] to [P'] and [A'], only side [s] may gain,
    and at most [k]. *)
Record gains (s : Side) (k : Z) (P : Z) (A : Abs) (P' : Z) (A' : Abs) : Prop := {
  ga_reach s' : (reach s' P' A' ≤ reach s' P A + if decide (s' = s) then k else 0)%Z;
  ga_open s' : (open_of (a_side A' s') ≤ open_of (a_side A s') + if decide (s' = s) then k else 0)%Z;
}.

Lemma net_app fs fs' : net (fs ++ fs') = (net fs + net fs')%Z.
Proof. unfold net. by rewrite fmap_app, zsum_app. Qed.

Lemma open_of_cons o q :
  open_of (o :: q) = ((if mine o then ord_remaining o else 0) + open_of q)%Z.
Proof. unfold open_of. cbn [List.filter]. by destruct (mine o). Qed.

Lemma open_of_app q q' : open_of (q ++ q') = (open_of q + open_of q')%Z.
Proof. unfold open_of. by rewrite List.filter_app, volume_app. Qed.

Lemma open_of_nonneg q : open_ok q → (0 ≤ open_of q)%Z.
Proof.
  induction 1 as [|o q [Ho _] _ IH]; [done|]. rewrite open_of_cons. destruct (mine o); lia.
Qed.

Lemma open_of_none q : (∀ o, o ∈ q → ord_client o ≠ c) → open_of q = 0%Z.
Proof.
  induction q as [|o q IH]; intros H; [done|]. rewrite open_of_cons, IH by set_solver.
  unfold mine. by rewrite (proj2 (Z.eqb_neq _ _)) by set_solver.
Qed.

Lemma open_of_insert s o q :
  open_of (BookSpec.insert s o q) = ((if mine o then ord_remaining o else 0) + open_of q)%Z.
Proof.
  induction q as [|x q IH]; cbn [BookSpec.insert]; [by rewrite open_of_cons|].
  destruct (BookSpec.better _ _ _); rewrite !open_of_cons; [done|]. rewrite IH. lia.
Qed.

Lemma open_of_remove id q : open_ok q → (open_of (BookSpec.remove id q) ≤ open_of q)%Z.
Proof.
  induction 1 as [|o q [Ho _] _ IH]; [done|]. unfold BookSpec.remove. cbn [List.filter].
  fold (BookSpec.remove id q). destruct (negb _); rewrite ?open_of_cons; destruct (mine o); lia.
Qed.

(** ** Matching *)

Lemma given_cons f fs :
  given (f :: fs) = ((if (resting_client_id f =? c)%Z then fill_quantity f else 0) + given fs)%Z.
Proof. unfold given. cbn [List.filter]. by destruct (resting_client_id f =? c)%Z. Qed.

Lemma net_cons f fs : net (f :: fs) = (net_fill f + net fs)%Z.
Proof. done. Qed.

(** The fills of one match: the resting orders of the client give up what
    they are filled, and the aggressor gains the total. *)
Lemma match_account a rem id q fs rem' rest :
  spec_match a rem id q = (fs, rem', rest) →
  open_of q = (given fs + open_of rest)%Z ∧
  net fs = (sgn (ord_side a) * ((if (ord_client a =? c)%Z then filled fs else 0) - given fs))%Z.
Proof.
  revert rem id fs rem' rest. induction q as [|o q IH]; intros rem id fs rem' rest; cbn [spec_match].
  { intros [= <- <- <-]. unfold net, given, filled. cbn. destruct (_ =? _)%Z; lia. }
  destruct ((0 <? rem)%Z && acceptable a (ord_price o)).
  2: { intros [= <- <- <-]. unfold net, given, filled. cbn. destruct (_ =? _)%Z; lia. }
  destruct (spec_match a _ _ q) as [[fs1 r1] rest1] eqn:E. intros [= <- <- <-].
  destruct (IH _ _ _ _ _ E) as [H1 H2].
  rewrite open_of_cons, open_of_app, given_cons, net_cons, H1, H2. unfold net_fill, filled.
  rewrite fmap_cons, zsum_cons. unfold aggressor_side.
  cbn [fill_quantity fill_of resting_client_id aggressor_client_id aggressor_side_byte].
  fold (ord_side a) (mine o). fold (filled fs1). set (amt := Z.min rem (ord_remaining o)). split.
  - unfold reduced. destruct (Z.eqb_spec amt (ord_remaining o)) as [E1|E1].
    + change (open_of []) with 0%Z. unfold mine. destruct (ord_client o =? c)%Z; lia.
    + rewrite open_of_cons. change (open_of []) with 0%Z. unfold mine.
      cbn [ord_client ord_remaining set_remaining]. destruct (ord_client o =? c)%Z; lia.
  - unfold mine. destruct (ord_client o =? c)%Z, (ord_client a =? c)%Z, (ord_side a); rewrite ?opposite_Buy, ?opposite_Sell; cbn [sgn]; lia.
Qed.

Lemma given_range fs :
  Forall (λ f, 0 < fill_quantity f)%Z fs → (0 ≤ given fs ≤ filled fs)%Z.
Proof.
  unfold filled. induction 1 as [|f fs Hf Hfs IH]; [done|].
  rewrite given_cons, fmap_cons, zsum_cons. destruct (_ =? _)%Z; lia.
Qed.

Lemma gains_refl s k P A : (0 ≤ k)%Z → gains s k P A P A.
Proof. split; intros s'; case_decide; lia. Qed.

(** What an order may add. *)
Definition adds (client qty : Z) : Z := if (client =? c)%Z then Z.max 0 qty else 0.

Lemma adds_nonneg client qty : (0 ≤ adds client qty)%Z.
Proof. unfold adds. destruct (_ =? _)%Z; lia. Qed.

(** An order of the client never moves its position the other way. *)
Definition forward (s : Side) (client P P' : Z) : Prop :=
  client = c → (sgn (opposite s) * P' ≤ sgn (opposite s) * P)%Z.

Lemma take_account NumLevels MaxOrders base A order r A' fs P :
  open_ok (a_side A (opposite (ord_side order))) → (0 < ord_quantity order)%Z →
  spec_take NumLevels MaxOrders base A order [] = (r, A', fs) →
  let s := ord_side order in
  gains s (adds (ord_client order) (ord_quantity order)) P A (P + net fs) A' ∧
  forward s (ord_client order) P (P + net fs).
Proof.
  intros Hopen Hq E s. destruct (spec_take_inv _ _ _ _ _ _ _ _ _ E) as
    (fs'&rem&rest&Em&Hfs&_&_&Eo&Es&_). cbn in Hfs. subst fs'. fold s in Em, Eo, Es.
  destruct (spec_match_range _ _ _ _ _ _ _ Hopen (Z.lt_le_incl _ _ Hq) Em) as [Hr Hpos].
  destruct (match_account _ _ _ _ _ _ _ Em) as [Hop Hnet].
  destruct (spec_match_conserves _ _ _ _ _ _ _ Em) as [Hsum _].
  pose proof (given_range _ Hpos) as Hg. fold s in Hnet. unfold adds.
  assert (open_of (a_side A' s) = (if rested r then if mine order then rem else 0 else 0) +
    open_of (a_side A s))%Z as Ho.
  { rewrite Es. destruct (rested r); [|lia]. by rewrite open_of_insert. }
  unfold mine in Ho. split.
  - split; intros s'; (destruct (decide (s' = s)) as [-> |Hs];
      [|assert (s' = opposite s) as -> by (by destruct s, s')]); unfold reach;
      rewrite ?Ho, ?Eo, ?Hop, ?Hnet; destruct (ord_client order =? c)%Z, (rested r), s;
      rewrite ?opposite_Buy, ?opposite_Sell; cbn [sgn]; lia.
  - intros Hc. rewrite Hnet, (proj2 (Z.eqb_eq _ _) Hc). destruct s; rewrite ?opposite_Buy, ?opposite_Sell; cbn [sgn]; lia.
Qed.

Lemma spec_submit_account NumLevels MaxOrders sym base A order r A' fs P :
  open_ok (a_side A (opposite (ord_side order))) →
  Exchange.spec_submit NumLevels MaxOrders sym base A order [] = (r, A', fs) →
  let s := ord_side order in
  gains s (adds (ord_client order) (ord_quantity order)) P A (P + net fs) A' ∧
  forward s (ord_client order) P (P + net fs).
Proof.
  intros Hopen E s.
  assert (gains s (adds (ord_client order) (ord_quantity order)) P A (P + net []) A ∧
    forward s (ord_client order) P (P + net [])) as Hno.
  { change (net []) with 0%Z. rewrite Z.add_0_r. split; [apply gains_refl, adds_nonneg|by intros _]. }
  unfold Exchange.spec_submit in E. destruct (negb _); [by injection E as _ <- <-|].
  destruct (Z.leb_spec (ord_quantity order) 0); [by injection E as _ <- <-|].
  destruct (_ && _); [by injection E as _ <- <-|]. by eapply take_account.
Qed.

(** ** The engine *)

Section engine.
Context (NumLevels MaxOrders : nat) (sym base : Z).
Context {M : Type} `{!HashMap Z nat M, !HashMapLaws Z nat M}.
Implicit Types (e : Matching.t M).

Abbreviation engine_ok := (Exchange.engine_ok NumLevels MaxOrders sym base).
Abbreviation abs_of := (Exchange.abs_of NumLevels MaxOrders).

Lemma submit_account e order r e' fs P :
  engine_ok e → amounts_typed order → submit NumLevels e order [] = (r, e', fs) →
  let s := ord_side order in
  gains s (adds (ord_client order) (ord_quantity order)) P (abs_of e) (P + net fs) (abs_of e') ∧
  forward s (ord_client order) P (P + net fs).
Proof.
  intros Hok Hty E s.
  destruct (submit_inv _ _ _ _ _ _ _ _ _ _ Hok Hty E) as [_ [(_&->&->&_)|(_&Hq&_&Ht)]].
  - change (net []) with 0%Z. rewrite Z.add_0_r. split; [apply gains_refl, adds_nonneg|].
    intros _. done.
  - eapply take_account; [apply (engine_open _ _ _ _ _ _ Hok)|done|exact Ht].
Qed.

Lemma cancel_account e id :
  engine_ok e → abs_of (Matching.cancel e id).2 = a_remove (abs_of e) id.
Proof.
  intros Hok. destruct (cancel_spec _ _ _ _ _ id Hok) as (r&e'&->&_&E). cbn [snd].
  unfold spec_cancel in E. revert E. generalize (abs_of e') as A'. intros A' E.
  destruct (a_find (abs_of e) id) eqn:Hf; [by injection E|]. injection E as _ <-.
  assert (∀ o, o ∈ a_orders (abs_of e) → ord_id o ≠ id) as Hn.
  { intros o Ho Hid. apply list_elem_of_In in Ho. unfold a_find in Hf.
    pose proof (List.find_none _ _ Hf _ Ho) as Hx. cbn in Hx. by rewrite Hid, Z.eqb_refl in Hx. }
  unfold a_remove, a_orders in *. rewrite !remove_none; [done|..]; apply Forall_forall; set_solver.
Qed.

Lemma remove_open A id s : open_ok (a_side A s) → open_ok (a_side (a_remove A id) s).
Proof.
  intros H. apply Forall_forall. intros o Ho. unfold open_ok in H. rewrite Forall_forall in H.
  apply H. by destruct s; cbn in Ho; apply remove_elem in Ho as [? _].
Qed.

Lemma remove_gains s P A id :
  (∀ s', open_ok (a_side A s')) → gains s 0 P A P (a_remove A id).
Proof.
  intros Ho. assert (∀ s', open_of (a_side (a_remove A id) s') ≤ open_of (a_side A s'))%Z as H.
  { intros s'. pose proof (open_of_remove id _ (Ho s')). by destruct s'. }
  split; intros s'; specialize (H s'); unfold reach; case_decide; lia.
Qed.

(** A replace is refused, or the order is taken out and submitted anew. *)
Lemma replace_account e id price qty seq ts res e' fs P :
  engine_ok e → is_i64 price → is_i64 qty →
  Matching.replace NumLevels e id price qty seq ts [] = (res, e', fs) →
  (abs_of e' = abs_of e ∧ fs = []) ∨
  ∃ o, a_find (abs_of e) id = Some o ∧
    gains (ord_side o) (adds (ord_client o) qty) P (a_remove (abs_of e) id) (P + net fs) (abs_of e') ∧
    forward (ord_side o) (ord_client o) P (P + net fs).
Proof.
  intros Hok Hp Hq E.
  destruct (replace_spec _ _ _ _ _ id price qty seq ts [] Hok Hp Hq) as (res'&e1&fs1&E1&_&Hs).
  rewrite E in E1. injection E1 as <- <- <-. unfold Exchange.spec_replace in Hs.
  revert Hs. generalize (abs_of e') as A'. intros A' Hs.
  destruct (a_find (abs_of e) id) as [o|] eqn:Hf; [|left; by injection Hs as _ <- <-].
  destruct (Z.leb_spec qty 0); [left; by injection Hs as _ <- <-|].
  destruct (negb _); [left; by injection Hs as _ <- <-|].
  right. exists o. split; [done|].
  destruct (Exchange.spec_submit _ _ _ _ _ _ _) as [[r1 A1] fs1] eqn:E1. injection Hs as _ <- <-.
  rewrite <- (ord_side_retermed o price qty seq ts).
  change (ord_client o) with (ord_client (retermed o price qty seq ts)).
  eapply spec_submit_account; [|exact E1].
  apply remove_open, (engine_open _ _ _ _ _ _ Hok).
Qed.

End engine.
End account.

(** ** Who trades *)

Definition client_u32 (o : Order) : Prop := is_u32 (ord_client o).
Definition clients_u32 (f : Fill) : Prop :=
  is_u32 (resting_client_id f) ∧ is_u32 (aggressor_client_id f).

Lemma match_clients a rem id q fs rem' rest :
  (∀ o, o ∈ q → client_u32 o) → client_u32 a → spec_match a rem id q = (fs, rem', rest) →
  Forall clients_u32 fs.
Proof.
  intros Hq Ha. revert rem id fs rem' rest. induction q as [|o q IH]; intros rem id fs rem' rest;
    cbn [spec_match]; [by intros [= <- <- <-]|].
  destruct (_ && _); [|by intros [= <- <- <-]].
  destruct (spec_match a _ _ q) as [[fs1 r1] rest1] eqn:E. intros [= <- <- <-].
  constructor; [split; [apply Hq; set_solver|done]|]. eapply IH; [set_solver|exact E].
Qed.

Lemma spec_submit_clients NumLevels MaxOrders sym base A order r A' fs :
  all_orders client_u32 A → client_u32 order →
  Exchange.spec_submit NumLevels MaxOrders sym base A order [] = (r, A', fs) → Forall clients_u32 fs.
Proof.
  intros HA Ho. unfold Exchange.spec_submit.
  do 3 (case_match; [by intros [= <- <- <-]|]). intros E.
  destruct (spec_take_inv _ _ _ _ _ _ _ _ _ E) as (fs'&rem&rest&Em&->&_).
  eapply match_clients; [intros o; apply HA|exact Ho|exact Em].
Qed.

Lemma exec_clients NumLevels MaxOrders sym base {M} `{!HashMap Z nat M, !HashMapLaws Z nat M}
    (e : Matching.t M) cmd e' fs :
  Exchange.engine_ok NumLevels MaxOrders sym base e → cmd_typed cmd →
  all_orders client_u32 (Exchange.abs_of NumLevels MaxOrders e) → cmd_keeps client_u32 cmd →
  exec NumLevels e [] cmd = (e', fs) → Forall clients_u32 fs.
Proof.
  intros Hok Hty HA Hk E. destruct cmd as [o|id|id price qty seq ts]; cbn [exec] in E.
  - destruct (submit NumLevels e o []) as [[r e1] fs1] eqn:Es. injection E as <- <-.
    destruct (submit_inv _ _ _ _ _ _ _ _ _ _ Hok Hty Es) as [_ [(_&_&->&_)|(_&_&_&Ht)]]; [done|].
    destruct (spec_take_inv _ _ _ _ _ _ _ _ _ Ht) as (fs'&rem&rest&Em&->&_).
    eapply match_clients; [intros x; apply HA|exact Hk|exact Em].
  - by injection E as _ <-.
  - destruct Hty as [Hp Hq].
    destruct (replace_spec _ _ _ _ _ id price qty seq ts [] Hok Hp Hq) as (res&e1&fs1&Er&_&Hs).
    rewrite Er in E. injection E as <- <-. unfold Exchange.spec_replace in Hs. revert Hs.
    generalize (Exchange.abs_of NumLevels MaxOrders e1) as A'. intros A' Hs.
    destruct (a_find _ id) as [o|] eqn:Hf; [|by injection Hs as _ _ <-].
    destruct (qty <=? 0)%Z; [by injection Hs as _ _ <-|]. destruct (negb _); [by injection Hs as _ _ <-|].
    destruct (Exchange.spec_submit _ _ _ _ _ _ _) as [[r1 A1] fs2] eqn:E1. injection Hs as _ _ <-.
    eapply spec_submit_clients; [by apply a_remove_keeps| |exact E1].
    change (client_u32 o); by eapply a_find_keeps.
Qed.

End Account.
