(* ===== verification/Invariants.v ===== *)
(** * The structural audit of a book (src/include/jane/correctness/invariants.hpp)

    [check_book_invariants] walks every level and reports violations; a
    report carries the values the source prints.  The walk follows raw
    pointers, so it has fuel, and running out of it or following a dangling
    pointer yields [None].  The theorems: on one level the audit is silent
    exactly when the level is a well-formed FIFO, and on every reachable
    engine the whole audit terminates silently. *)

From S2P Require Import Prelude Types Bitmap SlabPool Level HashMap Ladder OrderBook.
From S2P Require Import BookSpec Matching MatchSpec Liquidity Exchange Engine.
From stdpp Require Import base tactics numbers list sets gmap.

Set Default Goal Selector "!".

Module Invariants.
Import Level OrderBook.

Inductive violation :=
  | CrossedBook (bid ask : Z)
  | NonPositiveRemaining (remaining price : Z)
  | WrongSide (price : Z)
  | BrokenBackLink (price : Z)
  | TailInconsistent (price : Z)
  | TotalMismatch (total summed price : Z)
  | CountMismatch (count counted price : Z).

(** The checks of one node, in order. *)
Definition audit_node (side : Side) (price : Z) (prev : option nat) (n : OrderNode)
    : list violation :=
  (if (ord_remaining (node_order n) <=? 0)%Z
   then [NonPositiveRemaining (ord_remaining (node_order n)) price] else []) ++
  (if decide (ord_side_byte (node_order n) = side_code side) then [] else [WrongSide price]) ++
  (if decide (node_prev n = prev) then [] else [BrokenBackLink price]).

(** The inner loop: violations, summed quantity, count and last node. *)
Fixpoint audit_nodes (fuel : nat) (h : heap) (side : Side) (price : Z)
    (node prev : option nat) (summed counted : Z) (vs : list violation)
    : option (list violation * Z * Z * option nat) :=
  match node with
  | None => Some (vs, summed, counted, prev)
  | Some p =>
      match fuel, h !! p with
      | S fuel, Some n =>
          audit_nodes fuel h side price (node_next n) (Some p)
            (StrongAmount.add summed (ord_remaining (node_order n)))
            (u32 (counted + 1)) (vs ++ audit_node side price prev n)
      | _, _ => None
      end
  end.

(** The visitor of one level. *)
Definition audit_level (h : heap) (side : Side) (vs : list violation) (price : Z)
    (l : PriceLevel) : option (list violation) :=
  match audit_nodes (length h) h side price (head l) None 0 0 vs with
  | None => None
  | Some (vs, summed, counted, prev) =>
      Some (vs ++
        (if decide (tail l = prev) then [] else [TailInconsistent price]) ++
        (if (summed =? total_quantity l)%Z then []
         else [TotalMismatch (total_quantity l) summed price]) ++
        (if (counted =? Level.order_count l)%Z then []
         else [CountMismatch (Level.order_count l) counted price]))
  end.

Section audit.
Context (NumLevels : nat).
Context {M : Type} `{!HashMap Z nat M}.

Definition audit_side (b : OrderBook.t M) (side : Side) (vs : option (list violation))
    : option (list violation) :=
  for_each_level NumLevels b side
    (λ vs price l, (vs ≫= λ vs, audit_level (heap_of b) side vs price l, true)) vs.

Definition check_book_invariants (b : OrderBook.t M) : option (list violation) :=
  let crossed :=
    match best_bid b, best_ask b with
    | Some bid, Some ask => if (ask <=? bid)%Z then [CrossedBook bid ask] else []
    | _, _ => []
    end in
  audit_side b Sell (audit_side b Buy (Some crossed)).

End audit.

(** ** One level *)

(** A well-linked list that ends has no repetitions. *)
Lemma dseg_det h pv pv' ps qs :
  dseg h pv ps None → dseg h pv' qs None → hd_ptr ps None = hd_ptr qs None → ps = qs.
Proof.
  revert pv pv' qs. induction ps as [|p ps IH]; intros pv pv' [|q qs]; simpl; try done.
  intros [Hp Hps] [Hq Hqs] [= ->]. f_equal. eapply IH; [done|done|]. congruence.
Qed.

Lemma dseg_NoDup h pv ps : dseg h pv ps None → NoDup ps.
Proof.
  revert pv. induction ps as [|p ps IH]; intros pv Hs; [constructor|].
  constructor; [|by destruct Hs as [_ Hs]; eapply IH]. intros Hp.
  apply list_elem_of_split in Hp as (a&b&->).
  assert (dseg h pv ((p :: a) ++ p :: b) None) as Hs' by exact Hs.
  apply dseg_app in Hs' as [_ Hb].
  pose proof (dseg_det _ _ _ _ _ Hs Hb eq_refl) as E.
  apply (f_equal length) in E. simpl in E. rewrite length_app in E. simpl in E. lia.
Qed.

Definition node_ok (side : Side) (o : Order) : Prop :=
  (0 < ord_remaining o)%Z ∧ ord_side_byte o = side_code side.

Lemma audit_node_nil side price prev n :
  audit_node side price prev n = [] ↔ node_ok side (node_order n) ∧ node_prev n = prev.
Proof.
  unfold audit_node, node_ok. destruct (Z.leb_spec (ord_remaining (node_order n)) 0).
  { split; [done|]. intros [[? _] _]. lia. }
  destruct (decide (ord_side_byte _ = side_code side)); [|naive_solver].
  destruct (decide (node_prev n = prev)); naive_solver.
Qed.

(** What a walk that returns has seen: a linked list, if it is silent. *)
Lemma audit_nodes_sound fuel h side price node prev sm ct vs vs' sm' ct' prev' :
  audit_nodes fuel h side price node prev sm ct vs = Some (vs', sm', ct', prev') →
  ∃ d, vs' = vs ++ d ∧
    (d = [] → is_u32 ct → is_i64 sm →
     ∃ ps os, node = hd_ptr ps None ∧ dseg h prev ps None ∧ order_at h <$> ps = Some <$> os ∧
       Forall (node_ok side) os ∧ sm' = i64 (sm + zsum (ord_remaining <$> os)) ∧
       ct' = u32 (ct + Z.of_nat (length ps)) ∧ prev' = last_ptr prev ps).
Proof.
  revert node prev sm ct vs. induction fuel as [|fuel IH]; intros [p|] prev sm ct vs;
    cbn [audit_nodes]; try done.
  2: destruct (h !! p) as [n|] eqn:Hn; [|done].
  1,3: intros [= <- <- <- <-]; exists []; rewrite app_nil_r; split; [done|]; intros _ Hc Hs;
    exists [], []; cbn; rewrite !Z.add_0_r, i64_id, u32_id by done;
    split_and!; done || constructor.
  intros (d&->&Hd)%IH. exists (audit_node side price prev n ++ d). rewrite app_assoc.
  split; [done|]. intros [Hv ->]%app_nil _ _. apply audit_node_nil in Hv as [Hok <-].
  destruct Hd as (ps&os&Hhd&Hseg&Hos&Hall&->&->&->); [done|apply u32_range|apply i64_range|].
  exists (p :: ps), (node_order n :: os). cbn [hd_ptr dseg]. split_and!; try done.
  - unfold links. rewrite Hn. simpl. by rewrite Hhd.
  - rewrite !fmap_cons, Hos. unfold order_at. by rewrite Hn.
  - by constructor.
  - rewrite fmap_cons, zsum_cons. unfold StrongAmount.add. rewrite i64_add_l. f_equal. lia.
  - rewrite u32_add_l. f_equal. cbn [length]. lia.
  - unfold last_ptr. rewrite (last_cons p ps). by destruct (last ps).
Qed.

Lemma audit_nodes_complete fuel h side price prev sm ct vs ps os :
  length ps ≤ fuel → dseg h prev ps None → order_at h <$> ps = Some <$> os →
  Forall (node_ok side) os → is_u32 ct → is_i64 sm →
  audit_nodes fuel h side price (hd_ptr ps None) prev sm ct vs =
    Some (vs, i64 (sm + zsum (ord_remaining <$> os)), u32 (ct + Z.of_nat (length ps)),
          last_ptr prev ps).
Proof.
  revert fuel prev sm ct os. induction ps as [|p ps IH]; intros fuel prev sm ct os Hf Hseg Hos Hall Hc Hs.
  { destruct os; [|done]. destruct fuel; cbn; by rewrite !Z.add_0_r, i64_id, u32_id by done. }
  destruct fuel as [|fuel]; [cbn in Hf; lia|]. destruct os as [|o os]; [done|].
  rewrite !fmap_cons in Hos. injection Hos as Ho Hos. apply Forall_cons in Hall as [Hok Hall].
  destruct Hseg as [Hl Hseg]. cbn [hd_ptr audit_nodes].
  unfold order_at in Ho. unfold links in Hl. destruct (h !! p) as [n|] eqn:Hn; [|done].
  simpl in Ho, Hl. injection Ho as Ho. injection Hl as Hpv Hnx.
  assert (audit_node side price prev n = []) as -> by (apply audit_node_nil; by rewrite Ho).
  rewrite app_nil_r, Hnx, Ho. rewrite (IH _ _ _ _ os); [|cbn in Hf; lia|done|done|done|apply u32_range|apply i64_range].
  unfold StrongAmount.add. rewrite fmap_cons, zsum_cons, i64_add_l, u32_add_l. cbn [length].
  do 2 f_equal; [f_equal; [do 2 f_equal; lia|f_equal; lia]|].
  unfold last_ptr. rewrite (last_cons p ps). by destruct (last ps).
Qed.

Lemma audit_level_silent h l ps os side vs price :
  level_rep h l ps os → Forall (node_ok side) os →
  audit_level h side vs price l = Some vs.
Proof.
  intros [Hhd Htl Hseg Hnd Hos Hct Htot] Hall. unfold audit_level. rewrite Hhd.
  assert (length ps ≤ length h) as Hlen.
  { rewrite <- (length_seq (length h) 0). apply submseteq_length, NoDup_submseteq; [done|].
    intros p [a [b ->]]%list_elem_of_split. apply dseg_links, links_lt in Hseg.
    apply elem_of_seq. lia. }
  rewrite (audit_nodes_complete _ _ _ _ _ _ _ _ ps os) by (done || unfold is_u32, is_i64; lia).
  rewrite decide_True by (rewrite Htl; symmetry; apply last_ptr_None).
  rewrite !Z.add_0_l, Htot, Hct, !Z.eqb_refl. by rewrite !app_nil_r.
Qed.

(** C32: on one level the audit returns and is silent exactly when the level is
    a well-formed FIFO: head and tail, both link directions, the cached
    total and the cached count all describe one list of distinct nodes whose
    orders are open and on the right side. *)
Theorem audit_level_exact h l side price :
  audit_level h side [] price l = Some [] ↔
  ∃ ps os, level_rep h l ps os ∧ Forall (node_ok side) os.
Proof.
  split; [|intros (ps&os&Hl&Hall); by eapply audit_level_silent].
  unfold audit_level. destruct (audit_nodes _ _ _ _ _ _ _ _ _) as [[[[vs sm] ct] pv]|] eqn:E; [|done].
  destruct (audit_nodes_sound _ _ _ _ _ _ _ _ _ _ _ _ _ E) as (d&->&Hd).
  intros [= [-> [Ht [Hs Hc]%app_nil]%app_nil]%app_nil].
  destruct Hd as (ps&os&Hhd&Hseg&Hos&Hall&->&->&->); [done|unfold is_u32; lia|unfold is_i64; lia|].
  destruct (decide (tail l = _)) as [Htl|]; [|done].
  destruct (Z.eqb_spec (i64 (0 + zsum (ord_remaining <$> os))) (total_quantity l)); [|done].
  destruct (Z.eqb_spec (u32 (0 + Z.of_nat (length ps))) (Level.order_count l)); [|done].
  exists ps, os. split; [|done]. split; try done.
  - by rewrite Htl, last_ptr_None.
  - by eapply dseg_NoDup.
Qed.

(** ** The whole book *)

Section book.
Context (NumLevels MaxOrders : nat).
Context {M : Type} `{!HashMap Z nat M}.

Lemma visit_silent {A B} (f : A → Z → PriceLevel → option A) (acc : A) (l : list B)
    (g : B → Z * PriceLevel) :
  (∀ x, x ∈ l → f acc (g x).1 (g x).2 = Some acc) →
  BookSpec.visit_list (λ a p lv, (a ≫= λ a, f a p lv, true)) (Some acc) (g <$> l) = Some acc.
Proof.
  induction l as [|x l IH]; intros H; [done|]. rewrite fmap_cons.
  destruct (g x) as [p lv] eqn:E. cbn [BookSpec.visit_list].
  pose proof (H x ltac:(set_solver)) as Hx. rewrite E in Hx. cbn in Hx. cbn. rewrite Hx.
  apply IH. set_solver.
Qed.

(** The order carries an enumerator as its side. *)
Definition has_side (o : Order) : Prop := is_side (ord_side_byte o).

Abbreviation abs_of := (Exchange.abs_of NumLevels MaxOrders).
Abbreviation sides_ok := (Engine.all_orders has_side).

Lemma audit_side_silent (b : OrderBook.t M) F L G Q s vs :
  OrderBook.rep NumLevels MaxOrders b F L G Q →
  (∀ o, o ∈ OrderBook.queue NumLevels MaxOrders b s → has_side o) →
  audit_side NumLevels b s (Some vs) = Some vs.
Proof.
  intros Hr Hsd. unfold audit_side. rewrite (BookSpec.for_each_level_spec _ _ _ _ _ _ _ _ _ _ Hr).
  unfold BookSpec.level_view. apply visit_silent. intros i Hi. cbn.
  apply Liquidity.busy_elem, Ladder.elem_of_prio in Hi.
  eapply audit_level_silent; [by apply (r_level _ _ _ _ _ _ _ Hr s i)|].
  apply Forall_forall. intros o Ho. destruct (r_order _ _ _ _ _ _ _ Hr s i o Ho) as [Hs _ _ _ _].
  split; [by destruct (r_order _ _ _ _ _ _ _ Hr s i o Ho)|]. rewrite <- Hs. symmetry. apply is_side_code.
  apply Hsd.
  apply (BookSpec.queue_elem _ _ _ _ _ _ _ _ _ Hr). eauto.
Qed.

Context `{!HashMapLaws Z nat M}.

Lemma engine_audit_clean sym base (e : Matching.t M) :
  Exchange.engine_ok NumLevels MaxOrders sym base e → sides_ok (abs_of e) →
  check_book_invariants NumLevels (Matching.book e) = Some [].
Proof.
  intros [(F&L&G&Q&Hrep) _ _ _ Hu _] Hsd. unfold check_book_invariants.
  assert (match best_bid (Matching.book e), best_ask (Matching.book e) with
    | Some bid, Some ask => if (ask <=? bid)%Z then [CrossedBook bid ask] else []
    | _, _ => [] end = []) as ->.
  { unfold best_bid, best_ask.
    pose proof (BookSpec.best_front _ _ _ _ _ _ _ Buy Hrep) as H1.
    pose proof (BookSpec.best_front _ _ _ _ _ _ _ Sell Hrep) as H2.
    unfold Exchange.uncrossed in Hu. cbn in Hu.
    destruct (OrderBook.queue _ _ _ Buy) as [|o q]; [by rewrite H1|].
    destruct (OrderBook.queue _ _ _ Sell) as [|o' q']; [rewrite H2; by destruct (best_price _ Buy)|].
    destruct H1 as [-> _], H2 as [-> _]. rewrite (proj2 (Z.leb_gt _ _)); [done|].
    apply Hu; set_solver. }
  assert (∀ s o, o ∈ OrderBook.queue NumLevels MaxOrders (Matching.book e) s → has_side o) as Hs
    by (intros s o; rewrite <- Exchange.abs_side; apply Hsd).
  by rewrite !(audit_side_silent _ _ _ _ _ _ _ Hrep (Hs _)).
Qed.

(** C31: after any commands whose orders carry a side, the audit of the whole
    book terminates and finds nothing: not crossed, every order open and on
    its own side, both link directions consistent, aggregates equal to the
    FIFO contents.  Nothing in the code checks the side byte; an order with
    another one is reported ([stray_side_audited]). *)
Theorem reachable_audit_clean sym base cs :
  Engine.config_ok NumLevels MaxOrders base →
  Forall Engine.cmd_typed cs → Forall (Engine.cmd_keeps has_side) cs →
  check_book_invariants NumLevels
    (Matching.book (Engine.run NumLevels (Matching.create NumLevels MaxOrders sym base) [] cs).1) =
    Some [].
Proof.
  intros Hc Hcs Hsd. pose proof (Engine.reachable_run NumLevels MaxOrders sym base _ [] cs
    (Engine.reach_init _ _ _ _) Hcs) as Hr.
  pose proof (Engine.reachable_engine_ok _ _ _ _ _ Hc (Engine.reach_init _ _ sym _ (M := M))) as H0.
  eapply engine_audit_clean; [by eapply Engine.reachable_engine_ok|].
  eapply (Engine.run_keeps NumLevels MaxOrders has_side); [done|done|exact H0|done|done|].
  intros s o. rewrite Exchange.abs_side. cbn [Matching.book Matching.create].
  rewrite Exchange.create_queue. set_solver.
Qed.

End book.

Lemma reachable_audit_clean_witness :
  check_book_invariants 8 (Matching.book Engine.demo) = Some [].
Proof.
  apply (reachable_audit_clean 8 4 7 100 Engine.demo_cmds);
    [exact Engine.demo_config|exact Engine.demo_typed|].
  repeat (apply Forall_cons; split; [apply side_code_is|]). apply Forall_nil. done.
Defined.

(** An order with the side byte 2 rests as an offer and is reported. *)
Lemma stray_side_audited :
  check_book_invariants 8 (Matching.book (Matching.submit 8
    (Matching.create 8 4 7 100 : Matching.t (gmap Z nat))
    (mkOrder 1 1 7 2 Limit Day 103 5 5 1 0) []).1.2) = Some [WrongSide 103].
Proof. vm_compute. reflexivity. Qed.

End Invariants.
