(* ===== verification/Risk.v ===== *)
(** * Pre-trade risk (src/include/jane/risk/risk_engine.hpp)

    The exposure map is the third-party hash map, used through [HashMap].
    [ledger] is the reference: the position and cash flow of an account as
    plain sums over the fills recorded for it. *)

From S2P Require Import Prelude Types HashMap.
From stdpp Require Import base tactics numbers list sets gmap.

Set Default Goal Selector "!".

Module Risk.

Record Limits := mkLimits {
  max_order_size : Z;
  max_position : Z;
  max_loss_per_client : Z;
}.

Record ClientExposure := mkExposure {
  exp_position : Z;
  cash_flow : Z;
  last_mark_price : Z;
}.

Definition default_exposure : ClientExposure := mkExposure 0 0 0.

Definition mark_to_market_pnl (x : ClientExposure) : Z :=
  StrongAmount.add (cash_flow x) (i64 (exp_position x * last_mark_price x)).

(** [(uint64_t(client) << 32) | symbol] *)
Definition account_key (client symbol : Z) : Z :=
  Z.lor (u64 (Z.shiftl client 32)) symbol.

Section engine.
Context {M : Type} `{!HashMap Z ClientExposure M}.

Record t := mk {
  limits : Limits;
  kill_switch : bool;
  exposure : M;
}.

Definition create (l : Limits) : t := mk l false hm_empty.

Definition check_new_order (r : t) (order : Order) : RejectReason :=
  if kill_switch r then RiskKillSwitch
  else if (max_order_size (limits r) <? ord_quantity order)%Z then RiskMaxOrderSize
  else
    let it := hm_find (exposure r) (account_key (ord_client order) (ord_symbol order)) in
    let current_position := match it with Some x => exp_position x | None => 0%Z end in
    let delta := if decide (ord_side order = Buy) then ord_quantity order
                 else i64 (- ord_quantity order) in
    let prospective := i64 (current_position + delta) in
    if (max_position (limits r) <? prospective)%Z ||
       (prospective <? i64 (- max_position (limits r)))%Z
    then RiskMaxPosition
    else
      match it with
      | Some x => if (mark_to_market_pnl x <? max_loss_per_client (limits r))%Z
                  then RiskMaxLoss else RejNone
      | None => RejNone
      end.

(** The side is a byte; the quantity is signed by a comparison with [Buy],
    the cash by one with [Sell]. *)
Definition record_fill (r : t) (client symbol side price quantity : Z) : t :=
  let key := account_key client symbol in
  let x := default default_exposure (hm_find (exposure r) key) in
  let signed_qty := if (side =? side_code Buy)%Z then quantity else i64 (- quantity) in
  let proceeds := i64 (price * quantity) in
  let x := mkExposure (StrongAmount.add (exp_position x) signed_qty)
             (StrongAmount.add (cash_flow x)
                (if (side =? side_code Sell)%Z then proceeds else i64 (- proceeds)))
             price in
  mk (limits r) (kill_switch r) (hm_assign (exposure r) key x).

Definition position (r : t) (client symbol : Z) : Z :=
  match hm_find (exposure r) (account_key client symbol) with
  | Some x => exp_position x | None => 0 end.

Definition pnl (r : t) (client symbol : Z) : Z :=
  match hm_find (exposure r) (account_key client symbol) with
  | Some x => mark_to_market_pnl x | None => 0 end.

Definition engage_kill_switch (r : t) : t := mk (limits r) true (exposure r).
Definition disengage_kill_switch (r : t) : t := mk (limits r) false (exposure r).

(** ** The ledger *)

(** One side of one fill. *)
Record leg := mkLeg {
  leg_client : Z; leg_symbol : Z; leg_side : Side; leg_price : Z; leg_qty : Z;
}.

Definition leg_key (l : leg) : Z := account_key (leg_client l) (leg_symbol l).

Definition record_leg (r : t) (l : leg) : t :=
  record_fill r (leg_client l) (leg_symbol l) (side_code (leg_side l)) (leg_price l) (leg_qty l).

Definition legs_of (key : Z) (ls : list leg) : list leg :=
  List.filter (λ l, leg_key l =? key)%Z ls.

(** Quantity gained and cash gained by a leg, exactly. *)
Definition leg_position (l : leg) : Z :=
  match leg_side l with Buy => leg_qty l | Sell => - leg_qty l end.
Definition leg_cash (l : leg) : Z :=
  match leg_side l with
  | Buy => - (leg_price l * leg_qty l) | Sell => leg_price l * leg_qty l end.

Definition ledger (ls : list leg) : option ClientExposure :=
  match last ls with
  | None => None
  | Some l => Some (mkExposure (i64 (zsum (leg_position <$> ls)))
                      (i64 (zsum (leg_cash <$> ls))) (leg_price l))
  end.

(** The two legs of a fill between a buyer and a seller. *)
Record trade := mkTrade {
  buyer : Z; seller : Z; tr_symbol : Z; tr_price : Z; tr_qty : Z;
}.

Definition trade_legs (x : trade) : list leg :=
  [mkLeg (buyer x) (tr_symbol x) Buy (tr_price x) (tr_qty x);
   mkLeg (seller x) (tr_symbol x) Sell (tr_price x) (tr_qty x)].

Definition record_trade (r : t) (x : trade) : t := foldl record_leg r (trade_legs x).

Context `{!HashMapLaws Z ClientExposure M}.

Lemma i64_idem z : i64 (i64 z) = i64 z.
Proof. apply i64_id, i64_range. Qed.

Lemma i64_opp z : i64 (- i64 z) = i64 (- z).
Proof. destruct (i64_spec z) as [k ->]. apply (i64_eqm _ _ (- k)). lia. Qed.

Lemma leg_position_model l :
  i64 (if (side_code (leg_side l) =? side_code Buy)%Z then leg_qty l else i64 (- leg_qty l)) = i64 (leg_position l).
Proof. unfold leg_position. destruct (leg_side l); cbn; [done|apply i64_idem]. Qed.

Lemma leg_cash_model l :
  i64 (if (side_code (leg_side l) =? side_code Sell)%Z then i64 (leg_price l * leg_qty l)
       else i64 (- i64 (leg_price l * leg_qty l))) = i64 (leg_cash l).
Proof.
  unfold leg_cash. destruct (leg_side l); cbn; rewrite ?i64_opp; apply i64_idem.
Qed.

Lemma i64_add_both a b c : i64 a = i64 b → i64 (c + a) = i64 (c + b).
Proof. intros H. by rewrite <- (i64_add_r c a), H, i64_add_r. Qed.

Lemma legs_of_app key ls ls' : legs_of key (ls ++ ls') = legs_of key ls ++ legs_of key ls'.
Proof. apply List.filter_app. Qed.

(** The exposure map holds the ledger of every account. *)
Lemma record_ledger l0 ls key :
  hm_find (exposure (foldl record_leg (create l0) ls)) key = ledger (legs_of key ls).
Proof.
  induction ls as [|l ls IH] using rev_ind; [apply hm_find_empty|].
  rewrite foldl_snoc, legs_of_app. unfold record_leg at 1, record_fill. cbn [exposure].
  rewrite hm_find_assign. fold (leg_key l). unfold legs_of at 2. cbn.
  case_decide as Hk.
  - subst key. rewrite Z.eqb_refl, IH. unfold ledger. rewrite last_snoc.
    rewrite !fmap_app, !zsum_app. cbn [fmap list_fmap]. rewrite !zsum_cons. cbn [zsum foldr].
    rewrite !Z.add_0_r. unfold StrongAmount.add.
    rewrite <- (i64_add_both _ _ _ (leg_position_model l)), <- (i64_add_both _ _ _ (leg_cash_model l)).
    destruct (last (legs_of (leg_key l) ls)) eqn:E;
      cbn [from_option id default_exposure exp_position cash_flow].
    + by rewrite !i64_add_l.
    + apply last_None in E. rewrite E. done.
  - rewrite (proj2 (Z.eqb_neq _ _)) by done. rewrite app_nil_r. apply IH.
Qed.

Lemma limits_foldl r ls :
  limits (foldl record_leg r ls) = limits r ∧ kill_switch (foldl record_leg r ls) = kill_switch r.
Proof. revert r. induction ls as [|l ls IH]; intros r; [done|]. apply (IH (record_leg r l)). Qed.

(** ** Sums over accounts *)

Lemma i64_zsum {A} (f : A → Z) (l : list A) :
  i64 (zsum ((λ x, i64 (f x)) <$> l)) = i64 (zsum (f <$> l)).
Proof.
  induction l as [|x l IH]; [done|]. rewrite !fmap_cons, !zsum_cons.
  rewrite i64_add_l. by apply i64_add_both.
Qed.

Lemma zsum_split_key (f : leg → Z) (keys : list Z) ls :
  NoDup keys → (∀ l, l ∈ ls → leg_key l ∈ keys) →
  zsum ((λ k, zsum (f <$> legs_of k ls)) <$> keys) = zsum (f <$> ls).
Proof.
  intros Hnd. induction ls as [|l ls IH]; intros Hk.
  { cbn. clear. induction keys as [|k keys IHk]; [done|]. rewrite fmap_cons, zsum_cons, IHk. done. }
  rewrite fmap_cons, zsum_cons, <- IH by set_solver.
  assert (leg_key l ∈ keys) as Hl by set_solver. clear IH Hk.
  assert (∀ k, zsum (f <$> legs_of k (l :: ls)) =
    (if decide (k = leg_key l) then f l else 0) + zsum (f <$> legs_of k ls))%Z as Hstep.
  { intros k. unfold legs_of. cbn [List.filter]. case_decide as Hd.
    - subst k. rewrite Z.eqb_refl. done.
    - rewrite (proj2 (Z.eqb_neq _ _)) by done. lia. }
  revert Hl. induction Hnd as [|k keys Hk Hnd IHk]; intros Hl; [set_solver|].
  rewrite !fmap_cons, !zsum_cons, Hstep. case_decide as Hd.
  - subst k. assert (∀ ks, leg_key l ∉ ks →
      zsum ((λ k, zsum (f <$> legs_of k (l :: ls))) <$> ks) =
      zsum ((λ k, zsum (f <$> legs_of k ls)) <$> ks)) as Hout.
    { clear -Hstep. induction ks as [|k ks IH]; intros Hn; [done|].
      rewrite !fmap_cons, !zsum_cons, Hstep, IH by set_solver.
      rewrite decide_False by set_solver. lia. }
    rewrite Hout by done. lia.
  - rewrite IHk by set_solver. lia.
Qed.

Lemma trades_cancel (f : leg → Z) xs :
  (∀ x, zsum (f <$> trade_legs x) = 0%Z) → zsum (f <$> concat (trade_legs <$> xs)) = 0%Z.
Proof.
  intros Hf. induction xs as [|x xs IH]; [done|].
  rewrite fmap_cons. cbn [concat]. by rewrite fmap_app, zsum_app, Hf, IH.
Qed.

Lemma record_trades r xs :
  foldl record_trade r xs = foldl record_leg r (concat (trade_legs <$> xs)).
Proof.
  revert r. induction xs as [|x xs IH]; intros r; [done|].
  rewrite fmap_cons. cbn [foldl concat]. by rewrite foldl_app, IH.
Qed.

(** The exposure of account [key], zero when it never traded. *)
Definition exposure_at (r : t) (key : Z) : ClientExposure :=
  default default_exposure (hm_find (exposure r) key).

Lemma ledger_at l0 ls key :
  exp_position (exposure_at (foldl record_leg (create l0) ls) key) =
    i64 (zsum (leg_position <$> legs_of key ls)) ∧
  cash_flow (exposure_at (foldl record_leg (create l0) ls) key) =
    i64 (zsum (leg_cash <$> legs_of key ls)).
Proof.
  unfold exposure_at. rewrite record_ledger. unfold ledger.
  destruct (last (legs_of key ls)) eqn:E; [done|]. apply last_None in E as ->. done.
Qed.

(** ** Properties *)

(** After any sequence of recorded fills, the exposure of an account is the
    ledger of its fills: position and cash flow are the signed sums (in
    [int64_t]), the mark is the price of its last fill, and accounts without
    fills have no entry. *)
Theorem exposure_is_ledger l0 ls client symbol :
  let r := foldl record_leg (create l0) ls in
  let mine := legs_of (account_key client symbol) ls in
  hm_find (exposure r) (account_key client symbol) = ledger mine ∧
  position r client symbol = i64 (zsum (leg_position <$> mine)) ∧
  limits r = l0 ∧ kill_switch r = false.
Proof.
  cbv zeta. destruct (limits_foldl (create l0) ls) as [Hl Hk].
  split_and!; [apply record_ledger| |exact Hl|exact Hk].
  unfold position. rewrite record_ledger. unfold ledger.
  destruct (last _) eqn:E; [done|]. apply last_None in E as ->. done.
Qed.

(** Over all accounts positions and cash flows sum to zero. *)
Lemma trades_cancel_out l0 xs keys :
  NoDup keys → (∀ l, l ∈ concat (trade_legs <$> xs) → leg_key l ∈ keys) →
  let r := foldl record_trade (create l0) xs in
  i64 (zsum ((λ k, exp_position (exposure_at r k)) <$> keys)) = 0%Z ∧
  i64 (zsum ((λ k, cash_flow (exposure_at r k)) <$> keys)) = 0%Z.
Proof.
  intros Hnd Hk r. unfold r. rewrite record_trades.
  set (ls := concat (trade_legs <$> xs)) in *. split.
  - rewrite (list_fmap_ext _ (λ k, i64 (zsum (leg_position <$> legs_of k ls))))
      by (intros ? k _; apply ledger_at).
    rewrite (i64_zsum (λ k, zsum (leg_position <$> legs_of k ls))), zsum_split_key by done.
    unfold ls. rewrite trades_cancel; [done|]. intros x. cbn. lia.
  - rewrite (list_fmap_ext _ (λ k, i64 (zsum (leg_cash <$> legs_of k ls))))
      by (intros ? k _; apply ledger_at).
    rewrite (i64_zsum (λ k, zsum (leg_cash <$> legs_of k ls))), zsum_split_key by done.
    unfold ls. rewrite trades_cancel; [done|]. intros x. cbn. lia.
Qed.

(** The gate's verdict, with limits and sums that stay in [int64_t]: a new
    order passes exactly when the kill switch is off, its size is within
    the limit, the position it leads to is within the limit in both
    directions, and a known account's marked profit is not below the floor. *)
Theorem check_passes_iff r order :
  is_i64 (ord_quantity order) → is_i64 (- ord_quantity order) →
  is_i64 (max_position (limits r)) → (0 ≤ max_position (limits r))%Z →
  let pos := position r (ord_client order) (ord_symbol order) in
  let target := (pos + match ord_side order with
                       | Buy => ord_quantity order | Sell => - ord_quantity order end)%Z in
  is_i64 target →
  check_new_order r order = RejNone ↔
  kill_switch r = false ∧ (ord_quantity order ≤ max_order_size (limits r))%Z ∧
  (- max_position (limits r) ≤ target ≤ max_position (limits r))%Z ∧
  (hm_find (exposure r) (account_key (ord_client order) (ord_symbol order)) ≠ None →
   (max_loss_per_client (limits r) ≤ pnl r (ord_client order) (ord_symbol order))%Z).
Proof.
  intros Hq Hnq Hm Hm0 pos target Ht. unfold check_new_order, pnl.
  destruct (kill_switch r); [naive_solver|].
  destruct (Z.ltb_spec (max_order_size (limits r)) (ord_quantity order)).
  { split; [done|]. intros (_&?&_). lia. }
  unfold position in pos. cbv zeta.
  set (it := hm_find (exposure r) _) in *.
  assert (i64 (match it with Some x => exp_position x | None => 0%Z end +
    (if decide (ord_side order = Buy) then ord_quantity order else i64 (- ord_quantity order)))
    = target) as ->.
  { rewrite <- (i64_id target Ht). unfold target, pos.
    destruct (ord_side order); [by rewrite decide_True|].
    by rewrite decide_False, (i64_id _ Hnq). }
  rewrite (i64_id (- max_position _)) by (unfold is_i64 in *; lia).
  destruct (Z.ltb_spec (max_position (limits r)) target); cbn [orb].
  { split; [done|]. intros (_&_&?&_). lia. }
  destruct (Z.ltb_spec target (- max_position (limits r))).
  { split; [done|]. intros (_&_&?&_). lia. }
  destruct it as [x|]; [|naive_solver lia].
  destruct (Z.ltb_spec (mark_to_market_pnl x) (max_loss_per_client (limits r))).
  - split; [done|]. intros (_&_&_&Hp). specialize (Hp ltac:(done)). lia.
  - split; [|done]. intros _. split_and!; try done; lia.
Qed.

Lemma position_record r client symbol side price q :
  position (record_fill r client symbol side price q) client symbol =
  i64 (position r client symbol + match read_side side with Buy => q | Sell => - q end).
Proof.
  unfold position, record_fill. cbn [exposure]. rewrite hm_find_assign, decide_True by done.
  cbn [exp_position]. unfold StrongAmount.add.
  replace (exp_position (default default_exposure (hm_find (exposure r) (account_key client symbol))))
    with (match hm_find (exposure r) (account_key client symbol) with
          | Some x => exp_position x | None => 0%Z end) by (by destruct (hm_find _ _)).
  unfold read_side. destruct (side =? side_code Buy)%Z; [done|]. by rewrite i64_add_r.
Qed.

(** C34: the gate bounds the position it checked: if an account is within its
    limit and an order passes, then filling any part of that order leaves
    the account within its limit, provided that the position limit is at most
    2^62, or that limit and quantity together stay below 2^63.  In the first
    case this holds even if the sum the gate computes wraps around; beyond
    both bounds the wrapped sum lets orders through ([gate_wraps]). *)
Theorem gate_bounds_position r order price q :
  let c := ord_client order in
  let s := ord_symbol order in
  is_i64 (ord_quantity order) →
  (max_position (limits r) ≤ 2 ^ 62 ∨ max_position (limits r) + ord_quantity order < 2 ^ 63)%Z →
  (- max_position (limits r) ≤ position r c s ≤ max_position (limits r))%Z →
  check_new_order r order = RejNone → (0 ≤ q ≤ ord_quantity order)%Z →
  let r' := record_fill r c s (ord_side_byte order) price q in
  (- max_position (limits r') ≤ position r' c s ≤ max_position (limits r'))%Z.
Proof.
  intros c s Hoq Hm Hpos Hchk Hq r'. unfold r'. rewrite position_record. cbn [limits record_fill].
  fold (ord_side order).
  unfold check_new_order in Hchk. destruct (kill_switch r); [done|].
  destruct (_ <? ord_quantity order)%Z; [done|]. cbv zeta in Hchk. fold c s in Hchk.
  change (match hm_find (exposure r) (account_key c s) with
    | Some x => exp_position x | None => 0%Z end) with (position r c s) in Hchk.
  destruct (_ || _) eqn:Hb in Hchk; [done|]. bool_to_prop. clear Hchk.
  unfold is_i64 in Hoq.
  rewrite (i64_id (- max_position _)) in * by (unfold is_i64; lia).
  destruct (ord_side order).
  - rewrite decide_True in * by done.
    destruct (decide (position r c s + ord_quantity order < 2 ^ 63)%Z).
    + rewrite i64_id in * by (unfold is_i64; lia). lia.
    + rewrite (i64_eqm _ (position r c s + ord_quantity order - 2 ^ 64) 1) in * by lia.
      rewrite (i64_id (_ - 2 ^ 64)) in * by (unfold is_i64; lia). lia.
  - rewrite decide_False in * by done. rewrite i64_add_r in *.
    destruct (decide (- 2 ^ 63 ≤ position r c s - ord_quantity order)%Z).
    + rewrite i64_id in * by (unfold is_i64; lia). lia.
    + rewrite (i64_eqm _ (position r c s + - ord_quantity order + 2 ^ 64) (-1)) in * by lia.
      rewrite (i64_id (_ + 2 ^ 64)) in * by (unfold is_i64; lia). lia.
Qed.

End engine.

Arguments t : clear implicits.

(** The two halves of an account key do not collide: different clients or
    symbols (32-bit ids) have different keys, so no exposure is shared. *)
Theorem account_key_injective c s c' s' :
  is_u32 c → is_u32 s → is_u32 c' → is_u32 s' →
  account_key c s = account_key c' s' → c = c' ∧ s = s'.
Proof.
  assert (∀ c s, is_u32 c → is_u32 s → account_key c s = c * 2 ^ 32 + s)%Z as Hkey.
  { clear. intros c s Hc Hs. unfold account_key. unfold is_u32 in *.
    rewrite Z.shiftl_mul_pow2, u64_id by (unfold is_u64; lia).
    assert (Z.land (c * 2 ^ 32) s = 0)%Z as Hland.
    { apply Z.bits_inj'. intros n Hn. rewrite Z.land_spec, Z.bits_0.
      destruct (decide (n < 32)%Z).
      - by rewrite Z.mul_pow2_bits_low.
      - rewrite <- (Z.mod_small s (2 ^ 32)) by lia.
        rewrite Z.mod_pow2_bits_high by lia. apply andb_false_r. }
    by rewrite <- Z.lxor_lor, <- Z.add_nocarry_lxor. }
  intros Hc Hs Hc' Hs'. rewrite !Hkey by done. unfold is_u32 in *. lia.
Qed.

(** ** Concrete accounts *)

Definition demo_limits : Limits := mkLimits 100 150 (-1000).

Definition demo_trades : list trade :=
  [mkTrade 1 2 7 100 10; mkTrade 3 1 7 110 10].

Definition demo_risk : t (gmap Z ClientExposure) := foldl record_trade (create demo_limits) demo_trades.

Definition demo_new (side : Side) (qty : Z) : Order :=
  mkOrder 1 2 7 (side_code side) Limit Day 100 qty qty 1 0.

Lemma exposure_is_ledger_witness :
  let ls := concat (trade_legs <$> demo_trades) in
  position (M := gmap Z ClientExposure) (foldl record_leg (create demo_limits) ls) 3 7 = 10%Z.
Proof.
  cbv zeta. destruct (exposure_is_ledger (M := gmap Z ClientExposure) demo_limits
    (concat (trade_legs <$> demo_trades)) 3 7) as (_&H&_).
  etrans; [exact H|]. vm_compute. reflexivity.
Defined.

Lemma check_passes_iff_witness :
  check_new_order demo_risk (demo_new Buy 100) = RejNone ∧ kill_switch demo_risk = false.
Proof.
  assert (check_new_order demo_risk (demo_new Buy 100) = RejNone) as H by (vm_compute; reflexivity).
  split; [exact H|].
  apply (check_passes_iff demo_risk (demo_new Buy 100)) in H as [Hk _]; [exact Hk| | | | |].
  - unfold is_i64; cbn; lia.
  - unfold is_i64; cbn; lia.
  - vm_compute. split; [discriminate|reflexivity].
  - vm_compute. discriminate.
  - vm_compute. split; [discriminate|reflexivity].
Defined.

Lemma gate_bounds_position_witness :
  (position (record_fill demo_risk 2 7 (side_code Buy) 100 60) 2 7 ≤ 150)%Z.
Proof.
  apply (gate_bounds_position demo_risk (demo_new Buy 100) 100 60).
  - unfold is_i64; cbn; lia.
  - left. vm_compute. discriminate.
  - vm_compute. split; discriminate.
  - vm_compute. reflexivity.
  - cbn. lia.
Defined.

(** Limit, position and quantity at the top of [int64_t]: the prospective
    position wraps to -2 and passes, and a fill of one lot takes the position
    to the bottom, outside the limit. *)
Definition top : Z := 2 ^ 63 - 1.

Definition full_risk : t (gmap Z ClientExposure) :=
  record_fill (create (mkLimits top top (- top))) 2 7 (side_code Buy) 0 top.

Lemma gate_wraps :
  position full_risk 2 7 = top ∧ check_new_order full_risk (demo_new Buy top) = RejNone ∧
  position (record_fill full_risk 2 7 (side_code Buy) 0 1) 2 7 = (- 2 ^ 63)%Z.
Proof. split_and!; vm_compute; reflexivity. Qed.

Lemma account_key_injective_witness : account_key 1 7 = (2 ^ 32 + 7)%Z ∧ 1%Z = 1%Z ∧ 7%Z = 7%Z.
Proof.
  split; [reflexivity|].
  apply (account_key_injective 1 7 1 7); first [reflexivity | unfold is_u32; lia].
Defined.

(** Every trade has a buyer and a seller, so over all accounts positions and
    cash flows sum to zero (in [int64_t] arithmetic), for any list of accounts
    that covers the parties of the trades; marked profits do not: client 1
    buys from client 2 at 100 and sells to client 3 at 110, the accounts are
    marked at different prices, and the profits sum to 100. *)
Theorem trades_zero_sum :
  (∀ (M : Type) `{!HashMap Z ClientExposure M, !HashMapLaws Z ClientExposure M} l0 xs keys,
     NoDup keys → (∀ l, l ∈ concat (trade_legs <$> xs) → leg_key l ∈ keys) →
     let r : t M := foldl record_trade (create l0) xs in
     i64 (zsum ((λ k, exp_position (exposure_at r k)) <$> keys)) = 0%Z ∧
     i64 (zsum ((λ k, cash_flow (exposure_at r k)) <$> keys)) = 0%Z) ∧
  (pnl demo_risk 1 7 + pnl demo_risk 2 7 + pnl demo_risk 3 7 = 100)%Z.
Proof. split; [intros; by apply trades_cancel_out|vm_compute; reflexivity]. Qed.

End Risk.
