(* ===== verification/Wire.v ===== *)
(** * Little-endian fields of trivially copyable structs

    [std::memcpy] of a struct copies its object representation.  The wire
    structs have no padding (the sources assert their sizes), so the bytes
    are the fields in declaration order, each little-endian, as on the
    targets the project builds for.  [pack] and [unpack] are that
    representation; [memcpy_from] is a copy out of a buffer that yields
    [None] when it would read past the end. *)

From S2P Require Import Prelude.
From stdpp Require Import base tactics numbers list.

Set Default Goal Selector "!".

Module Wire.

(** ** One field *)

Fixpoint le (n : nat) (z : Z) : list Z :=
  match n with
  | O => []
  | S n => (z mod 256)%Z :: le n (z / 256)
  end.

Definition unle (bs : list Z) : Z := foldr (λ b acc, b + 256 * acc)%Z 0%Z bs.

Definition is_byte (b : Z) : Prop := (0 ≤ b < 256)%Z.
Definition fits (n : nat) (z : Z) : Prop := (0 ≤ z < 256 ^ Z.of_nat n)%Z.

Lemma length_le n z : length (le n z) = n.
Proof. revert z. induction n as [|n IH]; intros z; simpl; [done|]. by rewrite IH. Qed.

Lemma le_bytes n z : Forall is_byte (le n z).
Proof.
  revert z. induction n as [|n IH]; intros z; simpl; constructor; [|apply IH].
  apply Z.mod_pos_bound. lia.
Qed.

Lemma pow256_S n : (256 ^ Z.of_nat (S n) = 256 * 256 ^ Z.of_nat n)%Z.
Proof. rewrite Nat2Z.inj_succ. apply Z.pow_succ_r. lia. Qed.

Lemma unle_le n z : fits n z → unle (le n z) = z.
Proof.
  unfold fits. revert z. induction n as [|n IH]; intros z Hz.
  { cbn in *. change (256 ^ Z.of_nat 0)%Z with 1%Z in Hz. lia. }
  rewrite pow256_S in Hz. cbn [le unle foldr]. change (foldr _ _ _) with (unle (le n (z / 256))).
  pose proof (Z.pow_pos_nonneg 256 (Z.of_nat n) ltac:(lia) ltac:(lia)).
  rewrite IH; [zlia|]. split; [zlia|]. apply Z.div_lt_upper_bound; lia.
Qed.

Lemma unle_fits bs : Forall is_byte bs → fits (length bs) (unle bs).
Proof.
  unfold fits. induction 1 as [|b bs Hb Hbs IH].
  { cbn. change (256 ^ Z.of_nat 0)%Z with 1%Z. lia. }
  cbn [length unle foldr]. change (foldr _ _ _) with (unle bs). rewrite pow256_S.
  unfold is_byte in Hb. lia.
Qed.

Lemma le_unle bs : Forall is_byte bs → le (length bs) (unle bs) = bs.
Proof.
  induction 1 as [|b bs Hb Hbs IH]; [done|].
  cbn [length le unle foldr]. change (foldr _ _ _) with (unle bs). unfold is_byte in Hb.
  replace ((b + 256 * unle bs) mod 256)%Z with b by zlia.
  replace ((b + 256 * unle bs) / 256)%Z with (unle bs) by zlia. by rewrite IH.
Qed.

(** ** A struct: the widths of its fields and their raw values *)

Fixpoint pack (ws : list nat) (vs : list Z) : list Z :=
  match ws, vs with
  | w :: ws, v :: vs => le w v ++ pack ws vs
  | _, _ => []
  end.

Fixpoint unpack (ws : list nat) (bs : list Z) : list Z :=
  match ws with
  | [] => []
  | w :: ws => unle (take w bs) :: unpack ws (drop w bs)
  end.

Definition size_of (ws : list nat) : nat := sum_list ws.

Lemma length_pack ws vs : length vs = length ws → length (pack ws vs) = size_of ws.
Proof.
  unfold size_of. revert vs. induction ws as [|w ws IH]; intros [|v vs] H; try done.
  cbn. rewrite length_app, length_le, IH; [done|]. by injection H.
Qed.

Lemma pack_bytes ws vs : Forall is_byte (pack ws vs).
Proof.
  revert vs. induction ws as [|w ws IH]; intros [|v vs]; try by constructor.
  cbn. apply Forall_app. split; [apply le_bytes|apply IH].
Qed.

Lemma unpack_pack ws vs : Forall2 fits ws vs → unpack ws (pack ws vs) = vs.
Proof.
  induction 1 as [|w v ws vs Hv Hvs IH]; [done|]. cbn [pack unpack].
  rewrite take_app_le, take_ge by (rewrite length_le; lia). rewrite unle_le by done.
  rewrite drop_app_ge, length_le, Nat.sub_diag, drop_0, IH by (rewrite length_le; lia). done.
Qed.

Lemma unpack_fits ws bs :
  length bs = size_of ws → Forall is_byte bs → Forall2 fits ws (unpack ws bs).
Proof.
  unfold size_of. revert bs. induction ws as [|w ws IH]; intros bs Hl Hb; [constructor|].
  cbn in *. constructor.
  - replace w with (length (take w bs)) at 1 by (rewrite length_take; lia).
    apply unle_fits. by apply Forall_take.
  - apply IH; [rewrite length_drop; lia|by apply Forall_drop].
Qed.

Lemma pack_unpack ws bs :
  length bs = size_of ws → Forall is_byte bs → pack ws (unpack ws bs) = bs.
Proof.
  unfold size_of. revert bs. induction ws as [|w ws IH]; intros bs Hl Hb.
  { by destruct bs. }
  cbn in *. rewrite IH; [|rewrite length_drop; lia|by apply Forall_drop].
  replace w with (length (take w bs)) at 1 by (rewrite length_take; lia).
  rewrite le_unle by (by apply Forall_take). apply take_drop.
Qed.

Lemma length_unpack ws bs : length (unpack ws bs) = length ws.
Proof. revert bs. induction ws as [|w ws IH]; intros bs; cbn; [done|]. by rewrite IH. Qed.

(** ** Copying out of a buffer *)

Definition memcpy_from (bs : list Z) (off n : nat) : option (list Z) :=
  if off + n <=? length bs then Some (take n (drop off bs)) else None.

Lemma memcpy_some bs off n :
  off + n ≤ length bs → memcpy_from bs off n = Some (take n (drop off bs)).
Proof. intros H. unfold memcpy_from. by rewrite (proj2 (Nat.leb_le _ _)). Qed.

Lemma memcpy_app (a b c : list Z) :
  memcpy_from (a ++ b ++ c) (length a) (length b) = Some b.
Proof.
  rewrite memcpy_some by (rewrite !length_app; lia).
  by rewrite drop_app_length, take_app_length.
Qed.

(** Writing [src] over the front of a buffer. *)
Definition memcpy_to (out : list Z) (src : list Z) : list Z := src ++ drop (length src) out.

(** ** Two's complement fields *)

Lemma i64_u64 z : is_i64 z → i64 (u64 z) = z.
Proof.
  intros Hz. rewrite <- (i64_id z) at 2 by done. unfold u64.
  apply (i64_eqm _ _ (- (z / 2 ^ 64))). rewrite Z.mod_eq by lia. lia.
Qed.

Lemma u64_i64 z : is_u64 z → u64 (i64 z) = z.
Proof.
  intros Hz. destruct (i64_spec z) as [k ->]. unfold u64.
  rewrite Z_mod_plus_full. by apply u64_id.
Qed.

End Wire.
