(* ===== verification/Protocol.v ===== *)
(** * The wire protocol (src/include/jane/protocol)

    The message structs of messages.hpp and the codec of codec.hpp.  Enum
    members of a message are their byte: [memcpy] can put any byte there,
    and the codec does not look at it.  Every message is an instance of
    [Payload], the counterpart of [MessageTraits] and [sizeof]; the codec
    and its theorems are generic over the class.

    A decoder returns [None] only if it would read past the buffer. *)

From S2P Require Import Prelude Wire.
From stdpp Require Import base tactics numbers list.

Set Default Goal Selector "!".

Module Protocol.
Import Wire.

(** ** Messages *)

Inductive MessageType :=
  | MtNewOrder | MtCancelOrder | MtReplaceOrder | MtExecutionReport | MtTrade
  | MtBookDelta | MtBookSnapshot.

Definition type_code (t : MessageType) : Z :=
  match t with
  | MtNewOrder => 1 | MtCancelOrder => 2 | MtReplaceOrder => 3 | MtExecutionReport => 4
  | MtTrade => 5 | MtBookDelta => 6 | MtBookSnapshot => 7
  end.

Record MessageHeader := mkHeader { h_length : Z; h_type : Z; h_reserved : Z }.

Record NewOrderMessage := mkNewOrder {
  no_order_id : Z; no_price : Z; no_quantity : Z; no_client_id : Z; no_symbol_id : Z;
  no_side : Z; no_order_type : Z; no_time_in_force : Z; no_reserved : Z;
}.

Record CancelOrderMessage := mkCancelOrder {
  co_order_id : Z; co_client_id : Z; co_symbol_id : Z;
}.

Record ReplaceOrderMessage := mkReplaceOrder {
  ro_order_id : Z; ro_new_price : Z; ro_new_quantity : Z; ro_client_id : Z; ro_symbol_id : Z;
}.

Inductive ExecType := ExNew | ExPartialFill | ExFill | ExCancelled | ExReplaced | ExRejected.

Definition exec_code (t : ExecType) : Z :=
  match t with
  | ExNew => 0 | ExPartialFill => 1 | ExFill => 2 | ExCancelled => 3 | ExReplaced => 4
  | ExRejected => 5
  end.

Record ExecutionReportMessage := mkExecutionReport {
  er_order_id : Z; er_match_id : Z; er_price : Z; er_last_quantity : Z; er_leaves_quantity : Z;
  er_client_id : Z; er_symbol_id : Z; er_exec_type : Z; er_reject_reason : Z; er_reserved : Z;
}.

Record TradeMessage := mkTrade {
  tm_sequence : Z; tm_match_id : Z; tm_price : Z; tm_quantity : Z; tm_symbol_id : Z;
  tm_aggressor_side : Z; tm_reserved : Z;
}.

Inductive DeltaAction := DeltaUpdate | DeltaDelete.

Definition delta_code (a : DeltaAction) : Z :=
  match a with DeltaUpdate => 0 | DeltaDelete => 1 end.

Record BookDeltaMessage := mkBookDelta {
  bd_sequence : Z; bd_price : Z; bd_aggregate_quantity : Z; bd_symbol_id : Z;
  bd_order_count : Z; bd_side : Z; bd_action : Z; bd_reserved : Z;
}.

Record BookSnapshotHeader := mkSnapshotHeader {
  sh_sequence : Z; sh_symbol_id : Z; sh_bid_level_count : Z; sh_ask_level_count : Z;
}.

Record PriceLevelRecord := mkLevelRecord {
  pl_price : Z; pl_aggregate_quantity : Z; pl_order_count : Z; pl_reserved : Z;
}.

(** ** Layouts *)

(** A trivially copyable struct: field widths, raw field values, and the
    ranges its C++ types impose. *)
Class Layout (T : Type) := {
  l_widths : list nat;
  l_fields : T → list Z;
  l_make : list Z → T;
  l_typed : T → Prop;
}.

Class LayoutLaws (T : Type) `{!Layout T} : Prop := {
  l_fits (x : T) : l_typed x → Forall2 fits l_widths (l_fields x);
  l_make_fields (x : T) : l_typed x → l_make (l_fields x) = x;
  l_fields_make vs : Forall2 fits l_widths vs → l_fields (l_make vs : T) = vs;
  l_make_typed vs : Forall2 fits l_widths vs → l_typed (l_make vs : T);
}.

(** A message that is framed by itself: a layout with its wire tag. *)
Class Payload (T : Type) `{!Layout T} := { p_type : MessageType }.

Definition sizeof (T : Type) `{!Layout T} : nat := size_of (l_widths (T := T)).
Definition bytes_of `{!Layout T} (x : T) : list Z := pack l_widths (l_fields x).
Definition of_bytes `{!Layout T} (bs : list Z) : T := l_make (unpack l_widths bs).

(** [T{}] *)
Definition zeroed (T : Type) `{!Layout T} : T := l_make (replicate (length (l_widths (T := T))) 0%Z).

#[export] Instance header_layout : Layout MessageHeader := {|
  l_widths := [2; 1; 1];
  l_fields h := [h_length h; h_type h; h_reserved h];
  l_make vs := match vs with [l; t; r] => mkHeader l t r | _ => mkHeader 0 0 0 end;
  l_typed h := is_u16 (h_length h) ∧ is_u8 (h_type h) ∧ is_u8 (h_reserved h);
|}.

#[export] Instance new_order_layout : Layout NewOrderMessage := {|
  l_widths := [8; 8; 8; 4; 4; 1; 1; 1; 5];
  l_fields m := [no_order_id m; u64 (no_price m); u64 (no_quantity m); no_client_id m;
    no_symbol_id m; no_side m; no_order_type m; no_time_in_force m; no_reserved m];
  l_make vs := match vs with
    | [a; b; c; d; e; f; g; h; i] => mkNewOrder a (i64 b) (i64 c) d e f g h i
    | _ => mkNewOrder 0 0 0 0 0 0 0 0 0 end;
  l_typed m := is_u64 (no_order_id m) ∧ is_i64 (no_price m) ∧ is_i64 (no_quantity m) ∧
    is_u32 (no_client_id m) ∧ is_u32 (no_symbol_id m) ∧ is_u8 (no_side m) ∧
    is_u8 (no_order_type m) ∧ is_u8 (no_time_in_force m) ∧ fits 5 (no_reserved m);
|}.

#[export] Instance cancel_order_layout : Layout CancelOrderMessage := {|
  l_widths := [8; 4; 4];
  l_fields m := [co_order_id m; co_client_id m; co_symbol_id m];
  l_make vs := match vs with [a; b; c] => mkCancelOrder a b c | _ => mkCancelOrder 0 0 0 end;
  l_typed m := is_u64 (co_order_id m) ∧ is_u32 (co_client_id m) ∧ is_u32 (co_symbol_id m);
|}.

#[export] Instance replace_order_layout : Layout ReplaceOrderMessage := {|
  l_widths := [8; 8; 8; 4; 4];
  l_fields m := [ro_order_id m; u64 (ro_new_price m); u64 (ro_new_quantity m);
    ro_client_id m; ro_symbol_id m];
  l_make vs := match vs with
    | [a; b; c; d; e] => mkReplaceOrder a (i64 b) (i64 c) d e
    | _ => mkReplaceOrder 0 0 0 0 0 end;
  l_typed m := is_u64 (ro_order_id m) ∧ is_i64 (ro_new_price m) ∧ is_i64 (ro_new_quantity m) ∧
    is_u32 (ro_client_id m) ∧ is_u32 (ro_symbol_id m);
|}.

#[export] Instance execution_report_layout : Layout ExecutionReportMessage := {|
  l_widths := [8; 8; 8; 8; 8; 4; 4; 1; 1; 6];
  l_fields m := [er_order_id m; er_match_id m; u64 (er_price m); u64 (er_last_quantity m);
    u64 (er_leaves_quantity m); er_client_id m; er_symbol_id m; er_exec_type m;
    er_reject_reason m; er_reserved m];
  l_make vs := match vs with
    | [a; b; c; d; e; f; g; h; i; j] => mkExecutionReport a b (i64 c) (i64 d) (i64 e) f g h i j
    | _ => mkExecutionReport 0 0 0 0 0 0 0 0 0 0 end;
  l_typed m := is_u64 (er_order_id m) ∧ is_u64 (er_match_id m) ∧ is_i64 (er_price m) ∧
    is_i64 (er_last_quantity m) ∧ is_i64 (er_leaves_quantity m) ∧ is_u32 (er_client_id m) ∧
    is_u32 (er_symbol_id m) ∧ is_u8 (er_exec_type m) ∧ is_u8 (er_reject_reason m) ∧
    fits 6 (er_reserved m);
|}.

#[export] Instance trade_layout : Layout TradeMessage := {|
  l_widths := [8; 8; 8; 8; 4; 1; 3];
  l_fields m := [tm_sequence m; tm_match_id m; u64 (tm_price m); u64 (tm_quantity m);
    tm_symbol_id m; tm_aggressor_side m; tm_reserved m];
  l_make vs := match vs with
    | [a; b; c; d; e; f; g] => mkTrade a b (i64 c) (i64 d) e f g
    | _ => mkTrade 0 0 0 0 0 0 0 end;
  l_typed m := is_u64 (tm_sequence m) ∧ is_u64 (tm_match_id m) ∧ is_i64 (tm_price m) ∧
    is_i64 (tm_quantity m) ∧ is_u32 (tm_symbol_id m) ∧ is_u8 (tm_aggressor_side m) ∧
    fits 3 (tm_reserved m);
|}.

#[export] Instance book_delta_layout : Layout BookDeltaMessage := {|
  l_widths := [8; 8; 8; 4; 4; 1; 1; 6];
  l_fields m := [bd_sequence m; u64 (bd_price m); u64 (bd_aggregate_quantity m);
    bd_symbol_id m; bd_order_count m; bd_side m; bd_action m; bd_reserved m];
  l_make vs := match vs with
    | [a; b; c; d; e; f; g; h] => mkBookDelta a (i64 b) (i64 c) d e f g h
    | _ => mkBookDelta 0 0 0 0 0 0 0 0 end;
  l_typed m := is_u64 (bd_sequence m) ∧ is_i64 (bd_price m) ∧ is_i64 (bd_aggregate_quantity m) ∧
    is_u32 (bd_symbol_id m) ∧ is_u32 (bd_order_count m) ∧ is_u8 (bd_side m) ∧
    is_u8 (bd_action m) ∧ fits 6 (bd_reserved m);
|}.

#[export] Instance snapshot_header_layout : Layout BookSnapshotHeader := {|
  l_widths := [8; 4; 2; 2];
  l_fields m := [sh_sequence m; sh_symbol_id m; sh_bid_level_count m; sh_ask_level_count m];
  l_make vs := match vs with
    | [a; b; c; d] => mkSnapshotHeader a b c d | _ => mkSnapshotHeader 0 0 0 0 end;
  l_typed m := is_u64 (sh_sequence m) ∧ is_u32 (sh_symbol_id m) ∧
    is_u16 (sh_bid_level_count m) ∧ is_u16 (sh_ask_level_count m);
|}.

#[export] Instance level_record_layout : Layout PriceLevelRecord := {|
  l_widths := [8; 8; 4; 4];
  l_fields m := [u64 (pl_price m); u64 (pl_aggregate_quantity m); pl_order_count m; pl_reserved m];
  l_make vs := match vs with
    | [a; b; c; d] => mkLevelRecord (i64 a) (i64 b) c d | _ => mkLevelRecord 0 0 0 0 end;
  l_typed m := is_i64 (pl_price m) ∧ is_i64 (pl_aggregate_quantity m) ∧
    is_u32 (pl_order_count m) ∧ fits 4 (pl_reserved m);
|}.

#[export] Instance new_order_payload : Payload NewOrderMessage := {| p_type := MtNewOrder |}.
#[export] Instance cancel_order_payload : Payload CancelOrderMessage := {| p_type := MtCancelOrder |}.
#[export] Instance replace_order_payload : Payload ReplaceOrderMessage :=
  {| p_type := MtReplaceOrder |}.
#[export] Instance execution_report_payload : Payload ExecutionReportMessage :=
  {| p_type := MtExecutionReport |}.
#[export] Instance trade_payload : Payload TradeMessage := {| p_type := MtTrade |}.
#[export] Instance book_delta_payload : Payload BookDeltaMessage := {| p_type := MtBookDelta |}.

(** *** The laws, for every struct at once *)

Lemma u64_fits8 z : fits 8 (u64 z).
Proof. apply u64_range. Qed.

Ltac inv_fits :=
  repeat match goal with
  | H : Forall2 _ (_ :: _) _ |- _ => inversion H; clear H; subst
  | H : Forall2 _ [] _ |- _ => inversion H; clear H; subst
  end.

Ltac solve_layout :=
  split;
  [ intros x Hx; cbn in *; destruct_and?;
    repeat (eapply List.Forall2_cons; [first [apply u64_fits8 | done]|]); apply List.Forall2_nil
  | intros [] Hx; cbn in *; destruct_and?; rewrite ?i64_u64 by done; done
  | intros vs Hvs; cbn in Hvs; inv_fits; cbn; rewrite ?u64_i64 by done; done
  | intros vs Hvs; cbn in Hvs; inv_fits; cbn; split_and?; first [apply i64_range | done] ].

#[export] Instance header_laws : LayoutLaws MessageHeader.
Proof. solve_layout. Qed.
#[export] Instance new_order_laws : LayoutLaws NewOrderMessage.
Proof. solve_layout. Qed.
#[export] Instance cancel_order_laws : LayoutLaws CancelOrderMessage.
Proof. solve_layout. Qed.
#[export] Instance replace_order_laws : LayoutLaws ReplaceOrderMessage.
Proof. solve_layout. Qed.
#[export] Instance execution_report_laws : LayoutLaws ExecutionReportMessage.
Proof. solve_layout. Qed.
#[export] Instance trade_laws : LayoutLaws TradeMessage.
Proof. solve_layout. Qed.
#[export] Instance book_delta_laws : LayoutLaws BookDeltaMessage.
Proof. solve_layout. Qed.
#[export] Instance snapshot_header_laws : LayoutLaws BookSnapshotHeader.
Proof. solve_layout. Qed.
#[export] Instance level_record_laws : LayoutLaws PriceLevelRecord.
Proof. solve_layout. Qed.

End Protocol.
