(* ===== verification/Codec.v ===== *)
(** * The codec (src/include/jane/protocol/codec.hpp)

    [encode], [peek_header], [decode], [encode_snapshot] and
    [decode_snapshot] over byte lists.  The theorems: what is encoded is
    decoded back, with any bytes behind it; a decoder is defined on every
    buffer (it never reads past the end) and accepts exactly the frames; a
    strict prefix of a frame is [Incomplete]. *)

From S2P Require Import Prelude Wire Protocol.
From stdpp Require Import base tactics numbers list.

Set Default Goal Selector "!".

Module Codec.
Import Wire Protocol.

Inductive DecodeStatus := Ok | Incomplete | UnexpectedType | Malformed.

Record DecodeResult (T : Type) := mkDecode {
  d_status : DecodeStatus; d_payload : T; d_consumed : nat;
}.
Arguments mkDecode {T}.
Arguments d_status {T}.
Arguments d_payload {T}.
Arguments d_consumed {T}.

(** [{.status = s}]: the other members have their defaults. *)
Definition failed {T : Type} `{!Layout T} (s : DecodeStatus) : DecodeResult T :=
  mkDecode s (zeroed T) 0.

(** The number of bytes written and the buffer afterwards. *)
Definition encode {T : Type} `{!Layout T, !Payload T} (out : list Z) (payload : T)
    : nat * list Z :=
  let total := sizeof MessageHeader + sizeof T in
  if length out <? total then (0, out)
  else
    let header := mkHeader (u16 (Z.of_nat (sizeof T))) (type_code (p_type (T := T))) 0 in
    (total, memcpy_to out (bytes_of header ++ bytes_of payload)).

(** The outer option is the copy, the inner one the function's result. *)
Definition peek_header (bs : list Z) : option (option MessageHeader) :=
  if length bs <? sizeof MessageHeader then Some None
  else
    h ← memcpy_from bs 0 (sizeof MessageHeader);
    Some (Some (of_bytes h)).

Definition decode (T : Type) `{!Layout T, !Payload T} (bs : list Z) : option (DecodeResult T) :=
  header ← peek_header bs;
  match header with
  | None => Some (failed Incomplete)
  | Some header =>
      if negb (h_type header =? type_code (p_type (T := T)))%Z then Some (failed UnexpectedType)
      else if negb (h_length header =? Z.of_nat (sizeof T))%Z then Some (failed Malformed)
      else
        let total := sizeof MessageHeader + Z.to_nat (h_length header) in
        if length bs <? total then Some (failed Incomplete)
        else
          payload ← memcpy_from bs (sizeof MessageHeader) (sizeof T);
          Some (mkDecode Ok (of_bytes payload) total)
  end.

(** ** Snapshots *)

Definition encode_snapshot (out : list Z) (sequence symbol_id : Z)
    (bids asks : list PriceLevelRecord) : nat * list Z :=
  let payload_bytes :=
    sizeof BookSnapshotHeader + (length bids + length asks) * sizeof PriceLevelRecord in
  let total := sizeof MessageHeader + payload_bytes in
  if (length out <? total) || (65535 <? Z.of_nat (length bids))%Z ||
     (65535 <? Z.of_nat (length asks))%Z || (65535 <? Z.of_nat payload_bytes)%Z
  then (0, out)
  else
    let header := mkHeader (u16 (Z.of_nat payload_bytes)) (type_code MtBookSnapshot) 0 in
    let snap_header := mkSnapshotHeader sequence symbol_id
      (u16 (Z.of_nat (length bids))) (u16 (Z.of_nat (length asks))) in
    (total, memcpy_to out (bytes_of header ++ bytes_of snap_header ++
       concat (bytes_of <$> bids) ++ concat (bytes_of <$> asks))).

Record SnapshotDecodeResult := mkSnapshotDecode {
  sd_status : DecodeStatus;
  sd_header : BookSnapshotHeader;
  sd_bids : list PriceLevelRecord;
  sd_asks : list PriceLevelRecord;
  sd_consumed : nat;
}.

Definition failed_snapshot (s : DecodeStatus) : SnapshotDecodeResult :=
  mkSnapshotDecode s (zeroed BookSnapshotHeader) [] [] 0.

(** An array of [n] records from its bytes. *)
Fixpoint records (n : nat) (bs : list Z) : list PriceLevelRecord :=
  match n with
  | O => []
  | S n => of_bytes (take (sizeof PriceLevelRecord) bs) ::
           records n (drop (sizeof PriceLevelRecord) bs)
  end.

Definition decode_snapshot (bs : list Z) : option SnapshotDecodeResult :=
  header ← peek_header bs;
  match header with
  | None => Some (failed_snapshot Incomplete)
  | Some header =>
      if negb (h_type header =? type_code MtBookSnapshot)%Z
      then Some (failed_snapshot UnexpectedType)
      else
        let len := Z.to_nat (h_length header) in
        let total := sizeof MessageHeader + len in
        if length bs <? total then Some (failed_snapshot Incomplete)
        else if len <? sizeof BookSnapshotHeader then Some (failed_snapshot Malformed)
        else
          hb ← memcpy_from bs (sizeof MessageHeader) (sizeof BookSnapshotHeader);
          let snap_header : BookSnapshotHeader := of_bytes hb in
          let nb := Z.to_nat (sh_bid_level_count snap_header) in
          let na := Z.to_nat (sh_ask_level_count snap_header) in
          let level_bytes := (nb + na) * sizeof PriceLevelRecord in
          if negb (sizeof BookSnapshotHeader + level_bytes =? len)
          then Some (failed_snapshot Malformed)
          else
            let cursor := sizeof MessageHeader + sizeof BookSnapshotHeader in
            bb ← memcpy_from bs cursor (nb * sizeof PriceLevelRecord);
            ab ← memcpy_from bs (cursor + nb * sizeof PriceLevelRecord)
                   (na * sizeof PriceLevelRecord);
            Some (mkSnapshotDecode Ok snap_header (records nb bb) (records na ab) total)
  end.

(** ** Layout lemmas *)

Section layout.
Context {T : Type} `{!Layout T, !LayoutLaws T}.

Lemma length_bytes_of (x : T) : l_typed x → length (bytes_of x) = sizeof T.
Proof. intros H. apply length_pack. symmetry. eapply Forall2_length, l_fits, H. Qed.

Lemma of_bytes_of (x : T) : l_typed x → of_bytes (bytes_of x) = x.
Proof.
  intros H. unfold of_bytes, bytes_of. rewrite unpack_pack by by apply l_fits.
  by apply l_make_fields.
Qed.

Lemma of_bytes_typed bs :
  length bs = sizeof T → Forall is_byte bs → l_typed (of_bytes bs : T).
Proof. intros Hl Hb. apply l_make_typed, unpack_fits; done. Qed.

Lemma bytes_of_of bs :
  length bs = sizeof T → Forall is_byte bs → bytes_of (of_bytes bs : T) = bs.
Proof.
  intros Hl Hb. unfold bytes_of, of_bytes. rewrite l_fields_make by by apply unpack_fits.
  by apply pack_unpack.
Qed.

End layout.

Lemma type_code_byte t : is_u8 (type_code t).
Proof. destruct t; unfold is_u8; simpl; lia. Qed.

Lemma peek_frame h rest :
  l_typed h → peek_header (bytes_of h ++ rest) = Some (Some h).
Proof.
  intros Hh. unfold peek_header. pose proof (length_bytes_of h Hh) as Hl.
  rewrite (proj2 (Nat.ltb_ge _ _)) by (rewrite length_app; lia).
  rewrite memcpy_some by (rewrite length_app; lia). rewrite drop_0, <- Hl, take_app_length.
  cbn [mbind option_bind]. by rewrite of_bytes_of.
Qed.

Lemma peek_short bs : length bs < sizeof MessageHeader → peek_header bs = Some None.
Proof. intros H. unfold peek_header. by rewrite (proj2 (Nat.ltb_lt _ _)). Qed.

(** Every buffer of bytes starts with a header or is too short. *)
Lemma peek_cases bs :
  Forall is_byte bs →
  (length bs < sizeof MessageHeader ∧ peek_header bs = Some None) ∨
  ∃ h rest, l_typed h ∧ bs = bytes_of h ++ rest ∧ peek_header bs = Some (Some h).
Proof.
  intros Hb. destruct (decide (length bs < sizeof MessageHeader)) as [Hs|Hs].
  { left. split; [done|]. by apply peek_short. }
  right. exists (of_bytes (take (sizeof MessageHeader) bs)), (drop (sizeof MessageHeader) bs).
  assert (length (take (sizeof MessageHeader) bs) = sizeof MessageHeader) as Hl
    by (rewrite length_take; lia).
  assert (l_typed (of_bytes (take (sizeof MessageHeader) bs) : MessageHeader)) as Ht.
  { apply of_bytes_typed; [done|]. by apply Forall_take. }
  assert (bs = bytes_of (of_bytes (take (sizeof MessageHeader) bs) : MessageHeader) ++
    drop (sizeof MessageHeader) bs) as E.
  { rewrite bytes_of_of by (done || by apply Forall_take). by rewrite take_drop. }
  split_and!; [done|done|]. rewrite E at 1. by apply peek_frame.
Qed.

(** ** Single messages *)

Section message.
Context {T : Type} `{!Layout T, !Payload T, !LayoutLaws T}.

(** The bytes of a framed message, with any value in the header's reserved byte. *)
Definition frame (reserved : Z) (x : T) : list Z :=
  bytes_of (mkHeader (Z.of_nat (sizeof T)) (type_code (p_type (T := T))) reserved) ++ bytes_of x.

Definition frame_size : nat := sizeof MessageHeader + sizeof T.

Context (Hsize : (Z.of_nat (sizeof T) ≤ 65535)%Z).

Lemma frame_header_typed reserved :
  is_u8 reserved →
  l_typed (mkHeader (Z.of_nat (sizeof T)) (type_code (p_type (T := T))) reserved).
Proof.
  intros Hr. cbn. split_and!; [unfold is_u16; lia|apply type_code_byte|done].
Qed.

Lemma length_frame reserved x :
  is_u8 reserved → l_typed x → length (frame reserved x) = frame_size.
Proof.
  intros Hr Hx. unfold frame, frame_size. rewrite length_app, !length_bytes_of; [done|done|].
  by apply frame_header_typed.
Qed.

Lemma decode_frame reserved x rest :
  is_u8 reserved → l_typed x →
  decode T (frame reserved x ++ rest) = Some (mkDecode Ok x frame_size).
Proof.
  intros Hr Hx. unfold decode, frame. set (h := mkHeader _ _ _).
  assert (l_typed h) as Hh by by apply frame_header_typed.
  pose proof (length_bytes_of h Hh) as Hlh. pose proof (length_bytes_of x Hx) as Hlx.
  rewrite <- app_assoc, peek_frame by done. cbn [mbind option_bind h_type h_length h].
  rewrite !Z.eqb_refl. cbn [negb]. rewrite Nat2Z.id.
  rewrite (proj2 (Nat.ltb_ge _ _)) by (rewrite !length_app; lia).
  rewrite <- Hlh at 1. rewrite <- Hlx at 1. rewrite memcpy_app. cbn [mbind option_bind].
  by rewrite of_bytes_of.
Qed.

Lemma u16_size : u16 (Z.of_nat (sizeof T)) = Z.of_nat (sizeof T).
Proof. unfold u16. apply Z.mod_small. lia. Qed.

Lemma encode_frame out x :
  l_typed x → frame_size ≤ length out →
  encode out x = (frame_size, frame 0 x ++ drop frame_size out).
Proof.
  intros Hx Ho. unfold encode. fold (frame_size). rewrite (proj2 (Nat.ltb_ge _ _)) by done.
  rewrite u16_size. unfold memcpy_to. fold (frame 0 x).
  rewrite length_frame by (done || unfold is_u8; lia). done.
Qed.

(** C24: decoding inverts encoding, for every message type: into any buffer with
    room, [encode] writes exactly the frame and leaves the bytes behind it
    alone, and [decode] returns the same message and its length, whatever
    follows; without room nothing is written. *)
Theorem encode_decode out x more :
  l_typed x →
  (length out < frame_size → encode out x = (0, out)) ∧
  (frame_size ≤ length out →
    ∃ out', encode out x = (frame_size, out') ∧ length out' = length out ∧
      drop frame_size out' = drop frame_size out ∧
      decode T (out' ++ more) = Some (mkDecode Ok x frame_size)).
Proof.
  intros Hx. split.
  - intros Ho. unfold encode. fold frame_size. by rewrite (proj2 (Nat.ltb_lt _ _)).
  - intros Ho. rewrite encode_frame by done. eexists. split; [done|].
    assert (is_u8 0) as H0 by (unfold is_u8; lia).
    pose proof (length_frame 0 x H0 Hx) as Hl. split_and!.
    + rewrite length_app, length_drop. lia.
    + by rewrite <- Hl, drop_app_length.
    + rewrite <- app_assoc. by apply decode_frame.
Qed.

(** The buffer starts with the header [h]. *)
Definition starts_with (bs : list Z) (h : MessageHeader) : Prop :=
  l_typed h ∧ ∃ rest, bs = bytes_of h ++ rest.

(** The buffers each answer is for. *)
Definition answer_for (bs : list Z) (status : DecodeStatus) : Prop :=
  match status with
  | Ok => ∃ reserved x rest, is_u8 reserved ∧ l_typed x ∧ bs = frame reserved x ++ rest
  | Incomplete => length bs < sizeof MessageHeader ∨
      length bs < frame_size ∧ ∃ h, starts_with bs h ∧
        h_type h = type_code (p_type (T := T)) ∧ h_length h = Z.of_nat (sizeof T)
  | UnexpectedType => ∃ h, starts_with bs h ∧ h_type h ≠ type_code (p_type (T := T))
  | Malformed => ∃ h, starts_with bs h ∧
      h_type h = type_code (p_type (T := T)) ∧ h_length h ≠ Z.of_nat (sizeof T)
  end.

Lemma decode_answers bs :
  Forall is_byte bs → ∃ r, decode T bs = Some r ∧ answer_for bs (d_status r).
Proof.
  intros Hb. unfold answer_for.
  unfold decode. destruct (peek_cases bs Hb) as [[Hl ->]|(h&rest&Hh&->&->)]; cbn [mbind option_bind].
  { eexists. split; [done|]. by left. }
  pose proof (length_bytes_of h Hh) as Hlh.
  assert (starts_with (bytes_of h ++ rest) h) as Hst by (split; [done|by exists rest]).
  destruct (Z.eqb_spec (h_type h) (type_code (p_type (T := T)))) as [Ht|Ht]; cbn [negb];
    [|by eexists; split; [done|exists h]].
  destruct (Z.eqb_spec (h_length h) (Z.of_nat (sizeof T))) as [Hl|Hl]; cbn [negb];
    [|by eexists; split; [done|exists h]].
  rewrite Hl, Nat2Z.id.
  destruct (Nat.ltb_spec (length (bytes_of h ++ rest)) (sizeof MessageHeader + sizeof T))
    as [Hlt|Hlen]; [eexists; split; [done|right]; by split; [|exists h]|].
  rewrite length_app in Hlen. apply Forall_app in Hb as [_ Hb].
  assert (length (take (sizeof T) rest) = sizeof T) as Hlt by (rewrite length_take; lia).
  rewrite memcpy_some by (rewrite length_app; lia).
  replace (drop (sizeof MessageHeader) (bytes_of h ++ rest)) with rest
    by (by rewrite <- Hlh, drop_app_length).
  eexists. split; [done|]. cbn [d_status]. destruct Hh as (_&_&Hres).
  exists (h_reserved h), (of_bytes (take (sizeof T) rest)), (drop (sizeof T) rest).
  split_and!; [done|apply of_bytes_typed; [done|by apply Forall_take]|].
  unfold frame. rewrite bytes_of_of by (done || by apply Forall_take).
  rewrite <- app_assoc, take_drop, <- Ht, <- Hl. by destruct h.
Qed.

(** C25: [decode] is defined on every buffer of bytes, truncated or garbage, so it
    never reads past the end, and its answer is exact.  On a buffer that
    starts with a frame of this message type it answers [Ok] with the framed
    message, whatever follows; it answers [Ok] on no other buffer.
    [Incomplete] means that the header, or the payload behind a right header,
    is cut off; [UnexpectedType] that the header names another type;
    [Malformed] that it names this type with a wrong length. *)
Theorem decode_accepts_frames bs :
  Forall is_byte bs →
  ∃ r, decode T bs = Some r ∧
    (∀ reserved x rest, is_u8 reserved → l_typed x → bs = frame reserved x ++ rest →
       r = mkDecode Ok x frame_size) ∧
    answer_for bs (d_status r).
Proof.
  intros Hb. destruct (decode_answers bs Hb) as (r&E&Hr). exists r. split_and!; [done| |done].
  intros reserved x rest Hres Hx ->. rewrite decode_frame in E by done. by injection E as <-.
Qed.

(** A stream parser can wait for more bytes: every strict prefix of a frame
    decodes to [Incomplete]. *)
Theorem decode_prefix_incomplete reserved x n :
  is_u8 reserved → l_typed x → n < frame_size →
  decode T (take n (frame reserved x)) = Some (failed Incomplete).
Proof.
  intros Hr Hx Hn. unfold decode, frame. set (h := mkHeader _ _ _).
  assert (l_typed h) as Hh by by apply frame_header_typed.
  pose proof (length_bytes_of h Hh) as Hlh. pose proof (length_bytes_of x Hx) as Hlx.
  unfold frame_size in Hn.
  destruct (decide (n < sizeof MessageHeader)) as [Hs|Hs].
  { rewrite peek_short; [done|]. rewrite length_take, length_app. lia. }
  rewrite take_app_ge by lia. rewrite peek_frame by done.
  cbn [mbind option_bind h_type h_length h]. rewrite !Z.eqb_refl. cbn [negb]. rewrite Nat2Z.id.
  rewrite (proj2 (Nat.ltb_lt _ _)); [done|]. rewrite length_app, length_take. lia.
Qed.

End message.

(** The sizes the sources assert. *)
Lemma struct_sizes :
  sizeof MessageHeader = 4 ∧ sizeof NewOrderMessage = 40 ∧ sizeof CancelOrderMessage = 16 ∧
  sizeof ReplaceOrderMessage = 32 ∧ sizeof ExecutionReportMessage = 56 ∧
  sizeof TradeMessage = 40 ∧ sizeof BookDeltaMessage = 40 ∧ sizeof BookSnapshotHeader = 16 ∧
  sizeof PriceLevelRecord = 24.
Proof. done. Qed.

(** ** Snapshots *)

Lemma length_records_bytes (rs : list PriceLevelRecord) :
  Forall l_typed rs → length (concat (bytes_of <$> rs)) = length rs * sizeof PriceLevelRecord.
Proof.
  induction 1 as [|r rs Hr Hrs IH]; [done|]. rewrite fmap_cons. cbn [concat].
  rewrite length_app, length_bytes_of, IH by done. cbn [length]. lia.
Qed.

Lemma records_bytes (rs : list PriceLevelRecord) :
  Forall l_typed rs → records (length rs) (concat (bytes_of <$> rs)) = rs.
Proof.
  induction 1 as [|r rs Hr Hrs IH]; [done|]. rewrite fmap_cons. cbn [length records concat].
  pose proof (length_bytes_of r Hr) as Hl. rewrite <- Hl, take_app_length, drop_app_length.
  by rewrite of_bytes_of, IH.
Qed.

Lemma length_records n bs : length (records n bs) = n.
Proof. revert bs. induction n as [|n IH]; intros bs; cbn [records length]; [done|]. by rewrite IH. Qed.

Lemma memcpy_at (bs a b c : list Z) off n :
  bs = a ++ b ++ c → off = length a → n = length b → memcpy_from bs off n = Some b.
Proof. intros -> -> ->. apply memcpy_app. Qed.

(** The bytes of a framed snapshot. *)
Definition snapshot_frame (sequence symbol_id : Z) (bids asks : list PriceLevelRecord) : list Z :=
  let n := sizeof BookSnapshotHeader + (length bids + length asks) * sizeof PriceLevelRecord in
  bytes_of (mkHeader (Z.of_nat n) (type_code MtBookSnapshot) 0) ++
  bytes_of (mkSnapshotHeader sequence symbol_id (Z.of_nat (length bids)) (Z.of_nat (length asks))) ++
  concat (bytes_of <$> bids) ++ concat (bytes_of <$> asks).

Definition snapshot_size (bids asks : list PriceLevelRecord) : nat :=
  4 + (16 + (length bids + length asks) * 24).

Definition snapshot_fits (bids asks : list PriceLevelRecord) : Prop :=
  (Z.of_nat (16 + (length bids + length asks) * 24) ≤ 65535)%Z.

Lemma decode_snapshot_frame sequence symbol_id bids asks rest :
  is_u64 sequence → is_u32 symbol_id → Forall l_typed bids → Forall l_typed asks →
  snapshot_fits bids asks →
  decode_snapshot (snapshot_frame sequence symbol_id bids asks ++ rest) =
    Some (mkSnapshotDecode Ok
      (mkSnapshotHeader sequence symbol_id (Z.of_nat (length bids)) (Z.of_nat (length asks)))
      bids asks (snapshot_size bids asks)).
Proof.
  intros Hq Hy Hb Ha Hf. unfold snapshot_frame, snapshot_fits, snapshot_size in *.
  change (sizeof BookSnapshotHeader) with 16. change (sizeof PriceLevelRecord) with 24.
  set (n := 16 + _) in *. set (h := mkHeader _ _ _). set (sh := mkSnapshotHeader _ _ _ _).
  assert (l_typed h) as Hh.
  { cbn. split_and!; [unfold is_u16; lia|apply (type_code_byte MtBookSnapshot)|unfold is_u8; lia]. }
  assert (l_typed sh) as Hsh.
  { cbn. split_and!; [done|done|unfold is_u16; lia|unfold is_u16; lia]. }
  pose proof (length_bytes_of h Hh) as Hlh. pose proof (length_bytes_of sh Hsh) as Hlsh.
  pose proof (length_records_bytes _ Hb) as Hlb. pose proof (length_records_bytes _ Ha) as Hla.
  change (sizeof MessageHeader) with 4 in Hlh. change (sizeof BookSnapshotHeader) with 16 in Hlsh.
  change (sizeof PriceLevelRecord) with 24 in Hlb, Hla.
  set (bb := concat (bytes_of <$> bids)) in *. set (ab := concat (bytes_of <$> asks)) in *.
  set (bs := (bytes_of h ++ bytes_of sh ++ bb ++ ab) ++ rest).
  assert (length bs = 4 + 16 + length bids * 24 + length asks * 24 + length rest) as Hlen.
  { unfold bs. rewrite !length_app. lia. }
  unfold decode_snapshot.
  assert (peek_header bs = Some (Some h)) as ->.
  { unfold bs. rewrite <- app_assoc. by apply peek_frame. }
  cbn [mbind option_bind h_type h_length h]. rewrite Z.eqb_refl, Nat2Z.id. cbn [negb].
  change (sizeof MessageHeader) with 4. change (sizeof BookSnapshotHeader) with 16.
  change (sizeof PriceLevelRecord) with 24.
  rewrite (proj2 (Nat.ltb_ge _ _)) by lia. rewrite (proj2 (Nat.ltb_ge _ _)) by lia.
  rewrite (memcpy_at bs (bytes_of h) (bytes_of sh) (bb ++ ab ++ rest));
    [|unfold bs; by rewrite <- !app_assoc|lia|lia].
  cbn [mbind option_bind]. rewrite of_bytes_of by done.
  cbn [sh_bid_level_count sh_ask_level_count sh]. rewrite !Nat2Z.id.
  fold n. rewrite Nat.eqb_refl. cbn [negb].
  rewrite (memcpy_at bs (bytes_of h ++ bytes_of sh) bb (ab ++ rest) (4 + 16) (length bids * 24));
    [|unfold bs; by rewrite <- !app_assoc|rewrite length_app; lia|lia].
  rewrite (memcpy_at bs (bytes_of h ++ bytes_of sh ++ bb) ab rest);
    [|unfold bs; by rewrite <- !app_assoc|rewrite !length_app; lia|lia].
  cbn [mbind option_bind]. unfold bb, ab. by rewrite !records_bytes.
Qed.

(** The headers of a snapshot that fits are well typed. *)
Lemma snapshot_headers_typed sequence symbol_id bids asks :
  is_u64 sequence → is_u32 symbol_id → snapshot_fits bids asks →
  l_typed (mkHeader (Z.of_nat (16 + (length bids + length asks) * 24)) (type_code MtBookSnapshot) 0) ∧
  l_typed (mkSnapshotHeader sequence symbol_id (Z.of_nat (length bids)) (Z.of_nat (length asks))).
Proof.
  intros Hq Hy Hf. unfold snapshot_fits in Hf. cbn.
  split_and!; try done; try (unfold is_u16; lia). all: unfold is_u8; lia.
Qed.

Lemma length_snapshot_frame sequence symbol_id bids asks :
  is_u64 sequence → is_u32 symbol_id → Forall l_typed bids → Forall l_typed asks →
  snapshot_fits bids asks →
  length (snapshot_frame sequence symbol_id bids asks) = snapshot_size bids asks.
Proof.
  intros Hq Hy Hb Ha Hf.
  destruct (snapshot_headers_typed sequence symbol_id bids asks Hq Hy Hf) as [Hh Hsh].
  unfold snapshot_frame. rewrite !length_app, !length_records_bytes by done.
  change (sizeof BookSnapshotHeader) with 16. change (sizeof PriceLevelRecord) with 24.
  rewrite (length_bytes_of _ Hh), (length_bytes_of _ Hsh).
  change (sizeof MessageHeader) with 4. change (sizeof BookSnapshotHeader) with 16.
  unfold snapshot_size. lia.
Qed.

Lemma encode_snapshot_none out sequence symbol_id bids asks :
  ¬ snapshot_fits bids asks ∨ length out < snapshot_size bids asks →
  encode_snapshot out sequence symbol_id bids asks = (0, out).
Proof.
  intros H. unfold encode_snapshot.
  change (sizeof BookSnapshotHeader) with 16. change (sizeof PriceLevelRecord) with 24.
  change (sizeof MessageHeader) with 4. unfold snapshot_fits, snapshot_size in H.
  destruct (_ || _) eqn:E; [done|]. exfalso. bool_to_prop. lia.
Qed.

Lemma encode_snapshot_some out sequence symbol_id bids asks :
  is_u64 sequence → is_u32 symbol_id → Forall l_typed bids → Forall l_typed asks →
  snapshot_fits bids asks → snapshot_size bids asks ≤ length out →
  encode_snapshot out sequence symbol_id bids asks =
    (snapshot_size bids asks,
     snapshot_frame sequence symbol_id bids asks ++ drop (snapshot_size bids asks) out).
Proof.
  intros Hq Hy Hb Ha Hf Ho.
  pose proof (length_snapshot_frame sequence symbol_id bids asks Hq Hy Hb Ha Hf) as Hl.
  unfold encode_snapshot, snapshot_fits in *.
  change (sizeof BookSnapshotHeader) with 16. change (sizeof PriceLevelRecord) with 24.
  change (sizeof MessageHeader) with 4. fold (snapshot_size bids asks).
  assert ((length out <? snapshot_size bids asks) || (65535 <? Z.of_nat (length bids))%Z ||
    (65535 <? Z.of_nat (length asks))%Z ||
    (65535 <? Z.of_nat (16 + (length bids + length asks) * 24))%Z = false) as ->.
  { rewrite !orb_false_iff, Nat.ltb_ge, !Z.ltb_ge. lia. }
  assert (∀ z, (0 ≤ z ≤ 65535)%Z → u16 z = z) as Hu16.
  { intros z Hz. unfold u16. apply Z.mod_small. lia. }
  rewrite !Hu16 by lia.
  change (bytes_of _ ++ _) with (snapshot_frame sequence symbol_id bids asks).
  unfold memcpy_to. by rewrite Hl.
Qed.

(** C26: a snapshot that fits its 16-bit length field is encoded as one frame,
    leaving the bytes behind it alone, and decodes to the same sequence,
    symbol and level lists; one that does not fit, or that the buffer cannot
    hold, writes nothing. *)
Theorem snapshot_roundtrip out sequence symbol_id bids asks more :
  is_u64 sequence → is_u32 symbol_id → Forall l_typed bids → Forall l_typed asks →
  let n := snapshot_size bids asks in
  (¬ snapshot_fits bids asks ∨ length out < n →
    encode_snapshot out sequence symbol_id bids asks = (0, out)) ∧
  (snapshot_fits bids asks → n ≤ length out →
    ∃ out', encode_snapshot out sequence symbol_id bids asks = (n, out') ∧
      length out' = length out ∧ drop n out' = drop n out ∧
      decode_snapshot (out' ++ more) =
        Some (mkSnapshotDecode Ok
          (mkSnapshotHeader sequence symbol_id (Z.of_nat (length bids)) (Z.of_nat (length asks)))
          bids asks n)).
Proof.
  intros Hq Hy Hb Ha n. split; [apply encode_snapshot_none|]. intros Hf Ho.
  pose proof (length_snapshot_frame sequence symbol_id bids asks Hq Hy Hb Ha Hf) as Hl. fold n in Hl.
  rewrite encode_snapshot_some by done. eexists. split; [done|]. fold n. split_and!.
  - rewrite length_app, length_drop. lia.
  - by rewrite <- Hl, drop_app_length.
  - rewrite <- app_assoc. by apply decode_snapshot_frame.
Qed.

(** [decode_snapshot] is defined on every buffer of bytes: it never reads
    past the end, and a snapshot it accepts has as many levels as its header
    counts and lies within the buffer. *)
Theorem decode_snapshot_safe bs :
  Forall is_byte bs →
  ∃ r, decode_snapshot bs = Some r ∧
    (sd_status r = Ok →
      Z.of_nat (length (sd_bids r)) = sh_bid_level_count (sd_header r) ∧
      Z.of_nat (length (sd_asks r)) = sh_ask_level_count (sd_header r) ∧
      sd_consumed r = snapshot_size (sd_bids r) (sd_asks r) ∧ sd_consumed r ≤ length bs).
Proof.
  intros Hb. unfold decode_snapshot.
  destruct (peek_cases bs Hb) as [[_ Hp]|(h&rest&Hh&E&Hp)]; rewrite Hp; cbn [mbind option_bind];
    [by eexists|].
  destruct (negb _); [by eexists|].
  destruct (Nat.ltb_spec (length bs) (sizeof MessageHeader + Z.to_nat (h_length h))) as [|Hl];
    [by eexists|].
  destruct (Nat.ltb_spec (Z.to_nat (h_length h)) (sizeof BookSnapshotHeader)) as [|Hs]; [by eexists|].
  rewrite memcpy_some by lia. cbn [mbind option_bind]. set (hb := take _ _).
  assert (l_typed (of_bytes hb : BookSnapshotHeader)) as Ht.
  { apply of_bytes_typed.
    - unfold hb. rewrite length_take, length_drop. lia.
    - unfold hb. by apply Forall_take, Forall_drop. }
  set (sh := of_bytes hb) in *. clearbody sh. destruct Ht as (_&_&Hnb&Hna).
  unfold is_u16 in Hnb, Hna.
  destruct (Nat.eqb_spec (sizeof BookSnapshotHeader +
    (Z.to_nat (sh_bid_level_count sh) + Z.to_nat (sh_ask_level_count sh)) * sizeof PriceLevelRecord)
    (Z.to_nat (h_length h))) as [Hlen|]; cbn [negb]; [|by eexists].
  rewrite !memcpy_some by lia. cbn [mbind option_bind].
  eexists. split; [done|]. intros _. cbn [sd_bids sd_asks sd_header sd_consumed].
  unfold snapshot_size. rewrite !length_records.
  change (sizeof BookSnapshotHeader) with 16 in *. change (sizeof PriceLevelRecord) with 24 in *.
  change (sizeof MessageHeader) with 4 in *. lia.
Qed.

(** ** Concrete messages *)

Definition demo_msg : NewOrderMessage := mkNewOrder 42 (-3) 100 7 9 1 0 2 0.

Lemma small_new_order : (Z.of_nat (sizeof NewOrderMessage) ≤ 65535)%Z.
Proof. vm_compute. discriminate. Qed.

Lemma demo_msg_typed : l_typed demo_msg.
Proof. cbn. unfold is_u64, is_i64, is_u32, is_u8, fits. cbn. lia. Qed.

Lemma encode_decode_witness :
  ∃ out', encode (replicate 50 0%Z) demo_msg = (44, out') ∧
    decode NewOrderMessage (out' ++ [1; 2; 3]%Z) = Some (mkDecode Ok demo_msg 44).
Proof.
  destruct (encode_decode (T := NewOrderMessage) small_new_order (replicate 50 0%Z) demo_msg
    [1; 2; 3]%Z demo_msg_typed) as [_ H].
  destruct H as (out'&H1&_&_&H2); [vm_compute; lia|]. exists out'. split; [exact H1|exact H2].
Defined.

Lemma decode_accepts_frames_witness :
  decode NewOrderMessage (frame 3 demo_msg ++ [255; 7]%Z) = Some (mkDecode Ok demo_msg 44) ∧
  ∃ r, decode CancelOrderMessage (frame 3 demo_msg) = Some r ∧ d_status r = UnexpectedType.
Proof.
  split.
  - destruct (decode_accepts_frames (T := NewOrderMessage) small_new_order
      (frame 3 demo_msg ++ [255; 7]%Z)) as (r&E&H&_).
    + vm_compute. repeat (constructor; [split; discriminate || reflexivity|]). constructor.
    + rewrite E. f_equal. apply (H 3%Z demo_msg [255; 7]%Z); [unfold is_u8; lia|exact demo_msg_typed|done].
  - eexists. split; vm_compute; reflexivity.
Defined.

Lemma decode_prefix_incomplete_witness :
  decode NewOrderMessage (take 43 (frame 0 demo_msg)) = Some (failed Incomplete).
Proof.
  apply (decode_prefix_incomplete (T := NewOrderMessage)); [exact small_new_order|unfold is_u8; lia
    |exact demo_msg_typed|vm_compute; lia].
Defined.

Definition demo_level : PriceLevelRecord := mkLevelRecord 101 50 2 0.

Lemma demo_level_typed : l_typed demo_level.
Proof. cbn. unfold is_i64, is_u32, fits. cbn. lia. Qed.

Lemma snapshot_roundtrip_witness :
  ∃ out', encode_snapshot (replicate 100 0%Z) 5 9 [demo_level] [demo_level] = (68, out') ∧
    sd_bids <$> decode_snapshot out' = Some [demo_level].
Proof.
  destruct (snapshot_roundtrip (replicate 100 0%Z) 5 9 [demo_level] [demo_level] []) as [_ H];
    [unfold is_u64; lia|unfold is_u32; lia|repeat constructor; apply demo_level_typed..|].
  destruct H as (out'&H1&_&_&H2); [vm_compute; discriminate|vm_compute; lia|].
  rewrite app_nil_r in H2. exists out'. split; [exact H1|]. rewrite H2. reflexivity.
Defined.

Lemma decode_snapshot_safe_witness :
  ∃ r, decode_snapshot [20; 0; 7; 0; 1; 2; 3]%Z = Some r ∧ sd_status r = Incomplete.
Proof.
  destruct (decode_snapshot_safe [20; 0; 7; 0; 1; 2; 3]%Z) as (r&H&_).
  - repeat constructor; unfold is_byte; lia.
  - exists r. split; [exact H|]. vm_compute in H. by injection H as <-.
Defined.

End Codec.
