(* ===== verification/BenchCodec.v ===== *)
(** * The codec benchmarks (src/bench/bench_protocol.cpp)

    The two messages the benchmarks encode and decode in a buffer of 128
    bytes, and what every iteration computes. *)

From S2P Require Import Prelude Types Wire Protocol Codec.
From stdpp Require Import base tactics numbers list.

Set Default Goal Selector "!".

Module BenchCodec.
Import Wire Protocol Codec.

Definition new_order : NewOrderMessage :=
  mkNewOrder 1 10000 100 1 1 (side_code Buy) (order_type_code Limit) (tif_code Day) 0.

Definition execution_report : ExecutionReportMessage :=
  mkExecutionReport 1 1 10000 10 90 1 1 (exec_code ExPartialFill) (reject_code RejNone) 0.

(** [std::array<std::byte, 128> buf{}] *)
Definition buf : list Z := replicate 128 0%Z.

(** The iterations encode into the same buffer. *)
Definition bench_encode_new_order (n : nat) : list Z :=
  Nat.iter n (λ b, (encode b new_order).2) buf.

Definition bench_decode_new_order : option (DecodeResult NewOrderMessage) :=
  let '(written, b) := encode buf new_order in
  decode NewOrderMessage (take written b).

(** One iteration of the round trip, on the buffer the last one left. *)
Definition round_trip (b : list Z) : option (DecodeResult ExecutionReportMessage) * list Z :=
  let '(written, b) := encode b execution_report in
  (decode ExecutionReportMessage (take written b), b).

Definition bench_encode_decode_round_trip (n : nat)
    : list (option (DecodeResult ExecutionReportMessage)) * list Z :=
  Nat.iter n (λ '(log, b), let '(r, b) := round_trip b in (log ++ [r], b)) ([], buf).

Lemma decode_finds_order :
  bench_decode_new_order = Some (mkDecode Ok new_order (frame_size (T := NewOrderMessage))).
Proof. vm_compute. reflexivity. Qed.

(** Whatever the buffer holds, a round trip decodes the report encoded. *)
Lemma round_trip_ok b :
  length b = 128 →
  (round_trip b).1 = Some (mkDecode Ok execution_report (frame_size (T := ExecutionReportMessage))) ∧
  length (round_trip b).2 = 128.
Proof.
  intros Hb. unfold round_trip, encode. rewrite Hb. set (n := sizeof _ + sizeof _).
  assert (n = frame_size (T := ExecutionReportMessage)) as -> by reflexivity.
  rewrite (proj2 (Nat.ltb_ge _ _)) by (vm_compute; lia). cbn [fst snd]. unfold memcpy_to.
  set (f := bytes_of _ ++ bytes_of _).
  assert (length f = frame_size (T := ExecutionReportMessage)) as Hf by (vm_compute; reflexivity).
  split.
  - rewrite <- Hf, take_app_length. vm_compute. reflexivity.
  - rewrite length_app, length_drop, Hf, Hb. vm_compute. reflexivity.
Qed.

(** Every iteration of the benchmark decodes the report it encoded. *)
Lemma round_trips_ok n :
  (bench_encode_decode_round_trip n).1 =
  replicate n (Some (mkDecode Ok execution_report (frame_size (T := ExecutionReportMessage)))).
Proof.
  enough ((bench_encode_decode_round_trip n).1 =
    replicate n (Some (mkDecode Ok execution_report (frame_size (T := ExecutionReportMessage)))) ∧
    length (bench_encode_decode_round_trip n).2 = 128) as [H _] by done.
  unfold bench_encode_decode_round_trip. induction n as [|n [IH1 IH2]]; [done|].
  rewrite Nat.iter_succ. destruct (Nat.iter n _ _) as [log b]. cbn [fst snd] in *.
  destruct (round_trip_ok b IH2) as [H1 H2]. destruct (round_trip b) as [r b']. cbn [fst snd] in *.
  split; [|done]. rewrite IH1, H1. symmetry. apply replicate_S_end.
Qed.

End BenchCodec.
