(* ===== verification/Spsc.v ===== *)
(** * The single-producer single-consumer ring (src/include/jane/concurrency/spsc_ring_buffer.hpp)

    [try_push] and [try_pop] are the functions; [pstep] and [cstep] split
    them at every access to memory the other thread can touch, and [step]
    interleaves the two threads.  No slot is ever accessed by both threads
    at once ([spsc_race_free]).  SpscWeak.v gives the argument again on a
    memory where loads may return old values.

    Indices are 64-bit and wrap; the invariant counts with unbounded ghost
    counters, so the theorems hold across wrap-around. *)

From S2P Require Import Prelude.
From stdpp Require Import base tactics numbers list.

Set Default Goal Selector "!".

Module Spsc.

Section ring.
Context {T : Type} (dflt : T) (Capacity : nat).

Record t := mk {
  buffer : list T;
  head : Z;
  tail_cache : Z;
  tail : Z;
  head_cache : Z;
}.

Definition create : t := mk (replicate Capacity dflt) 0 0 0 0.

Definition kMask : Z := (Z.of_nat Capacity - 1)%Z.
Definition slot (index : Z) : nat := Z.to_nat (Z.land index kMask).

(** [head - tail >= Capacity] on [uint64_t]. *)
Definition full (hd tl : Z) : bool := (Z.of_nat Capacity <=? u64 (hd - tl))%Z.

(** ** The functions *)

Definition try_push (q : t) (item : T) : bool * t :=
  let write q :=
    (true, mk (<[slot (head q) := item]> (buffer q)) (u64 (head q + 1)) (tail_cache q)
             (tail q) (head_cache q)) in
  if full (head q) (tail_cache q) then
    let q := mk (buffer q) (head q) (tail q) (tail q) (head_cache q) in
    if full (head q) (tail_cache q) then (false, q) else write q
  else write q.

Definition try_pop (q : t) : option T * t :=
  let read q :=
    (Some (default dflt (buffer q !! slot (tail q))),
     mk (buffer q) (head q) (tail_cache q) (u64 (tail q + 1)) (head_cache q)) in
  if (tail q =? head_cache q)%Z then
    let q := mk (buffer q) (head q) (tail_cache q) (tail q) (head q) in
    if (tail q =? head_cache q)%Z then (None, q) else read q
  else read q.

Definition size_approx (q : t) : Z := u64 (head q - tail q).
Definition empty_approx (q : t) : bool := (size_approx q =? 0)%Z.
Definition full_approx (q : t) : bool := (Z.of_nat Capacity <=? size_approx q)%Z.

(** ** The threads, one shared access per step *)

(** The producer between its accesses: about to load [tail], about to write
    the slot, about to store [head]. *)
Inductive pstate := PIdle | PRefresh (item : T) | PWrite (item : T) | PPublish (item : T).

(** The consumer: about to load [head], about to read the slot, about to
    store [tail] with the item in hand. *)
Inductive cstate := CIdle | CRefresh | CRead | CRelease (item : T).

(** [Some b]: the call returned [b]. *)
Inductive pstep : t → pstate → t → pstate → option (bool * T) → Prop :=
  | p_start_fast q item :
      full (head q) (tail_cache q) = false → pstep q PIdle q (PWrite item) None
  | p_start_slow q item :
      full (head q) (tail_cache q) = true → pstep q PIdle q (PRefresh item) None
  | p_refresh_ok q item :
      full (head q) (tail q) = false →
      pstep q (PRefresh item) (mk (buffer q) (head q) (tail q) (tail q) (head_cache q))
        (PWrite item) None
  | p_refresh_full q item :
      full (head q) (tail q) = true →
      pstep q (PRefresh item) (mk (buffer q) (head q) (tail q) (tail q) (head_cache q))
        PIdle (Some (false, item))
  | p_write q item :
      pstep q (PWrite item)
        (mk (<[slot (head q) := item]> (buffer q)) (head q) (tail_cache q) (tail q) (head_cache q))
        (PPublish item) None
  | p_publish q item :
      pstep q (PPublish item)
        (mk (buffer q) (u64 (head q + 1)) (tail_cache q) (tail q) (head_cache q))
        PIdle (Some (true, item)).

Inductive cstep : t → cstate → t → cstate → option (option T) → Prop :=
  | c_start_fast q :
      (tail q =? head_cache q)%Z = false → cstep q CIdle q CRead None
  | c_start_slow q :
      (tail q =? head_cache q)%Z = true → cstep q CIdle q CRefresh None
  | c_refresh_ok q :
      (tail q =? head q)%Z = false →
      cstep q CRefresh (mk (buffer q) (head q) (tail_cache q) (tail q) (head q)) CRead None
  | c_refresh_empty q :
      (tail q =? head q)%Z = true →
      cstep q CRefresh (mk (buffer q) (head q) (tail_cache q) (tail q) (head q)) CIdle (Some None)
  | c_read q :
      cstep q CRead q (CRelease (default dflt (buffer q !! slot (tail q)))) None
  | c_release q x :
      cstep q (CRelease x)
        (mk (buffer q) (head q) (tail_cache q) (u64 (tail q + 1)) (head_cache q))
        CIdle (Some (Some x)).

(** A configuration: memory, both threads, and the items of the pushes and
    pops that have returned successfully. *)
Record config := mkConfig {
  mem : t; prod : pstate; cons : cstate; pushed : list T; popped : list T;
}.

Inductive step : config → config → Prop :=
  | step_prod c q ps r :
      pstep (mem c) (prod c) q ps r →
      step c (mkConfig q ps (cons c)
        (match r with Some (true, x) => pushed c ++ [x] | _ => pushed c end) (popped c))
  | step_cons c q cs r :
      cstep (mem c) (cons c) q cs r →
      step c (mkConfig q (prod c) cs (pushed c)
        (match r with Some (Some x) => popped c ++ [x] | _ => popped c end)).

Inductive reachable : config → Prop :=
  | reach_start : reachable (mkConfig create PIdle CIdle [] [])
  | reach_next c c' : reachable c → step c c' → reachable c'.

(** ** The invariant *)

Context (n : nat) (Hcap : Capacity = 2 ^ n) (Hn : 1 ≤ n < 63).

Lemma cap_pos : (1 < Z.of_nat Capacity < 2 ^ 63)%Z ∧ Z.of_nat Capacity = (2 ^ Z.of_nat n)%Z.
Proof.
  assert (Z.of_nat Capacity = (2 ^ Z.of_nat n)%Z) as E by (rewrite Hcap; apply Nat2Z.inj_pow).
  split; [|done]. rewrite E. split.
  - change 1%Z with (2 ^ 0)%Z. apply Z.pow_lt_mono_r; lia.
  - apply Z.pow_lt_mono_r; lia.
Qed.

(** The slot of a wrapped index is the unwrapped index modulo the capacity. *)
Lemma slot_mod k : slot (u64 (Z.of_nat k)) = k mod Capacity.
Proof.
  destruct cap_pos as [Hc E]. unfold slot, kMask.
  replace (Z.of_nat Capacity - 1)%Z with (Z.ones (Z.of_nat n)) by (rewrite Z.ones_equiv; lia).
  rewrite Z.land_ones by lia. unfold u64. rewrite Z.mod_mod_divide.
  - rewrite <- E, <- Nat2Z.inj_mod. apply Nat2Z.id.
  - exists (2 ^ (64 - Z.of_nat n))%Z. rewrite <- Z.pow_add_r by lia. f_equal. lia.
Qed.

Lemma u64_diff a b :
  b ≤ a → a ≤ b + Capacity → u64 (u64 (Z.of_nat a) - u64 (Z.of_nat b)) = Z.of_nat (a - b).
Proof.
  destruct cap_pos as [Hc _]. intros. unfold u64. rewrite <- Zminus_mod, Z.mod_small; lia.
Qed.

Lemma full_spec a b :
  b ≤ a → a ≤ b + Capacity →
  full (u64 (Z.of_nat a)) (u64 (Z.of_nat b)) = bool_decide (a = b + Capacity).
Proof.
  intros. unfold full. rewrite u64_diff by done. apply eq_bool_prop_intro.
  rewrite bool_decide_spec, Is_true_true, Z.leb_le. lia.
Qed.

Lemma u64_eqb a b :
  a ≤ b → b ≤ a + Capacity →
  (u64 (Z.of_nat a) =? u64 (Z.of_nat b))%Z = bool_decide (a = b).
Proof.
  destruct cap_pos as [Hc _]. intros. apply eq_bool_prop_intro.
  rewrite bool_decide_spec, Is_true_true, Z.eqb_eq. split; [|by intros ->].
  intros E. assert (u64 (u64 (Z.of_nat b) - u64 (Z.of_nat a)) = 0%Z) as Hz
    by (rewrite E, Z.sub_diag; done).
  rewrite u64_diff in Hz by done. lia.
Qed.

Lemma u64_succ a : u64 (u64 (Z.of_nat a) + 1) = u64 (Z.of_nat (S a)).
Proof. rewrite u64_add_l. f_equal. lia. Qed.

(** [ps] is every item ever published, the first [tl] of them consumed;
    [tc] and [hc] are what the two caches stand for. *)
Record inv (q : t) (ps : list T) (tl tc hc : nat) : Prop := {
  i_len : length (buffer q) = Capacity;
  i_head : head q = u64 (Z.of_nat (length ps));
  i_tail : tail q = u64 (Z.of_nat tl);
  i_tcache : tail_cache q = u64 (Z.of_nat tc);
  i_hcache : head_cache q = u64 (Z.of_nat hc);
  i_order : tc ≤ tl ∧ tl ≤ hc ∧ hc ≤ length ps ∧ length ps ≤ tc + Capacity;
  i_data k : tl ≤ k → k < length ps → buffer q !! (k mod Capacity) = ps !! k;
}.

Lemma inv_create : inv create [] 0 0 0.
Proof.
  split; try done.
  - cbn. apply length_replicate.
  - cbn. lia.
  - cbn. lia.
Qed.

Lemma inv_refresh_tail q ps tl tc hc :
  inv q ps tl tc hc → inv (mk (buffer q) (head q) (tail q) (tail q) (head_cache q)) ps tl tl hc.
Proof. intros [? ? ? ? ? Ho ?]. split; try done. cbn. lia. Qed.

Lemma inv_refresh_head q ps tl tc hc :
  inv q ps tl tc hc →
  inv (mk (buffer q) (head q) (tail_cache q) (tail q) (head q)) ps tl tc (length ps).
Proof. intros [? ? ? ? ? Ho ?]. split; try done. cbn. lia. Qed.

Lemma slot_lt k : k mod Capacity < Capacity.
Proof. destruct cap_pos as [? _]. apply Nat.mod_upper_bound. lia. Qed.

(** Writing the free slot changes nothing a consumer may read. *)
Lemma inv_write q ps tl tc hc x :
  inv q ps tl tc hc → length ps < tl + Capacity →
  inv (mk (<[slot (head q) := x]> (buffer q)) (head q) (tail_cache q) (tail q) (head_cache q))
    ps tl tc hc ∧
  <[slot (head q) := x]> (buffer q) !! (length ps mod Capacity) = Some x.
Proof.
  intros [Hl Hh Ht Htc Hhc Ho Hd] Hroom. rewrite Hh, slot_mod. split.
  - split; try done; [cbn; by rewrite length_insert|]. cbn. intros k H1 H2.
    rewrite list_lookup_insert_ne; [by apply Hd|]. symmetry. apply mod_window_ne; lia.
  - apply list_lookup_insert_eq. rewrite Hl. apply slot_lt.
Qed.

Lemma inv_publish q ps tl tc hc x :
  inv q ps tl tc hc → length ps < tc + Capacity →
  buffer q !! (length ps mod Capacity) = Some x →
  inv (mk (buffer q) (u64 (head q + 1)) (tail_cache q) (tail q) (head_cache q))
    (ps ++ [x]) tl tc hc.
Proof.
  intros [Hl Hh Ht Htc Hhc Ho Hd] Hroom Hx.
  split; cbn [buffer head tail tail_cache head_cache]; try done.
  - rewrite Hh, u64_succ, length_app. cbn [length]. do 2 f_equal. lia.
  - rewrite length_app. cbn [length]. lia.
  - rewrite length_app. cbn [length]. intros k H1 H2. destruct (decide (k = length ps)) as [->|].
    + by rewrite Hx, lookup_app_r, Nat.sub_diag.
    + rewrite lookup_app_l by lia. apply Hd; lia.
Qed.

Lemma inv_release q ps tl tc hc :
  inv q ps tl tc hc → tl < hc →
  inv (mk (buffer q) (head q) (tail_cache q) (u64 (tail q + 1)) (head_cache q)) ps (S tl) tc hc.
Proof.
  intros [Hl Hh Ht Htc Hhc Ho Hd] Hlt.
  split; cbn [buffer head tail tail_cache head_cache]; try done.
  - by rewrite Ht, u64_succ.
  - lia.
  - intros k H1 H2. apply Hd; lia.
Qed.

Lemma inv_read q ps tl tc hc :
  inv q ps tl tc hc → tl < hc → ps !! tl = Some (default dflt (buffer q !! slot (tail q))).
Proof.
  intros [Hl Hh Ht Htc Hhc Ho Hd] Hlt. rewrite Ht, slot_mod, Hd by lia.
  destruct (ps !! tl) eqn:E; [done|]. apply lookup_ge_None in E. lia.
Qed.

(** ** Whole calls *)

Lemma try_push_inv q ps tl tc hc x :
  inv q ps tl tc hc →
  if decide (length ps < tl + Capacity)
  then ∃ q' tc', try_push q x = (true, q') ∧ inv q' (ps ++ [x]) tl tc' hc
  else ∃ q' tc', try_push q x = (false, q') ∧ inv q' ps tl tc' hc.
Proof.
  intros Hi. pose proof Hi as [_ Hh Ht Htc _ Ho _]. unfold try_push.
  assert (full (head q) (tail_cache q) = bool_decide (length ps = tc + Capacity)) as ->.
  { rewrite Hh, Htc. apply full_spec; lia. }
  case_bool_decide as Hf.
  - apply inv_refresh_tail in Hi as Hi'. cbn [head tail_cache].
    assert (full (head q) (tail q) = bool_decide (length ps = tl + Capacity)) as ->.
    { rewrite Hh, Ht. apply full_spec; lia. }
    destruct (decide (length ps < tl + Capacity)) as [Hr|Hr].
    + rewrite bool_decide_eq_false_2 by lia.
      destruct (inv_write _ _ _ _ _ x Hi') as [Hw Hx]; [done|].
      eexists _, tl. split; [done|]. by apply (inv_publish _ _ _ _ _ _ Hw).
    + rewrite bool_decide_eq_true_2 by lia. by eexists _, tl.
  - rewrite decide_True by lia. destruct (inv_write _ _ _ _ _ x Hi) as [Hw Hx]; [lia|].
    eexists _, tc. split; [done|]. apply (inv_publish _ _ _ _ _ _ Hw); [lia|done].
Qed.

Lemma try_pop_inv q ps tl tc hc :
  inv q ps tl tc hc →
  match ps !! tl with
  | Some x => ∃ q' hc', try_pop q = (Some x, q') ∧ inv q' ps (S tl) tc hc'
  | None => ∃ q' hc', try_pop q = (None, q') ∧ inv q' ps tl tc hc'
  end.
Proof.
  intros Hi. pose proof Hi as [_ Hh Ht _ Hhc Ho _]. unfold try_pop.
  assert ((tail q =? head_cache q)%Z = bool_decide (tl = hc)) as ->.
  { rewrite Ht, Hhc. apply u64_eqb; lia. }
  case_bool_decide as Hf.
  - apply inv_refresh_head in Hi as Hi'. cbn [tail head_cache].
    assert ((tail q =? head q)%Z = bool_decide (tl = length ps)) as ->.
    { rewrite Ht, Hh. apply u64_eqb; lia. }
    case_bool_decide as He.
    + rewrite (proj2 (lookup_ge_None ps tl)) by lia. by eexists _, (length ps).
    + pose proof (inv_read _ _ _ _ _ Hi') as Hrd. cbn in Hrd. rewrite Hrd by lia.
      eexists _, (length ps). split; [done|]. apply (inv_release _ _ _ _ _ Hi'). lia.
  - rewrite (inv_read _ _ _ _ _ Hi) by lia. eexists _, hc. split; [done|].
    apply inv_release; [done|lia].
Qed.

(** A thread that is not interrupted performs exactly one call. *)
Inductive prun : t → pstate → t → bool → Prop :=
  | prun_return q ps q' b x : pstep q ps q' PIdle (Some (b, x)) → prun q ps q' b
  | prun_step q ps q1 ps1 q' b : pstep q ps q1 ps1 None → prun q1 ps1 q' b → prun q ps q' b.

Inductive crun : t → cstate → t → option T → Prop :=
  | crun_return q cs q' r : cstep q cs q' CIdle (Some r) → crun q cs q' r
  | crun_step q cs q1 cs1 q' r : cstep q cs q1 cs1 None → crun q1 cs1 q' r → crun q cs q' r.

(** ** Interleavings *)

Definition prod_ok (ps : list T) (tc : nat) (q : t) (s : pstate) : Prop :=
  match s with
  | PIdle | PRefresh _ => True
  | PWrite _ => length ps < tc + Capacity
  | PPublish x => length ps < tc + Capacity ∧ buffer q !! (length ps mod Capacity) = Some x
  end.

Definition cons_ok (ps : list T) (tl hc : nat) (s : cstate) : Prop :=
  match s with
  | CIdle | CRefresh => True
  | CRead => tl < hc
  | CRelease x => tl < hc ∧ ps !! tl = Some x
  end.

Record config_ok (c : config) (tc hc : nat) : Prop := {
  co_inv : inv (mem c) (pushed c) (length (popped c)) tc hc;
  co_pop : popped c = take (length (popped c)) (pushed c);
  co_prod : prod_ok (pushed c) tc (mem c) (prod c);
  co_cons : cons_ok (pushed c) (length (popped c)) hc (cons c);
}.

Lemma cons_ok_snoc ps tl hc s x : cons_ok ps tl hc s → cons_ok (ps ++ [x]) tl hc s.
Proof. destruct s; cbn; try done. intros [? H]. split; [done|]. by apply lookup_app_l_Some. Qed.

Lemma pstep_ok c q s r tc hc :
  config_ok c tc hc → pstep (mem c) (prod c) q s r →
  ∃ tc', config_ok (mkConfig q s (cons c)
    (match r with Some (true, x) => pushed c ++ [x] | _ => pushed c end) (popped c)) tc' hc.
Proof.
  intros [Hi Hp Hpr Hc] Hs. pose proof Hi as [_ Hh Ht Htc _ Ho _].
  assert (full (head (mem c)) (tail_cache (mem c)) =
    bool_decide (length (pushed c) = tc + Capacity)) as Hf1 by (rewrite Hh, Htc; apply full_spec; lia).
  assert (full (head (mem c)) (tail (mem c)) =
    bool_decide (length (pushed c) = length (popped c) + Capacity)) as Hf2
    by (rewrite Hh, Ht; apply full_spec; lia).
  inversion Hs as [q0 x Hf|q0 x Hf|q0 x Hf|q0 x Hf|q0 x|q0 x]; subst;
    try (first [rewrite Hf1 in Hf | rewrite Hf2 in Hf]); clear Hf1 Hf2; bool_to_prop;
    match goal with H : _ = prod c |- _ => rewrite <- H in Hpr end; cbn in Hpr.
  - exists tc. split; try done. cbn. lia.
  - exists tc. by split.
  - exists (length (popped c)). split; try done; [by eapply inv_refresh_tail|]. cbn. lia.
  - exists (length (popped c)). split; try done. by eapply inv_refresh_tail.
  - exists tc. destruct (inv_write _ _ _ _ _ x Hi) as [Hw Hx]; [lia|]. by split.
  - exists tc. destruct Hpr as [Hr Hx]. split; try done.
    + by apply inv_publish.
    + cbn. rewrite take_app_le by lia. done.
    + by apply cons_ok_snoc.
Qed.

Lemma prod_ok_frame ps tc q q' s : buffer q' = buffer q → prod_ok ps tc q s → prod_ok ps tc q' s.
Proof. intros E. destruct s; cbn; by rewrite ?E. Qed.

Lemma cstep_ok c q s r tc hc :
  config_ok c tc hc → cstep (mem c) (cons c) q s r →
  ∃ hc', config_ok (mkConfig q (prod c) s (pushed c)
    (match r with Some (Some x) => popped c ++ [x] | _ => popped c end)) tc hc'.
Proof.
  intros [Hi Hp Hpr Hc] Hs. pose proof Hi as [_ Hh Ht _ Hhc Ho _].
  assert ((tail (mem c) =? head_cache (mem c))%Z = bool_decide (length (popped c) = hc)) as He1
    by (rewrite Ht, Hhc; apply u64_eqb; lia).
  assert ((tail (mem c) =? head (mem c))%Z =
    bool_decide (length (popped c) = length (pushed c))) as He2
    by (rewrite Ht, Hh; apply u64_eqb; lia).
  inversion Hs as [q0 He|q0 He|q0 He|q0 He|q0|q0 x]; subst;
    try (first [rewrite He1 in He | rewrite He2 in He]); clear He1 He2; bool_to_prop;
    match goal with H : _ = cons c |- _ => rewrite <- H in Hc end; cbn in Hc.
  - exists hc. split; try done. cbn. lia.
  - exists hc. by split.
  - exists (length (pushed c)). split; try done; [by eapply inv_refresh_head|]. cbn. lia.
  - exists (length (pushed c)). split; try done. by eapply inv_refresh_head.
  - exists hc. split; try done. split; [done|]. by eapply inv_read.
  - exists hc. destruct Hc as [Hlt Hx]. split; cbn.
    + rewrite length_app, Nat.add_1_r. by apply inv_release.
    + rewrite length_app, Nat.add_1_r, (take_S_r _ _ x) by done. by rewrite <- Hp.
    + done.
    + done.
Qed.

Lemma reachable_ok c : reachable c → ∃ tc hc, config_ok c tc hc.
Proof.
  induction 1 as [|c c' Hr (tc&hc&Hok) Hs].
  - exists 0, 0. split; try done. apply inv_create.
  - destruct Hs as [c q s r Hp|c q s r Hc].
    + destruct (pstep_ok _ _ _ _ _ _ Hok Hp) as [tc' ?]. eauto.
    + destruct (cstep_ok _ _ _ _ _ _ Hok Hc) as [hc' ?]. eauto.
Qed.

(** ** Properties *)

(** Under every interleaving of the two threads, what the consumer has
    received is a prefix of what the producer has sent: nothing is lost,
    duplicated, reordered or torn, and never more than [Capacity] items are
    in flight, also after the 64-bit indices wrap. *)
Theorem spsc_fifo c :
  reachable c →
  popped c = take (length (popped c)) (pushed c) ∧
  length (popped c) ≤ length (pushed c) ≤ length (popped c) + Capacity.
Proof.
  intros (tc&hc&[Hi Hp _ _])%reachable_ok. split; [done|]. pose proof (i_order _ _ _ _ _ Hi). lia.
Qed.

(** No data race on the slots: whenever the producer is about to write a
    slot and the consumer about to read one, they are different slots. *)
Theorem spsc_race_free c x :
  reachable c → prod c = PWrite x → cons c = CRead →
  slot (head (mem c)) ≠ slot (tail (mem c)).
Proof.
  intros (tc&hc&[Hi _ Hp Hc])%reachable_ok Ep Ec. rewrite Ep in Hp. rewrite Ec in Hc.
  cbn in Hp, Hc. pose proof Hi as [_ -> -> _ _ Ho _]. rewrite !slot_mod.
  symmetry. apply mod_window_ne; lia.
Qed.

(** The calls give up only for cause: a push that is about to fail sees a
    buffer holding [Capacity] items, a pop that is about to fail sees one
    holding none. *)
Theorem spsc_failures_honest c :
  reachable c →
  (∀ q x, pstep (mem c) (prod c) q PIdle (Some (false, x)) →
     length (pushed c) = length (popped c) + Capacity) ∧
  (∀ q, cstep (mem c) (cons c) q CIdle (Some None) → length (popped c) = length (pushed c)).
Proof.
  intros (tc&hc&[Hi _ _ _])%reachable_ok. pose proof Hi as [_ Hh Ht _ _ Ho _]. split.
  - intros q x Hs. inversion Hs as [| | |? ? Hf| |]; subst.
    rewrite Hh, Ht, full_spec in Hf by lia. by bool_to_prop.
  - intros q Hs. inversion Hs as [| | |? He| |]; subst.
    rewrite Ht, Hh, u64_eqb in He by lia. by bool_to_prop.
Qed.

(** The single steps of the threads are the two functions: a call that is
    not interrupted ends with the state and the result of [try_push] or
    [try_pop]. *)
Theorem spsc_steps_are_calls q x :
  prun q PIdle (try_push q x).2 (try_push q x).1 ∧ crun q CIdle (try_pop q).2 (try_pop q).1.
Proof.
  split.
  - unfold try_push. destruct (full (head q) (tail_cache q)) eqn:H1.
    + eapply prun_step; [by apply (p_start_slow _ x)|]. cbn [head tail_cache].
      destruct (full (head q) (tail q)) eqn:H2.
      * eapply prun_return. by apply (p_refresh_full q x).
      * eapply prun_step; [by apply p_refresh_ok|].
        eapply prun_step; [apply p_write|]. eapply prun_return.
        exact (p_publish (mk (<[slot (head q) := x]> (buffer q)) (head q) (tail q) (tail q)
          (head_cache q)) x).
    + eapply prun_step; [by apply (p_start_fast _ x)|].
      eapply prun_step; [apply p_write|]. eapply prun_return.
      exact (p_publish (mk (<[slot (head q) := x]> (buffer q)) (head q) (tail_cache q) (tail q)
        (head_cache q)) x).
  - unfold try_pop. destruct (tail q =? head_cache q)%Z eqn:H1.
    + eapply crun_step; [by apply c_start_slow|]. cbn [tail head_cache].
      destruct (tail q =? head q)%Z eqn:H2.
      * eapply crun_return. by apply c_refresh_empty.
      * eapply crun_step; [by apply c_refresh_ok|].
        eapply crun_step; [apply c_read|]. eapply crun_return. apply c_release.
    + eapply crun_step; [by apply c_start_fast|].
      eapply crun_step; [apply c_read|]. eapply crun_return. apply c_release.
Qed.

(** *** The ring as a bounded queue, for its clients *)

(** [q] holds the items [l], oldest first. *)
Definition content (q : t) (l : list T) : Prop :=
  ∃ ps tl tc hc, inv q ps tl tc hc ∧ l = drop tl ps.

Lemma content_create : content create [].
Proof. exists [], 0, 0, 0. split; [apply inv_create|done]. Qed.

Lemma content_bound q l : content q l → length l ≤ Capacity.
Proof.
  intros (ps&tl&tc&hc&Hi&->). pose proof (i_order _ _ _ _ _ Hi). rewrite length_drop. lia.
Qed.

Lemma content_push q l x :
  content q l →
  ∃ q', try_push q x = (bool_decide (length l < Capacity), q') ∧
    content q' (if decide (length l < Capacity) then l ++ [x] else l).
Proof.
  intros (ps&tl&tc&hc&Hi&->). pose proof (i_order _ _ _ _ _ Hi) as Ho.
  pose proof (try_push_inv _ _ _ _ _ x Hi) as H. rewrite length_drop.
  destruct (decide (length ps < tl + Capacity)); destruct H as (q'&tc'&->&Hi').
  - rewrite bool_decide_eq_true_2, decide_True by lia. exists q'. split; [done|].
    exists (ps ++ [x]), tl, tc', hc. split; [done|]. by rewrite drop_app_le by lia.
  - rewrite bool_decide_eq_false_2, decide_False by lia. exists q'. split; [done|].
    by exists ps, tl, tc', hc.
Qed.

Lemma content_pop q l :
  content q l → ∃ q', try_pop q = (hd_error l, q') ∧ content q' (List.tl l).
Proof.
  intros (ps&tl&tc&hc&Hi&->). pose proof (try_pop_inv _ _ _ _ _ Hi) as H.
  destruct (ps !! tl) as [x|] eqn:E; destruct H as (q'&hc'&->&Hi').
  - apply drop_S in E. rewrite E. exists q'. split; [done|]. by exists ps, (S tl), tc, hc'.
  - apply lookup_ge_None in E. rewrite drop_ge by done. exists q'. split; [done|].
    exists ps, tl, tc, hc'. split; [done|]. by rewrite drop_ge.
Qed.

End ring.

(** ** A concrete execution: one item in flight *)

Definition demo_config : config (T := nat) :=
  mkConfig (mk [5; 0] 1 0 0 1) (PWrite 6) CRead [5] [].

Lemma demo_reachable : reachable 0 2 demo_config.
Proof.
  assert (∀ c q ps r c', reachable 0 2 c → pstep 2 (mem c) (prod c) q ps r →
    c' = mkConfig q ps (cons c)
        (match r with Some (true, x) => pushed c ++ [x] | _ => pushed c end) (popped c) →
    reachable 0 2 c') as HP.
  { intros c q ps r c' Hr Hs ->. eapply reach_next; [done|]. by constructor. }
  assert (∀ c q cs r c', reachable 0 2 c → cstep 0 2 (mem c) (cons c) q cs r →
    c' = mkConfig q (prod c) cs (pushed c)
        (match r with Some (Some x) => popped c ++ [x] | _ => popped c end) →
    reachable 0 2 c') as HC.
  { intros c q cs r c' Hr Hs ->. eapply reach_next; [done|]. by constructor. }
  eapply (HP (mkConfig (mk [5; 0] 1 0 0 1) PIdle CRead [5] []));
    [|apply p_start_fast; reflexivity|reflexivity].
  eapply (HC (mkConfig (mk [5; 0] 1 0 0 0) PIdle CRefresh [5] []));
    [|apply c_refresh_ok; reflexivity|reflexivity].
  eapply (HC (mkConfig (mk [5; 0] 1 0 0 0) PIdle CIdle [5] []));
    [|apply c_start_slow; reflexivity|reflexivity].
  eapply (HP (mkConfig (mk [5; 0] 0 0 0 0) (PPublish 5) CIdle [] []));
    [|apply p_publish|reflexivity].
  eapply (HP (mkConfig (mk [0; 0] 0 0 0 0) (PWrite 5) CIdle [] [])); [|apply p_write|reflexivity].
  eapply (HP (mkConfig (mk [0; 0] 0 0 0 0) PIdle CIdle [] []));
    [|apply p_start_fast; reflexivity|reflexivity].
  exact (reach_start 0 2).
Qed.

Lemma spsc_fifo_witness : popped demo_config = take 0 (pushed demo_config).
Proof.
  destruct (spsc_fifo 0 2 1 eq_refl ltac:(lia) demo_config demo_reachable) as [H _]. exact H.
Defined.

Lemma spsc_race_free_witness : slot 2 (head (mem demo_config)) ≠ slot 2 (tail (mem demo_config)).
Proof.
  apply (spsc_race_free 0 2 1 eq_refl ltac:(lia) demo_config 6 demo_reachable); reflexivity.
Defined.

Lemma spsc_failures_honest_witness :
  ∀ q, cstep 0 2 (mem demo_config) (cons demo_config) q CIdle (Some None) →
  length (popped demo_config) = length (pushed demo_config).
Proof.
  destruct (spsc_failures_honest 0 2 1 eq_refl ltac:(lia) demo_config demo_reachable) as [_ H].
  exact H.
Defined.

End Spsc.
