(* ===== verification/WeakMem.v ===== *)
(** * The C++ memory model, as far as the rings use it

    Atomic locations have a history of messages, in modification order; a
    thread may load any message that is not older than what it has already
    seen of the location.  A message of a release store carries the view of
    its thread, an acquire load joins the view of the message it reads.
    Plain locations have one value; two accesses that conflict and are not
    ordered by happens-before are a data race.  Happens-before is tracked by
    vector clocks: a view counts the plain accesses of every thread that are
    known to have happened.  [Th] are the threads, [L] the atomic locations
    and [A] the plain ones.

    Stores are placed at the end of the modification order.  That is the
    only place when each location has a single writing thread, or when the
    writer has seen every earlier message ([store_last]). *)

From S2P Require Import Prelude.
From stdpp Require Import base tactics numbers list.

Set Default Goal Selector "!".

Section memory.
Context {Th L A T : Type} `{EqDecision Th} `{EqDecision L} `{EqDecision A}.

Inductive order := Relaxed | Acquire | Release.

Record view := mkView { seen : L → nat; clk : Th → nat }.

Definition no_view : view := mkView (λ _, 0) (λ _, 0).

Definition join_view (V W : view) : view :=
  mkView (λ l, Nat.max (seen V l) (seen W l)) (λ t, Nat.max (clk V t) (clk W t)).

(** The location has been seen up to message [k]. *)
Definition see (l : L) (k : nat) (V : view) : view :=
  mkView (λ l', if decide (l' = l) then Nat.max (seen V l) k else seen V l') (clk V).

(** One more plain access of the thread. *)
Definition tick (t : Th) (V : view) : view :=
  mkView (seen V) (λ t', if decide (t' = t) then S (clk V t) else clk V t').

Record message := mkMessage { m_value : Z; m_view : view }.

(** A plain location: its value, the last write, and each thread's last read,
    as thread and clock. *)
Record cell := mkCell { c_value : T; c_write : Th * nat; c_reads : Th → nat }.

Record memory := mkMemory { hist : L → list message; cells : A → cell }.

(** ** Atomic accesses *)

Definition load_view (o : order) (l : L) (k : nat) (msg : message) (V : view) : view :=
  let V := see l k V in match o with Acquire => join_view V (m_view msg) | _ => V end.

(** Loading from [l] with order [o] may return [v] and leave the view [V']. *)
Definition loads (m : memory) (V : view) (l : L) (o : order) (v : Z) (V' : view) : Prop :=
  ∃ k msg, seen V l ≤ k ∧ hist m l !! k = Some msg ∧ v = m_value msg ∧
    V' = load_view o l k msg V.

(** The load that takes message [k], if the thread may still read it. *)
Definition load_at (m : memory) (V : view) (l : L) (o : order) (k : nat) : option (Z * view) :=
  match hist m l !! k with
  | Some msg => if decide (seen V l ≤ k) then Some (m_value msg, load_view o l k msg V) else None
  | None => None
  end.

Definition store (m : memory) (V : view) (l : L) (o : order) (v : Z) : memory * view :=
  let k := length (hist m l) in
  let V := see l k V in
  let msg := mkMessage v (match o with Release => V | _ => see l k no_view end) in
  (mkMemory (λ l', if decide (l' = l) then hist m l ++ [msg] else hist m l') (cells m), V).

(** A relaxed compare-exchange that succeeds replaces the latest message: a
    read-modify-write follows in modification order what it read.  The new
    message continues the release sequence of the old one. *)
Definition exchange (m : memory) (V : view) (l : L) (expected desired : Z) : option (memory * view) :=
  match last (hist m l) with
  | Some old =>
      if (m_value old =? expected)%Z then
        let k := length (hist m l) in
        let msg := mkMessage desired (see l k (m_view old)) in
        Some (mkMemory (λ l', if decide (l' = l) then hist m l ++ [msg] else hist m l') (cells m),
              see l k V)
      else None
  | None => None
  end.

(** ** Plain accesses *)

Definition write_plain (m : memory) (t : Th) (V : view) (i : A) (x : T) : memory * view :=
  let V := tick t V in
  let c := mkCell x (t, clk V t) (c_reads (cells m i)) in
  (mkMemory (hist m) (λ j, if decide (j = i) then c else cells m j), V).

Definition read_plain (m : memory) (t : Th) (V : view) (i : A) : T * memory * view :=
  let V := tick t V in
  let c := cells m i in
  let c' := mkCell (c_value c) (c_write c)
    (λ t', if decide (t' = t) then clk V t else c_reads c t') in
  (c_value c, mkMemory (hist m) (λ j, if decide (j = i) then c' else cells m j), V).

(** No data race: what conflicts with the access happens before it. *)
Definition read_safe (V : view) (c : cell) : Prop := (c_write c).2 ≤ clk V (c_write c).1.
Definition write_safe (V : view) (c : cell) : Prop :=
  read_safe V c ∧ ∀ t, c_reads c t ≤ clk V t.

(** The thread has seen the latest message of the location, so that its store
    has no place in the modification order but the end. *)
Definition store_last (m : memory) (V : view) (l : L) : Prop := length (hist m l) ≤ S (seen V l).

(** ** Lemmas *)

Lemma load_at_loads m V l o k v V' : load_at m V l o k = Some (v, V') → loads m V l o v V'.
Proof.
  unfold load_at. destruct (hist m l !! k) as [msg|] eqn:Hk; [|done]. case_decide; [|done].
  intros [= <- <-]. by exists k, msg.
Qed.

Lemma seen_see l k V l' : seen V l' ≤ seen (see l k V) l'.
Proof. cbn. case_decide; [subst; lia|done]. Qed.

Lemma seen_see_eq l k V : k ≤ seen (see l k V) l.
Proof. cbn. rewrite decide_True by done. lia. Qed.

Lemma load_view_seen o l k msg V l' : seen V l' ≤ seen (load_view o l k msg V) l'.
Proof. pose proof (seen_see l k V l'). destruct o; cbn in *; lia. Qed.

Lemma load_view_seen_eq o l k msg V : k ≤ seen (load_view o l k msg V) l.
Proof. pose proof (seen_see_eq l k V). destruct o; cbn in *; lia. Qed.

Lemma load_view_clk o l k msg V t : clk V t ≤ clk (load_view o l k msg V) t.
Proof. destruct o; cbn; lia. Qed.

Lemma acquire_clk l k msg V t : clk (m_view msg) t ≤ clk (load_view Acquire l k msg V) t.
Proof. cbn. lia. Qed.

Lemma tick_clk t V t' : clk V t' ≤ clk (tick t V) t'.
Proof. cbn. case_decide; [subst; lia|done]. Qed.

(** A view that knows at least as much. *)
Definition grows (V V' : view) : Prop :=
  (∀ l, seen V l ≤ seen V' l) ∧ (∀ th, clk V th ≤ clk V' th).

#[export] Instance grows_preorder : PreOrder grows.
Proof.
  split; [by split|]. intros V1 V2 V3 [H1 H2] [H3 H4].
  split; intros; [specialize (H1 l); specialize (H3 l)|specialize (H2 th); specialize (H4 th)]; lia.
Qed.

Lemma load_grows o l k msg V : grows V (load_view o l k msg V).
Proof. split; intros; [apply load_view_seen|apply load_view_clk]. Qed.

Lemma tick_grows t V : grows V (tick t V).
Proof. split; [done|]. apply tick_clk. Qed.

Lemma see_grows l k V : grows V (see l k V).
Proof. split; [|done]. apply seen_see. Qed.

(** What a view makes safe, a view that knows more makes safe. *)
Lemma read_safe_grows V V' c : read_safe V c → grows V V' → read_safe V' c.
Proof. unfold read_safe. intros H [_ Hg]. specialize (Hg (c_write c).1). lia. Qed.

Lemma write_safe_grows V V' c : write_safe V c → grows V V' → write_safe V' c.
Proof.
  intros [Hr Hc] Hg. split; [by eapply read_safe_grows|]. intros t. specialize (Hc t).
  destruct Hg as [_ Hg]. specialize (Hg t). lia.
Qed.

(** A load from a location whose latest message has been seen returns it. *)
Lemma loads_latest m V l o v V' :
  loads m V l o v V' → length (hist m l) ≤ S (seen V l) →
  ∃ msg, last (hist m l) = Some msg ∧ v = m_value msg.
Proof.
  intros (k&msg&Hk&Hm&->&_) Hl. exists msg. split; [|done].
  rewrite last_lookup. pose proof (lookup_lt_Some _ _ _ Hm).
  by replace (pred (length (hist m l))) with k by lia.
Qed.

(** ** No thread is stuck *)

(** What a view has seen is in the memory. *)
Definition view_ok (m : memory) (V : view) : Prop := ∀ l, seen V l < length (hist m l).

(** So are the views that messages carry. *)
Definition memory_ok (m : memory) : Prop := ∀ l msg, msg ∈ hist m l → view_ok m (m_view msg).

(** The latest message can always be read. *)
Lemma load_latest m V l o :
  view_ok m V → ∃ msg V', last (hist m l) = Some msg ∧ loads m V l o (m_value msg) V'.
Proof.
  intros Hv. specialize (Hv l). destruct (lookup_lt_is_Some_2 (hist m l) (pred (length (hist m l))))
    as [msg Hm]; [lia|].
  exists msg. eexists. split; [by rewrite last_lookup|].
  exists (pred (length (hist m l))), msg. split_and!; [lia|done..].
Qed.

Lemma see_ok m V l k : view_ok m V → k < length (hist m l) → view_ok m (see l k V).
Proof. intros Hv Hk l'. specialize (Hv l'). cbn. case_decide; [subst; lia|done]. Qed.

Lemma loads_ok m V l o v V' : memory_ok m → view_ok m V → loads m V l o v V' → view_ok m V'.
Proof.
  intros Hm Hv (k&msg&_&Hk&_&->).
  pose proof (see_ok _ _ _ _ Hv (lookup_lt_Some _ _ _ Hk)) as Hs.
  destruct o; cbn; [done| |done]. intros l'. cbn.
  pose proof (Hm l msg (list_elem_of_lookup_2 _ _ _ Hk) l'). specialize (Hs l'). cbn in Hs. lia.
Qed.

(** A memory with longer histories. *)
Definition extends (m m' : memory) : Prop := ∀ l, length (hist m l) ≤ length (hist m' l).

#[export] Instance extends_preorder : PreOrder extends.
Proof.
  split; [by intros m l|]. intros m1 m2 m3 H1 H2 l. specialize (H1 l). specialize (H2 l). lia.
Qed.

Lemma view_ok_extends m m' V : extends m m' → view_ok m V → view_ok m' V.
Proof. intros He Hv l. specialize (He l). specialize (Hv l). lia. Qed.

(** A message is added with a view that was in the memory. *)
Lemma append_ok m V W l v :
  let k := length (hist m l) in
  let m' := mkMemory (λ l', if decide (l' = l) then hist m l ++ [mkMessage v (see l k W)] else hist m l')
    (cells m) in
  memory_ok m → view_ok m V → view_ok m W → extends m m' ∧ memory_ok m' ∧ view_ok m' (see l k V).
Proof.
  intros k m' Hm HV HW.
  assert (extends m m') as He.
  { intros l'. cbn. case_decide; [subst; rewrite length_app; lia|done]. }
  assert (∀ U, view_ok m U → view_ok m' (see l k U)) as Hs.
  { intros U HU. apply see_ok; [by eapply view_ok_extends|]. unfold k. cbn.
    rewrite decide_True, length_app by done. cbn. lia. }
  split_and!; [done| |by apply Hs]. intros l' msg Hin. cbn in Hin. case_decide.
  - apply elem_of_app in Hin as [Hin|Hin%list_elem_of_singleton]; [|rewrite Hin; by apply Hs].
    eapply view_ok_extends; [done|]. by eapply Hm.
  - eapply view_ok_extends; [done|]. by eapply Hm.
Qed.

Lemma store_ok m V l v m' V' :
  store m V l Release v = (m', V') → memory_ok m → view_ok m V →
  extends m m' ∧ memory_ok m' ∧ view_ok m' V'.
Proof. intros [= <- <-] Hm Hv. by apply append_ok. Qed.

Lemma exchange_ok m V l expected desired m' V' :
  exchange m V l expected desired = Some (m', V') → memory_ok m → view_ok m V →
  extends m m' ∧ memory_ok m' ∧ view_ok m' V'.
Proof.
  unfold exchange. destruct (last (hist m l)) as [old|] eqn:El; [|done]. case_match; [|done].
  intros [= <- <-] Hm Hv. apply append_ok; [done|done|].
  apply last_Some_elem_of in El. by eapply Hm.
Qed.

Lemma same_hist_ok m m' V V' :
  hist m' = hist m → seen V' = seen V → memory_ok m → view_ok m V →
  extends m m' ∧ memory_ok m' ∧ view_ok m' V'.
Proof.
  intros E Ev Hm Hv. unfold extends, memory_ok, view_ok in *. rewrite E, Ev. by split_and!.
Qed.

End memory.

Arguments view : clear implicits.
Arguments message : clear implicits.
Arguments cell : clear implicits.
Arguments memory : clear implicits.
