(* ===== verification/Paced.v ===== *)
(** * Runs that count the steps of one party

    Progress of a thread among others is stated on runs in which its own
    steps are counted and the others take any steps in between; it is proved
    by a measure that its steps lower and the others do not raise. *)

From S2P Require Import Prelude.
From stdpp Require Import base tactics numbers list.

Set Default Goal Selector "!".

Section paced.
Context {X : Type} (others own : X → X → Prop).

(** A run with [k] steps of the party that is counted. *)
Inductive paced : nat → X → X → Prop :=
  | paced_here x : paced 0 x x
  | paced_others k x y z : others x y → paced k y z → paced k x z
  | paced_own k x y z : own x y → paced k y z → paced (S k) x z.

Lemma paced_preserves (I : X → Prop) k x y :
  (∀ x y, I x → others x y → I y) → (∀ x y, I x → own x y → I y) → I x → paced k x y → I y.
Proof. intros Ho Hw Hx. induction 1; eauto. Qed.

(** A measure that every step of the party lowers until [Q] holds, and that
    the others do not raise. *)
Lemma paced_reaches (I Q : X → Prop) (mu : X → nat) k x y :
  (∀ x y, I x → others x y → I y ∧ (Q x → Q y) ∧ mu y ≤ mu x) →
  (∀ x y, I x → own x y → I y ∧ (Q x → Q y) ∧ (Q y ∨ mu y < mu x)) →
  I x → paced k x y → Q x ∨ mu x < k → Q y.
Proof.
  intros Ho Hw Hx Hp.
  induction Hp as [x|k x y z Hs _ IH|k x y z Hs _ IH].
  - intros [?|?]; [done|lia].
  - destruct (Ho _ _ Hx Hs) as (Hy&HQ&Hmu). intros [?|?]; apply IH; auto. right. lia.
  - destruct (Hw _ _ Hx Hs) as (Hy&HQ&Hmu). intros [?|?]; apply IH; auto.
    destruct Hmu; [auto|]. right. lia.
Qed.

End paced.

(** Runs of a system are runs of a part of it. *)
Lemma paced_map {X Y : Type} (f : X → Y) (others own : X → X → Prop) (others' own' : Y → Y → Prop) k x y :
  (∀ x y, others x y → others' (f x) (f y)) → (∀ x y, own x y → own' (f x) (f y)) →
  paced others own k x y → paced others' own' k (f x) (f y).
Proof.
  intros Ho Hw. induction 1; [constructor|by eapply paced_others; eauto|by eapply paced_own; eauto].
Qed.

(** What can only be lost holds throughout a run that ends with it. *)
Lemma paced_restrict {X : Type} (others own : X → X → Prop) (P : X → Prop) k x y :
  (∀ x y, others x y → P y → P x) → (∀ x y, own x y → P y → P x) → P y →
  paced others own k x y →
  P x ∧ paced (λ x y, others x y ∧ P y) (λ x y, own x y ∧ P y) k x y.
Proof.
  intros Ho Hw Hy. induction 1 as [x|k x y z Hs _ IH|k x y z Hs _ IH]; [by split; [|constructor]|..];
    destruct (IH Hy) as [HP Hr]; split; eauto.
  - by eapply paced_others.
  - by eapply paced_own.
Qed.
