(* ===== verification/SpscWeak.v ===== *)
(** * The single-producer ring on a weak memory
    (src/include/jane/concurrency/spsc_ring_buffer.hpp)

    The two functions again, now on the memory of WeakMem.v with the memory
    orders the source gives each access.  Loads may return old values; that
    slots are nevertheless handed over without a race, and in order, rests
    on the two release/acquire pairs. *)

From S2P Require Import Prelude Spsc WeakMem.
From stdpp Require Import base tactics numbers list.

Set Default Goal Selector "!".

Module SpscWeak.
Import Spsc.

(** Where a ring lives: its two threads, its two indices, and the plain
    location of each slot.  The memory may hold other things. *)
Record site (Th L A : Type) := mkSite {
  producer : Th;
  consumer : Th;
  head_loc : L;
  tail_loc : L;
  at_slot : nat → A;
}.
#[global] Arguments producer {_ _ _}.
#[global] Arguments consumer {_ _ _}.
#[global] Arguments head_loc {_ _ _}.
#[global] Arguments tail_loc {_ _ _}.
#[global] Arguments at_slot {_ _ _}.

Record site_ok {Th L A : Type} (r : site Th L A) : Prop := {
  so_threads : producer r ≠ consumer r;
  so_locs : head_loc r ≠ tail_loc r;
  so_slots i j : at_slot r i = at_slot r j → i = j;
}.

Section ring.
Context {T Th L A : Type} `{EqDecision Th} `{EqDecision L} `{EqDecision A}.
Context (dflt : T) (Capacity : nat) (rs : site Th L A).

Abbreviation Producer := (producer rs).
Abbreviation Consumer := (consumer rs).
Abbreviation HeadLoc := (head_loc rs).
Abbreviation TailLoc := (tail_loc rs).

(** Memory, the producer's view and cache, the consumer's view and cache. *)
Record t := mk {
  mem : memory Th L A T;
  pview : view Th L;
  tail_cache : Z;
  cview : view Th L;
  head_cache : Z;
}.

(** The ring is constructed before the threads start. *)
Definition create : t :=
  mk (mkMemory (λ _, [mkMessage 0%Z no_view]) (λ _, mkCell dflt (Producer, 0) (λ _, 0)))
    no_view 0 no_view 0.

(** Between the accesses of [try_push]; [head] is the local variable. *)
Inductive pstate := PIdle | PRefresh (item : T) (head : Z) | PWrite (item : T) (head : Z)
  | PPublish (item : T) (head : Z).

(** Between the accesses of [try_pop]. *)
Inductive cstate := CIdle | CRefresh (tail : Z) | CRead (tail : Z) | CRelease (item : T) (tail : Z).

Definition with_prod (q : t) (m : memory Th L A T) (V : view Th L) (tc : Z) : t :=
  mk m V tc (cview q) (head_cache q).
Definition with_cons (q : t) (m : memory Th L A T) (V : view Th L) (hc : Z) : t :=
  mk m (pview q) (tail_cache q) V hc.

Inductive pstep : t → pstate → t → pstate → option (bool * T) → Prop :=
  | p_start q item head V :
      loads (mem q) (pview q) HeadLoc Relaxed head V →
      pstep q PIdle (with_prod q (mem q) V (tail_cache q))
        (if full Capacity head (tail_cache q) then PRefresh item head else PWrite item head) None
  | p_refresh_ok q item head tail V :
      loads (mem q) (pview q) TailLoc Acquire tail V → full Capacity head tail = false →
      pstep q (PRefresh item head) (with_prod q (mem q) V tail) (PWrite item head) None
  | p_refresh_full q item head tail V :
      loads (mem q) (pview q) TailLoc Acquire tail V → full Capacity head tail = true →
      pstep q (PRefresh item head) (with_prod q (mem q) V tail) PIdle (Some (false, item))
  | p_write q item head m V :
      write_plain (mem q) Producer (pview q) (at_slot rs (slot Capacity head)) item = (m, V) →
      pstep q (PWrite item head) (with_prod q m V (tail_cache q)) (PPublish item head) None
  | p_publish q item head m V :
      store (mem q) (pview q) HeadLoc Release (u64 (head + 1)) = (m, V) →
      pstep q (PPublish item head) (with_prod q m V (tail_cache q)) PIdle (Some (true, item)).

Inductive cstep : t → cstate → t → cstate → option (option T) → Prop :=
  | c_start q tail V :
      loads (mem q) (cview q) TailLoc Relaxed tail V →
      cstep q CIdle (with_cons q (mem q) V (head_cache q))
        (if (tail =? head_cache q)%Z then CRefresh tail else CRead tail) None
  | c_refresh_ok q tail head V :
      loads (mem q) (cview q) HeadLoc Acquire head V → (tail =? head)%Z = false →
      cstep q (CRefresh tail) (with_cons q (mem q) V head) (CRead tail) None
  | c_refresh_empty q tail head V :
      loads (mem q) (cview q) HeadLoc Acquire head V → (tail =? head)%Z = true →
      cstep q (CRefresh tail) (with_cons q (mem q) V head) CIdle (Some None)
  | c_read q tail x m V :
      read_plain (mem q) Consumer (cview q) (at_slot rs (slot Capacity tail)) = (x, m, V) →
      cstep q (CRead tail) (with_cons q m V (head_cache q)) (CRelease x tail) None
  | c_release q x tail m V :
      store (mem q) (cview q) TailLoc Release (u64 (tail + 1)) = (m, V) →
      cstep q (CRelease x tail) (with_cons q m V (head_cache q)) CIdle (Some (Some x)).

(** A step as a function of the message a load takes; [item] is what the
    producer pushes next. *)
Definition pnext (q : t) (ps : pstate) (item : T) (k : nat)
    : option (t * pstate * option (bool * T)) :=
  match ps with
  | PIdle =>
      '(head, V) ← load_at (mem q) (pview q) HeadLoc Relaxed k;
      Some (with_prod q (mem q) V (tail_cache q),
        if full Capacity head (tail_cache q) then PRefresh item head else PWrite item head, None)
  | PRefresh item head =>
      '(tail, V) ← load_at (mem q) (pview q) TailLoc Acquire k;
      Some (with_prod q (mem q) V tail,
        if full Capacity head tail then PIdle else PWrite item head,
        if full Capacity head tail then Some (false, item) else None)
  | PWrite item head =>
      let '(m, V) := write_plain (mem q) Producer (pview q) (at_slot rs (slot Capacity head)) item in
      Some (with_prod q m V (tail_cache q), PPublish item head, None)
  | PPublish item head =>
      let '(m, V) := store (mem q) (pview q) HeadLoc Release (u64 (head + 1)) in
      Some (with_prod q m V (tail_cache q), PIdle, Some (true, item))
  end.

Definition cnext (q : t) (cs : cstate) (k : nat) : option (t * cstate * option (option T)) :=
  match cs with
  | CIdle =>
      '(tail, V) ← load_at (mem q) (cview q) TailLoc Relaxed k;
      Some (with_cons q (mem q) V (head_cache q),
        if (tail =? head_cache q)%Z then CRefresh tail else CRead tail, None)
  | CRefresh tail =>
      '(head, V) ← load_at (mem q) (cview q) HeadLoc Acquire k;
      Some (with_cons q (mem q) V head, if (tail =? head)%Z then CIdle else CRead tail,
        if (tail =? head)%Z then Some None else None)
  | CRead tail =>
      let '(x, m, V) := read_plain (mem q) Consumer (cview q) (at_slot rs (slot Capacity tail)) in
      Some (with_cons q m V (head_cache q), CRelease x tail, None)
  | CRelease x tail =>
      let '(m, V) := store (mem q) (cview q) TailLoc Release (u64 (tail + 1)) in
      Some (with_cons q m V (head_cache q), CIdle, Some (Some x))
  end.

Lemma pnext_step q ps item k q' ps' o : pnext q ps item k = Some (q', ps', o) → pstep q ps q' ps' o.
Proof.
  destruct ps as [|x head|x head|x head]; cbn [pnext].
  - destruct (load_at _ _ _ _ _) as [[v V]|] eqn:E; intros [= <- <- <-].
    by apply p_start, load_at_loads with k.
  - destruct (load_at _ _ _ _ _) as [[v V]|] eqn:E; intros [= <- <- <-].
    apply load_at_loads in E.
    destruct (full Capacity head v) eqn:F; [by apply p_refresh_full|by apply p_refresh_ok].
  - intros [= <- <- <-]. by apply p_write.
  - intros [= <- <- <-]. by apply p_publish.
Qed.

Lemma cnext_step q cs k q' cs' o : cnext q cs k = Some (q', cs', o) → cstep q cs q' cs' o.
Proof.
  destruct cs as [|tail|tail|x tail]; cbn [cnext].
  - destruct (load_at _ _ _ _ _) as [[v V]|] eqn:E; intros [= <- <- <-].
    by apply c_start, load_at_loads with k.
  - destruct (load_at _ _ _ _ _) as [[v V]|] eqn:E; intros [= <- <- <-].
    apply load_at_loads in E.
    destruct (tail =? v)%Z eqn:F; [by apply c_refresh_empty|by apply c_refresh_ok].
  - intros [= <- <- <-]. by apply c_read.
  - intros [= <- <- <-]. by apply c_release.
Qed.

Record config := mkConfig {
  ring : t; prod : pstate; cons : cstate; pushed : list T; popped : list T;
}.

Inductive step : config → config → Prop :=
  | step_prod c q ps r :
      pstep (ring c) (prod c) q ps r →
      step c (mkConfig q ps (cons c)
        (match r with Some (true, x) => pushed c ++ [x] | _ => pushed c end) (popped c))
  | step_cons c q cs r :
      cstep (ring c) (cons c) q cs r →
      step c (mkConfig q (prod c) cs (pushed c)
        (match r with Some (Some x) => popped c ++ [x] | _ => popped c end)).

Inductive reachable : config → Prop :=
  | reach_start : reachable (mkConfig create PIdle CIdle [] [])
  | reach_next c c' : reachable c → step c c' → reachable c'.

(** The plain access a thread is about to make conflicts with nothing. *)
Definition accesses_safe (c : config) : Prop :=
  (∀ x head, prod c = PWrite x head →
     write_safe (pview (ring c)) (cells (mem (ring c)) (at_slot rs (slot Capacity head)))) ∧
  (∀ tail, cons c = CRead tail →
     read_safe (cview (ring c)) (cells (mem (ring c)) (at_slot rs (slot Capacity tail)))).

(** ** The invariant *)

Context (n : nat) (Hcap : Capacity = 2 ^ n) (Hn : 1 ≤ n < 63) (Hsite : site_ok rs).

(** Message [k] of an index location says [k]. *)
Definition counts (h : list (message Th L)) (len : nat) : Prop :=
  length h = S len ∧ ∀ k msg, h !! k = Some msg → m_value msg = u64 (Z.of_nat k).

Definition wtime (m : memory Th L A T) (k : nat) : nat := (c_write (cells m (at_slot rs (k mod Capacity)))).2.
Definition rtime (m : memory Th L A T) (k : nat) : nat := c_reads (cells m (at_slot rs (k mod Capacity))) Consumer.

Record inv (q : t) (ps : list T) (tl tc hc : nat) : Prop := {
  i_head : counts (hist (mem q) HeadLoc) (length ps);
  i_tail : counts (hist (mem q) TailLoc) tl;
  i_pview : length ps ≤ seen (pview q) HeadLoc ∧ tc ≤ seen (pview q) TailLoc;
  i_cview : tl ≤ seen (cview q) TailLoc ∧ hc ≤ seen (cview q) HeadLoc;
  i_tcache : tail_cache q = u64 (Z.of_nat tc);
  i_hcache : head_cache q = u64 (Z.of_nat hc);
  i_order : tc ≤ tl ∧ tl ≤ hc ∧ hc ≤ length ps ∧ length ps ≤ tc + Capacity;
  i_data k : tl ≤ k → k < length ps → ps !! k = Some (c_value (cells (mem q) (at_slot rs (k mod Capacity))));
  i_writes i : (c_write (cells (mem q) (at_slot rs i))).1 = Producer ∧
    (c_write (cells (mem q) (at_slot rs i))).2 ≤ clk (pview q) Producer;
  i_reads i : (∀ th, th ≠ Consumer → c_reads (cells (mem q) (at_slot rs i)) th = 0) ∧
    c_reads (cells (mem q) (at_slot rs i)) Consumer ≤ clk (cview q) Consumer;
  i_published j msg k : hist (mem q) HeadLoc !! j = Some msg → tl ≤ k → k < j →
    wtime (mem q) k ≤ clk (m_view msg) Producer;
  i_received k : tl ≤ k → k < hc → wtime (mem q) k ≤ clk (cview q) Producer;
  i_released j msg k : hist (mem q) TailLoc !! j = Some msg → length ps ≤ k → k < j + Capacity →
    rtime (mem q) k ≤ clk (m_view msg) Consumer;
  i_free k : length ps ≤ k → k < tc + Capacity → rtime (mem q) k ≤ clk (pview q) Consumer;
}.

Lemma weak_inv_create : inv create [] 0 0 0.
Proof.
  split; cbn; try done; try lia.
  - split; [done|]. intros [|k] msg; [by intros [= <-]|done].
  - split; [done|]. intros [|k] msg; [by intros [= <-]|done].
Qed.

Lemma inv_pview q ps tl tc hc V :
  inv q ps tl tc hc → grows (pview q) V →
  inv (with_prod q (mem q) V (tail_cache q)) ps tl tc hc.
Proof.
  intros Hi [Hs Hc]. pose proof (Hs HeadLoc). pose proof (Hs TailLoc). pose proof (Hc Producer).
  pose proof (Hc Consumer). destruct Hi as [? ? [? ?] ? ? ? ? ? Hw ? ? ? ? Hf].
  split; try done; cbn [mem pview with_prod].
  - lia.
  - intros i. destruct (Hw i). split; [done|lia].
  - intros k Hk1 Hk2. etrans; [by apply Hf|done].
Qed.

Lemma inv_cview q ps tl tc hc V :
  inv q ps tl tc hc → grows (cview q) V →
  inv (with_cons q (mem q) V (head_cache q)) ps tl tc hc.
Proof.
  intros Hi [Hs Hc]. pose proof (Hs HeadLoc). pose proof (Hs TailLoc). pose proof (Hc Producer).
  pose proof (Hc Consumer). destruct Hi as [? ? ? [? ?] ? ? ? ? ? Hr ? Hd ? ?].
  split; try done; cbn [mem cview with_cons].
  - lia.
  - intros i. destruct (Hr i). split; [done|lia].
  - intros k Hk1 Hk2. etrans; [by apply Hd|done].
Qed.

(** A thread sees its own index exactly. *)
Lemma own_load (m : memory Th L A T) V l o v V' len :
  counts (hist m l) len → len ≤ seen V l → loads m V l o v V' →
  v = u64 (Z.of_nat len) ∧ grows V V'.
Proof.
  intros [Hl Hv] Hs (k&msg&Hk&Hm&->&->). split; [|apply load_grows].
  rewrite (Hv _ _ Hm). apply lookup_lt_Some in Hm. do 2 f_equal. lia.
Qed.

(** The acquire load of [tail] may be stale, but not older than the cache,
    and it brings the reads of the slots it frees. *)
Lemma weak_inv_refresh_tail q ps tl tc hc v V :
  inv q ps tl tc hc → loads (mem q) (pview q) TailLoc Acquire v V →
  ∃ j, tc ≤ j ≤ tl ∧ v = u64 (Z.of_nat j) ∧ inv (with_prod q (mem q) V v) ps tl j hc.
Proof.
  intros Hi (j&msg&Hj&Hm&->&->). pose proof (i_pview _ _ _ _ _ Hi) as [_ Htc].
  pose proof (i_tail _ _ _ _ _ Hi) as [Hl Hv]. pose proof (lookup_lt_Some _ _ _ Hm) as Hlt.
  exists j. split; [lia|]. split; [by apply Hv|].
  pose proof (i_order _ _ _ _ _ Hi) as Ho.
  pose proof (inv_pview _ _ _ _ _ (load_view Acquire TailLoc j msg (pview q)) Hi (load_grows _ _ _ _ _))
    as Hi'.
  destruct Hi' as [? ? [? ?] ? ? ? ? ? ? ? ? ? Hrel ?]. split; try done; cbn [mem pview with_prod tail_cache].
  - split; [done|]. apply load_view_seen_eq.
  - by apply Hv.
  - lia.
  - intros k Hk1 Hk2. etrans; [exact (Hrel j msg k Hm Hk1 Hk2)|]. apply acquire_clk.
Qed.

(** The acquire load of [head] brings the writes of the slots it hands over. *)
Lemma weak_inv_refresh_head q ps tl tc hc v V :
  inv q ps tl tc hc → loads (mem q) (cview q) HeadLoc Acquire v V →
  ∃ j, hc ≤ j ≤ length ps ∧ v = u64 (Z.of_nat j) ∧ inv (with_cons q (mem q) V v) ps tl tc j.
Proof.
  intros Hi (j&msg&Hj&Hm&->&->). pose proof (i_cview _ _ _ _ _ Hi) as [_ Hhc].
  pose proof (i_head _ _ _ _ _ Hi) as [Hl Hv]. pose proof (lookup_lt_Some _ _ _ Hm) as Hlt.
  exists j. split; [lia|]. split; [by apply Hv|].
  pose proof (i_order _ _ _ _ _ Hi) as Ho.
  pose proof (inv_cview _ _ _ _ _ (load_view Acquire HeadLoc j msg (cview q)) Hi (load_grows _ _ _ _ _))
    as Hi'.
  destruct Hi' as [? ? ? [? ?] ? ? ? ? ? ? Hpub ? ? ?]. split; try done; cbn [mem cview with_cons head_cache].
  - split; [done|]. apply load_view_seen_eq.
  - by apply Hv.
  - lia.
  - intros k Hk1 Hk2. etrans; [exact (Hpub j msg k Hm Hk1 Hk2)|]. apply acquire_clk.
Qed.

(** Two positions less than a lap apart have different slots. *)
Lemma lap_ne a b :
  a < b → b < a + Capacity → at_slot rs (a mod Capacity) ≠ at_slot rs (b mod Capacity).
Proof. intros H1 H2 E%Hsite. revert E. by apply mod_window_ne. Qed.

Lemma weak_inv_write q ps tl tc hc x m V :
  inv q ps tl tc hc → length ps < tc + Capacity →
  write_plain (mem q) Producer (pview q) (at_slot rs (length ps mod Capacity)) x = (m, V) →
  inv (with_prod q m V (tail_cache q)) ps tl tc hc ∧
  c_value (cells m (at_slot rs (length ps mod Capacity))) = x.
Proof.
  intros Hi Hroom. unfold write_plain. intros [= <- <-].
  pose proof (i_order _ _ _ _ _ Hi) as Ho. set (p := at_slot rs (length ps mod Capacity)) in *.
  assert (∀ k, tl ≤ k → k < length ps → at_slot rs (k mod Capacity) ≠ p) as Hne
    by (intros k Hk1 Hk2; apply lap_ne; lia).
  pose proof (tick_clk Producer (pview q)) as Htk.
  split; [|cbn; by rewrite decide_True].
  destruct Hi as [? ? ? ? ? ? ? Hd Hw Hr Hpub Hrc Hrel Hf].
  split; try done; cbn [mem pview with_prod hist cells].
  - intros k Hk1 Hk2. rewrite decide_False by auto. by apply Hd.
  - intros i. destruct (Hw i). specialize (Htk Producer). case_decide; [done|]. split; [done|lia].
  - intros i. case_decide as E; [|done]. cbn [c_reads]. rewrite <- E. apply Hr.
  - intros j msg k Hj Hk1 Hk2. unfold wtime. cbn [cells].
    pose proof (lookup_lt_Some _ _ _ Hj). pose proof (i_head q ps tl tc hc) as _.
    case_decide as E; [|by eapply Hpub]. exfalso. revert E. apply Hne; [done|].
    match goal with H : counts _ (length ps) |- _ => destruct H as [Hl _] end. lia.
  - intros k Hk1 Hk2. unfold wtime. cbn [cells]. rewrite decide_False by (apply Hne; lia). by apply Hrc.
  - intros j msg k Hj Hk1 Hk2. unfold rtime. cbn [cells]. case_decide as E; [|by eapply Hrel].
    cbn [c_reads]. rewrite <- E. by apply (Hrel j msg k).
  - intros k Hk1 Hk2. unfold rtime. cbn [cells]. specialize (Htk Consumer).
    assert (rtime (mem q) k ≤ clk (tick Producer (pview q)) Consumer) as Hk
      by (specialize (Hf k Hk1 Hk2); lia).
    unfold rtime in Hk. case_decide as E; [|done]. cbn [c_reads]. by rewrite <- E.
Qed.

Lemma counts_snoc h len msg :
  counts h len → m_value msg = u64 (Z.of_nat (S len)) → counts (h ++ [msg]) (S len).
Proof.
  intros [Hl Hv] Hm. split; [rewrite length_app; cbn; lia|].
  intros k msg' [[_ Hk]|[-> <-]]%lookup_snoc_Some; [by apply Hv|]. by rewrite Hm, Hl.
Qed.

(** The release store publishes the write of the slot with the index. *)
Lemma weak_inv_publish q ps tl tc hc m V :
  inv q ps tl tc hc → length ps < tc + Capacity →
  store (mem q) (pview q) HeadLoc Release (u64 (u64 (Z.of_nat (length ps)) + 1)) = (m, V) →
  inv (with_prod q m V (tail_cache q))
    (ps ++ [c_value (cells (mem q) (at_slot rs (length ps mod Capacity)))]) tl tc hc.
Proof.
  intros Hi Hroom. unfold store. intros [= <- <-]. set (x := c_value _).
  destruct Hi as [Hh ? [? ?] ? ? ? ? Hd Hw Hr Hpub Hrc Hrel Hf].
  assert (length (ps ++ [x]) = S (length ps)) as El by (rewrite length_app; cbn; lia).
  split; try done; cbn [mem pview with_prod hist cells see clk]; rewrite ?El.
  - rewrite decide_True by done. apply counts_snoc; [done|]. apply (u64_succ Capacity n Hcap Hn).
  - by rewrite decide_False by (apply not_eq_sym, Hsite).
  - pose proof (seen_see_eq HeadLoc (length (hist (mem q) HeadLoc)) (pview q)) as Hs.
    destruct Hh as [Hl _]. rewrite Hl in *. split; [exact Hs|]. cbn.
    by rewrite decide_False by (apply not_eq_sym, Hsite).
  - lia.
  - intros k Hk1 Hk2. destruct (decide (k = length ps)) as [->|].
    + by rewrite lookup_app_r, Nat.sub_diag by lia.
    + rewrite lookup_app_l by lia. apply Hd; lia.
  - intros j msg k. rewrite decide_True by done.
    intros [[_ Hj]|[-> <-]]%lookup_snoc_Some Hk1 Hk2; [by eapply Hpub|]. apply Hw.
  - intros j msg k. rewrite decide_False by (apply not_eq_sym, Hsite).
    intros Hj Hk1 Hk2. apply (Hrel j msg); [done|lia|done].
  - intros k Hk1 Hk2. apply Hf; lia.
Qed.

Lemma weak_inv_read q ps tl tc hc x m V :
  inv q ps tl tc hc → tl < hc →
  read_plain (mem q) Consumer (cview q) (at_slot rs (tl mod Capacity)) = (x, m, V) →
  inv (with_cons q m V (head_cache q)) ps tl tc hc ∧ ps !! tl = Some x ∧
  ∀ i, c_value (cells m i) = c_value (cells (mem q) i).
Proof.
  intros Hi Hlt. unfold read_plain. intros [= <- <- <-].
  pose proof (i_order _ _ _ _ _ Hi) as Ho. pose proof (tick_clk Consumer (cview q)) as Htk.
  set (p := at_slot rs (tl mod Capacity)).
  assert (∀ k, length ps ≤ k → k < tl + Capacity → at_slot rs (k mod Capacity) ≠ p) as Hne
    by (intros k Hk1 Hk2; apply not_eq_sym, lap_ne; lia).
  assert (∀ i, c_value (if decide (i = p) then
      mkCell (c_value (cells (mem q) p)) (c_write (cells (mem q) p))
        (λ t', if decide (t' = Consumer) then clk (tick Consumer (cview q)) Consumer
               else c_reads (cells (mem q) p) t')
      else cells (mem q) i) = c_value (cells (mem q) i)) as Hval
    by (intros i; case_decide; by subst).
  destruct Hi as [? Ht ? ? ? ? ? Hd Hw Hr Hpub Hrc Hrel Hf].
  split; [|split; [apply Hd; lia|exact Hval]].
  split; try done; cbn [mem cview with_cons hist cells].
  - intros k Hk1 Hk2. rewrite Hval. by apply Hd.
  - intros i. case_decide as E; [|done]. cbn [c_write]. rewrite <- E. apply Hw.
  - intros i. destruct (Hr i) as [Hr1 Hr2]. specialize (Htk Consumer).
    case_decide as E; [|split; [done|lia]]. cbn [c_reads]. rewrite <- E. split.
    + intros th Hth. rewrite decide_False by done. by apply Hr1.
    + cbn. by rewrite decide_True by done.
  - intros j msg k Hj Hk1 Hk2. unfold wtime. cbn [cells]. case_decide as E; [|by eapply Hpub].
    cbn [c_write]. rewrite <- E. by eapply Hpub.
  - intros k Hk1 Hk2. specialize (Htk Producer).
    assert (wtime (mem q) k ≤ clk (tick Consumer (cview q)) Producer) as Hk
      by (specialize (Hrc k Hk1 Hk2); lia).
    unfold wtime in *. cbn [cells]. case_decide as E; [|done]. cbn [c_write]. by rewrite <- E.
  - intros j msg k Hj Hk1 Hk2. unfold rtime. cbn [cells].
    apply lookup_lt_Some in Hj as Hjl. destruct Ht as [Hl _].
    rewrite decide_False by (apply Hne; lia). by eapply Hrel.
  - intros k Hk1 Hk2. unfold rtime. cbn [cells]. rewrite decide_False by (apply Hne; lia). by apply Hf.
Qed.

(** The release store gives the slot back with its read. *)
Lemma weak_inv_release q ps tl tc hc m V :
  inv q ps tl tc hc → tl < hc →
  store (mem q) (cview q) TailLoc Release (u64 (u64 (Z.of_nat tl) + 1)) = (m, V) →
  inv (with_cons q m V (head_cache q)) ps (S tl) tc hc.
Proof.
  intros Hi Hlt. unfold store. intros [= <- <-].
  destruct Hi as [? Ht ? [? ?] ? ? ? Hd Hw Hr Hpub Hrc Hrel Hf].
  split; try done; cbn [mem cview with_cons hist cells see clk].
  - by rewrite decide_False by apply Hsite.
  - rewrite decide_True by done. apply counts_snoc; [done|]. apply (u64_succ Capacity n Hcap Hn).
  - pose proof (seen_see_eq TailLoc (length (hist (mem q) TailLoc)) (cview q)) as Hs.
    destruct Ht as [Hl _]. rewrite Hl in *. split; [exact Hs|]. cbn.
    by rewrite decide_False by apply Hsite.
  - lia.
  - intros k Hk1 Hk2. apply Hd; lia.
  - intros j msg k. rewrite decide_False by apply Hsite.
    intros Hj Hk1 Hk2. apply (Hpub j msg); [done|lia|done].
  - intros k Hk1 Hk2. apply Hrc; lia.
  - intros j msg k. rewrite decide_True by done.
    intros [[_ Hj]|[-> <-]]%lookup_snoc_Some Hk1 Hk2; [by eapply Hrel|]. apply Hr.
Qed.

(** ** Executions *)

Definition prod_ok (ps : list T) (tc : nat) (m : memory Th L A T) (s : pstate) : Prop :=
  match s with
  | PIdle => True
  | PRefresh _ h => h = u64 (Z.of_nat (length ps))
  | PWrite _ h => h = u64 (Z.of_nat (length ps)) ∧ length ps < tc + Capacity
  | PPublish x h => h = u64 (Z.of_nat (length ps)) ∧ length ps < tc + Capacity ∧
      c_value (cells m (at_slot rs (length ps mod Capacity))) = x
  end.

Definition cons_ok (ps : list T) (tl hc : nat) (s : cstate) : Prop :=
  match s with
  | CIdle => True
  | CRefresh tail => tail = u64 (Z.of_nat tl)
  | CRead tail => tail = u64 (Z.of_nat tl) ∧ tl < hc
  | CRelease x tail => tail = u64 (Z.of_nat tl) ∧ tl < hc ∧ ps !! tl = Some x
  end.

Record config_ok (c : config) (tc hc : nat) : Prop := {
  co_inv : inv (ring c) (pushed c) (length (popped c)) tc hc;
  co_pop : popped c = take (length (popped c)) (pushed c);
  co_prod : prod_ok (pushed c) tc (mem (ring c)) (prod c);
  co_cons : cons_ok (pushed c) (length (popped c)) hc (cons c);
}.

Lemma weak_cons_ok_snoc ps tl hc s x : cons_ok ps tl hc s → cons_ok (ps ++ [x]) tl hc s.
Proof.
  destruct s; cbn; try done. intros (?&?&?). split_and!; [done|done|]. by apply lookup_app_l_Some.
Qed.

Lemma weak_pstep_ok c q s r tc hc :
  config_ok c tc hc → pstep (ring c) (prod c) q s r →
  ∃ tc', config_ok (mkConfig q s (cons c)
    (match r with Some (true, x) => pushed c ++ [x] | _ => pushed c end) (popped c)) tc' hc.
Proof.
  intros [Hi Hp Hpr Hc] Hs. pose proof (i_order _ _ _ _ _ Hi) as Ho.
  inversion Hs as [q0 x h V Hld|q0 x h v V Hld Hf|q0 x h v V Hld Hf|q0 x h m V Hw|q0 x h m V Hst];
    subst; match goal with H : _ = prod c |- _ => rewrite <- H in Hpr end; cbn in Hpr.
  - destruct (own_load _ _ _ _ _ _ _ (i_head _ _ _ _ _ Hi) (proj1 (i_pview _ _ _ _ _ Hi)) Hld)
      as [-> Hg].
    exists tc. split; try done; [by apply inv_pview|]. cbn [prod pushed].
    rewrite (i_tcache _ _ _ _ _ Hi), (full_spec Capacity n Hcap Hn) by lia.
    case_bool_decide; cbn; [done|]. split; [done|lia].
  - destruct (weak_inv_refresh_tail _ _ _ _ _ _ _ Hi Hld) as (j&Hj&->&Hi').
    rewrite Hpr, (full_spec Capacity n Hcap Hn) in Hf by lia. bool_to_prop.
    exists j. split; try done. cbn. split; [done|lia].
  - destruct (weak_inv_refresh_tail _ _ _ _ _ _ _ Hi Hld) as (j&Hj&->&Hi'). exists j. by split.
  - destruct Hpr as [-> Hroom]. rewrite (slot_mod Capacity n Hcap Hn) in Hw.
    destruct (weak_inv_write _ _ _ _ _ _ _ _ Hi Hroom Hw) as [Hi' Hx]. exists tc. by split.
  - destruct Hpr as (->&Hroom&<-). pose proof (weak_inv_publish _ _ _ _ _ _ _ Hi Hroom Hst) as Hi'.
    exists tc. split; try done.
    + cbn. rewrite take_app_le by lia. done.
    + by apply weak_cons_ok_snoc.
Qed.

Lemma weak_prod_ok_frame ps tc m m' s :
  (∀ i, c_value (cells m' i) = c_value (cells m i)) → prod_ok ps tc m s → prod_ok ps tc m' s.
Proof. intros E. destruct s; cbn; by rewrite ?E. Qed.

Lemma weak_cstep_ok c q s r tc hc :
  config_ok c tc hc → cstep (ring c) (cons c) q s r →
  ∃ hc', config_ok (mkConfig q (prod c) s (pushed c)
    (match r with Some (Some x) => popped c ++ [x] | _ => popped c end)) tc hc'.
Proof.
  intros [Hi Hp Hpr Hc] Hs. pose proof (i_order _ _ _ _ _ Hi) as Ho.
  inversion Hs as [q0 tl V Hld|q0 tl v V Hld He|q0 tl v V Hld He|q0 tl x m V Hrd|q0 x tl m V Hst];
    subst; match goal with H : _ = cons c |- _ => rewrite <- H in Hc end; cbn in Hc.
  - destruct (own_load _ _ _ _ _ _ _ (i_tail _ _ _ _ _ Hi) (proj1 (i_cview _ _ _ _ _ Hi)) Hld)
      as [-> Hg].
    exists hc. split; try done; [by apply inv_cview|]. cbn [cons pushed popped].
    rewrite (i_hcache _ _ _ _ _ Hi), (u64_eqb Capacity n Hcap Hn) by lia.
    case_bool_decide; cbn; [done|]. split; [done|lia].
  - destruct (weak_inv_refresh_head _ _ _ _ _ _ _ Hi Hld) as (j&Hj&->&Hi').
    rewrite Hc, (u64_eqb Capacity n Hcap Hn) in He by lia. bool_to_prop.
    exists j. split; try done. cbn. split; [done|lia].
  - destruct (weak_inv_refresh_head _ _ _ _ _ _ _ Hi Hld) as (j&Hj&->&Hi'). exists j. by split.
  - destruct Hc as [-> Hlt]. rewrite (slot_mod Capacity n Hcap Hn) in Hrd.
    destruct (weak_inv_read _ _ _ _ _ _ _ _ Hi Hlt Hrd) as (Hi'&Hx&Hval). exists hc.
    split; try done. by eapply weak_prod_ok_frame.
  - destruct Hc as (->&Hlt&Hx). pose proof (weak_inv_release _ _ _ _ _ _ _ Hi Hlt Hst) as Hi'.
    exists hc. split; cbn [ring pushed popped prod cons].
    + by rewrite length_app, Nat.add_1_r.
    + rewrite length_app, Nat.add_1_r, (take_S_r _ _ x) by done. by rewrite <- Hp.
    + unfold store in Hst. injection Hst as <- <-. done.
    + done.
Qed.

Lemma weak_reachable_ok c : reachable c → ∃ tc hc, config_ok c tc hc.
Proof.
  induction 1 as [|c c' Hr (tc&hc&Hok) Hs].
  - exists 0, 0. split; try done. apply weak_inv_create.
  - destruct Hs as [c q s r Hp|c q s r Hc].
    + destruct (weak_pstep_ok _ _ _ _ _ _ Hok Hp) as [tc' ?]. eauto.
    + destruct (weak_cstep_ok _ _ _ _ _ _ Hok Hc) as [hc' ?]. eauto.
Qed.

(** ** A ring among other things *)

(** The memories agree on everything that is not the ring's. *)
Definition outside_same (m m' : memory Th L A T) : Prop :=
  (∀ l, l ≠ HeadLoc → l ≠ TailLoc → hist m' l = hist m l) ∧
  (∀ a, (∀ k, a ≠ at_slot rs k) → cells m' a = cells m a).

(** The memories agree on what is the ring's. *)
Definition inside_same (m m' : memory Th L A T) : Prop :=
  hist m' HeadLoc = hist m HeadLoc ∧ hist m' TailLoc = hist m TailLoc ∧
  ∀ k, cells m' (at_slot rs k) = cells m (at_slot rs k).

Lemma pstep_footprint q s q' s' r :
  pstep q s q' s' r →
  outside_same (mem q) (mem q') ∧ grows (pview q) (pview q') ∧ cview q' = cview q ∧
  head_cache q' = head_cache q.
Proof.
  destruct 1 as [? ? ? ? (k&msg&_&_&_&->)|? ? ? ? ? (k&msg&_&_&_&->) _|? ? ? ? ? (k&msg&_&_&_&->) _|
    ? ? ? ? ? Hw|? ? ? ? ? Hst]; cbn [with_prod mem pview cview head_cache].
  1-3: split; [by split|]; split; [apply load_grows|done].
  - unfold write_plain in Hw. injection Hw as <- <-. split; [|split; [apply tick_grows|done]].
    split; [done|]. intros a Ha. cbn. by rewrite decide_False by apply Ha.
  - unfold store in Hst. injection Hst as <- <-. split; [|split; [apply see_grows|done]].
    split; [|done]. intros l Hl _. cbn. by rewrite decide_False.
Qed.

Lemma cstep_footprint q s q' s' r :
  cstep q s q' s' r →
  outside_same (mem q) (mem q') ∧ grows (cview q) (cview q') ∧ pview q' = pview q ∧
  tail_cache q' = tail_cache q.
Proof.
  destruct 1 as [? ? ? (k&msg&_&_&_&->)|? ? ? ? (k&msg&_&_&_&->) _|? ? ? ? (k&msg&_&_&_&->) _|
    ? ? ? ? ? Hrd|? ? ? ? ? Hst]; cbn [with_cons mem pview cview tail_cache].
  1-3: split; [by split|]; split; [apply load_grows|done].
  - unfold read_plain in Hrd. injection Hrd as <- <- <-. split; [|split; [apply tick_grows|done]].
    split; [done|]. intros a Ha. cbn. by rewrite decide_False by apply Ha.
  - unfold store in Hst. injection Hst as <- <-. split; [|split; [apply see_grows|done]].
    split; [|done]. intros l _ Hl. cbn. by rewrite decide_False.
Qed.

(** Other threads may act elsewhere, and the ring's threads may learn more. *)
Lemma config_frame c q tc hc :
  config_ok c tc hc → inside_same (mem (ring c)) (mem q) → grows (pview (ring c)) (pview q) →
  grows (cview (ring c)) (cview q) → tail_cache q = tail_cache (ring c) →
  head_cache q = head_cache (ring c) →
  config_ok (mkConfig q (prod c) (cons c) (pushed c) (popped c)) tc hc.
Proof.
  intros [Hi Hp Hpr Hc] (Eh&Et&Ec) Gp Gc Etc Ehc.
  pose proof (inv_cview _ _ _ _ _ _ (inv_pview _ _ _ _ _ _ Hi Gp) Gc) as Hi'.
  cbn [with_prod with_cons mem pview cview tail_cache head_cache] in Hi'.
  split; cbn [ring prod cons pushed popped]; [|done| |done].
  - destruct Hi' as [? ? ? ? ? ? ? Hd Hw Hr Hpub Hrc Hrel Hf].
    split; unfold wtime, rtime in *; cbn [mem pview cview tail_cache head_cache with_prod with_cons] in *;
      rewrite ?Eh, ?Et, ?Etc, ?Ehc; try done; intros; rewrite ?Ec; eauto.
  - destruct (prod c); cbn in *; by rewrite ?Ec.
Qed.

Lemma config_safe c tc hc : config_ok c tc hc → accesses_safe c.
Proof.
  intros [Hi Hp Hpr Hc]. pose proof (i_order _ _ _ _ _ Hi) as Ho. split.
  - intros x head E. rewrite E in Hpr. destruct Hpr as [-> Hroom].
    rewrite (slot_mod Capacity n Hcap Hn). split.
    + unfold read_safe. by destruct (i_writes _ _ _ _ _ Hi (length (pushed c) mod Capacity)) as [-> ?].
    + intros th. destruct (i_reads _ _ _ _ _ Hi (length (pushed c) mod Capacity)) as [Hr _].
      destruct (decide (th = Consumer)) as [->|]; [by apply (i_free _ _ _ _ _ Hi)|].
      rewrite Hr by done. lia.
  - intros tail E. rewrite E in Hc. destruct Hc as [-> Hlt].
    rewrite (slot_mod Capacity n Hcap Hn). unfold read_safe.
    destruct (i_writes _ _ _ _ _ Hi (length (popped c) mod Capacity)) as [-> _].
    by apply (i_received _ _ _ _ _ Hi).
Qed.

(** ** No thread is stuck *)

Definition views_ok (q : t) : Prop :=
  memory_ok (mem q) ∧ view_ok (mem q) (pview q) ∧ view_ok (mem q) (cview q).

Lemma pstep_views q s q' s' r :
  pstep q s q' s' r → views_ok q → extends (mem q) (mem q') ∧ views_ok q'.
Proof.
  intros Hs (Hm&Hp&Hc).
  assert (extends (mem q) (mem q') ∧ memory_ok (mem q') ∧ view_ok (mem q') (pview q')) as (He&?&?).
  { destruct Hs as [? ? ? ? Hl|? ? ? ? ? Hl _|? ? ? ? ? Hl _|? ? ? ? ? Hw|? ? ? ? ? Hst];
      cbn [with_prod mem pview].
    1-3: (split_and!; [reflexivity|done|]; exact (loads_ok _ _ _ _ _ _ Hm Hp Hl)).
    - injection Hw as <- <-. by eapply same_hist_ok.
    - by eapply store_ok. }
  split; [done|]. split_and!; [done|done|].
  assert (cview q' = cview q) as -> by by destruct Hs. by eapply view_ok_extends.
Qed.

Lemma cstep_views q s q' s' r :
  cstep q s q' s' r → views_ok q → extends (mem q) (mem q') ∧ views_ok q'.
Proof.
  intros Hs (Hm&Hp&Hc).
  assert (extends (mem q) (mem q') ∧ memory_ok (mem q') ∧ view_ok (mem q') (cview q')) as (He&?&?).
  { destruct Hs as [? ? ? Hl|? ? ? ? Hl _|? ? ? ? Hl _|? ? ? ? ? Hrd|? ? ? ? ? Hst];
      cbn [with_cons mem cview].
    1-3: (split_and!; [reflexivity|done|]; exact (loads_ok _ _ _ _ _ _ Hm Hc Hl)).
    - injection Hrd as <- <- <-. by eapply same_hist_ok.
    - by eapply store_ok. }
  split; [done|]. split_and!; [done| |done].
  assert (pview q' = pview q) as -> by by destruct Hs. by eapply view_ok_extends.
Qed.

(** The consumer can always take its next step, with its loads returning
    the latest values. *)
Lemma cstep_newest q s :
  views_ok q →
  ∃ q' s' r, cstep q s q' s' r ∧
    ∀ tail, s = CRefresh tail → ∃ msg, last (hist (mem q) HeadLoc) = Some msg ∧ head_cache q' = m_value msg.
Proof.
  intros (_&_&Hc). destruct s as [|tail|tail|x tail].
  - destruct (load_latest _ _ TailLoc Relaxed Hc) as (msg&V&_&Hl).
    do 3 eexists. split; [by apply c_start|done].
  - destruct (load_latest _ _ HeadLoc Acquire Hc) as (msg&V&Hm&Hl).
    destruct (tail =? m_value msg)%Z eqn:E.
    + do 3 eexists. split; [by eapply c_refresh_empty|]. intros _ _. by exists msg.
    + do 3 eexists. split; [by eapply c_refresh_ok|]. intros _ _. by exists msg.
  - destruct (read_plain (mem q) Consumer (cview q) (at_slot rs (slot Capacity tail)))
      as [[x m] V] eqn:E.
    do 3 eexists. split; [by eapply c_read|done].
  - destruct (store (mem q) (cview q) TailLoc Release (u64 (tail + 1))) as [m V] eqn:E.
    do 3 eexists. split; [by eapply c_release|done].
Qed.

(** C15: the ring is correct on a weak memory with the memory orders it uses: in
    every execution, where loads may return stale values, the plain access a
    thread is about to make on a slot is never in a data race, and what the
    consumer has received is a prefix of what the producer has sent, at most
    [Capacity] items behind. *)
Theorem spsc_weak_correct c :
  reachable c →
  accesses_safe c ∧ popped c = take (length (popped c)) (pushed c) ∧
  length (popped c) ≤ length (pushed c) ≤ length (popped c) + Capacity.
Proof.
  intros (tc&hc&Hok)%weak_reachable_ok. split; [by eapply config_safe|].
  destruct Hok as [Hi Hp _ _]. pose proof (i_order _ _ _ _ _ Hi). split; [done|lia].
Qed.

End ring.

(** ** A concrete execution: an item is published, the consumer takes it *)

(** A memory with nothing but one ring: [true] is its producer, and its head. *)
Definition alone : site bool bool nat := mkSite bool bool nat true false true false id.

Lemma alone_ok : site_ok alone.
Proof. by split. Qed.

Abbreviation demo_ring := (create 0 alone).

Lemma demo_loads l : loads (mem demo_ring) no_view l Relaxed 0 (see l 0 no_view).
Proof. exists 0, (mkMessage 0%Z no_view). by split_and!. Qed.

Definition demo_ready : config (T := nat) (Th := bool) (L := bool) (A := nat) :=
  mkConfig (with_prod demo_ring (mem demo_ring) (see true 0 no_view) 0) (PWrite 5 0) CIdle [] [].

Lemma weak_demo_reachable : reachable 0 2 alone demo_ready.
Proof.
  eapply reach_next; [apply reach_start|].
  exact (step_prod 2 alone (mkConfig demo_ring PIdle CIdle [] []) _ _ _
    (p_start 2 alone demo_ring 5 0 _ (demo_loads true))).
Qed.

Lemma spsc_weak_correct_witness : write_safe (pview (ring demo_ready)) (cells (mem (ring demo_ready)) 0).
Proof.
  destruct (spsc_weak_correct 0 2 alone 1 eq_refl ltac:(lia) alone_ok demo_ready weak_demo_reachable)
    as [[H _] _].
  exact (H 5 0%Z eq_refl).
Defined.

End SpscWeak.
