(* ===== verification/FanIn.v ===== *)
(** * The fan-in sequencer (src/include/jane/concurrency/fan_in_sequencer.hpp)

    One bounded queue per producer, drained round-robin.  The sequencer is
    modelled against [BoundedQueue], what a queue promises its clients; the
    ring of [Spsc] is an instance.  The abstract state is the list of queue
    contents and the next queue to poll. *)

From S2P Require Import Prelude Spsc.
From stdpp Require Import base tactics numbers list.

Set Default Goal Selector "!".

(** A bounded FIFO: [bq_content q l] says that [q] holds [l], oldest first. *)
Class BoundedQueue (Q T : Type) := {
  bq_capacity : nat;
  bq_push : Q → T → bool * Q;
  bq_pop : Q → option T * Q;
  bq_content : Q → list T → Prop;
}.

Class BoundedQueueLaws (Q T : Type) `{!BoundedQueue Q T} : Prop := {
  bq_push_spec (q : Q) (l : list T) (x : T) :
    bq_content q l →
    ∃ q', bq_push q x = (bool_decide (length l < bq_capacity), q') ∧
      bq_content q' (if decide (length l < bq_capacity) then l ++ [x] else l);
  bq_pop_spec (q : Q) (l : list T) :
    bq_content q l → ∃ q', bq_pop q = (hd_error l, q') ∧ bq_content q' (tail l);
}.

Definition spsc_queue {T : Type} (dflt : T) (Capacity : nat) : BoundedQueue (Spsc.t (T := T)) T := {|
  bq_capacity := Capacity;
  bq_push := Spsc.try_push Capacity;
  bq_pop := Spsc.try_pop dflt Capacity;
  bq_content := Spsc.content Capacity;
|}.

Lemma spsc_queue_laws {T : Type} (dflt : T) (Capacity n : nat) :
  Capacity = 2 ^ n → 1 ≤ n < 63 →
  @BoundedQueueLaws (Spsc.t (T := T)) T (spsc_queue dflt Capacity).
Proof.
  intros Hc Hn. split; cbn.
  - intros q l x Hq. by apply (Spsc.content_push Capacity n Hc Hn).
  - intros q l Hq. by apply (Spsc.content_pop dflt Capacity n Hc Hn).
Qed.

Module FanIn.

Section fanin.
Context {Q T : Type} `{!BoundedQueue Q T} (NumProducers : nat).

Record t := mk { queues : list Q; next_queue : nat }.

(** [None]: the index is not a producer, which the contract excludes. *)
Definition push_from (f : t) (producer_index : nat) (item : T) : option (bool * t) :=
  match queues f !! producer_index with
  | None => None
  | Some q =>
      let '(b, q) := bq_push q item in
      Some (b, mk (<[producer_index := q]> (queues f)) (next_queue f))
  end.

(** The sweep of [try_drain_one]: [attempts] polls are left. *)
Fixpoint drain_loop (attempts : nat) (f : t) : option (T * nat) * t :=
  match attempts with
  | O => (None, f)
  | S attempts =>
      let idx := next_queue f in
      let next := (next_queue f + 1) mod NumProducers in
      match queues f !! idx with
      | None => (None, f)
      | Some q =>
          match bq_pop q with
          | (Some x, q) => (Some (x, idx), mk (<[idx := q]> (queues f)) next)
          | (None, q) => drain_loop attempts (mk (<[idx := q]> (queues f)) next)
          end
      end
  end.

Definition try_drain_one (f : t) : option (T * nat) * t := drain_loop NumProducers f.

(** ** The abstract sequencer *)

Record abs := mkAbs { contents : list (list T); a_next : nat }.

Definition a_push (a : abs) (i : nat) (x : T) : abs :=
  match contents a !! i with
  | Some l => if decide (length l < bq_capacity)
              then mkAbs (<[i := l ++ [x]]> (contents a)) (a_next a) else a
  | None => a
  end.

(** Deliver the head of the first non-empty queue, going round from [a_next]. *)
Fixpoint a_drain (attempts : nat) (a : abs) : option (T * nat) * abs :=
  match attempts with
  | O => (None, a)
  | S attempts =>
      let next := (a_next a + 1) mod NumProducers in
      match contents a !! a_next a with
      | Some (x :: l) => (Some (x, a_next a), mkAbs (<[a_next a := l]> (contents a)) next)
      | _ => a_drain attempts (mkAbs (contents a) next)
      end
  end.

Record holds (f : t) (a : abs) : Prop := {
  ho_queues : Forall2 bq_content (queues f) (contents a);
  ho_next : next_queue f = a_next a;
  ho_count : length (contents a) = NumProducers;
  ho_lt : a_next a < NumProducers;
}.

Context `{!BoundedQueueLaws Q T}.

Lemma next_lt k : 0 < NumProducers → (k + 1) mod NumProducers < NumProducers.
Proof. intros. apply Nat.mod_upper_bound. lia. Qed.

Lemma push_from_holds f a i x :
  holds f a → i < NumProducers →
  ∃ b f', push_from f i x = Some (b, f') ∧ holds f' (a_push a i x).
Proof.
  intros [Hq Hn Hc Hlt] Hi. unfold push_from, a_push.
  destruct (lookup_lt_is_Some_2 (contents a) i) as [l Hl]; [lia|]. rewrite Hl.
  destruct (Forall2_lookup_r _ _ _ _ _ Hq Hl) as (q&Eq&Hql). rewrite Eq.
  destruct (bq_push_spec q l x Hql) as (q'&->&Hq'). do 2 eexists. split; [done|].
  destruct (decide (length l < bq_capacity)).
  - split; cbn; [by apply Forall2_insert|done|by rewrite length_insert|done].
  - split; cbn; try done. rewrite <- (list_insert_id (contents a) i l) by done.
    by apply Forall2_insert.
Qed.

Lemma drain_holds n f a :
  holds f a →
  ∃ f', drain_loop n f = ((a_drain n a).1, f') ∧ holds f' (a_drain n a).2.
Proof.
  revert f a. induction n as [|n IH]; intros f a Hh; cbn [drain_loop a_drain]; [eauto|].
  pose proof Hh as [Hq Hn Hc Hlt]. rewrite Hn.
  destruct (lookup_lt_is_Some_2 (contents a) (a_next a)) as [l Hl]; [lia|]. rewrite Hl.
  destruct (Forall2_lookup_r _ _ _ _ _ Hq Hl) as (q&Eq&Hql). rewrite Eq.
  destruct (bq_pop_spec q l Hql) as (q'&->&Hq'). destruct l as [|x l]; cbn [hd_error tail] in *.
  - apply IH. split; cbn; [|done|done|apply next_lt; lia].
    rewrite <- (list_insert_id (contents a) (a_next a) []) by done. by apply Forall2_insert.
  - eexists. split; [done|]. split; cbn; [by apply Forall2_insert|done|by rewrite length_insert|].
    apply next_lt. lia.
Qed.

(** ** Round-robin order *)

(** Polls before queue [i] is reached. *)
Definition dist (a : abs) (i : nat) : nat := (i + NumProducers - a_next a) mod NumProducers.

Lemma dist_zero a i : a_next a < NumProducers → i < NumProducers → dist a i = 0 ↔ i = a_next a.
Proof.
  intros Ha Hi. unfold dist. destruct (decide (a_next a ≤ i)).
  - replace (i + NumProducers - a_next a) with (i - a_next a + 1 * NumProducers) by lia.
    rewrite Nat.Div0.mod_add, Nat.mod_small by lia. lia.
  - rewrite Nat.mod_small by lia. lia.
Qed.

Lemma dist_step a i cs :
  a_next a < NumProducers → i < NumProducers → i ≠ a_next a →
  dist a i = S (dist (mkAbs cs ((a_next a + 1) mod NumProducers)) i).
Proof.
  intros Ha Hi Hne. unfold dist. cbn [a_next].
  destruct (decide (a_next a + 1 < NumProducers)) as [Hlt|Hge].
  - rewrite (Nat.mod_small (a_next a + 1)) by lia. destruct (decide (a_next a < i)).
    + replace (i + NumProducers - a_next a) with (i - a_next a + 1 * NumProducers) by lia.
      replace (i + NumProducers - (a_next a + 1)) with (i - a_next a - 1 + 1 * NumProducers) by lia.
      rewrite !Nat.Div0.mod_add, !Nat.mod_small by lia. lia.
    + rewrite !Nat.mod_small by lia. lia.
  - assert (a_next a + 1 = NumProducers) as E by lia. rewrite E, Nat.Div0.mod_same, Nat.sub_0_r.
    replace (i + NumProducers) with (i + 1 * NumProducers) at 2 by lia.
    rewrite Nat.Div0.mod_add, !Nat.mod_small by lia. lia.
Qed.

(** A sweep that can reach a non-empty queue delivers, and not from a later one. *)
Lemma a_drain_progress n a i l :
  length (contents a) = NumProducers → a_next a < NumProducers → i < NumProducers →
  contents a !! i = Some l → l ≠ [] → dist a i < n →
  ∃ x j l', a_drain n a = (Some (x, j), (a_drain n a).2) ∧ contents a !! j = Some (x :: l') ∧
    contents (a_drain n a).2 = <[j := l']> (contents a) ∧
    (j = i ∨ dist (a_drain n a).2 i < dist a i).
Proof.
  revert a. induction n as [|n IH]; intros a Hc Ha Hi Hl Hne Hd; [lia|]. cbn [a_drain].
  destruct (lookup_lt_is_Some_2 (contents a) (a_next a)) as [l0 Hl0]; [lia|]. rewrite Hl0.
  destruct l0 as [|x l0].
  - assert (i ≠ a_next a) as Hia by congruence.
    pose proof (dist_step a i (contents a) Ha Hi Hia) as Hs.
    destruct (IH (mkAbs (contents a) ((a_next a + 1) mod NumProducers))) as
      (x&j&l'&H1&H2&H3&H4); cbn [contents a_next]; try done; [apply next_lt; lia|lia|].
    exists x, j, l'. split_and!; [exact H1|done|done|]. destruct H4; [by left|right; lia].
  - exists x, (a_next a), l0. split_and!; [done|done|done|].
    destruct (decide (i = a_next a)); [by left|right]. cbn [snd].
    pose proof (dist_step a i (<[a_next a := l0]> (contents a)) Ha Hi ltac:(done)). lia.
Qed.

(** ** Histories *)

(** Every producer's accepted pushes and the deliveries from its queue.  The
    sequencer advances one poll at a time, so pushes may fall anywhere
    inside a sweep. *)
Inductive fan_reach : t → (nat → list T) → (nat → list T) → Prop :=
  | fan_start qs :
      length qs = NumProducers → Forall (λ q, bq_content q []) qs →
      fan_reach (mk qs 0) (λ _, []) (λ _, [])
  | fan_push f sent got i x b f' :
      fan_reach f sent got → i < NumProducers → push_from f i x = Some (b, f') →
      fan_reach f' (λ j, if decide (j = i ∧ b = true) then sent j ++ [x] else sent j) got
  | fan_poll f sent got r f' :
      fan_reach f sent got → drain_loop 1 f = (r, f') →
      fan_reach f' sent (λ j, match r with
                              | Some (x, i) => if decide (j = i) then got j ++ [x] else got j
                              | None => got j end).

Lemma push_from_content f a i x b f' l :
  holds f a → contents a !! i = Some l → push_from f i x = Some (b, f') →
  b = bool_decide (length l < bq_capacity).
Proof.
  intros [Hq _ _ _] Hl Hp. unfold push_from in Hp.
  destruct (Forall2_lookup_r _ _ _ _ _ Hq Hl) as (q&Eq&Hql). rewrite Eq in Hp.
  destruct (bq_push_spec q l x Hql) as (q'&E&_). rewrite E in Hp. by injection Hp as <- _.
Qed.

Lemma fan_reach_holds f sent got :
  0 < NumProducers → fan_reach f sent got →
  ∃ a, holds f a ∧ ∀ i l, contents a !! i = Some l → sent i = got i ++ l.
Proof.
  intros Hpos. induction 1 as [qs Hlen Hqs|f sent got i x b f' Hr (a&Hh&Hs) Hi Hp
    |f sent got r f' Hr (a&Hh&Hs) Hd].
  - exists (mkAbs (replicate NumProducers []) 0). split.
    + split; cbn; [|done|apply length_replicate|lia]. rewrite <- Hlen. clear -Hqs.
      induction Hqs; cbn; by constructor.
    + cbn. intros i l [-> _]%lookup_replicate. done.
  - destruct (push_from_holds _ _ i x Hh Hi) as (b'&f1&Hp'&Hh').
    rewrite Hp in Hp'. injection Hp' as <- <-. exists (a_push a i x). split; [done|].
    pose proof Hh as [_ _ Hc _].
    destruct (lookup_lt_is_Some_2 (contents a) i) as [l Hl]; [lia|].
    pose proof (push_from_content _ _ _ _ _ _ _ Hh Hl Hp) as ->.
    unfold a_push. rewrite Hl. intros j lj. destruct (decide (length l < bq_capacity)) as [Hlt|Hlt].
    + cbn [contents]. rewrite bool_decide_eq_true_2 by done. destruct (decide (j = i)) as [-> |Hne].
      * rewrite list_lookup_insert_eq by lia. intros [= <-].
        rewrite decide_True by done. by rewrite (Hs _ _ Hl), app_assoc.
      * rewrite list_lookup_insert_ne by done. rewrite decide_False by naive_solver. apply Hs.
    + rewrite bool_decide_eq_false_2 by done. rewrite decide_False by naive_solver. apply Hs.
  - destruct (drain_holds 1 f a Hh) as (f1&Hd'&Hh'). rewrite Hd in Hd'.
    injection Hd' as -> <-. exists (a_drain 1 a).2. split; [done|]. cbn [a_drain].
    pose proof Hh as [_ _ Hc Hlt].
    destruct (lookup_lt_is_Some_2 (contents a) (a_next a)) as [l Hl]; [lia|]. rewrite Hl.
    destruct l as [|x l]; cbn [fst snd contents]; [exact Hs|]. intros j lj.
    destruct (decide (j = a_next a)) as [-> |Hne].
    + rewrite list_lookup_insert_eq by lia. intros [= <-].
      by rewrite (Hs _ _ Hl), <- app_assoc.
    + rewrite list_lookup_insert_ne by done. apply Hs.
Qed.

(** Rounds of the sequencer: some pushes, then one drain. *)
Fixpoint a_rounds (a : abs) (rs : list (list (nat * T))) : list (option (T * nat)) * abs :=
  match rs with
  | [] => ([], a)
  | ps :: rs =>
      let '(r, a) := a_drain NumProducers (foldl (λ a '(i, x), a_push a i x) a ps) in
      let '(out, a) := a_rounds a rs in (r :: out, a)
  end.

Fixpoint rounds (f : t) (rs : list (list (nat * T))) : list (option (T * nat)) * t :=
  match rs with
  | [] => ([], f)
  | ps :: rs =>
      let f := foldl (λ f '(i, x), match push_from f i x with Some (_, f) => f | None => f end) f ps in
      let '(r, f) := try_drain_one f in
      let '(out, f) := rounds f rs in (r :: out, f)
  end.

Lemma pushes_holds f a ps :
  holds f a → Forall (λ '(i, _), i < NumProducers) ps →
  holds (foldl (λ f '(i, x), match push_from f i x with Some (_, f) => f | None => f end) f ps)
    (foldl (λ a '(i, x), a_push a i x) a ps).
Proof.
  intros Hh Hps. revert f a Hh. induction Hps as [|[i x] ps Hi Hps IH]; intros f a Hh; [done|].
  cbn. destruct (push_from_holds f a i x Hh Hi) as (b&f'&->&Hh'). by apply IH.
Qed.

Lemma rounds_refine f a rs :
  holds f a → Forall (Forall (λ '(i, _), i < NumProducers)) rs →
  (rounds f rs).1 = (a_rounds a rs).1.
Proof.
  intros Hh Hrs. revert f a Hh. induction Hrs as [|ps rs Hps Hrs IH]; intros f a Hh; [done|].
  cbn [rounds a_rounds]. pose proof (pushes_holds f a ps Hh Hps) as Hh'.
  set (f1 := foldl _ f ps) in *. set (a1 := foldl _ a ps) in *.
  destruct (drain_holds NumProducers f1 a1 Hh') as (f2&Hd&Hh2).
  unfold try_drain_one. rewrite Hd. destruct (a_drain NumProducers a1) as [r a2].
  cbn [fst snd] in *. specialize (IH f2 a2 Hh2).
  destruct (rounds f2 rs), (a_rounds a2 rs). cbn in *. by f_equal.
Qed.

Lemma pushes_abs (a : abs) ps i l :
  contents a !! i = Some l → l ≠ [] →
  let a' := foldl (λ a '(j, x), a_push a j x) a ps in
  (∃ l', contents a' !! i = Some l' ∧ l' ≠ []) ∧ a_next a' = a_next a ∧
  length (contents a') = length (contents a).
Proof.
  revert a l. induction ps as [|[j x] ps IH]; intros a l Hl Hne; cbn; [eauto|].
  unfold a_push at 2 4 6. destruct (contents a !! j) as [lj|] eqn:Hj; [|by apply (IH a l)].
  destruct (decide (length lj < bq_capacity)); [|by apply (IH a l)].
  set (a1 := mkAbs _ _). destruct (decide (i = j)) as [->|Hij].
  - destruct (IH a1 (lj ++ [x])) as (H1&H2&H3).
    + cbn. apply list_lookup_insert_eq. by eapply lookup_lt_Some.
    + by destruct lj.
    + split; [done|]. split; [done|]. rewrite H3. cbn. apply length_insert.
  - destruct (IH a1 l) as (H1&H2&H3).
    + cbn. by rewrite list_lookup_insert_ne.
    + done.
    + split; [done|]. split; [done|]. rewrite H3. cbn. apply length_insert.
Qed.

Lemma a_drain_next n a : a_next a < NumProducers → a_next (a_drain n a).2 < NumProducers.
Proof.
  revert a. induction n as [|n IH]; intros a Ha; cbn [a_drain]; [done|].
  destruct (contents a !! a_next a) as [[|y ly]|]; cbn; try (apply next_lt; lia);
    apply IH; cbn; apply next_lt; lia.
Qed.

Lemma a_rounds_fair a rs i l :
  length (contents a) = NumProducers → a_next a < NumProducers → i < NumProducers →
  contents a !! i = Some l → l ≠ [] → dist a i < length rs →
  ∃ k x, k ≤ dist a i ∧ (a_rounds a rs).1 !! k = Some (Some (x, i)).
Proof.
  revert a l. induction rs as [|ps rs IH]; intros a l Hc Ha Hi Hl Hne Hd; [cbn in Hd; lia|].
  cbn [a_rounds]. destruct (pushes_abs a ps i l Hl Hne) as ((l1&Hl1&Hne1)&En&Ec).
  set (a1 := foldl _ a ps) in *.
  assert (dist a1 i = dist a i) as Ed by (unfold dist; by rewrite En).
  assert (dist a i < NumProducers) as Hdn by (apply Nat.mod_upper_bound; lia).
  destruct (a_drain_progress NumProducers a1 i l1) as (x&j&l'&H1&H2&H3&H4);
    [lia|lia|done|done|done|lia|].
  destruct (a_drain NumProducers a1) as [r a2] eqn:E. cbn [snd] in *. injection H1 as ->.
  destruct (a_rounds a2 rs) as [out a3] eqn:E3. cbn [fst].
  destruct (decide (j = i)) as [-> |Hji].
  { exists 0, x. split; [lia|done]. }
  destruct H4 as [->|H4]; [done|].
  destruct (IH a2 l1) as (k&y&Hk&Hy).
  - rewrite H3, length_insert. lia.
  - pose proof (a_drain_next NumProducers a1 ltac:(lia)) as Hn. by rewrite E in Hn.
  - done.
  - rewrite H3, list_lookup_insert_ne by done. done.
  - done.
  - cbn in Hd. lia.
  - exists (S k), y. rewrite E3 in Hy. split; [lia|done].
Qed.

(** ** Properties *)

(** Whatever the interleaving of pushes and polls, what has been delivered
    from a producer followed by what its queue still holds is exactly what
    that producer had accepted: per-producer order is kept and nothing is
    lost, duplicated or attributed to another producer. *)
Theorem fan_in_per_producer_fifo f sent got i :
  0 < NumProducers → fan_reach f sent got → i < NumProducers →
  ∃ q l, queues f !! i = Some q ∧ bq_content q l ∧ sent i = got i ++ l.
Proof.
  intros Hpos Hr Hi. destruct (fan_reach_holds f sent got Hpos Hr) as (a&[Hq _ Hc _]&Hs).
  destruct (lookup_lt_is_Some_2 (contents a) i) as [l Hl]; [lia|].
  destruct (Forall2_lookup_r _ _ _ _ _ Hq Hl) as (q&Eq&Hql). exists q, l. by auto.
Qed.

(** No producer starves: if a producer's queue is not empty, an item from
    it is delivered within [NumProducers] drains, however many items the
    other producers push in between. *)
Theorem fan_in_no_starvation f a rs i l :
  holds f a → Forall (Forall (λ '(j, _), j < NumProducers)) rs → length rs = NumProducers →
  contents a !! i = Some l → l ≠ [] →
  ∃ k x, (rounds f rs).1 !! k = Some (Some (x, i)).
Proof.
  intros Hh Hrs Hlen Hl Hne. rewrite (rounds_refine f a rs Hh Hrs).
  pose proof Hh as [_ _ Hc Hlt]. assert (i < NumProducers) as Hi.
  { apply lookup_lt_Some in Hl. lia. }
  assert (dist a i < NumProducers) by (apply Nat.mod_upper_bound; lia).
  destruct (a_rounds_fair a rs i l) as (k&x&_&Hk); try done; [lia|]. eauto.
Qed.

Lemma a_drain_empty n a :
  Forall (λ l, l = []) (contents a) →
  (a_drain n a).1 = None ∧ contents (a_drain n a).2 = contents a.
Proof.
  intros He. revert a He. induction n as [|n IH]; intros a He; cbn [a_drain]; [done|].
  destruct (contents a !! a_next a) as [l|] eqn:Hl; [|by apply (IH (mkAbs _ _))].
  pose proof (Forall_lookup_1 _ _ _ _ He Hl) as ->. by apply (IH (mkAbs _ _)).
Qed.

(** A drain fails exactly when every queue is empty, and otherwise delivers
    the oldest item of a queue and leaves the others alone. *)
Theorem fan_in_drain f a :
  holds f a →
  ∃ f', holds f' (a_drain NumProducers a).2 ∧
    match try_drain_one f with
    | (None, f'') => f'' = f' ∧ Forall (λ l, l = []) (contents a)
    | (Some (x, j), f'') => f'' = f' ∧ ∃ l, contents a !! j = Some (x :: l) ∧
        contents (a_drain NumProducers a).2 = <[j := l]> (contents a)
    end.
Proof.
  intros Hh. destruct (drain_holds NumProducers f a Hh) as (f'&Hd&Hh'). exists f'.
  split; [done|]. unfold try_drain_one. rewrite Hd. pose proof Hh as [_ _ Hc Hlt].
  destruct (decide (Forall (λ l, l = []) (contents a))) as [He|He].
  - by rewrite (proj1 (a_drain_empty NumProducers a He)).
  - apply not_Forall_Exists in He; [|intros l; destruct l; [by left|by right]].
    apply Exists_exists in He as (l&[i Hl]%list_elem_of_lookup&Hne).
    assert (i < NumProducers) as Hi by (apply lookup_lt_Some in Hl; lia).
    assert (dist a i < NumProducers) by (apply Nat.mod_upper_bound; lia).
    destruct (a_drain_progress NumProducers a i l) as (x&j&l'&H1&H2&H3&_); try done.
    rewrite H1. cbn [fst]. eauto.
Qed.

End fanin.

Arguments t : clear implicits.
Arguments abs : clear implicits.

(** ** Two producers over rings of two slots *)

Definition ring : Type := Spsc.t (T := nat).
#[export] Instance demo_queue : BoundedQueue ring nat := spsc_queue 0 2.
#[export] Instance demo_queue_laws : BoundedQueueLaws ring nat :=
  spsc_queue_laws 0 2 1 eq_refl ltac:(lia).

Definition demo_fan : t ring := mk [Spsc.create 0 2; Spsc.create 0 2] 0.

Lemma ring_empty : bq_content (Spsc.create 0 2) ([] : list nat).
Proof. exact (Spsc.content_create 0 2 1 eq_refl ltac:(lia)). Qed.

Lemma demo_start : fan_reach 2 demo_fan (λ _, []) (λ _, []).
Proof. apply fan_start; [done|]. repeat constructor; apply ring_empty. Qed.

Lemma fan_in_per_producer_fifo_witness :
  ∃ q l, queues demo_fan !! 1 = Some q ∧ bq_content q l ∧ ([] : list nat) = [] ++ l.
Proof.
  apply (fan_in_per_producer_fifo 2 demo_fan (λ _, []) (λ _, []) 1);
    [lia|exact demo_start|lia].
Defined.

Lemma demo_fan_holds :
  ∃ f, push_from demo_fan 1 7 = Some (true, f) ∧ holds 2 f (mkAbs [[]; [7]] 0).
Proof.
  destruct (push_from_holds 2 demo_fan (mkAbs [[]; []] 0) 1 7) as (b&f&Hp&Hh); [|lia|].
  - split; cbn; [repeat constructor; apply ring_empty|done|done|lia].
  - exists f. split; [|exact Hh]. rewrite Hp. vm_compute in Hp. by injection Hp as <- _.
Qed.

Lemma fan_in_no_starvation_witness :
  ∃ f k x, push_from demo_fan 1 7 = Some (true, f) ∧
    (rounds 2 f [[(0, 8)]; [(0, 9)]]).1 !! k = Some (Some (x, 1)).
Proof.
  destruct demo_fan_holds as (f&Hp&Hh). exists f.
  destruct (fan_in_no_starvation 2 f (mkAbs [[]; [7]] 0) [[(0, 8)]; [(0, 9)]] 1 [7]) as (k&x&H);
    [exact Hh|repeat constructor|done|done|done|].
  exists k, x. split; [exact Hp|exact H].
Defined.

Lemma fan_in_drain_witness :
  ∃ f f', push_from demo_fan 1 7 = Some (true, f) ∧ try_drain_one 2 f = (Some (7, 1), f').
Proof.
  destruct demo_fan_holds as (f&Hp&Hh). exists f.
  destruct (fan_in_drain 2 f (mkAbs [[]; [7]] 0) Hh) as (f'&_&H). exists f'. split; [exact Hp|].
  vm_compute in Hp. injection Hp as <-. revert H. vm_compute. by intros [-> _].
Defined.

End FanIn.
