(* ===== verification/FanInWeak.v ===== *)
(** * The fan-in sequencer on a weak memory
    (src/include/jane/concurrency/fan_in_sequencer.hpp)

    All rings live in one memory, every client thread pushes into its own
    ring, and the sequencer thread goes round them, with the memory orders
    of the rings and one view per thread: what the sequencer learns from
    one ring it may use, and hand on, at the others.  The correctness of
    each ring among the others comes from SpscWeak.v. *)

From S2P Require Import Prelude Spsc WeakMem SpscWeak.
From stdpp Require Import base tactics numbers list.

Set Default Goal Selector "!".

Module FanInWeak.

Inductive thread := Client (i : nat) | Sequencer.
Inductive loc := Head (i : nat) | Tail (i : nat).

#[export] Instance client_eq_dec : EqDecision thread.
Proof. solve_decision. Defined.
#[export] Instance index_eq_dec : EqDecision loc.
Proof. solve_decision. Defined.

(** [queues_[i]]: slot [s] of ring [i] is the plain location [(i, s)]. *)
Definition queue_site (i : nat) : SpscWeak.site thread loc (nat * nat) :=
  SpscWeak.mkSite _ _ _ (Client i) Sequencer (Head i) (Tail i) (λ s, (i, s)).

Lemma queue_site_ok i : SpscWeak.site_ok (queue_site i).
Proof. split; cbn; [done|done|]. by intros ? ? [= ->]. Qed.

Section fanin.
Context {T : Type} (dflt : T) (NumProducers Capacity : nat).

Abbreviation ring_state := (SpscWeak.t (T := T) (Th := thread) (L := loc) (A := nat * nat)).
Abbreviation ring_config := (SpscWeak.config (T := T) (Th := thread) (L := loc) (A := nat * nat)).

Record t := mk {
  mem : memory thread loc (nat * nat) T;
  pview : nat → view thread loc;
  tail_cache : nat → Z;
  cview : view thread loc;
  head_cache : nat → Z;
  next_queue : nat;
}.

Definition create : t :=
  mk (mkMemory (λ _, [mkMessage 0%Z no_view]) (λ '(i, _), mkCell dflt (Client i, 0) (λ _, 0)))
    (λ _, no_view) (λ _, 0%Z) no_view (λ _, 0%Z) 0.

(** [queues_[i]], and putting it back. *)
Definition queue (q : t) (i : nat) : ring_state :=
  SpscWeak.mk (mem q) (pview q i) (tail_cache q i) (cview q) (head_cache q i).

Definition upd {X} (f : nat → X) (i : nat) (x : X) : nat → X := λ j, if decide (j = i) then x else f j.

Definition set_queue (q : t) (i : nat) (r : ring_state) : t :=
  mk (SpscWeak.mem r) (upd (pview q) i (SpscWeak.pview r)) (upd (tail_cache q) i (SpscWeak.tail_cache r))
    (SpscWeak.cview r) (upd (head_cache q) i (SpscWeak.head_cache r)) (next_queue q).

Definition set_next (q : t) (k : nat) : t :=
  mk (mem q) (pview q) (tail_cache q) (cview q) (head_cache q) k.

(** The sequencer between its accesses: outside [try_drain_one], at the head
    of the loop, or inside the [try_pop] of queue [idx]. *)
Inductive sstate :=
  | SIdle
  | SLoop (attempt : nat)
  | SPop (attempt idx : nat) (s : SpscWeak.cstate (T := T)).

(** A call that returns: [Some None] for [false]. *)
Inductive sstep : t → sstate → t → sstate → option (option (T * nat)) → Prop :=
  | s_call q : sstep q SIdle q (SLoop 0) None
  | s_poll q attempt :
      attempt < NumProducers →
      sstep q (SLoop attempt) (set_next q ((next_queue q + 1) mod NumProducers))
        (SPop attempt (next_queue q) SpscWeak.CIdle) None
  | s_none q attempt : ¬ attempt < NumProducers → sstep q (SLoop attempt) q SIdle (Some None)
  | s_inside q attempt idx s r s' :
      SpscWeak.cstep Capacity (queue_site idx) (queue q idx) s r s' None →
      sstep q (SPop attempt idx s) (set_queue q idx r) (SPop attempt idx s') None
  | s_empty q attempt idx s r s' :
      SpscWeak.cstep Capacity (queue_site idx) (queue q idx) s r s' (Some None) →
      sstep q (SPop attempt idx s) (set_queue q idx r) (SLoop (S attempt)) None
  | s_got q attempt idx s r s' x :
      SpscWeak.cstep Capacity (queue_site idx) (queue q idx) s r s' (Some (Some x)) →
      sstep q (SPop attempt idx s) (set_queue q idx r) SIdle (Some (Some (x, idx))).

Definition snext (q : t) (s : sstate) (k : nat) : option (t * sstate * option (option (T * nat))) :=
  match s with
  | SIdle => Some (q, SLoop 0, None)
  | SLoop attempt =>
      if decide (attempt < NumProducers)
      then Some (set_next q ((next_queue q + 1) mod NumProducers),
             SPop attempt (next_queue q) SpscWeak.CIdle, None)
      else Some (q, SIdle, Some None)
  | SPop attempt idx s =>
      '(r, s, o) ← SpscWeak.cnext Capacity (queue_site idx) (queue q idx) s k;
      match o with
      | None => Some (set_queue q idx r, SPop attempt idx s, None)
      | Some None => Some (set_queue q idx r, SLoop (S attempt), None)
      | Some (Some x) => Some (set_queue q idx r, SIdle, Some (Some (x, idx)))
      end
  end.

Lemma snext_step q s k q' s' o : snext q s k = Some (q', s', o) → sstep q s q' s' o.
Proof.
  destruct s as [|attempt|attempt idx s]; cbn [snext].
  - intros [= <- <- <-]. constructor.
  - case_decide; intros [= <- <- <-]; by constructor.
  - destruct (SpscWeak.cnext _ _ _ _ _) as [[[r s1] [[x|]|]]|] eqn:E; intros [= <- <- <-];
      apply SpscWeak.cnext_step in E; by econstructor.
Qed.

Record config := mkConfig {
  state : t;
  clients : nat → SpscWeak.pstate (T := T);
  sequencer : sstate;
  pushed : nat → list T;
  drained : list (T * nat);
}.

Definition start : config := mkConfig create (λ _, SpscWeak.PIdle) SIdle (λ _, []) [].

(** Client [i] has moved; a [push_from] that succeeds has pushed its item. *)
Definition after_push (c : config) (i : nat) (r : ring_state) (s : SpscWeak.pstate (T := T))
    (o : option (bool * T)) : config :=
  mkConfig (set_queue (state c) i r) (upd (clients c) i s) (sequencer c)
    (match o with Some (true, x) => upd (pushed c) i (pushed c i ++ [x]) | _ => pushed c end)
    (drained c).

(** The sequencer has moved. *)
Definition after_drain (c : config) (q : t) (s : sstate) (o : option (option (T * nat))) : config :=
  mkConfig q (clients c) s (pushed c)
    (match o with Some (Some d) => drained c ++ [d] | _ => drained c end).

Inductive step : config → config → Prop :=
  | step_push c i r s o :
      i < NumProducers →
      SpscWeak.pstep Capacity (queue_site i) (queue (state c) i) (clients c i) r s o →
      step c (after_push c i r s o)
  | step_drain c q s o :
      sstep (state c) (sequencer c) q s o →
      step c (after_drain c q s o).

Inductive reachable : config → Prop :=
  | reach_start : reachable start
  | reach_next c c' : reachable c → step c c' → reachable c'.

(** What was drained from queue [i]. *)
Definition from_queue (i : nat) (l : list (T * nat)) : list T :=
  (List.filter (λ '(_, j), j =? i) l).*1.

(** Queue [i] with its two threads. *)
Definition cons_at (c : config) (i : nat) : SpscWeak.cstate (T := T) :=
  match sequencer c with
  | SPop _ idx s => if decide (idx = i) then s else SpscWeak.CIdle
  | _ => SpscWeak.CIdle
  end.

Definition ring_at (c : config) (i : nat) : ring_config :=
  SpscWeak.mkConfig (queue (state c) i) (clients c i) (cons_at c i) (pushed c i)
    (from_queue i (drained c)).

(** ** The invariant *)

Context (n : nat) (Hcap : Capacity = 2 ^ n) (Hn : 1 ≤ n < 63).

Definition ring_ok (rc : ring_config) (i : nat) : Prop :=
  ∃ tc hc, SpscWeak.config_ok Capacity (queue_site i) rc tc hc.

Record ok (c : config) : Prop := {
  ok_rings i : ring_ok (ring_at c i) i;
  ok_next : next_queue (state c) < NumProducers;
  ok_polled : match sequencer c with SPop _ idx _ => idx < NumProducers | _ => True end;
  ok_sources : Forall (λ d, d.2 < NumProducers) (drained c);
}.

Lemma upd_same {X} (f : nat → X) i x : upd f i x i = x.
Proof. unfold upd. by rewrite decide_True. Qed.

Lemma upd_other {X} (f : nat → X) i x j : j ≠ i → upd f i x j = f j.
Proof. intros. unfold upd. by rewrite decide_False. Qed.

Lemma queue_set q i r : queue (set_queue q i r) i = r.
Proof. unfold queue, set_queue. cbn. rewrite !upd_same. by destruct r. Qed.

(** The rings are disjoint. *)
Lemma rings_disjoint i j (m m' : memory thread loc (nat * nat) T) :
  i ≠ j → SpscWeak.outside_same (queue_site i) m m' → SpscWeak.inside_same (queue_site j) m m'.
Proof.
  intros Hij [Hl Ha]. split_and!; [apply Hl; cbn; congruence..|].
  intros k. apply Ha. intros k' E. cbn in E. congruence.
Qed.

(** A step on one ring leaves another in order. *)
Lemma other_ring c i j r :
  ring_ok (ring_at c j) j → i ≠ j →
  SpscWeak.outside_same (queue_site i) (mem (state c)) (SpscWeak.mem r) →
  grows (cview (state c)) (SpscWeak.cview r) →
  ring_ok (SpscWeak.mkConfig (queue (set_queue (state c) i r) j) (clients c j) (cons_at c j)
    (pushed c j) (from_queue j (drained c))) j.
Proof.
  intros (tc&hc&Hok) Hij Ho Hg. exists tc, hc.
  apply (SpscWeak.config_frame _ _ n Hcap Hn (ring_at c j) _ _ _ Hok);
    cbn [ring_at SpscWeak.ring queue set_queue SpscWeak.mem SpscWeak.pview SpscWeak.cview
         SpscWeak.tail_cache SpscWeak.head_cache mem pview cview tail_cache head_cache];
    rewrite ?upd_other by done; try done.
  by eapply rings_disjoint.
Qed.

Lemma from_queue_snoc i l x j :
  from_queue i (l ++ [(x, j)]) = from_queue i l ++ (if decide (j = i) then [x] else []).
Proof.
  unfold from_queue. rewrite List.filter_app, fmap_app. f_equal. cbn.
  destruct (Nat.eqb_spec j i); [by rewrite decide_True|by rewrite decide_False].
Qed.

Lemma fan_in_create_ok : 0 < NumProducers → ok start.
Proof.
  intros HN. split; [|done|done|done]. intros i. exists 0, 0.
  split; try done. split; cbn; try done; try lia; try (intros; lia).
  - split; [done|]. intros [|k] msg; [by intros [= <-]|done].
  - split; [done|]. intros [|k] msg; [by intros [= <-]|done].
Qed.

Lemma step_push_ok c i r s o :
  ok c → i < NumProducers →
  SpscWeak.pstep Capacity (queue_site i) (queue (state c) i) (clients c i) r s o →
  ok (after_push c i r s o).
Proof.
  intros [Hr Hnx Hpl Hsr] Hi Hs. split; [|done|done|done]. intros j.
  destruct (decide (j = i)) as [->|Hj].
  - destruct (Hr i) as (tc&hc&Hok).
    destruct (SpscWeak.weak_pstep_ok _ _ n Hcap Hn (queue_site_ok i) _ _ _ _ _ _ Hok Hs) as [tc' Hok'].
    exists tc', hc. unfold ring_at, after_push. cbn [state clients pushed drained]. rewrite queue_set, upd_same.
    destruct o as [[[|] x]|]; [rewrite upd_same|..]; exact Hok'.
  - pose proof (SpscWeak.pstep_footprint _ _ _ _ _ _ _ Hs) as (Ho&_&Ec&_).
    pose proof (other_ring c i j r (Hr j) ltac:(congruence) Ho ltac:(by rewrite Ec)) as Hok.
    unfold ring_at, after_push. cbn [state clients pushed drained]. rewrite upd_other by done.
    destruct o as [[[|] x]|]; [rewrite upd_other by done|..]; exact Hok.
Qed.

(** A step of the sequencer inside the [try_pop] of a queue. *)
Lemma pop_step c attempt idx s r s' o :
  ok c → sequencer c = SPop attempt idx s →
  SpscWeak.cstep Capacity (queue_site idx) (queue (state c) idx) s r s' o →
  ∀ j, ring_ok (SpscWeak.mkConfig (queue (set_queue (state c) idx r) j) (clients c j)
    (if decide (idx = j) then s' else SpscWeak.CIdle) (pushed c j)
    (from_queue j (match o with Some (Some x) => drained c ++ [(x, idx)] | _ => drained c end))) j.
Proof.
  intros [Hr _ _ _] Es Hs j. specialize (Hr j). unfold ring_at in Hr.
  assert (cons_at c j = if decide (idx = j) then s else SpscWeak.CIdle) as Ec
    by (unfold cons_at; by rewrite Es).
  case_decide as E.
  - subst j. destruct Hr as (tc&hc&Hok). rewrite Ec in Hok.
    destruct (SpscWeak.weak_cstep_ok _ _ n Hcap Hn (queue_site_ok idx) _ _ _ _ _ _ Hok Hs) as [hc' Hok'].
    exists tc, hc'. rewrite queue_set.
    destruct o as [[x|]|]; [rewrite from_queue_snoc, decide_True by done|..]; exact Hok'.
  - pose proof (SpscWeak.cstep_footprint _ _ _ _ _ _ _ Hs) as (Ho&Hg&_&_).
    pose proof (other_ring c idx j r Hr E Ho Hg) as Hok. rewrite Ec in Hok.
    destruct o as [[x|]|]; [rewrite from_queue_snoc, decide_False, app_nil_r by done|..]; exact Hok.
Qed.

Lemma cstep_returns q s r s' (o : option T) idx :
  SpscWeak.cstep Capacity (queue_site idx) q s r s' (Some o) → s' = SpscWeak.CIdle.
Proof. by inversion 1. Qed.

Lemma sstep_ok c q s o :
  ok c → sstep (state c) (sequencer c) q s o →
  ok (after_drain c q s o).
Proof.
  intros Hok Hs. pose proof Hok as [Hr Hnx Hpl Hsr].
  inversion Hs as [? Eq Es|? attempt Ha Eq Es|? attempt Ha Eq Es|? attempt idx s0 r s' Hc Eq Es|
    ? attempt idx s0 r s' Hc Eq Es|? attempt idx s0 r s' x Hc Eq Es]; subst.
  - split; [|done|done|done]. intros j. specialize (Hr j). unfold ring_at, cons_at in *.
    by rewrite <- Es in Hr.
  - split; [|cbn; apply Nat.mod_upper_bound; lia|done|done]. intros j. specialize (Hr j).
    unfold ring_at, cons_at in *. rewrite <- Es in Hr. cbn. by case_decide.
  - split; [|done|done|done]. intros j. specialize (Hr j). unfold ring_at, cons_at in *.
    by rewrite <- Es in Hr.
  - split; [|done|by rewrite <- Es in Hpl|done]. exact (pop_step _ _ _ _ _ _ _ Hok (eq_sym Es) Hc).
  - rewrite (cstep_returns _ _ _ _ _ _ Hc) in Hc. split; [|done|done|done]. intros j.
    pose proof (pop_step _ _ _ _ _ _ _ Hok (eq_sym Es) Hc j) as H. by case_decide.
  - rewrite (cstep_returns _ _ _ _ _ _ Hc) in Hc. rewrite <- Es in Hpl.
    split; [|done|done|by apply Forall_app_2; [|apply Forall_singleton]]. intros j.
    pose proof (pop_step _ _ _ _ _ _ _ Hok (eq_sym Es) Hc j) as H. by case_decide.
Qed.

Lemma fan_in_reachable_ok c : 0 < NumProducers → reachable c → ok c.
Proof.
  intros HN. induction 1 as [|c c' Hr IH Hs]; [by apply fan_in_create_ok|].
  destruct Hs; [by apply step_push_ok|by apply sstep_ok].
Qed.

Lemma ring_accesses c i :
  ok c → SpscWeak.accesses_safe Capacity (queue_site i) (ring_at c i).
Proof.
  intros Hok. destruct (ok_rings _ Hok i) as (tc&hc&Hr).
  by apply (SpscWeak.config_safe _ _ n Hcap Hn) in Hr.
Qed.

Lemma ring_prefix c i :
  ok c → from_queue i (drained c) `prefix_of` pushed c i ∧
    length (pushed c i) ≤ length (from_queue i (drained c)) + Capacity.
Proof.
  intros Hok. destruct (ok_rings _ Hok i) as (tc&hc&[Hi Hp _ _]). cbn in Hp.
  pose proof (SpscWeak.i_order _ _ _ _ _ _ _ Hi) as Ho. cbn in Ho.
  split; [|lia]. rewrite Hp. apply prefix_take.
Qed.

(** A property of all that each client sent holds of all that was drained. *)
Lemma from_queues (P : T → Prop) (l : list (T * nat)) :
  (∀ i, Forall P (from_queue i l)) → Forall P l.*1.
Proof.
  intros H. apply Forall_forall. intros x ([y j]&->&Hx)%list_elem_of_fmap. cbn.
  specialize (H j). rewrite Forall_forall in H. apply H. unfold from_queue.
  apply list_elem_of_fmap. exists (y, j). split; [done|].
  apply list_elem_of_In, List.filter_In. split; [by apply list_elem_of_In|apply Nat.eqb_refl].
Qed.

(** The sequencer is correct on a weak memory: in every execution of the
    client threads and the sequencer thread over one memory, no access to a
    slot of any queue is in a data race, and what has been drained from a
    client's queue is a prefix of what that client has pushed, at most
    [Capacity] items behind. *)
Theorem fan_in_weak_correct c i :
  0 < NumProducers → reachable c →
  SpscWeak.accesses_safe Capacity (queue_site i) (ring_at c i) ∧
  from_queue i (drained c) `prefix_of` pushed c i ∧
  length (pushed c i) ≤ length (from_queue i (drained c)) + Capacity ∧
  Forall (λ d, d.2 < NumProducers) (drained c).
Proof.
  intros HN Hr. pose proof (fan_in_reachable_ok c HN Hr) as Hok.
  destruct (ring_prefix c i Hok) as [Hp Hl].
  split; [by apply ring_accesses|]. split_and!; [done|done|apply Hok].
Qed.

End fanin.
(** ** A concrete execution: the second of two clients is about to write *)

Lemma demo_client :
  ∃ c : config (T := nat), reachable 0 2 4 c ∧ clients c 1 = SpscWeak.PWrite 5 0.
Proof.
  set (c0 := start 0).
  assert (reachable 0 2 4 c0) as R0 by constructor.
  assert (loads (mem (create 0)) no_view (Head 1) Relaxed 0 (see (Head 1) 0 no_view)) as Hl.
  { by exists 0, (mkMessage 0%Z no_view). }
  pose proof (reach_next _ _ _ _ _ R0 (step_push 2 4 c0 1 _ _ _ ltac:(lia)
    (SpscWeak.p_start 4 (queue_site 1) (queue (state c0) 1) 5 0 _ Hl))) as R1.
  eexists. split; [exact R1|]. reflexivity.
Qed.

Lemma fan_in_weak_correct_witness :
  ∃ c : config (T := nat), reachable 0 2 4 c ∧ write_safe (pview (state c) 1) (cells (mem (state c)) (1, 0)).
Proof.
  destruct demo_client as (c&Hr&Hp). exists c. split; [exact Hr|].
  destruct (fan_in_weak_correct 0 2 4 2 eq_refl ltac:(lia) c 1 ltac:(lia) Hr) as ([H _]&_).
  exact (H 5 0%Z Hp).
Defined.

End FanInWeak.
