(* ===== verification/FanInLive.v ===== *)
(** * The fan-in sequencer makes progress on a weak memory
    (src/include/jane/concurrency/fan_in_sequencer.hpp)

    FanInWeak.v says that what the sequencer delivers is right; here it is
    shown to deliver.  The sequencer is never stuck, whatever the clients do,
    and once the pushes made so far have become visible to its loads it has
    drained all of them after a bounded number of its own steps: a poll is
    never wasted on an empty queue twice before the round reaches a queue
    that is not.  The bound counts the steps of the sequencer alone; the
    clients may take any steps in between. *)

From S2P Require Import Prelude Paced Spsc WeakMem SpscWeak FanInWeak.
From stdpp Require Import base tactics numbers list.

Set Default Goal Selector "!".

Module FanInLive.
Import FanInWeak.

Section live.
Context {T : Type} (dflt : T) (NumProducers Capacity : nat).

Abbreviation config := (FanInWeak.config (T := T)).

(** A step of a client. *)
Inductive client_step : config → config → Prop :=
  | client_steps c i r s o :
      i < NumProducers →
      SpscWeak.pstep Capacity (queue_site i) (queue (state c) i) (clients c i) r s o →
      client_step c (after_push c i r s o).

(** The first [visible i] pushes of client [i] are visible: if the sequencer
    refreshes its copy of that queue's [head], it gets the index that one of
    the pushes from the last of these on has stored. *)
Definition timely (visible : nat → nat) (c : config) (q : FanInWeak.t (T := T)) : Prop :=
  ∀ i attempt tail, sequencer c = SPop attempt i (SpscWeak.CRefresh tail) →
    ∃ k, visible i ≤ k ≤ length (pushed c i) ∧ head_cache q i = u64 (Z.of_nat k).

(** A step of the sequencer that reads no older values than that. *)
Inductive sequencer_step (visible : nat → nat) : config → config → Prop :=
  | sequencer_steps c q s o :
      sstep NumProducers Capacity (state c) (sequencer c) q s o → timely visible c q →
      sequencer_step visible c (after_drain c q s o).

(** The first [taken] items of queue [i] have been drained, and that is
    visible to its client: if it refreshes its copy of the queue's [tail], it
    gets the index that one of the pops from the last of these on has stored. *)
Definition room_timely (i taken : nat) (c : config) 
    (r : SpscWeak.t (T := T) (Th := thread) (L := loc) (A := nat * nat)) : Prop :=
  ∀ x head, clients c i = SpscWeak.PRefresh x head →
    ∃ j, taken ≤ j ≤ length (from_queue i (drained c)) ∧ SpscWeak.tail_cache r = u64 (Z.of_nat j).

(** A step of client [i] that reads no older values than that. *)
Inductive own_step (i taken : nat) : config → config → Prop :=
  | own_steps c r s o :
      SpscWeak.pstep Capacity (queue_site i) (queue (state c) i) (clients c i) r s o →
      room_timely i taken c r →
      own_step i taken c (after_push c i r s o).

(** A step of anyone else. *)
Inductive other_step (i : nat) : config → config → Prop :=
  | other_client c j r s o :
      j < NumProducers → j ≠ i →
      SpscWeak.pstep Capacity (queue_site j) (queue (state c) j) (clients c j) r s o →
      other_step i c (after_push c j r s o)
  | other_sequencer c q s o :
      sstep NumProducers Capacity (state c) (sequencer c) q s o →
      other_step i c (after_drain c q s o).

(** A run with [k] steps of client [i]. *)
Definition client_run (i taken : nat) : nat → config → config → Prop :=
  paced (other_step i) (own_step i taken).

(** A run with [k] steps of the sequencer. *)
Definition run (visible : nat → nat) : nat → config → config → Prop :=
  paced client_step (sequencer_step visible).

(** ** The sequencer is never stuck *)

Definition all_views_ok (q : FanInWeak.t (T := T)) : Prop := ∀ i, SpscWeak.views_ok (queue q i).

Lemma all_views_set q i (r : SpscWeak.t) :
  all_views_ok q → extends (mem q) (SpscWeak.mem r) → SpscWeak.views_ok r →
  all_views_ok (set_queue q i r).
Proof.
  intros Hq He (Hm&Hp&Hc) j. destruct (decide (j = i)) as [->|Hj]; [by rewrite queue_set|].
  destruct (Hq j) as (_&Hpj&_). split_and!; [done| |done]. cbn. rewrite upd_other by done.
  by eapply view_ok_extends.
Qed.

Lemma sstep_views c q s o :
  sstep NumProducers Capacity (state c) (sequencer c) q s o → all_views_ok (state c) → all_views_ok q.
Proof.
  intros Hs Hv. inversion Hs; subst; try done;
    match goal with H : SpscWeak.cstep _ _ _ _ _ _ _ |- _ =>
      destruct (SpscWeak.cstep_views _ _ _ _ _ _ _ H (Hv _)) end; by apply all_views_set.
Qed.

Lemma fan_in_views_reachable c :
  reachable dflt NumProducers Capacity c → all_views_ok (state c).
Proof.
  induction 1 as [|c c' _ IH Hs].
  - intros i. split_and!; [|intros l; cbn; lia..].
    intros l msg Hm%list_elem_of_singleton. rewrite Hm. intros l'. cbn. lia.
  - destruct Hs as [c i r s o Hi Hp|c q s o Hd]; [|by eapply sstep_views].
    destruct (SpscWeak.pstep_views _ _ _ _ _ _ _ Hp (IH i)). by apply all_views_set.
Qed.

(** The latest message of a queue's [head] is the number of pushes. *)
Lemma latest_head (c : config) i msg :
  ok NumProducers Capacity c → last (hist (mem (state c)) (Head i)) = Some msg →
  m_value msg = u64 (Z.of_nat (length (pushed c i))).
Proof.
  intros Hok Hm. destruct (ok_rings _ _ _ Hok i) as (tc&hc&Hr).
  destruct (SpscWeak.i_head _ _ _ _ _ _ _ (SpscWeak.co_inv _ _ _ _ _ Hr)) as [Hl Hv].
  cbn in Hl, Hv. rewrite last_lookup, Hl in Hm. by apply Hv in Hm.
Qed.

Lemma sequencer_moves visible (c : config) :
  ok NumProducers Capacity c → all_views_ok (state c) →
  (∀ i, visible i ≤ length (pushed c i)) →
  ∃ c', sequencer_step visible c c'.
Proof.
  intros Hok Hv Hvis. destruct (sequencer c) as [|attempt|attempt idx s] eqn:Es.
  - eexists. apply sequencer_steps with (q := state c) (s := SLoop 0) (o := None); rewrite ?Es; [constructor|].
    intros ? ? ?. by rewrite Es.
  - assert (∃ q s o, sstep NumProducers Capacity (state c) (sequencer c) q s o) as (q&s&o&Hs).
    { rewrite Es. destruct (decide (attempt < NumProducers)); do 3 eexists; by constructor. }
    exists (after_drain c q s o). constructor; [done|]. intros ? ? ?. by rewrite Es.
  - destruct (SpscWeak.cstep_newest Capacity (queue_site idx) _ s (Hv idx)) as (r&s'&o&Hs&Hnew).
    assert (∃ p o', sstep NumProducers Capacity (state c) (sequencer c) (set_queue (state c) idx r) p o')
      as (p&o'&Hp).
    { rewrite Es. destruct o as [[x|]|]; do 2 eexists; by econstructor. }
    exists (after_drain c (set_queue (state c) idx r) p o'). constructor; [done|].
    intros i a tail E. rewrite Es in E. injection E as -> -> ->.
    destruct (Hnew tail eq_refl) as (msg&Hm&Hh). exists (length (pushed c i)).
    split; [specialize (Hvis i); lia|]. cbn. rewrite upd_same, Hh. by apply latest_head.
Qed.

(** Steps only add to what has been pushed. *)
Lemma client_step_pushed (c c' : config) i : client_step c c' → pushed c i `prefix_of` pushed c' i.
Proof.
  intros [c0 j r s o _ _]. cbn. destruct o as [[[|] x]|]; try done.
  unfold upd. case_decide; subst; [by apply prefix_app_r|done].
Qed.

Lemma run_pushed visible (c : config) k c' i : run visible k c c' → pushed c i `prefix_of` pushed c' i.
Proof.
  intros Hr. apply (paced_preserves _ _ (λ c1, pushed c i `prefix_of` pushed c1 i) _ _ _)
    with (4 := Hr).
  - intros c1 c2 Hp H. etrans; [exact Hp|]. by apply client_step_pushed.
  - intros c1 c2 Hp H. by destruct H.
  - done.
Qed.

(** ** How long a queue waits *)

Context (n : nat) (Hcap : Capacity = 2 ^ n) (Hn : 1 ≤ n < 63).

Lemma client_step_ok c c' :
  ok NumProducers Capacity c → client_step c c' → ok NumProducers Capacity c'.
Proof. intros Hok Hc. destruct Hc as [c i r s o Hi Hs]. exact (step_push_ok _ _ n Hcap Hn _ _ _ _ _ Hok Hi Hs). Qed.

Lemma sequencer_step_ok visible c c' :
  ok NumProducers Capacity c → sequencer_step visible c c' → ok NumProducers Capacity c'.
Proof. intros Hok Hc. destruct Hc as [c q s o Hs _]. exact (sstep_ok _ _ n Hcap Hn _ _ _ _ Hok Hs). Qed.

Context (visible : nat → nat) (i : nat) (Hi : i < NumProducers).

(** Accesses left in a [try_pop], and what follows it. *)
Definition left_in (s : SpscWeak.cstate (T := T)) : nat :=
  match s with
  | SpscWeak.CIdle => 7
  | SpscWeak.CRefresh _ => 6
  | SpscWeak.CRead _ => 5
  | SpscWeak.CRelease _ _ => 4
  end.

(** Queues to poll before queue [i]. *)
Definition ahead (c : config) : nat := (i + NumProducers - next_queue (state c)) mod NumProducers.

(** Steps of the sequencer until it takes an item of queue [i]. *)
Definition wait (c : config) : nat :=
  match sequencer c with
  | SIdle => 8 * S (ahead c) + 2
  | SLoop attempt => 8 * S (ahead c) + if decide (attempt < NumProducers) then 1 else 3
  | SPop _ idx s => (if decide (idx = i) then 0 else 8 * S (ahead c)) + left_in s
  end.

Definition round_steps : nat := 8 * NumProducers + 8.

(** Items drained from queue [i]. *)
Definition count (c : config) : nat := length (from_queue i (drained c)).

Lemma ahead_bound c : ahead c < NumProducers.
Proof. apply Nat.mod_upper_bound. lia. Qed.

Lemma wait_bound c : wait c < round_steps.
Proof.
  pose proof (ahead_bound c). unfold wait, round_steps.
  destruct (sequencer c) as [|a|a idx s]; repeat case_decide; try destruct s; cbn [left_in]; lia.
Qed.

(** Polling another queue brings queue [i] one closer. *)
Lemma ahead_next c c' :
  next_queue (state c) < NumProducers → next_queue (state c) ≠ i →
  next_queue (state c') = (next_queue (state c) + 1) mod NumProducers →
  ahead c = S (ahead c').
Proof.
  intros Hlt Hne E. unfold ahead. rewrite E. set (k := next_queue (state c)) in *.
  destruct (decide (S k = NumProducers)) as [Hk|Hk].
  - replace (k + 1) with NumProducers by lia. rewrite Nat.Div0.mod_same, Nat.sub_0_r.
    rewrite <- (Nat.Div0.add_mod_idemp_r i), Nat.Div0.mod_same, Nat.add_0_r.
    rewrite !Nat.mod_small by lia. lia.
  - rewrite (Nat.mod_small (k + 1)) by lia. destruct (decide (k < i)).
    + replace (i + NumProducers - k) with ((i - k) + 1 * NumProducers) by lia.
      replace (i + NumProducers - (k + 1)) with ((i - (k + 1)) + 1 * NumProducers) by lia.
      rewrite !Nat.Div0.mod_add, !Nat.mod_small by lia. lia.
    + rewrite !Nat.mod_small by lia. lia.
Qed.

Lemma left_in_step (site : SpscWeak.site thread loc (nat * nat)) (q : SpscWeak.t (T := T)) s r s' :
  SpscWeak.cstep Capacity site q s r s' None →
  left_in s' < left_in s.
Proof. inversion 1; subst; try case_match; cbn; lia. Qed.

Lemma left_in_ge s : 4 ≤ left_in s.
Proof. destruct s; cbn; lia. Qed.

Lemma left_in_empty (site : SpscWeak.site thread loc (nat * nat)) (q : SpscWeak.t (T := T)) s r s' :
  SpscWeak.cstep Capacity site q s r s' (Some None) →
  ∃ tail, s = SpscWeak.CRefresh tail ∧ (tail =? SpscWeak.head_cache r)%Z = true.
Proof. inversion 1; subst. by eexists. Qed.

(** A queue with visible items is not found empty. *)
Lemma not_empty (c : config) attempt tail q :
  ok NumProducers Capacity c → timely visible c q → count c < visible i →
  sequencer c = SPop attempt i (SpscWeak.CRefresh tail) →
  (tail =? head_cache q i)%Z = false.
Proof.
  unfold count. intros Hok Ht Hlt Es. destruct (Ht _ _ _ Es) as (k&Hk&->).
  destruct (ok_rings _ _ _ Hok i) as (tc&hc&Hr).
  pose proof (SpscWeak.i_order _ _ _ _ _ _ _ (SpscWeak.co_inv _ _ _ _ _ Hr)) as Ho.
  pose proof (SpscWeak.co_cons _ _ _ _ _ Hr) as Hc. cbn in Ho, Hc.
  unfold cons_at in Hc. rewrite Es, decide_True in Hc by done. cbn in Hc.
  rewrite Hc, (Spsc.u64_eqb Capacity n Hcap Hn) by lia. apply bool_decide_eq_false_2. lia.
Qed.

Lemma count_snoc (c : config) x j :
  length (from_queue i (drained c ++ [(x, j)])) = count c + if decide (j = i) then 1 else 0.
Proof. unfold count. rewrite from_queue_snoc, length_app. by case_decide. Qed.

(** A step of the sequencer serves queue [i] or shortens its wait. *)
Lemma sequencer_step_wait c c' :
  ok NumProducers Capacity c → sequencer_step visible c c' → count c < visible i →
  count c' = S (count c) ∨ (count c' = count c ∧ wait c' < wait c).
Proof.
  intros Hok Hs0 Hlt. destruct Hs0 as [c0 q s o Hs Ht]. pose proof (ok_next _ _ _ Hok) as Hnx.
  inversion Hs as [q0 Eq Es|q0 attempt Ha Eq Es|q0 attempt Ha Eq Es|q0 attempt idx s0 r s' Hc Eq Es|
    q0 attempt idx s0 r s' Hc Eq Es|q0 attempt idx s0 r s' x Hc Eq Es]; subst q0 q s o;
    unfold count at 1 3; cbn [after_drain drained].
  - right. split; [done|]. unfold wait, ahead. rewrite <- Es. cbn. rewrite decide_True by lia. lia.
  - right. split; [done|]. unfold wait. rewrite <- Es. cbn [after_drain sequencer left_in].
    destruct (decide (attempt < NumProducers)); [|done]. case_decide as E; [lia|].
    rewrite (ahead_next c0 (after_drain c0 (set_next (state c0) ((next_queue (state c0) + 1) mod NumProducers))
      (SPop attempt (next_queue (state c0)) SpscWeak.CIdle) None)) by done. lia.
  - right. split; [done|]. unfold wait, ahead. rewrite <- Es. cbn. rewrite decide_False by lia. lia.
  - right. split; [done|]. apply left_in_step in Hc. unfold wait, ahead. rewrite <- Es.
    cbn [after_drain sequencer state set_queue next_queue]. case_decide; lia.
  - right. split; [done|]. destruct (left_in_empty _ _ _ _ _ Hc) as (tail&->&He).
    unfold wait, ahead. rewrite <- Es. cbn [after_drain sequencer state set_queue next_queue left_in].
    destruct (decide (idx = i)) as [->|]; [|case_decide; lia].
    pose proof (not_empty c0 attempt tail _ Hok Ht Hlt (eq_sym Es)) as Hf.
    cbn in Hf. rewrite upd_same in Hf. congruence.
  - rewrite count_snoc. unfold wait, ahead. rewrite <- Es.
    cbn [after_drain sequencer state set_queue next_queue]. pose proof (left_in_ge s0).
    destruct (decide (idx = i)); [left; lia|]. right. lia.
Qed.

(** All that is still to come from queue [i]. *)
Definition total_wait (c : config) : nat := (visible i - count c - 1) * round_steps + wait c.

Lemma total_wait_step c c' :
  ok NumProducers Capacity c → sequencer_step visible c c' →
  (visible i ≤ count c → visible i ≤ count c') ∧
  (visible i ≤ count c' ∨ total_wait c' < total_wait c).
Proof.
  intros Hok Hs. assert (count c ≤ count c') as Hm.
  { destruct Hs as [c q s o _ _]. unfold count at 2. cbn [after_drain drained].
    destruct o as [[[x j]|]|]; [|done..]. rewrite count_snoc. lia. }
  split; [lia|]. destruct (decide (visible i ≤ count c')); [by left|right].
  pose proof (wait_bound c'). unfold total_wait.
  destruct (sequencer_step_wait _ _ Hok Hs ltac:(lia)) as [E|[E Hw]]; rewrite E; [|lia].
  replace (visible i - count c - 1) with (S (visible i - S (count c) - 1)) by lia. lia.
Qed.

Lemma client_step_wait (c c' : config) :
  client_step c c' → drained c' = drained c ∧ total_wait c' = total_wait c.
Proof. by intros [c0 j r s o _ _]. Qed.

(** After enough steps of the sequencer every visible push has been drained. *)
Lemma run_serves (c : config) k c' :
  ok NumProducers Capacity c → visible i ≤ length (pushed c i) → run visible k c c' →
  round_steps * Capacity ≤ k → visible i ≤ count c'.
Proof.
  intros Hok Hv Hr Hk. destruct (ring_prefix NumProducers Capacity n Hcap Hn c i Hok) as [_ Hl]. change (length (from_queue i (drained c))) with (count c) in Hl.
  pose proof (wait_bound c) as Hw.
  destruct (Spsc.cap_pos Capacity n Hcap Hn) as [H0 _].
  eapply (paced_reaches _ _ (ok NumProducers Capacity) (λ c, visible i ≤ count c) total_wait);
    [..|exact Hok|exact Hr|].
  - intros c1 c2 H1 H2. split; [by eapply client_step_ok|].
    destruct (client_step_wait _ _ H2) as [E ->]. unfold count. rewrite E. done.
  - intros c1 c2 H1 H2. split; [by eapply sequencer_step_ok|]. by apply total_wait_step.
  - right. unfold total_wait.
    enough ((visible i - count c - 1) * round_steps ≤ (Capacity - 1) * round_steps) by nia.
    apply Nat.mul_le_mono_r. lia.
Qed.

(** What had been pushed at the start, if visible, is what is drained first. *)
Lemma run_drains (c : config) k c' :
  ok NumProducers Capacity c → visible i = length (pushed c i) → run visible k c c' →
  round_steps * Capacity ≤ k → pushed c i `prefix_of` from_queue i (drained c').
Proof.
  intros Hok Hv Hr Hk. pose proof (run_serves c k c' Hok ltac:(lia) Hr Hk) as Hl.
  pose proof (run_pushed _ _ _ _ i Hr) as Hp.
  assert (ok NumProducers Capacity c') as Hok'.
  { revert Hr. apply (paced_preserves _ _ (ok NumProducers Capacity)); [| |done];
      intros c1 c2 H1 H2; [by eapply client_step_ok|by eapply sequencer_step_ok]. }
  destruct (ring_prefix NumProducers Capacity n Hcap Hn c' i Hok') as [Hd _].
  unfold count in Hl. destruct (prefix_weak_total _ _ _ Hp Hd) as [H|H]; [done|].
  pose proof (prefix_length _ _ H). apply prefix_length_eq in H as ->; [done|lia].
Qed.

(** ** How long a client waits *)

(** Accesses left in a [try_push] that is not refused, less one. *)
Definition left_to_push (s : SpscWeak.pstate (T := T)) : nat :=
  match s with
  | SpscWeak.PIdle => 3
  | SpscWeak.PRefresh _ _ => 2
  | SpscWeak.PWrite _ _ => 1
  | SpscWeak.PPublish _ _ => 0
  end.

(** A client whose queue has room is not refused. *)
Lemma not_full (c : config) r x head taken :
  ok NumProducers Capacity c → room_timely i taken c r → length (pushed c i) < taken + Capacity →
  clients c i = SpscWeak.PRefresh x head → Spsc.full Capacity head (SpscWeak.tail_cache r) = false.
Proof.
  intros Hok Ht Hlt Es. destruct (Ht _ _ Es) as (j&Hj&->).
  destruct (ok_rings _ _ _ Hok i) as (tc&hc&Hr).
  pose proof (SpscWeak.i_order _ _ _ _ _ _ _ (SpscWeak.co_inv _ _ _ _ _ Hr)) as Ho.
  pose proof (SpscWeak.co_prod _ _ _ _ _ Hr) as Hp. cbn in Ho, Hp. rewrite Es in Hp. cbn in Hp.
  rewrite Hp, (Spsc.full_spec Capacity n Hcap Hn) by lia. apply bool_decide_eq_false_2. lia.
Qed.

(** A step of the client pushes its item or brings it closer. *)
Lemma own_step_push (c c' : config) taken :
  ok NumProducers Capacity c → own_step i taken c c' → length (pushed c i) < taken + Capacity →
  length (pushed c' i) = S (length (pushed c i)) ∨
  (pushed c' i = pushed c i ∧ left_to_push (clients c' i) < left_to_push (clients c i)).
Proof.
  intros Hok Hs Hlt. destruct Hs as [c r s o Hs Ht]. cbn [after_push pushed clients].
  rewrite upd_same.
  inversion Hs as [q x h V Hld Eq E1|q x h v V Hld Hf Eq E1|q x h v V Hld Hf Eq E1|q x h m V Hw Eq E1|
    q x h m V Hst Eq E1]; subst s o; rewrite <- ?E1; cbn [left_to_push].
  - right. split; [done|]. case_match; cbn; lia.
  - right. split; [done|lia].
  - exfalso. pose proof (not_full c r x h taken Hok Ht Hlt (eq_sym E1)) as Hnf.
    subst r. cbn in Hnf. congruence.
  - right. split; [done|lia].
  - left. rewrite upd_same, length_app. cbn. lia.
Qed.

Lemma other_step_same (c c' : config) :
  ok NumProducers Capacity c → other_step i c c' →
  ok NumProducers Capacity c' ∧ pushed c' i = pushed c i ∧ clients c' i = clients c i.
Proof.
  intros Hok Hs. destruct Hs as [c j r s o Hj Hne Hs|c q s o Hs].
  - split; [exact (step_push_ok _ _ n Hcap Hn _ _ _ _ _ Hok Hj Hs)|]. cbn.
    destruct o as [[[|] x]|]; rewrite !upd_other by congruence; done.
  - split; [exact (sstep_ok _ _ n Hcap Hn _ _ _ _ Hok Hs)|done].
Qed.

(** Four of its own steps get an item into a queue with room. *)
Lemma client_run_pushes (c : config) taken k c' :
  ok NumProducers Capacity c → length (pushed c i) < taken + Capacity →
  client_run i taken k c c' → 4 ≤ k → length (pushed c i) < length (pushed c' i).
Proof.
  intros Hok Hlt Hr Hk. set (len := length (pushed c i)) in *.
  apply (paced_reaches _ _ (λ c, ok NumProducers Capacity c ∧ len ≤ length (pushed c i))
    (λ c, len < length (pushed c i)) (λ c, left_to_push (clients c i))) with (4 := Hr); [| | |].
  - intros c1 c2 [H1 H2] H. destruct (other_step_same _ _ H1 H) as (?&->&->). auto.
  - intros c1 c2 [H1 H2] H.
    assert (ok NumProducers Capacity c2 ∧ length (pushed c1 i) ≤ length (pushed c2 i)) as [Hok2 Hle].
    { destruct H as [c1 r s o Hs _].
      split; [exact (step_push_ok _ _ n Hcap Hn _ _ _ _ _ H1 Hi Hs)|]. cbn.
      destruct o as [[[|] x]|]; rewrite ?upd_same, ?length_app; lia. }
    split_and!; [done|lia|lia|].
    destruct (decide (len = length (pushed c1 i))) as [E|E]; [|left; lia].
    destruct (own_step_push _ _ _ H1 H ltac:(lia)) as [?|[_ ?]]; [left; lia|by right].
  - split; [done|lia].
  - right. destruct (clients c i); cbn; lia.
Qed.

End live.
End FanInLive.
