(* ===== verification/Mpsc.v ===== *)
(** * The multi-producer single-consumer ring (src/include/jane/concurrency/mpsc_ring_buffer.hpp)

    Any number of producer threads run [try_push] against one consumer
    running [try_pop].  The step relations split both functions at every
    access to shared memory: loading [enqueue_pos_], loading a cell's
    sequence, the compare-exchange (which may fail spuriously), writing the
    data, publishing the sequence; and on the other side loading the
    sequence, reading the data, releasing the cell.

    The ghost list [claims] records, in position order, which thread
    claimed each position for which item.  The theorems hold for the first
    2^63 claims: beyond 2^64 a producer that slept through a full turn of
    the counter could not tell the two turns apart. *)

From S2P Require Import Prelude.
From stdpp Require Import base tactics numbers list.

Set Default Goal Selector "!".

Module Mpsc.

Section ring.
Context {T : Type} (dflt : T) (Capacity : nat).

Record Cell := mkCell { sequence : Z; data : T }.

Record t := mk { cells : list Cell; enqueue_pos : Z; dequeue_pos : Z }.

Definition create : t :=
  mk (map (λ i, mkCell (Z.of_nat i) dflt) (seq 0 Capacity)) 0 0.

Definition kMask : Z := (Z.of_nat Capacity - 1)%Z.
Definition slot (pos : Z) : nat := Z.to_nat (Z.land pos kMask).
Definition cell (q : t) (pos : Z) : Cell := default (mkCell 0 dflt) (cells q !! slot pos).
Definition set_cell (q : t) (pos : Z) (c : Cell) : t :=
  mk (<[slot pos := c]> (cells q)) (enqueue_pos q) (dequeue_pos q).

(** [static_cast<int64_t>(a) - static_cast<int64_t>(b)] *)
Definition diff (a b : Z) : Z := i64 (i64 a - i64 b).

(** A producer between its accesses. *)
Inductive pstate :=
  | PIdle
  | PLoad (item : T)
  | PCheck (item : T) (pos : Z)
  | PCas (item : T) (pos : Z)
  | PWrite (item : T) (pos : Z)
  | PPublish (item : T) (pos : Z).

Inductive presult := PNone | PClaimed (item : T) | PReturned (ok : bool) (item : T).

Inductive pstep : t → pstate → t → pstate → presult → Prop :=
  | p_start q x : pstep q PIdle q (PLoad x) PNone
  | p_load q x : pstep q (PLoad x) q (PCheck x (enqueue_pos q)) PNone
  | p_free q x pos :
      diff (sequence (cell q pos)) pos = 0%Z → pstep q (PCheck x pos) q (PCas x pos) PNone
  | p_full q x pos :
      (diff (sequence (cell q pos)) pos < 0)%Z →
      pstep q (PCheck x pos) q PIdle (PReturned false x)
  | p_stale q x pos :
      (0 < diff (sequence (cell q pos)) pos)%Z → pstep q (PCheck x pos) q (PLoad x) PNone
  | p_cas_ok q x pos :
      enqueue_pos q = pos →
      pstep q (PCas x pos) (mk (cells q) (u64 (pos + 1)) (dequeue_pos q)) (PWrite x pos)
        (PClaimed x)
  | p_cas_fail q x pos : pstep q (PCas x pos) q (PCheck x (enqueue_pos q)) PNone
  | p_write q x pos :
      pstep q (PWrite x pos) (set_cell q pos (mkCell (sequence (cell q pos)) x)) (PPublish x pos)
        PNone
  | p_publish q x pos :
      pstep q (PPublish x pos) (set_cell q pos (mkCell (u64 (pos + 1)) (data (cell q pos)))) PIdle
        (PReturned true x).

Inductive cstate := CIdle | CRead | CRelease (item : T).

Inductive cstep : t → cstate → t → cstate → option (option T) → Prop :=
  | c_empty q :
      diff (sequence (cell q (dequeue_pos q))) (u64 (dequeue_pos q + 1)) ≠ 0%Z →
      cstep q CIdle q CIdle (Some None)
  | c_ready q :
      diff (sequence (cell q (dequeue_pos q))) (u64 (dequeue_pos q + 1)) = 0%Z →
      cstep q CIdle q CRead None
  | c_read q : cstep q CRead q (CRelease (data (cell q (dequeue_pos q)))) None
  | c_release q x :
      cstep q (CRelease x)
        (mk (cells (set_cell q (dequeue_pos q)
               (mkCell (u64 (dequeue_pos q + Z.of_nat Capacity)) (data (cell q (dequeue_pos q))))))
           (enqueue_pos q) (u64 (dequeue_pos q + 1)))
        CIdle (Some (Some x)).

Record config := mkConfig {
  mem : t;
  prods : nat → pstate;
  cons : cstate;
  claims : list (nat * T);
  accepted : nat → list T;
  popped : list T;
}.

Definition set_prod {A} (f : nat → A) (i : nat) (s : A) : nat → A :=
  λ j, if decide (j = i) then s else f j.

Inductive step : config → config → Prop :=
  | step_prod c i q s r :
      pstep (mem c) (prods c i) q s r →
      step c (mkConfig q (set_prod (prods c) i s) (cons c)
        (match r with PClaimed x => claims c ++ [(i, x)] | _ => claims c end)
        (match r with
         | PReturned true x => set_prod (accepted c) i (accepted c i ++ [x])
         | _ => accepted c end)
        (popped c))
  | step_cons c q s r :
      cstep (mem c) (cons c) q s r →
      step c (mkConfig q (prods c) s (claims c) (accepted c)
        (match r with Some (Some x) => popped c ++ [x] | _ => popped c end)).

Inductive reachable : config → Prop :=
  | reach_start : reachable (mkConfig create (λ _, PIdle) CIdle [] (λ _, []) [])
  | reach_next c c' : reachable c → step c c' → reachable c'.

(** ** The invariant *)

Context (n : nat) (Hcap : Capacity = 2 ^ n) (Hn : 1 ≤ n < 62).

(** The cell of position [p], unwrapped. *)
Definition at_pos (q : t) (p : nat) : option Cell := cells q !! (p mod Capacity).

(** Thread [i] has claimed position [p] for [x] and not yet published it. *)
Definition writing (s : pstate) (p : nat) (x : T) (c : Cell) : Prop :=
  s = PWrite x (Z.of_nat p) ∨ (s = PPublish x (Z.of_nat p) ∧ data c = x).

Definition cell_ok (cf : config) (p : nat) (c : Cell) : Prop :=
  match claims cf !! p with
  | Some (i, x) =>
      (sequence c = Z.of_nat (p + 1) ∧ data c = x) ∨
      (sequence c = Z.of_nat p ∧ writing (prods cf i) p x c)
  | None => sequence c = Z.of_nat p
  end.

Definition prod_ok (cf : config) (i : nat) : Prop :=
  let E := length (claims cf) in
  let D := length (popped cf) in
  match prods cf i with
  | PIdle | PLoad _ => True
  | PCheck _ pos => ∃ p, pos = Z.of_nat p ∧ p ≤ E
  | PCas _ pos => ∃ p, pos = Z.of_nat p ∧ p ≤ E ∧ p < D + Capacity
  | PWrite x pos | PPublish x pos =>
      ∃ p c, pos = Z.of_nat p ∧ D ≤ p < E ∧ claims cf !! p = Some (i, x) ∧
        at_pos (mem cf) p = Some c ∧ sequence c = Z.of_nat p
  end.

Definition cons_ok (cf : config) : Prop :=
  let D := length (popped cf) in
  match cons cf with
  | CIdle => True
  | CRead => ∃ c, at_pos (mem cf) D = Some c ∧ sequence c = Z.of_nat (D + 1)
  | CRelease x => ∃ c i, at_pos (mem cf) D = Some c ∧ sequence c = Z.of_nat (D + 1) ∧
      claims cf !! D = Some (i, x)
  end.

(** The item a thread has claimed but not yet reported. *)
Definition pending (s : pstate) : list T :=
  match s with PWrite x _ | PPublish x _ => [x] | _ => [] end.

Record ok (cf : config) : Prop := {
  ok_len : length (cells (mem cf)) = Capacity;
  ok_enq : enqueue_pos (mem cf) = Z.of_nat (length (claims cf));
  ok_deq : dequeue_pos (mem cf) = Z.of_nat (length (popped cf));
  ok_order : length (popped cf) ≤ length (claims cf) ≤ length (popped cf) + Capacity;
  ok_popped : popped cf = take (length (popped cf)) (claims cf).*2;
  ok_cells p : length (popped cf) ≤ p < length (popped cf) + Capacity →
    ∃ c, at_pos (mem cf) p = Some c ∧ cell_ok cf p c;
  ok_prods i : prod_ok cf i;
  ok_cons : cons_ok cf;
  ok_accepted i :
    (List.filter (λ '(j, _), j =? i) (claims cf)).*2 = accepted cf i ++ pending (prods cf i);
}.

Lemma mpsc_cap : (1 < Z.of_nat Capacity < 2 ^ 62)%Z ∧ Z.of_nat Capacity = (2 ^ Z.of_nat n)%Z.
Proof.
  assert (Z.of_nat Capacity = (2 ^ Z.of_nat n)%Z) as E by (rewrite Hcap; apply Nat2Z.inj_pow).
  split; [|done]. rewrite E. split.
  - change 1%Z with (2 ^ 0)%Z. apply Z.pow_lt_mono_r; lia.
  - apply Z.pow_lt_mono_r; lia.
Qed.

Lemma mpsc_slot p : slot (Z.of_nat p) = p mod Capacity.
Proof.
  destruct mpsc_cap as [Hc E]. unfold slot, kMask.
  replace (Z.of_nat Capacity - 1)%Z with (Z.ones (Z.of_nat n)) by (rewrite Z.ones_equiv; lia).
  rewrite Z.land_ones, <- E, <- Nat2Z.inj_mod by lia. apply Nat2Z.id.
Qed.

Lemma cell_at q p c : at_pos q p = Some c → cell q (Z.of_nat p) = c.
Proof. unfold at_pos, cell. rewrite mpsc_slot. by intros ->. Qed.

Lemma at_set_cell q p c p' :
  length (cells q) = Capacity →
  at_pos (set_cell q (Z.of_nat p) c) p' =
  if decide (p' mod Capacity = p mod Capacity) then Some c else at_pos q p'.
Proof.
  intros Hl. unfold at_pos, set_cell. cbn [cells]. rewrite mpsc_slot. case_decide as E.
  - rewrite E. apply list_lookup_insert_eq. rewrite Hl. apply Nat.mod_upper_bound.
    destruct mpsc_cap. lia.
  - by apply list_lookup_insert_ne.
Qed.

(** Different positions of the window have different cells. *)
Lemma window_eq D p p' :
  D ≤ p < D + Capacity → D ≤ p' < D + Capacity → p mod Capacity = p' mod Capacity → p = p'.
Proof.
  intros H1 H2 E. destruct (lt_eq_lt_dec p p') as [[H|H]|H]; [|done|].
  - exfalso. apply (mod_window_ne Capacity p p'); [done|lia|done].
  - exfalso. apply (mod_window_ne Capacity p' p); [done|lia|done].
Qed.

Lemma diff_zero a b :
  (0 ≤ a < 2 ^ 64)%Z → (0 ≤ b < 2 ^ 64)%Z → diff a b = 0%Z ↔ a = b.
Proof.
  intros Ha Hb. unfold diff. destruct (i64_spec a) as [ka ->], (i64_spec b) as [kb ->].
  split.
  - intros H. destruct (i64_spec (a + ka * 2 ^ 64 - (b + kb * 2 ^ 64))) as [k Hk]. lia.
  - intros ->. rewrite (i64_eqm _ 0 (ka - kb)) by lia. done.
Qed.

Lemma mpsc_create_ok : ok (mkConfig create (λ _, PIdle) CIdle [] (λ _, []) []).
Proof.
  split; cbn; try done; try lia.
  - by rewrite length_map, length_seq.
  - intros p Hp. exists (mkCell (Z.of_nat p) dflt). split; [|done]. unfold at_pos. cbn.
    rewrite Nat.mod_small by lia. rewrite list_lookup_fmap, lookup_seq_lt by lia. done.
Qed.

(** ** Steps *)

Lemma set_prod_eq {A} (f : nat → A) i s : set_prod f i s i = s.
Proof. unfold set_prod. by rewrite decide_True. Qed.

Lemma set_prod_ne {A} (f : nat → A) i s j : j ≠ i → set_prod f i s j = f j.
Proof. intros. unfold set_prod. by rewrite decide_False. Qed.

Lemma writing_pending s p x c : writing s p x c → pending s = [x].
Proof. by intros [-> |[-> _]]. Qed.

Lemma writing_pos s p x c p' x' c' : writing s p x c → writing s p' x' c' → p = p'.
Proof. intros [-> |[-> _]] [H|[H _]]; try done; injection H; lia. Qed.

(** Every cell belongs to one position of the window. *)
Lemma window_pos D p : ∃ p', D ≤ p' < D + Capacity ∧ p' mod Capacity = p mod Capacity.
Proof.
  destruct mpsc_cap as [Hc _]. assert (Capacity ≠ 0) as H0 by lia.
  exists (D + (p + (Capacity - D mod Capacity)) mod Capacity). split.
  - pose proof (Nat.mod_upper_bound (p + (Capacity - D mod Capacity)) Capacity H0). lia.
  - rewrite Nat.Div0.add_mod_idemp_r. pose proof (Nat.div_mod_eq D Capacity) as E.
    pose proof (Nat.mod_upper_bound D Capacity H0).
    replace (D + (p + (Capacity - D mod Capacity))) with (p + (D / Capacity + 1) * Capacity) by nia.
    apply Nat.Div0.mod_add.
Qed.

Definition bounded (cf : config) : Prop := (Z.of_nat (length (claims cf)) < 2 ^ 63)%Z.

Lemma cell_seq cf p c :
  cell_ok cf p c → sequence c = Z.of_nat p ∨ sequence c = Z.of_nat (p + 1).
Proof. unfold cell_ok. destruct (claims cf !! p) as [[i x]|]; naive_solver. Qed.

(** A check that finds the cell's sequence equal to its position has a
    position inside the window. *)
Lemma check_window cf p :
  ok cf → bounded cf → p ≤ length (claims cf) →
  diff (sequence (cell (mem cf) (Z.of_nat p))) (Z.of_nat p) = 0%Z →
  p < length (popped cf) + Capacity.
Proof.
  intros Hok Hb Hp Hd. destruct mpsc_cap as [Hc _]. unfold bounded in Hb.
  pose proof (ok_order _ Hok) as Ho.
  destruct (window_pos (length (popped cf)) p) as (p'&Hw&Hm).
  destruct (ok_cells _ Hok p' Hw) as (c&Hat&Hcell).
  assert (cell (mem cf) (Z.of_nat p) = c) as Ec.
  { apply cell_at. unfold at_pos in *. by rewrite <- Hm. }
  rewrite Ec in Hd.
  assert (sequence c = Z.of_nat p) as Eq.
  { destruct (cell_seq _ _ _ Hcell) as [Es|Es]; apply diff_zero; done || lia. }
  destruct (cell_seq _ _ _ Hcell) as [Es|Es]; [lia|]. exfalso. apply (mod_window_ne Capacity p' (p' + 1)); [lia|lia|].
  replace (p' + 1) with p by lia. done.
Qed.

(** A thread that holds no claim moves between states that hold none. *)
Lemma local_ok cf i s' acc :
  ok cf → pending (prods cf i) = [] → pending s' = [] → acc = accepted cf →
  prod_ok (mkConfig (mem cf) (set_prod (prods cf) i s') (cons cf) (claims cf) acc (popped cf)) i →
  ok (mkConfig (mem cf) (set_prod (prods cf) i s') (cons cf) (claims cf) acc (popped cf)).
Proof.
  intros [Hl He Hd Ho Hp Hc Hpr Hco Ha] H1 H2 -> Hi. split; cbn; try done.
  - intros p Hw. destruct (Hc p Hw) as (c&Hat&Hcell). exists c. split; [done|].
    unfold cell_ok in *. cbn. destruct (claims cf !! p) as [[j x]|]; [|done].
    destruct Hcell as [?|[? Hwr]]; [by left|right]. split; [done|].
    destruct (decide (j = i)) as [->|]; [|by rewrite set_prod_ne].
    apply writing_pending in Hwr. rewrite H1 in Hwr. done.
  - intros j. destruct (decide (j = i)) as [->|]; [done|].
    specialize (Hpr j). unfold prod_ok in *. cbn. by rewrite set_prod_ne.
  - intros j. rewrite Ha. destruct (decide (j = i)) as [->|]; [|by rewrite set_prod_ne].
    by rewrite set_prod_eq, H1, H2.
Qed.

Lemma claim_ok cf i x p :
  ok cf → (Z.of_nat (length (claims cf)) + 1 < 2 ^ 63)%Z →
  prods cf i = PCas x (Z.of_nat p) → enqueue_pos (mem cf) = Z.of_nat p →
  ok (mkConfig (mk (cells (mem cf)) (u64 (Z.of_nat p + 1)) (dequeue_pos (mem cf)))
    (set_prod (prods cf) i (PWrite x (Z.of_nat p))) (cons cf) (claims cf ++ [(i, x)])
    (accepted cf) (popped cf)).
Proof.
  intros [Hl He Hd Ho Hp Hc Hpr Hco Ha] Hb Hi Hq. destruct mpsc_cap as [Hcp _].
  pose proof (Hpr i) as Hpi. unfold prod_ok in Hpi. rewrite Hi in Hpi.
  destruct Hpi as (p0&Ep&HpE&HpW). assert (p0 = p) as -> by lia.
  assert (p = length (claims cf)) as HE by lia.
  assert (pending (prods cf i) = []) as Hpend by (by rewrite Hi).
  split; cbn; try done.
  - rewrite u64_id, length_app by (unfold is_u64; lia). cbn [length]. lia.
  - rewrite length_app. cbn [length]. lia.
  - rewrite fmap_app, take_app_le by (rewrite length_fmap; lia). done.
  - intros p' Hw. destruct (Hc p' Hw) as (c&Hat&Hcell). exists c. split; [done|].
    unfold cell_ok in *. cbn. destruct (decide (p' < length (claims cf))) as [Hlt|Hge].
    + rewrite lookup_app_l by done. destruct (claims cf !! p') as [[j y]|]; [|done].
      destruct Hcell as [?|[? Hwr]]; [by left|right]. split; [done|].
      destruct (decide (j = i)) as [->|]; [|by rewrite set_prod_ne].
      apply writing_pending in Hwr. rewrite Hpend in Hwr. done.
    + rewrite (proj2 (lookup_ge_None (claims cf) p')) in Hcell by lia.
      destruct (decide (p' = p)) as [->|].
      * rewrite lookup_app_r, <- HE, Nat.sub_diag by lia. cbn. right. split; [done|].
        left. by rewrite set_prod_eq.
      * rewrite (proj2 (lookup_ge_None _ p')); [done|]. rewrite length_app. cbn. lia.
  - intros j. unfold prod_ok. cbn. rewrite length_app. cbn [length].
    destruct (decide (j = i)) as [->|Hj].
    + rewrite set_prod_eq. destruct (Hc p) as (c&Hat&Hcell); [lia|].
      exists p, c. split_and!; try done; [lia|lia| |].
      * rewrite lookup_app_r, <- HE, Nat.sub_diag by lia. done.
      * unfold cell_ok in Hcell. by rewrite (proj2 (lookup_ge_None (claims cf) p)) in Hcell by lia.
    + rewrite set_prod_ne by done. specialize (Hpr j). unfold prod_ok in Hpr. cbn in Hpr.
      destruct (prods cf j) as [|y|y pos|y pos|y pos|y pos]; try done.
      * destruct Hpr as (p1&->&?). exists p1. split; [done|lia].
      * destruct Hpr as (p1&->&?&?). exists p1. split_and!; [done|lia|lia].
      * destruct Hpr as (p1&c&->&?&?&?&?). exists p1, c. split_and!; try done; try lia.
        by apply lookup_app_l_Some.
      * destruct Hpr as (p1&c&->&?&?&?&?). exists p1, c. split_and!; try done; try lia.
        by apply lookup_app_l_Some.
  - unfold cons_ok in *. cbn. destruct (cons cf); try done.
    destruct Hco as (c&j&?&?&?). exists c, j. split_and!; try done. by apply lookup_app_l_Some.
  - intros j. rewrite List.filter_app, fmap_app, Ha. cbn [List.filter].
    destruct (decide (j = i)) as [->|Hj].
    + rewrite set_prod_eq, Hpend, Nat.eqb_refl. cbn. by rewrite app_nil_r.
    + rewrite set_prod_ne by done. rewrite (proj2 (Nat.eqb_neq i j)) by done. cbn. by rewrite app_nil_r.
Qed.

(** Overwriting the cell of a position [p] that thread [i] holds, with [i]
    in state [s'] afterwards. *)
Lemma overwrite_ok cf i x p c' s' acc :
  ok cf →
  prods cf i = PWrite x (Z.of_nat p) ∨ prods cf i = PPublish x (Z.of_nat p) →
  (∀ j, acc j ++ pending (set_prod (prods cf) i s' j) =
        accepted cf j ++ pending (prods cf j)) →
  data c' = x →
  (s' = PPublish x (Z.of_nat p) ∧ sequence c' = Z.of_nat p ∨
   s' = PIdle ∧ sequence c' = Z.of_nat (p + 1)) →
  ok (mkConfig (set_cell (mem cf) (Z.of_nat p) c') (set_prod (prods cf) i s') (cons cf)
    (claims cf) acc (popped cf)).
Proof.
  intros [Hl He Hd Ho Hp Hc Hpr Hco Ha] Hi Hacc Hdata Hs.
  assert (∃ c, length (popped cf) ≤ p < length (claims cf) ∧ claims cf !! p = Some (i, x) ∧
    at_pos (mem cf) p = Some c ∧ sequence c = Z.of_nat p) as (c&HpD&Hcl&Hat&Hseq).
  { specialize (Hpr i). unfold prod_ok in Hpr. destruct Hi as [Hi|Hi]; rewrite Hi in Hpr;
      destruct Hpr as (p0&c&Ep&?&?&?&?); assert (p0 = p) as -> by lia; eauto. }
  assert (length (popped cf) ≤ p < length (popped cf) + Capacity) as Hwin by lia.
  assert (∀ p', length (popped cf) ≤ p' < length (popped cf) + Capacity → p' ≠ p →
    at_pos (set_cell (mem cf) (Z.of_nat p) c') p' = at_pos (mem cf) p') as Hframe.
  { intros p' Hw Hne. rewrite at_set_cell by done. rewrite decide_False; [done|].
    intros E. by apply Hne, (window_eq (length (popped cf))). }
  assert (at_pos (set_cell (mem cf) (Z.of_nat p) c') p = Some c') as Hnew.
  { rewrite at_set_cell by done. by rewrite decide_True. }
  split; cbn [mem prods cons claims accepted popped]; try done.
  - cbn. by rewrite length_insert.
  - intros p' Hw. destruct (decide (p' = p)) as [->|Hne].
    + exists c'. split; [done|]. unfold cell_ok. cbn. rewrite Hcl, set_prod_eq.
      destruct Hs as [[-> ?]|[-> ?]]; [right; split; [done|]; by right|by left].
    + rewrite Hframe by done. destruct (Hc p' Hw) as (c1&Hat1&Hcell). exists c1. split; [done|].
      unfold cell_ok in *. cbn. destruct (claims cf !! p') as [[j y]|]; [|done].
      destruct Hcell as [?|[? Hwr]]; [by left|right]. split; [done|].
      destruct (decide (j = i)) as [->|]; [|by rewrite set_prod_ne]. exfalso. apply Hne.
      destruct Hwr as [Hwr|[Hwr _]], Hi as [Hi|Hi]; rewrite Hi in Hwr; try done;
        injection Hwr; lia.
  - intros j. destruct (decide (j = i)) as [->|Hj].
    + unfold prod_ok. cbn. rewrite set_prod_eq. destruct Hs as [[-> ?]|[-> ?]]; [|done].
      by exists p, c'.
    + specialize (Hpr j). unfold prod_ok in *. cbn. rewrite set_prod_ne by done.
      destruct (prods cf j); try done.
      all: destruct Hpr as (p1&c1&->&?&Hcl1&?&?); exists p1, c1; split_and!; try done; try lia;
        rewrite Hframe; [done|lia|]; intros ->; rewrite Hcl in Hcl1; congruence.
  - unfold cons_ok in *. cbn. destruct (cons cf); try done.
    + destruct Hco as (c1&Hat1&Hs1). exists c1. split; [|done]. rewrite Hframe; [done|lia|].
      intros E. rewrite <- E, Hat1 in Hat. injection Hat as ->. lia.
    + destruct Hco as (c1&j&Hat1&Hs1&?). exists c1, j. split_and!; try done.
      rewrite Hframe; [done|lia|]. intros E. rewrite <- E, Hat1 in Hat. injection Hat as ->. lia.
  - intros j. rewrite Ha. symmetry. apply Hacc.
Qed.

Lemma release_ok cf x :
  ok cf → bounded cf → cons cf = CRelease x →
  ok (mkConfig (mk (cells (set_cell (mem cf) (dequeue_pos (mem cf))
         (mkCell (u64 (dequeue_pos (mem cf) + Z.of_nat Capacity))
            (data (cell (mem cf) (dequeue_pos (mem cf)))))))
       (enqueue_pos (mem cf)) (u64 (dequeue_pos (mem cf) + 1)))
    (prods cf) CIdle (claims cf) (accepted cf) (popped cf ++ [x])).
Proof.
  intros [Hl He Hd Ho Hp Hc Hpr Hco Ha] Hb Hx. destruct mpsc_cap as [Hcp _]. unfold bounded in Hb.
  unfold cons_ok in Hco. rewrite Hx in Hco. destruct Hco as (c&i&Hat&Hs&Hcl).
  set (D := length (popped cf)) in *.
  assert (D < length (claims cf)) as HDE by (by eapply lookup_lt_Some).
  rewrite Hd, !u64_id by (unfold is_u64; lia). set (c' := mkCell _ _).
  assert (∀ p', S D ≤ p' < S D + Capacity →
    at_pos (set_cell (mem cf) (Z.of_nat D) c') p' =
    if decide (p' = D + Capacity) then Some c' else at_pos (mem cf) p') as Hframe.
  { intros p' Hw. rewrite at_set_cell by done. destruct (decide (p' = D + Capacity)) as [->|Hne].
    - rewrite decide_True; [done|]. rewrite <- (Nat.mul_1_l Capacity) at 1. apply Nat.Div0.mod_add.
    - rewrite decide_False; [done|]. intros E. symmetry in E. revert E. apply mod_window_ne; lia. }
  assert (length (popped cf ++ [x]) = S D) as HD' by (rewrite length_app; cbn; lia).
  split; cbn [mem prods cons claims accepted popped cells enqueue_pos dequeue_pos]; rewrite ?HD'.
  - cbn. by rewrite length_insert.
  - done.
  - lia.
  - lia.
  - rewrite (take_S_r _ _ x); [by rewrite <- Hp|]. rewrite list_lookup_fmap, Hcl. done.
  - intros p' Hw. unfold at_pos in Hframe |- *. cbn [cells] in *. rewrite Hframe by done.
    case_decide as E.
    + exists c'. split; [done|]. unfold cell_ok. cbn.
      rewrite (proj2 (lookup_ge_None _ p')) by lia. subst p'. lia.
    + destruct (Hc p') as (c1&Hat1&Hcell); [lia|]. exists c1. done.
  - intros j. specialize (Hpr j). unfold prod_ok in *. cbn. rewrite HD'. fold D in Hpr.
    destruct (prods cf j); try done.
    + destruct Hpr as (p1&->&?&?). exists p1. split_and!; [done|lia|lia].
    + destruct Hpr as (p1&c1&->&?&?&Hat1&?). exists p1, c1.
      assert (p1 ≠ D) by (intros ->; rewrite Hat in Hat1; injection Hat1 as ->; lia).
      split_and!; try done; try lia. unfold at_pos in Hframe |- *. cbn [cells] in *.
      rewrite Hframe by lia. rewrite decide_False by lia. done.
    + destruct Hpr as (p1&c1&->&?&?&Hat1&?). exists p1, c1.
      assert (p1 ≠ D) by (intros ->; rewrite Hat in Hat1; injection Hat1 as ->; lia).
      split_and!; try done; try lia. unfold at_pos in Hframe |- *. cbn [cells] in *.
      rewrite Hframe by lia. rewrite decide_False by lia. done.
  - done.
  - done.
Qed.

Lemma pstep_mpsc cf i q s r :
  ok cf → pstep (mem cf) (prods cf i) q s r →
  let cf' := mkConfig q (set_prod (prods cf) i s) (cons cf)
    (match r with PClaimed x => claims cf ++ [(i, x)] | _ => claims cf end)
    (match r with
     | PReturned true x => set_prod (accepted cf) i (accepted cf i ++ [x])
     | _ => accepted cf end) (popped cf) in
  bounded cf' → ok cf'.
Proof.
  intros Hok Hs. pose proof (ok_prods _ Hok i) as Hi. unfold prod_ok in Hi.
  inversion Hs; subst; match goal with H : _ = prods cf i |- _ => rewrite <- H in Hi; symmetry in H; rename H into Hst end;
    cbn [claims bounded]; unfold bounded; cbn [claims]; intros Hb.
  - apply local_ok; try done; [by rewrite Hst|]. unfold prod_ok. cbn. by rewrite set_prod_eq.
  - apply local_ok; try done; [by rewrite Hst|]. unfold prod_ok. cbn. rewrite set_prod_eq.
    exists (length (claims cf)). split; [apply Hok|done].
  - destruct Hi as (p&->&Hp). apply local_ok; try done; [by rewrite Hst|]. unfold prod_ok. cbn.
    rewrite set_prod_eq. exists p. split_and!; try done. by eapply check_window.
  - apply local_ok; try done; [by rewrite Hst|]. unfold prod_ok. cbn. by rewrite set_prod_eq.
  - apply local_ok; try done; [by rewrite Hst|]. unfold prod_ok. cbn. by rewrite set_prod_eq.
  - destruct Hi as (p&Ep&Hp&_). rewrite Ep in *. apply claim_ok; try done.
    rewrite length_app in Hb. cbn in Hb. lia.
  - apply local_ok; try done; [by rewrite Hst|]. unfold prod_ok. cbn. rewrite set_prod_eq.
    exists (length (claims cf)). split; [apply Hok|done].
  - destruct Hi as (p&c&->&?&?&Hat&Hseq). apply (overwrite_ok _ _ x); try done.
    + by left.
    + intros j. destruct (decide (j = i)) as [->|]; [|by rewrite set_prod_ne].
      by rewrite set_prod_eq, Hst.
    + left. split; [done|]. cbn. by rewrite (cell_at _ _ _ Hat).
  - destruct Hi as (p&c&->&HpD&Hcl&Hat&Hseq).
    assert (data c = x) as Hx.
    { destruct (ok_cells _ Hok p) as (c1&Hat1&Hcell); [pose proof (ok_order _ Hok); lia|].
      rewrite Hat in Hat1. injection Hat1 as <-. unfold cell_ok in Hcell. rewrite Hcl in Hcell.
      destruct Hcell as [[? ?]|[_ [Hw|[_ Hd]]]]; [lia|congruence|done]. }
    rewrite (cell_at _ _ _ Hat), Hx. destruct mpsc_cap as [Hcp _].
    pose proof (ok_order _ Hok).
    rewrite u64_id by (unfold is_u64; lia). apply (overwrite_ok _ _ x); try done.
    + by right.
    + intros j. destruct (decide (j = i)) as [->|]; [|by rewrite !set_prod_ne].
      rewrite !set_prod_eq, Hst. cbn. by rewrite app_nil_r.
    + right. split; [done|]. cbn. lia.
Qed.

Lemma cstep_mpsc cf q s r :
  ok cf → bounded cf → cstep (mem cf) (cons cf) q s r →
  ok (mkConfig q (prods cf) s (claims cf) (accepted cf)
    (match r with Some (Some x) => popped cf ++ [x] | _ => popped cf end)).
Proof.
  intros Hok Hb Hs. pose proof (ok_cons _ Hok) as Hc. unfold cons_ok in Hc.
  destruct mpsc_cap as [Hcp _]. pose proof (ok_order _ Hok) as Ho. pose proof Hb as Hb'.
  unfold bounded in Hb'.
  destruct (ok_cells _ Hok (length (popped cf))) as (c0&Hat0&Hcell0); [lia|].
  inversion Hs; subst; match goal with H : _ = cons cf |- _ => rewrite <- H in Hc; symmetry in H; rename H into Hst end.
  - destruct Hok. by split.
  - destruct Hok as [Hl He Hd Ho' Hp Hc' Hpr Hco Ha]. split; try done. unfold cons_ok. cbn.
    exists c0. split; [done|]. match goal with H : diff _ _ = 0%Z |- _ => rename H into Hdf end.
    rewrite Hd, (cell_at _ _ _ Hat0), u64_id in Hdf by (unfold is_u64; lia).
    destruct (cell_seq _ _ _ Hcell0) as [E|E]; rewrite E in *; [|done].
    assert (Z.of_nat (length (popped cf)) = Z.of_nat (length (popped cf)) + 1)%Z
      by (apply diff_zero; [lia|lia|done]). lia.
  - destruct Hc as (c&Hat&Hseq). rewrite Hat in Hat0. injection Hat0 as <-.
    pose proof Hok as [Hl He Hd Ho' Hp Hc' Hpr Hco Ha]. split; try done. unfold cons_ok. cbn.
    unfold cell_ok in Hcell0.
    destruct (claims cf !! length (popped cf)) as [[i x]|] eqn:Hcl; [|lia].
    destruct Hcell0 as [[_ Hx]|[? _]]; [|lia]. exists c, i.
    split_and!; [done|done|]. rewrite Hd, (cell_at _ _ _ Hat), Hx. done.
  - by apply release_ok.
Qed.

Lemma reachable_mpsc cf : reachable cf → bounded cf → ok cf.
Proof.
  induction 1 as [|c c' Hr IH Hs]; intros Hb; [apply mpsc_create_ok|].
  destruct Hs as [c i q s r Hp|c q s r Hc].
  - apply pstep_mpsc; [|done|done]. apply IH. unfold bounded in *. cbn in Hb.
    destruct r; [done| |done]. rewrite length_app in Hb. lia.
  - apply cstep_mpsc; [by apply IH|done|done].
Qed.

(** ** Properties *)

(** Under every interleaving of any number of producers and the consumer,
    the consumer receives the claimed items in position order, each once;
    every thread's claims are its accepted pushes in program order, plus at
    most the one it is still writing; and at most [Capacity] positions are
    outstanding. *)
Theorem mpsc_fifo cf :
  reachable cf → bounded cf →
  popped cf = take (length (popped cf)) (claims cf).*2 ∧
  length (popped cf) ≤ length (claims cf) ≤ length (popped cf) + Capacity ∧
  ∀ i, (List.filter (λ '(j, _), j =? i) (claims cf)).*2 = accepted cf i ++ pending (prods cf i).
Proof. intros Hr Hb. destruct (reachable_mpsc cf Hr Hb). done. Qed.

Lemma held_slot cf i x pos :
  ok cf → (prods cf i = PWrite x pos ∨ prods cf i = PPublish x pos) →
  ∃ p c, pos = Z.of_nat p ∧ length (popped cf) ≤ p < length (popped cf) + Capacity ∧
    claims cf !! p = Some (i, x) ∧ at_pos (mem cf) p = Some c ∧ sequence c = Z.of_nat p.
Proof.
  intros Hok Hi. pose proof (ok_prods _ Hok i) as Hp. unfold prod_ok in Hp.
  pose proof (ok_order _ Hok) as Ho.
  destruct Hi as [Hi|Hi]; rewrite Hi in Hp; destruct Hp as (p&c&->&?&?&?&?);
    exists p, c; split_and!; done || lia.
Qed.

(** No data race on the cells: two producers that are about to write have
    different slots, and so do a producer about to write and the consumer
    about to read. *)
Theorem mpsc_race_free cf i x pos :
  reachable cf → bounded cf → prods cf i = PWrite x pos →
  (∀ j y pos', j ≠ i → prods cf j = PWrite y pos' → slot pos ≠ slot pos') ∧
  (cons cf = CRead → slot pos ≠ slot (dequeue_pos (mem cf))).
Proof.
  intros Hr Hb Hi. pose proof (reachable_mpsc cf Hr Hb) as Hok.
  destruct (held_slot cf i x pos Hok ltac:(by left)) as (p&c&->&Hw&Hcl&Hat&Hseq). split.
  - intros j y pos' Hj Hpj.
    destruct (held_slot cf j y pos' Hok ltac:(by left)) as (p'&c'&->&Hw'&Hcl'&_&_).
    rewrite !mpsc_slot. intros E. apply (window_eq (length (popped cf))) in E as ->; [|done|done].
    congruence.
  - intros Hc. pose proof (ok_cons _ Hok) as Hco. unfold cons_ok in Hco. rewrite Hc in Hco.
    destruct Hco as (c'&Hat'&Hseq'). rewrite (ok_deq _ Hok), !mpsc_slot. intros E.
    unfold at_pos in Hat, Hat'. rewrite E, Hat' in Hat. injection Hat as ->.
    destruct (decide (p = length (popped cf))) as [->|]; [lia|].
    assert (p = length (popped cf)) by (apply (window_eq (length (popped cf))); [done|lia|done]).
    done.
Qed.

(** A pop that fails saw an unpublished position: nothing was claimed, or
    the thread that claimed the next position is still writing it. *)
Theorem mpsc_empty_honest cf q :
  reachable cf → bounded cf → cstep (mem cf) (cons cf) q CIdle (Some None) →
  match claims cf !! length (popped cf) with
  | None => popped cf = (claims cf).*2
  | Some (i, x) => ∃ pos, prods cf i = PWrite x pos ∨ prods cf i = PPublish x pos
  end.
Proof.
  intros Hr Hb Hs. pose proof (reachable_mpsc cf Hr Hb) as Hok. destruct mpsc_cap as [Hcp _].
  pose proof (ok_order _ Hok) as Ho. unfold bounded in Hb.
  destruct (ok_cells _ Hok (length (popped cf))) as (c&Hat&Hcell); [lia|].
  inversion Hs as [? Hd| | |]; subst.
  rewrite (ok_deq _ Hok), (cell_at _ _ _ Hat), u64_id in Hd by (unfold is_u64; lia).
  unfold cell_ok in Hcell. destruct (claims cf !! length (popped cf)) as [[i x]|] eqn:Hcl.
  - destruct Hcell as [[Hseq _]|[_ [Hw|[Hw _]]]]; [|by eauto..]. exfalso. apply Hd.
    apply diff_zero; lia.
  - apply lookup_ge_None in Hcl. rewrite (ok_popped _ Hok). apply take_ge. by rewrite length_fmap.
Qed.

End ring.

(** ** A concrete execution: one producer has claimed a position *)

Definition demo_claimed : config (T := nat) :=
  mkConfig (mk [mkCell 0 0; mkCell 1 0] 1 0) (set_prod (λ _, PIdle) 3 (PWrite 5 0)) CIdle
    [(3, 5)] (λ _, []) [].

(** The functions of a configuration are compared pointwise through [set_prod]. *)
Lemma demo_claimed_reachable :
  ∃ cf, reachable 0 2 cf ∧ claims cf = [(3, 5)] ∧ prods cf 3 = PWrite 5 0 ∧
    popped cf = [] ∧ cons cf = CIdle ∧ mem cf = mem demo_claimed.
Proof.
  set (c0 := mkConfig (create 0 2) (λ _, PIdle) CIdle [] (λ _, []) []).
  assert (reachable 0 2 c0) as R0 by constructor.
  pose proof (reach_next _ _ _ _ R0 (step_prod 0 2 c0 3 _ _ _ (p_start 0 2 _ 5))) as R1.
  cbn in R1. set (c1 := mkConfig _ _ _ _ _ _) in R1.
  pose proof (reach_next _ _ _ _ R1 (step_prod 0 2 c1 3 _ _ _ (p_load 0 2 _ 5))) as R2.
  cbn in R2. set (c2 := mkConfig _ _ _ _ _ _) in R2.
  assert (diff (sequence (cell 0 2 (mem c2) 0)) 0 = 0%Z) as E by reflexivity.
  pose proof (reach_next _ _ _ _ R2 (step_prod 0 2 c2 3 _ _ _ (p_free 0 2 _ 5 0 E))) as R3.
  cbn in R3. set (c3 := mkConfig _ _ _ _ _ _) in R3.
  assert (enqueue_pos (mem c3) = 0%Z) as E' by reflexivity.
  pose proof (reach_next _ _ _ _ R3 (step_prod 0 2 c3 3 _ _ _ (p_cas_ok 0 2 _ 5 0 E'))) as R4.
  eexists. split; [exact R4|]. split_and!; reflexivity.
Qed.

Lemma mpsc_fifo_witness :
  ∃ cf : config (T := nat), reachable 0 2 cf ∧
    (List.filter (λ '(j, _), j =? 3) (claims cf)).*2 = accepted cf 3 ++ [5].
Proof.
  destruct demo_claimed_reachable as (cf&Hr&Hc&Hp&_). exists cf. split; [exact Hr|].
  destruct (mpsc_fifo 0 2 1 eq_refl ltac:(lia) cf Hr) as (_&_&H).
  - unfold bounded. rewrite Hc. cbn. lia.
  - specialize (H 3). rewrite Hp in H. exact H.
Defined.

Lemma mpsc_race_free_witness :
  ∃ cf : config (T := nat), reachable 0 2 cf ∧ prods cf 3 = PWrite 5 0 ∧
    (∀ j y pos', j ≠ 3 → prods cf j = PWrite y pos' → slot 2 0 ≠ slot 2 pos').
Proof.
  destruct demo_claimed_reachable as (cf&Hr&Hc&Hp&_). exists cf.
  split; [exact Hr|]. split; [exact Hp|].
  apply (mpsc_race_free 0 2 1 eq_refl ltac:(lia) cf 3 5 0 Hr); [|exact Hp].
  unfold bounded. rewrite Hc. cbn. lia.
Defined.

Lemma mpsc_empty_honest_witness :
  ∃ (cf : config (T := nat)) q, cstep 0 2 (mem cf) (cons cf) q CIdle (Some None) ∧
    ∃ pos, prods cf 3 = PWrite 5 pos ∨ prods cf 3 = PPublish 5 pos.
Proof.
  destruct demo_claimed_reachable as (cf&Hr&Hc&Hp&Hpop&Hcons&Hm). exists cf, (mem cf).
  assert (cstep 0 2 (mem cf) (cons cf) (mem cf) CIdle (Some None)) as Hs.
  { rewrite Hcons, Hm. apply c_empty. vm_compute. discriminate. }
  split; [exact Hs|].
  pose proof (mpsc_empty_honest 0 2 1 eq_refl ltac:(lia) cf (mem cf) Hr) as H.
  rewrite Hc, Hpop in H. apply H; [|exact Hs]. unfold bounded. rewrite Hc. cbn. lia.
Defined.

End Mpsc.
