(* ===== verification/MpscWeak.v ===== *)
(** * The multi-producer ring on a weak memory
    (src/include/jane/concurrency/mpsc_ring_buffer.hpp)

    The steps of Mpsc.v again, on the memory of WeakMem.v with the memory
    orders of the source: the enqueue position is only ever accessed
    relaxed, a cell's sequence is stored with release and loaded with
    acquire, and the data are plain.  A producer may load an old position
    or an old sequence; the compare-exchange still hands out each position
    once, and the cell's own sequence orders the accesses to its data.

    The history of a cell's sequence is known in advance: message [2 k] is
    the cell made ready for lap [k], message [2 k + 1] its publication. *)

From S2P Require Import Prelude Mpsc WeakMem.
From stdpp Require Import base tactics numbers list.

Set Default Goal Selector "!".

Module MpscWeak.
Import Mpsc.

Inductive thread := Producer (i : nat) | Consumer.
Inductive loc := EnqueuePos | Sequence (i : nat).

#[export] Instance thread_eq_dec : EqDecision thread.
Proof. solve_decision. Defined.
#[export] Instance loc_eq_dec : EqDecision loc.
Proof. solve_decision. Defined.

Section ring.
Context {T : Type} (dflt : T) (Capacity : nat).

(** Memory, every producer's view, the consumer's view and its position. *)
Record t := mk {
  mem : memory thread loc nat T;
  pview : nat → view thread loc;
  cview : view thread loc;
  dequeue_pos : Z;
}.

Definition initial (l : loc) : Z := match l with EnqueuePos => 0 | Sequence i => Z.of_nat i end.

(** The ring is constructed before the threads start. *)
Definition create : t :=
  mk (mkMemory (λ l, [mkMessage (initial l) no_view]) (λ _, WeakMem.mkCell dflt (Consumer, 0) (λ _, 0)))
    (λ _, no_view) no_view 0.

Definition with_prod (q : t) (i : nat) (m : memory thread loc nat T) (V : view thread loc) : t :=
  mk m (set_prod (pview q) i V) (cview q) (dequeue_pos q).
Definition with_cons (q : t) (m : memory thread loc nat T) (V : view thread loc) : t :=
  mk m (pview q) V (dequeue_pos q).

Definition seq_loc (pos : Z) : loc := Sequence (slot Capacity pos).

(** Producer [i]. *)
Inductive pstep (i : nat) : t → pstate (T := T) → t → pstate (T := T) → presult (T := T) → Prop :=
  | p_start q x : pstep i q PIdle q (PLoad x) PNone
  | p_load q x pos V :
      loads (mem q) (pview q i) EnqueuePos Relaxed pos V →
      pstep i q (PLoad x) (with_prod q i (mem q) V) (PCheck x pos) PNone
  | p_free q x pos seq V :
      loads (mem q) (pview q i) (seq_loc pos) Acquire seq V → diff seq pos = 0%Z →
      pstep i q (PCheck x pos) (with_prod q i (mem q) V) (PCas x pos) PNone
  | p_full q x pos seq V :
      loads (mem q) (pview q i) (seq_loc pos) Acquire seq V → (diff seq pos < 0)%Z →
      pstep i q (PCheck x pos) (with_prod q i (mem q) V) PIdle (PReturned false x)
  | p_stale q x pos seq V :
      loads (mem q) (pview q i) (seq_loc pos) Acquire seq V → (0 < diff seq pos)%Z →
      pstep i q (PCheck x pos) (with_prod q i (mem q) V) (PLoad x) PNone
  | p_cas_ok q x pos m V :
      exchange (mem q) (pview q i) EnqueuePos pos (u64 (pos + 1)) = Some (m, V) →
      pstep i q (PCas x pos) (with_prod q i m V) (PWrite x pos) (PClaimed x)
  | p_cas_fail q x pos pos' V :
      loads (mem q) (pview q i) EnqueuePos Relaxed pos' V →
      pstep i q (PCas x pos) (with_prod q i (mem q) V) (PCheck x pos') PNone
  | p_write q x pos m V :
      write_plain (mem q) (Producer i) (pview q i) (slot Capacity pos) x = (m, V) →
      pstep i q (PWrite x pos) (with_prod q i m V) (PPublish x pos) PNone
  | p_publish q x pos m V :
      store (mem q) (pview q i) (seq_loc pos) Release (u64 (pos + 1)) = (m, V) →
      pstep i q (PPublish x pos) (with_prod q i m V) PIdle (PReturned true x).

Inductive cstep : t → cstate (T := T) → t → cstate (T := T) → option (option T) → Prop :=
  | c_empty q seq V :
      loads (mem q) (cview q) (seq_loc (dequeue_pos q)) Acquire seq V →
      diff seq (u64 (dequeue_pos q + 1)) ≠ 0%Z →
      cstep q CIdle (with_cons q (mem q) V) CIdle (Some None)
  | c_ready q seq V :
      loads (mem q) (cview q) (seq_loc (dequeue_pos q)) Acquire seq V →
      diff seq (u64 (dequeue_pos q + 1)) = 0%Z →
      cstep q CIdle (with_cons q (mem q) V) CRead None
  | c_read q x m V :
      read_plain (mem q) Consumer (cview q) (slot Capacity (dequeue_pos q)) = (x, m, V) →
      cstep q CRead (with_cons q m V) (CRelease x) None
  | c_release q x m V :
      store (mem q) (cview q) (seq_loc (dequeue_pos q)) Release
        (u64 (dequeue_pos q + Z.of_nat Capacity)) = (m, V) →
      cstep q (CRelease x) (mk m (pview q) V (u64 (dequeue_pos q + 1))) CIdle (Some (Some x)).

Record config := mkConfig {
  ring : t;
  prods : nat → pstate (T := T);
  cons : cstate (T := T);
  claims : list (nat * T);
  accepted : nat → list T;
  popped : list T;
}.

Inductive step : config → config → Prop :=
  | step_prod c i q s r :
      pstep i (ring c) (prods c i) q s r →
      step c (mkConfig q (set_prod (prods c) i s) (cons c)
        (match r with PClaimed x => claims c ++ [(i, x)] | _ => claims c end)
        (match r with
         | PReturned true x => set_prod (accepted c) i (accepted c i ++ [x])
         | _ => accepted c end)
        (popped c))
  | step_cons c q s r :
      cstep (ring c) (cons c) q s r →
      step c (mkConfig q (prods c) s (claims c) (accepted c)
        (match r with Some (Some x) => popped c ++ [x] | _ => popped c end)).

Inductive reachable : config → Prop :=
  | reach_start : reachable (mkConfig create (λ _, PIdle) CIdle [] (λ _, []) [])
  | reach_next c c' : reachable c → step c c' → reachable c'.

(** The plain access a thread is about to make conflicts with nothing, and
    its store has one place in the modification order. *)
Definition accesses_safe (c : config) : Prop :=
  (∀ i x pos, prods c i = PWrite x pos →
     write_safe (pview (ring c) i) (WeakMem.cells (mem (ring c)) (slot Capacity pos))) ∧
  (∀ i x pos, prods c i = PPublish x pos →
     store_last (mem (ring c)) (pview (ring c) i) (seq_loc pos)) ∧
  (cons c = CRead →
     read_safe (cview (ring c)) (WeakMem.cells (mem (ring c)) (slot Capacity (dequeue_pos (ring c))))) ∧
  (∀ x, cons c = CRelease x →
     store_last (mem (ring c)) (cview (ring c)) (seq_loc (dequeue_pos (ring c)))).

(** ** The invariant *)

Context (n : nat) (Hcap : Capacity = 2 ^ n) (Hn : 1 ≤ n < 62).

(** The history and the data of the cell of position [p]. *)
Definition hist_at (q : t) (p : nat) : list (message thread loc) :=
  hist (mem q) (Sequence (p mod Capacity)).
Definition data_at (q : t) (p : nat) : WeakMem.cell thread T := WeakMem.cells (mem q) (p mod Capacity).

(** The message that makes the cell ready for position [p]. *)
Definition ready (p : nat) : nat := 2 * (p / Capacity).

(** The value of message [k] of cell [i]. *)
Definition seq_value (i k : nat) : nat := i + k / 2 * Capacity + k mod 2.

(** The latest message of a history has a view with [P]. *)
Definition latest (h : list (message thread loc)) (P : view thread loc → Prop) : Prop :=
  ∃ msg, last h = Some msg ∧ P (m_view msg).

Definition writing (s : pstate (T := T)) (V : view thread loc) (p : nat) (x : T)
    (h : list (message thread loc)) (c : WeakMem.cell thread T) : Prop :=
  (s = PWrite x (Z.of_nat p) ∧ latest h (λ W, write_safe W c)) ∨
  (s = PPublish x (Z.of_nat p) ∧ c_value c = x ∧ read_safe V c).

Definition cell_ok (cf : config) (p : nat) : Prop :=
  let h := hist_at (ring cf) p in
  let c := data_at (ring cf) p in
  match claims cf !! p with
  | Some (i, x) =>
      (length h = S (S (ready p)) ∧ c_value c = x ∧ latest h (λ W, read_safe W c)) ∨
      (length h = S (ready p) ∧ writing (prods cf i) (pview (ring cf) i) p x h c)
  | None => length h = S (ready p) ∧ latest h (λ W, write_safe W c)
  end.

(** The thread has acquired the message that makes the cell ready for [p]. *)
Definition acquired (q : t) (V : view thread loc) (p : nat) : Prop :=
  ∃ msg, hist_at q p !! ready p = Some msg ∧ ready p ≤ seen V (Sequence (p mod Capacity)) ∧
    ∀ th, clk (m_view msg) th ≤ clk V th.

Definition prod_ok (cf : config) (i : nat) : Prop :=
  let E := length (claims cf) in
  let D := length (popped cf) in
  match prods cf i with
  | PIdle | PLoad _ => True
  | PCheck _ pos => ∃ p, pos = Z.of_nat p ∧ p ≤ E
  | PCas _ pos => ∃ p, pos = Z.of_nat p ∧ p ≤ E ∧ acquired (ring cf) (pview (ring cf) i) p
  | PWrite x pos | PPublish x pos =>
      ∃ p, pos = Z.of_nat p ∧ D ≤ p < E ∧ claims cf !! p = Some (i, x) ∧
        acquired (ring cf) (pview (ring cf) i) p ∧ length (hist_at (ring cf) p) = S (ready p)
  end.

Definition cons_ok (cf : config) : Prop :=
  let D := length (popped cf) in
  let received := length (hist_at (ring cf) D) = S (S (ready D)) ∧
    S (ready D) ≤ seen (cview (ring cf)) (Sequence (D mod Capacity)) ∧
    read_safe (cview (ring cf)) (data_at (ring cf) D) in
  match cons cf with
  | CIdle => True
  | CRead => received
  | CRelease x => received ∧ ∃ i, claims cf !! D = Some (i, x)
  end.

Record ok (cf : config) : Prop := {
  ok_enq : length (hist (mem (ring cf)) EnqueuePos) = S (length (claims cf));
  ok_pos k msg : hist (mem (ring cf)) EnqueuePos !! k = Some msg → m_value msg = Z.of_nat k;
  ok_deq : dequeue_pos (ring cf) = Z.of_nat (length (popped cf));
  ok_order : length (popped cf) ≤ length (claims cf) ≤ length (popped cf) + Capacity;
  ok_popped : popped cf = take (length (popped cf)) (claims cf).*2;
  ok_seq i k msg : i < Capacity → hist (mem (ring cf)) (Sequence i) !! k = Some msg →
    m_value msg = Z.of_nat (seq_value i k);
  ok_reads i : (∀ j, c_reads (WeakMem.cells (mem (ring cf)) i) (Producer j) = 0) ∧
    c_reads (WeakMem.cells (mem (ring cf)) i) Consumer ≤ clk (cview (ring cf)) Consumer;
  ok_cells p : length (popped cf) ≤ p < length (popped cf) + Capacity → cell_ok cf p;
  ok_prods i : prod_ok cf i;
  ok_cons : cons_ok cf;
  ok_accepted i :
    (List.filter (λ '(j, _), j =? i) (claims cf)).*2 = accepted cf i ++ pending (prods cf i);
}.

Definition bounded (cf : config) : Prop := (Z.of_nat (length (claims cf)) < 2 ^ 63)%Z.

Lemma weak_cap : 1 < Capacity ∧ (Z.of_nat Capacity < 2 ^ 62)%Z.
Proof. destruct (mpsc_cap Capacity n Hcap Hn) as [? _]. lia. Qed.

Lemma weak_slot p : slot Capacity (Z.of_nat p) = p mod Capacity.
Proof. apply (mpsc_slot Capacity n Hcap Hn). Qed.

Lemma weak_seq_loc p : seq_loc (Z.of_nat p) = Sequence (p mod Capacity).
Proof. unfold seq_loc. by rewrite weak_slot. Qed.

Lemma weak_mod_lt p : p mod Capacity < Capacity.
Proof. apply Nat.mod_upper_bound. destruct weak_cap. lia. Qed.

(** A cell's sequence tells the position it is ready for, or has published. *)
Lemma seq_value_inv p k r :
  r < 2 → seq_value (p mod Capacity) k = p + r → k = ready p + r.
Proof.
  unfold seq_value, ready. intros Hr E. destruct weak_cap as [Hc _].
  pose proof (Nat.div_mod_eq p Capacity). pose proof (Nat.div_mod_eq k 2).
  pose proof (Nat.mod_upper_bound k 2 ltac:(lia)).
  destruct (Nat.div_mod_unique Capacity (k / 2) (p / Capacity) (k mod 2) r); lia.
Qed.

Lemma seq_value_at p r : r < 2 → seq_value (p mod Capacity) (ready p + r) = p + r.
Proof.
  unfold seq_value, ready. intros Hr. pose proof (Nat.div_mod_eq p Capacity) as E.
  replace (2 * (p / Capacity) + r) with (r + p / Capacity * 2) by lia.
  rewrite Nat.div_add, Nat.Div0.mod_add, (Nat.div_small r), (Nat.mod_small r) by lia. lia.
Qed.

(** The next lap. *)
Lemma ready_lap p : ready (p + Capacity) = S (S (ready p)).
Proof.
  unfold ready. replace (p + Capacity) with (p + 1 * Capacity) by lia.
  rewrite Nat.div_add; [lia|]. destruct weak_cap. lia.
Qed.

Lemma lap_mod p : (p + Capacity) mod Capacity = p mod Capacity.
Proof. rewrite <- (Nat.mul_1_l Capacity) at 1. apply Nat.Div0.mod_add. Qed.

Lemma weak_create_ok : ok (mkConfig create (λ _, PIdle) CIdle [] (λ _, []) []).
Proof.
  split; cbn; try done; try lia.
  - intros [|k] msg; [by intros [= <-]|done].
  - intros i [|k] msg _; [|done]. intros [= <-]. cbn. unfold seq_value.
    change (0 / 2) with 0. change (0 mod 2) with 0. lia.
  - intros p Hp. unfold cell_ok, hist_at, data_at. cbn. unfold ready.
    rewrite Nat.div_small by lia. split; [done|].
    eexists. split; [done|]. split; [unfold read_safe; cbn; lia|intros; cbn; lia].
Qed.

(** ** What the histories bound *)

(** A cell is at most one lap behind its position in the window. *)
Lemma hist_bound cf p :
  ok cf → ∃ p', length (popped cf) ≤ p' < length (popped cf) + Capacity ∧
    p' mod Capacity = p mod Capacity ∧
    S (ready p') ≤ length (hist_at (ring cf) p) ≤ S (S (ready p')).
Proof.
  intros Hok. destruct (window_pos Capacity n Hcap Hn (length (popped cf)) p) as (p'&Hw&Hm).
  exists p'. split; [done|]. split; [done|].
  pose proof (ok_cells _ Hok p' Hw) as Hc. unfold cell_ok, hist_at in *. rewrite Hm in Hc.
  destruct (claims cf !! p') as [[i x]|]; [destruct Hc as [[E _]|[E _]]|destruct Hc as [E _]]; lia.
Qed.

(** Whoever has seen the cell ready for [p] knows that [p] is in the window. *)
Lemma ready_window cf p msg :
  ok cf → hist_at (ring cf) p !! ready p = Some msg → p < length (popped cf) + Capacity.
Proof.
  intros Hok Hm%lookup_lt_Some. destruct (hist_bound cf p Hok) as (p'&Hw&Em&Hl).
  unfold ready in *. pose proof (Nat.div_mod_eq p Capacity). pose proof (Nat.div_mod_eq p' Capacity).
  assert (p / Capacity ≤ p' / Capacity) by lia. nia.
Qed.

(** A loaded sequence, and the position it is compared with. *)
Lemma load_seq cf p V v V' :
  ok cf → bounded cf → loads (mem (ring cf)) V (seq_loc (Z.of_nat p)) Acquire v V' →
  ∃ k msg, hist_at (ring cf) p !! k = Some msg ∧ v = Z.of_nat (seq_value (p mod Capacity) k) ∧
    (0 ≤ v < 2 ^ 64)%Z ∧ k ≤ seen V' (Sequence (p mod Capacity)) ∧
    grows V V' ∧ ∀ th, clk (m_view msg) th ≤ clk V' th.
Proof.
  intros Hok Hb (k&msg&Hk&Hm&->&->). rewrite weak_seq_loc in Hm |- *.
  pose proof (ok_seq _ Hok _ _ _ (weak_mod_lt p) Hm) as Hv. exists k, msg.
  split; [done|]. split; [done|]. split_and!; try apply load_view_seen_eq.
  - lia.
  - rewrite Hv. apply lookup_lt_Some in Hm as Hlt. unfold bounded in Hb.
    destruct (hist_bound cf p Hok) as (p'&Hw&Em&Hl). unfold hist_at in Hl.
    pose proof (ok_order _ Hok). destruct weak_cap as [Hc1 Hc2].
    assert (seq_value (p mod Capacity) k ≤ p' + 1); [|lia].
    unfold seq_value, ready in *. pose proof (Nat.div_mod_eq p' Capacity).
    pose proof (Nat.div_mod_eq k 2). pose proof (Nat.mod_upper_bound k 2 ltac:(lia)).
    assert (k / 2 ≤ p' / Capacity) by lia. nia.
  - apply load_grows.
  - intros th. apply acquire_clk.
Qed.

(** A relaxed load of the enqueue position may be old, never too new. *)
Lemma load_pos cf V v V' :
  ok cf → loads (mem (ring cf)) V EnqueuePos Relaxed v V' →
  (∃ p, v = Z.of_nat p ∧ p ≤ length (claims cf)) ∧ grows V V'.
Proof.
  intros Hok (k&msg&Hk&Hm&->&->). split; [|apply load_grows]. exists k.
  split; [by apply (ok_pos _ Hok)|]. apply lookup_lt_Some in Hm. rewrite (ok_enq _ Hok) in Hm. lia.
Qed.

(** ** Frames *)

(** The thread holds position [p]. *)
Definition holds_at (s : pstate (T := T)) (p : nat) : Prop :=
  ∃ x, s = PWrite x (Z.of_nat p) ∨ s = PPublish x (Z.of_nat p).

Lemma acquired_frame q q' V V' p :
  acquired q V p → hist_at q p `prefix_of` hist_at q' p → grows V V' → acquired q' V' p.
Proof.
  intros (msg&Hm&Hs&Hc) Hp [Gs Gc]. exists msg. split_and!.
  - by eapply prefix_lookup_Some.
  - etrans; [done|apply Gs].
  - intros th. etrans; [apply Hc|apply Gc].
Qed.

(** A cell that a step does not touch stays as it is, provided the thread
    that holds its position does. *)
Lemma cell_frame cf cf' p :
  cell_ok cf p → hist_at (ring cf') p = hist_at (ring cf) p →
  data_at (ring cf') p = data_at (ring cf) p → claims cf' !! p = claims cf !! p →
  (∀ j, holds_at (prods cf j) p → prods cf' j = prods cf j ∧
     grows (pview (ring cf) j) (pview (ring cf') j)) →
  cell_ok cf' p.
Proof.
  unfold cell_ok. intros Hc -> -> -> Hj. destruct (claims cf !! p) as [[i x]|]; [|done].
  destruct Hc as [?|[Hl Hw]]; [by left|right]. split; [done|].
  destruct (Hj i) as [-> Hg].
  - exists x. destruct Hw as [[? _]|[? _]]; eauto.
  - destruct Hw as [?|(?&?&?)]; [by left|right]. split_and!; try done. by eapply read_safe_grows.
Qed.

Lemma holds_pending s p : holds_at s p → pending s ≠ [].
Proof. by intros (x&[-> | ->]). Qed.

Lemma prod_frame cf cf' j :
  prod_ok cf j → prods cf' j = prods cf j → grows (pview (ring cf) j) (pview (ring cf') j) →
  claims cf `prefix_of` claims cf' →
  (∀ p, hist_at (ring cf) p `prefix_of` hist_at (ring cf') p) →
  (∀ p, holds_at (prods cf j) p → length (popped cf) ≤ p < length (claims cf) →
     length (hist_at (ring cf) p) = S (ready p) → claims cf !! p = (j,.) <$> hd_error (pending (prods cf j)) →
     hist_at (ring cf') p = hist_at (ring cf) p ∧ length (popped cf') ≤ p) →
  prod_ok cf' j.
Proof.
  unfold prod_ok. intros Hj -> Hg Hcl Hh Hp. pose proof (prefix_length _ _ Hcl) as Hlen.
  destruct (prods cf j) as [|y|y pos|y pos|y pos|y pos]; try done.
  - destruct Hj as (p&->&?). exists p. split; [done|lia].
  - destruct Hj as (p&->&?&?). exists p. split_and!; [done|lia|]. by eapply acquired_frame.
  - destruct Hj as (p&->&?&Hc&Hq&Hl). destruct (Hp p) as [E ?]; [exists y; by left|done|done|done|].
    exists p. rewrite E. split_and!; try done; [lia|by eapply prefix_lookup_Some|].
    eapply acquired_frame; [done|by rewrite E|done].
  - destruct Hj as (p&->&?&Hc&Hq&Hl). destruct (Hp p) as [E ?]; [exists y; by right|done|done|done|].
    exists p. rewrite E. split_and!; try done; [lia|by eapply prefix_lookup_Some|].
    eapply acquired_frame; [done|by rewrite E|done].
Qed.

(** While the consumer is between two accesses, nobody else touches its cell. *)
Lemma cons_frame cf cf' :
  cons_ok cf → cons cf' = cons cf → cview (ring cf') = cview (ring cf) → popped cf' = popped cf →
  claims cf `prefix_of` claims cf' →
  (length (hist_at (ring cf) (length (popped cf))) = S (S (ready (length (popped cf)))) →
   hist_at (ring cf') (length (popped cf)) = hist_at (ring cf) (length (popped cf)) ∧
   data_at (ring cf') (length (popped cf)) = data_at (ring cf) (length (popped cf))) →
  cons_ok cf'.
Proof.
  unfold cons_ok. intros Hc -> -> -> Hcl Hh. destruct (cons cf); [done| |].
  - destruct Hc as (Hl&?&?). destruct (Hh Hl) as [-> ->]. done.
  - destruct Hc as ((Hl&?&?)&j&?). destruct (Hh Hl) as [-> ->]. split; [done|]. exists j.
    by eapply prefix_lookup_Some.
Qed.

(** A producer without a claim moves to a state without one: nothing changes
    but what it knows. *)
Lemma weak_local cf i s' q' :
  ok cf → mem q' = mem (ring cf) → cview q' = cview (ring cf) →
  dequeue_pos q' = dequeue_pos (ring cf) →
  (∀ j, grows (pview (ring cf) j) (pview q' j)) →
  pending (prods cf i) = [] → pending s' = [] →
  let cf' := mkConfig q' (set_prod (prods cf) i s') (cons cf) (claims cf) (accepted cf) (popped cf) in
  prod_ok cf' i → ok cf'.
Proof.
  intros Hok Em Ec Ed Hg H1 H2 cf' Hi. destruct Hok as [He Hps Hd Ho Hp Hs Hr Hc Hpr Hco Ha].
  assert (∀ p, hist_at q' p = hist_at (ring cf) p) as Eh by (intros; unfold hist_at; by rewrite Em).
  assert (∀ p, data_at q' p = data_at (ring cf) p) as Edt by (intros; unfold data_at; by rewrite Em).
  split; subst cf'; cbn [ring prods cons claims accepted popped]; rewrite ?Em, ?Ec, ?Ed; try done.
  - intros p Hw. eapply cell_frame; [by apply Hc|apply Eh|apply Edt|done|].
    intros j Hj. cbn. split; [|apply Hg]. destruct (decide (j = i)) as [->|]; [|by apply set_prod_ne].
    by apply holds_pending in Hj.
  - intros j. destruct (decide (j = i)) as [->|]; [done|].
    eapply prod_frame; [by apply Hpr|by apply set_prod_ne|apply Hg|done| |].
    + intros p. cbn. by rewrite Eh.
    + intros p _ ? _ _. cbn. split; [apply Eh|lia].
  - eapply cons_frame; [done|done|done|done|done|]. intros _. cbn. by rewrite Eh, Edt.
  - intros j. rewrite Ha. destruct (decide (j = i)) as [->|]; [|by rewrite set_prod_ne].
    by rewrite set_prod_eq, H1, H2.
Qed.

(** Two positions of the window share a cell only if they are equal. *)
Lemma window_ne cf p p' :
  length (popped cf) ≤ p < length (popped cf) + Capacity →
  length (popped cf) ≤ p' < length (popped cf) + Capacity → p' ≠ p →
  p' mod Capacity ≠ p mod Capacity.
Proof. intros H1 H2 Hne E. apply Hne. by eapply window_eq. Qed.

Lemma set_prod_grows (q : t) i V j :
  grows (pview q i) V → grows (pview q j) (set_prod (pview q) i V j).
Proof. intros. unfold set_prod. case_decide; [by subst|done]. Qed.

(** ** The steps that write *)

Lemma weak_claim cf i x p m V :
  ok cf → bounded cf → prods cf i = PCas x (Z.of_nat p) → p ≤ length (claims cf) →
  acquired (ring cf) (pview (ring cf) i) p →
  exchange (mem (ring cf)) (pview (ring cf) i) EnqueuePos (Z.of_nat p) (u64 (Z.of_nat p + 1)) =
    Some (m, V) →
  ok (mkConfig (with_prod (ring cf) i m V) (set_prod (prods cf) i (PWrite x (Z.of_nat p))) (cons cf)
    (claims cf ++ [(i, x)]) (accepted cf) (popped cf)).
Proof.
  intros Hok Hb Hi Hp Hacq Hx. pose proof Hok as [He Hps Hd Ho Hpo Hs Hr Hc Hpr Hco Ha].
  unfold exchange in Hx. destruct (last _) as [old|] eqn:Hl; [|done].
  destruct (m_value old =? Z.of_nat p)%Z eqn:Ev; [|done]. injection Hx as <- <-.
  rewrite last_lookup, He in Hl. cbn [pred] in Hl. bool_to_prop. rewrite (Hps _ _ Hl) in Ev.
  assert (p = length (claims cf)) as -> by lia. set (E := length (claims cf)) in *.
  assert (E < length (popped cf) + Capacity) as HE.
  { destruct Hacq as (msg&Hm&_). by eapply ready_window. }
  pose proof (Hc E ltac:(lia)) as HcE. unfold cell_ok in HcE.
  rewrite (proj2 (lookup_ge_None _ _)) in HcE by done. destruct HcE as [HlE HwE].
  pose proof (see_grows EnqueuePos (S E) (pview (ring cf) i)) as Hg.
  unfold bounded in Hb.
  assert (length (claims cf ++ [(i, x)]) = S E) as El by (rewrite length_app; cbn; lia).
  rewrite He. split; cbn [ring prods cons claims accepted popped]; try done.
  - cbn. by rewrite decide_True, length_app, He, El, Nat.add_1_r by done.
  - cbn. rewrite decide_True by done. intros k msg [[_ Hk]|[-> <-]]%lookup_snoc_Some; [by apply Hps|].
    rewrite He. cbn. rewrite u64_id by (unfold is_u64; lia). lia.
  - rewrite El. lia.
  - rewrite fmap_app, take_app_le by (rewrite length_fmap; lia). done.
  - intros p' Hw. destruct (decide (p' = E)) as [->|Hne].
    + unfold cell_ok. cbn. rewrite lookup_app_r, Nat.sub_diag by done. cbn. right.
      split; [exact HlE|]. left. by rewrite set_prod_eq.
    + eapply cell_frame; [by apply Hc|done|done| |].
      * cbn. destruct (decide (p' < E)); [by apply lookup_app_l|].
        rewrite !(proj2 (lookup_ge_None _ _)); [done|lia|lia].
      * intros j Hj. cbn. split; [|by apply set_prod_grows]. destruct (decide (j = i)) as [->|];
          [|by apply set_prod_ne]. apply holds_pending in Hj. by rewrite Hi in Hj.
  - intros j. destruct (decide (j = i)) as [->|].
    + unfold prod_ok. cbn. rewrite !set_prod_eq, El. exists E.
      split_and!; [done|lia|lia| | |done].
      * by rewrite lookup_app_r, Nat.sub_diag by done.
      * by eapply acquired_frame.
    + eapply prod_frame; [by apply Hpr|by apply set_prod_ne|by apply set_prod_grows| |done|].
      * by apply prefix_app_r.
      * intros p' _ ? _ _. cbn. split; [done|lia].
  - eapply cons_frame; [done|done|done|done|by apply prefix_app_r|done].
  - intros j. rewrite List.filter_app, fmap_app, Ha. cbn [List.filter].
    destruct (decide (j = i)) as [->|Hj].
    + rewrite set_prod_eq, Hi, Nat.eqb_refl. cbn. by rewrite app_nil_r.
    + rewrite set_prod_ne by done. rewrite (proj2 (Nat.eqb_neq i j)) by done. cbn. by rewrite app_nil_r.
Qed.

(** What is known of the thread that holds a position. *)
Lemma weak_held cf i x pos :
  ok cf → prods cf i = PWrite x pos ∨ prods cf i = PPublish x pos →
  ∃ p, pos = Z.of_nat p ∧ length (popped cf) ≤ p < length (claims cf) ∧
    claims cf !! p = Some (i, x) ∧ acquired (ring cf) (pview (ring cf) i) p ∧
    length (hist_at (ring cf) p) = S (ready p) ∧
    writing (prods cf i) (pview (ring cf) i) p x (hist_at (ring cf) p) (data_at (ring cf) p).
Proof.
  intros Hok Hi. pose proof (ok_prods _ Hok i) as Hp. unfold prod_ok in Hp.
  assert (∃ p, pos = Z.of_nat p ∧ length (popped cf) ≤ p < length (claims cf) ∧
    claims cf !! p = Some (i, x) ∧ acquired (ring cf) (pview (ring cf) i) p ∧
    length (hist_at (ring cf) p) = S (ready p)) as (p&->&Hw&Hc&Hacq&Hl)
    by (destruct Hi as [Hi|Hi]; rewrite Hi in Hp; exact Hp).
  exists p. split_and!; try done; try lia. pose proof (ok_order _ Hok).
  pose proof (ok_cells _ Hok p ltac:(lia)) as Hcell. unfold cell_ok in Hcell. rewrite Hc in Hcell.
  destruct Hcell as [[? _]|[_ ?]]; [lia|done].
Qed.

(** A thread holds one position. *)
Lemma holds_one s p x p' :
  s = PWrite x (Z.of_nat p) ∨ s = PPublish x (Z.of_nat p) → holds_at s p' → p' = p.
Proof. by intros [-> | ->] (y&[H|H]); inversion H; lia. Qed.

Lemma weak_write cf i x pos m V :
  ok cf → prods cf i = PWrite x pos →
  write_plain (mem (ring cf)) (Producer i) (pview (ring cf) i) (slot Capacity pos) x = (m, V) →
  ok (mkConfig (with_prod (ring cf) i m V) (set_prod (prods cf) i (PPublish x pos)) (cons cf)
    (claims cf) (accepted cf) (popped cf)).
Proof.
  intros Hok Hi Hw. destruct (weak_held _ _ _ _ Hok ltac:(by left)) as (p&->&Hp&Hcl&Hacq&Hl&_).
  pose proof Hok as [He Hps Hd Ho Hpo Hs Hr Hc Hpr Hco Ha].
  unfold write_plain in Hw. injection Hw as <- <-. rewrite weak_slot.
  pose proof (tick_grows (Producer i) (pview (ring cf) i)) as Hg.
  assert (∀ p', length (popped cf) ≤ p' < length (popped cf) + Capacity → p' ≠ p →
    p' mod Capacity ≠ p mod Capacity) as Hne by (intros p' Hw' ?; apply (window_ne cf); done || lia).
  split; cbn [ring prods cons claims accepted popped]; try done.
  - intros k. cbn. case_decide; [subst k|]; apply Hr.
  - intros p' Hw. destruct (decide (p' = p)) as [->|Hpp].
    + unfold cell_ok, data_at. cbn. rewrite Hcl, decide_True, !set_prod_eq by done. right.
      split; [done|]. right. split_and!; [done..|]. unfold read_safe. cbn. by rewrite decide_True.
    + eapply cell_frame; [by apply Hc|done| |done|].
      * unfold data_at. cbn. by rewrite decide_False by auto.
      * intros j Hj. cbn. split; [|by apply set_prod_grows].
        destruct (decide (j = i)) as [->|]; [|by apply set_prod_ne].
        destruct Hpp. eapply holds_one; [left|]; done.
  - intros j. destruct (decide (j = i)) as [->|].
    + unfold prod_ok. cbn. rewrite !set_prod_eq. exists p. split_and!; try done; try lia.
      by eapply acquired_frame.
    + eapply prod_frame; [by apply Hpr|by apply set_prod_ne|by apply set_prod_grows|done|done|].
      intros p' _ ? _ _. cbn. split; [done|lia].
  - eapply cons_frame; [done|done|done|done|done|]. intros HD. cbn. split; [done|].
    unfold data_at. cbn. rewrite decide_False; [done|]. apply Hne; [lia|]. intros E. rewrite E in HD. lia.
  - intros j. rewrite Ha. destruct (decide (j = i)) as [->|]; [|by rewrite set_prod_ne].
    by rewrite set_prod_eq, Hi.
Qed.

Lemma last_snoc_msg (h : list (message thread loc)) msg (P : view thread loc → Prop) :
  P (m_view msg) → latest (h ++ [msg]) P.
Proof. intros. exists msg. by rewrite last_snoc. Qed.

Lemma weak_publish cf i x pos m V :
  ok cf → bounded cf → prods cf i = PPublish x pos →
  store (mem (ring cf)) (pview (ring cf) i) (seq_loc pos) Release (u64 (pos + 1)) = (m, V) →
  ok (mkConfig (with_prod (ring cf) i m V) (set_prod (prods cf) i PIdle) (cons cf)
    (claims cf) (set_prod (accepted cf) i (accepted cf i ++ [x])) (popped cf)).
Proof.
  intros Hok Hb Hi Hst. destruct (weak_held _ _ _ _ Hok ltac:(by right)) as (p&->&Hp&Hcl&Hacq&Hl&Hwr).
  pose proof Hok as [He Hps Hd Ho Hpo Hs Hr Hc Hpr Hco Ha].
  destruct Hwr as [[Hwr _]|(_&Hval&Hsafe)]; [congruence|].
  unfold store in Hst. rewrite weak_seq_loc in Hst. injection Hst as <- <-. unfold bounded in Hb.
  fold (hist_at (ring cf) p). set (V := see _ _ (pview (ring cf) i)).
  assert (grows (pview (ring cf) i) V) as Hg by apply see_grows.
  assert (∀ p', length (popped cf) ≤ p' < length (popped cf) + Capacity → p' ≠ p →
    p' mod Capacity ≠ p mod Capacity) as Hne by (intros p' Hw' ?; apply (window_ne cf); done || lia).
  set (msg := mkMessage _ V). set (q' := with_prod _ _ _ _).
  assert (∀ p', hist_at q' p' = if decide (p' mod Capacity = p mod Capacity)
    then hist_at (ring cf) p ++ [msg] else hist_at (ring cf) p') as Eh.
  { intros p'. unfold hist_at, q'. cbn. case_decide as E; [injection E as ->; by rewrite decide_True|].
    by rewrite decide_False by congruence. }
  split; cbn [ring prods cons claims accepted popped]; try done.
  - intros k j msg' Hk. unfold q'. cbn. case_decide as E; [|by apply Hs]. injection E as ->.
    intros [[_ Hj]|[-> <-]]%lookup_snoc_Some; [by apply Hs|]. rewrite Hl. cbn [msg m_value].
    rewrite u64_id by (unfold is_u64; lia). pose proof (seq_value_at p 1 ltac:(lia)) as E.
    rewrite Nat.add_1_r in E. rewrite E. lia.
  - intros p' Hw. destruct (decide (p' = p)) as [->|Hpp].
    + unfold cell_ok. cbn [ring claims]. rewrite Hcl, Eh, decide_True by done. left.
      rewrite length_app, Hl. split_and!; [cbn; lia|exact Hval|]. apply last_snoc_msg.
      eapply read_safe_grows; [exact Hsafe|done].
    + eapply cell_frame; [by apply Hc| |done|done|].
      * cbn [ring]. rewrite Eh, decide_False by auto. done.
      * intros j Hj. cbn. split; [|by apply set_prod_grows].
        destruct (decide (j = i)) as [->|]; [|by apply set_prod_ne].
        destruct Hpp. eapply holds_one; [right|]; done.
  - intros j. destruct (decide (j = i)) as [->|Hj].
    + unfold prod_ok. cbn. by rewrite set_prod_eq.
    + eapply prod_frame; [by apply Hpr|by apply set_prod_ne|by apply set_prod_grows|done| |].
      * intros p'. cbn [ring]. rewrite Eh. case_decide as E; [|done].
        unfold hist_at. rewrite E. by apply prefix_app_r.
      * intros p' Hh Hp' _ Hcj. cbn [ring popped]. rewrite Eh, decide_False; [split; [done|lia]|].
        apply Hne; [lia|]. intros ->. rewrite Hcl in Hcj.
        destruct (hd_error (pending (prods cf j))); [injection Hcj; congruence|done].
  - eapply cons_frame; [done|done|done|done|done|]. intros HD. cbn [ring]. split; [|done].
    rewrite Eh, decide_False; [done|]. apply Hne; [lia|]. intros E. rewrite E in HD. lia.
  - intros j. rewrite Ha. destruct (decide (j = i)) as [->|]; [|by rewrite !set_prod_ne].
    rewrite !set_prod_eq, Hi. cbn. by rewrite app_nil_r.
Qed.

(** ** The consumer *)

(** A load of the consumer: nothing changes but what it knows. *)
Lemma weak_cload cf V s :
  ok cf → grows (cview (ring cf)) V →
  let cf' := mkConfig (with_cons (ring cf) (mem (ring cf)) V) (prods cf) s (claims cf)
    (accepted cf) (popped cf) in
  cons_ok cf' → ok cf'.
Proof.
  intros [He Hps Hd Ho Hpo Hs Hr Hc Hpr Hco Ha] [_ Hg] cf' Hcf'. split; try done.
  intros k. destruct (Hr k) as [? Hk]. split; [done|]. cbn. specialize (Hg Consumer). lia.
Qed.

(** The sequence it waits for is that of a published cell. *)
Lemma weak_received cf V v V' :
  ok cf → bounded cf →
  loads (mem (ring cf)) V (seq_loc (dequeue_pos (ring cf))) Acquire v V' →
  diff v (u64 (dequeue_pos (ring cf) + 1)) = 0%Z →
  let D := length (popped cf) in
  length (hist_at (ring cf) D) = S (S (ready D)) ∧ S (ready D) ≤ seen V' (Sequence (D mod Capacity)) ∧
  read_safe V' (data_at (ring cf) D).
Proof.
  intros Hok Hb Hld Hdf D. pose proof (ok_order _ Hok) as Ho. destruct weak_cap as [Hc1 Hc2].
  rewrite (ok_deq _ Hok) in *. fold D in Hld, Hdf. unfold bounded in Hb.
  destruct (load_seq _ _ _ _ _ Hok Hb Hld) as (k&msg&Hm&Hv&Hr&Hs&_&Hclk).
  rewrite u64_id in Hdf by (unfold is_u64; lia). assert (v = Z.of_nat D + 1)%Z as E
    by (apply (diff_zero Capacity n Hcap Hn); done || lia).
  assert (k = S (ready D)) as ->.
  { rewrite <- Nat.add_1_r. apply seq_value_inv; lia. }
  destruct (hist_bound cf D Hok) as (p'&Hw&Em&Hl).
  assert (p' = D) as -> by (apply (window_eq Capacity n Hcap Hn D); done || lia).
  apply lookup_lt_Some in Hm as Hlt. assert (length (hist_at (ring cf) D) = S (S (ready D))) as HL by lia.
  split; [done|]. split; [done|].
  pose proof (ok_cells _ Hok D ltac:(lia)) as Hcell. unfold cell_ok in Hcell.
  destruct (claims cf !! D) as [[i x]|]; [|lia].
  destruct Hcell as [(_&_&msg'&Hlast&Hsafe)|[? _]]; [|lia].
  rewrite last_lookup, HL in Hlast. cbn [pred] in Hlast. rewrite Hm in Hlast. injection Hlast as <-.
  unfold read_safe in *. etrans; [exact Hsafe|apply Hclk].
Qed.

Lemma weak_read cf x m V :
  ok cf → cons cf = CRead →
  read_plain (mem (ring cf)) Consumer (cview (ring cf)) (slot Capacity (dequeue_pos (ring cf))) =
    (x, m, V) →
  ok (mkConfig (with_cons (ring cf) m V) (prods cf) (CRelease x) (claims cf) (accepted cf) (popped cf)).
Proof.
  intros Hok Hcons Hrd. pose proof Hok as [He Hps Hd Ho Hpo Hs Hr Hc Hpr Hco Ha].
  destruct weak_cap as [Hc1 _]. unfold cons_ok in Hco. rewrite Hcons in Hco. destruct Hco as (HL&Hseen&Hsafe).
  rewrite Hd, weak_slot in Hrd. unfold read_plain in Hrd. injection Hrd as <- <- <-.
  set (D := length (popped cf)) in *. set (V := tick Consumer (cview (ring cf))).
  assert (grows (cview (ring cf)) V) as Hg by apply tick_grows.
  assert (∃ i, claims cf !! D = Some (i, c_value (data_at (ring cf) D))) as [i Hcl].
  { pose proof (Hc D ltac:(lia)) as Hcell. unfold cell_ok in Hcell.
    destruct (claims cf !! D) as [[i x]|]; [|lia]. destruct Hcell as [(_&<-&_)|[? _]]; [by exists i|lia]. }
  split; cbn [ring prods cons claims accepted popped]; try done.
  - intros k. destruct (Hr k) as [Hr1 Hr2]. destruct Hg as [_ Hg]. specialize (Hg Consumer).
    unfold with_cons. cbn [mem cview]. cbn [WeakMem.cells]. case_decide as E.
    + cbn [c_reads]. subst k. split; [|by rewrite decide_True].
      intros j. by rewrite decide_False by done.
    + split; [done|lia].
  - intros p' Hw. destruct (decide (p' = D)) as [->|Hpp].
    + specialize (Hc D Hw). unfold cell_ok in *. cbn [ring claims] in *. rewrite Hcl in *.
      destruct Hc as [(Hl&Hv&msg&Hlast&Hsf)|[? _]]; [left|unfold hist_at in *; lia].
      unfold hist_at, data_at in *. unfold with_cons. cbn. rewrite decide_True by done.
      split_and!; [done|done|]. by exists msg.
    + eapply cell_frame; [by apply Hc|done| |done|done].
      unfold data_at. cbn. rewrite decide_False; [done|]. apply (window_ne cf); unfold D in *; done || lia.
  - unfold cons_ok. cbn [ring cons popped claims]. fold D. split; [|by exists i]. split; [done|].
    split; [done|]. unfold data_at, with_cons. cbn [mem cview WeakMem.cells]. rewrite decide_True by done.
    exact (read_safe_grows _ _ _ Hsafe Hg).
Qed.

Lemma weak_release cf x m V :
  ok cf → bounded cf → cons cf = CRelease x →
  store (mem (ring cf)) (cview (ring cf)) (seq_loc (dequeue_pos (ring cf))) Release
    (u64 (dequeue_pos (ring cf) + Z.of_nat Capacity)) = (m, V) →
  ok (mkConfig (mk m (pview (ring cf)) V (u64 (dequeue_pos (ring cf) + 1))) (prods cf) CIdle
    (claims cf) (accepted cf) (popped cf ++ [x])).
Proof.
  intros Hok Hb Hcons Hst. pose proof Hok as [He Hps Hd Ho Hpo Hs Hr Hc Hpr Hco Ha].
  destruct weak_cap as [Hc1 Hc2]. unfold cons_ok in Hco. rewrite Hcons in Hco.
  destruct Hco as ((HL&Hseen&Hsafe)&i&Hcl). unfold bounded in Hb. rewrite Hd in *.
  set (D := length (popped cf)) in *. rewrite weak_seq_loc in Hst. unfold store in Hst.
  rewrite !u64_id in * by (unfold is_u64; lia). injection Hst as <- <-.
  apply lookup_lt_Some in Hcl as HD. fold (hist_at (ring cf) D).
  set (V := see _ _ (cview (ring cf))). set (msg := mkMessage _ V). set (q' := mk _ _ _ _).
  assert (length (popped cf ++ [x]) = S D) as El by (rewrite length_app; cbn; lia).
  assert (∀ p', hist_at q' p' = if decide (p' mod Capacity = D mod Capacity)
    then hist_at (ring cf) D ++ [msg] else hist_at (ring cf) p') as Eh.
  { intros p'. unfold hist_at, q'. cbn. case_decide as E; [injection E as ->; by rewrite decide_True|].
    by rewrite decide_False by congruence. }
  assert (∀ p', S D ≤ p' < D + Capacity → hist_at q' p' = hist_at (ring cf) p') as Ehw.
  { intros p' Hw. rewrite Eh, decide_False; [done|]. apply (window_ne cf); unfold D in *; lia. }
  split; cbn [ring prods cons claims accepted popped]; rewrite ?El; try done.
  - cbn. lia.
  - lia.
  - rewrite (take_S_r _ _ x); [by rewrite <- Hpo|]. rewrite list_lookup_fmap, Hcl. done.
  - intros k j msg' Hk. unfold q'. cbn. case_decide as E; [|by apply Hs]. injection E as ->.
    intros [[_ Hj]|[-> <-]]%lookup_snoc_Some; [by apply Hs|]. rewrite HL. cbn [msg m_value].
    pose proof (seq_value_at (D + Capacity) 0 ltac:(lia)) as E.
    rewrite Nat.add_0_r, ready_lap, lap_mod in E. rewrite E. lia.
  - intros p' Hw. destruct (decide (p' = D + Capacity)) as [->|Hpp].
    + unfold cell_ok. cbn [ring claims]. rewrite (proj2 (lookup_ge_None _ _)) by lia.
      rewrite Eh, lap_mod, decide_True, length_app, HL, ready_lap by done. split; [cbn; lia|].
      apply last_snoc_msg. unfold data_at, q'. cbn. rewrite lap_mod. split; [exact Hsafe|].
      destruct (Hr (D mod Capacity)) as [Hr1 Hr2]. intros [j|]; [rewrite Hr1; lia|exact Hr2].
    + eapply cell_frame; [apply Hc; lia| |done|done|].
      * cbn [ring]. apply Ehw. lia.
      * intros j _. split; reflexivity.
  - intros j. eapply prod_frame; [by apply Hpr|done|reflexivity|done| |].
    + intros p'. cbn [ring]. rewrite Eh. case_decide as E; [|done].
      unfold hist_at. rewrite E. by apply prefix_app_r.
    + intros p' _ Hp' Hl' _. cbn [ring popped]. rewrite El. assert (p' ≠ D) by (intros ->; lia).
      split; [apply Ehw; lia|lia].
Qed.

(** ** Executions *)

Lemma weak_pstep cf i q s r :
  ok cf → pstep i (ring cf) (prods cf i) q s r →
  let cf' := mkConfig q (set_prod (prods cf) i s) (cons cf)
    (match r with PClaimed x => claims cf ++ [(i, x)] | _ => claims cf end)
    (match r with
     | PReturned true x => set_prod (accepted cf) i (accepted cf i ++ [x])
     | _ => accepted cf end) (popped cf) in
  bounded cf' → ok cf'.
Proof.
  intros Hok Hs. pose proof (ok_prods _ Hok i) as Hi. unfold prod_ok in Hi.
  inversion Hs as [|? ? ? ? Hld|? ? ? ? ? Hld Hdf|? ? ? ? ? Hld Hdf|? ? ? ? ? Hld Hdf|? ? ? ? ? Hx|
      ? ? ? ? ? Hld|? ? ? ? ? Hw|? ? ? ? ? Hst]; subst;
    match goal with H : _ = prods cf i |- _ => rewrite <- H in Hi; symmetry in H; rename H into Est end;
    cbn zeta; intros Hb; unfold bounded in Hb; cbn [claims] in Hb.
  - apply weak_local; try done; [by rewrite Est|]. unfold prod_ok. cbn. by rewrite set_prod_eq.
  - destruct (load_pos _ _ _ _ Hok Hld) as [(p&->&Hp) Hg].
    apply weak_local; try done; [intros; by apply set_prod_grows|by rewrite Est|].
    unfold prod_ok. cbn. rewrite set_prod_eq. by exists p.
  - destruct Hi as (p&->&Hp). destruct (load_seq _ _ _ _ _ Hok Hb Hld) as (k&msg&Hm&Hv&Hr&Hsn&Hg&Hck).
    apply weak_local; try done; [intros; by apply set_prod_grows|by rewrite Est|].
    unfold prod_ok. cbn. rewrite !set_prod_eq. exists p. split_and!; [done|done|].
    assert (seq = Z.of_nat p) as E by (apply (diff_zero Capacity n Hcap Hn); done || lia).
    assert (k = ready p) as -> by (rewrite <- (Nat.add_0_r (ready p)); apply seq_value_inv; lia).
    by exists msg.
  - destruct Hi as (p&->&Hp). destruct (load_seq _ _ _ _ _ Hok Hb Hld) as (k&msg&_&_&_&_&Hg&_).
    apply weak_local; try done; [intros; by apply set_prod_grows|by rewrite Est|].
    unfold prod_ok. cbn. by rewrite set_prod_eq.
  - destruct Hi as (p&->&Hp). destruct (load_seq _ _ _ _ _ Hok Hb Hld) as (k&msg&_&_&_&_&Hg&_).
    apply weak_local; try done; [intros; by apply set_prod_grows|by rewrite Est|].
    unfold prod_ok. cbn. by rewrite set_prod_eq.
  - destruct Hi as (p&->&Hp&Hacq). apply weak_claim; try done. unfold bounded.
    rewrite length_app in Hb. cbn in Hb. lia.
  - destruct (load_pos _ _ _ _ Hok Hld) as [(p&->&Hp) Hg].
    apply weak_local; try done; [intros; by apply set_prod_grows|by rewrite Est|].
    unfold prod_ok. cbn. rewrite set_prod_eq. by exists p.
  - by eapply weak_write.
  - by eapply weak_publish.
Qed.

Lemma weak_cstep cf q s r :
  ok cf → bounded cf → cstep (ring cf) (cons cf) q s r →
  ok (mkConfig q (prods cf) s (claims cf) (accepted cf)
    (match r with Some (Some x) => popped cf ++ [x] | _ => popped cf end)).
Proof.
  intros Hok Hb Hs.
  inversion Hs as [? v V Hld Hdf|? v V Hld Hdf|? x m V Hrd|? x m V Hst]; subst;
    match goal with H : _ = cons cf |- _ => symmetry in H; rename H into Est end.
  - apply weak_cload; [done| |done]. destruct Hld as (k&msg&_&_&_&->). apply load_grows.
  - pose proof (weak_received _ _ _ _ Hok Hb Hld Hdf) as Hrc.
    apply weak_cload; [done| |exact Hrc]. destruct Hld as (k&msg&_&_&_&->). apply load_grows.
  - by eapply weak_read.
  - by eapply weak_release.
Qed.

Lemma weak_reachable cf : reachable cf → bounded cf → ok cf.
Proof.
  induction 1 as [|c c' Hr IH Hs]; intros Hb; [apply weak_create_ok|].
  destruct Hs as [c i q s r Hp|c q s r Hc].
  - apply weak_pstep; [|done|done]. apply IH. unfold bounded in *. cbn in Hb.
    destruct r; [done| |done]. rewrite length_app in Hb. lia.
  - apply weak_cstep; [by apply IH|done|done].
Qed.

Lemma ok_safe cf : ok cf → accesses_safe cf.
Proof.
  intros Hok. pose proof (ok_order _ Hok). split_and!.
  - intros i x pos Hi. destruct (weak_held _ _ _ _ Hok (or_introl Hi)) as (p&->&_&_&Hacq&Hl&Hwr).
    rewrite weak_slot. destruct Hwr as [[_ (msg&Hlast&Hsafe)]|[? _]]; [|congruence].
    destruct Hacq as (msg'&Hm&_&Hck). rewrite last_lookup, Hl in Hlast. cbn [pred] in Hlast.
    rewrite Hm in Hlast. injection Hlast as <-. destruct Hsafe as [Hs1 Hs2]. split.
    + unfold read_safe in *. etrans; [exact Hs1|apply Hck].
    + intros th. etrans; [apply Hs2|apply Hck].
  - intros i x pos Hi. destruct (weak_held _ _ _ _ Hok (or_intror Hi)) as (p&->&_&_&Hacq&Hl&_).
    rewrite weak_seq_loc. destruct Hacq as (msg&_&Hs&_). unfold store_last, hist_at in *. lia.
  - intros Hc. pose proof (ok_cons _ Hok) as Hco. unfold cons_ok in Hco. rewrite Hc in Hco.
    rewrite (ok_deq _ Hok), weak_slot. apply Hco.
  - intros x Hc. pose proof (ok_cons _ Hok) as Hco. unfold cons_ok in Hco. rewrite Hc in Hco.
    rewrite (ok_deq _ Hok), weak_seq_loc. unfold store_last, hist_at in *. lia.
Qed.

(** C16: the multi-producer ring is correct on a weak memory with the memory
    orders it uses.  In every execution of any number of producers and the
    consumer, where loads may return stale positions and sequences: the plain
    access a thread is about to make on a cell is never in a data race; a
    store of a sequence follows everything stored there before; the consumer
    receives the claimed items in position order, each once; every thread's
    claims are its accepted pushes in program order, plus at most the one it
    is still writing; and at most [Capacity] positions are outstanding. *)
Theorem mpsc_weak_correct cf :
  reachable cf → bounded cf →
  accesses_safe cf ∧
  popped cf = take (length (popped cf)) (claims cf).*2 ∧
  length (popped cf) ≤ length (claims cf) ≤ length (popped cf) + Capacity ∧
  ∀ i, (List.filter (λ '(j, _), j =? i) (claims cf)).*2 = accepted cf i ++ pending (prods cf i).
Proof.
  intros Hr Hb. pose proof (weak_reachable cf Hr Hb) as Hok. split; [by apply ok_safe|].
  destruct Hok. done.
Qed.

End ring.

(** ** A concrete execution: a producer claims the first position *)

Lemma weak_demo_claimed :
  ∃ cf : config (T := nat), reachable 0 2 cf ∧ claims cf = [(3, 5)] ∧ prods cf 3 = PWrite 5 0.
Proof.
  set (c0 := mkConfig (create 0) (λ _, PIdle) CIdle [] (λ _, []) []).
  assert (reachable 0 2 c0) as R0 by constructor.
  assert (∀ l, loads (mem (create 0)) no_view l Relaxed (initial l) (see l 0 no_view)) as Hl.
  { intros l. by exists 0, (mkMessage (initial l) no_view). }
  pose proof (reach_next _ _ _ _ R0 (step_prod 2 c0 3 _ _ _ (p_start 2 3 _ 5))) as R1.
  set (c1 := mkConfig _ _ _ _ _ _) in R1.
  pose proof (reach_next _ _ _ _ R1 (step_prod 2 c1 3 _ _ _ (p_load 2 3 _ 5 0 _ (Hl EnqueuePos)))) as R2.
  set (c2 := mkConfig _ _ _ _ _ _) in R2.
  assert (loads (mem (ring c2)) (pview (ring c2) 3) (seq_loc 2 0) Acquire 0
    (load_view Acquire (Sequence 0) 0 (mkMessage 0%Z no_view) (pview (ring c2) 3))) as Hs.
  { exists 0, (mkMessage 0%Z no_view). by split_and!. }
  pose proof (reach_next _ _ _ _ R2 (step_prod 2 c2 3 _ _ _ (p_free 2 3 _ 5 0 0 _ Hs eq_refl))) as R3.
  set (c3 := mkConfig _ _ _ _ _ _) in R3.
  destruct (exchange (mem (ring c3)) (pview (ring c3) 3) EnqueuePos 0 1) as [[m V]|] eqn:Hx; [|done].
  pose proof (reach_next _ _ _ _ R3 (step_prod 2 c3 3 _ _ _ (p_cas_ok 2 3 _ 5 0 m V Hx))) as R4.
  eexists. split; [exact R4|]. split; reflexivity.
Qed.

Lemma mpsc_weak_correct_witness :
  ∃ cf : config (T := nat), reachable 0 2 cf ∧
    write_safe (pview (ring cf) 3) (WeakMem.cells (mem (ring cf)) 0).
Proof.
  destruct weak_demo_claimed as (cf&Hr&Hc&Hp). exists cf. split; [exact Hr|].
  destruct (mpsc_weak_correct 0 2 1 eq_refl ltac:(lia) cf Hr) as [[H _] _].
  - unfold bounded. rewrite Hc. cbn. lia.
  - exact (H 3 5 0%Z Hp).
Defined.

End MpscWeak.
