(* ===== verification/MpscLive.v ===== *)
(** * The multi-producer ring makes progress on a weak memory
    (src/include/jane/concurrency/mpsc_ring_buffer.hpp)

    The consumer's side of the ring of MpscWeak.v: it is never stuck, and
    three of its own steps per item bring out every item whose push has
    returned, once these pushes have become visible to it, whatever the
    producers do meanwhile.  An item whose push has not returned holds up
    all that were claimed after it, so "every item" cannot be more than
    that: a producer that stops between its compare-exchange and its store
    stops the consumer. *)

From S2P Require Import Prelude Paced Mpsc WeakMem MpscWeak.
From stdpp Require Import base tactics numbers list.

Set Default Goal Selector "!".

Module MpscLive.
Import Mpsc MpscWeak.

#[local] Existing Instances MpscWeak.thread_eq_dec MpscWeak.loc_eq_dec.

Section live.
Context {T : Type} (dflt : T) (Capacity : nat).

Abbreviation config := (MpscWeak.config (T := T)).

Definition after_prod (c : config) (i : nat) (q : MpscWeak.t) (s : pstate) (r : presult) : config :=
  MpscWeak.mkConfig q (set_prod (prods c) i s) (cons c)
    (match r with PClaimed x => claims c ++ [(i, x)] | _ => claims c end)
    (match r with
     | PReturned true x => set_prod (accepted c) i (accepted c i ++ [x])
     | _ => accepted c end)
    (popped c).

Definition after_cons (c : config) (q : MpscWeak.t) (s : cstate) (r : option (option T)) : config :=
  MpscWeak.mkConfig q (prods c) s (claims c) (accepted c)
    (match r with Some (Some x) => popped c ++ [x] | _ => popped c end).

Inductive producer_step : config → config → Prop :=
  | producer_steps c i q s r :
      MpscWeak.pstep Capacity i (ring c) (prods c i) q s r →
      producer_step c (after_prod c i q s r).

(** The first [visible] positions are visible: looking at the cell of one of
    them, the consumer reads its publication or what follows it. *)
Inductive consumer_step (visible : nat) : config → config → Prop :=
  | consumer_looks c k seq V :
      cons c = CIdle →
      load_at (mem (ring c)) (cview (ring c)) (seq_loc Capacity (dequeue_pos (ring c))) Acquire k =
        Some (seq, V) →
      (length (popped c) < visible → ready Capacity (length (popped c)) < k) →
      consumer_step visible c
        (if decide (diff seq (u64 (dequeue_pos (ring c) + 1)) = 0%Z)
         then after_cons c (with_cons (ring c) (mem (ring c)) V) CRead None
         else after_cons c (with_cons (ring c) (mem (ring c)) V) CIdle (Some None))
  | consumer_steps c q s r :
      cons c ≠ CIdle → MpscWeak.cstep Capacity (ring c) (cons c) q s r →
      consumer_step visible c (after_cons c q s r).

(** A run with [k] steps of the consumer. *)
Definition run (visible : nat) : nat → config → config → Prop :=
  paced producer_step (consumer_step visible).

(** The push that claimed position [p] has returned. *)
Definition returned (c : config) (p : nat) : Prop :=
  ∃ i x, claims c !! p = Some (i, x) ∧ ¬ holds_at (prods c i) p.

Lemma producer_step_step c c' : producer_step c c' → MpscWeak.step Capacity c c'.
Proof. intros [c0 i q s r Hs]. by apply MpscWeak.step_prod. Qed.

Lemma consumer_step_cstep visible c c' :
  consumer_step visible c c' →
  ∃ q s r, MpscWeak.cstep Capacity (ring c) (cons c) q s r ∧ c' = after_cons c q s r.
Proof.
  intros [c0 k seq V E Hl _|c0 q s r _ Hs]; [|eauto]. apply load_at_loads in Hl. rewrite E.
  case_decide; do 3 eexists; (split; [|done]); [by eapply MpscWeak.c_ready|by eapply MpscWeak.c_empty].
Qed.

(** ** The consumer is never stuck *)

Definition all_views_ok (q : MpscWeak.t (T := T)) : Prop :=
  memory_ok (mem q) ∧ (∀ i, view_ok (mem q) (pview q i)) ∧ view_ok (mem q) (cview q).

Lemma all_views_prod (q : MpscWeak.t (T := T)) i m V :
  all_views_ok q → extends (mem q) m ∧ memory_ok m ∧ view_ok m V →
  extends (mem q) m ∧ all_views_ok (with_prod q i m V).
Proof.
  intros (Hm&Hp&Hc) (He&Hm'&HV). split; [done|]. split_and!; [done| |by eapply view_ok_extends].
  intros j. cbn. unfold set_prod. case_decide; [done|]. by eapply view_ok_extends.
Qed.

Lemma all_views_cons (q : MpscWeak.t (T := T)) m V pos :
  all_views_ok q → extends (mem q) m ∧ memory_ok m ∧ view_ok m V →
  extends (mem q) m ∧ all_views_ok (MpscWeak.mk m (pview q) V pos).
Proof.
  intros (Hm&Hp&Hc) (He&Hm'&HV). split; [done|]. split_and!; [done| |done].
  intros j. exact (view_ok_extends _ _ _ He (Hp j)).
Qed.

Lemma mpsc_pstep_views i q s q' s' r :
  MpscWeak.pstep Capacity i q s q' s' r → all_views_ok q →
  extends (mem q) (mem q') ∧ all_views_ok q'.
Proof.
  intros Hs Hv. pose proof Hv as (Hm&Hp&Hc).
  destruct Hs as [?|? ? ? ? Hl|? ? ? ? ? Hl _|? ? ? ? ? Hl _|? ? ? ? ? Hl _|? ? ? ? ? Hx|
    ? ? ? ? ? Hl|? ? ? ? ? Hw|? ? ? ? ? Hst]; [by split|apply all_views_prod; [done|]..].
  1-4,6: (split_and!; [reflexivity|done|exact (loads_ok _ _ _ _ _ _ Hm (Hp i) Hl)]).
  - exact (exchange_ok _ _ _ _ _ _ _ Hx Hm (Hp i)).
  - injection Hw as <- <-. exact (same_hist_ok _ _ _ _ eq_refl eq_refl Hm (Hp i)).
  - exact (store_ok _ _ _ _ _ _ Hst Hm (Hp i)).
Qed.

Lemma mpsc_cstep_views q s q' s' r :
  MpscWeak.cstep Capacity q s q' s' r → all_views_ok q →
  extends (mem q) (mem q') ∧ all_views_ok q'.
Proof.
  intros Hs Hv. pose proof Hv as (Hm&Hp&Hc).
  destruct Hs as [? ? ? Hl _|? ? ? Hl _|? ? ? ? Hrd|? ? ? ? Hst]; (apply all_views_cons; [done|]).
  1-2: (split_and!; [reflexivity|done|exact (loads_ok _ _ _ _ _ _ Hm Hc Hl)]).
  - injection Hrd as <- <- <-. exact (same_hist_ok _ _ _ _ eq_refl eq_refl Hm Hc).
  - exact (store_ok _ _ _ _ _ _ Hst Hm Hc).
Qed.

Lemma mpsc_views_reachable c : MpscWeak.reachable dflt Capacity c → all_views_ok (ring c).
Proof.
  induction 1 as [|c c' _ IH Hs].
  - split_and!; [|intros i l; cbn; lia|intros l; cbn; lia].
    intros l msg Hm%list_elem_of_singleton. rewrite Hm. intros l'. cbn. lia.
  - destruct Hs as [c i q s r Hp|c q s r Hc].
    + exact (proj2 (mpsc_pstep_views _ _ _ _ _ _ Hp IH)).
    + exact (proj2 (mpsc_cstep_views _ _ _ _ _ Hc IH)).
Qed.

(** The cells of the first [v] positions have been published. *)
Definition published (v : nat) (c : config) : Prop :=
  v ≤ length (claims c) ∧
  ∀ p, length (popped c) ≤ p < v → length (hist_at Capacity (ring c) p) = S (S (ready Capacity p)).

Record live_ok (v : nat) (c : config) : Prop := {
  lo_ok : ok Capacity c;
  lo_views : all_views_ok (ring c);
  lo_published : published v c;
}.

(** A push that has returned has published its cell. *)
Lemma returned_published v (c : config) :
  ok Capacity c → (∀ p, p < v → returned c p) → published v c.
Proof.
  intros Hok Hr. split.
  - destruct v as [|v]; [lia|]. destruct (Hr v ltac:(lia)) as (i&x&Hl&_). by apply lookup_lt_Some in Hl.
  - intros p Hp. destruct (Hr p ltac:(lia)) as (i&x&Hl&Hh).
    pose proof (lookup_lt_Some _ _ _ Hl). pose proof (ok_order _ _ Hok).
    pose proof (ok_cells _ _ Hok p ltac:(lia)) as Hc. unfold cell_ok in Hc. rewrite Hl in Hc.
    destruct Hc as [[E _]|[_ Hw]]; [done|]. destruct Hh. exists x.
    destruct Hw as [[-> _]|[-> _]]; auto.
Qed.

Context (n : nat) (Hcap : Capacity = 2 ^ n) (Hn : 1 ≤ n < 62).

(** Publication is lasting. *)
Lemma published_stays v (c c' : config) :
  ok Capacity c' → extends (mem (ring c)) (mem (ring c')) →
  length (popped c) ≤ length (popped c') → length (claims c) ≤ length (claims c') →
  published v c → published v c'.
Proof.
  intros Hok He Hp Hc [Hv Hpub]. split; [lia|]. intros p Hr. specialize (Hpub p ltac:(lia)).
  pose proof (ok_order _ _ Hok) as Ho. pose proof (ok_cells _ _ Hok p ltac:(lia)) as Hcell.
  specialize (He (Sequence (p mod Capacity))). unfold cell_ok, hist_at in *.
  destruct (lookup_lt_is_Some_2 (claims c') p ltac:(lia)) as [[j x] Ej]. rewrite Ej in Hcell.
  destruct Hcell as [[E _]|[E _]]; [done|lia].
Qed.

Lemma producer_step_live v c c' :
  live_ok v c → producer_step c c' → bounded c' →
  live_ok v c' ∧ popped c' = popped c ∧ cons c' = cons c ∧ claims c `prefix_of` claims c'.
Proof.
  intros [Hok Hvw Hpub] Hs Hb. destruct Hs as [c i q s r Hs].
  pose proof (weak_pstep _ n Hcap Hn _ _ _ _ _ Hok Hs Hb) as Hok'.
  destruct (mpsc_pstep_views _ _ _ _ _ _ Hs Hvw) as [He Hvw'].
  assert (claims c `prefix_of` claims (after_prod c i q s r)) as Hp
    by (cbn; destruct r; try done; by apply prefix_app_r).
  split; [|done]. split; [done|done|].
  eapply published_stays; [done|done|done|by apply prefix_length|done].
Qed.

Lemma consumer_step_live v c c' :
  live_ok v c → consumer_step v c c' → bounded c' →
  live_ok v c' ∧ length (popped c) ≤ length (popped c') ∧ claims c' = claims c.
Proof.
  intros [Hok Hvw Hpub] Hs Hb. destruct (consumer_step_cstep _ _ _ Hs) as (q&s&r&Hc&->).
  pose proof (weak_cstep _ n Hcap Hn _ _ _ _ Hok Hb Hc) as Hok'.
  destruct (mpsc_cstep_views _ _ _ _ _ Hc Hvw) as [He Hvw'].
  assert (length (popped c) ≤ length (popped (after_cons c q s r))) as Hp
    by (cbn; destruct r as [[x|]|]; rewrite ?length_app; lia).
  split; [|done]. split; [done|done|]. by eapply published_stays.
Qed.

(** Accesses the consumer has left for its item, less one. *)
Definition left_to_pop (s : cstate (T := T)) : nat :=
  match s with CIdle => 2 | CRead => 1 | CRelease _ => 0 end.

Definition wait (v : nat) (c : config) : nat := 3 * (v - length (popped c) - 1) + left_to_pop (cons c).

(** The publication of the next position is what the consumer reads. *)
Lemma looks_ready v (c : config) k seq V :
  ok Capacity c → bounded c → published v c → length (popped c) < v →
  load_at (mem (ring c)) (cview (ring c)) (seq_loc Capacity (dequeue_pos (ring c))) Acquire k =
    Some (seq, V) →
  ready Capacity (length (popped c)) < k → diff seq (u64 (dequeue_pos (ring c) + 1)) = 0%Z.
Proof.
  intros Hok Hb [Hv Hpub] Hlt Hl Hk. set (D := length (popped c)) in *.
  specialize (Hpub D ltac:(lia)). rewrite (ok_deq _ _ Hok) in *. fold D in Hl |- *.
  rewrite (weak_seq_loc _ n Hcap Hn) in Hl. unfold load_at in Hl.
  destruct (hist _ _ !! k) as [msg|] eqn:Em; [|done]. case_decide; [|done]. injection Hl as <- _.
  pose proof (lookup_lt_Some _ _ _ Em) as Hkl. unfold hist_at in Hpub.
  rewrite (ok_seq _ _ Hok _ _ _ (weak_mod_lt _ n Hcap Hn D) Em).
  replace k with (ready Capacity D + 1) by lia. rewrite (seq_value_at Capacity n Hcap Hn) by lia.
  unfold bounded in Hb. rewrite u64_id by (unfold is_u64; lia).
  unfold diff. rewrite Nat2Z.inj_add, Z.sub_diag. by rewrite i64_id by (unfold is_i64; lia).
Qed.

Lemma consumer_step_wait v c c' :
  live_ok v c → bounded c → consumer_step v c c' → length (popped c) < v →
  v ≤ length (popped c') ∨ wait v c' < wait v c.
Proof.
  intros [Hok _ Hpub] Hb Hs Hlt. unfold wait. destruct Hs as [c k seq V E Hl Hk|c q s r E Hs].
  - right. rewrite decide_True by by eapply looks_ready; eauto. rewrite E. cbn. lia.
  - inversion Hs as [q0 w V Hl Hd Eq E'|q0 w V Hl Hd Eq E'|q0 x m V Hrd Eq E'|q0 x m V Hst Eq E'];
      subst s r; [congruence..| |].
    + right. cbn. lia.
    + destruct (decide (v = S (length (popped c)))) as [->|Hne]; cbn; rewrite length_app; cbn;
        [left; lia|right; lia].
Qed.

Lemma consumer_moves v c : live_ok v c → ∃ c', consumer_step v c c'.
Proof.
  intros [Hok (_&_&Hc) [Hv Hpub]]. destruct (cons c) as [| |x] eqn:E.
  - set (l := seq_loc Capacity (dequeue_pos (ring c))).
    specialize (Hc l). set (k := pred (length (hist (mem (ring c)) l))).
    destruct (lookup_lt_is_Some_2 (hist (mem (ring c)) l) k) as [msg Hm]; [lia|].
    eexists. apply (consumer_looks v c k); [done|unfold load_at; fold l; rewrite Hm; by rewrite decide_True by lia|].
    intros Hlt. specialize (Hpub (length (popped c)) ltac:(lia)). unfold k, l.
    rewrite (ok_deq _ _ Hok), (weak_seq_loc _ n Hcap Hn). unfold hist_at in Hpub. rewrite Hpub. cbn. lia.
  - destruct (read_plain (mem (ring c)) Consumer (cview (ring c))
      (slot Capacity (dequeue_pos (ring c)))) as [[x m] V] eqn:Er.
    eexists. apply consumer_steps; [by rewrite E|]. rewrite E. by eapply MpscWeak.c_read.
  - destruct (store (mem (ring c)) (cview (ring c)) (seq_loc Capacity (dequeue_pos (ring c))) Release
      (u64 (dequeue_pos (ring c) + Z.of_nat Capacity))) as [m V] eqn:Es.
    eexists. apply consumer_steps; [by rewrite E|]. rewrite E. by eapply MpscWeak.c_release.
Qed.

Lemma step_bounded (c c' : config) : MpscWeak.step Capacity c c' → bounded c' → bounded c.
Proof.
  unfold bounded. intros [c0 i q s r _|c0 q s r _]; cbn; [|done].
  destruct r; try done. rewrite length_app. lia.
Qed.

Lemma run_bounded v k (c c' : config) :
  run v k c c' → bounded c' → bounded c ∧
  paced (λ x y, producer_step x y ∧ bounded y) (λ x y, consumer_step v x y ∧ bounded y) k c c'.
Proof.
  intros Hr Hb. revert Hr. apply paced_restrict; [..|done].
  - intros x y Hs. apply step_bounded. by apply producer_step_step.
  - intros x y (q&s&r&Hs&->)%consumer_step_cstep. apply step_bounded. by apply MpscWeak.step_cons.
Qed.

(** What a run keeps. *)
Lemma run_live v k (c c' : config) :
  live_ok v c → run v k c c' → bounded c' → live_ok v c' ∧ claims c `prefix_of` claims c'.
Proof.
  intros Hl Hr Hb. destruct (run_bounded _ _ _ _ Hr Hb) as [_ Hr'].
  revert Hr'. apply (paced_preserves _ _ (λ x, live_ok v x ∧ claims c `prefix_of` claims x)).
  - intros x y [Hx Hp] [Hs Hy]. destruct (producer_step_live _ _ _ Hx Hs Hy) as (?&_&_&?).
    split; [done|]. by etrans.
  - intros x y [Hx Hp] [Hs Hy]. destruct (consumer_step_live _ _ _ Hx Hs Hy) as (?&_&->). done.
  - done.
Qed.

Lemma run_pops v k (c c' : config) :
  live_ok v c → run v k c c' → bounded c' → 3 * (v - length (popped c)) ≤ k →
  v ≤ length (popped c').
Proof.
  intros Hl Hr Hb Hk. destruct (run_bounded _ _ _ _ Hr Hb) as [Hbc Hr'].
  apply (paced_reaches _ _ (λ x, live_ok v x ∧ bounded x) (λ x, v ≤ length (popped x)) (wait v))
    with (4 := Hr').
  - intros x y [Hx _] [Hs Hy]. destruct (producer_step_live _ _ _ Hx Hs Hy) as (?&E1&E2&_).
    unfold wait. by rewrite E1, E2.
  - intros x y [Hx Hbx] [Hs Hy]. destruct (consumer_step_live _ _ _ Hx Hs Hy) as (?&?&_).
    split; [done|]. split; [lia|].
    destruct (decide (v ≤ length (popped y))); [by left|].
    apply (consumer_step_wait v x y); [done|done|done|lia].
  - done.
  - destruct (decide (v ≤ length (popped c))); [by left|right].
    unfold wait. destruct (cons c); cbn; lia.
Qed.

(** There are such runs, even if the producers do nothing. *)
Lemma run_exists v k c : live_ok v c → bounded c → ∃ c', run v k c c' ∧ claims c' = claims c.
Proof.
  revert c. induction k as [|k IH]; intros c Hl Hb; [exists c; split; [constructor|done]|].
  destruct (consumer_moves v c Hl) as (c1&Hs).
  assert (claims c1 = claims c) as E
    by (destruct (consumer_step_cstep _ _ _ Hs) as (q&s&r&_&->); done).
  assert (bounded c1) as Hb1 by (unfold bounded; by rewrite E).
  destruct (consumer_step_live v c c1 Hl Hs Hb1) as (Hl1&_&_).
  destruct (IH c1 Hl1 Hb1) as (c'&Hr&E'). exists c'. split; [by eapply paced_own|]. by rewrite E'.
Qed.

(** C17: the ring delivers.  Let the pushes that claimed the first [v]
    positions have returned, and be visible to the consumer.  Then, whatever
    the producers do meanwhile, the consumer is never stuck, and within three
    of its own steps for each of these items it has not yet popped it has
    received all of them, in the order of their positions. *)
Theorem mpsc_delivers c v k c' :
  MpscWeak.reachable dflt Capacity c → (∀ p, p < v → returned c p) →
  run v k c c' → bounded c' →
  (∃ c'', consumer_step v c' c'') ∧
  (3 * (v - length (popped c)) ≤ k → take v (claims c).*2 `prefix_of` popped c').
Proof.
  intros Hr Hv Hrun Hb. destruct (run_bounded _ _ _ _ Hrun Hb) as [Hbc _].
  pose proof (weak_reachable dflt Capacity n Hcap Hn c Hr Hbc) as Hok.
  assert (live_ok v c) as Hl by (split; [done|by apply mpsc_views_reachable|by apply returned_published]).
  destruct (run_live _ _ _ _ Hl Hrun Hb) as [Hl' [l Hp]].
  split; [by apply consumer_moves|]. intros Hk.
  pose proof (run_pops _ _ _ _ Hl Hrun Hb Hk) as Hd.
  destruct (lo_published _ _ Hl) as [Hvc _].
  rewrite (ok_popped _ _ (lo_ok _ _ Hl')), Hp, fmap_app.
  rewrite <- (take_app_le _ l.*2) by (rewrite length_fmap; lia).
  set (xs := _ ++ _). rewrite <- (Nat.min_l v (length (popped c'))) by done.
  rewrite <- take_take. apply prefix_take.
Qed.

End live.

(** ** A concrete execution: one push has returned *)

Lemma demo_returned :
  ∃ c : MpscWeak.config (T := nat),
    MpscWeak.reachable 0 2 c ∧ claims c = [(3, 5)] ∧ (∀ p, p < 1 → returned c p).
Proof.
  destruct weak_demo_claimed as (c0&R0&Hc&Hp).
  destruct (write_plain (mem (ring c0)) (Producer 3) (pview (ring c0) 3) (slot 2 0) 5) as [m V] eqn:Ew.
  pose proof (MpscWeak.p_write 2 3 (ring c0) 5 0 m V Ew) as S1. rewrite <- Hp in S1.
  pose proof (MpscWeak.reach_next _ _ _ _ R0 (MpscWeak.step_prod 2 c0 3 _ _ _ S1)) as R1.
  set (c1 := MpscWeak.mkConfig _ _ _ _ _ _) in R1.
  destruct (store (mem (ring c1)) (pview (ring c1) 3) (seq_loc 2 0) Release (u64 (0 + 1)))
    as [m2 V2] eqn:Es.
  assert (prods c1 3 = PPublish 5 0) as E1 by (cbn; apply set_prod_eq).
  pose proof (MpscWeak.p_publish 2 3 (ring c1) 5 0 m2 V2 Es) as S2. rewrite <- E1 in S2.
  pose proof (MpscWeak.reach_next _ _ _ _ R1 (MpscWeak.step_prod 2 c1 3 _ _ _ S2)) as R2.
  eexists. split; [exact R2|]. split; [exact Hc|]. intros p Hlt. exists 3, 5.
  replace p with 0 by lia. split; [cbn; by rewrite Hc|]. cbn. rewrite set_prod_eq. by intros (x&[? | ?]).
Qed.

Lemma mpsc_delivers_witness :
  ∃ c c' : MpscWeak.config (T := nat), run 2 1 3 c c' ∧ [5] `prefix_of` popped c'.
Proof.
  destruct demo_returned as (c&Hr&Hc&Hv).
  assert (bounded c) as Hb by (unfold bounded; rewrite Hc; cbn; lia).
  assert (live_ok 2 1 c) as Hl.
  { pose proof (weak_reachable 0 2 1 eq_refl ltac:(lia) c Hr Hb) as Hok.
    split; [exact Hok|by apply (mpsc_views_reachable 0 2)|by apply returned_published]. }
  destruct (run_exists 2 1 eq_refl ltac:(lia) 1 3 c Hl Hb) as (c'&Hrun&E).
  exists c, c'. split; [exact Hrun|].
  destruct (mpsc_delivers 0 2 1 eq_refl ltac:(lia) c 1 3 c' Hr Hv Hrun) as [_ H].
  - unfold bounded. rewrite E, Hc. cbn. lia.
  - rewrite Hc in H. apply H. lia.
Defined.

End MpscLive.
