(* ===== verification/MpscCalls.v ===== *)
(** * Whole calls on the multi-producer ring (src/include/jane/concurrency/mpsc_ring_buffer.hpp)

    [try_push] and [try_pop] as functions, for a caller that is not
    interrupted.  They are runs of the step relations of [Mpsc], so the
    invariant proved there carries over and gives the ring's contract as a
    bounded queue: a push fails only on a full ring, and a pop only on an
    empty one. *)

From S2P Require Import Prelude Mpsc.
From stdpp Require Import base tactics numbers list sets.

Set Default Goal Selector "!".

Module MpscCalls.
Import Mpsc.

Section calls.
Context {T : Type} (dflt : T) (Capacity : nat).
Abbreviation t := (Mpsc.t (T := T)).
Abbreviation cell := (cell dflt Capacity).
Abbreviation set_cell := (set_cell Capacity).

(** The loop of [try_push].  A weak compare-exchange may fail for no
    reason; [cas] says which attempts do not.  [None]: [cas] ran out. *)
Fixpoint push_loop (cas : list bool) (q : t) (item : T) (pos : Z) : option (bool * t) :=
  match cas with
  | [] => None
  | attempt :: cas =>
      let d := diff (sequence (cell q pos)) pos in
      if (d =? 0)%Z then
        if attempt && (enqueue_pos q =? pos)%Z then
          let q := mk (cells q) (u64 (pos + 1)) (dequeue_pos q) in
          let q := set_cell q pos (mkCell (sequence (cell q pos)) item) in
          Some (true, set_cell q pos (mkCell (u64 (pos + 1)) (data (cell q pos))))
        else push_loop cas q item (enqueue_pos q)
      else if (d <? 0)%Z then Some (false, q)
      else push_loop cas q item (enqueue_pos q)
  end.

Definition try_push (cas : list bool) (q : t) (item : T) : option (bool * t) :=
  push_loop cas q item (enqueue_pos q).

Definition try_pop (q : t) : option T * t :=
  let c := cell q (dequeue_pos q) in
  if (diff (sequence c) (u64 (dequeue_pos q + 1)) =? 0)%Z then
    (Some (data c),
     mk (cells (set_cell q (dequeue_pos q)
           (mkCell (u64 (dequeue_pos q + Z.of_nat Capacity)) (data c))))
       (enqueue_pos q) (u64 (dequeue_pos q + 1)))
  else (None, q).

(** ** The ring between calls *)

Context (n : nat) (Hcap : Capacity = 2 ^ n) (Hn : 1 ≤ n < 62).

(** No call is in progress; [cl] are the claims and [pp] the pops so far. *)
Definition quiet (q : t) (cl : list (nat * T)) (pp : list T) : Prop :=
  ∃ prods acc, (∀ i, prods i = PIdle) ∧ bounded (mkConfig q prods CIdle cl acc pp) ∧
    ok Capacity (mkConfig q prods CIdle cl acc pp).

Lemma quiet_create : quiet (create dflt Capacity) [] [].
Proof.
  exists (λ _, PIdle), (λ _, []). split_and!; [done|done|].
  by apply (mpsc_create_ok dflt Capacity n Hcap Hn).
Qed.

Lemma diff_small a b :
  (0 ≤ a < 2 ^ 63)%Z → (0 ≤ b < 2 ^ 63)%Z → diff a b = (a - b)%Z.
Proof. intros. unfold diff. rewrite !i64_id; unfold is_i64; try lia. rewrite !i64_id; unfold is_i64; lia. Qed.

(** What a producer finds at the position it is given. *)
Lemma quiet_enqueue q cl pp :
  quiet q cl pp →
  enqueue_pos q = Z.of_nat (length cl) ∧
  diff (sequence (cell q (enqueue_pos q))) (enqueue_pos q) =
    (if decide (length cl < length pp + Capacity) then 0%Z else (1 - Z.of_nat Capacity)%Z).
Proof.
  intros (prods&acc&Hidle&Hb&Hok). unfold bounded in Hb. cbn in Hb.
  destruct (mpsc_cap Capacity n Hcap Hn) as [Hcp _].
  pose proof (ok_order _ _ Hok) as Ho. pose proof (ok_enq _ _ Hok) as He. cbn in Ho, He.
  split; [done|]. rewrite He. destruct (decide _) as [Hlt|Hge].
  - destruct (ok_cells _ _ Hok (length cl)) as (c&Hat&Hc); [cbn; lia|].
    cbn in Hat. rewrite (cell_at dflt Capacity n Hcap Hn _ _ _ Hat).
    unfold cell_ok in Hc. cbn in Hc. rewrite (proj2 (lookup_ge_None cl (length cl))) in Hc by lia.
    rewrite Hc, diff_small by lia. lia.
  - destruct (ok_cells _ _ Hok (length pp)) as (c&Hat&Hc); [cbn; lia|].
    assert (at_pos Capacity q (length cl) = Some c) as Hat'.
    { rewrite <- Hat. unfold at_pos. cbn. f_equal.
      replace (length cl) with (length pp + 1 * Capacity) by lia. apply Nat.Div0.mod_add. }
    rewrite (cell_at dflt Capacity n Hcap Hn _ _ _ Hat').
    unfold cell_ok in Hc. cbn in Hc.
    destruct (lookup_lt_is_Some_2 cl (length pp)) as [[i x] Hx]; [lia|]. rewrite Hx in Hc.
    destruct Hc as [[Hs _]|[_ [Hw|[Hw _]]]]; [|by rewrite Hidle in Hw..].
    rewrite Hs, diff_small by lia. lia.
Qed.

Lemma thread_step q prods cl acc pp i s0 q' s r :
  ok Capacity (mkConfig q prods CIdle cl acc pp) → prods i = s0 →
  pstep dflt Capacity q s0 q' s r →
  (Z.of_nat (length cl) + 1 < 2 ^ 63)%Z →
  ∃ acc', ok Capacity (mkConfig q' (set_prod prods i s) CIdle
    (match r with PClaimed x => cl ++ [(i, x)] | _ => cl end) acc' pp).
Proof.
  intros Hok Hi Hs Hb. rewrite <- Hi in Hs. eexists.
  apply (pstep_mpsc dflt Capacity n Hcap Hn _ i q' s r Hok Hs). unfold bounded. cbn.
  destruct r; rewrite ?length_app; cbn; lia.
Qed.

(** One uninterrupted successful push by thread [i]. *)
Lemma quiet_push_steps q cl pp i x :
  quiet q cl pp → (Z.of_nat (length cl) + 2 < 2 ^ 63)%Z →
  diff (sequence (cell q (enqueue_pos q))) (enqueue_pos q) = 0%Z →
  quiet (let q1 := mk (cells q) (u64 (enqueue_pos q + 1)) (dequeue_pos q) in
         let q2 := set_cell q1 (enqueue_pos q) (mkCell (sequence (cell q1 (enqueue_pos q))) x) in
         set_cell q2 (enqueue_pos q)
           (mkCell (u64 (enqueue_pos q + 1)) (data (cell q2 (enqueue_pos q)))))
    (cl ++ [(i, x)]) pp.
Proof.
  intros (prods&acc&Hidle&_&Hok) Hlim Hd.
  assert (Z.of_nat (length (cl ++ [(i, x)])) + 1 < 2 ^ 63)%Z as Hb' by (rewrite length_app; cbn; lia).
  edestruct (thread_step _ _ _ _ _ i _ _ _ _ Hok (Hidle i) (p_start _ _ _ x)) as [a1 H1]; [lia|].
  edestruct (thread_step _ _ _ _ _ i _ _ _ _ H1 (set_prod_eq _ _ _) (p_load _ _ _ x))
    as [a2 H2]; [lia|].
  edestruct (thread_step _ _ _ _ _ i _ _ _ _ H2 (set_prod_eq _ _ _) (p_free _ _ _ x _ Hd))
    as [a3 H3]; [lia|].
  edestruct (thread_step _ _ _ _ _ i _ _ _ _ H3 (set_prod_eq _ _ _) (p_cas_ok _ _ _ x _ eq_refl))
    as [a4 H4]; [lia|].
  edestruct (thread_step _ _ _ _ _ i _ _ _ _ H4 (set_prod_eq _ _ _) (p_write _ _ _ x _))
    as [a5 H5]; [exact Hb'|].
  edestruct (thread_step _ _ _ _ _ i _ _ _ _ H5 (set_prod_eq _ _ _) (p_publish _ _ _ x _))
    as [a6 H6]; [exact Hb'|].
  eexists _, a6. split_and!; [|unfold bounded; cbn [claims]; lia|exact H6].
  intros j. destruct (decide (j = i)) as [->|Hj]; [by rewrite set_prod_eq|].
  rewrite !set_prod_ne by done. apply Hidle.
Qed.

Lemma quiet_push cas q cl pp i x :
  quiet q cl pp → (Z.of_nat (length cl) + 2 < 2 ^ 63)%Z → true ∈ cas →
  ∃ q', try_push cas q x = Some (bool_decide (length cl < length pp + Capacity), q') ∧
    quiet q' (if decide (length cl < length pp + Capacity) then cl ++ [(i, x)] else cl) pp.
Proof.
  intros Hq Hlim Hcas. destruct (quiet_enqueue _ _ _ Hq) as [He Hd]. unfold try_push.
  destruct (mpsc_cap Capacity n Hcap Hn) as [Hcp _].
  destruct (decide (length cl < length pp + Capacity)) as [Hlt|Hge].
  - rewrite bool_decide_eq_true_2 by done.
    pose proof (quiet_push_steps _ _ _ i x Hq Hlim Hd) as Hq'.
    induction cas as [|a cas IH]; [set_solver|]. cbn [push_loop]. rewrite Hd. cbn [Z.eqb].
    rewrite Z.eqb_refl. destruct a; cbn [andb].
    + eexists. split; [reflexivity|exact Hq'].
    + apply IH. set_solver.
  - rewrite bool_decide_eq_false_2 by done. destruct cas as [|a cas]; [set_solver|].
    cbn [push_loop]. rewrite Hd, (proj2 (Z.eqb_neq _ _)), (proj2 (Z.ltb_lt _ _)) by lia. eauto.
Qed.

Lemma quiet_pop q cl pp :
  quiet q cl pp →
  match cl !! length pp with
  | Some (_, x) => ∃ q', try_pop q = (Some x, q') ∧ quiet q' cl (pp ++ [x])
  | None => try_pop q = (None, q)
  end.
Proof.
  intros (prods&acc&Hidle&Hb&Hok). pose proof Hb as Hlim. unfold bounded in Hlim. cbn in Hlim.
  destruct (mpsc_cap Capacity n Hcap Hn) as [Hcp _].
  pose proof (ok_order _ _ Hok) as Ho. pose proof (ok_deq _ _ Hok) as Hde. cbn in Ho, Hde.
  destruct (ok_cells _ _ Hok (length pp)) as (c&Hat&Hc); [cbn; lia|]. cbn in Hat.
  pose proof (cell_at dflt Capacity n Hcap Hn _ _ _ Hat) as Hce.
  unfold try_pop. unfold cell_ok in Hc. cbn in Hc.
  assert (u64 (dequeue_pos q + 1) = Z.of_nat (length pp + 1)) as Hnext
    by (rewrite u64_id by (unfold is_u64; lia); lia).
  destruct (cl !! length pp) as [[i x]|] eqn:Hx.
  - destruct Hc as [[Hs Hdt]|[_ [Hw|[Hw _]]]]; [|by rewrite Hidle in Hw..].
    apply lookup_lt_Some in Hx as Hlt.
    assert (diff (sequence (cell q (dequeue_pos q))) (u64 (dequeue_pos q + 1)) = 0%Z) as Hd
      by (rewrite Hde, Hce, Hs, <- Hde, Hnext, diff_small by lia; lia).
    rewrite Hd. cbn [Z.eqb].
    pose proof (cstep_mpsc dflt Capacity n Hcap Hn) as Hstep.
    pose proof (Hstep _ _ _ _ Hok Hb (c_ready _ _ q Hd)) as H1. cbn in H1.
    eapply Hstep in H1; [|exact Hb|apply c_read]. cbn in H1.
    eapply Hstep in H1; [|exact Hb|apply c_release]. cbn in H1.
    assert (data (cell q (dequeue_pos q)) = x) as Ex by by rewrite Hde, Hce.
    eexists. split; [by rewrite Ex|]. exists prods, acc. rewrite Ex in *. by split_and!.
  - rewrite (proj2 (Z.eqb_neq _ _)); [done|].
    rewrite Hnext, Hde, Hce, Hc. intros Hz.
    rewrite (diff_zero Capacity n Hcap Hn) in Hz; lia.
Qed.

(** [q] holds the items [l], oldest first, after [k] accepted pushes. *)
Definition content (q : t) (k : nat) (l : list T) : Prop :=
  ∃ cl pp, quiet q cl pp ∧ k = length cl ∧ l = drop (length pp) cl.*2.

Lemma mpsc_content_create : content (create dflt Capacity) 0 [].
Proof. exists [], []. split; [apply quiet_create|done]. Qed.

Lemma quiet_bounds q cl pp :
  quiet q cl pp → length pp ≤ length cl ≤ length pp + Capacity.
Proof. intros (prods&acc&_&_&Hok). exact (ok_order _ _ Hok). Qed.

Lemma mpsc_content_push cas q k l x :
  content q k l → (Z.of_nat k + 2 < 2 ^ 63)%Z → true ∈ cas →
  ∃ q', try_push cas q x = Some (bool_decide (length l < Capacity), q') ∧
    if decide (length l < Capacity) then content q' (S k) (l ++ [x]) else content q' k l.
Proof.
  intros (cl&pp&Hq&->&->) Hlim Hcas. pose proof (quiet_bounds _ _ _ Hq) as Ho.
  destruct (quiet_push cas q cl pp 0 x Hq Hlim Hcas) as (q'&E&Hq'). exists q'.
  rewrite length_drop, length_fmap.
  rewrite (bool_decide_ext (length cl < length pp + Capacity) (length cl - length pp < Capacity)) in E
    by lia.
  split; [done|]. destruct (decide (length cl - length pp < Capacity)) as [Hlt|Hge].
  - rewrite decide_True in Hq' by lia. exists (cl ++ [(0, x)]), pp. split_and!; [done| |].
    + rewrite length_app. cbn. lia.
    + rewrite fmap_app, drop_app_le by (rewrite length_fmap; lia). done.
  - rewrite decide_False in Hq' by lia. by exists cl, pp.
Qed.

Lemma mpsc_content_pop q k l :
  content q k l → ∃ q', try_pop q = (hd_error l, q') ∧ content q' k (tail l).
Proof.
  intros (cl&pp&Hq&->&->). pose proof (quiet_pop q cl pp Hq) as H.
  destruct (cl !! length pp) as [[i x]|] eqn:Hx.
  - assert (cl.*2 !! length pp = Some x) as Hx2 by by rewrite list_lookup_fmap, Hx.
    destruct H as (q'&E&Hq'). exists q'. rewrite (drop_S _ _ _ Hx2). split; [done|].
    exists cl, (pp ++ [x]). split_and!; [done|done|]. rewrite length_app, Nat.add_1_r. done.
  - exists q. apply lookup_ge_None in Hx.
    assert (drop (length pp) cl.*2 = []) as -> by (apply drop_ge; by rewrite length_fmap).
    split; [done|]. exists cl, pp. split_and!; [done|done|]. cbn. symmetry. apply drop_ge.
    by rewrite length_fmap.
Qed.

End calls.

(** A push survives spurious failures of the compare-exchange. *)
Example spurious_failures_retried :
  (λ '(b, q), (b, (try_pop 0 2 q).1)) <$> try_push 0 2 [false; false; true] (create 0 2) 7 =
  Some (true, Some 7).
Proof. reflexivity. Qed.

End MpscCalls.
