(* ===== verification/Throughput.v ===== *)
(** * Producers and a consumer over a channel (src/bench/bench_spsc_ring_buffer.cpp, src/bench/bench_mpsc.cpp)

    The throughput benchmarks are one program: every producer thread waits
    for the start flag and then pushes its messages, retrying a full
    channel; the consumer sets the flag and pops until it has counted all
    of them.  [Channel] is what the program uses of a queue and
    [ChannelLaws] what a queue must promise: order per producer, and that a
    call only fails when it has a reason to.  [BenchRings] instantiates it
    with the four queues the benchmarks measure.

    The scheduler picks a thread per step, and a step is one whole call on
    the channel.  This is an abstraction: the source interleaves the threads
    at every access, and a pop of the multi-producer ring may then fail
    although a later push has completed, which [ch_pop_spec] rules out.
    SpscBench.v has the single-producer program at the granularity of memory
    accesses; for the multi-producer queues that granularity is in
    MpscWeak.v, MpscLive.v, FanInWeak.v and FanInLive.v, without this
    program. *)

From S2P Require Import Prelude.
From stdpp Require Import base tactics numbers list sets.

Set Default Goal Selector "!".

Class Channel (C T : Type) := {
  ch_push : C → nat → T → bool * C;
  ch_pop : C → option T * C;
}.

(** [ch_holds c k l]: [c] has accepted [k] messages and holds [l]; only the
    order of messages of one producer matters. *)
Class ChannelLaws (C T : Type) `{!Channel C T} (producer_of : T → nat) (NumProducers : nat) := {
  ch_holds : C → nat → list T → Prop;
  ch_push_spec c k l p x :
    ch_holds c k l → producer_of x = p → p < NumProducers → (Z.of_nat k + 2 < 2 ^ 63)%Z →
    ∃ b c', ch_push c p x = (b, c') ∧
      if b then ch_holds c' (S k) (l ++ [x]) else l ≠ [] ∧ ch_holds c' k l;
  ch_pop_spec c k l :
    ch_holds c k l →
    ∃ r c', ch_pop c = (r, c') ∧
      match r with
      | None => l = [] ∧ ch_holds c' k l
      | Some x => ∃ l1 l2, l = l1 ++ x :: l2 ∧ Forall (λ y, producer_of y ≠ producer_of x) l1 ∧
          ch_holds c' k (l1 ++ l2)
      end;
}.

Module Throughput.

(** Who runs next. *)
Inductive thread := Producer (p : nat) | Consumer.

#[export] Instance thread_eq_dec : EqDecision thread.
Proof. solve_decision. Defined.

Section driver.
Context {C T A : Type} `{!Channel C T}.
Context (NumProducers kOpsPerProducer : nat).
(** The [i]-th message of a producer, and the consumer's work per message. *)
Context (message : nat → nat → T) (work : A → T → A).

Record state := mk {
  queue : C;
  started : bool;
  next : list nat;
  received : list T;
  sink : A;
}.

Definition init (q : C) (a : A) : state := mk q false (replicate NumProducers 0) [] a.

Definition total : nat := kOpsPerProducer * NumProducers.

(** One turn of a producer's loop: a spin on the start flag, or a whole
    [try_push] with nothing of another thread in between. *)
Definition produce (p : nat) (s : state) : state :=
  match next s !! p with
  | Some i =>
      if started s && (i <? kOpsPerProducer) then
        let '(ok, q) := ch_push (queue s) p (message p i) in
        mk q true (if ok then <[p := S i]> (next s) else next s) (received s) (sink s)
      else s
  | None => s
  end.

(** One turn of the consumer: setting the flag, or a whole [try_pop]. *)
Definition consume (s : state) : state :=
  if started s then
    if length (received s) <? total then
      match ch_pop (queue s) with
      | (Some out, q) => mk q true (next s) (received s ++ [out]) (work (sink s) out)
      | (None, q) => mk q true (next s) (received s) (sink s)
      end
    else s
  else mk (queue s) true (next s) (received s) (sink s).

Definition turn (s : state) (t : thread) : state :=
  match t with Producer p => produce p s | Consumer => consume s end.

Definition run (schedule : list thread) (s : state) : state := foldl turn s schedule.

(** Every producer has returned and the consumer has left its loop. *)
Definition finished (s : state) : Prop :=
  next s = replicate NumProducers kOpsPerProducer ∧ length (received s) = total.

(** ** The invariant *)

Context (producer_of : T → nat) (Hmsg : ∀ p i, p < NumProducers → producer_of (message p i) = p).
Context `{!ChannelLaws C T producer_of NumProducers}.
Context (Hbound : (Z.of_nat total + 2 < 2 ^ 63)%Z).

Definition from (p : nat) (l : list T) : list T := filter (λ x, producer_of x = p) l.

Record inv (s : state) (l : list T) (a0 : A) : Prop := {
  iv_holds : ch_holds (queue s) (sum_list (next s)) l;
  iv_len : length (next s) = NumProducers;
  iv_le p i : next s !! p = Some i → i ≤ kOpsPerProducer;
  iv_sum : length (received s) + length l = sum_list (next s);
  iv_order p i : next s !! p = Some i → from p (received s ++ l) = message p <$> seq 0 i;
  iv_sink : sink s = foldl work a0 (received s);
}.

Lemma from_app p l1 l2 : from p (l1 ++ l2) = from p l1 ++ from p l2.
Proof. apply filter_app. Qed.

Lemma from_none p l : Forall (λ y, producer_of y ≠ p) l → from p l = [].
Proof. unfold from. induction 1 as [|x l Hx _ IH]; [done|]. by rewrite filter_cons_False. Qed.

Lemma sum_insert (l : list nat) p i : l !! p = Some i → sum_list (<[p := S i]> l) = S (sum_list l).
Proof.
  revert p. induction l as [|x l IH]; intros [|p] H; [done|done| |].
  - by injection H as ->.
  - specialize (IH p H). change (x + sum_list (<[p := S i]> l) = S (x + sum_list l)). lia.
Qed.

Lemma sum_le (l : list nat) k : (∀ p i, l !! p = Some i → i ≤ k) → sum_list l ≤ k * length l.
Proof.
  induction l as [|x l IH]; intros H; cbn; [lia|].
  pose proof (H 0 x eq_refl). pose proof (IH (λ p, H (S p))). lia.
Qed.

Lemma inv_total s l a0 : inv s l a0 → sum_list (next s) ≤ total.
Proof.
  intros Hi. pose proof (sum_le _ _ (iv_le _ _ _ Hi)) as H.
  rewrite (iv_len _ _ _ Hi) in H. exact H.
Qed.

Lemma sum_replicate m k : sum_list (replicate m k) = k * m.
Proof. induction m as [|m IH]; cbn; [lia|]. change (k + sum_list (replicate m k) = k * S m). lia. Qed.

Lemma inv_init q a0 : ch_holds q 0 [] → inv (init q a0) [] a0.
Proof.
  assert (sum_list (replicate NumProducers 0) = 0) as E by apply sum_replicate.
  split; cbn [init queue started next received sink]; rewrite ?E; try done.
  - apply length_replicate.
  - intros p i [-> _]%lookup_replicate. lia.
  - by intros p i [-> _]%lookup_replicate.
Qed.

(** ** One turn *)

(** What is left to do; no turn increases it. *)
Definition measure (s : state) : nat :=
  (total - sum_list (next s)) + (total - length (received s)) + (if started s then 0 else 1).

(** A turn that can do nothing now. *)
Definition blocked (s : state) (l : list T) (t : thread) : Prop :=
  match t with
  | Producer p => started s = false ∨ next s !! p = None ∨ next s !! p = Some kOpsPerProducer ∨ l ≠ []
  | Consumer => started s = true ∧ (length (received s) = total ∨ l = [])
  end.

Definition same (s s' : state) : Prop :=
  started s' = started s ∧ next s' = next s ∧ received s' = received s.

Definition progress (s : state) (l : list T) (t : thread) (s' : state) (l' : list T) : Prop :=
  measure s' < measure s ∨ (same s s' ∧ l' = l ∧ blocked s l t).

Lemma progress_idle s l t : blocked s l t → progress s l t s l.
Proof. intros Hb. right. split_and!; done. Qed.

Lemma produce_step s l a0 p :
  inv s l a0 → ∃ l', inv (produce p s) l' a0 ∧ progress s l (Producer p) (produce p s) l'.
Proof.
  intros Hi. pose proof (inv_total _ _ _ Hi) as Ht. unfold produce.
  destruct (next s !! p) as [i|] eqn:Hp; [|exists l; split; [done|]; apply progress_idle; cbn; by auto].
  destruct (started s) eqn:Hs; cbn [andb]; [|exists l; split; [done|]; apply progress_idle; cbn; by auto].
  pose proof (iv_le _ _ _ Hi p i Hp) as Hle.
  destruct (Nat.ltb_spec i kOpsPerProducer) as [Hlt|Hge].
  2: { exists l. split; [done|]. apply progress_idle. cbn. rewrite Hp.
       right; right; left. f_equal. lia. }
  assert (p < NumProducers) as Hpn by (rewrite <- (iv_len _ _ _ Hi); by eapply lookup_lt_Some).
  destruct (ch_push_spec (queue s) _ l p (message p i) (iv_holds _ _ _ Hi) (Hmsg p i Hpn) Hpn)
    as (b&q'&->&Hh); [lia|].
  destruct Hi as [_ Hlen Hle' Hsum Hord Hsink]. destruct b.
  - assert (sum_list (<[p := S i]> (next s)) = S (sum_list (next s))) as Es by by apply sum_insert.
    assert (length (<[p := S i]> (next s)) = NumProducers) as Hlen' by by rewrite length_insert.
    assert (∀ p' j, <[p := S i]> (next s) !! p' = Some j → j ≤ kOpsPerProducer) as Hle2.
    { intros p' j [(<-&<-&_)|[_ Hj]]%list_lookup_insert_Some; [lia|by eapply Hle']. }
    exists (l ++ [message p i]). split.
    + split; cbn [queue started next received sink]; try done.
      * by rewrite Es.
      * rewrite Es, length_app. cbn. lia.
      * intros p' j [(<-&<-&_)|[Hne Hj]]%list_lookup_insert_Some; rewrite app_assoc, from_app.
        -- rewrite (Hord _ _ Hp), seq_S, fmap_app. f_equal. unfold from.
           rewrite filter_cons_True by by apply Hmsg. done.
        -- rewrite (Hord _ _ Hj). unfold from. rewrite filter_cons_False by (rewrite Hmsg by done; congruence).
           apply app_nil_r.
    + left. unfold measure. cbn [started next received]. rewrite Es, Hs.
      pose proof (sum_le _ _ Hle2) as Hb. rewrite Hlen', Es in Hb. fold total in Hb. lia.
  - destruct Hh as [Hne Hh]. exists l. split; [by split|]. right. split_and!; [done|done|]. cbn. auto.
Qed.

Lemma consume_step s l a0 :
  inv s l a0 → ∃ l', inv (consume s) l' a0 ∧ progress s l Consumer (consume s) l'.
Proof.
  intros Hi. pose proof (inv_total _ _ _ Hi) as Ht. unfold consume.
  destruct (started s) eqn:Hs.
  2: { exists l. split; [by destruct Hi|]. left. unfold measure. cbn. rewrite Hs. lia. }
  pose proof (iv_sum _ _ _ Hi) as Hsm.
  destruct (Nat.ltb_spec (length (received s)) total) as [Hlt|Hge].
  2: { exists l. split; [done|]. apply progress_idle. split; [done|left; lia]. }
  destruct (ch_pop_spec _ _ _ (iv_holds _ _ _ Hi)) as (r&q'&->&Hr).
  destruct Hi as [_ Hlen Hle Hsum Hord Hsink]. destruct r as [x|].
  - destruct Hr as (l1&l2&->&Hl1&Hh). exists (l1 ++ l2). split.
    + split; cbn [queue started next received sink]; try done.
      * rewrite !length_app in *. cbn in *. lia.
      * intros p i Hp. rewrite <- (Hord p i Hp), <- app_assoc, !from_app. f_equal.
        cbn [app]. unfold from. destruct (decide (producer_of x = p)) as [<-|Hne].
        -- rewrite filter_cons_True, filter_cons_True by done.
           pose proof (from_none _ _ Hl1) as En. unfold from in En. by rewrite En.
        -- by rewrite !filter_cons_False.
      * by rewrite foldl_app, Hsink.
    + left. unfold measure. cbn [started next received]. rewrite Hs, length_app. cbn. lia.
  - destruct Hr as [-> Hh]. exists []. split; [by split|]. right. split_and!; [done|done|]. cbn. auto.
Qed.

Lemma turn_step s l a0 t :
  inv s l a0 → ∃ l', inv (turn s t) l' a0 ∧ progress s l t (turn s t) l'.
Proof. intros Hi. destruct t; [by apply produce_step|by apply consume_step]. Qed.

Lemma run_inv schedule s l a0 : inv s l a0 → ∃ l', inv (run schedule s) l' a0.
Proof.
  revert s l. induction schedule as [|t ts IH]; intros s l Hi; [by exists l|].
  destruct (turn_step s l a0 t Hi) as (l1&H1&_). by apply (IH _ l1).
Qed.

(** ** Progress *)

Lemma blocked_same s s' l t : same s s' → blocked s' l t → blocked s l t.
Proof. intros (E1&E2&E3). destruct t; cbn; by rewrite E1, ?E2, ?E3. Qed.

Lemma measure_same s s' : same s s' → measure s' = measure s.
Proof. intros (E1&E2&E3). unfold measure. by rewrite E1, E2, E3. Qed.

Lemma run_progress ts s l a0 :
  inv s l a0 →
  ∃ l', inv (run ts s) l' a0 ∧
    (measure (run ts s) < measure s ∨
     (measure (run ts s) = measure s ∧ Forall (blocked s l) ts)).
Proof.
  revert s l. induction ts as [|t ts IH]; intros s l Hi.
  { exists l. split; [done|]. by right. }
  destruct (turn_step s l a0 t Hi) as (l1&H1&Hp). destruct (IH _ _ H1) as (l2&H2&Hq).
  exists l2. split; [exact H2|]. cbn [run foldl] in *. fold (run ts (turn s t)) in *.
  destruct Hp as [Hlt|(Hs&->&Hb)].
  - left. destruct Hq as [?|[? _]]; lia.
  - pose proof (measure_same _ _ Hs) as Em. destruct Hq as [?|[? Hf]]; [left; lia|].
    right. split; [lia|]. constructor; [done|]. eapply Forall_impl; [exact Hf|].
    intros t'. by apply blocked_same.
Qed.

(** Every thread gets a turn in [ts]. *)
Definition round (ts : list thread) : Prop :=
  Consumer ∈ ts ∧ ∀ p, p < NumProducers → Producer p ∈ ts.

Lemma all_next (l : list nat) k : (∀ p i, l !! p = Some i → i = k) → l = replicate (length l) k.
Proof.
  induction l as [|x l IH]; intros H; [done|]. cbn. f_equal; [by apply (H 0)|].
  apply IH. intros p. by apply (H (S p)).
Qed.

(** Nobody can move only when the work is done. *)
Lemma blocked_finished s l a0 ts :
  inv s l a0 → round ts → Forall (blocked s l) ts → finished s.
Proof.
  intros Hi [Hc Hps] Hf. rewrite Forall_forall in Hf.
  pose proof (Hf _ Hc) as [Hst Hr]. cbn in Hr. pose proof (inv_total _ _ _ Hi) as Ht.
  pose proof (iv_sum _ _ _ Hi) as Hsum. pose proof (iv_len _ _ _ Hi) as Hlen.
  assert (next s = replicate NumProducers kOpsPerProducer) as En.
  { rewrite <- Hlen. apply all_next. intros p i Hp.
    pose proof (iv_le _ _ _ Hi p i Hp) as Hle.
    destruct Hr as [Hr| ->].
    - destruct (decide (i = kOpsPerProducer)) as [|Hne]; [done|]. exfalso.
      pose proof (sum_le (<[p := S i]> (next s)) kOpsPerProducer) as Hs.
      rewrite length_insert, (sum_insert _ _ _ Hp), Hlen in Hs. fold total in Hs.
      enough (S (sum_list (next s)) ≤ total) by lia. apply Hs.
      intros p' j [(<-&<-&_)|[_ Hj]]%list_lookup_insert_Some; [lia|by eapply iv_le].
    - assert (p < NumProducers) as Hpn by (rewrite <- Hlen; by eapply lookup_lt_Some).
      pose proof (Hf _ (Hps p Hpn)) as Hb. cbn in Hb. destruct Hb as [?|[?|[?|?]]]; congruence. }
  split; [done|]. destruct Hr as [Hr| ->]; [done|].
  rewrite En, sum_replicate in Hsum. cbn in Hsum. unfold total. lia.
Qed.

Lemma finished_measure s : finished s → measure s ≤ 1.
Proof.
  intros [En Er]. unfold measure. rewrite En, sum_replicate, Er. unfold total. destruct (started s); lia.
Qed.

Lemma finished_run s l a0 ts : inv s l a0 → finished s → finished (run ts s).
Proof.
  intros Hi Hf. revert s l Hi Hf. induction ts as [|t ts IH]; intros s l Hi Hf; [done|].
  destruct (turn_step s l a0 t Hi) as (l1&H1&_). cbn. apply (IH _ l1 H1). destruct Hf as [En Er].
  destruct t as [p|]; cbn [turn].
  - unfold produce. destruct (next s !! p) as [i|] eqn:Hp; [|done].
    rewrite En in Hp. apply lookup_replicate in Hp as [-> _].
    rewrite Nat.ltb_irrefl, andb_false_r. done.
  - unfold consume. rewrite Er, Nat.ltb_irrefl. by destruct (started s).
Qed.

Lemma rounds_finish rounds s l a0 :
  inv s l a0 → Forall round rounds → measure s < length rounds → finished (run (concat rounds) s).
Proof.
  revert s l. induction rounds as [|ts rounds IH]; intros s l Hi Hr Hm; [cbn in Hm; lia|].
  apply Forall_cons in Hr as [Ht Hr]. cbn [concat]. unfold run. rewrite foldl_app.
  fold (run ts s). fold (run (concat rounds) (run ts s)).
  destruct (run_progress ts s l a0 Hi) as (l1&H1&[Hlt|[Em Hb]]).
  - apply (IH _ l1); [done|done|]. cbn in Hm. lia.
  - apply (finished_run _ l1 a0); [done|]. apply (finished_run _ l a0); [done|].
    by eapply blocked_finished.
Qed.

Lemma run_received schedule q a0 :
  ch_holds q 0 [] →
  let s := run schedule (init q a0) in
  sink s = foldl work a0 (received s) ∧
  ∀ p, p < NumProducers →
    ∃ k, k ≤ kOpsPerProducer ∧ from p (received s) = message p <$> seq 0 k.
Proof.
  intros Hq s. destruct (run_inv schedule (init q a0) [] a0 (inv_init q a0 Hq)) as (l&Hi).
  fold s in Hi. split; [apply Hi|]. intros p Hp.
  destruct (lookup_lt_is_Some_2 (next s) p) as [i Hn]; [by rewrite (iv_len _ _ _ Hi)|].
  pose proof (iv_order _ _ _ Hi p i Hn) as E. pose proof (iv_le _ _ _ Hi p i Hn) as Hle.
  rewrite from_app in E. exists (length (from p (received s))).
  assert (length (from p (received s)) ≤ i) as Hk.
  { assert (length (from p (received s) ++ from p l) = i) as El by by rewrite E, length_fmap, length_seq.
    rewrite length_app in El. lia. }
  split; [lia|].
  apply (f_equal (take (length (from p (received s))))) in E. rewrite take_app_length in E.
  rewrite E at 1. rewrite <- fmap_take, take_seq. do 2 f_equal. lia.
Qed.

(** At the end the consumer has every producer's messages, in order. *)
Lemma finished_received s l a0 p :
  inv s l a0 → finished s → p < NumProducers →
  from p (received s) = message p <$> seq 0 kOpsPerProducer.
Proof.
  intros Hi [En Er] Hp. pose proof (iv_sum _ _ _ Hi) as Hs.
  rewrite En, sum_replicate, Er in Hs. unfold total in Hs.
  destruct l as [|x l]; [|cbn in Hs; lia].
  rewrite <- (iv_order _ _ _ Hi p kOpsPerProducer), app_nil_r; [done|].
  rewrite En. by apply lookup_replicate_2.
Qed.

Lemma measure_init q a0 : measure (init q a0) = 2 * total + 1.
Proof. unfold measure, init. cbn [next received started]. rewrite sum_replicate. cbn. lia. Qed.

End driver.

Arguments state : clear implicits.

End Throughput.
