(* ===== verification/BenchRings.v ===== *)
(** * The queue benchmarks (src/bench/bench_spsc_ring_buffer.cpp, src/bench/bench_mpsc.cpp)

    The baseline ring without cached indices, shown to be what its comment
    says, functionally identical to the ring it is compared with, call by
    call; and the program of [Throughput] run over the four queues, whose
    turns are whole calls.  SpscBench.v has the single-producer program with
    its threads interleaved at every memory access. *)

From S2P Require Import Prelude Spsc FanIn Mpsc MpscCalls Throughput.
From stdpp Require Import base tactics numbers list sets.

Set Default Goal Selector "!".

(** ** The baseline ring *)

Module Naive.
Section ring.
Context {T : Type} (dflt : T) (Capacity : nat).

Record t := mk { buffer : list T; head : Z; tail : Z }.

Definition create : t := mk (replicate Capacity dflt) 0 0.

Definition kMask : Z := (Z.of_nat Capacity - 1)%Z.
Definition slot (index : Z) : nat := Z.to_nat (Z.land index kMask).

Definition try_push (q : t) (item : T) : bool * t :=
  if (Z.of_nat Capacity <=? u64 (head q - tail q))%Z then (false, q)
  else (true, mk (<[slot (head q) := item]> (buffer q)) (u64 (head q + 1)) (tail q)).

Definition try_pop (q : t) : option T * t :=
  if (tail q =? head q)%Z then (None, q)
  else (Some (default dflt (buffer q !! slot (tail q))),
        mk (buffer q) (head q) (u64 (tail q + 1))).

(** The cached ring without its caches. *)
Definition forget (q : Spsc.t (T := T)) : t := mk (Spsc.buffer q) (Spsc.head q) (Spsc.tail q).

Context (n : nat) (Hcap : Capacity = 2 ^ n) (Hn : 1 ≤ n < 63).

(** A stale cache never changes the answer: a cached [tail] says full too
    early, never too late, and is refreshed before that answer is given. *)
Lemma push_forget q l x :
  Spsc.content Capacity q l →
  try_push (forget q) x = prod_map id forget (Spsc.try_push Capacity q x).
Proof.
  intros (ps&tl&tc&hc&Hi&_).
  pose proof (Spsc.i_head _ _ _ _ _ _ Hi) as Hh. pose proof (Spsc.i_tail _ _ _ _ _ _ Hi) as Ht.
  pose proof (Spsc.i_tcache _ _ _ _ _ _ Hi) as Htc. pose proof (Spsc.i_order _ _ _ _ _ _ Hi) as Ho.
  unfold try_push, Spsc.try_push, forget. cbn [buffer head tail Spsc.head Spsc.tail Spsc.tail_cache].
  change (Z.of_nat Capacity <=? u64 (Spsc.head q - Spsc.tail q))%Z
    with (Spsc.full Capacity (Spsc.head q) (Spsc.tail q)).
  rewrite Hh, Ht, Htc.
  rewrite (Spsc.full_spec Capacity n Hcap Hn (length ps) tl) by lia.
  rewrite (Spsc.full_spec Capacity n Hcap Hn (length ps) tc) by lia.
  destruct (decide (length ps = tl + Capacity)) as [E|E].
  - rewrite !bool_decide_eq_true_2 by lia. cbn. by rewrite ?Hh, ?Ht.
  - rewrite (bool_decide_eq_false_2 (length ps = tl + Capacity)) by done.
    case_bool_decide; cbn; by rewrite ?Hh, ?Ht.
Qed.

Lemma pop_forget q l :
  Spsc.content Capacity q l →
  try_pop (forget q) = prod_map id forget (Spsc.try_pop dflt Capacity q).
Proof.
  intros (ps&tl&tc&hc&Hi&_).
  pose proof (Spsc.i_head _ _ _ _ _ _ Hi) as Hh. pose proof (Spsc.i_tail _ _ _ _ _ _ Hi) as Ht.
  pose proof (Spsc.i_hcache _ _ _ _ _ _ Hi) as Hhc. pose proof (Spsc.i_order _ _ _ _ _ _ Hi) as Ho.
  unfold try_pop, Spsc.try_pop, forget. cbn [buffer head tail Spsc.head Spsc.tail Spsc.head_cache].
  rewrite Hh, Ht, Hhc.
  rewrite (Spsc.u64_eqb Capacity n Hcap Hn tl (length ps)) by lia.
  rewrite (Spsc.u64_eqb Capacity n Hcap Hn tl hc) by lia.
  destruct (decide (tl = length ps)) as [E|E].
  - rewrite !bool_decide_eq_true_2 by lia. cbn. by rewrite ?Hh, ?Ht.
  - rewrite (bool_decide_eq_false_2 (tl = length ps)) by done.
    case_bool_decide; cbn; by rewrite ?Hh, ?Ht.
Qed.

(** A sequence of calls and what they return. *)
Inductive call := Push (item : T) | Pop.

Fixpoint run (cs : list call) (q : t) : list (bool + option T) * t :=
  match cs with
  | [] => ([], q)
  | Push x :: cs => let '(b, q) := try_push q x in let '(rs, q) := run cs q in (inl b :: rs, q)
  | Pop :: cs => let '(r, q) := try_pop q in let '(rs, q) := run cs q in (inr r :: rs, q)
  end.

Fixpoint run_cached (cs : list call) (q : Spsc.t (T := T)) : list (bool + option T) * Spsc.t :=
  match cs with
  | [] => ([], q)
  | Push x :: cs =>
      let '(b, q) := Spsc.try_push Capacity q x in
      let '(rs, q) := run_cached cs q in (inl b :: rs, q)
  | Pop :: cs =>
      let '(r, q) := Spsc.try_pop dflt Capacity q in
      let '(rs, q) := run_cached cs q in (inr r :: rs, q)
  end.

Lemma run_forget cs q l :
  Spsc.content Capacity q l → run cs (forget q) = prod_map id forget (run_cached cs q).
Proof.
  revert q l. induction cs as [|[x|] cs IH]; intros q l Hq; [done| |]; cbn [run run_cached].
  - rewrite (push_forget q l x Hq).
    destruct (Spsc.content_push Capacity n Hcap Hn q l x Hq) as (q'&->&Hq'). cbn [prod_map fst snd].
    rewrite (IH _ _ Hq'). by destruct (run_cached cs q').
  - rewrite (pop_forget q l Hq).
    destruct (Spsc.content_pop dflt Capacity n Hcap Hn q l Hq) as (q'&->&Hq').
    cbn [prod_map fst snd]. rewrite (IH _ _ Hq'). by destruct (run_cached cs q').
Qed.

(** C20: the baseline is functionally identical to the ring with cached
    indices: every sequence of calls on new rings gets the same answers
    from both, and leaves the same slots and indices. *)
Theorem naive_ring_identical cs :
  run cs create = prod_map id forget (run_cached cs (Spsc.create dflt Capacity)).
Proof.
  exact (run_forget cs _ [] (Spsc.content_create dflt Capacity n Hcap Hn)).
Qed.

End ring.
Arguments t : clear implicits.

Lemma naive_ring_identical_witness :
  run 0 2 [Push 1; Push 2; Push 3; Pop; Pop; Pop] (create 0 2) =
    prod_map id forget (run_cached 0 2 [Push 1; Push 2; Push 3; Pop; Pop; Pop] (Spsc.create 0 2)).
Proof. apply (naive_ring_identical 0 2 1); [reflexivity|lia]. Defined.

End Naive.

(** ** The queues as channels *)

Module BenchRings.
Import Throughput.

(** A bounded queue is a channel for one producer. *)
Section bounded.
Context {Q T : Type} `{!BoundedQueue Q T}.

Definition queue_channel : Channel Q T := {|
  ch_push q _ x := bq_push q x;
  ch_pop := bq_pop;
|}.

Definition queue_channel_laws `{!BoundedQueueLaws Q T} (producer_of : T → nat) :
  0 < bq_capacity → @ChannelLaws Q T queue_channel producer_of 1.
Proof.
  intros Hc. refine {| ch_holds (q : Q) k l := bq_content q l |}.
  - intros q k l p x Hq _ _ _. destruct (bq_push_spec q l x Hq) as (q'&E&Hq').
    exists (bool_decide (length l < bq_capacity)), q'. split; [exact E|].
    destruct (decide (length l < bq_capacity)) as [H|H].
    + by rewrite bool_decide_eq_true_2.
    + rewrite bool_decide_eq_false_2 by done. split; [|done]. intros ->. cbn in H. lia.
  - intros q k l Hq. destruct (bq_pop_spec q l Hq) as (q'&E&Hq').
    exists (hd_error l), q'. split; [exact E|]. destruct l as [|x l]; cbn in *; [done|].
    by exists [], l.
Defined.
End bounded.

Definition naive_queue {T : Type} (dflt : T) (Capacity : nat) : BoundedQueue (Naive.t T) T := {|
  bq_capacity := Capacity;
  bq_push := Naive.try_push Capacity;
  bq_pop := Naive.try_pop dflt Capacity;
  bq_content q l := ∃ q0, q = Naive.forget q0 ∧ Spsc.content Capacity q0 l;
|}.

Lemma naive_queue_laws {T : Type} (dflt : T) (Capacity n : nat) :
  Capacity = 2 ^ n → 1 ≤ n < 63 → @BoundedQueueLaws (Naive.t T) T (naive_queue dflt Capacity).
Proof.
  intros Hc Hn. split; cbn.
  - intros q l x (q0&->&Hq). rewrite (Naive.push_forget Capacity n Hc Hn q0 l x Hq).
    destruct (Spsc.content_push Capacity n Hc Hn q0 l x Hq) as (q'&->&Hq'). cbn. eauto.
  - intros q l (q0&->&Hq). rewrite (Naive.pop_forget dflt Capacity n Hc Hn q0 l Hq).
    destruct (Spsc.content_pop dflt Capacity n Hc Hn q0 l Hq) as (q'&->&Hq'). cbn. eauto.
Qed.

(** The shared ring: any number of producers.  A push that runs out of
    compare-exchange attempts counts as a failed one. *)
Section mpsc.
Context {T : Type} (dflt : T) (Capacity : nat) (cas : list bool).

Definition mpsc_channel : Channel (Mpsc.t (T := T)) T := {|
  ch_push q _ x := default (false, q) (MpscCalls.try_push dflt Capacity cas q x);
  ch_pop := MpscCalls.try_pop dflt Capacity;
|}.

Definition mpsc_channel_laws (n : nat) (producer_of : T → nat) (NumProducers : nat) :
  Capacity = 2 ^ n → 1 ≤ n < 62 → true ∈ cas →
  @ChannelLaws (Mpsc.t (T := T)) T mpsc_channel producer_of NumProducers.
Proof.
  intros Hc Hn Hcas. refine {| ch_holds (q : Mpsc.t) k l := MpscCalls.content Capacity q k l |}.
  - intros q k l p x Hq _ _ Hk.
    destruct (MpscCalls.mpsc_content_push dflt Capacity n Hc Hn cas q k l x Hq Hk Hcas) as (q'&E&Hq').
    exists (bool_decide (length l < Capacity)), q'. cbn. rewrite E. split; [done|].
    destruct (decide (length l < Capacity)) as [H|H].
    + by rewrite bool_decide_eq_true_2.
    + rewrite bool_decide_eq_false_2 by done. split; [|done]. intros ->. cbn in H.
      destruct (Mpsc.mpsc_cap Capacity n Hc Hn). lia.
  - intros q k l Hq.
    destruct (MpscCalls.mpsc_content_pop dflt Capacity n Hc Hn q k l Hq) as (q'&E&Hq').
    exists (hd_error l), q'. split; [exact E|]. destruct l as [|x l]; cbn in *; [done|].
    by exists [], l.
Defined.
End mpsc.

(** The sequencer: a ring per producer. *)
Section fan_in.
Context {Q T : Type} `{!BoundedQueue Q T} (NumProducers : nat).

Definition fan_in_channel : Channel (FanIn.t Q) T := {|
  ch_push f p x := default (false, f) (FanIn.push_from f p x);
  ch_pop f := prod_map (fmap fst) id (FanIn.try_drain_one NumProducers f);
|}.

(** Taking the first message of producer [i] out of [l]. *)
Lemma split_first (producer_of : T → nat) i x l' l :
  from producer_of i l = x :: l' →
  ∃ l1 l2, l = l1 ++ x :: l2 ∧ producer_of x = i ∧ Forall (λ y, producer_of y ≠ i) l1 ∧
    from producer_of i l2 = l'.
Proof.
  unfold from. induction l as [|y l IH]; [done|]. destruct (decide (producer_of y = i)) as [Hy|Hy].
  - rewrite filter_cons_True by done. intros [= -> <-]. exists [], l. by split_and!.
  - rewrite filter_cons_False by done. intros (l1&l2&->&?&?&?)%IH.
    exists (y :: l1), l2. split_and!; try done. by constructor.
Qed.

(** Every queue holds its producer's messages. *)
Record fan_holds (producer_of : T → nat) (f : FanIn.t Q) (l : list T) : Prop := {
  fh_abs : ∃ a, FanIn.holds NumProducers f a ∧
    ∀ p, p < NumProducers → FanIn.contents a !! p = Some (from producer_of p l);
  fh_prod : Forall (λ x, producer_of x < NumProducers) l;
}.

Context `{!BoundedQueueLaws Q T} (producer_of : T → nat) (Hc : 0 < bq_capacity).

Lemma fan_holds_push f l p x :
  fan_holds producer_of f l → producer_of x = p → p < NumProducers →
  ∃ b f', ch_push (Channel := fan_in_channel) f p x = (b, f') ∧
    if b then fan_holds producer_of f' (l ++ [x]) else l ≠ [] ∧ fan_holds producer_of f' l.
Proof.
  intros [(a&Ha&Hl) Hp] Hx Hlt.
  destruct (FanIn.push_from_holds NumProducers f a p x Ha Hlt) as (b&f'&E&Hf').
  exists b, f'. cbn. rewrite E. split; [done|].
  pose proof (FanIn.push_from_content NumProducers _ _ _ _ _ _ _ Ha (Hl p Hlt) E) as ->.
  unfold FanIn.a_push in Hf'. rewrite (Hl p Hlt) in Hf'.
  destruct (decide (length (from producer_of p l) < bq_capacity)) as [Hr|Hr].
  - rewrite bool_decide_eq_true_2 by done. split; [|apply Forall_app; split; [done|]].
    2: { constructor; [by rewrite Hx|constructor]. }
    eexists. split; [exact Hf'|]. intros p' Hp'. cbn [FanIn.contents].
    pose proof (FanIn.ho_count _ _ _ Ha) as Hcn. rewrite from_app.
    destruct (decide (p' = p)) as [->|Hne].
    + rewrite list_lookup_insert_eq by lia. do 2 f_equal. unfold from.
      by rewrite filter_cons_True.
    + rewrite list_lookup_insert_ne, (Hl p' Hp') by done. f_equal. unfold from.
      rewrite (filter_cons_False _ x) by congruence. by rewrite app_nil_r.
  - rewrite bool_decide_eq_false_2 by done. split; [|split; [by exists a|done]].
    intros ->. cbn in Hr. lia.
Qed.

Lemma fan_holds_pop f l :
  fan_holds producer_of f l →
  ∃ r f', ch_pop (Channel := fan_in_channel) f = (r, f') ∧
    match r with
    | None => l = [] ∧ fan_holds producer_of f' l
    | Some x => ∃ l1 l2, l = l1 ++ x :: l2 ∧ Forall (λ y, producer_of y ≠ producer_of x) l1 ∧
        fan_holds producer_of f' (l1 ++ l2)
    end.
Proof.
  intros [(a&Ha&Hl) Hp].
  destruct (FanIn.fan_in_drain NumProducers f a Ha) as (f'&Hf'&Hd). cbn.
  pose proof (FanIn.ho_count _ _ _ Ha) as Hcn.
  destruct (FanIn.try_drain_one NumProducers f) as [[[x j]|] f''].
  - destruct Hd as (->&l'&Hj&Ec). exists (Some x), f'. split; [done|].
    assert (j < NumProducers) as Hjn by (rewrite <- Hcn; by eapply lookup_lt_Some).
    rewrite (Hl j Hjn) in Hj. injection Hj as Hj.
    destruct (split_first producer_of j x l' l Hj) as (l1&l2&->&Hx&H1&H2).
    exists l1, l2. rewrite Hx. split_and!; [done|done|]. split.
    2: { apply Forall_app in Hp as [? [_ ?]%Forall_cons]. by apply Forall_app. }
    eexists. split; [exact Hf'|]. intros p Hpn. rewrite Ec, from_app.
    destruct (decide (p = j)) as [->|Hne].
    + rewrite list_lookup_insert_eq by lia. by rewrite (from_none _ _ _ H1), H2.
    + rewrite list_lookup_insert_ne, (Hl p Hpn), from_app by done. unfold from at 2.
      rewrite filter_cons_False by congruence. done.
  - destruct Hd as [-> He]. exists None, f'. split; [done|].
    assert (l = []) as ->.
    { destruct l as [|y l]; [done|]. exfalso. apply Forall_cons in Hp as [Hy _].
      pose proof (Hl _ Hy) as Hly. eapply Forall_lookup in He; [|exact Hly].
      unfold from in He. by rewrite filter_cons_True in He. }
    split; [done|]. split; [|done]. eexists. split; [exact Hf'|].
    by rewrite (proj2 (FanIn.a_drain_empty NumProducers NumProducers a He)).
Qed.

Definition fan_in_channel_laws : @ChannelLaws (FanIn.t Q) T fan_in_channel producer_of NumProducers.
Proof.
  refine {| ch_holds (f : FanIn.t Q) (k : nat) l := fan_holds producer_of f l |}.
  - intros f k l p x Hf Hx Hp _. by apply fan_holds_push.
  - intros f k l Hf. by apply fan_holds_pop.
Defined.

End fan_in.

(** ** The program completes *)

Section completes.
Context {C T A : Type} `{!Channel C T} (NumProducers kOpsPerProducer : nat).
Context (message : nat → nat → T) (work : A → T → A) (producer_of : T → nat).
Context `{!ChannelLaws C T producer_of NumProducers}.

(** Enough rounds of a fair scheduler deliver everything. *)
Lemma rounds_complete q a0 rounds :
  (∀ p i, p < NumProducers → producer_of (message p i) = p) →
  (Z.of_nat (total NumProducers kOpsPerProducer) + 2 < 2 ^ 63)%Z →
  ch_holds q 0 [] → Forall (round NumProducers) rounds →
  2 * total NumProducers kOpsPerProducer + 1 < length rounds →
  let s := run NumProducers kOpsPerProducer message work (concat rounds)
             (init NumProducers q a0) in
  finished NumProducers kOpsPerProducer s ∧ sink s = foldl work a0 (received s) ∧
  ∀ p, p < NumProducers → from producer_of p (received s) = message p <$> seq 0 kOpsPerProducer.
Proof.
  intros Hm Hb Hq Hr Hl s.
  pose proof (inv_init _ kOpsPerProducer message work producer_of q a0 Hq) as Hi.
  destruct (run_inv _ _ message work producer_of Hm Hb (concat rounds) _ _ _ Hi) as (l&Hl').
  assert (finished NumProducers kOpsPerProducer s) as Hf.
  { apply (rounds_finish _ _ message work producer_of Hm Hb rounds _ _ _ Hi Hr).
    by rewrite measure_init. }
  split; [done|]. split; [apply Hl'|]. intros p Hp. by eapply finished_received.
Qed.

(** A throughput run over any channel that keeps its contract, with one
    whole call per turn, ends under any scheduler that keeps giving every thread a turn, within twice as
    many rounds as there are messages; the consumer has then received every
    message of every producer exactly once, each producer's in the order
    sent, and has done its work on each.  Until then, under any scheduler
    at all, what it has received of a producer is a prefix. *)
Theorem throughput_completes q a0 :
  (∀ p i, p < NumProducers → producer_of (message p i) = p) →
  (Z.of_nat (total NumProducers kOpsPerProducer) + 2 < 2 ^ 63)%Z →
  ch_holds q 0 [] →
  (∀ schedule p, p < NumProducers →
    let s := run NumProducers kOpsPerProducer message work schedule (init NumProducers q a0) in
    ∃ k, k ≤ kOpsPerProducer ∧ from producer_of p (received s) = message p <$> seq 0 k) ∧
  (∀ rounds, Forall (round NumProducers) rounds →
    2 * total NumProducers kOpsPerProducer + 1 < length rounds →
    let s := run NumProducers kOpsPerProducer message work (concat rounds)
               (init NumProducers q a0) in
    finished NumProducers kOpsPerProducer s ∧ sink s = foldl work a0 (received s) ∧
    ∀ p, p < NumProducers →
      from producer_of p (received s) = message p <$> seq 0 kOpsPerProducer).
Proof.
  intros Hm Hb Hq. split.
  - intros schedule p Hp. by apply (run_received _ _ message work producer_of Hm Hb schedule q a0 Hq).
  - intros rounds Hr Hl. by apply rounds_complete.
Qed.

End completes.

(** ** The benchmarks *)

Record Msg := mkMsg { seq_no : Z; payload : Z * Z * Z }.

Definition zero_msg : Msg := mkMsg 0 (0, 0, 0)%Z.

Definition kOpsPerIteration : nat := N.to_nat 1048576.
Definition kOpsPerProducer : nat := N.to_nat 262144.

(** [const Msg m{i, {i, i, i}}] *)
Definition spsc_message (p i : nat) : Msg :=
  let i := Z.of_nat i in mkMsg i (i, i, i).

(** [const Msg m{i, {p, i, i}}] *)
Definition mpsc_message (p i : nat) : Msg :=
  let i := Z.of_nat i in mkMsg i (Z.of_nat p, i, i).

Definition producer_of (m : Msg) : nat := let '(p, _, _) := payload m in Z.to_nat p.

(** [sink += out.seq * 2654435761u + static_cast<unsigned>(w)], for each [w]. *)
Definition simulate_work (SimulateWork : nat) (sink : Z) (out : Msg) : Z :=
  foldl (λ sink w, u64 (sink + u64 (seq_no out * 2654435761) + Z.of_nat w)) sink
    (seq 0 SimulateWork).

(** One iteration on a new queue, call by call. *)
Definition run_spsc_throughput {Q : Type} `{!BoundedQueue Q Msg} (q : Q) (SimulateWork : nat)
    (schedule : list thread) : state Q Msg Z :=
  run (Channel0 := queue_channel) 1 kOpsPerIteration spsc_message (simulate_work SimulateWork)
    schedule (init 1 q 0%Z).

(** Each push is a whole call whose compare-exchange attempts go as [cas]
    says, the same for every push. *)
Definition bench_mpsc_ring_buffer (NumProducers : nat) (cas : list bool) (schedule : list thread)
    : state (Mpsc.t (T := Msg)) Msg unit :=
  let Capacity := N.to_nat 4096 in
  run (Channel0 := mpsc_channel zero_msg Capacity cas) NumProducers kOpsPerProducer mpsc_message
    (λ u _, u) schedule (init NumProducers (Mpsc.create zero_msg Capacity) tt).

Definition bench_fan_in_sequencer (NumProducers : nat) (schedule : list thread)
    : state (FanIn.t (Spsc.t (T := Msg))) Msg unit :=
  let Capacity := N.to_nat 4096 in
  run (Channel0 := fan_in_channel (BoundedQueue0 := spsc_queue zero_msg Capacity) NumProducers)
    NumProducers kOpsPerProducer mpsc_message (λ u _, u) schedule
    (init NumProducers
       (FanIn.mk (replicate NumProducers (Spsc.create zero_msg Capacity)) 0) tt).

(** One iteration of the single-threaded benchmark: push, then pop. *)
Definition roundtrip (s : Spsc.t (T := Msg) * Msg) : bool * bool * (Spsc.t (T := Msg) * Msg) :=
  let Capacity := N.to_nat 1024 in
  let '(q, out) := s in
  let '(pushed, q) := Spsc.try_push Capacity q (mkMsg 1 (1, 2, 3)%Z) in
  match Spsc.try_pop zero_msg Capacity q with
  | (Some m, q) => (pushed, true, (q, m))
  | (None, q) => (pushed, false, (q, out))
  end.

Definition bench_spsc_single_threaded_roundtrip (iterations : nat)
    : list (bool * bool) * (Spsc.t (T := Msg) * Msg) :=
  Nat.iter iterations
    (λ '(log, s), let '(b, c, s) := roundtrip s in (log ++ [(b, c)], s))
    ([], (Spsc.create zero_msg (N.to_nat 1024), zero_msg)).

Lemma ring_1024 : N.to_nat 1024 = 2 ^ 10 ∧ 1 ≤ 10 < 63.
Proof. split; [reflexivity|lia]. Qed.

Lemma ring_4096 : N.to_nat 4096 = 2 ^ 12 ∧ 1 ≤ 12 < 62.
Proof. split; [reflexivity|lia]. Qed.

(** Every call of the round-trip benchmark succeeds. *)
Lemma roundtrip_succeeds iterations :
  (bench_spsc_single_threaded_roundtrip iterations).1 = replicate iterations (true, true).
Proof.
  destruct ring_1024 as [Hc Hn].
  enough ((bench_spsc_single_threaded_roundtrip iterations).1 = replicate iterations (true, true) ∧
    Spsc.content (N.to_nat 1024) (bench_spsc_single_threaded_roundtrip iterations).2.1 [])
    as [H _] by done.
  unfold bench_spsc_single_threaded_roundtrip.
  induction iterations as [|k [IH1 IH2]]; [split; [done|]; by apply (Spsc.content_create _ _ 10)|].
  rewrite Nat.iter_succ. destruct (Nat.iter k _ _) as [log [q out]]. cbn [fst snd] in IH1, IH2.
  unfold roundtrip. cbv beta iota zeta.
  destruct (Spsc.content_push _ _ Hc Hn q [] (mkMsg 1 (1, 2, 3)%Z) IH2) as (q1&->&Hq1).
  rewrite decide_True in Hq1 by (cbn; lia). rewrite bool_decide_eq_true_2 by (cbn; lia).
  destruct (Spsc.content_pop zero_msg _ _ Hc Hn q1 _ Hq1) as (q2&->&Hq2). cbn [app hd_error].
  cbn [fst snd]. split; [|exact Hq2]. rewrite IH1. symmetry. apply replicate_S_end.
Qed.

Lemma mpsc_producer_of p i : producer_of (mpsc_message p i) = p.
Proof. unfold producer_of, mpsc_message. cbn. apply Nat2Z.id. Qed.

(** Two producers of two messages over the shared ring of two cells, whose
    compare-exchange fails once per push. *)
Lemma throughput_completes_witness :
  let s := run (Channel0 := mpsc_channel zero_msg 2 [false; true]) 2 2 mpsc_message (λ u _, u)
             (concat (replicate 10 [Producer 1; Producer 0; Consumer]))
             (init 2 (Mpsc.create zero_msg 2) tt) in
  finished 2 2 s ∧ from producer_of 1 (received s) = [mkMsg 0 (1, 0, 0)%Z; mkMsg 1 (1, 1, 1)%Z].
Proof.
  pose (L := mpsc_channel_laws zero_msg 2 [false; true] 1 producer_of 2 eq_refl ltac:(lia)
    ltac:(right; left)).
  destruct (@throughput_completes _ _ _ (mpsc_channel zero_msg 2 [false; true]) 2 2 mpsc_message
    (λ u _, u) producer_of L (Mpsc.create zero_msg 2) tt) as [_ H].
  - intros p i _. apply mpsc_producer_of.
  - vm_compute. reflexivity.
  - apply (MpscCalls.mpsc_content_create zero_msg 2 1); [reflexivity|lia].
  - destruct (H (replicate 10 [Producer 1; Producer 0; Consumer])) as (H1&_&H2).
    + apply Forall_replicate. split; [right; right; left|].
      intros [|[|p]] Hp; [right; left|left|lia].
    + vm_compute. lia.
    + split; [exact H1|]. exact (H2 1 ltac:(lia)).
Defined.

End BenchRings.
