(* ===== verification/SpscBench.v ===== *)
(** * The single-producer throughput benchmark, access by access
    (src/bench/bench_spsc_ring_buffer.cpp)

    [run_spsc_throughput] with its two threads interleaved at every memory
    access, on the weak memory of WeakMem.v: the producer spins on the start
    flag and then pushes its messages, retrying a full ring; the main thread
    sets the flag and pops until it has counted all of them.  The ring is
    [SPSCRingBuffer] (SpscWeak.v) or the benchmark's own
    [NaiveSPSCRingBuffer], whose accesses are given here; it differs in
    reading the other thread's index on every call.

    Loads may return old values.  That the program ends rests on stores
    becoming visible: in a [round] each thread takes four steps or more, and
    a load then returns no value older than the one at the start of the
    round.  Loads within a round are otherwise free, and so is the
    interleaving. *)

From S2P Require Import Prelude Paced Spsc WeakMem SpscWeak Throughput BenchRings.
From stdpp Require Import base tactics numbers list.

Set Default Goal Selector "!".

Module SpscBench.
Import Spsc SpscWeak BenchRings.

(** ** The ring without cached indices *)

Section naive.
Context {T Th L A : Type} `{EqDecision Th} `{EqDecision L} `{EqDecision A}.
Context (Capacity : nat) (rs : site Th L A).

Abbreviation t := (SpscWeak.t (T := T) (Th := Th) (L := L) (A := A)).
Abbreviation pstate := (SpscWeak.pstate (T := T)).
Abbreviation cstate := (SpscWeak.cstate (T := T)).
Abbreviation config := (SpscWeak.config (T := T) (Th := Th) (L := L) (A := A)).

(** The accesses of [NaiveSPSCRingBuffer::try_push].  The state is that of
    the other ring; the cached index is the value loaded last, and nothing
    reads it. *)
Inductive naive_pstep : t → pstate → t → pstate → option (bool * T) → Prop :=
  | np_start q item head V :
      loads (mem q) (pview q) (head_loc rs) Relaxed head V →
      naive_pstep q PIdle (with_prod q (mem q) V (tail_cache q)) (PRefresh item head) None
  | np_room q item head tail V :
      loads (mem q) (pview q) (tail_loc rs) Acquire tail V → full Capacity head tail = false →
      naive_pstep q (PRefresh item head) (with_prod q (mem q) V tail) (PWrite item head) None
  | np_full q item head tail V :
      loads (mem q) (pview q) (tail_loc rs) Acquire tail V → full Capacity head tail = true →
      naive_pstep q (PRefresh item head) (with_prod q (mem q) V tail) PIdle (Some (false, item))
  | np_write q item head m V :
      write_plain (mem q) (producer rs) (pview q) (at_slot rs (slot Capacity head)) item = (m, V) →
      naive_pstep q (PWrite item head) (with_prod q m V (tail_cache q)) (PPublish item head) None
  | np_publish q item head m V :
      store (mem q) (pview q) (head_loc rs) Release (u64 (head + 1)) = (m, V) →
      naive_pstep q (PPublish item head) (with_prod q m V (tail_cache q)) PIdle (Some (true, item)).

(** The accesses of [NaiveSPSCRingBuffer::try_pop]. *)
Inductive naive_cstep : t → cstate → t → cstate → option (option T) → Prop :=
  | nc_start q tail V :
      loads (mem q) (cview q) (tail_loc rs) Relaxed tail V →
      naive_cstep q CIdle (with_cons q (mem q) V (head_cache q)) (CRefresh tail) None
  | nc_item q tail head V :
      loads (mem q) (cview q) (head_loc rs) Acquire head V → (tail =? head)%Z = false →
      naive_cstep q (CRefresh tail) (with_cons q (mem q) V head) (CRead tail) None
  | nc_empty q tail head V :
      loads (mem q) (cview q) (head_loc rs) Acquire head V → (tail =? head)%Z = true →
      naive_cstep q (CRefresh tail) (with_cons q (mem q) V head) CIdle (Some None)
  | nc_read q tail x m V :
      read_plain (mem q) (consumer rs) (cview q) (at_slot rs (slot Capacity tail)) = (x, m, V) →
      naive_cstep q (CRead tail) (with_cons q m V (head_cache q)) (CRelease x tail) None
  | nc_release q x tail m V :
      store (mem q) (cview q) (tail_loc rs) Release (u64 (tail + 1)) = (m, V) →
      naive_cstep q (CRelease x tail) (with_cons q m V (head_cache q)) CIdle (Some (Some x)).

(** The two rings. *)
Inductive ring_kind := SPSCRingBuffer | NaiveSPSCRingBuffer.

Definition ring_push (kind : ring_kind) : t → pstate → t → pstate → option (bool * T) → Prop :=
  match kind with
  | SPSCRingBuffer => pstep Capacity rs
  | NaiveSPSCRingBuffer => naive_pstep
  end.

Definition ring_pop (kind : ring_kind) : t → cstate → t → cstate → option (option T) → Prop :=
  match kind with
  | SPSCRingBuffer => cstep Capacity rs
  | NaiveSPSCRingBuffer => naive_cstep
  end.

(** A call that begins by reading its own index and goes on to read the
    other one, whatever the cache says. *)
Definition early_push (q : t) (s : pstate) (q' : t) (s' : pstate) (o : option (bool * T)) : Prop :=
  ∃ item head V, loads (mem q) (pview q) (head_loc rs) Relaxed head V ∧ s = PIdle ∧
    q' = with_prod q (mem q) V (tail_cache q) ∧ s' = PRefresh item head ∧ o = None.

Definition early_pop (q : t) (s : cstate) (q' : t) (s' : cstate) (o : option (option T)) : Prop :=
  ∃ tail V, loads (mem q) (cview q) (tail_loc rs) Relaxed tail V ∧ s = CIdle ∧
    q' = with_cons q (mem q) V (head_cache q) ∧ s' = CRefresh tail ∧ o = None.

(** Both rings make the accesses of the first, or begin a call so. *)
Lemma ring_push_access kind q s q' s' o :
  ring_push kind q s q' s' o → pstep Capacity rs q s q' s' o ∨ early_push q s q' s' o.
Proof.
  destruct kind; [by left|]. destruct 1 as [q x h V Hl| | | |];
    [right; by exists x, h, V|left; by constructor..].
Qed.

Lemma ring_pop_access kind q s q' s' o :
  ring_pop kind q s q' s' o → cstep Capacity rs q s q' s' o ∨ early_pop q s q' s' o.
Proof.
  destruct kind; [by left|]. destruct 1 as [q x V Hl| | | |];
    [right; by exists x, V|left; by constructor..].
Qed.

(** *** What a step touches *)

Lemma ring_push_footprint kind q s q' s' o :
  ring_push kind q s q' s' o →
  outside_same rs (mem q) (mem q') ∧ cview q' = cview q ∧ head_cache q' = head_cache q.
Proof.
  intros [H|(x&h&V&_&_&->&_&_)]%ring_push_access; [|done].
  by destruct (pstep_footprint _ _ _ _ _ _ _ H) as (?&_&?&?).
Qed.

Lemma ring_pop_footprint kind q s q' s' o :
  ring_pop kind q s q' s' o →
  outside_same rs (mem q) (mem q') ∧ pview q' = pview q ∧ tail_cache q' = tail_cache q.
Proof.
  intros [H|(x&V&_&_&->&_&_)]%ring_pop_access; [|done].
  by destruct (cstep_footprint _ _ _ _ _ _ _ H) as (?&_&?&?).
Qed.

Lemma ring_push_views kind q s q' s' o : ring_push kind q s q' s' o → views_ok q → views_ok q'.
Proof.
  intros [H|(x&h&V&Hl&_&->&_&_)]%ring_push_access; [by eapply pstep_views|].
  intros (Hm&Hp&Hc). split_and!; [done| |done]. exact (loads_ok _ _ _ _ _ _ Hm Hp Hl).
Qed.

Lemma ring_pop_views kind q s q' s' o : ring_pop kind q s q' s' o → views_ok q → views_ok q'.
Proof.
  intros [H|(x&V&Hl&_&->&_&_)]%ring_pop_access; [by eapply cstep_views|].
  intros (Hm&Hp&Hc). split_and!; [done|done|]. exact (loads_ok _ _ _ _ _ _ Hm Hc Hl).
Qed.

(** *** How far a call is *)

(** The item a [try_push] in progress has been given. *)
Definition item_of (s : pstate) : option T :=
  match s with PIdle => None | PRefresh x _ | PWrite x _ | PPublish x _ => Some x end.

Definition left_to_push (s : pstate) : nat :=
  match s with PIdle => 3 | PRefresh _ _ => 2 | PWrite _ _ => 1 | PPublish _ _ => 0 end.

Definition left_to_pop (s : cstate) : nat :=
  match s with CIdle => 3 | CRefresh _ => 2 | CRead _ => 1 | CRelease _ _ => 0 end.

(** A step gets further, succeeds, or finds the ring full. *)
Lemma ring_push_cases kind q s q' s' o :
  ring_push kind q s q' s' o →
  (o = None ∧ left_to_push s' < left_to_push s ∧ is_Some (item_of s')) ∨
  (∃ x, o = Some (true, x) ∧ item_of s = Some x ∧ s' = PIdle) ∨
  (∃ x h, o = Some (false, x) ∧ s = PRefresh x h ∧ s' = PIdle ∧ full Capacity h (tail_cache q') = true).
Proof.
  intros [H|(x&h&V&_&->&_&->&->)]%ring_push_access.
  2: { left. cbn. split_and!; [done|lia|done]. }
  destruct H as [q x h V _|q x h v V _ _|q x h v V _ Hf|q x h m V _|q x h m V _].
  - left. split; [done|]. case_match; cbn; split; [lia|done|lia|done].
  - left. cbn. split_and!; [done|lia|done].
  - right; right. by exists x, h.
  - left. cbn. split_and!; [done|lia|done].
  - right; left. by exists x.
Qed.

Lemma ring_pop_cases kind q s q' s' o :
  ring_pop kind q s q' s' o →
  (o = None ∧ left_to_pop s' < left_to_pop s) ∨
  (∃ x, o = Some (Some x) ∧ s' = CIdle ∧ s ≠ CIdle) ∨
  (∃ tail, o = Some None ∧ s = CRefresh tail ∧ s' = CIdle ∧ (tail =? head_cache q')%Z = true).
Proof.
  intros [H|(x&V&_&->&_&->&->)]%ring_pop_access.
  2: { left. cbn. split; [done|lia]. }
  destruct H as [q tl V _|q tl v V _ _|q tl v V _ He|q tl x m V _|q x tl m V _].
  - left. split; [done|]. case_match; cbn; lia.
  - left. cbn. split; [done|lia].
  - right; right. by exists tl.
  - left. cbn. split; [done|lia].
  - right; left. by exists x.
Qed.

(** The item of a call does not change. *)
Lemma ring_push_item kind q s q' s' o x :
  ring_push kind q s q' s' o → item_of s' = Some x → s = PIdle ∨ item_of s = Some x.
Proof.
  intros [H|(y&h&V&_&->&_&->&->)]%ring_push_access; [|by left].
  destruct H as [q y h V _|q y h v V _ _|q y h v V _ Hf|q y h m V _|q y h m V _]; cbn; auto; done.
Qed.

(** *** A step can always be taken, with the newest values loaded *)

Lemma ring_push_newest kind q s x :
  views_ok q →
  ∃ q' s' o, ring_push kind q s q' s' o ∧ (s = PIdle → item_of s' = Some x) ∧
    ∀ y h, s = PRefresh y h → ∃ msg, last (hist (mem q) (tail_loc rs)) = Some msg ∧
      tail_cache q' = m_value msg.
Proof.
  intros (_&Hp&_). destruct s as [|y h|y h|y h].
  - destruct (load_latest _ _ (head_loc rs) Relaxed Hp) as (msg&V&_&Hl). destruct kind.
    + do 3 eexists. split; [by apply (p_start _ _ _ x)|]. split; [|done]. intros _. by case_match.
    + do 3 eexists. split; [by apply (np_start _ x)|]. by split.
  - destruct (load_latest _ _ (tail_loc rs) Acquire Hp) as (msg&V&Hm&Hl).
    destruct (full Capacity h (m_value msg)) eqn:E; destruct kind; do 3 eexists.
    1: split; [by eapply p_refresh_full|]; split; [done|]; intros; by exists msg.
    1: split; [by eapply np_full|]; split; [done|]; intros; by exists msg.
    1: split; [by eapply p_refresh_ok|]; split; [done|]; intros; by exists msg.
    split; [by eapply np_room|]; split; [done|]; intros; by exists msg.
  - destruct (write_plain (mem q) (producer rs) (pview q) (at_slot rs (slot Capacity h)) y)
      as [m V] eqn:E.
    destruct kind; do 3 eexists; (split; [by econstructor|by split]).
  - destruct (store (mem q) (pview q) (head_loc rs) Release (u64 (h + 1))) as [m V] eqn:E.
    destruct kind; do 3 eexists; (split; [by econstructor|by split]).
Qed.

Lemma ring_pop_newest kind q s :
  views_ok q →
  ∃ q' s' o, ring_pop kind q s q' s' o ∧
    ∀ tail, s = CRefresh tail → ∃ msg, last (hist (mem q) (head_loc rs)) = Some msg ∧
      head_cache q' = m_value msg.
Proof.
  intros Hv. destruct kind; [by apply cstep_newest|]. destruct Hv as (_&_&Hc).
  destruct s as [|tail|tail|x tail].
  - destruct (load_latest _ _ (tail_loc rs) Relaxed Hc) as (msg&V&_&Hl).
    do 3 eexists. split; [by apply nc_start|done].
  - destruct (load_latest _ _ (head_loc rs) Acquire Hc) as (msg&V&Hm&Hl).
    destruct (tail =? m_value msg)%Z eqn:E; do 3 eexists.
    1: split; [by eapply nc_empty|]; intros; by exists msg.
    split; [by eapply nc_item|]; intros; by exists msg.
  - destruct (read_plain (mem q) (consumer rs) (cview q) (at_slot rs (slot Capacity tail)))
      as [[x m] V] eqn:E.
    do 3 eexists. split; [by eapply nc_read|done].
  - destruct (store (mem q) (cview q) (tail_loc rs) Release (u64 (tail + 1))) as [m V] eqn:E.
    do 3 eexists. split; [by eapply nc_release|done].
Qed.

(** *** Both rings keep the invariant of the first *)

Context (n : nat) (Hcap : Capacity = 2 ^ n) (Hn : 1 ≤ n < 63) (Hsite : site_ok rs).

Definition after_push (c : config) (q : t) (s : pstate) (o : option (bool * T)) : config :=
  mkConfig q s (cons c)
    (match o with Some (true, x) => pushed c ++ [x] | _ => pushed c end) (popped c).

Definition after_pop (c : config) (q : t) (s : cstate) (o : option (option T)) : config :=
  mkConfig q (prod c) s (pushed c)
    (match o with Some (Some x) => popped c ++ [x] | _ => popped c end).

Lemma ring_push_ok kind c q s o tc hc :
  config_ok Capacity rs c tc hc → ring_push kind (ring c) (prod c) q s o →
  ∃ tc', config_ok Capacity rs (after_push c q s o) tc' hc.
Proof.
  intros Hok [H|(x&h&V&Hl&_&->&->&->)]%ring_push_access;
    [exact (weak_pstep_ok Capacity rs n Hcap Hn Hsite _ _ _ _ _ _ Hok H)|].
  destruct Hok as [Hi Hp Hpr Hc].
  destruct (own_load Capacity n Hcap Hn _ _ _ _ _ _ _ (i_head _ _ _ _ _ _ _ Hi) (proj1 (i_pview _ _ _ _ _ _ _ Hi)) Hl)
    as [-> Hg].
  exists tc. split; try done. by apply (inv_pview Capacity rs n Hcap Hn).
Qed.

Lemma ring_pop_ok kind c q s o tc hc :
  config_ok Capacity rs c tc hc → ring_pop kind (ring c) (cons c) q s o →
  ∃ hc', config_ok Capacity rs (after_pop c q s o) tc hc'.
Proof.
  intros Hok [H|(x&V&Hl&_&->&->&->)]%ring_pop_access;
    [exact (weak_cstep_ok Capacity rs n Hcap Hn Hsite _ _ _ _ _ _ Hok H)|].
  destruct Hok as [Hi Hp Hpr Hc].
  destruct (own_load Capacity n Hcap Hn _ _ _ _ _ _ _ (i_tail _ _ _ _ _ _ _ Hi) (proj1 (i_cview _ _ _ _ _ _ _ Hi)) Hl)
    as [-> Hg].
  exists hc. split; try done. by apply (inv_cview Capacity rs n Hcap Hn).
Qed.

End naive.

(** ** The program *)

(** The producer thread; the main thread, which is the consumer. *)
Inductive who := Producer | Main.

(** The ring's indices, and the start flag. *)
Inductive loc := Head | Tail | Start.

#[export] Instance who_eq_dec : EqDecision who.
Proof. solve_decision. Defined.
#[export] Instance loc_eq_dec : EqDecision loc.
Proof. solve_decision. Defined.

Definition bench_site : site who loc nat := mkSite who loc nat Producer Main Head Tail id.

Lemma bench_site_ok : site_ok bench_site.
Proof. by split. Qed.

Section program.
Context (kind : ring_kind) (Capacity SimulateWork kOps : nat).

Abbreviation ring_t := (SpscWeak.t (T := Msg) (Th := who) (L := loc) (A := nat)).
Abbreviation calls := (SpscWeak.config (T := Msg) (Th := who) (L := loc) (A := nat)).

(** [calls]: the ring, the call each thread is in, what was pushed and
    popped.  [flagged]: main has stored the flag; [going]: the producer has
    seen it; [next]: the producer's [i]; [received] and [sink]: main's. *)
Record state := mk {
  cfg : calls;
  flagged : bool;
  going : bool;
  next : nat;
  received : nat;
  sink : Z;
}.

Definition init : state :=
  mk (mkConfig (create zero_msg bench_site) PIdle CIdle [] []) false false 0 0 0.

Definition with_ring (c : calls) (q : ring_t) : calls :=
  mkConfig q (prod c) (cons c) (pushed c) (popped c).

(** The message [const Msg m{i, {i, i, i}}]. *)
Abbreviation message := (spsc_message 0).

(** One memory access of a thread, with the local computation up to the next.
    A thread that has left its loop waits ([join], or it has returned). *)
Inductive step : who → state → state → Prop :=
  | producer_waits s v V :
      going s = false → loads (mem (ring (cfg s))) (pview (ring (cfg s))) Start Acquire v V →
      step Producer s
        (mk (with_ring (cfg s) (with_prod (ring (cfg s)) (mem (ring (cfg s))) V
               (tail_cache (ring (cfg s)))))
           (flagged s) (negb (v =? 0)%Z) (next s) (received s) (sink s))
  | producer_pushes s q ps o :
      going s = true → next s < kOps →
      ring_push Capacity bench_site kind (ring (cfg s)) (prod (cfg s)) q ps o →
      (∀ x, item_of ps = Some x → x = message (next s)) →
      step Producer s
        (mk (after_push (cfg s) q ps o) (flagged s) (going s)
           (match o with Some (true, _) => S (next s) | _ => next s end) (received s) (sink s))
  | producer_returned s : going s = true → next s = kOps → step Producer s s
  | main_flags s m V :
      flagged s = false →
      store (mem (ring (cfg s))) (cview (ring (cfg s))) Start Release 1 = (m, V) →
      step Main s
        (mk (with_ring (cfg s) (with_cons (ring (cfg s)) m V (head_cache (ring (cfg s)))))
           true (going s) (next s) (received s) (sink s))
  | main_pops s q cs o :
      flagged s = true → received s < kOps →
      ring_pop Capacity bench_site kind (ring (cfg s)) (cons (cfg s)) q cs o →
      step Main s
        (mk (after_pop (cfg s) q cs o) (flagged s) (going s) (next s)
           (match o with Some (Some _) => S (received s) | _ => received s end)
           (match o with Some (Some x) => simulate_work SimulateWork (sink s) x | _ => sink s end))
  | main_joins s : flagged s = true → received s = kOps → step Main s s.

Inductive reachable : state → Prop :=
  | reach_init : reachable init
  | reach_step w s s' : reachable s → step w s s' → reachable s'.

(** Both loops have been left. *)
Definition finished (s : state) : Prop := next s = kOps ∧ received s = kOps.

(** A step whose load of the flag or of the other thread's index returns no
    value older than the one in [s0]. *)
Definition timely (s0 : state) (w : who) (s s' : state) : Prop :=
  match w with
  | Producer =>
      (going s = false → flagged s0 = true → going s' = true) ∧
      ∀ x head, prod (cfg s) = PRefresh x head →
        (Z.of_nat (received s0) ≤ tail_cache (ring (cfg s')))%Z
  | Main =>
      ∀ tail, cons (cfg s) = CRefresh tail → (Z.of_nat (next s0) ≤ head_cache (ring (cfg s')))%Z
  end.

Inductive turns (s0 : state) : list who → state → state → Prop :=
  | turns_nil s : turns s0 [] s s
  | turns_cons w ws s s1 s2 :
      step w s s1 → timely s0 w s s1 → turns s0 ws s1 s2 → turns s0 (w :: ws) s s2.

(** The steps of [w] in a schedule. *)
Definition steps_of (w : who) (ws : list who) : nat :=
  length (List.filter (λ w', bool_decide (w' = w)) ws).

Definition round (s s' : state) : Prop :=
  ∃ ws, turns s ws s s' ∧ ∀ w, 4 ≤ steps_of w ws.

Inductive rounds : nat → state → state → Prop :=
  | rounds_nil s : rounds 0 s s
  | rounds_snoc k s s1 s2 : rounds k s s1 → round s1 s2 → rounds (S k) s s2.

(** ** The invariant *)

Context (n : nat) (Hcap : Capacity = 2 ^ n) (Hn : 1 ≤ n < 63) (Hops : (Z.of_nat kOps < 2 ^ 63)%Z).

Abbreviation config_ok := (SpscWeak.config_ok Capacity bench_site).

Record ok (s : state) : Prop := {
  ok_ring : ∃ tc hc, config_ok (cfg s) tc hc;
  ok_views : views_ok (ring (cfg s));
  ok_flag : ∃ msg, last (hist (mem (ring (cfg s))) Start) = Some msg ∧
    m_value msg = if flagged s then 1%Z else 0%Z;
  ok_pushed : pushed (cfg s) = message <$> seq 0 (next s);
  ok_next : next s ≤ kOps;
  ok_popped : length (popped (cfg s)) = received s;
  ok_received : received s ≤ kOps;
  ok_sink : sink s = foldl (simulate_work SimulateWork) 0%Z (popped (cfg s));
  ok_prod x : item_of (prod (cfg s)) = Some x → going s = true ∧ next s < kOps ∧ x = message (next s);
  ok_cons : cons (cfg s) ≠ CIdle → flagged s = true ∧ received s < kOps;
}.

Lemma init_ok : ok init.
Proof.
  split; try done; try (cbn; lia).
  - exists 0, 0. split; try done. by eapply weak_inv_create.
  - split_and!; [|intros l; cbn; lia..].
    intros l msg Hm%list_elem_of_singleton. rewrite Hm. intros l'. cbn. lia.
  - by eexists.
Qed.

Lemma length_pushed s : ok s → length (pushed (cfg s)) = next s.
Proof. intros H. by rewrite (ok_pushed _ H), length_fmap, length_seq. Qed.

(** The received messages are the first ones, in order. *)
Lemma ok_order s :
  ok s → popped (cfg s) = message <$> seq 0 (received s) ∧
    received s ≤ next s ≤ received s + Capacity.
Proof.
  intros H. destruct (ok_ring _ H) as (tc&hc&Hc).
  pose proof (i_order _ _ _ _ _ _ _ (co_inv _ _ _ _ _ Hc)) as Ho.
  rewrite (length_pushed _ H), (ok_popped _ H) in Ho. split; [|lia].
  rewrite (co_pop _ _ _ _ _ Hc), (ok_popped _ H), (ok_pushed _ H), <- fmap_take, take_seq.
  do 2 f_equal. lia.
Qed.

(** The flag is not part of the ring. *)
Lemma outside_flag (m m' : memory who loc nat Msg) :
  outside_same bench_site m m' → hist m' Start = hist m Start.
Proof. intros [H _]. by apply H. Qed.

Lemma producer_ok s s' : ok s → step Producer s s' → ok s'.
Proof.
  intros H Hs. pose proof H as [(tc&hc&Hc) Hv Hf Hp Hn' Hpp Hr Hsk Hpr Hco].
  inversion Hs as [s1 v V Hg Hl|s1 q ps o Hg Hlt Hpu Hit|s1 Hg Hd| | |]; subst s1 s'; [| |done].
  - assert (grows (pview (ring (cfg s))) V) as Hgr.
    { destruct Hl as (k&msg&_&_&_&->). apply load_grows. }
    split; cbn [cfg flagged going next received sink with_ring ring prod cons pushed popped]; try done.
    + exists tc, hc. by apply (config_frame Capacity bench_site n Hcap Hn).
    + destruct Hv as (Hm&Hpv&Hcv). split_and!; [done| |done].
      exact (loads_ok _ _ _ _ _ _ Hm Hpv Hl).
    + intros x Hx. destruct (Hpr x Hx) as [E _]. congruence.
  - destruct (ring_push_ok Capacity bench_site n Hcap Hn bench_site_ok kind _ _ _ _ _ _ Hc Hpu)
      as [tc' Hc'].
    destruct (ring_push_footprint _ _ _ _ _ _ _ _ Hpu) as (Ho&_).
    pose proof (ring_push_cases _ _ _ _ _ _ _ _ Hpu) as Hcase.
    split; cbn [cfg flagged going next received sink]; try done.
    + by exists tc', hc.
    + by eapply ring_push_views.
    + cbn [after_push ring]. by rewrite (outside_flag _ _ Ho).
    + cbn [after_push pushed]. destruct o as [[[] x]|]; [|done..].
      destruct Hcase as [[? _]|[(y&[= <-]&Hy&_)|(y&h&?&_)]]; [done| |done].
      destruct (Hpr x Hy) as (_&_&->). by rewrite Hp, seq_S, fmap_app.
    + destruct o as [[[] x]|]; lia.
    + intros x Hx. destruct Hcase as [(->&_&_)|[(y&_&_&->)|(y&h&_&_&->&_)]]; [|done..].
      split_and!; [done|done|by apply Hit].
Qed.

Lemma main_ok s s' : ok s → step Main s s' → ok s'.
Proof.
  intros H Hs. pose proof H as [(tc&hc&Hc) Hv Hf Hp Hn' Hpp Hr Hsk Hpr Hco].
  inversion Hs as [| | |s1 m V Hg Hst|s1 q cs o Hg Hlt Hpo|s1 Hg Hd]; subst s1 s'; [| |done].
  - destruct Hv as (Hm&Hpv&Hcv). destruct (store_ok _ _ _ _ _ _ Hst Hm Hcv) as (He&Hm'&Hcv').
    assert (hist m Head = hist (mem (ring (cfg s))) Head ∧ hist m Tail = hist (mem (ring (cfg s))) Tail ∧
      cells m = cells (mem (ring (cfg s))) ∧ grows (cview (ring (cfg s))) V ∧
      ∃ msg, last (hist m Start) = Some msg ∧ m_value msg = 1%Z) as (E1&E2&E3&Hgr&Hfl).
    { injection Hst as <- <-. split_and!; [done|done|done|apply see_grows|].
      eexists. cbn [hist]. by rewrite decide_True, last_snoc by done. }
    split; cbn [cfg flagged going next received sink with_ring ring prod cons pushed popped]; try done.
    + exists tc, hc. apply (config_frame Capacity bench_site n Hcap Hn); try done.
      split_and!; [done|done|]. intros k. cbn. by rewrite E3.
    + split_and!; [done| |done]. by eapply view_ok_extends.
    + intros Hne. destruct (Hco Hne). congruence.
  - destruct (ring_pop_ok Capacity bench_site n Hcap Hn bench_site_ok kind _ _ _ _ _ _ Hc Hpo)
      as [hc' Hc'].
    destruct (ring_pop_footprint _ _ _ _ _ _ _ _ Hpo) as (Ho&_).
    pose proof (ring_pop_cases _ _ _ _ _ _ _ _ Hpo) as Hcase.
    split; cbn [cfg flagged going next received sink]; try done.
    + by exists tc, hc'.
    + by eapply ring_pop_views.
    + cbn [after_pop ring]. by rewrite (outside_flag _ _ Ho).
    + cbn [after_pop popped]. destruct o as [[x|]|]; [|done..]. rewrite length_app. cbn. lia.
    + destruct o as [[x|]|]; lia.
    + cbn [after_pop popped]. destruct o as [[x|]|]; [|done..]. by rewrite foldl_app, <- Hsk.
    + intros Hne. destruct Hcase as [(->&_)|[(y&_&->&_)|(y&_&_&->&_)]]; done.
Qed.

Lemma step_ok w s s' : ok s → step w s s' → ok s'.
Proof. destruct w; [apply producer_ok|apply main_ok]. Qed.

Lemma bench_reachable_ok s : reachable s → ok s.
Proof. induction 1; [apply init_ok|by eapply step_ok]. Qed.

(** ** No thread is stuck *)

(** Nothing is taken back. *)
Definition later (s s' : state) : Prop :=
  (flagged s = true → flagged s' = true) ∧ (going s = true → going s' = true) ∧
  next s ≤ next s' ∧ received s ≤ received s'.

#[local] Instance later_preorder : PreOrder later.
Proof.
  split; [by intros s|]. intros s1 s2 s3 (?&?&?&?) (?&?&?&?). unfold later. split_and!; auto; lia.
Qed.

Lemma step_later w s s' : step w s s' → later s s'.
Proof.
  destruct 1 as [s v V Hg _|s q ps o _ _ _ _|s _ _|s m V Hf _|s q cs o _ _ _|s _ _]; try done;
    unfold later; cbn; split_and!; try done; try congruence.
  - destruct o as [[[] ?]|]; lia.
  - destruct o as [[?|]|]; lia.
Qed.

(** The indices a load can return. *)
Lemma latest_index (m : memory who loc nat Msg) l len msg :
  counts (hist m l) len → last (hist m l) = Some msg → m_value msg = u64 (Z.of_nat len).
Proof. intros [Hl Hv] Hm. rewrite last_lookup, Hl in Hm. by apply Hv in Hm. Qed.

Lemma index_exact k : k ≤ kOps → u64 (Z.of_nat k) = Z.of_nat k.
Proof. intros Hk. apply u64_id. unfold is_u64. lia. Qed.

Lemma producer_moves s0 s :
  ok s → later s0 s → ∃ s', step Producer s s' ∧ timely s0 Producer s s'.
Proof.
  intros H (Hfl&_&_&Hrc). pose proof (ok_views _ H) as Hv. destruct (going s) eqn:Hg.
  - destruct (decide (next s < kOps)) as [Hlt|Hge].
    + destruct (ring_push_newest Capacity bench_site kind _ (prod (cfg s)) (message (next s)) Hv)
        as (q&ps&o&Hs&Hi&Hnew).
      eexists. split; [apply (producer_pushes s q ps o Hg Hlt Hs)|split; [by rewrite Hg|]].
      * intros x Hx. destruct (ring_push_item _ _ _ _ _ _ _ _ _ Hs Hx) as [E|E].
        -- specialize (Hi E). congruence.
        -- by destruct (ok_prod _ H x E) as (_&_&?).
      * intros x h E. cbn [cfg after_push ring]. destruct (Hnew x h E) as (msg&Hm&->). destruct (ok_ring _ H) as (tc&hc&Hc).
        rewrite (latest_index _ _ _ _ (i_tail _ _ _ _ _ _ _ (co_inv _ _ _ _ _ Hc)) Hm), (ok_popped _ H).
        rewrite index_exact by apply H. lia.
    + exists s. pose proof (ok_next _ H). split; [apply producer_returned; [done|lia]|].
      split; [by rewrite Hg|]. intros x h E.
      destruct (ok_prod _ H x) as (_&?&_); [by rewrite E|lia].
  - destruct (ok_flag _ H) as (msg&Hm&Hval).
    destruct (load_latest (mem (ring (cfg s))) (pview (ring (cfg s))) Start Acquire (proj1 (proj2 Hv)))
      as (msg'&V&Hm'&Hl). rewrite Hm in Hm'. injection Hm' as <-.
    eexists. split; [by apply (producer_waits s _ _ Hg Hl)|]. split.
    + intros _ Hf0. cbn [going]. rewrite Hval, (Hfl Hf0). done.
    + intros x h E. destruct (ok_prod _ H x) as (?&_); [by rewrite E|congruence].
Qed.

Lemma main_moves s0 s :
  ok s → later s0 s → ∃ s', step Main s s' ∧ timely s0 Main s s'.
Proof.
  intros H (_&_&Hnx&_). pose proof (ok_views _ H) as Hv. destruct (flagged s) eqn:Hf.
  - destruct (decide (received s < kOps)) as [Hlt|Hge].
    + destruct (ring_pop_newest Capacity bench_site kind _ (cons (cfg s)) Hv) as (q&cs&o&Hs&Hnew).
      eexists. split; [apply (main_pops s q cs o Hf Hlt Hs)|]. intros tl E. cbn [cfg after_pop ring].
      destruct (Hnew tl E) as (msg&Hm&->). destruct (ok_ring _ H) as (tc&hc&Hc).
      rewrite (latest_index _ _ _ _ (i_head _ _ _ _ _ _ _ (co_inv _ _ _ _ _ Hc)) Hm).
      rewrite (length_pushed _ H), index_exact by apply H. lia.
    + exists s. pose proof (ok_received _ H). split; [apply main_joins; [done|lia]|].
      intros tl E. destruct (ok_cons _ H) as [_ ?]; [by rewrite E|lia].
  - destruct (store (mem (ring (cfg s))) (cview (ring (cfg s))) Start Release 1) as [m V] eqn:E.
    eexists. split; [by apply (main_flags s m V Hf E)|]. intros tl Ec.
    destruct (ok_cons _ H) as [? _]; [by rewrite Ec|congruence].
Qed.

(** Any schedule can be followed. *)
Lemma turns_exist s0 ws s : ok s → later s0 s → ∃ s', turns s0 ws s s'.
Proof.
  revert s. induction ws as [|w ws IH]; intros s H Hl; [exists s; constructor|].
  assert (∃ s1, step w s s1 ∧ timely s0 w s s1) as (s1&Hs&Ht)
    by (destruct w; [by apply producer_moves|by apply main_moves]).
  destruct (IH s1) as [s2 H2]; [by eapply step_ok|etrans; [exact Hl|by eapply step_later]|].
  exists s2. by econstructor.
Qed.

Lemma round_exists s : ok s → ∃ s', round s s'.
Proof.
  intros H. set (ws := replicate 4 Producer ++ replicate 4 Main).
  destruct (turns_exist s ws s H (reflexivity s)) as [s' Ht]. exists s', ws.
  split; [done|]. by intros [].
Qed.

(** ** A round makes progress *)

Lemma turns_paced s0 w ws s s' :
  turns s0 ws s s' →
  paced (λ x y, ∃ w', w' ≠ w ∧ step w' x y ∧ timely s0 w' x y) (λ x y, step w x y ∧ timely s0 w x y)
    (steps_of w ws) s s'.
Proof.
  induction 1 as [s|w' ws s s1 s2 Hs Ht _ IH]; [constructor|]. unfold steps_of. cbn [List.filter].
  case_bool_decide as E.
  - subst w'. cbn [length]. by eapply paced_own.
  - eapply paced_others; [by exists w'|exact IH].
Qed.

Lemma turns_later s0 ws s s' : ok s → turns s0 ws s s' → ok s' ∧ later s s'.
Proof.
  intros H Ht. induction Ht as [s|w ws s s1 s2 Hs _ _ IH]; [done|].
  destruct IH as [H2 Hl]; [by eapply step_ok|]. split; [done|]. etrans; [by eapply step_later|done].
Qed.

(** What four steps of a thread in a round achieve, by a measure of how far
    its call is. *)
Lemma round_reaches s w (Q : state → Prop) (mu : state → nat) ws s' :
  ok s → turns s ws s s' → 4 ≤ steps_of w ws → (∀ x, mu x < 4) →
  (∀ x y, ok x → later s x → later x y → Q x → Q y) →
  (∀ x y w', ok x → later s x → w' ≠ w → step w' x y → mu y ≤ mu x) →
  (∀ x y, ok x → later s x → ¬ Q x → step w x y → timely s w x y → Q y ∨ mu y < mu x) →
  (∀ x, Q x ∨ ¬ Q x) → Q s'.
Proof.
  intros H Ht Hk Hmu HQ Ho Hw Hdec. pose proof (turns_paced s w ws s s' Ht) as Hp.
  eapply (paced_reaches _ _ (λ x, ok x ∧ later s x) Q mu); [..|exact (conj H (reflexivity s))|exact Hp|].
  - intros x y [Hx Hl] (w'&Hne&Hs&_). pose proof (step_later _ _ _ Hs) as Hl'.
    split_and!; [by eapply step_ok|by etrans|by apply HQ|by eapply Ho].
  - intros x y [Hx Hl] [Hs Hti]. pose proof (step_later _ _ _ Hs) as Hl'.
    split_and!; [by eapply step_ok|by etrans|by apply HQ|].
    destruct (Hdec x); [left; by eapply HQ|by apply Hw].
  - right. specialize (Hmu s). lia.
Qed.

(** The other thread's call does not move. *)
Lemma step_other_call w s s' :
  step w s s' →
  match w with
  | Producer => cons (cfg s') = cons (cfg s)
  | Main => prod (cfg s') = prod (cfg s)
  end.
Proof. by destruct 1. Qed.

Lemma round_flags s ws s' :
  ok s → turns s ws s s' → 4 ≤ steps_of Main ws → flagged s' = true.
Proof.
  intros H Ht Hk. apply (round_reaches s Main (λ x, flagged x = true) (λ _, 0) ws); try done; [lia|..].
  - intros x y _ _ Hl Hf. by apply Hl.
  - intros x y _ _ _ Hs _. left. by inversion Hs; subst.
  - intros x. by destruct (flagged x); [left|right].
Qed.

Lemma round_goes s ws s' :
  ok s → flagged s = true → turns s ws s s' → 4 ≤ steps_of Producer ws → going s' = true.
Proof.
  intros H Hf Ht Hk.
  apply (round_reaches s Producer (λ x, going x = true) (λ _, 0) ws); try done; [lia|..].
  - intros x y _ _ Hl Hg. by apply Hl.
  - intros x y _ _ Hg _ [Hti _]. left. apply Hti; [|done]. by destruct (going x).
  - intros x. by destruct (going x); [left|right].
Qed.

(** A message that was in the ring at the start of the round is popped. *)
Lemma round_pops s ws s' :
  ok s → flagged s = true → received s < next s → turns s ws s s' → 4 ≤ steps_of Main ws →
  received s < received s'.
Proof.
  intros H Hf Hlt Ht Hk. pose proof (ok_next _ H) as Hn'.
  apply (round_reaches s Main (λ x, received s < received x) (λ x, left_to_pop (cons (cfg x))) ws);
    try done.
  - intros x. destruct (cons (cfg x)); cbn; lia.
  - intros x y _ _ (_&_&_&?) ?. lia.
  - intros x y w' _ _ Hne Hs. destruct w'; [|done]. by rewrite (step_other_call _ _ _ Hs).
  - intros x y Hx (Hfx&_&_&Hrx) Hq Hs Hti.
    inversion Hs as [| | |x1 m V Hg _|x1 q cs o Hg Hlt' Hpo|x1 Hg Hd]; subst x1;
      [rewrite Hfx in Hg by done; done| |lia].
    destruct (ring_pop_cases _ _ _ _ _ _ _ _ Hpo) as [(->&Hl)|[(z&->&_)|(tl&->&E&_&He)]].
    + right. subst y. exact Hl.
    + left. subst y. cbn. lia.
    + exfalso. specialize (Hti _ E). subst y. cbn [cfg after_pop ring] in Hti.
      destruct (ok_ring _ Hx) as (tc&hc&Hc). pose proof (co_cons _ _ _ _ _ Hc) as Htl.
      rewrite E in Htl. cbn in Htl. rewrite (ok_popped _ Hx), index_exact in Htl by apply Hx.
      apply Z.eqb_eq in He. lia.
  - intros x. destruct (decide (received s < received x)); [by left|by right].
Qed.

(** Into an empty ring the next message is pushed. *)
Lemma round_pushes s ws s' :
  ok s → going s = true → next s = received s → next s < kOps → turns s ws s s' →
  4 ≤ steps_of Producer ws → next s < next s'.
Proof.
  intros H Hg Heq Hlt Ht Hk.
  apply (round_reaches s Producer (λ x, next s < next x) (λ x, left_to_push (prod (cfg x))) ws);
    try done.
  - intros x. destruct (prod (cfg x)); cbn; lia.
  - intros x y _ _ (_&_&?&_) ?. lia.
  - intros x y w' _ _ Hne Hs. destruct w'; [done|]. by rewrite (step_other_call _ _ _ Hs).
  - intros x y Hx (_&Hgx&Hnx&Hrx) Hq Hs [_ Hti].
    inversion Hs as [x1 v V Hg1 _|x1 q ps o Hg1 Hlt' Hpu Hit|x1 Hg1 Hd| | |]; subst x1;
      [rewrite Hgx in Hg1 by done; done| |lia].
    destruct (ring_push_cases _ _ _ _ _ _ _ _ Hpu) as [(->&Hl&_)|[(z&->&_)|(z&h&->&E&_&He)]].
    + right. subst y. exact Hl.
    + left. subst y. cbn. lia.
    + exfalso. specialize (Hti _ _ E). subst y. cbn [cfg after_push ring] in Hti.
      destruct (ok_ring _ Hx) as (tc&hc&Hc). pose proof (co_prod _ _ _ _ _ Hc) as Hh.
      rewrite E in Hh. cbn in Hh.
      destruct (ring_push_ok Capacity bench_site n Hcap Hn bench_site_ok kind _ _ _ _ _ _ Hc Hpu)
        as [tc' Hc'].
      pose proof (co_inv _ _ _ _ _ Hc') as Hi. pose proof (i_order _ _ _ _ _ _ _ Hi) as Ho.
      pose proof (i_tcache _ _ _ _ _ _ _ Hi) as Htc. cbn in Ho, Htc.
      destruct (cap_pos Capacity n Hcap Hn) as [Hcp _].
      rewrite (ok_popped _ Hx), (length_pushed _ Hx) in Ho. rewrite (length_pushed _ Hx) in Hh.
      pose proof (ok_received _ Hx). pose proof (ok_order _ Hx).
      rewrite Htc in He, Hti. rewrite index_exact in Hti by lia.
      rewrite Hh, (full_spec Capacity n Hcap Hn) in He by lia. bool_to_prop. lia.
  - intros x. destruct (decide (next s < next x)); [by left|by right].
Qed.

(** What is left to do. *)
Definition work_left (s : state) : nat :=
  (kOps - next s) + (kOps - received s) + (if flagged s then 0 else 1) + (if going s then 0 else 1).

Lemma round_progress s s' :
  ok s → round s s' → ok s' ∧ (finished s ∨ work_left s' < work_left s) ∧ (finished s → finished s').
Proof.
  intros H (ws&Ht&Hk). destruct (turns_later _ _ _ _ H Ht) as [H' (Hf&Hg&Hnx&Hrc)].
  pose proof (ok_next _ H). pose proof (ok_next _ H'). pose proof (ok_received _ H).
  pose proof (ok_received _ H'). pose proof (proj2 (ok_order _ H)) as Ho.
  split; [done|]. split; [|unfold finished; lia].
  assert ((if flagged s' then 0 else 1) ≤ (if flagged s then 0 else 1)) as Hf'
    by (destruct (flagged s); [by rewrite Hf|destruct (flagged s'); lia]).
  assert ((if going s' then 0 else 1) ≤ (if going s then 0 else 1)) as Hg'
    by (destruct (going s); [by rewrite Hg|destruct (going s'); lia]).
  destruct (decide (finished s)) as [|Hnf]; [by left|right]. unfold finished in Hnf. unfold work_left.
  destruct (flagged s) eqn:Ef; [|rewrite (round_flags s ws s' H Ht (Hk Main)) in *; lia].
  destruct (decide (received s < next s)) as [Hlt|Hge].
  { pose proof (round_pops s ws s' H Ef Hlt Ht (Hk Main)). lia. }
  destruct (going s) eqn:Eg; [|rewrite (round_goes s ws s' H Ef Ht (Hk Producer)) in *; lia].
  pose proof (round_pushes s ws s' H Eg ltac:(lia) ltac:(lia) Ht (Hk Producer)). lia.
Qed.

Lemma rounds_progress k s :
  rounds k init s → ok s ∧ (finished s ∨ work_left s + k ≤ work_left init).
Proof.
  intros Hr. remember init as s0 eqn:E0. induction Hr as [s|k s s1 s2 Hr IH Hrd]; subst s.
  { split; [apply init_ok|right; lia]. }
  destruct (IH eq_refl) as [H1 Hm]. destruct (round_progress _ _ H1 Hrd) as (H2&Hp&Hfin).
  split; [done|]. destruct Hm as [Hm|Hm]; [left; by apply Hfin|].
  destruct Hp as [Hp|Hp]; [left; by apply Hfin|right; lia].
Qed.

(** C19: the throughput benchmark of the single-producer rings is correct and
    ends, over the cached and over the naive ring, with its threads
    interleaved at every memory access on a weak memory.  In every execution
    no access to a slot is a data race, what main has received is the first
    messages in order, each once, at most [Capacity] behind the producer,
    and the sink is the work done on them; a thread is never stuck.  And if
    stores become visible, so that in each round both threads take at least
    four steps and load nothing older than the start of the round, then
    after twice as many rounds as there are messages, and two for the start
    flag, both loops have been left with every message received. *)
Theorem spsc_benchmark_completes :
  (∀ s, reachable s →
    accesses_safe Capacity bench_site (cfg s) ∧
    popped (cfg s) = message <$> seq 0 (received s) ∧
    received s ≤ next s ≤ received s + Capacity ∧ next s ≤ kOps ∧
    sink s = foldl (simulate_work SimulateWork) 0%Z (popped (cfg s)) ∧
    ∃ s', round s s') ∧
  (∀ k s, rounds k init s → 2 * kOps + 2 ≤ k →
    finished s ∧ popped (cfg s) = message <$> seq 0 kOps).
Proof.
  split.
  - intros s H%bench_reachable_ok. destruct (ok_order _ H) as [Hp Ho]. destruct (ok_ring _ H) as (tc&hc&Hc).
    split_and!; try done; [|lia|lia|apply H|apply H|by apply round_exists].
    by apply (config_safe Capacity bench_site n Hcap Hn _ _ _ Hc).
  - intros k s Hr Hk. destruct (rounds_progress k s Hr) as [H Hm].
    assert (finished s) as Hf.
    { destruct Hm as [|Hm]; [done|]. unfold work_left, init in Hm. cbn in Hm.
      pose proof (ok_next _ H). pose proof (ok_received _ H). unfold finished. lia. }
    split; [done|]. destruct (ok_order _ H) as [-> _]. by rewrite (proj2 Hf).
Qed.

End program.

(** Two messages over the naive ring with two slots. *)
Lemma spsc_benchmark_completes_witness :
  ∃ s, rounds NaiveSPSCRingBuffer 2 20 2 6 init s ∧
    popped (cfg s) = [mkMsg 0 (0, 0, 0)%Z; mkMsg 1 (1, 1, 1)%Z].
Proof.
  destruct (spsc_benchmark_completes NaiveSPSCRingBuffer 2 20 2 1 eq_refl ltac:(lia) ltac:(lia))
    as [_ Hend].
  assert (∀ k, ∃ s, rounds NaiveSPSCRingBuffer 2 20 2 k init s) as Hex.
  { induction k as [|k [s Hs]]; [exists init; constructor|].
    destruct (rounds_progress NaiveSPSCRingBuffer 2 20 2 1 eq_refl ltac:(lia) ltac:(lia) k s Hs) as [H _].
    destruct (round_exists NaiveSPSCRingBuffer 2 20 2 1 eq_refl ltac:(lia) ltac:(lia) s H) as [s' Hs'].
    exists s'. by eapply rounds_snoc. }
  destruct (Hex 6) as [s Hs]. exists s. split; [exact Hs|].
  destruct (Hend 6 s Hs ltac:(lia)) as [_ H]. exact H.
Defined.

End SpscBench.
