(* ===== verification/Sinks.v ===== *)
(** * Sinks (src/include/jane/marketdata/sinks.hpp)

    The publisher is a template over its sink, here a class with the one
    operation it calls.  [SinkLaws] is what a reader of the published bytes
    relies on: the sink keeps what it is given, in order.  [InMemorySink]
    is an instance.  [FileSink] is a sink without this law: its stream goes
    bad when the device is full, and nothing tells the publisher. *)

From S2P Require Import Prelude.
From stdpp Require Import base tactics list.

Set Default Goal Selector "!".

Class Sink (S : Type) := { sink_write : S → list Z → S }.

(** A sink that keeps what it is given, in order. *)
Class SinkLaws (S : Type) `{!Sink S} := {
  sink_data : S → list Z;
  sink_data_write (s : S) bs : sink_data (sink_write s bs) = sink_data s ++ bs;
}.

Module InMemorySink.
Record t := mk { buffer : list Z }.
Definition create : t := mk [].
Definition write (s : t) (bytes : list Z) : t := mk (buffer s ++ bytes).
Definition data (s : t) : list Z := buffer s.
Definition size (s : t) : nat := length (buffer s).
Definition clear (s : t) : t := mk [].
End InMemorySink.

#[export] Instance in_memory_sink : Sink InMemorySink.t := {| sink_write := InMemorySink.write |}.
#[export] Instance in_memory_sink_laws : SinkLaws InMemorySink.t :=
  {| sink_data := InMemorySink.data; sink_data_write _ _ := eq_refl |}.

(** The output file stream of a [FileSink].  The device has [room] for so many
    more bytes; a write that does not fit keeps what fits and sets the bad
    bit, and a stream that is not good takes nothing.  The stream's own
    buffer is left out: content and bad bit are those after a flush, while
    the real stream reports a full device only when it flushes, which may be
    several writes later. *)
Module FileSink.
Record t := mk { file : list Z; good : bool; room : nat }.

(** [std::runtime_error] with the message, when the file cannot be opened;
    opening truncates. *)
Definition create (opens : list Z → bool) (path : list Z) (room : nat) : list Z + t :=
  if opens path then inr (mk [] true room) else inl path.

Definition write (s : t) (bytes : list Z) : t :=
  if good s then
    let n := Nat.min (room s) (length bytes) in
    mk (file s ++ take n bytes) (length bytes <=? room s) (room s - n)
  else s.
End FileSink.

#[export] Instance file_sink : Sink FileSink.t := {| sink_write := FileSink.write |}.
