(* ===== verification/Publisher.v ===== *)
(** * The market data publisher (src/include/jane/marketdata)

    [MarketDataPublisher] encodes trades, level updates, execution reports
    and depth snapshots into a [Sink].  The sink is a template parameter of
    the code and a class here (Sinks.v).

    The reference is an [event]: the message that was published.  Every
    operation appends the frame of exactly one event, and [read_feed], a
    subscriber built from the decoders of the codec, recovers the events
    from the bytes. *)

From S2P Require Import Prelude Types Bitmap SlabPool Level HashMap Ladder OrderBook.
From S2P Require Import BookSpec Matching MatchSpec Liquidity BookProps Wire Protocol Codec.
From S2P Require Import Sinks.
From stdpp Require Import base tactics numbers list sets gmap.

Set Default Goal Selector "!".

Module Publisher.
Import Level OrderBook BookSpec Matching MatchSpec Wire Protocol Codec.

Section publisher.
Context {S : Type} `{!Sink S}.

Record t := mk {
  sink : S;
  next_sequence : Z;
  snapshot_scratch : list Z;
  bid_scratch : list PriceLevelRecord;
  ask_scratch : list PriceLevelRecord;
}.

Definition create (s : S) (snapshot_scratch_bytes : nat) : t :=
  mk s 1 (replicate snapshot_scratch_bytes 0%Z) [] [].

(** [sink_.write], and [next_sequence_++]. *)
Definition append (p : t) (bytes : list Z) : t :=
  mk (sink_write (sink p) bytes) (next_sequence p) (snapshot_scratch p) (bid_scratch p)
    (ask_scratch p).
Definition bump (p : t) : t :=
  mk (sink p) (u64 (next_sequence p + 1)) (snapshot_scratch p) (bid_scratch p) (ask_scratch p).

(** Encode into a zeroed local array of [size] bytes and write what was used. *)
Definition emit {T : Type} `{!Layout T, !Payload T} (size : nat) (p : t) (msg : T) : t :=
  let '(n, buf) := encode (replicate size 0%Z) msg in append p (take n buf).

Definition trade_message (symbol sequence : Z) (f : Fill) : TradeMessage :=
  mkTrade sequence (match_id f) (fill_price f) (fill_quantity f) symbol
    (aggressor_side_byte f) 0.

Definition publish_trade (p : t) (symbol : Z) (f : Fill) : t :=
  emit 64 (bump p) (trade_message symbol (next_sequence p) f).

Definition publish_execution_report (p : t) (msg : ExecutionReportMessage) : t :=
  emit 128 p msg.

Definition delta_message (symbol sequence side price : Z) (level : PriceLevel)
    : BookDeltaMessage :=
  mkBookDelta sequence price (total_quantity level) symbol (Level.order_count level)
    side
    (delta_code (if (Level.order_count level =? 0)%Z then DeltaDelete else DeltaUpdate)) 0.

Definition publish_level_update (p : t) (symbol side price : Z)
    (level : PriceLevel) : t :=
  emit 64 (bump p) (delta_message symbol (next_sequence p) side price level).

Definition level_record (price : Z) (lvl : PriceLevel) : PriceLevelRecord :=
  mkLevelRecord price (total_quantity lvl) (Level.order_count lvl) 0.

(** The visitor [collect(out)]: push the level, go on while below [depth]. *)
Definition collect (depth : nat) (out : list PriceLevelRecord) (price : Z) (lvl : PriceLevel)
    : list PriceLevelRecord * bool :=
  let out := out ++ [level_record price lvl] in (out, length out <? depth).

(** The attempts of [publish_snapshot]: double the scratch after a failure. *)
Fixpoint snapshot_attempts (attempts : nat) (scratch : list Z) (sequence symbol : Z)
    (bids asks : list PriceLevelRecord) : nat * list Z :=
  match attempts with
  | O => (0, scratch)
  | Datatypes.S attempts =>
      match encode_snapshot scratch sequence symbol bids asks with
      | (O, scratch) =>
          snapshot_attempts attempts (resize (length scratch * 2) 0%Z scratch) sequence symbol
            bids asks
      | written => written
      end
  end.

Definition publish_snapshot {M : Type} `{!HashMap Z nat M} (NumLevels : nat)
    (p : t) (symbol : Z) (book : OrderBook.t M) (depth : nat) : t :=
  let bids := for_each_level NumLevels book Buy (collect depth) [] in
  let asks := for_each_level NumLevels book Sell (collect depth) [] in
  let '(written, scratch) :=
    snapshot_attempts 4 (snapshot_scratch p) (next_sequence p) symbol bids asks in
  let p := mk (sink p) (next_sequence p) scratch bids asks in
  match written with
  | O => p
  | _ => append (bump p) (take written scratch)
  end.

End publisher.

Arguments t : clear implicits.

(** ** Events and their bytes *)

Inductive event :=
  | EvTrade (m : TradeMessage)
  | EvReport (m : ExecutionReportMessage)
  | EvDelta (m : BookDeltaMessage)
  | EvSnapshot (sequence symbol : Z) (bids asks : list PriceLevelRecord).

Definition event_bytes (ev : event) : list Z :=
  match ev with
  | EvTrade m => frame 0 m
  | EvReport m => frame 0 m
  | EvDelta m => frame 0 m
  | EvSnapshot sequence symbol bids asks => snapshot_frame sequence symbol bids asks
  end.

Definition event_typed (ev : event) : Prop :=
  match ev with
  | EvTrade m => l_typed m
  | EvReport m => l_typed m
  | EvDelta m => l_typed m
  | EvSnapshot sequence symbol bids asks =>
      is_u64 sequence ∧ is_u32 symbol ∧ Forall l_typed bids ∧ Forall l_typed asks ∧
      snapshot_fits bids asks
  end.

(** The sequence number of an event, if it carries one. *)
Definition event_sequence (ev : event) : option Z :=
  match ev with
  | EvTrade m => Some (tm_sequence m)
  | EvReport _ => None
  | EvDelta m => Some (bd_sequence m)
  | EvSnapshot sequence _ _ _ => Some sequence
  end.

(** One message off the front of a feed, by the type in its header. *)
Definition read_event (bs : list Z) : option (event * nat) :=
  header ← peek_header bs;
  header ← header;
  let t := h_type header in
  if (t =? type_code MtTrade)%Z then
    r ← decode TradeMessage bs;
    match d_status r with Ok => Some (EvTrade (d_payload r), d_consumed r) | _ => None end
  else if (t =? type_code MtExecutionReport)%Z then
    r ← decode ExecutionReportMessage bs;
    match d_status r with Ok => Some (EvReport (d_payload r), d_consumed r) | _ => None end
  else if (t =? type_code MtBookDelta)%Z then
    r ← decode BookDeltaMessage bs;
    match d_status r with Ok => Some (EvDelta (d_payload r), d_consumed r) | _ => None end
  else if (t =? type_code MtBookSnapshot)%Z then
    r ← decode_snapshot bs;
    match sd_status r with
    | Ok => Some (EvSnapshot (sh_sequence (sd_header r)) (sh_symbol_id (sd_header r))
                    (sd_bids r) (sd_asks r), sd_consumed r)
    | _ => None
    end
  else None.

(** All messages of a feed; every message has at least a header. *)
Fixpoint read_events (fuel : nat) (bs : list Z) : list event :=
  match fuel with
  | O => []
  | Datatypes.S fuel =>
      match read_event bs with
      | Some (ev, n) => ev :: read_events fuel (drop n bs)
      | None => []
      end
  end.

Definition read_feed (bs : list Z) : list event := read_events (length bs) bs.

(** ** Reading back what was published *)

Lemma message_sizes :
  frame_size (T := TradeMessage) = 44 ∧ frame_size (T := ExecutionReportMessage) = 60 ∧
  frame_size (T := BookDeltaMessage) = 44.
Proof. done. Qed.

(** The length field of every message type fits. *)
Ltac small_message := vm_compute; discriminate.

Lemma zero_u8 : is_u8 0.
Proof. unfold is_u8. lia. Qed.

Lemma peek_message {T : Type} `{!Layout T, !Payload T, !LayoutLaws T} (x : T) rest :
  (Z.of_nat (sizeof T) ≤ 65535)%Z →
  peek_header (frame 0 x ++ rest) =
    Some (Some (mkHeader (Z.of_nat (sizeof T)) (type_code (p_type (T := T))) 0)).
Proof.
  intros Hs. unfold frame. rewrite <- app_assoc. apply peek_frame.
  apply frame_header_typed; [done|apply zero_u8].
Qed.

Lemma peek_snapshot sequence symbol bids asks rest :
  snapshot_fits bids asks →
  peek_header (snapshot_frame sequence symbol bids asks ++ rest) =
    Some (Some (mkHeader (Z.of_nat (16 + (length bids + length asks) * 24))
      (type_code MtBookSnapshot) 0)).
Proof.
  intros Hf. unfold snapshot_frame. rewrite <- app_assoc. apply peek_frame.
  unfold snapshot_fits in Hf. cbn. split_and!; [unfold is_u16|unfold is_u8|unfold is_u8]; lia.
Qed.

(** A framed event is read back, whatever follows it. *)
Lemma read_event_frame ev rest :
  event_typed ev →
  read_event (event_bytes ev ++ rest) = Some (ev, length (event_bytes ev)).
Proof.
  intros Hev. unfold read_event. destruct ev as [m|m|m|sequence symbol bids asks];
    cbn [event_bytes event_typed] in *.
  1-3: rewrite peek_message by small_message; cbn [mbind option_bind h_type p_type];
    rewrite ?Z.eqb_refl; cbn [Z.eqb Pos.eqb type_code trade_payload execution_report_payload
      book_delta_payload p_type];
    rewrite decode_frame by (done || small_message || apply zero_u8);
    cbn [mbind option_bind d_status d_payload d_consumed];
    rewrite length_frame by (done || small_message || apply zero_u8); done.
  rewrite peek_snapshot by apply Hev. cbn [mbind option_bind h_type type_code Z.eqb Pos.eqb].
  destruct Hev as (Hq&Hy&Hb&Ha&Hf).
  by rewrite length_snapshot_frame, decode_snapshot_frame.
Qed.

Lemma event_bytes_pos ev : event_typed ev → 0 < length (event_bytes ev).
Proof.
  intros Hev. destruct ev as [m|m|m|sequence symbol bids asks]; cbn [event_bytes].
  1-3: rewrite length_frame by (done || small_message || apply zero_u8);
    unfold frame_size; change (sizeof MessageHeader) with 4; lia.
  destruct Hev as (Hq&Hy&Hb&Ha&Hf). rewrite length_snapshot_frame by done.
  unfold snapshot_size. lia.
Qed.

Definition feed_bytes (evs : list event) : list Z := concat (event_bytes <$> evs).

Lemma feed_bytes_app evs evs' : feed_bytes (evs ++ evs') = feed_bytes evs ++ feed_bytes evs'.
Proof. unfold feed_bytes. by rewrite fmap_app, concat_app. Qed.

Lemma read_events_feed fuel evs :
  Forall event_typed evs → length (feed_bytes evs) ≤ fuel →
  read_events fuel (feed_bytes evs) = evs.
Proof.
  intros Ht. revert fuel. induction Ht as [|ev evs Hev Ht IH]; intros fuel Hl.
  { destruct fuel; [done|]. cbn [read_events]. unfold read_event. by rewrite peek_short by (cbn; lia). }
  unfold feed_bytes in *. rewrite fmap_cons in *. cbn [concat] in *.
  rewrite length_app in Hl. pose proof (event_bytes_pos ev Hev).
  destruct fuel as [|fuel]; [lia|]. cbn [read_events].
  rewrite read_event_frame, drop_app_length by done. f_equal. apply IH. lia.
Qed.

Lemma read_feed_bytes evs : Forall event_typed evs → read_feed (feed_bytes evs) = evs.
Proof. intros Ht. by apply read_events_feed. Qed.

(** ** What each operation appends *)

Section appends.
Context {S : Type} `{!Sink S, !SinkLaws S}.
Implicit Types (p : t S).

(** The publisher appended exactly these events. *)
Definition published p (evs : list event) p' : Prop :=
  sink_data (sink p') = sink_data (sink p) ++ feed_bytes evs.

Lemma published_nil p : published p [] p.
Proof. unfold published. by rewrite app_nil_r. Qed.

Lemma published_app p evs p' evs' p'' :
  published p evs p' → published p' evs' p'' → published p (evs ++ evs') p''.
Proof. unfold published. intros H1 ->. by rewrite H1, feed_bytes_app, app_assoc. Qed.

Lemma emit_appends {T : Type} `{!Layout T, !Payload T, !LayoutLaws T} size p (msg : T) :
  (Z.of_nat (sizeof T) ≤ 65535)%Z → l_typed msg → frame_size (T := T) ≤ size →
  emit size p msg = append p (frame 0 msg).
Proof.
  intros Hs Hm Hl. unfold emit. rewrite encode_frame by (done || rewrite length_replicate; lia).
  by rewrite <- (length_frame Hs 0 msg zero_u8 Hm), take_app_length.
Qed.

Lemma append_published p ev : published p [ev] (append p (event_bytes ev)).
Proof. unfold published, append, feed_bytes. cbn. by rewrite sink_data_write, app_nil_r. Qed.

Lemma publish_trade_spec p symbol f :
  let m := trade_message symbol (next_sequence p) f in
  l_typed m → publish_trade p symbol f = append (bump p) (event_bytes (EvTrade m)).
Proof. intros m Hm. apply emit_appends; [small_message|done|vm_compute; lia]. Qed.

Lemma publish_level_update_spec p symbol side price level :
  let m := delta_message symbol (next_sequence p) side price level in
  l_typed m →
  publish_level_update p symbol side price level = append (bump p) (event_bytes (EvDelta m)).
Proof. intros m Hm. apply emit_appends; [small_message|done|vm_compute; lia]. Qed.

Lemma publish_execution_report_spec p m :
  l_typed m → publish_execution_report p m = append p (event_bytes (EvReport m)).
Proof. intros Hm. apply emit_appends; [small_message|done|vm_compute; lia]. Qed.

End appends.

(** ** Snapshots *)

(** The price levels of a queue: its runs of equal prices, in order. *)
Fixpoint group (q : list Order) : list (Z * list Order) :=
  match q with
  | [] => []
  | o :: q =>
      match group q with
      | (p, os) :: g =>
          if (p =? ord_price o)%Z then (p, o :: os) :: g else (ord_price o, [o]) :: (p, os) :: g
      | [] => [(ord_price o, [o])]
      end
  end.

Definition level_summary (lv : Z * list Order) : PriceLevelRecord :=
  mkLevelRecord lv.1 (i64 (volume lv.2)) (Z.of_nat (length lv.2)) 0.

(** The best [depth] levels of a queue, and one even when [depth] is 0. *)
Definition top_levels (depth : nat) (q : list Order) : list PriceLevelRecord :=
  take (Nat.max 1 depth) (level_summary <$> group q).

Lemma group_hd q : fst <$> hd_error (group q) = ord_price <$> hd_error q.
Proof.
  destruct q as [|o q]; [done|]. cbn [group]. destruct (group q) as [|[p os] g]; [done|].
  destruct (Z.eqb_spec p (ord_price o)) as [-> |]; done.
Qed.

Lemma group_run p run q :
  run ≠ [] → Forall (λ o, ord_price o = p) run → hd_error (ord_price <$> q) ≠ Some p →
  group (run ++ q) = (p, run) :: group q.
Proof.
  intros Hne Hp Hq. induction Hp as [|o run Ho Hrun IH]; [done|]. subst p. cbn [app group].
  destruct run as [|o' run].
  - cbn [app]. pose proof (group_hd q) as Hh. destruct (group q) as [|[p os] g]; [done|].
    rewrite (proj2 (Z.eqb_neq _ _)); [done|]. intros ->. apply Hq.
    cbn in Hh. destruct q; [done|]. cbn in *. congruence.
  - rewrite IH by done. by rewrite Z.eqb_refl.
Qed.

(** Runs with different prices next to each other are the groups. *)
Lemma group_runs (lvls : list (Z * list Order)) :
  Forall (λ lv, lv.2 ≠ [] ∧ Forall (λ o, ord_price o = lv.1) lv.2) lvls →
  NoDup lvls.*1 → group (concat lvls.*2) = lvls.
Proof.
  induction 1 as [|[p run] lvls [Hne Hp] Hl IH]; intros Hnd; [done|].
  rewrite !fmap_cons in *. cbn [concat fst snd] in *. apply NoDup_cons in Hnd as [Hn Hnd].
  rewrite (group_run p), IH; [done..|]. destruct Hl as [|[p' run'] lvls [Hne' Hp'] Hl]; [done|].
  rewrite fmap_cons in *. cbn [concat fst snd] in *.
  destruct Hp' as [|o' run' Ho' _]; [done|]. cbn. intros [= E]. rewrite Ho' in E. set_solver.
Qed.

Lemma collect_loop depth lvls out :
  visit_list (collect depth) out lvls =
  out ++ take (Nat.max 1 (depth - length out)) ((λ '(p, l), level_record p l) <$> lvls).
Proof.
  revert out. induction lvls as [|[p l] lvls IH]; intros out.
  { cbn. by rewrite take_nil, app_nil_r. }
  cbn [visit_list]. unfold collect at 1. rewrite fmap_cons. cbv zeta.
  destruct (Nat.ltb_spec (length (out ++ [level_record p l])) depth) as [Hd|Hd];
    rewrite length_app in Hd; cbn [length] in Hd.
  - rewrite IH, length_app. cbn [length].
    replace (Nat.max 1 (depth - length out)) with (Datatypes.S (depth - (length out + 1))) by lia.
    replace (Nat.max 1 (depth - (length out + 1))) with (depth - (length out + 1)) by lia.
    cbn [take]. by rewrite <- app_assoc.
  - replace (Nat.max 1 (depth - length out)) with 1 by lia. cbn [take].
    by rewrite take_0.
Qed.

#[export] Instance snapshot_fits_dec bids asks : Decision (snapshot_fits bids asks).
Proof. unfold snapshot_fits. apply _. Defined.

Section snapshot.
Context (NumLevels MaxOrders : nat).
Context {M : Type} `{!HashMap Z nat M}.
Context {S : Type} `{!Sink S, !SinkLaws S}.
Implicit Types (b : OrderBook.t M) (p : t S).

Abbreviation rep := (OrderBook.rep NumLevels MaxOrders).
Abbreviation queue := (OrderBook.queue NumLevels MaxOrders).

(** The levels a side shows are the runs of its queue. *)
Lemma level_view_group b F L G Q s :
  rep b F L G Q →
  (λ '(p, l), level_record p l) <$> level_view NumLevels b Q s = level_summary <$> group (queue b s).
Proof.
  intros Hr. set (idx := busy Q s (Ladder.prio (is_bid s) NumLevels)).
  set (lvls := (λ i, (base_price b + Z.of_nat i, Q s i)%Z) <$> idx).
  assert (∀ i, i ∈ idx → i < NumLevels ∧ Q s i ≠ []) as Hidx.
  { intros i [Hi Hb]%list_elem_of_In%filter_In. apply list_elem_of_In, Ladder.elem_of_prio in Hi.
    by apply bool_decide_eq_true in Hb. }
  assert (queue b s = concat lvls.*2) as ->.
  { rewrite (Liquidity.queue_busy _ _ _ _ _ _ _ s Hr). unfold lvls. by rewrite <- list_fmap_compose. }
  rewrite group_runs.
  - unfold level_view, lvls. rewrite <- !list_fmap_compose. apply list_fmap_ext.
    intros k i Hi%list_elem_of_lookup_2. destruct (Hidx i Hi) as [Hi' _]. cbn.
    destruct (BookProps.level_fields _ _ _ _ _ _ _ s i Hr Hi') as [E1 E2].
    unfold level_record, level_summary. rewrite E1, E2, (price_at_exact NumLevels) by (done || apply Hr).
    done.
  - unfold lvls. apply Forall_fmap, Forall_forall. intros i Hi. cbn. split; [by apply Hidx|].
    apply Forall_forall. intros o Ho. by apply (r_order _ _ _ _ _ _ _ Hr) in Ho as [_ -> _ _ _].
  - unfold lvls. rewrite <- list_fmap_compose. apply NoDup_fmap_2_strong.
    + intros i j _ _ E. cbn in E. lia.
    + unfold idx, busy. apply NoDup_ListNoDup, List.NoDup_filter, NoDup_ListNoDup, Ladder.prio_NoDup.
Qed.

Lemma collect_levels b F L G Q s depth :
  rep b F L G Q →
  for_each_level NumLevels b s (collect depth) [] = top_levels depth (queue b s).
Proof.
  intros Hr. rewrite (for_each_level_spec _ _ _ _ _ _ _ s _ _ Hr), collect_loop.
  rewrite (level_view_group _ _ _ _ _ _ Hr). cbn [length app]. by rewrite Nat.sub_0_r.
Qed.

(** The level records of a book are well typed. *)
Lemma top_levels_typed b F L G Q s depth :
  rep b F L G Q → Forall l_typed (top_levels depth (queue b s)).
Proof.
  intros Hr. unfold top_levels. rewrite <- (level_view_group _ _ _ _ _ _ Hr).
  apply Forall_take, Forall_fmap, Forall_fmap, Forall_forall. intros i Hi.
  apply Liquidity.busy_elem, Ladder.elem_of_prio in Hi.
  destruct (BookProps.level_fields _ _ _ _ _ _ _ s i Hr Hi) as [E1 E2].
  pose proof (r_base _ _ _ _ _ _ _ Hr) as Hg. unfold geometry, is_i64 in Hg.
  destruct (rep_level_length _ _ _ _ _ _ _ s i Hr) as [Ha Hb].
  cbn. rewrite E1, E2, (price_at_exact NumLevels) by (done || apply Hr). split_and!.
  - unfold is_i64. lia.
  - apply i64_range.
  - unfold is_u32. rewrite <- (level_rep_length _ _ _ _ (r_level _ _ _ _ _ _ _ Hr s i Hi)). lia.
  - unfold fits. cbn. lia.
Qed.

Lemma attempts_none n scratch sequence symbol bids asks :
  ¬ snapshot_fits bids asks ∨ 2 ^ n * length scratch < 2 * snapshot_size bids asks →
  ∃ scratch', snapshot_attempts n scratch sequence symbol bids asks = (0, scratch') ∧
    length scratch' = 2 ^ n * length scratch.
Proof.
  revert scratch. induction n as [|n IH]; intros scratch H; cbn [snapshot_attempts].
  { exists scratch. cbn [Nat.pow]. by rewrite Nat.mul_1_l. }
  rewrite Nat.pow_succ_r' in *. pose proof (Nat.pow_nonzero 2 n).
  rewrite encode_snapshot_none by (destruct H; [by left|right; nia]).
  destruct (IH (resize (length scratch * 2) 0%Z scratch)) as (s'&H1&H2); rewrite length_resize in *;
    [destruct H; [by left|right; nia]|]. exists s'. split; [done|nia].
Qed.

Lemma attempts_some n scratch sequence symbol bids asks :
  event_typed (EvSnapshot sequence symbol bids asks) →
  snapshot_size bids asks ≤ 2 ^ n * length scratch →
  ∃ scratch', snapshot_attempts (Datatypes.S n) scratch sequence symbol bids asks =
      (snapshot_size bids asks, scratch') ∧
    take (snapshot_size bids asks) scratch' = snapshot_frame sequence symbol bids asks.
Proof.
  intros (Hq&Hy&Hb&Ha&Hf). revert scratch. induction n as [|n IH]; intros scratch H;
    cbn [snapshot_attempts]; (destruct (decide (snapshot_size bids asks ≤ length scratch)) as [Hs|Hs];
    [rewrite encode_snapshot_some by done;
     pose proof (length_snapshot_frame sequence symbol bids asks Hq Hy Hb Ha Hf) as Hl;
     destruct (snapshot_size bids asks) as [|m] eqn:E; [by unfold snapshot_size in E|];
     eexists; split; [done|]; by rewrite <- Hl, take_app_length|]).
  - cbn [Nat.pow] in H. lia.
  - rewrite encode_snapshot_none by (right; lia). apply IH. rewrite length_resize.
    rewrite Nat.pow_succ_r' in H. nia.
Qed.

Context `{!HashMapLaws Z nat M}.

(** C27: a snapshot of a reachable book is published as one frame that holds the
    best [depth] price levels of each side (one level even for depth 0) with
    their exact volumes and counts, under the next sequence number, whenever
    it fits the 16-bit length field and an eightfold scratch buffer holds it;
    otherwise nothing is published, no number is used, and the scratch
    buffer is 16 times as long. *)
Theorem snapshot_published sym base b p symbol depth :
  BookProps.sized NumLevels MaxOrders base → BookProps.book_reach NumLevels MaxOrders sym base b →
  is_u64 (next_sequence p) → is_u32 symbol →
  let bids := top_levels depth (queue b Buy) in
  let asks := top_levels depth (queue b Sell) in
  let p' := publish_snapshot NumLevels p symbol b depth in
  if decide (snapshot_fits bids asks ∧ snapshot_size bids asks ≤ 8 * length (snapshot_scratch p))
  then published p [EvSnapshot (next_sequence p) symbol bids asks] p' ∧
       next_sequence p' = u64 (next_sequence p + 1)
  else sink p' = sink p ∧ next_sequence p' = next_sequence p ∧
       length (snapshot_scratch p') = 16 * length (snapshot_scratch p).
Proof.
  intros (Hg&H1&H2) Hreach Hq Hy bids asks p'.
  destruct (BookProps.reach_rep _ _ _ _ _ Hg H1 H2 Hreach) as (F&L&G&Q&Hr).
  unfold p', publish_snapshot. rewrite !(collect_levels _ _ _ _ _ _ _ Hr). fold bids asks.
  assert (Forall l_typed bids) as Hb by by eapply top_levels_typed.
  assert (Forall l_typed asks) as Ha by by eapply top_levels_typed.
  case_decide as Hd.
  - destruct Hd as [Hf Hs].
    destruct (attempts_some 3 (snapshot_scratch p) (next_sequence p) symbol bids asks)
      as (s'&->&Ht); [by split_and!|cbn [Nat.pow]; lia|].
    destruct (snapshot_size bids asks) as [|m] eqn:Hsz; [by unfold snapshot_size in Hsz|].
    rewrite Ht. split; [|done].
    change (published p [EvSnapshot (next_sequence p) symbol bids asks])
      with (published (bump (mk (sink p) (next_sequence p) s' bids asks))
              [EvSnapshot (next_sequence p) symbol bids asks]).
    apply append_published.
  - destruct (attempts_none 4 (snapshot_scratch p) (next_sequence p) symbol bids asks) as (s'&->&Hl);
      [|done]. apply not_and_l in Hd as [Hd|Hd]; [by left|right]. change (2 ^ 4) with 16. lia.
Qed.

End snapshot.

(** With the default scratch of 8192 bytes the retries suffice: a snapshot
    is given up exactly when its levels do not fit the wire format, that is
    for more than 2729 levels. *)
Lemma default_scratch_suffices (bids asks : list PriceLevelRecord) :
  snapshot_fits bids asks ∧ (Z.of_nat (snapshot_size bids asks) ≤ 8 * 8192)%Z ↔
  (Z.of_nat (length bids + length asks) ≤ 2729)%Z.
Proof. unfold snapshot_fits, snapshot_size. lia. Qed.

(** ** A concrete snapshot *)

Definition demo_publisher : t InMemorySink.t := create InMemorySink.create 20.

Lemma snapshot_published_witness :
  read_feed (sink_data (sink (publish_snapshot 8 demo_publisher 7 BookProps.demo_book 2))) =
    [EvSnapshot 1 7 (top_levels 2 (OrderBook.queue 8 4 BookProps.demo_book Buy))
       (top_levels 2 (OrderBook.queue 8 4 BookProps.demo_book Sell))].
Proof.
  pose proof (snapshot_published 8 4 7 100 BookProps.demo_book demo_publisher 7 2
    BookProps.demo_sized BookProps.demo_book_reach) as H. cbv zeta in H.
  rewrite decide_True in H by (split; [vm_compute; discriminate|vm_compute; lia]).
  destruct H as [H _]; [unfold is_u64; cbn; lia|unfold is_u32; lia|].
  unfold published in H. rewrite H. vm_compute. reflexivity.
Defined.

End Publisher.
