(* ===== verification/Text.v ===== *)
(** * Text: numbers as the C++ library prints and reads them

    The viewer (src/apps/bookview/main.cpp) builds its output from
    [std::to_string] and [std::snprintf] and reads its options with
    [std::stoi] and [std::stoull].  A [std::string] is a list of characters.
    The lemmas give the round trip between printing and reading, and the
    width of what is printed. *)

From S2P Require Import Prelude.
From Stdlib Require Import Ascii String.
From stdpp Require Import base tactics numbers list.

Set Default Goal Selector "!".

Abbreviation text := (list ascii).

(** The characters of a literal. *)
Abbreviation lit s := (list_ascii_of_string s%string).

Module Text.
Local Open Scope Z_scope.

(** ** Printing *)

Definition digit (d : Z) : ascii := ascii_of_N (Z.to_N (48 + d)).

Fixpoint digits (fuel : nat) (n : Z) : text :=
  match fuel with
  | O => []
  | S fuel => if n <? 10 then [digit n] else digits fuel (n / 10) ++ [digit (n mod 10)]
  end.

(** Every division by ten at least halves the number, so its bits are fuel
    enough. *)
Definition decimal (n : Z) : text := digits (S (Z.to_nat (Z.log2 n))) n.

(** [std::to_string] of an integer. *)
Definition to_string (n : Z) : text :=
  if n <? 0 then "-"%char :: decimal (- n) else decimal n.

(** The [%<w>] and [%-<w>] conversions of [printf]. *)
Definition pad_left (w : nat) (s : text) : text := replicate (w - length s) " "%char ++ s.
Definition pad_right (w : nat) (s : text) : text := s ++ replicate (w - length s) " "%char.

(** What [snprintf] leaves in an array of [size] characters, up to the
    terminator. *)
Definition snprintf (size : nat) (s : text) : text := take (size - 1) s.

(** ** Reading *)

Definition is_digit (c : ascii) : bool :=
  let n := N_of_ascii c in (48 <=? n)%N && (n <=? 57)%N.

Definition digit_value (c : ascii) : Z := Z.of_N (N_of_ascii c) - 48.

Definition value (s : text) : Z := foldl (λ acc c, acc * 10 + digit_value c) 0 s.

(** The longest run of digits in front, and what follows. *)
Fixpoint span_digits (s : text) : text * text :=
  match s with
  | [] => ([], [])
  | c :: s' => if is_digit c then let '(ds, r) := span_digits s' in (c :: ds, r) else ([], s)
  end.

(** At least one digit, then the rest. *)
Definition read_nat (s : text) : option (Z * text) :=
  match span_digits s with
  | ([], _) => None
  | (ds, r) => Some (value ds, r)
  end.

(** [isspace] in the C locale. *)
Definition is_space (c : ascii) : bool :=
  let n := N_of_ascii c in (n =? 32)%N || ((9 <=? n)%N && (n <=? 13)%N).

Fixpoint skip_spaces (s : text) : text :=
  match s with
  | c :: s' => if is_space c then skip_spaces s' else s
  | [] => []
  end.

(** The conversion [strtol] and [strtoull] share: white space, a sign, the
    digits; anything may follow.  The result is the sign and the magnitude. *)
Definition strto (s : text) : option (bool * Z) :=
  let s := skip_spaces s in
  let '(neg, s) := match s with
                   | c :: s' => if Ascii.eqb c "-" then (true, s')
                                else if Ascii.eqb c "+" then (false, s') else (false, s)
                   | [] => (false, s)
                   end in
  '(m, _) ← read_nat s; Some (neg, m).

(** The two exceptions of [std::stoi] and [std::stoull]. *)
Inductive conversion_error := InvalidArgument | OutOfRange.

Definition stoi (s : text) : conversion_error + Z :=
  match strto s with
  | None => inl InvalidArgument
  | Some (neg, m) =>
      let n := if neg : bool then - m else m in
      if (- 2 ^ 31 <=? n) && (n <? 2 ^ 31) then inr n else inl OutOfRange
  end.

(** [strtoull] negates in the unsigned type after a minus sign. *)
Definition stoull (s : text) : conversion_error + Z :=
  match strto s with
  | None => inl InvalidArgument
  | Some (neg, m) =>
      if m <? 2 ^ 64 then inr (if neg : bool then u64 (- m) else m) else inl OutOfRange
  end.

(** ** Lemmas *)

Lemma digit_code d : 0 <= d < 10 → N_of_ascii (digit d) = Z.to_N (48 + d).
Proof. intros Hd. unfold digit. apply N_ascii_embedding. lia. Qed.

Lemma digit_is_digit d : 0 <= d < 10 → is_digit (digit d) = true.
Proof.
  intros Hd. unfold is_digit. rewrite digit_code by done. apply andb_true_intro.
  split; apply N.leb_le; lia.
Qed.

Lemma digit_value_digit d : 0 <= d < 10 → digit_value (digit d) = d.
Proof. intros Hd. unfold digit_value. rewrite digit_code by done. lia. Qed.

Lemma value_snoc s c : value (s ++ [c]) = value s * 10 + digit_value c.
Proof. unfold value. by rewrite foldl_app. Qed.

Lemma digits_ok fuel n :
  0 <= n < 2 ^ Z.of_nat fuel → (0 < fuel)%nat →
  value (digits fuel n) = n ∧ Forall (λ c, is_digit c = true) (digits fuel n) ∧
  digits fuel n ≠ [].
Proof.
  revert n. induction fuel as [|fuel IH]; intros n Hn Hf; [lia|]. cbn [digits].
  destruct (Z.ltb_spec n 10) as [Hlt|Hge].
  { split_and!; [|apply Forall_singleton, digit_is_digit; lia|done].
    unfold value. cbn. rewrite digit_value_digit; lia. }
  rewrite Nat2Z.inj_succ, Z.pow_succ_r in Hn by lia.
  assert (0 < fuel)%nat as Hf'.
  { destruct fuel; [|lia]. change (2 ^ Z.of_nat 0) with 1 in Hn. lia. }
  pose proof (Z.mod_pos_bound n 10 ltac:(lia)) as Hm.
  destruct (IH (n / 10)) as (H1&H2&H3); [Z.div_mod_to_equations; lia|done|].
  split_and!.
  - rewrite value_snoc, H1, digit_value_digit by lia. Z.div_mod_to_equations; lia.
  - apply Forall_app. split; [done|]. by apply Forall_singleton, digit_is_digit.
  - intros [_ ?]%app_eq_nil. done.
Qed.

Lemma decimal_ok n :
  0 <= n →
  value (decimal n) = n ∧ Forall (λ c, is_digit c = true) (decimal n) ∧ decimal n ≠ [].
Proof.
  intros Hn. apply digits_ok; [|lia]. split; [done|]. rewrite Nat2Z.inj_succ, Z2Nat.id
    by apply Z.log2_nonneg. destruct (decide (n = 0)) as [->|]; [done|]. apply Z.log2_spec. lia.
Qed.

Lemma digits_length fuel n k :
  0 <= n < 10 ^ Z.of_nat k → (0 < k)%nat → (length (digits fuel n) <= k)%nat.
Proof.
  revert n k. induction fuel as [|fuel IH]; intros n k Hn Hk; cbn [digits]; [cbn; lia|].
  destruct (Z.ltb_spec n 10) as [Hlt|Hge]; [cbn; lia|].
  destruct k as [|[|k]]; [lia|change (10 ^ Z.of_nat 1) with 10 in Hn; lia|].
  rewrite Nat2Z.inj_succ, Z.pow_succ_r in Hn by lia.
  rewrite length_app. cbn [length].
  pose proof (IH (n / 10) (S k)) as H. rewrite Nat.add_1_r. apply le_n_S, H; [|lia].
  Z.div_mod_to_equations; lia.
Qed.

(** An [int64_t] takes at most 20 characters, a [uint32_t] at most 10. *)
Lemma to_string_i64 n : is_i64 n → (length (to_string n) <= 20)%nat.
Proof.
  unfold is_i64, to_string. intros Hn. destruct (Z.ltb_spec n 0); cbn [length].
  - apply le_n_S. apply digits_length; [|lia]. cbn. lia.
  - apply Nat.le_trans with 19%nat; [|lia]. apply digits_length; [|lia]. cbn. lia.
Qed.

Lemma to_string_u32 n : is_u32 n → (length (to_string n) <= 10)%nat.
Proof.
  unfold is_u32, to_string. intros Hn. rewrite (proj2 (Z.ltb_ge _ _)) by lia.
  apply digits_length; [|lia]. cbn. lia.
Qed.

(** The text does not go on with a digit. *)
Definition stops (s : text) : Prop := match s with c :: _ => is_digit c = false | [] => True end.

Lemma span_digits_app ds r :
  Forall (λ c, is_digit c = true) ds → stops r → span_digits (ds ++ r) = (ds, r).
Proof.
  intros Hd Hr. induction Hd as [|c ds Hc Hd IH]; cbn [app span_digits].
  - destruct r as [|c r]; [done|]. cbn in Hr |- *. by rewrite Hr.
  - by rewrite Hc, IH.
Qed.

Lemma read_nat_decimal n r : 0 <= n → stops r → read_nat (decimal n ++ r) = Some (n, r).
Proof.
  intros Hn Hr. destruct (decimal_ok n Hn) as (Hv&Hd&Hne). unfold read_nat.
  rewrite span_digits_app by done. destruct (decimal n) as [|c ds] eqn:E; [done|].
  by rewrite Hv.
Qed.

Lemma digit_not_sign c :
  is_digit c = true → Ascii.eqb c "-" = false ∧ Ascii.eqb c "+" = false ∧ is_space c = false.
Proof.
  intros H. split_and!.
  - apply Ascii.eqb_neq. by intros ->.
  - apply Ascii.eqb_neq. by intros ->.
  - unfold is_digit in H. unfold is_space. apply andb_prop in H as [H1%N.leb_le H2%N.leb_le].
    apply orb_false_intro; [apply N.eqb_neq; lia|]. apply andb_false_intro2, N.leb_gt. lia.
Qed.

(** Reading what was printed. *)
Lemma strto_to_string n r :
  stops r → strto (to_string n ++ r) = Some (n <? 0, Z.abs n).
Proof.
  intros Hr. unfold to_string. destruct (Z.ltb_spec n 0) as [Hn|Hn].
  - unfold strto. cbn [app skip_spaces]. change (is_space "-") with false. cbn iota.
    change (Ascii.eqb "-" "-") with true. cbn iota.
    rewrite read_nat_decimal by (done || lia). cbn. do 2 f_equal. lia.
  - pose proof (read_nat_decimal n r Hn Hr) as Hread.
    destruct (decimal_ok n Hn) as (_&Hd&Hne).
    destruct (decimal n) as [|c ds] eqn:E; [done|]. apply Forall_cons in Hd as [Hc _].
    destruct (digit_not_sign c Hc) as (E1&E2&E3).
    unfold strto. cbn [app skip_spaces] in *. rewrite E3. cbn iota. rewrite E1, E2, Hread.
    cbn. do 2 f_equal. lia.
Qed.

(** Different integers print differently. *)
Lemma to_string_inj n m : to_string n = to_string m → n = m.
Proof.
  intros E. pose proof (strto_to_string n [] I) as Hn. pose proof (strto_to_string m [] I) as Hm.
  rewrite E, Hm in Hn. injection Hn as Hs Ha.
  destruct (Z.ltb_spec n 0), (Z.ltb_spec m 0); lia || done.
Qed.

Lemma stoi_to_string n : - 2 ^ 31 <= n < 2 ^ 31 → stoi (to_string n) = inr n.
Proof.
  intros Hn. pose proof (strto_to_string n [] I) as H. rewrite app_nil_r in H.
  unfold stoi. rewrite H.
  assert ((if n <? 0 then - Z.abs n else Z.abs n) = n) as ->
    by (destruct (Z.ltb_spec n 0); lia).
  rewrite (proj2 (Z.leb_le _ _)), (proj2 (Z.ltb_lt _ _)) by lia. done.
Qed.

Lemma stoull_to_string n : is_u64 n → stoull (to_string n) = inr n.
Proof.
  unfold is_u64. intros Hn. pose proof (strto_to_string n [] I) as H. rewrite app_nil_r in H.
  unfold stoull. rewrite H, (proj2 (Z.ltb_lt (Z.abs n) _)) by lia.
  rewrite (proj2 (Z.ltb_ge _ _)) by lia. f_equal. lia.
Qed.

Lemma pad_left_length w s : length (pad_left w s) = (w `max` length s)%nat.
Proof. unfold pad_left. rewrite length_app, length_replicate. lia. Qed.

Lemma pad_right_length w s : length (pad_right w s) = (w `max` length s)%nat.
Proof. unfold pad_right. rewrite length_app, length_replicate. lia. Qed.

(** Nothing is cut off when the text is shorter than the array. *)
Lemma snprintf_fits size s : (length s < size)%nat → snprintf size s = s.
Proof. intros H. apply take_ge. lia. Qed.

End Text.
