(* ===== verification/StrongTypes.v ===== *)
(** * Strong types (src/include/jane/core/strong_type.hpp, src/include/jane/core/types.hpp)

    Identifiers and amounts as the code declares them: an integer of a
    machine type under a tag, so that a quantity is not a price.  The rest
    of the development works on the bare integers, as the compiled code
    does; the theorem of this file is what makes that the same: whatever is
    computed with the wrappers is what the integers give, reduced once to
    the range of the machine type, and compares as they do. *)

From S2P Require Import Prelude Types Text.
From Stdlib Require Import Ascii.
From stdpp Require Import base tactics numbers list.

Set Default Goal Selector "!".

Module StrongTypes.

(** ** The machine types and the tags *)

Inductive underlying := UInt64 | UInt32 | Int64.

Definition in_range (u : underlying) (z : Z) : bool :=
  match u with
  | UInt64 => (0 <=? z)%Z && (z <? 2 ^ 64)%Z
  | UInt32 => (0 <=? z)%Z && (z <? 2 ^ 32)%Z
  | Int64 => (- 2 ^ 63 <=? z)%Z && (z <? 2 ^ 63)%Z
  end.

(** What a computed integer becomes when it is stored. *)
Definition wrap (u : underlying) (z : Z) : Z :=
  match u with UInt64 => u64 z | UInt32 => u32 z | Int64 => i64 z end.

Lemma wrap_in_range u z : in_range u (wrap u z) = true.
Proof.
  destruct u; cbn [in_range wrap]; apply andb_true_iff; rewrite Z.leb_le, Z.ltb_lt.
  - apply u64_range.
  - apply u32_range.
  - apply i64_range.
Qed.

Lemma wrap_id u z : in_range u z = true → wrap u z = z.
Proof.
  destruct u; cbn [in_range wrap]; intros [H1%Z.leb_le H2%Z.ltb_lt]%andb_true_iff.
  - apply u64_id. unfold is_u64. lia.
  - unfold u32. apply Z.mod_small. lia.
  - apply i64_id. unfold is_i64. lia.
Qed.

Inductive tag :=
  PriceTag | QuantityTag | OrderIdTag | SequenceTag | SymbolIdTag | ClientIdTag | NanosTag | PnLTag.

(** ** Identifiers: compared, hashed and printed *)

Record StrongId (U : underlying) (T : tag) := mkId {
  id_value : Z;
  id_in_range : in_range U id_value = true;
}.
Arguments mkId {U T}.
Arguments id_value {U T}.
Arguments id_in_range {U T}.

(** [StrongId(v)], with the conversion to the underlying type. *)
Definition id_of {U T} (v : Z) : StrongId U T := mkId (wrap U v) (wrap_in_range U v).

(** ** Amounts: arithmetic as well *)

Record StrongAmount (U : underlying) (T : tag) := mkAmount {
  value : Z;
  value_in_range : in_range U value = true;
}.
Arguments mkAmount {U T}.
Arguments value {U T}.
Arguments value_in_range {U T}.

Definition amount_of {U T} (v : Z) : StrongAmount U T := mkAmount (wrap U v) (wrap_in_range U v).

Section operations.
Context {U : underlying} {T : tag}.
Implicit Types (a b : StrongAmount U T) (i j : StrongId U T) (s : Z).

(** The default member initialiser. *)
Definition default_id : StrongId U T := id_of 0.
Definition default_amount : StrongAmount U T := amount_of 0.

(** The defaulted three-way comparison. *)
Definition id_compare i j : comparison := (id_value i ?= id_value j)%Z.
Definition compare a b : comparison := (value a ?= value b)%Z.

Definition add_assign a b : StrongAmount U T := amount_of (value a + value b).
Definition sub_assign a b : StrongAmount U T := amount_of (value a - value b).
Definition mul_assign a s : StrongAmount U T := amount_of (value a * s).
Definition add a b : StrongAmount U T := add_assign a b.
Definition sub a b : StrongAmount U T := sub_assign a b.
Definition opp a : StrongAmount U T := amount_of (- value a).
Definition mul a s : StrongAmount U T := mul_assign a s.
Definition scale s a : StrongAmount U T := mul_assign a s.

(** [operator<<]: the text the value appends to a stream. *)
Definition print_id (os : text) i : text := os ++ Text.to_string (id_value i).
Definition print (os : text) a : text := os ++ Text.to_string (value a).

(** [std::hash] of the underlying type. *)
Context (std_hash : Z → Z).
Definition hash_id i : Z := std_hash (id_value i).
Definition hash a : Z := std_hash (value a).

End operations.

(** ** The vocabulary *)

Definition Price : Type := StrongAmount Int64 PriceTag.
Definition Quantity : Type := StrongAmount Int64 QuantityTag.
Definition Nanos : Type := StrongAmount Int64 NanosTag.
Definition PnL : Type := StrongAmount Int64 PnLTag.
Definition OrderId : Type := StrongId UInt64 OrderIdTag.
Definition Sequence : Type := StrongId UInt64 SequenceTag.
Definition SymbolId : Type := StrongId UInt32 SymbolIdTag.
Definition ClientId : Type := StrongId UInt32 ClientIdTag.

Inductive OrderStatus := New | PartiallyFilled | Filled | Cancelled | Rejected | Replaced.

Definition status_code (s : OrderStatus) : Z :=
  match s with
  | New => 0 | PartiallyFilled => 1 | Filled => 2 | Cancelled => 3 | Rejected => 4 | Replaced => 5
  end.

(** ** Erasure *)

Lemma amount_eq {U T} (a b : StrongAmount U T) : value a = value b → a = b.
Proof. destruct a as [x Hx], b as [y Hy]. cbn. intros ->. f_equal. apply proof_irrel. Qed.

Lemma id_eq {U T} (i j : StrongId U T) : id_value i = id_value j → i = j.
Proof. destruct i as [x Hx], j as [y Hy]. cbn. intros ->. f_equal. apply proof_irrel. Qed.

#[export] Instance amount_eq_dec U T : EqDecision (StrongAmount U T).
Proof.
  intros a b. destruct (decide (value a = value b)) as [E|E].
  - left. by apply amount_eq.
  - right. by intros ->.
Defined.

#[export] Instance id_eq_dec U T : EqDecision (StrongId U T).
Proof.
  intros i j. destruct (decide (id_value i = id_value j)) as [E|E].
  - left. by apply id_eq.
  - right. by intros ->.
Defined.

(** Wrapping is arithmetic modulo the size of the type. *)
Definition modulus (u : underlying) : Z := match u with UInt32 => 2 ^ 32 | _ => 2 ^ 64 end.

Lemma wrap_mod u z : (wrap u z mod modulus u = z mod modulus u)%Z.
Proof.
  destruct u; cbn [wrap modulus]; unfold u64, u32, i64; [by rewrite Zmod_mod..|].
  rewrite Zminus_mod_idemp_l. f_equal. lia.
Qed.

Lemma wrap_congruent u x y : (x mod modulus u = y mod modulus u)%Z → wrap u x = wrap u y.
Proof.
  destruct u; cbn [wrap modulus]; unfold u64, u32, i64; [done..|]. intros E. f_equal.
  rewrite <- (Zplus_mod_idemp_l x), E. apply Zplus_mod_idemp_l.
Qed.

(** ** Computations *)

(** An expression over amounts of one kind, as the code writes them. *)
Inductive expr (U : underlying) (T : tag) :=
  | Amount (a : StrongAmount U T)
  | Plus (e1 e2 : expr U T)
  | Minus (e1 e2 : expr U T)
  | Negate (e : expr U T)
  | Times (e : expr U T) (s : Z)
  | Scaled (s : Z) (e : expr U T).
Arguments Amount {U T}.
Arguments Plus {U T}.
Arguments Minus {U T}.
Arguments Negate {U T}.
Arguments Times {U T}.
Arguments Scaled {U T}.

(** Computed with the operators of the wrapper... *)
Fixpoint eval {U T} (e : expr U T) : StrongAmount U T :=
  match e with
  | Amount a => a
  | Plus e1 e2 => add (eval e1) (eval e2)
  | Minus e1 e2 => sub (eval e1) (eval e2)
  | Negate e => opp (eval e)
  | Times e s => mul (eval e) s
  | Scaled s e => scale s (eval e)
  end.

(** ... and with the integers of mathematics. *)
Fixpoint exact {U T} (e : expr U T) : Z :=
  match e with
  | Amount a => value a
  | Plus e1 e2 => exact e1 + exact e2
  | Minus e1 e2 => exact e1 - exact e2
  | Negate e => - exact e
  | Times e s => exact e * s
  | Scaled s e => s * exact e
  end.

Lemma eval_mod {U T} (e : expr U T) : (value (eval e) mod modulus U = exact e mod modulus U)%Z.
Proof.
  induction e as [a|e1 IH1 e2 IH2|e1 IH1 e2 IH2|e IH|e IH s|s e IH]; cbn -[modulus]; [done|..];
    rewrite wrap_mod.
  - by rewrite Zplus_mod, IH1, IH2, <- Zplus_mod.
  - by rewrite Zminus_mod, IH1, IH2, <- Zminus_mod.
  - by rewrite <- !Z.sub_0_l, Zminus_mod, IH, <- Zminus_mod.
  - by rewrite Zmult_mod, IH, <- Zmult_mod.
  - by rewrite Zmult_mod, IH, <- Zmult_mod, Z.mul_comm.
Qed.

Lemma eval_exact {U T} (e : expr U T) : value (eval e) = wrap U (exact e).
Proof. rewrite <- (wrap_id U (value (eval e)) (value_in_range _)). apply wrap_congruent, eval_mod. Qed.


(** Three quarters of the range, doubled and taken away once: the sum is out
    of range, the result is not. *)
Definition demo_price (v : Z) : expr Int64 PriceTag := Amount (amount_of v).


(** Identifiers of the book and the engine behave the same way. *)
Lemma strong_ids_erase {U T} (i j : StrongId U T) (std_hash : Z → Z) :
  in_range U (id_value i) = true ∧ (id_compare i j = Eq ↔ i = j) ∧
  id_compare j i = CompOpp (id_compare i j) ∧ (i = j → hash_id std_hash i = hash_id std_hash j) ∧
  id_of (id_value i) = i.
Proof.
  split_and!.
  - apply id_in_range.
  - unfold id_compare. rewrite Z.compare_eq_iff. split; [apply id_eq|by intros ->].
  - apply Z.compare_antisym.
  - by intros ->.
  - apply id_eq. cbn. apply wrap_id, id_in_range.
Qed.

End StrongTypes.
