(* ===== verification/Platform.v ===== *)
(** * The platform: real time, version, cache lines

    [SystemClock] of src/include/jane/core/clock.hpp over the platform's
    steady clock; the library version; and the layout of the rings'
    members on cache lines, which src/include/jane/concurrency/cache_line.hpp
    is about.  The steady clock is a parameter: its readings, in ticks of a
    period the C++ standard leaves open. *)

From S2P Require Import Prelude Types Text.
From Stdlib Require Import Ascii String.
From stdpp Require Import base tactics numbers list.

Set Default Goal Selector "!".

(** A source of readings in nanoseconds. *)
Class ClockLike (C : Type) := { clock_now : C → Z * C }.

(** The tick of [std::chrono::steady_clock]: [period_num / period_den]
    seconds. *)
Class TickPeriod := {
  period_num : Z;
  period_den : Z;
}.

(** [std::chrono::steady_clock]: the [k]-th reading in ticks. *)
Class SteadyClock := {
  #[global] steady_period :: TickPeriod;
  steady_now : nat → Z;
}.

Class SteadyClockLaws `{!SteadyClock} : Prop := {
  period_positive : (0 < period_num ∧ 0 < period_den)%Z;
  steady_monotone k : (steady_now k ≤ steady_now (S k))%Z;
}.

Module Platform.

(** [duration_cast<nanoseconds>]: the integer conversion, towards zero. *)
Definition duration_cast `{!TickPeriod} (ticks : Z) : Z :=
  i64 (Z.quot (ticks * (period_num * 1000000000)) period_den).

(** The time between two readings, as the benchmarks take it. *)
Definition elapsed_ns `{!TickPeriod} (start end_ : Z) : Z := duration_cast (i64 (end_ - start)).

Section clock.
Context `{!SteadyClock}.

(** The state is the number of readings taken so far. *)
Definition system_now (k : nat) : Z * nat := (duration_cast (steady_now k), S k).

#[export] Instance system_clock : ClockLike nat := {| clock_now := system_now |}.

Context `{!SteadyClockLaws}.

(** The exact number of nanoseconds fits. *)
Definition fits (ticks : Z) : Prop :=
  is_i64 (Z.quot (ticks * (period_num * 1000000000)) period_den).

Lemma duration_cast_mono a b : fits a → fits b → (a ≤ b)%Z → (duration_cast a ≤ duration_cast b)%Z.
Proof.
  intros Ha Hb Hab. unfold duration_cast. rewrite !i64_id by done.
  destruct period_positive as [Hn Hd]. apply Z.quot_le_mono; [lia|]. nia.
Qed.

Lemma steady_later j k : j ≤ k → (steady_now j ≤ steady_now k)%Z.
Proof.
  induction 1 as [|k _ IH]; [lia|]. pose proof (steady_monotone k). lia.
Qed.

(** The system clock never goes back, whatever the tick of the platform. *)
Lemma system_clock_monotone j k :
  fits (steady_now j) → fits (steady_now k) → j ≤ k →
  ((clock_now j).1 ≤ (clock_now k).1)%Z.
Proof. intros Hj Hk Hjk. cbn. by apply duration_cast_mono, steady_later. Qed.

(** Two readings are never a negative time apart. *)
Lemma elapsed_nonneg j k :
  j ≤ k → is_i64 (steady_now k - steady_now j) → fits (steady_now k - steady_now j) →
  (0 ≤ elapsed_ns (steady_now j) (steady_now k))%Z.
Proof.
  intros Hjk H1 H2. unfold elapsed_ns. rewrite i64_id by done. unfold duration_cast.
  rewrite i64_id by done. pose proof (steady_later j k Hjk). destruct period_positive as [Hn Hd].
  apply Z.quot_pos; nia.
Qed.

End clock.

(** ** Version *)

Record Version := mkVersion { major : Z; minor : Z; patch : Z }.

Definition version : Version := mkVersion 0 1 0.
Definition version_string : text := lit "0.1.0".

(** The string is the number. *)
Lemma version_string_agrees :
  version_string =
  Text.to_string (major version) ++ lit "." ++ Text.to_string (minor version) ++ lit "." ++
  Text.to_string (patch version).
Proof. reflexivity. Qed.

(** ** Cache lines *)

Definition kCacheLineSize : Z := 64.

(** A data member: how many bytes it takes and how it is aligned. *)
Record member := mkMember { m_size : Z; m_align : Z }.

Definition round_up (z a : Z) : Z := ((z + a - 1) / a * a)%Z.

(** The offsets of members laid out in order behind the first [at_] bytes. *)
Fixpoint offsets (at_ : Z) (ms : list member) : list Z :=
  match ms with
  | [] => []
  | m :: ms => let o := round_up at_ (m_align m) in o :: offsets (o + m_size m) ms
  end.

(** The size of a struct: up to its alignment. *)
Definition struct_size (ms : list member) (align : Z) : Z :=
  round_up (foldl (λ end_ m, (round_up end_ (m_align m) + m_size m)%Z) 0%Z ms) align.

(** Two 64-bit indices on a cache line of their own. *)
Definition index_state : member :=
  mkMember (struct_size [mkMember 8 8; mkMember 8 8] kCacheLineSize) kCacheLineSize.

Definition spsc_members (sizeof_T : Z) (Capacity : nat) : list member :=
  [mkMember (sizeof_T * Z.of_nat Capacity) kCacheLineSize; index_state; index_state].

Definition mpsc_members (sizeof_Cell alignof_Cell : Z) (Capacity : nat) : list member :=
  [mkMember (sizeof_Cell * Z.of_nat Capacity) alignof_Cell;
   mkMember 8 kCacheLineSize; mkMember 8 kCacheLineSize].

(** [addr] is a byte of the member at offset [o] of the object at [base]. *)
Definition byte_of (base o : Z) (m : member) (addr : Z) : Prop :=
  (base + o ≤ addr < base + o + m_size m)%Z.

Definition line (addr : Z) : Z := (addr / kCacheLineSize)%Z.

Lemma round_up_spec z a : (0 < a)%Z → (z ≤ round_up z a)%Z ∧ (a | round_up z a)%Z.
Proof.
  intros Ha. unfold round_up. split; [|by exists ((z + a - 1) / a)%Z].
  pose proof (Z.mod_pos_bound (z + a - 1) a Ha). pose proof (Z.div_mod (z + a - 1) a). nia.
Qed.

(** The member starts a cache line of its own. *)
Definition starts_line (m : member) : Prop := (0 ≤ m_size m)%Z ∧ m_align m = kCacheLineSize.

Lemma offsets_later at_ ms j o :
  Forall starts_line ms → offsets at_ ms !! j = Some o → (at_ ≤ o)%Z ∧ (kCacheLineSize | o)%Z.
Proof.
  intros Hms. revert at_ j. induction Hms as [|m ms [Hs Ha] Hms IH]; intros at_ j Ho; [done|].
  cbn [offsets] in Ho. destruct (round_up_spec at_ (m_align m)) as [H1 H2]; [by rewrite Ha|].
  destruct j as [|j]; cbn in Ho.
  - injection Ho as <-. by rewrite <- Ha.
  - destruct (IH _ _ Ho). split; [lia|done].
Qed.

Lemma offsets_apart at_ first rest i j mi oi oj :
  (0 ≤ m_size first)%Z → Forall starts_line rest → i < j →
  (first :: rest) !! i = Some mi →
  offsets at_ (first :: rest) !! i = Some oi → offsets at_ (first :: rest) !! j = Some oj →
  (oi + m_size mi ≤ oj)%Z ∧ (kCacheLineSize | oj)%Z.
Proof.
  intros Hs Hr. revert at_ first i j Hs.
  induction Hr as [|m rest Hm Hr IH]; intros at_ first i j Hs Hij Hi Hoi Hoj.
  { destruct j as [|[|j]]; done || lia. }
  destruct j as [|j]; [lia|]. destruct i as [|i].
  - injection Hi as ->. injection Hoi as <-.
    assert (Forall starts_line (m :: rest)) as Hall by by constructor.
    exact (offsets_later _ (m :: rest) j oj Hall Hoj).
  - apply (IH _ m i j (proj1 Hm) ltac:(lia) Hi Hoi Hoj).
Qed.

(** Bytes of two members, the later of which starts a cache line. *)
Lemma lines_apart first rest i j mi mj oi oj base x y :
  (kCacheLineSize | base)%Z → (0 ≤ m_size first)%Z → Forall starts_line rest → i < j →
  (first :: rest) !! i = Some mi →
  offsets 0 (first :: rest) !! i = Some oi → offsets 0 (first :: rest) !! j = Some oj →
  byte_of base oi mi x → byte_of base oj mj y → (line x < line y)%Z.
Proof.
  intros Hb Hs Hr Hij Hi Hoi Hoj Hx Hy.
  destruct (offsets_apart 0 first rest i j mi oi oj Hs Hr Hij Hi Hoi Hoj) as [Hle Hd].
  destruct Hb as [b ->], Hd as [d ->]. unfold byte_of in *. unfold line, kCacheLineSize in *.
  apply Z.lt_le_trans with (b + d)%Z; [apply Z.div_lt_upper_bound|apply Z.div_le_lower_bound]; lia.
Qed.

(** No false sharing: in a ring that starts on a cache line, the slots and
    the two threads' indices of the single-producer ring, and the cells, the
    enqueue and the dequeue index of the multi-producer ring, are never on
    the same line. *)
Theorem rings_no_false_sharing sizeof_T sizeof_Cell alignof_Cell Capacity base ms i j mi mj oi oj x y :
  (0 ≤ sizeof_T)%Z → (0 ≤ sizeof_Cell)%Z → (kCacheLineSize | base)%Z →
  ms = spsc_members sizeof_T Capacity ∨ ms = mpsc_members sizeof_Cell alignof_Cell Capacity →
  i ≠ j → ms !! i = Some mi → ms !! j = Some mj →
  offsets 0 ms !! i = Some oi → offsets 0 ms !! j = Some oj →
  byte_of base oi mi x → byte_of base oj mj y → line x ≠ line y.
Proof.
  intros H1 H2 Hb Hms Hij Hi Hj Hoi Hoj Hx Hy.
  assert (∃ first rest, ms = first :: rest ∧ (0 ≤ m_size first)%Z ∧ Forall starts_line rest)
    as (first&rest&->&Hs&Hr).
  { destruct Hms as [-> | ->]; (do 2 eexists; split; [done|]); (split; [cbn; lia|]);
      repeat constructor; vm_compute; discriminate. }
  destruct (decide (i < j)) as [Hlt|Hge].
  - pose proof (lines_apart _ _ _ _ _ _ _ _ _ _ _ Hb Hs Hr Hlt Hi Hoi Hoj Hx Hy). lia.
  - assert (j < i) as Hlt by lia.
    pose proof (lines_apart _ _ _ _ _ _ _ _ _ _ _ Hb Hs Hr Hlt Hj Hoj Hoi Hy Hx). lia.
Qed.

Lemma rings_no_false_sharing_witness : line (128 + 8) ≠ line (128 + 64 + 8).
Proof.
  apply (rings_no_false_sharing 16 16 8 4 128 (spsc_members 16 4) 0 1
    (mkMember 64 64) (mkMember 64 64) 0 64);
    [lia|lia|by exists 2%Z|by left|lia|reflexivity|reflexivity|reflexivity|reflexivity|
     unfold byte_of; cbn; lia|unfold byte_of; cbn; lia].
Defined.

End Platform.
