(* ===== verification/Json.v ===== *)
(** * A JSON reader

    The reference against which the recording of the viewer is read: values
    with integers, strings without escapes, arrays, objects and [null], with
    white space between tokens.  [reads s j] says that the text [s] stands
    for [j] wherever it occurs; the lemmas build such texts from their parts. *)

From S2P Require Import Prelude Text.
From Stdlib Require Import Ascii String.
From stdpp Require Import base tactics numbers list strings.

Set Default Goal Selector "!".

Module Json.
Import Text.

#[warnings="-register-all"]
Inductive json :=
  | JNull
  | JNum (n : Z)
  | JStr (s : text)
  | JArr (js : list json)
  | JObj (ms : list (text * json)).

Definition quote : ascii := "034"%char.
Definition backslash : ascii := "092"%char.

Definition is_ws (c : ascii) : bool :=
  bool_decide (c ∈ [" "; "009"; "010"; "013"]%char).

Fixpoint skip_ws (s : text) : text :=
  match s with
  | c :: s' => if is_ws c then skip_ws s' else s
  | [] => []
  end.

(** The characters up to the closing quote, and what follows it. *)
Fixpoint read_string (s : text) : option (text * text) :=
  match s with
  | [] => None
  | c :: s =>
      if Ascii.eqb c quote then Some ([], s)
      else if Ascii.eqb c backslash then None
      else '(cs, r) ← read_string s; Some (c :: cs, r)
  end.

Definition read_int (s : text) : option (Z * text) :=
  match s with
  | c :: s' =>
      if Ascii.eqb c "-" then '(n, r) ← read_nat s'; Some ((- n)%Z, r) else read_nat s
  | [] => None
  end.

(** The key of a member and the colon behind it. *)
Definition read_key (s : text) : option (text * text) :=
  match skip_ws s with
  | c :: s =>
      if Ascii.eqb c quote then
        '(k, s) ← read_string s;
        match skip_ws s with
        | c :: s => if Ascii.eqb c ":" then Some (k, s) else None
        | [] => None
        end
      else None
  | [] => None
  end.

Definition starts (c : ascii) (s : text) : bool :=
  match s with d :: _ => Ascii.eqb d c | [] => false end.

Fixpoint value (n : nat) (s : text) : option (json * text) :=
  match n with
  | O => None
  | S n =>
      match skip_ws s with
      | [] => None
      | c :: s' =>
          if Ascii.eqb c "{" then
            if starts "}" (skip_ws s') then Some (JObj [], tail (skip_ws s'))
            else '(ms, r) ← members n s'; Some (JObj ms, r)
          else if Ascii.eqb c "[" then
            if starts "]" (skip_ws s') then Some (JArr [], tail (skip_ws s'))
            else '(js, r) ← elements n s'; Some (JArr js, r)
          else if Ascii.eqb c quote then '(cs, r) ← read_string s'; Some (JStr cs, r)
          else if Ascii.eqb c "n" then
            if bool_decide (take 3 s' = lit "ull") then Some (JNull, drop 3 s') else None
          else '(z, r) ← read_int (c :: s'); Some (JNum z, r)
      end
  end
with elements (n : nat) (s : text) : option (list json * text) :=
  match n with
  | O => None
  | S n =>
      '(j, s) ← value n s;
      match skip_ws s with
      | c :: s =>
          if Ascii.eqb c "," then '(js, r) ← elements n s; Some (j :: js, r)
          else if Ascii.eqb c "]" then Some ([j], s) else None
      | [] => None
      end
  end
with members (n : nat) (s : text) : option (list (text * json) * text) :=
  match n with
  | O => None
  | S n =>
      '(k, s) ← read_key s;
      '(j, s) ← value n s;
      match skip_ws s with
      | c :: s =>
          if Ascii.eqb c "," then '(ms, r) ← members n s; Some ((k, j) :: ms, r)
          else if Ascii.eqb c "}" then Some ([(k, j)], s) else None
      | [] => None
      end
  end.

(** A document is one value with white space around it.  Every two calls
    consume a character, so twice the length is fuel enough. *)
Definition parse (s : text) : option json :=
  '(j, r) ← value (2 * length s) s; if bool_decide (skip_ws r = []) then Some j else None.

(** ** Texts and the values they stand for *)

Definition reads (s : text) (j : json) : Prop :=
  ∀ n r, 2 * length s ≤ n → stops r → value n (s ++ r) = Some (j, r).

Definition reads_elements (s : text) (js : list json) : Prop :=
  ∀ n r, 2 * length s < n → elements n (s ++ "]"%char :: r) = Some (js, r).

Definition reads_members (s : text) (ms : list (text * json)) : Prop :=
  ∀ n r, 2 * length s < n → members n (s ++ "}"%char :: r) = Some (ms, r).

(** White space in front of a token does not matter. *)
Lemma skip_ws_app ws s : Forall (λ c, is_ws c = true) ws → skip_ws (ws ++ s) = skip_ws s.
Proof. induction 1 as [|c ws Hc _ IH]; [done|]. cbn [app skip_ws]. by rewrite Hc. Qed.

Lemma value_space n ws s : Forall (λ c, is_ws c = true) ws → value n (ws ++ s) = value n s.
Proof. intros Hws. destruct n; [done|]. cbn [value]. by rewrite skip_ws_app. Qed.

Lemma reads_space ws s j : Forall (λ c, is_ws c = true) ws → reads s j → reads (ws ++ s) j.
Proof.
  intros Hws H n r Hn Hr. rewrite length_app in Hn. rewrite <- app_assoc, value_space by done.
  apply H; [lia|done].
Qed.

Lemma elements_space ws s js :
  Forall (λ c, is_ws c = true) ws → reads_elements s js → reads_elements (ws ++ s) js.
Proof.
  intros Hws H n r Hn. rewrite length_app in Hn. rewrite <- app_assoc.
  rewrite <- (H n r) by lia. destruct n; [done|]. cbn [elements]. by rewrite value_space.
Qed.

Lemma digit_plain c :
  is_digit c = true →
  is_ws c = false ∧ Ascii.eqb c "{" = false ∧ Ascii.eqb c "[" = false ∧
  Ascii.eqb c quote = false ∧ Ascii.eqb c "n" = false ∧ Ascii.eqb c "-" = false.
Proof.
  intros Hc. split_and!; try (apply Ascii.eqb_neq; by intros ->).
  apply bool_decide_eq_false_2. intros H.
  repeat (apply elem_of_cons in H as [->|H]; [done|]). by apply not_elem_of_nil in H.
Qed.

Lemma reads_int z : reads (to_string z) (JNum z).
Proof.
  intros n r Hn Hr. unfold to_string in *. destruct (Z.ltb_spec z 0) as [Hz|Hz].
  - destruct n as [|n]; [cbn [length] in Hn; lia|]. cbn [app value].
    change (skip_ws ("-"%char :: decimal (- z) ++ r)) with ("-"%char :: decimal (- z) ++ r).
    cbn [Ascii.eqb]. cbn -[read_nat decimal].
    rewrite read_nat_decimal by (done || lia). cbn. by rewrite Z.opp_involutive.
  - pose proof (read_nat_decimal z r Hz Hr) as Hread. destruct (decimal_ok z Hz) as (_&Hd&Hne).
    destruct (decimal z) as [|c ds]; [done|]. apply Forall_cons in Hd as [Hc _].
    destruct (digit_plain c Hc) as (E1&E2&E3&E4&E5&E6).
    destruct n as [|n]; [cbn [length] in Hn; lia|].
    cbn [app value skip_ws read_int] in *. rewrite E1, E2, E3, E4, E5, E6, Hread. done.
Qed.

Lemma reads_null : reads (lit "null") JNull.
Proof. intros [|n] r Hn _; [cbn in Hn; lia|]. done. Qed.

(** Keys without quotes and backslashes. *)
Definition plain (k : text) : Prop := Forall (λ c, c ≠ quote ∧ c ≠ backslash) k.

Lemma read_string_plain k r : plain k → read_string (k ++ quote :: r) = Some (k, r).
Proof.
  induction 1 as [|c k [Hq Hb] _ IH]; cbn [app read_string]; [done|].
  rewrite (proj2 (Ascii.eqb_neq c quote)), (proj2 (Ascii.eqb_neq c backslash)) by done.
  by rewrite IH.
Qed.

Definition keyed (k v : text) : text := quote :: k ++ quote :: ":"%char :: v.

Lemma read_key_plain k v : plain k → read_key (keyed k v) = Some (k, v).
Proof.
  intros Hk. unfold read_key, keyed.
  change (skip_ws (quote :: ?s)) with (quote :: s). cbn [Ascii.eqb].
  change (Ascii.eqb quote quote) with true. cbn iota.
  rewrite read_string_plain by done. done.
Qed.

Lemma members_one k v j : plain k → reads v j → reads_members (keyed k v) [(k, j)].
Proof.
  intros Hk Hv n r Hn. destruct n as [|n]; [lia|]. cbn [members].
  replace (keyed k v ++ "}"%char :: r) with (keyed k (v ++ "}"%char :: r))
    by (unfold keyed; cbn [app]; rewrite <- app_assoc; done).
  rewrite read_key_plain by done. cbn [mbind option_bind].
  unfold keyed in Hn. rewrite !length_cons, length_app, !length_cons in Hn.
  rewrite Hv by (done || lia). done.
Qed.

Lemma members_cons k v j s ms :
  plain k → reads v j → reads_members s ms →
  reads_members (keyed k (v ++ ","%char :: s)) ((k, j) :: ms).
Proof.
  intros Hk Hv Hs n r Hn. destruct n as [|n]; [lia|]. cbn [members].
  replace (keyed k (v ++ ","%char :: s) ++ "}"%char :: r)
    with (keyed k (v ++ ","%char :: s ++ "}"%char :: r))
    by (unfold keyed; cbn [app]; rewrite <- app_assoc; cbn [app]; rewrite <- app_assoc; done).
  rewrite read_key_plain by done. cbn [mbind option_bind].
  unfold keyed in Hn. rewrite !length_cons, !length_app, !length_cons, !length_app, length_cons in Hn.
  rewrite Hv by (done || lia). cbn [mbind option_bind].
  change (skip_ws (","%char :: ?t)) with (","%char :: t). cbn iota.
  change (Ascii.eqb "," ",") with true. cbn iota. rewrite Hs by lia. done.
Qed.

Lemma reads_object s ms :
  starts quote s = true → reads_members s ms → reads ("{"%char :: s ++ lit "}") (JObj ms).
Proof.
  intros Hq Hs n r Hn Hr. destruct s as [|c s]; [done|]. apply Ascii.eqb_eq in Hq as ->.
  rewrite length_cons, length_app in Hn. destruct n as [|n]; [lia|]. cbn [length] in Hn.
  cbn [app value]. change (skip_ws ("{"%char :: ?t)) with ("{"%char :: t). cbn iota.
  change (Ascii.eqb "{" "{") with true. cbn iota.
  change (skip_ws (quote :: ?t)) with (quote :: t). cbn [starts].
  change (Ascii.eqb quote "}") with false. cbn iota.
  pose proof (Hs n r) as H. cbn [app] in H. rewrite <- app_assoc. cbn [app list_ascii_of_string].
  rewrite H by (cbn [length] in *; lia). done.
Qed.

(** Elements with white space around them. *)
Lemma elements_one v j ws :
  Forall (λ c, is_ws c = true) ws → reads v j → reads_elements (v ++ ws) [j].
Proof.
  intros Hws Hv n r Hn. rewrite length_app in Hn. destruct n as [|n]; [lia|].
  cbn [elements]. rewrite <- app_assoc.
  rewrite Hv; [|lia|].
  - cbn [mbind option_bind]. rewrite skip_ws_app by done.
    change (skip_ws ("]"%char :: ?t)) with ("]"%char :: t). done.
  - destruct Hws as [|c ws Hc _]; [done|]. cbn [app stops].
    destruct (is_digit c) eqn:E; [|done]. by destruct (digit_plain c E) as [E' _]; rewrite E' in Hc.
Qed.

Lemma elements_cons v j s js :
  reads v j → reads_elements s js → reads_elements (v ++ ","%char :: s) (j :: js).
Proof.
  intros Hv Hs n r Hn. rewrite length_app, length_cons in Hn. destruct n as [|n]; [lia|].
  cbn [elements]. rewrite <- app_assoc. cbn [app]. rewrite Hv by (done || lia).
  cbn [mbind option_bind]. change (skip_ws (","%char :: ?t)) with (","%char :: t). cbn iota.
  change (Ascii.eqb "," ",") with true. cbn iota. rewrite Hs by lia. done.
Qed.

Lemma reads_empty_array ws :
  Forall (λ c, is_ws c = true) ws → reads ("["%char :: ws ++ lit "]") (JArr []).
Proof.
  intros Hws n r Hn _. destruct n as [|n]; [cbn [length] in Hn; lia|]. cbn [app value].
  change (skip_ws ("["%char :: ?t)) with ("["%char :: t). cbn iota.
  change (Ascii.eqb "[" "{") with false. change (Ascii.eqb "[" "[") with true. cbn iota.
  rewrite <- app_assoc, skip_ws_app by done. done.
Qed.

Lemma reads_array s js :
  starts "]" (skip_ws s) = false → skip_ws s ≠ [] → reads_elements s js →
  reads ("["%char :: s ++ lit "]") (JArr js).
Proof.
  intros Hst Hne Hs n r Hn _. rewrite length_cons, length_app in Hn. destruct n as [|n]; [lia|].
  cbn [length] in Hn. cbn [app value].
  change (skip_ws ("["%char :: ?t)) with ("["%char :: t). cbn iota.
  change (Ascii.eqb "[" "{") with false. change (Ascii.eqb "[" "[") with true. cbn iota.
  assert (starts "]" (skip_ws ((s ++ lit "]") ++ r)) = false) as ->.
  { clear Hs Hn. induction s as [|c s IH]; [done|]. cbn [app skip_ws] in *.
    destruct (is_ws c); [by apply IH|done]. }
  rewrite <- app_assoc. cbn [app list_ascii_of_string]. rewrite Hs by (cbn [length] in *; lia). done.
Qed.

(** A text followed by white space is a document. *)
Lemma parse_reads s j ws :
  Forall (λ c, is_ws c = true) ws → reads s j → parse (s ++ ws) = Some j.
Proof.
  intros Hws Hs. unfold parse. rewrite length_app, Hs; [|lia|].
  - cbn [mbind option_bind]. rewrite <- (app_nil_r ws), skip_ws_app by done. done.
  - destruct Hws as [|c ws Hc _]; [done|]. cbn [stops].
    destruct (is_digit c) eqn:E; [|done]. by destruct (digit_plain c E) as [E' _]; rewrite E' in Hc.
Qed.

End Json.
