(* ===== verification/Clock.v ===== *)
(** * Deterministic timestamps (src/include/jane/replay/replay_engine.hpp)

    The counter that stands in for a clock in replays.  [tick] hands out the
    current reading and moves on by the step; the lemma gives the readings
    of a run in closed form. *)

From S2P Require Import Prelude Types.
From stdpp Require Import base tactics numbers list.

Set Default Goal Selector "!".

Module DeterministicClock.
Record t := mk { current : Z; step : Z }.
Definition create (start step : Z) : t := mk start step.
Definition now (c : t) : Z := current c.
Definition tick (c : t) : Z * t :=
  (current c, mk (StrongAmount.add (current c) (step c)) (step c)).
Definition advance (c : t) (delta : Z) : t :=
  mk (StrongAmount.add (current c) delta) (step c).

(** The readings of [n] ticks and the clock afterwards. *)
Fixpoint ticks (n : nat) (c : t) : list Z * t :=
  match n with
  | O => ([], c)
  | S n => let '(z, c) := tick c in let '(zs, c) := ticks n c in (z :: zs, c)
  end.

(** The k-th reading is the start plus k steps, in [int64_t]. *)
Lemma ticks_reading n c k z :
  is_i64 (current c) → (ticks n c).1 !! k = Some z →
  z = i64 (current c + Z.of_nat k * step c).
Proof.
  revert c k. induction n as [|n IH]; intros c k Hc; cbn [ticks]; [done|].
  unfold tick. destruct (ticks n _) as [zs c'] eqn:E. destruct k as [|k]; cbn.
  - intros [= <-]. by rewrite Z.add_0_r, i64_id.
  - intros Hk. rewrite (IH (mk (StrongAmount.add (current c) (step c)) (step c)) k); cycle 1.
    + apply i64_range.
    + by rewrite E.
    + cbn [current step]. unfold StrongAmount.add. rewrite i64_add_l. f_equal. lia.
Qed.

End DeterministicClock.
