(* ===== verification/Replay.v ===== *)
(** * The replay engine (src/include/jane/replay/replay_engine.hpp)

    The driver loop: sequence a request, run the risk gate, match, record
    the fills with the risk engine, publish trades, level updates and one
    execution report.  The state holds the components the C++ class refers
    to.

    The enum members of a request are bytes that nothing checks.  The side
    of an order is passed on as it came, to the book, the risk engine and
    the feed. *)

From S2P Require Import Prelude Types Bitmap SlabPool Level HashMap Ladder OrderBook.
From S2P Require Import BookSpec Matching MatchSpec Exchange Risk Wire Protocol Codec.
From S2P Require Import Sinks Publisher.
From stdpp Require Import base tactics numbers list sets gmap.

Set Default Goal Selector "!".

Module Replay.
Import Level OrderBook Matching Protocol.

(** The order a message asks for. *)
Definition order_of_wire (wire : NewOrderMessage) (sequence timestamp : Z) : Order :=
  mkOrder (no_order_id wire) (no_client_id wire) (no_symbol_id wire) (no_side wire)
    (order_type_of_byte (no_order_type wire)) (tif_of_byte (no_time_in_force wire))
    (no_price wire) (no_quantity wire) (no_quantity wire) sequence timestamp.

(** Quantity filled, last price and last match id, as the report adds them up. *)
Definition report_totals (fills : list Fill) : Z * Z * Z :=
  foldl (λ '(total, _, _) f,
    (StrongAmount.add total (fill_quantity f), fill_price f, match_id f)) (0, 0, 0)%Z fills.

Definition report_message (id client symbol : Z) (fills : list Fill) (leaves : Z)
    (exec_type : ExecType) (reason : RejectReason) : ExecutionReportMessage :=
  let '(total_filled, last_price, last_match_id) := report_totals fills in
  mkExecutionReport id last_match_id last_price total_filled leaves client symbol
    (exec_code exec_type) (reject_code reason) 0.

Definition new_exec_type (result : NewOrderResult) (fills : list Fill) : ExecType :=
  if negb (bool_decide (reject_reason result = RejNone)) then ExRejected
  else if (remaining_after result =? 0)%Z then ExFill
  else if negb (bool_decide (fills = [])) then ExPartialFill
  else if rested result then ExNew
  else ExCancelled.

Definition replace_exec_type (result : ReplaceResult) (fills : list Fill) : ExecType :=
  if (rep_remaining_after result =? 0)%Z then ExFill
  else if negb (bool_decide (fills = [])) then ExPartialFill
  else ExReplaced.

Section replay.
Context (NumLevels : nat).
Context {M R S : Type} `{!HashMap Z nat M} `{!HashMap Z Risk.ClientExposure R} `{!Sink S}.

Record t := mk {
  matching : Matching.t M;
  risk : Risk.t R;
  feed : Publisher.t S;
  next_sequence : Z;
  fill_scratch : list Fill;
}.

Definition create (matching : Matching.t M) (risk : Risk.t R) (feed : Publisher.t S) : t :=
  mk matching risk feed 1 [].

Definition set_feed (f : Publisher.t S) (st : t) : t :=
  mk (matching st) (risk st) f (next_sequence st) (fill_scratch st).
Definition set_risk (r : Risk.t R) (st : t) : t :=
  mk (matching st) r (feed st) (next_sequence st) (fill_scratch st).
Definition set_matching (e : Matching.t M) (fills : list Fill) (st : t) : t :=
  mk e (risk st) (feed st) (next_sequence st) fills.
Definition take_sequence (st : t) : t :=
  mk (matching st) (risk st) (feed st) (u64 (next_sequence st + 1)) (fill_scratch st).

Definition publish_level (st : t) (symbol side price : Z) : t :=
  match level_at NumLevels (book (matching st)) (read_side side) price with
  | Some level => set_feed (Publisher.publish_level_update (feed st) symbol side price level) st
  | None => st
  end.

Definition publish_report (st : t) (id client symbol : Z) (fills : list Fill) (leaves : Z)
    (exec_type : ExecType) (reason : RejectReason) : t :=
  set_feed (Publisher.publish_execution_report (feed st)
    (report_message id client symbol fills leaves exec_type reason)) st.

(** One iteration of [apply_fills]. *)
Definition apply_fill (symbol : Z) (st : t) (f : Fill) : t :=
  let st := set_feed (Publisher.publish_trade (feed st) symbol f) st in
  let resting_side := side_code (opposite (aggressor_side f)) in
  let st := set_risk (Risk.record_fill (risk st) (resting_client_id f) symbol resting_side
                        (fill_price f) (fill_quantity f)) st in
  let st := set_risk (Risk.record_fill (risk st) (aggressor_client_id f) symbol
                        (aggressor_side_byte f) (fill_price f) (fill_quantity f)) st in
  publish_level st symbol resting_side (fill_price f).

Definition apply_fills (st : t) (symbol : Z) (fills : list Fill) : t :=
  foldl (apply_fill symbol) st fills.

(** The part of [process_new_order] after the risk gate. *)
Definition match_and_publish (st : t) (order : Order) : t :=
  let '(result, e, fills) := submit NumLevels (matching st) order [] in
  let st := set_matching e fills st in
  let st := apply_fills st (ord_symbol order) fills in
  let st := if rested result
            then publish_level st (ord_symbol order) (ord_side_byte order) (ord_price order) else st in
  publish_report st (ord_id order) (ord_client order) (ord_symbol order) fills
    (remaining_after result) (new_exec_type result fills) (reject_reason result).

Definition process_new_order (st : t) (wire : NewOrderMessage) (timestamp : Z) : t :=
  let order := order_of_wire wire (next_sequence st) timestamp in
  let st := take_sequence st in
  let risk_reason := Risk.check_new_order (risk st) order in
  if negb (bool_decide (risk_reason = RejNone)) then
    publish_report st (ord_id order) (ord_client order) (ord_symbol order) []
      (ord_quantity order) ExRejected risk_reason
  else match_and_publish st order.

Definition process_cancel (st : t) (wire : CancelOrderMessage) : t :=
  match find (book (matching st)) (co_order_id wire) with
  | None =>
      publish_report st (co_order_id wire) (co_client_id wire) (co_symbol_id wire) [] 0
        ExRejected UnknownOrder
  | Some existing =>
      let order := node_order (deref (heap_of (book (matching st))) existing) in
      let '(result, e) := Matching.cancel (matching st) (co_order_id wire) in
      let st := set_matching e (fill_scratch st) st in
      if cancel_accepted result then
        let st := publish_level st (ord_symbol order) (ord_side_byte order) (ord_price order) in
        publish_report st (co_order_id wire) (ord_client order) (ord_symbol order) [] 0
          ExCancelled RejNone
      else st
  end.

Definition process_replace (st : t) (wire : ReplaceOrderMessage) (timestamp : Z) : t :=
  match find (book (matching st)) (ro_order_id wire) with
  | None =>
      publish_report st (ro_order_id wire) (ro_client_id wire) (ro_symbol_id wire) [] 0
        ExRejected UnknownOrder
  | Some existing =>
      let order := node_order (deref (heap_of (book (matching st))) existing) in
      let seq := next_sequence st in
      let st := take_sequence st in
      let '(result, e, fills) := Matching.replace NumLevels (matching st) (ro_order_id wire)
        (ro_new_price wire) (ro_new_quantity wire) seq timestamp [] in
      let st := set_matching e fills st in
      if negb (rep_accepted result) then
        publish_report st (ro_order_id wire) (ord_client order) (ord_symbol order) [] 0
          ExRejected (rep_reject_reason result)
      else
        let st := apply_fills st (ord_symbol order) fills in
        let st := publish_level st (ord_symbol order) (ord_side_byte order) (ord_price order) in
        let st := if rep_rested result
                  then publish_level st (ord_symbol order) (ord_side_byte order) (ro_new_price wire)
                  else st in
        publish_report st (ro_order_id wire) (ord_client order) (ord_symbol order) fills
          (rep_remaining_after result) (replace_exec_type result fills) RejNone
  end.

(** ** Requests and runs *)

Inductive request :=
  | ReqNew (wire : NewOrderMessage) (timestamp : Z)
  | ReqCancel (wire : CancelOrderMessage)
  | ReqReplace (wire : ReplaceOrderMessage) (timestamp : Z).

Definition process (st : t) (rq : request) : t :=
  match rq with
  | ReqNew wire ts => process_new_order st wire ts
  | ReqCancel wire => process_cancel st wire
  | ReqReplace wire ts => process_replace st wire ts
  end.

Definition run (st : t) (rqs : list request) : t := foldl process st rqs.

End replay.

Arguments t : clear implicits.

(** ** What a request does to the engine *)

Section effects.
Context (NumLevels : nat).
Context {M R S : Type} `{!HashMap Z nat M} `{!HashMap Z Risk.ClientExposure R} `{!Sink S}.
Implicit Types (st : t M R S).

Lemma publish_level_matching st symbol side price :
  matching (publish_level NumLevels st symbol side price) = matching st.
Proof. unfold publish_level. by destruct (level_at _ _ _ _). Qed.

Lemma apply_fills_matching st symbol fs : matching (apply_fills NumLevels st symbol fs) = matching st.
Proof.
  revert st. induction fs as [|f fs IH]; intros st; [done|]. unfold apply_fills in *. cbn [foldl].
  rewrite IH. unfold apply_fill. cbv zeta. by rewrite publish_level_matching.
Qed.

Lemma match_and_publish_matching st order :
  matching (match_and_publish NumLevels st order) = (submit NumLevels (matching st) order []).1.2.
Proof.
  unfold match_and_publish. destruct (submit _ _ _ _) as [[r e] fs]. cbn [fst snd].
  cbn [publish_report set_feed matching]. destruct (rested r);
    rewrite ?publish_level_matching; by rewrite apply_fills_matching.
Qed.

Lemma process_replace_matching st wire ts :
  matching (process_replace NumLevels st wire ts) =
  (Matching.replace NumLevels (matching st) (ro_order_id wire) (ro_new_price wire)
     (ro_new_quantity wire) (next_sequence st) ts []).1.2.
Proof.
  unfold process_replace. destruct (find _ _) as [p|] eqn:Hf.
  2: { unfold Matching.replace. by rewrite Hf. }
  cbn [matching take_sequence]. destruct (Matching.replace _ _ _ _ _ _ _ _) as [[res e] fs].
  cbn [fst snd]. destruct (negb _); [done|]. cbn [publish_report set_feed matching].
  destruct (rep_rested res); rewrite !publish_level_matching; by rewrite apply_fills_matching.
Qed.

(** The fills the matching engine returns for a request, in order; a request
    the risk gate refuses and a cancel have none. *)
Definition request_fills st (rq : request) : list Fill :=
  match rq with
  | ReqNew wire ts =>
      let order := order_of_wire wire (next_sequence st) ts in
      if decide (Risk.check_new_order (risk st) order = RejNone)
      then (submit NumLevels (matching st) order []).2 else []
  | ReqCancel _ => []
  | ReqReplace wire ts =>
      (Matching.replace NumLevels (matching st) (ro_order_id wire) (ro_new_price wire)
         (ro_new_quantity wire) (next_sequence st) ts []).2
  end.

(** The fills of a run: of each request in the state it meets. *)
Fixpoint run_fills st (rqs : list request) : list Fill :=
  match rqs with
  | [] => []
  | rq :: rqs => request_fills st rq ++ run_fills (process NumLevels st rq) rqs
  end.

End effects.

Definition request_id (rq : request) : Z :=
  match rq with
  | ReqNew wire _ => no_order_id wire
  | ReqCancel wire => co_order_id wire
  | ReqReplace wire _ => ro_order_id wire
  end.

(** The members are in range, and the side is an enumerator. *)
Definition request_ok (rq : request) : Prop :=
  match rq with
  | ReqNew wire _ => l_typed wire ∧ is_side (no_side wire)
  | ReqCancel wire => l_typed wire
  | ReqReplace wire _ => l_typed wire
  end.

End Replay.
