(* ===== verification/Feed.v ===== *)
(** * What the replay engine's feed guarantees

    A subscriber that reads the published bytes and applies the level
    updates holds exactly the depth of the book; sequence numbers have no
    gaps; every request gets one execution report; the risk engine holds
    the ledger of the published trades.

    A request first moves the engine, which may change the orders at some
    [(side, price)] keys, and then only publishes.  [emits] collects what
    the publishing part appends; every changed key is among the keys it
    publishes, and every level update tells the state of the final book. *)

From S2P Require Import Prelude Types Bitmap SlabPool Level HashMap Ladder OrderBook.
From S2P Require Import BookSpec Matching MatchSpec Exchange BookProps Engine Risk.
From S2P Require Import Wire Protocol Codec Sinks Publisher Replay.
From stdpp Require Import base tactics numbers list sets gmap.

Set Default Goal Selector "!".

Module Feed.
Import Level OrderBook Matching MatchSpec Exchange Protocol Publisher Replay.

(** ** The subscriber *)

(** Depth by side byte and price: volume and number of orders. *)
Abbreviation view := (gmap (Z * Z) (Z * Z)).

Definition apply_event (v : view) (ev : event) : view :=
  match ev with
  | EvDelta m =>
      let key := (bd_side m, bd_price m) in
      if (bd_action m =? delta_code DeltaDelete)%Z then delete key v
      else <[key := (bd_aggregate_quantity m, bd_order_count m)]> v
  | _ => v
  end.

Definition book_view (evs : list event) : view := foldl apply_event ∅ evs.

(** ** The depth of a queue *)

Definition at_price (q : list Order) (price : Z) : list Order :=
  List.filter (λ o, ord_price o =? price)%Z q.

Definition depth (q : list Order) (price : Z) : option (Z * Z) :=
  match at_price q price with
  | [] => None
  | os => Some (i64 (volume os), Z.of_nat (length os))
  end.

Lemma at_price_app q q' price : at_price (q ++ q') price = at_price q price ++ at_price q' price.
Proof. apply List.filter_app. Qed.

Lemma at_price_insert s o q price :
  price ≠ ord_price o → at_price (BookSpec.insert s o q) price = at_price q price.
Proof.
  intros Hp. assert ((ord_price o =? price)%Z = false) as E by (apply Z.eqb_neq; congruence).
  unfold at_price. induction q as [|x q IH]; cbn [BookSpec.insert List.filter]; [by rewrite E|].
  destruct (BookSpec.better _ _ _); cbn [List.filter]; [by rewrite E|]. by rewrite IH.
Qed.

Lemma at_price_remove id q price :
  (∀ o, o ∈ q → ord_id o = id → ord_price o ≠ price) →
  at_price (BookSpec.remove id q) price = at_price q price.
Proof.
  unfold at_price, BookSpec.remove. induction q as [|x q IH]; intros H; [done|]. cbn [List.filter].
  assert (∀ o, o ∈ q → ord_id o = id → ord_price o ≠ price) as H' by set_solver.
  destruct (Z.eqb_spec (ord_id x) id) as [E|E]; cbn [negb List.filter]; rewrite IH by done; [|done].
  by rewrite (proj2 (Z.eqb_neq _ _)) by (apply H; set_solver).
Qed.

Lemma at_price_match a rem id q fs rem' rest price :
  spec_match a rem id q = (fs, rem', rest) → price ∉ fill_price <$> fs →
  at_price rest price = at_price q price.
Proof.
  revert rem id fs rem' rest. induction q as [|o q IH]; intros rem id fs rem' rest; cbn [spec_match].
  { by intros [= <- <- <-]. }
  destruct (_ && _); [|by intros [= <- <- <-]].
  destruct (spec_match a _ _ q) as [[fs1 r1] rest1] eqn:E. intros [= <- <- <-] Hn.
  rewrite fmap_cons in Hn. apply not_elem_of_cons in Hn as [Hn1 Hn2]. cbn in Hn1.
  assert ((ord_price o =? price)%Z = false) as Ep by (apply Z.eqb_neq; congruence).
  rewrite at_price_app, (IH _ _ _ _ _ E Hn2). unfold at_price, reduced.
  destruct (_ =? ord_remaining o)%Z; cbn; by rewrite Ep.
Qed.

(** *** Keys whose orders may differ between two engines *)

Section engine.
Context (NumLevels MaxOrders : nat) (sym base : Z).
Context {M : Type} `{!HashMap Z nat M, !HashMapLaws Z nat M}.
Implicit Types (e : Matching.t M).

Abbreviation engine_ok := (Exchange.engine_ok NumLevels MaxOrders).
Abbreviation abs_of := (Exchange.abs_of NumLevels MaxOrders).

Definition changes e e' (keys : list (Side * Z)) : Prop :=
  ∀ s price, (s, price) ∉ keys →
    at_price (a_side (abs_of e') s) price = at_price (a_side (abs_of e) s) price.

Lemma changes_nil e : changes e e [].
Proof. by intros s price. Qed.

Lemma changes_trans e e' e'' ks ks' :
  changes e e' ks → changes e' e'' ks' → changes e e'' (ks ++ ks').
Proof.
  intros H1 H2 s price Hn. apply not_elem_of_app in Hn as [? ?]. by rewrite H2, H1.
Qed.

(** An order has an id and a client of its type, and a side that is one. *)
Definition order_ids (o : Order) : Prop :=
  is_u64 (ord_id o) ∧ is_u32 (ord_client o) ∧ is_side (ord_side_byte o).

Abbreviation ids_ok := (Engine.all_orders order_ids).

Definition fill_ok (s : Side) (f : Fill) : Prop :=
  aggressor_side_byte f = side_code s ∧ is_u64 (match_id f) ∧ is_i64 (fill_price f) ∧ is_i64 (fill_quantity f).

(** The keys a submit changes: the prices it traded at, and its own price
    if it rested. *)
Definition submit_keys (order : Order) (r : NewOrderResult) (fs : list Fill) : list (Side * Z) :=
  ((λ f, (opposite (ord_side order), fill_price f)) <$> fs) ++
  (if rested r then [(ord_side order, ord_price order)] else []).

Lemma side_price e s o :
  engine_ok sym base e → o ∈ a_side (abs_of e) s → is_i64 (ord_price o) ∧ ord_side o = s.
Proof.
  intros Hok Ho. destruct (eo_book _ _ _ _ _ Hok) as (F&L&G&Q&Hr). rewrite abs_side in Ho.
  apply (BookSpec.queue_elem _ _ _ _ _ _ _ _ _ Hr) in Ho as (i&Hi&Ho).
  apply (r_order _ _ _ _ _ _ _ Hr) in Ho as [Hs -> _ _ _]. split; [|done].
  pose proof (r_base _ _ _ _ _ _ _ Hr) as Hg. unfold geometry, is_i64 in *. lia.
Qed.

Lemma submit_changes e order r e' fs :
  engine_ok sym base e → amounts_typed order → ids_ok (abs_of e) → order_ids order →
  submit NumLevels e order [] = (r, e', fs) →
  engine_ok sym base e' ∧ ids_ok (abs_of e') ∧ is_i64 (remaining_after r) ∧
  changes e e' (submit_keys order r fs) ∧ Forall (fill_ok (ord_side order)) fs ∧
  Engine.numbered (next_match_id e) fs (next_match_id e') ∧
  (fs ≠ [] ∨ rested r = true → ord_symbol order = sym).
Proof.
  intros Hok [Hp Hq] Hids Hid E.
  destruct (Engine.submit_inv _ _ _ _ _ _ _ _ _ _ Hok (conj Hp Hq) E) as
    [Hok' [(Hrej&->&->&_&Hnr&->)|(Hsym&Hpos&_&Ht)]].
  { unfold submit_keys. rewrite Hnr. split_and!; try done.
    - apply consecutive_nil, Hok.
    - by intros [?|?]. }
  set (s := ord_side order) in *.
  destruct (Engine.spec_take_inv _ _ _ _ _ _ _ _ _ Ht) as (fs'&rem&rest&Em&->&_&<-&Eo&Es&En&_&_).
  fold s in Em, Eo, Es. rewrite app_nil_l in *.
  destruct (Engine.engine_open _ _ _ _ _ (opposite s) Hok) as [Hopen _].
  pose proof (eo_next _ _ _ _ _ Hok) as Hn.
  destruct (spec_match_range _ _ _ _ _ _ _ Hopen (Z.lt_le_incl _ _ Hpos) Em) as [Hrem _].
  split_and!; [done| | | | | |done].
  - by eapply (Engine.spec_take_keeps NumLevels MaxOrders order_ids).
  - unfold is_i64 in *. lia.
  - intros s' price Hk. unfold submit_keys in Hk. fold s in Hk.
    apply not_elem_of_app in Hk as [Hk1 Hk2]. destruct (decide (s' = s)) as [-> |Hs].
    + rewrite Es. destruct (rested r); [|done]. apply at_price_insert. cbn. set_solver.
    + assert (s' = opposite s) as -> by (by destruct s, s'). rewrite Eo.
      eapply at_price_match; [exact Em|]. intros (f&->&Hf)%list_elem_of_fmap. apply Hk1.
      apply list_elem_of_fmap. by exists f.
  - apply Forall_lookup. intros k f Hf.
    destruct (spec_match_prefix _ _ _ _ _ _ _ _ _ Hopen Hn Em Hf) as (o&Ho&_&Ef&Hfq&_).
    apply list_elem_of_lookup_2 in Ho. destruct (side_price _ _ _ Hok Ho) as [Hop _].
    eapply Forall_forall in Hopen as [_ Hoi]; [|exact Ho].
    rewrite Ef. unfold fill_ok. cbn. split_and!; [|apply u64_range|done|].
    { symmetry. apply is_side_code, Hid. }
    unfold is_i64 in *. lia.
  - change (next_match_id e') with (a_next (abs_of e')). rewrite En.
    by eapply Engine.spec_match_numbered.
Qed.

Lemma cancel_changes e id p :
  engine_ok sym base e → ids_ok (abs_of e) → hm_find (order_index (book e)) id = Some p →
  let o := node_order (deref (heap_of (book e)) p) in
  let e' := Matching.mk (OrderBook.cancel (book e) id).2 (next_match_id e) in
  OrderBook.cancel (book e) id = (inr tt, book e') ∧
  engine_ok sym base e' ∧ ids_ok (abs_of e') ∧ changes e e' [(ord_side o, ord_price o)] ∧
  ord_symbol o = sym ∧ is_i64 (ord_price o) ∧ order_ids o ∧ ord_id o = id.
Proof.
  intros Hok Hids Hf o e'. destruct (cancel_found _ _ _ _ _ _ _ Hok Hf) as (b'&Ec&Hok'&Ea).
  unfold e'. rewrite Ec. cbn [snd book]. set (e1 := Matching.mk b' _) in *.
  destruct (eo_book _ _ _ _ _ Hok) as (F&L&G&Q&Hr).
  destruct (find_queue _ _ _ _ _ _ _ _ _ Hr Hf) as (s&o'&Ho&Hid&Heq). fold o in Heq. subst o'.
  rewrite <- abs_side in Ho. destruct (side_price _ _ _ Hok Ho) as [Hp Hs].
  pose proof (eo_day _ _ _ _ _ Hok) as Hd. rewrite day_side in Hd. destruct (Hd s o Ho) as [Hsym _].
  pose proof (Hids s o Ho) as Hc.
  split_and!; try done.
  - rewrite Ea. by apply Engine.a_remove_keeps.
  - intros s' price Hk. rewrite Ea.
    replace (a_side (a_remove (abs_of e) id) s') with (BookSpec.remove id (a_side (abs_of e) s'))
      by by destruct s'.
    apply at_price_remove. intros x Hx Hxid Hxp. apply Hk. apply list_elem_of_singleton.
    assert (x = o) as ->.
    { rewrite abs_side in Hx. destruct (queue_find _ _ _ _ _ _ _ _ _ Hr Hx) as (px&Hpx&Hnx).
      rewrite Hxid, Hf in Hpx. injection Hpx as <-. done. }
    destruct (side_price _ _ _ Hok Hx) as [_ Hs']. by rewrite Hs', Hxp.
Qed.

(** *** Levels and depth *)

Lemma level_depth e s price :
  engine_ok sym base e → is_i64 price →
  let os := at_price (a_side (abs_of e) s) price in
  match level_at NumLevels (book e) s price with
  | Some l => total_quantity l = i64 (volume os) ∧ Level.order_count l = Z.of_nat (length os) ∧
      (Z.of_nat (length os) < 2 ^ 32)%Z
  | None => os = []
  end.
Proof.
  intros Hok Hp os. unfold os. clear os. rewrite abs_side.
  destruct (eo_book _ _ _ _ _ Hok) as (F&L&G&Q&Hr). unfold level_at.
  destruct (index_of NumLevels (book e) price) as [i|] eqn:Ei; cbn [fmap option_fmap option_map].
  - apply index_of_spec in Ei as [Hi ->]; [|apply Hr|done].
    unfold at_price. rewrite (BookProps.queue_at_price _ _ _ _ _ _ _ s i Hr Hi).
    destruct (BookProps.level_fields _ _ _ _ _ _ _ s i Hr Hi) as [E1 E2].
    destruct (rep_level_length _ _ _ _ _ _ _ s i Hr) as [Ha Hb].
    rewrite (level_rep_length _ _ _ _ (r_level _ _ _ _ _ _ _ Hr s i Hi)) in Ha.
    split_and!; [done|done|lia].
  - destruct (at_price _ _) as [|o os] eqn:E; [done|]. exfalso.
    assert (o ∈ at_price (OrderBook.queue NumLevels MaxOrders (book e) s) price) as Ho
      by (rewrite E; set_solver).
    apply list_elem_of_In, filter_In in Ho as [Ho Hop%Z.eqb_eq]. apply list_elem_of_In in Ho.
    apply (BookSpec.queue_elem _ _ _ _ _ _ _ _ _ Hr) in Ho as (i&Hi&Ho).
    apply (r_order _ _ _ _ _ _ _ Hr) in Ho as [_ Hpr _ _ _].
    assert (index_of NumLevels (book e) price = Some i) as Hs; [|congruence].
    apply index_of_spec; [apply Hr|done|]. split; [done|congruence].
Qed.

(** A level update states the depth of the book of [e]. *)
Definition tells e (ev : event) : Prop :=
  match ev with
  | EvDelta m => ∃ s, bd_side m = side_code s ∧
      depth (a_side (abs_of e) s) (bd_price m) =
        if (bd_action m =? delta_code DeltaDelete)%Z then None
        else Some (bd_aggregate_quantity m, bd_order_count m)
  | _ => True
  end.

Definition event_key (ev : event) : option (Z * Z) :=
  match ev with EvDelta m => Some (bd_side m, bd_price m) | _ => None end.

Lemma side_code_inj s s' : side_code s = side_code s' → s = s'.
Proof. by destruct s, s'. Qed.

Lemma apply_event_tells e v ev s price :
  tells e ev →
  v !! (side_code s, price) = depth (a_side (abs_of e) s) price ∨
    event_key ev = Some (side_code s, price) →
  apply_event v ev !! (side_code s, price) = depth (a_side (abs_of e) s) price.
Proof.
  intros Ht Hv. destruct ev as [m|m|m|]; try (destruct Hv as [Hv|Hv]; [exact Hv|done]).
  cbn [apply_event event_key tells] in *. destruct Ht as (s0&Es&Ed).
  destruct (decide ((bd_side m, bd_price m) = (side_code s, price))) as [E|E].
  - injection E as E1 <-. rewrite E1 in Es. apply side_code_inj in Es as <-.
    rewrite E1. destruct (_ =? _)%Z; [rewrite lookup_delete_eq|rewrite lookup_insert_eq]; done.
  - destruct Hv as [Hv|Hv]; [|congruence].
    destruct (_ =? _)%Z; [rewrite lookup_delete_ne|rewrite lookup_insert_ne]; done.
Qed.

(** Applying true updates that cover every stale key gives the depth. *)
Lemma view_tells e evs v s price :
  Forall (tells e) evs →
  v !! (side_code s, price) = depth (a_side (abs_of e) s) price ∨
    (side_code s, price) ∈ omap event_key evs →
  foldl apply_event v evs !! (side_code s, price) = depth (a_side (abs_of e) s) price.
Proof.
  intros Ht. revert v. induction Ht as [|ev evs Hev Ht IH]; intros v Hv; cbn [foldl].
  { destruct Hv as [?|Hv]; [done|]. set_solver. }
  apply IH. cbn [omap list_omap] in Hv. destruct Hv as [Hv|Hv].
  - left. apply apply_event_tells; [done|by left].
  - destruct (event_key ev) as [k|] eqn:Ek; [|by right].
    apply elem_of_cons in Hv as [<-|Hv]; [|by right]. left. apply apply_event_tells; [done|by right].
Qed.

End engine.

(** ** Publishing *)

(** The parties of a fill, in the order the driver records them. *)
Definition fill_legs (symbol : Z) (f : Fill) : list Risk.leg :=
  [Risk.mkLeg (resting_client_id f) symbol (opposite (aggressor_side f)) (fill_price f)
     (fill_quantity f);
   Risk.mkLeg (aggressor_client_id f) symbol (aggressor_side f) (fill_price f) (fill_quantity f)].

(** What a trade print says of the fill. *)
Definition print_of (f : Fill) : Z * Z * Z * Z :=
  (match_id f, fill_price f, fill_quantity f, aggressor_side_byte f).
Definition event_print (ev : event) : option (Z * Z * Z * Z) :=
  match ev with
  | EvTrade m => Some (tm_match_id m, tm_price m, tm_quantity m, tm_aggressor_side m)
  | _ => None
  end.

Definition event_report (ev : event) : option ExecutionReportMessage :=
  match ev with EvReport m => Some m | _ => None end.

Section feed.
Context (NumLevels MaxOrders : nat) (sym base : Z).
Context {M R S : Type} `{!HashMap Z nat M, !HashMapLaws Z nat M}.
Context `{!HashMap Z Risk.ClientExposure R} `{!Sink S, !SinkLaws S}.
Implicit Types (e : Matching.t M) (st : Replay.t M R S).

Abbreviation engine_ok := (Exchange.engine_ok NumLevels MaxOrders).
Abbreviation abs_of := (Exchange.abs_of NumLevels MaxOrders).
Abbreviation tells := (tells NumLevels MaxOrders).

(** The feed's counter, as opposed to the request counter. *)
Abbreviation feed_sequence st := (Publisher.next_sequence (feed st)).

(** [st'] is [st] after publishing [evs] and recording the fills [fs]. *)
Record emits st (evs : list event) (fs : list Fill) (reports : list ExecutionReportMessage)
    st' : Prop := {
  em_matching : matching st' = matching st;
  em_sequence : next_sequence st' = next_sequence st;
  em_data : published (feed st) evs (feed st');
  em_typed : Forall event_typed evs;
  em_numbers : consecutive (feed_sequence st) (omap event_sequence evs) (feed_sequence st');
  em_tells : Forall (tells (matching st)) evs;
  em_risk : risk st' = foldl Risk.record_leg (risk st) (concat (fill_legs sym <$> fs));
  em_prints : omap event_print evs = print_of <$> fs;
  em_reports : omap event_report evs = reports;
}.

Lemma emits_nil st : is_u64 (feed_sequence st) → emits st [] [] [] st.
Proof.
  intros Hn. split; try done; [apply published_nil|by apply consecutive_nil].
Qed.

Lemma emits_trans st evs fs rs st' evs' fs' rs' st'' :
  emits st evs fs rs st' → emits st' evs' fs' rs' st'' →
  emits st (evs ++ evs') (fs ++ fs') (rs ++ rs') st''.
Proof.
  intros [H1 H2 H3 H4 H5 H6 H7 H8 H9] [I1 I2 I3 I4 I5 I6 I7 I8 I9]. split.
  - congruence.
  - congruence.
  - by eapply published_app.
  - by apply Forall_app.
  - rewrite omap_app. by eapply consecutive_app.
  - apply Forall_app. rewrite H1 in I6. done.
  - by rewrite I7, H7, fmap_app, concat_app, foldl_app.
  - by rewrite omap_app, fmap_app, H8, I8.
  - by rewrite omap_app, H9, I9.
Qed.

Lemma emits_u64 st evs fs rs st' : emits st evs fs rs st' → is_u64 (feed_sequence st').
Proof. intros H. destruct (em_numbers _ _ _ _ _ H) as [-> _]. apply u64_range. Qed.

(** The level updates among [evs] reach every listed key on the ladder. *)
Definition covers (evs : list event) (keys : list (Side * Z)) : Prop :=
  ∀ s price, (s, price) ∈ keys → in_range NumLevels base price = true →
    (side_code s, price) ∈ omap event_key evs.

Lemma covers_nil evs : covers evs [].
Proof. intros s price H. by apply not_elem_of_nil in H. Qed.

Lemma covers_app evs keys evs' keys' :
  covers evs keys → covers evs' keys' → covers (evs ++ evs') (keys ++ keys').
Proof.
  intros H H' s price [Hk|Hk]%elem_of_app Hin; rewrite omap_app; apply elem_of_app;
    [left; by apply H|right; by apply H'].
Qed.

Lemma covers_mono evs keys evs' :
  covers evs keys → covers (evs ++ evs') keys.
Proof. intros H. rewrite <- (app_nil_r keys). apply covers_app; [done|apply covers_nil]. Qed.

Lemma in_range_level e s price :
  engine_ok sym base e → is_i64 price →
  match level_at NumLevels (book e) s price with
  | Some _ => True | None => in_range NumLevels base price = false end.
Proof.
  intros Hok Hp. destruct (eo_book _ _ _ _ _ Hok) as (F&L&G&Q&Hr).
  rewrite <- (eo_base _ _ _ _ _ Hok), (in_range_index _ _ _ (r_base _ _ _ _ _ _ _ Hr) Hp).
  unfold level_at. by destruct (index_of _ _ price).
Qed.

Lemma off_ladder e s price :
  engine_ok sym base e → in_range NumLevels base price = false →
  depth (a_side (abs_of e) s) price = None.
Proof.
  intros Hok Hin. unfold depth. destruct (at_price _ price) as [|o os] eqn:E; [done|]. exfalso.
  assert (o ∈ at_price (a_side (abs_of e) s) price) as Ho by (rewrite E; set_solver).
  apply list_elem_of_In, filter_In in Ho as [Ho Hop%Z.eqb_eq]. apply list_elem_of_In in Ho.
  destruct (eo_book _ _ _ _ _ Hok) as (F&L&G&Q&Hr). rewrite abs_side in Ho.
  apply (BookSpec.queue_elem _ _ _ _ _ _ _ _ _ Hr) in Ho as (i&Hi&Ho).
  apply (r_order _ _ _ _ _ _ _ Hr) in Ho as [_ Hpr _ _ _].
  rewrite (eo_base _ _ _ _ _ Hok) in Hpr. unfold in_range in Hin.
  apply andb_false_iff in Hin as [Hin|Hin]; bool_to_prop; lia.
Qed.

(** *** The publishing steps *)

Lemma publish_level_emits st s price :
  engine_ok sym base (matching st) → is_u32 sym → is_i64 price → is_u64 (feed_sequence st) →
  ∃ evs, emits st evs [] [] (publish_level NumLevels st sym (side_code s) price) ∧
    covers evs [(s, price)].
Proof.
  intros Hok Hsym Hp Hn. unfold publish_level. rewrite read_side_code.
  pose proof (in_range_level _ s price Hok Hp) as Hrange.
  pose proof (level_depth _ _ _ _ _ s _ Hok Hp) as Hl. cbv zeta in Hl.
  destruct (level_at _ _ s price) as [l|].
  2: { exists []. split; [by apply emits_nil|]. intros s' p' Hk Hin.
       apply list_elem_of_singleton in Hk as [= -> ->]. by rewrite Hrange in Hin. }
  destruct Hl as (Ht&Hc&Hlt). set (m := delta_message sym (feed_sequence st) (side_code s) price l).
  assert (l_typed m) as Hm.
  { cbn. rewrite Ht, Hc. split_and!; try done; try apply i64_range; try (unfold is_u32; lia).
    - apply side_code_u8.
    - destruct (_ =? _)%Z; unfold is_u8; cbn; lia. }
  exists [EvDelta m]. split.
  2: { intros s' p' Hk _. apply list_elem_of_singleton in Hk as [= -> ->]. cbn. set_solver. }
  rewrite publish_level_update_spec by exact Hm. fold m.
  split; try done.
  - apply (append_published (bump (feed st)) (EvDelta m)).
  - apply Forall_singleton. exact Hm.
  - by apply consecutive_one.
  - constructor; [|done]. exists s. split; [done|]. cbn. unfold depth. rewrite Ht, Hc.
    destruct (at_price _ price); done.
Qed.

Lemma report_totals_typed fs :
  Forall (λ f, is_u64 (match_id f) ∧ is_i64 (fill_price f)) fs →
  let '(total, price, mid) := report_totals fs in is_i64 total ∧ is_i64 price ∧ is_u64 mid.
Proof.
  intros Hfs. unfold report_totals. set (z := (0, 0, 0)%Z).
  assert (let '(total, price, mid) := z in is_i64 total ∧ is_i64 price ∧ is_u64 mid) as Hz
    by (cbn; unfold_ints; lia).
  clearbody z. revert z Hz. induction Hfs as [|f fs [Hm Hp] Hfs IH]; intros [[a b] c] Hz; [done|].
  cbn [foldl]. apply IH. split_and!; [apply i64_range|done|done].
Qed.

Lemma publish_report_emits st id client symbol fs leaves et reason :
  is_u64 id → is_u32 client → is_u32 symbol → is_i64 leaves → is_u64 (feed_sequence st) →
  Forall (λ f, is_u64 (match_id f) ∧ is_i64 (fill_price f)) fs →
  let m := report_message id client symbol fs leaves et reason in
  emits st [EvReport m] [] [m] (publish_report st id client symbol fs leaves et reason).
Proof.
  intros Hid Hcl Hsy Hlv Hn Hfs m. unfold publish_report. fold m.
  assert (l_typed m) as Hm.
  { unfold m, report_message. pose proof (report_totals_typed fs Hfs) as Hty.
    destruct (report_totals fs) as [[total price] mid]. destruct Hty as (Ht&Hp&Hmi).
    cbn. split_and!; try done.
    - destruct et; unfold is_u8; cbn; lia.
    - destruct reason; unfold is_u8; cbn; lia. }
  rewrite publish_execution_report_spec by exact Hm. split; try done.
  - apply (append_published (feed st) (EvReport m)).
  - apply Forall_singleton. exact Hm.
  - by apply consecutive_nil.
  - by repeat constructor.
Qed.

Lemma apply_fill_emits s st f :
  engine_ok sym base (matching st) → is_u32 sym → is_u64 (feed_sequence st) → fill_ok s f →
  ∃ evs, emits st evs [f] [] (apply_fill NumLevels sym st f) ∧
    covers evs [(opposite s, fill_price f)].
Proof.
  intros Hok Hsym Hn (Hsd&Hm&Hp&Hq). unfold apply_fill. cbv zeta.
  assert (aggressor_side f = s) as Eas by (unfold aggressor_side; by rewrite Hsd, read_side_code).
  rewrite Eas.
  set (m := trade_message sym (feed_sequence st) f).
  assert (l_typed m) as Htm.
  { cbn. split_and!; try done. rewrite Hsd. apply side_code_u8. }
  rewrite publish_trade_spec by exact Htm. fold m.
  set (st1 := set_risk (Risk.record_fill _ (aggressor_client_id f) _ _ _ _) _).
  assert (emits st [EvTrade m] [f] [] st1) as H1.
  { split; try done.
    - apply (append_published (bump (feed st)) (EvTrade m)).
    - apply Forall_singleton. exact Htm.
    - by apply consecutive_one.
    - by apply Forall_singleton.
    - cbn. unfold Risk.record_leg. cbn. by rewrite Eas, Hsd. }
  destruct (publish_level_emits st1 (opposite s) (fill_price f) Hok Hsym Hp
    (u64_range _)) as (evs&H2&Hc).
  exists ([EvTrade m] ++ evs). split; [by apply (emits_trans _ _ [f] [] _ _ [] [] _ H1 H2)|].
  intros s' p' Hk Hin. rewrite omap_app. apply elem_of_app. right. by apply Hc.
Qed.

Lemma apply_fills_emits s st fs :
  engine_ok sym base (matching st) → is_u32 sym → is_u64 (feed_sequence st) →
  Forall (fill_ok s) fs →
  ∃ evs, emits st evs fs [] (apply_fills NumLevels st sym fs) ∧
    covers evs ((λ f, (opposite s, fill_price f)) <$> fs).
Proof.
  intros Hok Hsym Hn Hfs. revert st Hok Hn. induction Hfs as [|f fs Hf Hfs IH]; intros st Hok Hn.
  { exists []. split; [by apply emits_nil|apply covers_nil]. }
  destruct (apply_fill_emits s st f Hok Hsym Hn Hf) as (evs&H1&C1).
  pose proof (em_matching _ _ _ _ _ H1) as Em. pose proof (emits_u64 _ _ _ _ _ H1) as Hn'.
  destruct (IH (apply_fill NumLevels sym st f)) as (evs'&H2&C2); [by rewrite Em|done|].
  exists (evs ++ evs'). split; [by apply (emits_trans _ _ [f] [] _ _ fs [] _ H1 H2)|].
  rewrite fmap_cons. by apply (covers_app _ [(opposite s, fill_price f)]).
Qed.

(** ** Whole requests *)

(** Processing a request: the engine moves, then [evs] are published,
    ending with the execution report [rep]. *)
Definition stepped st (evs : list event) (fs : list Fill) (rep : ExecutionReportMessage) st'
    : Prop :=
  ∃ st0 keys, feed st0 = feed st ∧ risk st0 = risk st ∧
    engine_ok sym base (matching st0) ∧ Engine.all_orders order_ids (abs_of (matching st0)) ∧
    changes NumLevels MaxOrders (matching st) (matching st0) keys ∧ covers evs keys ∧
    Engine.numbered (next_match_id (matching st)) fs (next_match_id (matching st0)) ∧
    emits st0 evs fs [rep] st'.

(** What every state between requests satisfies. *)
Record ready st : Prop := {
  rd_engine : engine_ok sym base (matching st);
  rd_ids : Engine.all_orders order_ids (abs_of (matching st));
  rd_feed : is_u64 (feed_sequence st);
}.

Context (Hsym : is_u32 sym).

(** A request that leaves the engine alone and only reports. *)
Lemma report_only st st0 id client symbol leaves et reason :
  ready st → feed st0 = feed st → risk st0 = risk st → matching st0 = matching st →
  is_u64 id → is_u32 client → is_u32 symbol → is_i64 leaves →
  let m := report_message id client symbol [] leaves et reason in
  stepped st [EvReport m] [] m (publish_report st0 id client symbol [] leaves et reason).
Proof.
  intros [Hok Hids Hn] Ef Er Em Hid Hcl Hsy Hlv m. exists st0, [].
  split_and!; try done; rewrite ?Em; try done.
  - apply covers_nil.
  - apply consecutive_nil, Hok.
  - apply publish_report_emits; try done. by rewrite Ef.
Qed.

Lemma fills_reportable s fs :
  Forall (fill_ok s) fs → Forall (λ f, is_u64 (match_id f) ∧ is_i64 (fill_price f)) fs.
Proof. intros H. eapply Forall_impl; [exact H|]. by intros f (_&?&?&_). Qed.

Lemma match_and_publish_stepped st order :
  ready st → amounts_typed order → order_ids order → is_u32 (ord_symbol order) →
  ∃ r e' fs evs, submit NumLevels (matching st) order [] = (r, e', fs) ∧
    stepped st evs fs
      (report_message (ord_id order) (ord_client order) (ord_symbol order) fs
         (remaining_after r) (new_exec_type r fs) (reject_reason r))
      (match_and_publish NumLevels st order).
Proof.
  intros [Hok Hids Hn] Hty Hid Hsy. unfold match_and_publish.
  rewrite <- (is_side_code (ord_side_byte order)) by apply Hid. fold (ord_side order).
  destruct (submit NumLevels (matching st) order []) as [[r e'] fs] eqn:E.
  destruct (submit_changes _ _ _ _ _ _ _ _ _ Hok Hty Hids Hid E) as
    (Hok'&Hids'&Hrem&Hch&Hfs&Hnum&Hs).
  set (st0 := set_matching e' fs st). exists r, e', fs.
  assert (∃ evs, emits st0 evs fs [] (apply_fills NumLevels st0 (ord_symbol order) fs) ∧
    covers evs ((λ f, (opposite (ord_side order), fill_price f)) <$> fs)) as (evs1&H1&C1).
  { destruct fs as [|f fs].
    - exists []. split; [by apply emits_nil|apply covers_nil].
    - rewrite Hs by by left. by apply apply_fills_emits. }
  set (st1 := apply_fills _ _ _ _) in *.
  pose proof (em_matching _ _ _ _ _ H1) as Em1. pose proof (emits_u64 _ _ _ _ _ H1) as Hn1.
  set (st2 := if rested r then _ else _).
  assert (∃ evs, emits st1 evs [] [] st2 ∧
    covers evs (if rested r then [(ord_side order, ord_price order)] else [])) as (evs2&H2&C2).
  { unfold st2. destruct (rested r) eqn:Er.
    - rewrite Hs by by right. apply publish_level_emits; [by rewrite Em1|done|apply Hty|done].
    - exists []. split; [by apply emits_nil|apply covers_nil]. }
  pose proof (emits_trans _ _ _ _ _ _ _ _ _ H1 H2) as H12.
  pose proof (publish_report_emits st2 (ord_id order) (ord_client order) (ord_symbol order) fs
    (remaining_after r) (new_exec_type r fs) (reject_reason r) (proj1 Hid) (proj1 (proj2 Hid)) Hsy Hrem
    (emits_u64 _ _ _ _ _ H2) (fills_reportable _ _ Hfs)) as H3.
  pose proof (emits_trans _ _ _ _ _ _ _ _ _ H12 H3) as H.
  eexists. split; [done|]. exists st0, (submit_keys order r fs).
  rewrite !app_nil_r in H. split_and!; try done. by apply covers_mono, covers_app.
Qed.

Lemma process_cancel_stepped st wire :
  ready st → l_typed wire →
  ∃ rep evs, stepped st evs [] rep (process_cancel NumLevels st wire) ∧
    er_order_id rep = co_order_id wire.
Proof.
  intros Hrd (Hid&Hcl&Hsy). pose proof Hrd as [Hok Hids Hn]. unfold process_cancel, find.
  assert (is_i64 0) as H0 by (unfold is_i64; lia).
  destruct (hm_find (order_index (book (matching st))) (co_order_id wire)) as [p|] eqn:Hf.
  2: { do 2 eexists. split; [by apply report_only|done]. }
  destruct (cancel_changes _ _ _ _ _ _ _ Hok Hids Hf) as (Ec&Hok'&Hids'&Hch&Hs&Hp&(_&Hc&Hsd)&_).
  set (o := node_order _) in *. unfold Matching.cancel. rewrite Ec. cbn [cancel_accepted book].
  rewrite <- (is_side_code (ord_side_byte o)) by done. fold (ord_side o).
  set (st0 := set_matching _ _ st).
  destruct (publish_level_emits st0 (ord_side o) (ord_price o) Hok' Hsym Hp Hn) as (evs&H1&C1).
  rewrite Hs. pose proof (emits_u64 _ _ _ _ _ H1) as Hn1.
  set (st1 := publish_level _ _ _ _ _) in *.
  pose proof (publish_report_emits st1 (co_order_id wire) (ord_client o) sym [] 0 ExCancelled
    RejNone Hid Hc Hsym H0 Hn1 ltac:(constructor)) as H2. cbv zeta in H2.
  pose proof (emits_trans _ _ _ _ _ _ _ _ _ H1 H2) as H.
  exists (report_message (co_order_id wire) (ord_client o) sym [] 0 ExCancelled RejNone). eexists.
  split; [|done]. exists st0, [(ord_side o, ord_price o)].
  split_and!; try exact H; try done; [by apply covers_mono|apply consecutive_nil, Hok].
Qed.

(** A replace of a resting order is refused without effect, or is a cancel
    followed by a submit. *)
Lemma replace_cases e id price qty seq ts p :
  engine_ok sym base e → is_i64 price → is_i64 qty →
  hm_find (order_index (book e)) id = Some p →
  let o := node_order (deref (heap_of (book e)) p) in
  let e1 := Matching.mk (OrderBook.cancel (book e) id).2 (next_match_id e) in
  ∃ res e' fs, Matching.replace NumLevels e id price qty seq ts [] = (res, e', fs) ∧
    ((rep_accepted res = false ∧ e' = e ∧ fs = []) ∨
     ∃ r, rep_accepted res = true ∧ rep_reject_reason res = RejNone ∧
       submit NumLevels e1 (retermed o price qty seq ts) [] = (r, e', fs) ∧
       rep_rested res = rested r ∧ rep_remaining_after res = remaining_after r).
Proof.
  intros Hok Hp Hq Hf o e1. destruct (eo_book _ _ _ _ _ Hok) as (F&L&G&Q&Hr).
  pose proof (find_a_find _ _ _ _ _ _ _ id Hr) as Ha. rewrite Hf in Ha. cbn in Ha.
  pose proof (λ H1 H2, Engine.replace_never_refused NumLevels MaxOrders sym base e id price qty
    seq ts [] _ Hok Hp Hq Ha H1 H2) as Hacc.
  pose proof (in_range_index _ (book e) _ (r_base _ _ _ _ _ _ _ Hr) Hp) as Hi.
  rewrite (eo_base _ _ _ _ _ Hok) in Hi.
  unfold Matching.replace, find in *. rewrite Hf in *. fold o in Hacc |- *. fold e1 in Hacc |- *.
  destruct (Z.leb_spec qty 0); [by do 3 eexists; split; [done|left]|].
  destruct (index_of NumLevels (book e) price) as [i|]; [|by do 3 eexists; split; [done|left]].
  destruct (submit NumLevels e1 _ []) as [[r e'] fs] eqn:Es.
  destruct Hacc as [Ha1 Ha2]; [done|done|]. do 3 eexists. split; [done|]. right. exists r.
  split_and!; done.
Qed.

Lemma process_replace_stepped st wire ts :
  ready st → l_typed wire →
  ∃ rep evs fs, stepped st evs fs rep (process_replace NumLevels st wire ts) ∧
    er_order_id rep = ro_order_id wire ∧
    ∃ res e', Matching.replace NumLevels (matching st) (ro_order_id wire) (ro_new_price wire)
      (ro_new_quantity wire) (next_sequence st) ts [] = (res, e', fs).
Proof.
  intros Hrd (Hid&Hpr&Hqt&Hcl&Hsy). pose proof Hrd as [Hok Hids Hn]. unfold process_replace, find.
  assert (is_i64 0) as H0 by (unfold is_i64; lia).
  destruct (hm_find (order_index (book (matching st))) (ro_order_id wire)) as [p|] eqn:Hf.
  2: { do 3 eexists. split; [by apply report_only|]. split; [done|].
       unfold Matching.replace, find. rewrite Hf. by do 2 eexists. }
  destruct (cancel_changes _ _ _ _ _ _ _ Hok Hids Hf) as (_&Hok1&Hids1&Hch1&Hs&Hp&Hio&Hoid). destruct Hio as (Hio&Hc&Hsd).
  destruct (replace_cases (matching st) (ro_order_id wire) _ _ (next_sequence st) ts p Hok Hpr Hqt Hf)
    as (res&e'&fs&Er&Hcase).
  set (o := node_order _) in *. cbn [matching take_sequence]. rewrite Er. set (e1 := Matching.mk _ _) in *.
  destruct Hcase as [(Ha&->&->)|(r&Ha&Hrr&Es&Hre&Hrm)]; rewrite Ha; cbn [negb]; rewrite Hs.
  { do 3 eexists. split; [by apply report_only|]. split; [done|by do 2 eexists]. }
  set (order := retermed _ _ _ _ _) in *.
  rewrite <- (is_side_code (ord_side_byte o)) by done. fold (ord_side o).
  destruct (submit_changes NumLevels MaxOrders sym base e1 order r e' fs Hok1) as
    (Hok'&Hids'&Hrem&Hch&Hfs&Hnum&_); [done|done|by split_and!|done|].
  set (st0 := set_matching e' fs _).
  destruct (apply_fills_emits (ord_side o) st0 fs Hok' Hsym Hn Hfs) as (evs1&H1&C1).
  set (st1 := apply_fills _ _ _ _) in *.
  pose proof (em_matching _ _ _ _ _ H1) as Em1. pose proof (emits_u64 _ _ _ _ _ H1) as Hn1.
  destruct (publish_level_emits st1 (ord_side o) (ord_price o)) as (evs2&H2&C2);
    [by rewrite Em1|done|done|done|].
  set (st2 := publish_level _ st1 _ _ _) in *.
  pose proof (em_matching _ _ _ _ _ H2) as Em2. pose proof (emits_u64 _ _ _ _ _ H2) as Hn2.
  rewrite Hre, Hrm. set (st3 := if rested r then _ else _).
  assert (∃ evs, emits st2 evs [] [] st3 ∧
    covers evs (if rested r then [(ord_side o, ro_new_price wire)] else [])) as (evs3&H3&C3).
  { unfold st3. destruct (rested r).
    - apply publish_level_emits; [by rewrite Em2, Em1|done|done|done].
    - exists []. split; [by apply emits_nil|apply covers_nil]. }
  pose proof (publish_report_emits st3 (ro_order_id wire) (ord_client o) sym fs
    (remaining_after r) (replace_exec_type res fs) RejNone Hid Hc Hsym Hrem
    (emits_u64 _ _ _ _ _ H3) (fills_reportable _ _ Hfs)) as H4. cbv zeta in H4.
  set (rep := report_message _ _ _ _ _ _ _) in *. exists rep.
  pose proof (emits_trans _ _ _ _ _ _ _ _ _ (emits_trans _ _ _ _ _ _ _ _ _
    (emits_trans _ _ _ _ _ _ _ _ _ H1 H2) H3) H4) as H. rewrite !app_nil_r in H.
  do 2 eexists. split; cycle 1.
  { split; [|by do 2 eexists]. by unfold rep, report_message; destruct (report_totals fs) as [[??]?]. }
  exists st0, ([(ord_side o, ord_price o)] ++ submit_keys order r fs).
  split_and!; try exact H; try done; [by eapply changes_trans|].
  apply covers_mono. unfold submit_keys. unfold order. rewrite ord_side_retermed. cbn [ord_price retermed].
  intros s' p' Hk Hin. rewrite !omap_app, !elem_of_app. rewrite !elem_of_app in Hk.
  destruct Hk as [Hk|[Hk|Hk]]; [left; right; by apply C2|left; left; by apply C1|right; by apply C3].
Qed.

Lemma order_of_wire_ok wire seq ts :
  request_ok (ReqNew wire ts) →
  let order := order_of_wire wire seq ts in
  amounts_typed order ∧ order_ids order ∧ is_u32 (ord_symbol order).
Proof. intros ((Hid&Hp&Hq&Hc&Hs&_)&Hsd). by split_and!. Qed.

Lemma report_order_id id client symbol fs leaves et reason :
  er_order_id (report_message id client symbol fs leaves et reason) = id.
Proof. unfold report_message. by destruct (report_totals fs) as [[??]?]. Qed.

Lemma process_stepped st rq :
  ready st → request_ok rq →
  ∃ rep evs, stepped st evs (request_fills NumLevels st rq) rep (process NumLevels st rq) ∧
    er_order_id rep = request_id rq.
Proof.
  intros Hrd Hrq. destruct rq as [wire ts|wire|wire ts]; cbn [process request_id request_fills].
  - unfold process_new_order. cbv zeta.
    destruct (order_of_wire_ok wire (next_sequence st) ts Hrq) as (Hty&Hid&Hsy).
    set (order := order_of_wire _ _ _) in *. cbn [risk take_sequence].
    destruct (decide (Risk.check_new_order (risk st) order = RejNone)) as [Hg|Hg].
    + rewrite bool_decide_eq_true_2 by done. cbn [negb].
      destruct (match_and_publish_stepped (take_sequence st) order) as (r&e'&fs&evs&E&Hst);
        try done; [by destruct Hrd|].
      cbn [matching take_sequence] in E. rewrite E. do 2 eexists. split; [exact Hst|].
      by rewrite report_order_id.
    + rewrite bool_decide_eq_false_2 by done. cbn [negb].
      do 2 eexists. split; [by apply report_only; [..|apply Hid|apply Hid| |apply Hty]|].
      by rewrite report_order_id.
  - destruct (process_cancel_stepped st wire Hrd Hrq) as (rep&evs&?&?). eauto 10.
  - destruct (process_replace_stepped st wire ts Hrd Hrq) as (rep&evs&fs&Hst&Hid&res&e'&E).
    rewrite E. eauto 10.
Qed.

(** *** What a report says *)

(** Filled and open quantity add up, and the execution type says which. *)
Definition report_accounts (quantity : Z) (rep : ExecutionReportMessage) : Prop :=
  (er_last_quantity rep + er_leaves_quantity rep = quantity)%Z ∧
  (er_exec_type rep = exec_code ExRejected ↔ er_reject_reason rep ≠ reject_code RejNone) ∧
  (er_exec_type rep = exec_code ExFill ↔
     er_reject_reason rep = reject_code RejNone ∧ er_leaves_quantity rep = 0%Z) ∧
  (er_exec_type rep = exec_code ExPartialFill →
     (0 < er_last_quantity rep)%Z ∧ (0 < er_leaves_quantity rep)%Z) ∧
  (er_exec_type rep = exec_code ExNew ∨ er_exec_type rep = exec_code ExCancelled →
     er_last_quantity rep = 0%Z).

(** The order is open after the report: it was accepted, something is left
    of it, and it is of the kind that rests. *)
Definition stays_open (order : Order) (rep : ExecutionReportMessage) : bool :=
  (er_reject_reason rep =? reject_code RejNone)%Z && (0 <? er_leaves_quantity rep)%Z &&
  bool_decide (ord_type order = Limit) && bool_decide (ord_tif order = Day).

(** The queue [q] of the order's side becomes [q']: the order joins it with
    the open quantity reported, or it is left alone. *)
Definition leaves_open (order : Order) (rep : ExecutionReportMessage) (q q' : list Order) : Prop :=
  q' = if stays_open order rep
       then BookSpec.insert (ord_side order) (set_remaining (er_leaves_quantity rep) order) q
       else q.

Lemma report_totals_filled fs : (report_totals fs).1.1 = i64 (filled fs).
Proof.
  unfold report_totals, filled. assert (i64 0 = 0%Z) as E0 by done. rewrite <- (Z.add_0_l (zsum _)).
  rewrite <- E0 at 1. generalize 0%Z at 2 3 as b. intros b.
  enough (∀ a b c, (foldl (λ '(total, _, _) f, (StrongAmount.add total (fill_quantity f),
    fill_price f, match_id f)) (i64 a, b, c) fs).1.1 = i64 (a + zsum (fill_quantity <$> fs))%Z) as H
    by apply H.
  clear. induction fs as [|f fs IH]; intros a b c; cbn [foldl]; [cbn; by rewrite Z.add_0_r|].
  unfold StrongAmount.add at 2. rewrite i64_add_l, IH, fmap_cons, zsum_cons. f_equal. lia.
Qed.

Lemma report_fields id client symbol fs leaves et reason :
  let rep := report_message id client symbol fs leaves et reason in
  er_last_quantity rep = i64 (filled fs) ∧ er_leaves_quantity rep = leaves ∧
  er_exec_type rep = exec_code et ∧ er_reject_reason rep = reject_code reason.
Proof.
  unfold report_message. pose proof (report_totals_filled fs) as Ht.
  by destruct (report_totals fs) as [[??]?].
Qed.

(** The rows of [report_accounts] once the execution type is known. *)
Ltac account_cases :=
  repeat split; intros; destruct_and?; destruct_or?; first [done | congruence | lia].

Lemma exec_code_inj a b : exec_code a = exec_code b ↔ a = b.
Proof. split; [by destruct a, b|congruence]. Qed.

Lemma reject_code_inj a b : reject_code a = reject_code b ↔ a = b.
Proof. split; [by destruct a, b|congruence]. Qed.

Lemma reject_code_eqb a b : (reject_code a =? reject_code b)%Z = bool_decide (a = b).
Proof. by destruct a, b. Qed.

Lemma submit_accounts e order r e' fs :
  engine_ok sym base e → amounts_typed order → submit NumLevels e order [] = (r, e', fs) →
  (filled fs + remaining_after r = ord_quantity order)%Z ∧
  i64 (filled fs) = filled fs ∧ (fs ≠ [] → (0 < filled fs)%Z) ∧
  (reject_reason r = RejNone → (0 ≤ remaining_after r)%Z).
Proof.
  intros Hok Hty E.
  destruct (Engine.submit_inv _ _ _ _ _ _ _ _ _ _ Hok Hty E) as
    [_ [(Hrej&_&->&_&_&->)|(_&Hpos&_&Ht)]].
  { cbn. split_and!; try done. intros Hn. rewrite Hn in Hrej. set_solver. }
  destruct (Engine.spec_take_inv _ _ _ _ _ _ _ _ _ Ht) as (fs'&rem&rest&Em&->&_&->&_).
  destruct (Engine.engine_open _ _ _ _ _ (opposite (ord_side order)) Hok) as [Hopen _].
  destruct (spec_match_range _ _ _ _ _ _ _ Hopen (Z.lt_le_incl _ _ Hpos) Em) as [Hr Hfq].
  destruct (spec_match_conserves _ _ _ _ _ _ _ Em) as [Hsum _]. destruct Hty as [_ Hq].
  rewrite app_nil_l. split_and!; [lia| | |lia].
  - apply i64_id. unfold is_i64 in *. lia.
  - intros Hne. destruct Hfq as [|f fs Hf Hfs]; [done|]. unfold filled. rewrite fmap_cons, zsum_cons.
    assert (0 ≤ zsum (fill_quantity <$> fs))%Z; [|lia]. apply zsum_nonneg, Forall_fmap.
    eapply Forall_impl; [exact Hfs|]. cbn. lia.
Qed.

(** The own side of a submitted order: what is left of it has joined the
    queue, or nothing has changed. *)
Lemma submit_rests e order r e' fs :
  engine_ok sym base e → amounts_typed order → submit NumLevels e order [] = (r, e', fs) →
  let s := ord_side order in
  a_side (abs_of e') s =
    if bool_decide (reject_reason r = RejNone) && (0 <? remaining_after r)%Z &&
      bool_decide (ord_type order = Limit) && bool_decide (ord_tif order = Day)
    then BookSpec.insert s (set_remaining (remaining_after r) order) (a_side (abs_of e) s)
    else a_side (abs_of e) s.
Proof.
  intros Hok Hty E s.
  destruct (Engine.submit_inv _ _ _ _ _ _ _ _ _ _ Hok Hty E) as
    [_ [(Hrej&->&_&_&_&_)|(_&_&_&Ht)]].
  { rewrite bool_decide_eq_false_2; [done|]. intros Hn. rewrite Hn in Hrej. set_solver. }
  rewrite <- (Engine.spec_take_rests _ _ _ _ _ _ _ _ _ Ht).
  by destruct (Engine.spec_take_inv _ _ _ _ _ _ _ _ _ Ht) as (fs'&rem&rest&_&_&_&->&_&Es&_).
Qed.

Lemma new_order_accounts st wire ts :
  ready st → request_ok (ReqNew wire ts) →
  ∃ rep evs fs, stepped st evs fs rep (process_new_order NumLevels st wire ts) ∧
    er_order_id rep = no_order_id wire ∧ report_accounts (no_quantity wire) rep ∧
    let order := order_of_wire wire (next_sequence st) ts in
    leaves_open order rep (a_side (abs_of (matching st)) (ord_side order))
      (a_side (abs_of (matching (process_new_order NumLevels st wire ts))) (ord_side order)).
Proof.
  intros Hrd Hrq. unfold process_new_order. cbv zeta.
  destruct (order_of_wire_ok wire (next_sequence st) ts Hrq) as (Hty&Hid&Hsy).
  set (order := order_of_wire _ _ _) in *.
  change (no_order_id wire) with (ord_id order). change (no_quantity wire) with (ord_quantity order).
  clearbody order. destruct (negb _) eqn:Hg.
  - set (reason := Risk.check_new_order _ order) in *. bool_to_prop.
    set (rep := report_message (ord_id order) (ord_client order) (ord_symbol order) []
      (ord_quantity order) ExRejected reason).
    do 3 eexists. split; [apply report_only; try done; [apply Hid|apply Hid|apply Hty]|].
    split; [by apply report_order_id|].
    destruct (report_fields (ord_id order) (ord_client order) (ord_symbol order) []
      (ord_quantity order) ExRejected reason) as (E1&E2&E3&E4). fold rep in E1, E2, E3, E4 |- *.
    split; cycle 1.
    { unfold leaves_open, stays_open. by rewrite E4, reject_code_eqb, bool_decide_eq_false_2. }
    unfold report_accounts. rewrite E1, E2, E3, E4, !exec_code_inj, !reject_code_inj.
    account_cases.
  - destruct (match_and_publish_stepped (take_sequence st) order) as (r&e'&fs&evs&E&Hst); try done;
      [by destruct Hrd|].
    destruct (submit_accounts _ _ _ _ _ (rd_engine _ Hrd) Hty E) as (Hsum&Hf&Hne&Hrem).
    do 3 eexists. split; [exact Hst|]. split; [by apply report_order_id|].
    destruct (report_fields (ord_id order) (ord_client order) (ord_symbol order) fs
      (remaining_after r) (new_exec_type r fs) (reject_reason r)) as (E1&E2&E3&E4).
    split; cycle 1.
    { rewrite match_and_publish_matching, E. unfold leaves_open, stays_open.
      rewrite E2, E4, reject_code_eqb. by apply (submit_rests _ _ _ _ fs (rd_engine _ Hrd)). }
    unfold report_accounts. rewrite E1, E2, E3, E4, !exec_code_inj, !reject_code_inj, Hf.
    unfold new_exec_type. destruct (decide (reject_reason r = RejNone)) as [Hj|Hj].
    2: { rewrite bool_decide_eq_false_2 by done. cbn [negb]. account_cases. }
    rewrite bool_decide_eq_true_2 by done. cbn [negb]. specialize (Hrem Hj).
    destruct (Z.eqb_spec (remaining_after r) 0); [account_cases|].
    destruct (decide (fs = [])) as [-> |Hfs].
    + rewrite bool_decide_eq_true_2 by done. cbn [negb]. destruct (rested r); account_cases.
    + rewrite bool_decide_eq_false_2 by done. cbn [negb]. specialize (Hne Hfs). account_cases.
Qed.

(** A request is always processed, and the next one can follow. *)
Lemma stepped_ready st evs fs rep st' : stepped st evs fs rep st' → ready st'.
Proof.
  intros (st0&keys&_&_&Hok&Hids&_&_&_&Hem).
  split; rewrite ?(em_matching _ _ _ _ _ Hem); try done. by eapply emits_u64.
Qed.

Lemma process_ready st rq : ready st → request_ok rq → ready (process NumLevels st rq).
Proof.
  intros Hrd Hrq. destruct (process_stepped st rq Hrd Hrq) as (rep&evs&Hst&_).
  by eapply stepped_ready.
Qed.

(** *** Trading halts *)

Definition not_replace (rq : request) : Prop :=
  match rq with ReqReplace _ _ => False | _ => True end.

Lemma process_cancel_matching st wire :
  engine_ok sym base (matching st) →
  matching (process_cancel NumLevels st wire) =
  (Matching.cancel (matching st) (co_order_id wire)).2.
Proof.
  intros Hok. unfold process_cancel, find, Matching.cancel.
  destruct (hm_find _ _) as [p|] eqn:Hf.
  - destruct (OrderBook.cancel _ _) as [[?|?] b]; [done|]. cbn [cancel_accepted].
    unfold publish_level. by destruct (level_at _ _ _ _).
  - rewrite cancel_unknown by done. cbn. by destruct (matching st).
Qed.

Lemma halted_step st rq :
  ready st → Risk.kill_switch (risk st) = true → request_ok rq → not_replace rq →
  let st' := process NumLevels st rq in
  ready st' ∧ risk st' = risk st ∧
  ∀ s o, o ∈ a_side (abs_of (matching st')) s → o ∈ a_side (abs_of (matching st)) s.
Proof.
  intros Hrd Hk Hrq Hnr st'. split; [by apply process_ready|]. unfold st'.
  destruct rq as [wire ts|wire|]; [| |done]; cbn [process].
  - unfold process_new_order. cbv zeta. set (order := order_of_wire _ _ _).
    replace (Risk.check_new_order (risk (take_sequence st)) order)
      with RiskKillSwitch by (unfold Risk.check_new_order; cbn; by rewrite Hk).
    rewrite bool_decide_eq_false_2 by done. done.
  - destruct Hrd as [Hok Hids Hn]. split.
    + unfold process_cancel. destruct (find _ _); [|done]. destruct (Matching.cancel _ _) as [[[]] e'];
        cbn [cancel_accepted]; [|done]. unfold publish_level. by destruct (level_at _ _ _ _).
    + intros s o. rewrite process_cancel_matching by done.
      destruct (cancel_spec _ _ _ _ _ (co_order_id wire) Hok) as (r&e'&->&_&Hs). cbn [snd].
      revert Hs. unfold spec_cancel. generalize (abs_of (matching st)) as A, (abs_of e') as A'.
      intros A A' Hs Ho. destruct (a_find A _); injection Hs as _ <-; [|done].
      by destruct s; cbn in Ho; apply remove_elem in Ho as [? _].
Qed.

Lemma halted_run st rqs :
  ready st → Risk.kill_switch (risk st) = true → Forall request_ok rqs → Forall not_replace rqs →
  let st' := run NumLevels st rqs in
  risk st' = risk st ∧
  ∀ s o, o ∈ a_side (abs_of (matching st')) s → o ∈ a_side (abs_of (matching st)) s.
Proof.
  intros Hrd Hk Hrqs. revert st Hrd Hk. induction Hrqs as [|rq rqs Hrq Hrqs IH];
    intros st Hrd Hk Hnr; [done|]. apply Forall_cons in Hnr as [Hn1 Hn2].
  destruct (halted_step st rq Hrd Hk Hrq Hn1) as (Hrd1&Er1&Hsub1).
  destruct (IH (process NumLevels st rq) Hrd1) as (Er2&Hsub2); [by rewrite Er1|done|].
  unfold run in *. cbn [foldl]. split; [congruence|]. intros s o Ho. by apply Hsub1, Hsub2.
Qed.

(** ** Runs *)

(** Everything published so far and what it amounts to. *)
Record history (r0 : Risk.t R) st (evs : list event) (fs : list Fill) : Prop := {
  hi_ready : ready st;
  hi_data : sink_data (sink (feed st)) = feed_bytes evs;
  hi_typed : Forall event_typed evs;
  hi_numbers : consecutive 1 (omap event_sequence evs) (feed_sequence st);
  hi_view s price :
    book_view evs !! (side_code s, price) = depth (a_side (abs_of (matching st)) s) price;
  hi_risk : risk st = foldl Risk.record_leg r0 (concat (fill_legs sym <$> fs));
  hi_prints : omap event_print evs = print_of <$> fs;
  hi_fills : Engine.numbered 1 fs (next_match_id (matching st));
}.

Lemma stepped_history r0 st evs0 fs0 evs fs rep st' :
  history r0 st evs0 fs0 → stepped st evs fs rep st' →
  history r0 st' (evs0 ++ evs) (fs0 ++ fs) ∧ omap event_report evs = [rep].
Proof.
  intros [[Hok _ _] Hd Ht Hn Hv Hr Hp Hf] (st0&keys&Ef&Er&Hok'&Hids'&Hch&Hcov&Hnum&Hem).
  pose proof (emits_u64 _ _ _ _ _ Hem) as Hu.
  destruct Hem as [E1 E2 E3 E4 E5 E6 E7 E8 E9]. rewrite Ef in *. split; [|done]. split.
  - split; rewrite ?E1; done.
  - unfold published in E3. by rewrite E3, Hd, feed_bytes_app.
  - by apply Forall_app.
  - rewrite omap_app. by eapply consecutive_app.
  - intros s price. unfold book_view. rewrite foldl_app, E1.
    apply (view_tells NumLevels MaxOrders (matching st0)); [done|].
    destruct (decide ((s, price) ∈ keys)) as [Hk|Hk].
    + destruct (in_range NumLevels base price) eqn:Hin; [right; by apply Hcov|left].
      fold (book_view evs0). by rewrite Hv, !off_ladder.
    + left. fold (book_view evs0). rewrite Hv. unfold depth. by rewrite (Hch s price Hk).
  - by rewrite E7, Er, Hr, fmap_app, concat_app, foldl_app.
  - by rewrite omap_app, fmap_app, Hp, E8.
  - unfold Engine.numbered in *. rewrite fmap_app, E1. by eapply consecutive_app.
Qed.

Lemma run_history r0 st evs0 fs0 rqs :
  history r0 st evs0 fs0 → Forall request_ok rqs →
  ∃ evs, history r0 (run NumLevels st rqs) (evs0 ++ evs) (fs0 ++ run_fills NumLevels st rqs) ∧
    er_order_id <$> omap event_report evs = request_id <$> rqs.
Proof.
  intros Hh Hrqs. revert st evs0 fs0 Hh. induction Hrqs as [|rq rqs Hrq Hrqs IH]; intros st evs0 fs0 Hh.
  { exists []. cbn [run_fills]. by rewrite !app_nil_r. }
  destruct (process_stepped st rq (hi_ready _ _ _ _ Hh) Hrq) as (rep&evs1&Hst&Hid).
  destruct (stepped_history _ _ _ _ _ _ _ _ Hh Hst) as [Hh1 Hrep].
  destruct (IH _ _ _ Hh1) as (evs&Hh2&Hids).
  exists (evs1 ++ evs). cbn [run_fills]. rewrite !app_assoc. split; [done|].
  by rewrite omap_app, fmap_app, Hrep, Hids, !fmap_cons, Hid.
Qed.

(** ** A session from the start *)

Context (lims : Risk.Limits) (s0 : S) (scratch : nat).

Definition session : Replay.t M R S :=
  Replay.create (Matching.create NumLevels MaxOrders sym base) (Risk.create lims)
    (Publisher.create s0 scratch).

Lemma session_history :
  Engine.config_ok NumLevels MaxOrders base → sink_data s0 = [] →
  history (Risk.create lims) session [] [].
Proof.
  intros (Hg&Hm&Hc) Hs0. pose proof (create_engine_ok _ _ sym base Hg Hm Hc) as Hok.
  assert (is_u64 1) as H1 by (unfold is_u64; lia).
  assert (∀ s, a_side (abs_of (matching session)) s = []) as Hq.
  { intros s. rewrite abs_side. apply create_queue. }
  split; try done; try by apply consecutive_nil.
  - split; [done| |done]. intros s o. rewrite Hq. set_solver.
  - intros s price. rewrite Hq. apply lookup_empty.
Qed.

Lemma session_run rqs :
  Engine.config_ok NumLevels MaxOrders base → sink_data s0 = [] → Forall request_ok rqs →
  let st := run NumLevels session rqs in
  ∃ evs, history (Risk.create lims) st evs (run_fills NumLevels session rqs) ∧
    read_feed (sink_data (sink (feed st))) = evs ∧
    er_order_id <$> omap event_report evs = request_id <$> rqs.
Proof.
  intros Hc Hs0 Hrqs st.
  destruct (run_history _ _ _ _ rqs (session_history Hc Hs0) Hrqs) as (evs&Hh&Hids).
  fold st in Hh. exists evs. split_and!; try done.
  rewrite (hi_data _ _ _ _ Hh). apply read_feed_bytes, Hh.
Qed.

(** C4: market data is complete and exact.  After any sequence of requests, a
    subscriber that decodes the published bytes and applies the level
    updates holds, for each side and price, exactly the volume and number of
    the orders resting there, and nothing for prices without orders. *)
Theorem feed_rebuilds_book rqs :
  Engine.config_ok NumLevels MaxOrders base → sink_data s0 = [] → Forall request_ok rqs →
  let st := run NumLevels session rqs in
  ∀ s price, book_view (read_feed (sink_data (sink (feed st)))) !! (side_code s, price) =
    depth (OrderBook.queue NumLevels MaxOrders (book (matching st)) s) price.
Proof.
  intros Hc Hs0 Hrqs st s price. destruct (session_run rqs Hc Hs0 Hrqs) as (evs&Hh&Hfd&_).
  fold st in Hfd. rewrite Hfd, (hi_view _ _ _ _ Hh), abs_side. done.
Qed.

(** C30: the feed has no gaps and no request goes unanswered: trades and level
    updates carry the sequence numbers 1, 2, 3, ... in the order of the bytes
    (modulo 2^64), and the execution reports are, one for one and in order,
    those of the requests. *)
Theorem feed_gapless rqs :
  Engine.config_ok NumLevels MaxOrders base → sink_data s0 = [] → Forall request_ok rqs →
  let evs := read_feed (sink_data (sink (feed (run NumLevels session rqs)))) in
  (∀ k n, omap event_sequence evs !! k = Some n → n = u64 (1 + Z.of_nat k)) ∧
  er_order_id <$> omap event_report evs = request_id <$> rqs.
Proof.
  intros Hc Hs0 Hrqs. destruct (session_run rqs Hc Hs0 Hrqs) as (evs&Hh&Hfd&Hids).
  cbv zeta. rewrite Hfd. split; [apply (hi_numbers _ _ _ _ Hh)|exact Hids].
Qed.

(** C28: the execution report of a new order accounts for it: after any earlier
    requests, exactly one report is appended for the order; the filled and
    the leaves quantity it states add up to the quantity asked for, whether
    the order was refused, filled, rested or dropped, and its type and reason
    agree with them.  The leaves quantity is open in the book only if the
    order was accepted and is a day limit order: then it joins the queue of
    its side with exactly that quantity; otherwise (refused, or the rest of a
    market, immediate-or-cancel or fill-or-kill order dropped) that side is
    left as it was, although messages.hpp calls the field the remaining open
    quantity. *)
Theorem new_order_report rqs wire ts :
  Engine.config_ok NumLevels MaxOrders base → sink_data s0 = [] → Forall request_ok rqs →
  request_ok (ReqNew wire ts) →
  let st := run NumLevels session rqs in
  let st' := process_new_order NumLevels st wire ts in
  let order := order_of_wire wire (next_sequence st) ts in
  let queue st := OrderBook.queue NumLevels MaxOrders (book (matching st)) (ord_side order) in
  ∃ rep, omap event_report (read_feed (sink_data (sink (feed st')))) =
      omap event_report (read_feed (sink_data (sink (feed st)))) ++ [rep] ∧
    er_order_id rep = no_order_id wire ∧ report_accounts (no_quantity wire) rep ∧
    leaves_open order rep (queue st) (queue st').
Proof.
  intros Hc Hs0 Hrqs Hrq st st' order queue. destruct (session_run rqs Hc Hs0 Hrqs) as (evs&Hh&Hfd&_).
  fold st in Hh.
  destruct (new_order_accounts st wire ts (hi_ready _ _ _ _ Hh) Hrq)
    as (rep&evs'&fs'&Hst&Hid&Ha&Hq).
  assert (history (Risk.create lims) st' (evs ++ evs') (run_fills NumLevels session rqs ++ fs') ∧
    omap event_report evs' = [rep]) as [Hh' Hrep] by by eapply stepped_history.
  exists rep. split_and!; try done.
  - rewrite (hi_data _ _ _ _ Hh'), (hi_data _ _ _ _ Hh), !read_feed_bytes by (apply Hh || apply Hh').
    by rewrite omap_app, Hrep.
  - cbv zeta in Hq. rewrite !abs_side in Hq. exact Hq.
Qed.

(** C29: the kill switch halts order entry: once it is engaged, any number of new
    orders and cancels trades nothing (every exposure stays as it is) and
    adds nothing to the book: the orders resting afterwards are among the
    orders resting before. *)
Theorem kill_switch_halts rqs rqs' :
  Engine.config_ok NumLevels MaxOrders base → sink_data s0 = [] → Forall request_ok rqs →
  Forall request_ok rqs' → Forall not_replace rqs' →
  let st := run NumLevels session rqs in
  let halted := set_risk (Risk.engage_kill_switch (risk st)) st in
  let st' := run NumLevels halted rqs' in
  risk st' = risk halted ∧
  ∀ s o, o ∈ OrderBook.queue NumLevels MaxOrders (book (matching st')) s →
    o ∈ OrderBook.queue NumLevels MaxOrders (book (matching st)) s.
Proof.
  intros Hc Hs0 Hrqs Hrqs' Hnr st halted st'.
  destruct (session_run rqs Hc Hs0 Hrqs) as (evs&Hh&_).
  destruct (halted_run halted rqs') as (Er&Hsub); try done.
  { pose proof (hi_ready _ _ _ _ Hh) as [? ? ?]. by split. }
  split; [done|]. intros s o Ho. specialize (Hsub s o). rewrite !abs_side in Hsub. by apply Hsub.
Qed.

Context `{!HashMapLaws Z Risk.ClientExposure R}.

(** C12: risk and market data follow the matching engine: let the fills of a
    run be what [submit] and [replace] returned for its requests, in order.
    The trade prints of the feed show them one for one, their match ids
    count from 1, and the exposure of every client is the ledger in which
    each of these fills is booked twice, to the client of the resting order
    and to the client of the incoming one, on opposite sides. *)
Theorem risk_follows_trades rqs :
  Engine.config_ok NumLevels MaxOrders base → sink_data s0 = [] → Forall request_ok rqs →
  let st := run NumLevels session rqs in
  let fs := run_fills NumLevels session rqs in
  omap event_print (read_feed (sink_data (sink (feed st)))) = print_of <$> fs ∧
  (∀ k f, fs !! k = Some f → match_id f = u64 (1 + Z.of_nat k)) ∧
  ∀ client, let key := Risk.account_key client sym in
    hm_find (Risk.exposure (risk st)) key =
      Risk.ledger (Risk.legs_of key (concat (fill_legs sym <$> fs))).
Proof.
  intros Hc Hs0 Hrqs st fs. destruct (session_run rqs Hc Hs0 Hrqs) as (evs&Hh&Hfd&_).
  fold st fs in Hh, Hfd. rewrite Hfd. split_and!; [apply Hh| |].
  - intros k f Hk. destruct (hi_fills _ _ _ _ Hh) as [_ H]. apply H. by rewrite list_lookup_fmap, Hk.
  - intros client key. rewrite (hi_risk _ _ _ _ Hh). apply Risk.record_ledger.
Qed.

End feed.

(** ** A concrete session *)

(** Client 1 offers 5 at 102, client 2 bids 3 at 101, client 3 buys 4 at 103,
    client 2 moves its bid to 102, client 2 cancels. *)
Definition demo_requests : list request :=
  [ReqNew (mkNewOrder 1 102 5 1 7 1 0 0 0) 10; ReqNew (mkNewOrder 2 101 3 2 7 0 0 0 0) 11;
   ReqNew (mkNewOrder 3 103 4 3 7 0 0 1 0) 12; ReqReplace (mkReplaceOrder 2 102 3 2 7) 13;
   ReqCancel (mkCancelOrder 2 2 7)].

Definition demo_lims : Risk.Limits := Risk.mkLimits 100 1000 (-100000).

Definition demo_session : Replay.t (gmap Z nat) (gmap Z Risk.ClientExposure) InMemorySink.t :=
  session 8 4 7 100 demo_lims InMemorySink.create 64.

Definition demo_state : Replay.t (gmap Z nat) (gmap Z Risk.ClientExposure) InMemorySink.t :=
  run 8 demo_session demo_requests.

Lemma feed_demo_config : Engine.config_ok 8 4 100.
Proof. unfold Engine.config_ok, geometry, is_i64. lia. Qed.

Lemma empty_sink : sink_data InMemorySink.create = [].
Proof. done. Qed.

Ltac request_typed :=
  split_and?; try (by left); try (by right); try done; cbn; split_and?; unfold is_u64, is_i64, is_u32, is_u8, Wire.fits; cbn; try lia.

Lemma demo_requests_ok : Forall request_ok demo_requests.
Proof. repeat (apply Forall_cons; split; [cbn [request_ok]; request_typed|]). apply Forall_nil. done. Qed.

Lemma feed_rebuilds_book_witness :
  book_view (read_feed (sink_data (sink (feed demo_state)))) !! (0, 102)%Z = None.
Proof.
  pose proof (feed_rebuilds_book 8 4 7 100 (M := gmap Z nat) (R := gmap Z Risk.ClientExposure)
    ltac:(unfold is_u32; lia) demo_lims InMemorySink.create 64 demo_requests feed_demo_config
    empty_sink demo_requests_ok Buy 102%Z) as H.
  etrans; [exact H|]. vm_compute. reflexivity.
Defined.

Lemma feed_gapless_witness :
  er_order_id <$> omap event_report (read_feed (sink_data (sink (feed demo_state)))) =
    [1; 2; 3; 2; 2]%Z ∧
  omap event_sequence (read_feed (sink_data (sink (feed demo_state)))) !! 3 = Some 4%Z.
Proof.
  destruct (feed_gapless 8 4 7 100 (M := gmap Z nat) (R := gmap Z Risk.ClientExposure)
    ltac:(unfold is_u32; lia) demo_lims InMemorySink.create 64 demo_requests feed_demo_config
    empty_sink demo_requests_ok) as (_&H).
  split; [exact H|]. vm_compute. reflexivity.
Defined.

Lemma new_order_report_witness :
  ∃ rep, er_order_id rep = 9%Z ∧ (er_last_quantity rep + er_leaves_quantity rep = 6)%Z ∧
    let order := order_of_wire (mkNewOrder 9 102 6 4 7 0 0 0 0) 5 20 in
    leaves_open order rep
      (OrderBook.queue 8 4 (book (matching demo_state)) Buy)
      (OrderBook.queue 8 4 (book (matching (process_new_order 8 demo_state
         (mkNewOrder 9 102 6 4 7 0 0 0 0) 20))) Buy).
Proof.
  destruct (new_order_report 8 4 7 100 (M := gmap Z nat) (R := gmap Z Risk.ClientExposure)
    ltac:(unfold is_u32; lia) demo_lims InMemorySink.create 64 demo_requests
    (mkNewOrder 9 102 6 4 7 0 0 0 0) 20 feed_demo_config empty_sink demo_requests_ok
    ltac:(cbn [request_ok]; request_typed)) as (rep&_&Hid&(Hsum&_)&Hq).
  exists rep. split; [exact Hid|]. split; [exact Hsum|exact Hq].
Defined.

(** An immediate-or-cancel buy of 6 where 1 is offered: the report's leaves
    quantity is 5, and no bid is in the book. *)
Lemma dropped_leaves_reported :
  let st := run 8 demo_session [ReqNew (mkNewOrder 1 102 1 1 7 1 0 0 0) 10] in
  let st' := process_new_order 8 st (mkNewOrder 2 102 6 2 7 0 0 1 0) 11 in
  er_leaves_quantity <$> last (omap event_report (read_feed (sink_data (sink (feed st'))))) =
    Some 5%Z ∧
  OrderBook.queue 8 4 (book (matching st')) Buy = [].
Proof. vm_compute. split; reflexivity. Qed.

Lemma risk_follows_trades_witness :
  let fs := run_fills 8 demo_session demo_requests in
  (λ f, (resting_client_id f, aggressor_client_id f, fill_quantity f)) <$> fs =
    [(1, 3, 4); (1, 2, 1)]%Z ∧
  omap event_print (read_feed (sink_data (sink (feed demo_state)))) = print_of <$> fs ∧
  Risk.ledger (Risk.legs_of (Risk.account_key 3 7) (concat (fill_legs 7 <$> fs))) =
    hm_find (Risk.exposure (risk demo_state)) (Risk.account_key 3 7) ∧
  Risk.position (risk demo_state) 3 7 = 4%Z.
Proof.
  destruct (risk_follows_trades 8 4 7 100 (M := gmap Z nat) (R := gmap Z Risk.ClientExposure)
    ltac:(unfold is_u32; lia) demo_lims InMemorySink.create 64 demo_requests feed_demo_config
    empty_sink demo_requests_ok) as (H&_&Hl).
  cbv zeta. split; [vm_compute; reflexivity|]. split; [exact H|].
  split; [symmetry; exact (Hl 3%Z)|vm_compute; reflexivity].
Defined.

Lemma kill_switch_halts_witness :
  Risk.position (risk (run 8 (set_risk (Risk.engage_kill_switch (risk demo_state)) demo_state)
    [ReqNew (mkNewOrder 9 102 6 4 7 0 0 0 0) 20; ReqCancel (mkCancelOrder 1 1 7)])) 4 7 = 0%Z.
Proof.
  destruct (kill_switch_halts 8 4 7 100 (M := gmap Z nat) (R := gmap Z Risk.ClientExposure)
    ltac:(unfold is_u32; lia) demo_lims InMemorySink.create 64 demo_requests
    [ReqNew (mkNewOrder 9 102 6 4 7 0 0 0 0) 20; ReqCancel (mkCancelOrder 1 1 7)]
    feed_demo_config empty_sink demo_requests_ok) as (Er&_).
  - repeat (apply Forall_cons; split; [cbn [request_ok]; request_typed|]). apply Forall_nil. done.
  - repeat (apply Forall_cons; split; [exact I|]). apply Forall_nil. done.
  - unfold demo_state, demo_session. cbv zeta in Er. rewrite Er. vm_compute. reflexivity.
Defined.

(** ** What the risk gate governs *)

Section gate.
Context (NumLevels : nat) {M R S : Type} `{!HashMap Z nat M}.
Context `{!HashMap Z Risk.ClientExposure R} `{!Sink S}.
Context (lims : Risk.Limits) (kill : bool).
Implicit Types (st : Replay.t M R S).

(** The same state under other limits and another kill switch. *)
Definition set_gate st : Replay.t M R S :=
  set_risk (Risk.mk lims kill (Risk.exposure (risk st))) st.

(** An operation the gate does not govern: it does the same to the book,
    the exposures, the feed and the counters whatever the limits and the
    kill switch are, and leaves these alone. *)
Definition ungated (step : Replay.t M R S → Replay.t M R S) : Prop :=
  ∀ st, step (set_gate st) = set_gate (step st).

Lemma ungated_publish_level symbol side price :
  ungated (λ st, publish_level NumLevels st symbol side price).
Proof. intros st. unfold publish_level. cbn. by destruct (level_at _ _ _ _). Qed.

Lemma ungated_publish_report id client symbol fs leaves et reason :
  ungated (λ st, publish_report st id client symbol fs leaves et reason).
Proof. done. Qed.

Lemma ungated_apply_fills symbol fs : ungated (λ st, apply_fills NumLevels st symbol fs).
Proof.
  unfold apply_fills. induction fs as [|f fs IH]; intros st; [done|]. cbn [foldl].
  rewrite <- IH. f_equal. unfold apply_fill. cbv zeta. rewrite <- ungated_publish_level. done.
Qed.

Lemma process_replace_gate wire ts : ungated (λ st, process_replace NumLevels st wire ts).
Proof.
  intros st. unfold process_replace. cbn [matching set_gate set_risk].
  destruct (find _ _) as [p|]; [|done]. cbn [matching take_sequence set_gate set_risk next_sequence].
  destruct (Matching.replace _ _ _ _ _ _ _ _) as [[res e] fs]. destruct (negb _); [done|].
  set (st0 := set_matching e fs (take_sequence st)).
  change (set_matching e fs (take_sequence (set_gate st))) with (set_gate st0).
  rewrite ungated_apply_fills, ungated_publish_level.
  destruct (rep_rested res); by rewrite ?ungated_publish_level.
Qed.

Lemma process_cancel_gate wire : ungated (λ st, process_cancel NumLevels st wire).
Proof.
  intros st. unfold process_cancel. cbn [matching set_gate set_risk].
  destruct (find _ _) as [p|]; [|done]. destruct (Matching.cancel _ _) as [[[]] e]; [|done].
  cbn [cancel_accepted]. set (st0 := set_matching e _ st).
  change (set_matching e _ (set_gate st)) with (set_gate st0). by rewrite ungated_publish_level.
Qed.

Lemma set_gate_matching st : matching (set_gate st) = matching st.
Proof. done. Qed.

Definition not_new (rq : request) : Prop :=
  match rq with ReqNew _ _ => False | _ => True end.

(** C40: the risk gate governs new orders only.  From any state, a sequence of
    cancels and replaces does the same under any limits and with the kill
    switch in either position: the same book, the same fills booked to the
    same exposures, the same bytes published.  In particular no limit and no
    kill switch stops a replace from enlarging an order or from trading. *)
Theorem replace_bypasses_gate st rqs :
  Forall not_new rqs → run NumLevels (set_gate st) rqs = set_gate (run NumLevels st rqs).
Proof.
  intros Hrqs. revert st. induction Hrqs as [|rq rqs Hrq Hrqs IH]; intros st; [done|].
  unfold run in *. cbn [foldl]. rewrite <- IH. f_equal.
  destruct rq; [done|apply process_cancel_gate|apply process_replace_gate].
Qed.

End gate.

(** A resting bid of client 2 (limit 5) and offers above it. *)
Definition bypass_state : Replay.t (gmap Z nat) (gmap Z Risk.ClientExposure) InMemorySink.t :=
  run 8 (session 8 4 7 100 (Risk.mkLimits 5 5 0) InMemorySink.create 64)
    [ReqNew (mkNewOrder 1 102 5 1 7 1 0 0 0) 1; ReqNew (mkNewOrder 2 103 5 3 7 1 0 0 0) 2;
     ReqNew (mkNewOrder 3 101 1 2 7 0 0 0 0) 3].

(** The kill switch is engaged; client 2 replaces its bid of 1 by one of 10
    that crosses, and ends at twice its position limit, as it would have
    without limits. *)
Lemma replace_bypasses_gate_witness :
  let halted := set_gate (Risk.mkLimits 5 5 0) true bypass_state in
  let rqs := [ReqReplace (mkReplaceOrder 3 103 10 2 7) 4] in
  Risk.position (risk (run 8 halted rqs)) 2 7 = 10%Z ∧
  matching (run 8 halted rqs) = matching (run 8 bypass_state rqs).
Proof.
  cbv zeta. rewrite (replace_bypasses_gate 8 (Risk.mkLimits 5 5 0) true bypass_state)
    by (repeat constructor).
  split; [vm_compute; reflexivity|apply set_gate_matching].
Defined.

(** A bid of client 1, then an order of client 2 with the side byte 2. *)
Definition stray_state : Replay.t (gmap Z nat) (gmap Z Risk.ClientExposure) InMemorySink.t :=
  run 8 demo_session
    [ReqNew (mkNewOrder 1 102 5 1 7 0 0 0 0) 1; ReqNew (mkNewOrder 2 102 5 2 7 2 0 0 0) 2].

(** The side byte of a request is not validated: the order trades as a sale
    and the position of its client falls, but its cash falls too, so the
    cash of the venue no longer sums to zero. *)
Lemma stray_side_loses_cash :
  let exposure c := Risk.exposure_at (risk stray_state) (Risk.account_key c 7) in
  (Risk.exp_position (exposure 1%Z), Risk.exp_position (exposure 2%Z)) = (5, -5)%Z ∧
  (Risk.cash_flow (exposure 1%Z), Risk.cash_flow (exposure 2%Z)) = (-510, -510)%Z.
Proof. vm_compute. split; reflexivity. Qed.

End Feed.
