(* ===== verification/Ingress.v ===== *)
(** * Order entry (docs/architecture.md, "Tracing one order end to end")

    The exchange put together: client threads push messages into their
    rings, the sequencer thread drains them round robin and calls the replay
    engine on each, with a timestamp of the clock for the calls that take
    one.  Nothing under src/ puts the two together: the document gives the
    call for a new order, [process_new_order(msg, clock.tick())], and
    [handle] treats the other two messages alike, with a tick for a replace,
    whose call takes a timestamp, and none for a cancel.  The rings are those of FanInWeak.v, with the memory orders of the
    source; everything behind the drain runs on the sequencer thread and is
    the sequential pipeline of Replay.v.  What it handles is right, by
    FanInWeak.v, and it handles everything in time, by FanInLive.v. *)

From S2P Require Import Prelude Types Level HashMap OrderBook Matching Exchange Engine Risk.
From S2P Require Import Wire Protocol Paced Spsc WeakMem SpscWeak FanInWeak FanInLive Sinks Publisher Clock.
From S2P Require Import Replay Feed.
From stdpp Require Import base tactics numbers list gmap.

Set Default Goal Selector "!".

Module Ingress.
Import Matching Protocol Publisher Replay.

#[local] Existing Instances FanInWeak.client_eq_dec FanInWeak.index_eq_dec.

(** What a client can send. *)
Inductive message :=
  | MsgNew (wire : NewOrderMessage)
  | MsgCancel (wire : CancelOrderMessage)
  | MsgReplace (wire : ReplaceOrderMessage).

Definition message_id (m : message) : Z :=
  match m with
  | MsgNew wire => no_order_id wire
  | MsgCancel wire => co_order_id wire
  | MsgReplace wire => ro_order_id wire
  end.

Definition message_ok (m : message) : Prop :=
  match m with
  | MsgNew wire => l_typed wire ∧ is_side (no_side wire)
  | MsgCancel wire => l_typed wire
  | MsgReplace wire => l_typed wire
  end.

Section ingress.
Context (NumProducers Capacity NumLevels : nat).
Context {M R S : Type} `{!HashMap Z nat M} `{!HashMap Z Risk.ClientExposure R} `{!Sink S}.

Record t := mk {
  entry : FanInWeak.config (T := message);
  clock : DeterministicClock.t;
  exchange : Replay.t M R S;
}.

(** The call the sequencer makes for a message; for cancels and replaces the
    choice is the model's. *)
Definition handle (clock : DeterministicClock.t) (st : Replay.t M R S) (m : message)
    : DeterministicClock.t * Replay.t M R S :=
  match m with
  | MsgNew wire =>
      let '(ts, clock) := DeterministicClock.tick clock in
      (clock, process_new_order NumLevels st wire ts)
  | MsgCancel wire => (clock, process_cancel NumLevels st wire)
  | MsgReplace wire =>
      let '(ts, clock) := DeterministicClock.tick clock in
      (clock, process_replace NumLevels st wire ts)
  end.

(** A step of a client or of the sequencer in the rings; a message that
    comes out is handled before the sequencer goes on. *)
Inductive step : t → t → Prop :=
  | step_client s i r p o :
      i < NumProducers →
      SpscWeak.pstep Capacity (FanInWeak.queue_site i) (FanInWeak.queue (FanInWeak.state (entry s)) i)
        (FanInWeak.clients (entry s) i) r p o →
      step s (mk (FanInWeak.after_push (entry s) i r p o) (clock s) (exchange s))
  | step_sequencer s q p o clock' st' :
      FanInWeak.sstep NumProducers Capacity (FanInWeak.state (entry s)) (FanInWeak.sequencer (entry s))
        q p o →
      (clock', st') = match o with
                      | Some (Some (m, _)) => handle (clock s) (exchange s) m
                      | _ => (clock s, exchange s)
                      end →
      step s (mk (FanInWeak.after_drain (entry s) q p o) clock' st').

(** ** Schedules *)

(** Who moves next; [k] is the message a load of that move takes. *)
Inductive move := ClientMoves (i : nat) (m : message) (k : nat) | SequencerMoves (k : nat).

(** The move, or nothing if the load may not read that message any more. *)
Definition make_move (s : t) (mv : move) : t :=
  match mv with
  | ClientMoves i m k =>
      match SpscWeak.pnext Capacity (FanInWeak.queue_site i)
              (FanInWeak.queue (FanInWeak.state (entry s)) i) (FanInWeak.clients (entry s) i) m k with
      | Some (r, p, o) =>
          if decide (i < NumProducers)
          then mk (FanInWeak.after_push (entry s) i r p o) (clock s) (exchange s) else s
      | None => s
      end
  | SequencerMoves k =>
      match FanInWeak.snext NumProducers Capacity (FanInWeak.state (entry s))
              (FanInWeak.sequencer (entry s)) k with
      | Some (q, p, o) =>
          let '(clock', st') := match o with
                                | Some (Some (m, _)) => handle (clock s) (exchange s) m
                                | _ => (clock s, exchange s)
                                end in
          mk (FanInWeak.after_drain (entry s) q p o) clock' st'
      | None => s
      end
  end.

Definition play (s : t) (mvs : list move) : t := foldl make_move s mvs.

Context (dflt : message) (start : DeterministicClock.t) (session : Replay.t M R S).

Inductive reachable : t → Prop :=
  | reach_start : reachable (mk (FanInWeak.start dflt) start session)
  | reach_next s s' : reachable s → step s s' → reachable s'.

Lemma make_move_reachable s mv : reachable s → reachable (make_move s mv).
Proof.
  intros Hr. destruct mv as [i m k|k]; cbn [make_move].
  - destruct (SpscWeak.pnext _ _ _ _ _ _) as [[[r p] o]|] eqn:E; [|done].
    case_decide; [|done]. eapply reach_next; [done|].
    by eapply step_client, SpscWeak.pnext_step.
  - destruct (FanInWeak.snext _ _ _ _ _) as [[[q p] o]|] eqn:E; [|done].
    destruct (match o with Some (Some (m, _)) => handle _ _ m | _ => _ end) as [c st] eqn:Eh.
    eapply reach_next; [done|].
    by eapply step_sequencer; [eapply FanInWeak.snext_step|].
Qed.

Lemma play_reachable s mvs : reachable s → reachable (play s mvs).
Proof.
  revert s. induction mvs as [|mv mvs IH]; intros s Hr; [done|]. by apply IH, make_move_reachable.
Qed.

(** ** The requests *)

(** The messages with the timestamps they get. *)
Fixpoint stamp (clock : DeterministicClock.t) (ms : list message) : list request :=
  match ms with
  | [] => []
  | MsgNew wire :: ms =>
      let '(ts, clock) := DeterministicClock.tick clock in ReqNew wire ts :: stamp clock ms
  | MsgCancel wire :: ms => ReqCancel wire :: stamp clock ms
  | MsgReplace wire :: ms =>
      let '(ts, clock) := DeterministicClock.tick clock in ReqReplace wire ts :: stamp clock ms
  end.

Definition handle_all (c : DeterministicClock.t) (st : Replay.t M R S) (ms : list message) :=
  foldl (λ '(c, st) m, handle c st m) (c, st) ms.

Lemma handle_all_run c st ms : (handle_all c st ms).2 = run NumLevels st (stamp c ms).
Proof.
  revert c st. induction ms as [|[] ms IH]; intros c st; [done|..]; apply IH.
Qed.

Lemma stamp_ids c ms : request_id <$> stamp c ms = message_id <$> ms.
Proof. revert c. induction ms as [|[] ms IH]; intros c; cbn; [done|..]; f_equal; apply IH. Qed.

Lemma stamp_ok c ms : Forall message_ok ms → Forall request_ok (stamp c ms).
Proof.
  intros H. revert c. induction H as [|[] ms Hm Hms IH]; intros c; cbn [stamp];
    [done|..]; (constructor; [exact Hm|apply IH]).
Qed.

(** The exchange has handled what came out of the rings. *)
Lemma reachable_handled s :
  reachable s →
  FanInWeak.reachable dflt NumProducers Capacity (entry s) ∧
  (clock s, exchange s) = handle_all start session (FanInWeak.drained (entry s)).*1.
Proof.
  induction 1 as [|s s' _ [IHr IH] Hs]; [by split; [constructor|]|].
  destruct Hs as [s i r p o Hi Hp|s q p o c' st' Hd Hh].
  - split; [by eapply FanInWeak.reach_next, FanInWeak.step_push|exact IH].
  - split; [by eapply FanInWeak.reach_next, FanInWeak.step_drain|].
    cbn [clock exchange entry FanInWeak.after_drain FanInWeak.drained]. rewrite Hh.
    destruct o as [[[m i]|]|]; [|exact IH..]. unfold handle_all in *.
    by rewrite fmap_app, foldl_app, <- IH.
Qed.

(** ** Runs that count the steps of the sequencer *)

Definition client_step (s s' : t) : Prop :=
  step s s' ∧ FanInLive.client_step NumProducers Capacity (entry s) (entry s').

(** The first [visible i] pushes of client [i] are visible to the sequencer. *)
Definition sequencer_step (visible : nat → nat) (s s' : t) : Prop :=
  step s s' ∧ FanInLive.sequencer_step NumProducers Capacity visible (entry s) (entry s').

Definition entry_run (visible : nat → nat) : nat → t → t → Prop :=
  paced client_step (sequencer_step visible).

(** A run with [k] steps of client [i], to which the room made by the first
    [taken] pops of its queue is visible. *)
Definition client_run (i taken : nat) : nat → t → t → Prop :=
  paced (λ s s', step s s' ∧ FanInLive.other_step NumProducers Capacity i (entry s) (entry s'))
    (λ s s', step s s' ∧ FanInLive.own_step Capacity i taken (entry s) (entry s')).

Lemma client_run_rings i taken k s s' :
  client_run i taken k s s' →
  FanInLive.client_run NumProducers Capacity i taken k (entry s) (entry s').
Proof. apply paced_map; intros x y H; apply H. Qed.

Lemma entry_run_rings visible k s s' :
  entry_run visible k s s' → FanInLive.run NumProducers Capacity visible k (entry s) (entry s').
Proof. apply paced_map; intros x y H; apply H. Qed.

Lemma entry_run_reachable visible k s s' : entry_run visible k s s' → reachable s → reachable s'.
Proof.
  intros Hr Hs. revert Hr. apply (paced_preserves _ _ reachable); [| |done];
    intros x y Hx [H _]; by eapply reach_next.
Qed.

Context (n : nat) (Hcap : Capacity = 2 ^ n) (Hn : 1 ≤ n < 63).

(** The sequencer always has a step. *)
Lemma sequencer_steps_on visible s :
  0 < NumProducers → reachable s → (∀ i, visible i ≤ length (FanInWeak.pushed (entry s) i)) →
  ∃ s', sequencer_step visible s s' ∧
    FanInWeak.pushed (entry s') = FanInWeak.pushed (entry s).
Proof.
  intros HN Hr Hv. destruct (reachable_handled s Hr) as [Hf _].
  destruct (FanInLive.sequencer_moves NumProducers Capacity visible (entry s))
    as (c'&Hs).
  - by apply (FanInWeak.fan_in_reachable_ok dflt NumProducers Capacity n Hcap Hn).
  - by apply (FanInLive.fan_in_views_reachable dflt NumProducers Capacity).
  - done.
  - pose proof Hs as Hs'. inversion Hs as [c q p o Hd Ht Ec Ec']. subst c c'.
    destruct (match o with Some (Some (m, _)) => handle (clock s) (exchange s) m
              | _ => (clock s, exchange s) end) as [c1 st1] eqn:Eh.
    exists (mk (FanInWeak.after_drain (entry s) q p o) c1 st1). split; [|done].
    split; [|exact Hs']. by eapply step_sequencer.
Qed.

(** Any number of them, even if the clients do nothing. *)
Lemma entry_run_exists s k :
  0 < NumProducers → reachable s →
  ∃ s', entry_run (λ i, length (FanInWeak.pushed (entry s) i)) k s s' ∧
    FanInWeak.pushed (entry s') = FanInWeak.pushed (entry s).
Proof.
  intros HN Hr. set (visible := λ i, length (FanInWeak.pushed (entry s) i)).
  assert (∀ i, visible i ≤ length (FanInWeak.pushed (entry s) i)) as Hv by done.
  clearbody visible. revert s Hr Hv. induction k as [|k IH]; intros s Hr Hv.
  - exists s. split; [constructor|done].
  - destruct (sequencer_steps_on visible s HN Hr Hv) as (s1&Hs1&E1).
    destruct (IH s1) as (s2&Hs2&E2).
    + eapply reach_next; [exact Hr|apply Hs1].
    + by rewrite E1.
    + exists s2. split; [by eapply paced_own|]. by rewrite E2.
Qed.

(** What was pushed before a long enough run has been handled after it. *)
Lemma entry_run_handles s k s' i :
  0 < NumProducers → reachable s →
  entry_run (λ i, length (FanInWeak.pushed (entry s) i)) k s s' →
  FanInLive.round_steps NumProducers * Capacity ≤ k → i < NumProducers →
  FanInWeak.pushed (entry s) i `prefix_of` FanInWeak.from_queue i (FanInWeak.drained (entry s')).
Proof.
  intros HN Hr Hrun Hk Hi. destruct (reachable_handled s Hr) as [Hf _].
  apply (FanInLive.run_drains NumProducers Capacity n Hcap Hn _ i Hi (entry s) k (entry s'))
    with (3 := entry_run_rings _ _ _ _ Hrun); [|done|done].
  by apply (FanInWeak.fan_in_reachable_ok dflt NumProducers Capacity n Hcap Hn).
Qed.

End ingress.

Section venue.
Context (NumProducers Capacity n NumLevels MaxOrders : nat) (sym base : Z).
Context {M R S : Type} `{!HashMap Z nat M, !HashMapLaws Z nat M}.
Context `{!HashMap Z Risk.ClientExposure R} `{!Sink S, !SinkLaws S}.
Context (Hcap : Capacity = 2 ^ n) (Hn : 1 ≤ n < 63) (Hsym : is_u32 sym).
Context (lims : Risk.Limits) (s0 : S) (scratch : nat) (dflt : message) (start : DeterministicClock.t).

Abbreviation session := (Feed.session NumLevels MaxOrders sym base lims s0 scratch (M := M) (R := R)).

(** The messages the exchange has handled, and what the feed says of them. *)
Lemma handled_feed s :
  0 < NumProducers → Engine.config_ok NumLevels MaxOrders base → sink_data s0 = [] →
  reachable NumProducers Capacity NumLevels dflt start session s →
  (∀ i, Forall message_ok (FanInWeak.pushed (entry s) i)) →
  let handled := FanInWeak.drained (entry s) in
  let evs := read_feed (sink_data (sink (feed (exchange s)))) in
  exchange s = run NumLevels session (stamp start handled.*1) ∧
  er_order_id <$> omap Feed.event_report evs = message_id <$> handled.*1 ∧
  ∀ sd price, Feed.book_view evs !! (side_code sd, price) =
    Feed.depth (OrderBook.queue NumLevels MaxOrders (book (matching (exchange s))) sd) price.
Proof.
  intros HN Hc Hs0 Hr Hok handled evs.
  destruct (reachable_handled _ _ _ _ _ _ _ Hr) as [Hf Hx].
  pose proof (FanInWeak.fan_in_reachable_ok dflt NumProducers Capacity n Hcap Hn _ HN Hf) as Hq.
  assert (exchange s = run NumLevels session (stamp start handled.*1)) as E.
  { rewrite <- handle_all_run. unfold handled. by rewrite <- Hx. }
  split; [exact E|].
  assert (Forall message_ok handled.*1) as Hm.
  { apply FanInWeak.from_queues. intros i.
    destruct (FanInWeak.ring_prefix NumProducers Capacity n Hcap Hn _ i Hq) as [[l Hp] _].
    specialize (Hok i). rewrite Hp in Hok. by apply Forall_app in Hok as [? _]. }
  destruct (Feed.session_run NumLevels MaxOrders sym base Hsym lims s0 scratch _ Hc Hs0
    (stamp_ok start _ Hm) (M := M) (R := R)) as (evs'&Hh&Hev&Hids).
  unfold evs. rewrite E, Hev, Hids, stamp_ids. split; [done|].
  intros sd price. rewrite (Feed.hi_view _ _ _ _ _ _ _ _ Hh). by rewrite Exchange.abs_side.
Qed.

(** A message drained from a queue has been handled. *)
Lemma from_queue_handled (l : list (message * nat)) i m :
  m ∈ FanInWeak.from_queue i l → m ∈ l.*1.
Proof.
  unfold FanInWeak.from_queue. intros ([y j]&->&H)%list_elem_of_fmap. apply list_elem_of_fmap.
  exists (y, j). split; [done|]. rewrite list_elem_of_In in *. by apply List.filter_In in H as [? _].
Qed.

(** C5: the exchange is correct from the client threads to the published bytes.
    In every execution, whatever the interleaving and whatever the weak
    memory shows, no ring access is a data race; the messages the exchange
    has handled are, for each client, the first ones it pushed, in its
    order, all but at most [Capacity] of them; the state of the exchange is
    the one the sequential pipeline reaches on them; every handled message
    has one execution report in the feed, in order; and a subscriber that
    applies the feed holds the depth of the book. *)
Theorem order_entry_correct s :
  0 < NumProducers → Engine.config_ok NumLevels MaxOrders base → sink_data s0 = [] →
  reachable NumProducers Capacity NumLevels dflt start session s →
  (∀ i, Forall message_ok (FanInWeak.pushed (entry s) i)) →
  let handled := FanInWeak.drained (entry s) in
  let evs := read_feed (sink_data (sink (feed (exchange s)))) in
  (∀ i, SpscWeak.accesses_safe Capacity (FanInWeak.queue_site i) (FanInWeak.ring_at (entry s) i) ∧
     FanInWeak.from_queue i handled `prefix_of` FanInWeak.pushed (entry s) i ∧
     length (FanInWeak.pushed (entry s) i) ≤ length (FanInWeak.from_queue i handled) + Capacity) ∧
  exchange s = run NumLevels session (stamp start handled.*1) ∧
  er_order_id <$> omap Feed.event_report evs = message_id <$> handled.*1 ∧
  ∀ sd price, Feed.book_view evs !! (side_code sd, price) =
    Feed.depth (OrderBook.queue NumLevels MaxOrders (book (matching (exchange s))) sd) price.
Proof.
  intros HN Hc Hs0 Hr Hok handled evs.
  destruct (reachable_handled _ _ _ _ _ _ _ Hr) as [Hf Hx].
  pose proof (FanInWeak.fan_in_reachable_ok dflt NumProducers Capacity n Hcap Hn _ HN Hf) as Hq.
  split; [|by apply handled_feed]. intros i.
  split; [by apply (FanInWeak.ring_accesses NumProducers Capacity n Hcap Hn)|].
  by apply (FanInWeak.ring_prefix NumProducers Capacity n Hcap Hn).
Qed.

(** C6: the exchange answers.  Once the messages pushed so far have become
    visible to the sequencer thread, it is never stuck, and within [8 *
    NumProducers + 8] of its own steps per ring slot, however the clients'
    steps are interleaved and whatever they push meanwhile, every one of
    these messages has been handled, each client's in its order, and has
    its execution report in the published feed.  A client that could push
    nothing meanwhile then gets its next message in within four steps of its
    own, once it can see that its ring has been emptied. *)
Theorem order_entry_served s k s' :
  0 < NumProducers → Engine.config_ok NumLevels MaxOrders base → sink_data s0 = [] →
  reachable NumProducers Capacity NumLevels dflt start session s →
  (∀ i, Forall message_ok (FanInWeak.pushed (entry s') i)) →
  let visible i := length (FanInWeak.pushed (entry s) i) in
  entry_run NumProducers Capacity NumLevels visible k s s' →
  (∃ s'', sequencer_step NumProducers Capacity NumLevels visible s' s'') ∧
  ((8 * NumProducers + 8) * Capacity ≤ k →
   ∀ i, i < NumProducers →
     FanInWeak.pushed (entry s) i `prefix_of` FanInWeak.from_queue i (FanInWeak.drained (entry s')) ∧
     (∀ m, m ∈ FanInWeak.pushed (entry s) i →
       message_id m ∈ er_order_id <$>
         omap Feed.event_report (read_feed (sink_data (sink (feed (exchange s')))))) ∧
     (FanInWeak.pushed (entry s') i = FanInWeak.pushed (entry s) i → ∀ j s'',
      client_run NumProducers Capacity NumLevels i
        (length (FanInWeak.from_queue i (FanInWeak.drained (entry s')))) j s' s'' → 4 ≤ j →
      length (FanInWeak.pushed (entry s') i) < length (FanInWeak.pushed (entry s'') i))).
Proof.
  intros HN Hc Hs0 Hr Hok visible Hrun.
  pose proof (entry_run_reachable _ _ _ _ _ _ _ _ _ _ Hrun Hr) as Hr'. split.
  - destruct (sequencer_steps_on NumProducers Capacity NumLevels dflt start session n Hcap Hn visible s' HN Hr')
      as (s''&H&_); [|by exists s''].
    intros i. apply prefix_length.
    by eapply FanInLive.run_pushed, entry_run_rings.
  - intros Hk i Hi.
    pose proof (entry_run_handles NumProducers Capacity NumLevels dflt start session n Hcap Hn s k s' i
      HN Hr Hrun Hk Hi) as Hp.
    split; [exact Hp|]. split.
    + intros m Hm. destruct (handled_feed s' HN Hc Hs0 Hr' Hok) as (_&->&_).
      apply list_elem_of_fmap_2, (from_queue_handled _ i). destruct Hp as [l ->].
      apply elem_of_app. by left.
    + intros E j s'' Hj H4. destruct (reachable_handled _ _ _ _ _ _ _ Hr') as [Hf' _].
      apply (FanInLive.client_run_pushes NumProducers Capacity n Hcap Hn i Hi _ _ _ _)
        with (3 := client_run_rings _ _ _ _ _ _ _ _ Hj); [| |done].
      * by apply (FanInWeak.fan_in_reachable_ok dflt NumProducers Capacity n Hcap Hn).
      * apply prefix_length in Hp. rewrite E.
        destruct (Spsc.cap_pos Capacity n Hcap Hn). lia.
Qed.

End venue.

(** ** A concrete execution: one order goes through *)

Definition demo_order : message := MsgNew (mkNewOrder 1 102 5 1 7 1 0 0 0).

Abbreviation demo_reachable := (reachable 2 4 8 (MsgCancel (mkCancelOrder 0 0 0))
  (DeterministicClock.create 0 1) Feed.demo_session).

Definition demo_start : t :=
  mk (FanInWeak.start (MsgCancel (mkCancelOrder 0 0 0))) (DeterministicClock.create 0 1) Feed.demo_session.

(** Client 0 pushes, then the sequencer finds the order; the loads take the
    first message of their location, except the one that sees the new head. *)
Definition demo_schedule : list move :=
  [ClientMoves 0 demo_order 0; ClientMoves 0 demo_order 0; ClientMoves 0 demo_order 0;
   SequencerMoves 0; SequencerMoves 0; SequencerMoves 0; SequencerMoves 1; SequencerMoves 0;
   SequencerMoves 0].

Definition demo : t := play 2 4 8 demo_start demo_schedule.

Lemma demo_entry : demo_reachable demo.
Proof. apply play_reachable, reach_start. Qed.

Lemma demo_handled : FanInWeak.drained (entry demo) = [(demo_order, 0)].
Proof. vm_compute. reflexivity. Qed.

Lemma demo_pushed i : Forall message_ok (FanInWeak.pushed (entry demo) i).
Proof.
  destruct i as [|i].
  - replace (FanInWeak.pushed (entry demo) 0) with [demo_order] by (vm_compute; reflexivity).
    apply Forall_singleton. cbn [message_ok demo_order]. Feed.request_typed.
  - replace (FanInWeak.pushed (entry demo) (S i)) with (@nil message)
      by (vm_compute; reflexivity). apply Forall_nil. done.
Qed.

Lemma order_entry_correct_witness :
  let evs := read_feed (sink_data (sink (feed (exchange demo)))) in
  er_order_id <$> omap Feed.event_report evs = [1%Z] ∧
  Feed.book_view evs !! (side_code Sell, 102%Z) =
    Feed.depth (OrderBook.queue 8 4 (book (matching (exchange demo))) Sell) 102.
Proof.
  destruct (order_entry_correct 2 4 2 8 4 7 100 eq_refl ltac:(lia) ltac:(unfold is_u32; lia)
    Feed.demo_lims InMemorySink.create 64 _ _ demo ltac:(lia) Feed.feed_demo_config
    Feed.empty_sink demo_entry demo_pushed) as (_&_&Hids&Hview).
  rewrite demo_handled in Hids. split; [exact Hids|exact (Hview Sell 102%Z)].
Defined.

(** The order has been pushed, and the sequencer has not moved. *)
Definition demo_queued : t := play 2 4 8 demo_start (take 3 demo_schedule).

Lemma demo_queued_reachable : demo_reachable demo_queued.
Proof. apply play_reachable, reach_start. Qed.

Lemma demo_queued_pushed i : Forall message_ok (FanInWeak.pushed (entry demo_queued) i).
Proof. exact (demo_pushed i). Qed.

Lemma order_entry_served_witness :
  ∃ s', entry_run 2 4 8 (λ i, length (FanInWeak.pushed (entry demo_queued) i)) 96 demo_queued s' ∧
    1%Z ∈ er_order_id <$> omap Feed.event_report (read_feed (sink_data (sink (feed (exchange s'))))).
Proof.
  destruct (entry_run_exists (S := InMemorySink.t) 2 4 8 _ _ _ 2 eq_refl ltac:(lia) demo_queued 96 ltac:(lia)
    demo_queued_reachable) as (s'&Hrun&Ep).
  exists s'. split; [exact Hrun|].
  destruct (order_entry_served 2 4 2 8 4 7 100 eq_refl ltac:(lia) ltac:(unfold is_u32; lia)
    Feed.demo_lims InMemorySink.create 64 _ _ demo_queued 96 s' ltac:(lia) Feed.feed_demo_config
    Feed.empty_sink demo_queued_reachable ltac:(rewrite Ep; exact demo_queued_pushed) Hrun) as [_ H].
  apply (proj1 (proj2 (H ltac:(lia) 0 ltac:(lia))) demo_order).
  replace (FanInWeak.pushed (entry demo_queued) 0) with [demo_order] by (vm_compute; reflexivity).
  by apply list_elem_of_singleton.
Defined.

End Ingress.
