(* ===== verification/Recording.v ===== *)
(** * Recordings (src/include/jane/marketdata/sinks.hpp, class FileSink)

    The components are templates over the sink and only ever write to it, so
    a change of sink commutes with every request ([run_map]).  A file on a
    device with limited room is such a change, and what is left in it is
    read as a prefix of what was published. *)

From S2P Require Import Prelude Types SlabPool Level HashMap Ladder OrderBook Matching.
From S2P Require Import Exchange Engine Risk Wire Protocol Codec Sinks Publisher Replay Feed.
From stdpp Require Import base tactics numbers list gmap.

Set Default Goal Selector "!".

Module Recording.
Import OrderBook Matching Protocol Codec Publisher Replay.

(** ** Changing the sink *)

Section change.
Context {M R S1 S2 : Type} `{!HashMap Z nat M} `{!HashMap Z Risk.ClientExposure R}.
Context `{!Sink S1} `{!Sink S2} (f : S1 → S2).
Context (Hf : ∀ s bs, f (sink_write s bs) = sink_write (f s) bs) (NumLevels : nat).
Implicit Types (p : Publisher.t S1) (st : Replay.t M R S1).

Definition map_feed p : Publisher.t S2 :=
  Publisher.mk (f (sink p)) (Publisher.next_sequence p) (snapshot_scratch p) (bid_scratch p)
    (ask_scratch p).

Definition map_state st : Replay.t M R S2 :=
  Replay.mk (matching st) (risk st) (map_feed (feed st)) (next_sequence st) (fill_scratch st).

Lemma emit_map {T : Type} `{!Layout T, !Payload T} size p (msg : T) :
  emit size (map_feed p) msg = map_feed (emit size p msg).
Proof.
  unfold emit. destruct (encode _ msg) as [n buf]. unfold append, map_feed. cbn. by rewrite Hf.
Qed.

Lemma publish_trade_map p symbol fill :
  publish_trade (map_feed p) symbol fill = map_feed (publish_trade p symbol fill).
Proof. unfold publish_trade. by rewrite <- emit_map. Qed.

Lemma publish_level_update_map p symbol side price level :
  publish_level_update (map_feed p) symbol side price level =
  map_feed (publish_level_update p symbol side price level).
Proof. unfold publish_level_update. by rewrite <- emit_map. Qed.

Lemma publish_execution_report_map p msg :
  publish_execution_report (map_feed p) msg = map_feed (publish_execution_report p msg).
Proof. unfold publish_execution_report. by rewrite <- emit_map. Qed.

Lemma publish_level_map st symbol side price :
  publish_level NumLevels (map_state st) symbol side price =
  map_state (publish_level NumLevels st symbol side price).
Proof.
  unfold publish_level. cbn [matching map_state]. destruct (level_at _ _ _ _) as [lvl|]; [|done].
  unfold set_feed, map_state. cbn [matching risk feed next_sequence fill_scratch].
  by rewrite publish_level_update_map.
Qed.

Lemma publish_report_map st id client symbol fills leaves exec_type reason :
  publish_report (map_state st) id client symbol fills leaves exec_type reason =
  map_state (publish_report st id client symbol fills leaves exec_type reason).
Proof.
  unfold publish_report, set_feed, map_state. cbn [matching risk feed next_sequence fill_scratch].
  by rewrite publish_execution_report_map.
Qed.

Lemma apply_fills_map st symbol fills :
  apply_fills NumLevels (map_state st) symbol fills = map_state (apply_fills NumLevels st symbol fills).
Proof.
  unfold apply_fills. revert st. induction fills as [|x fills IH]; intros st; [done|]. cbn [foldl].
  rewrite <- IH. f_equal. unfold apply_fill. rewrite <- publish_level_map. f_equal.
  unfold set_risk, set_feed, map_state. cbn [matching risk feed next_sequence fill_scratch].
  by rewrite publish_trade_map.
Qed.

Lemma match_and_publish_map st order :
  match_and_publish NumLevels (map_state st) order = map_state (match_and_publish NumLevels st order).
Proof.
  unfold match_and_publish. cbn [matching map_state].
  destruct (submit _ _ _ _) as [[result e] fills].
  change (set_matching e fills (map_state st)) with (map_state (set_matching e fills st)).
  rewrite apply_fills_map. destruct (rested result); by rewrite ?publish_level_map, publish_report_map.
Qed.

(** A request does the same to both. *)
Lemma process_map st rq :
  process NumLevels (map_state st) rq = map_state (process NumLevels st rq).
Proof.
  destruct rq as [wire ts|wire|wire ts]; cbn [process].
  - unfold process_new_order. cbn [next_sequence map_state].
    set (order := order_of_wire _ _ _).
    change (take_sequence (map_state st)) with (map_state (take_sequence st)). cbn [risk map_state].
    destruct (negb _); cbn; by rewrite ?publish_report_map, ?match_and_publish_map.
  - unfold process_cancel. cbn [matching map_state fill_scratch].
    destruct (find _ _) as [node|]; [|by rewrite publish_report_map].
    destruct (Matching.cancel _ _) as [result e].
    change (set_matching e ?s (map_state st)) with (map_state (set_matching e s st)).
    destruct (cancel_accepted result); [|done]. by rewrite publish_level_map, publish_report_map.
  - unfold process_replace. cbn [matching map_state next_sequence].
    destruct (find _ _) as [node|]; [|by rewrite publish_report_map].
    change (take_sequence (map_state st)) with (map_state (take_sequence st)).
    cbn [matching map_state].
    destruct (Matching.replace _ _ _ _ _ _ _ _) as [[result e] fills].
    change (set_matching e fills (map_state ?s)) with (map_state (set_matching e fills s)).
    destruct (negb _); [by rewrite publish_report_map|]. rewrite apply_fills_map, publish_level_map.
    destruct (rep_rested result); by rewrite ?publish_level_map, publish_report_map.
Qed.

Lemma run_map st rqs : run NumLevels (map_state st) rqs = map_state (run NumLevels st rqs).
Proof.
  revert st. induction rqs as [|rq rqs IH]; intros st; [done|]. unfold run in *. cbn [foldl].
  rewrite process_map. apply IH.
Qed.

End change.

(** ** Cut feeds *)

(** A buffer that ends before the length in its header says. *)
Lemma read_event_short bs h :
  peek_header bs = Some (Some h) → length bs < sizeof MessageHeader + Z.to_nat (h_length h) →
  read_event bs = None.
Proof.
  intros Hh Hl. apply Nat.ltb_lt in Hl. unfold read_event, decode, decode_snapshot.
  rewrite Hh. cbn [mbind option_bind]. rewrite Hl.
  repeat (destruct (_ =? _)%Z; cbn [negb mbind option_bind d_status sd_status failed failed_snapshot];
    try done).
Qed.

Lemma event_header ev :
  event_typed ev → ∃ h rest, event_bytes ev = bytes_of h ++ rest ∧ l_typed h ∧
    length (event_bytes ev) = sizeof MessageHeader + Z.to_nat (h_length h).
Proof.
  intros Hev. destruct ev as [m|m|m|sequence symbol bids asks]; cbn [event_bytes event_typed] in *.
  1-3: unfold frame; eexists _, _; split; [reflexivity|]; split;
    [apply frame_header_typed; [small_message|apply zero_u8]|];
    match goal with |- length (?a ++ ?b) = _ => change (a ++ b) with (frame 0 m) end;
    rewrite length_frame by (done || small_message || apply zero_u8);
    unfold frame_size; cbn [h_length]; by rewrite Nat2Z.id.
  pose proof Hev as (Hq&Hy&Hb&Ha&Hf).
  destruct (snapshot_headers_typed sequence symbol bids asks Hq Hy Hf) as [Hh _].
  eexists _, _. split; [reflexivity|]. split; [exact Hh|]. cbn [h_length].
  change (length (snapshot_frame sequence symbol bids asks) =
    4 + Z.to_nat (Z.of_nat (16 + (length bids + length asks) * 24))).
  by rewrite length_snapshot_frame, Nat2Z.id.
Qed.

Lemma read_event_cut ev n :
  event_typed ev → n < length (event_bytes ev) → read_event (take n (event_bytes ev)) = None.
Proof.
  intros Hev Hn. destruct (event_header ev Hev) as (h&rest&E&Hh&Hl). rewrite E in *.
  pose proof (length_bytes_of h Hh) as Hlh.
  destruct (decide (n < sizeof MessageHeader)) as [Hs|Hs].
  { unfold read_event. rewrite peek_short; [done|]. rewrite length_take. lia. }
  apply (read_event_short _ h); [|rewrite length_take; lia].
  rewrite take_app_ge by lia. by apply peek_frame.
Qed.

(** A feed that is cut anywhere is read as its first events. *)
Lemma read_events_cut fuel evs n :
  Forall event_typed evs → read_events fuel (take n (feed_bytes evs)) `prefix_of` evs.
Proof.
  intros Ht. revert fuel n. induction Ht as [|ev evs Hev Ht IH]; intros fuel n.
  { change (feed_bytes []) with (@nil Z). rewrite take_nil. destruct fuel; [done|].
    cbn [read_events]. unfold read_event.
    by rewrite peek_short by (cbn; lia). }
  destruct fuel as [|fuel]; [apply prefix_nil|]. cbn [read_events].
  change (feed_bytes (ev :: evs)) with (event_bytes ev ++ feed_bytes evs).
  destruct (decide (n < length (event_bytes ev))) as [Hn|Hn].
  - rewrite take_app_le by lia. rewrite read_event_cut by done. apply prefix_nil.
  - rewrite take_app_ge by lia. rewrite read_event_frame, drop_app_length by done.
    apply prefix_cons, IH.
Qed.

(** ** Files *)

(** The file of a sink that was handed [data] on a device of the given size. *)
Definition file_of (size : nat) (s : InMemorySink.t) : FileSink.t :=
  let data := InMemorySink.data s in
  FileSink.mk (take size data) (length data <=? size) (size - length data).

Lemma file_of_write size s bs :
  file_of size (sink_write s bs) = sink_write (file_of size s) bs.
Proof.
  unfold file_of. cbn. unfold InMemorySink.data, FileSink.write.
  cbn [FileSink.good FileSink.room FileSink.file]. set (data := InMemorySink.buffer s).
  rewrite length_app. destruct (Nat.leb_spec (length data) size) as [Hd|Hd].
  - f_equal.
    + rewrite take_app_ge, (take_ge data) by lia. f_equal.
      destruct (decide (size - length data ≤ length bs)) as [Hb|Hb].
      * by rewrite Nat.min_l by lia.
      * rewrite Nat.min_r by lia. rewrite !take_ge by lia. done.
    + destruct (Nat.leb_spec (length bs) (size - length data)),
        (Nat.leb_spec (length data + length bs) size); lia || done.
    + lia.
  - f_equal.
    + by rewrite take_app_le by lia.
    + destruct (Nat.leb_spec (length data + length bs) size); lia || done.
    + lia.
Qed.

Section file.
Context (NumLevels MaxOrders : nat) (sym base : Z).
Context {M R : Type} `{!HashMap Z nat M, !HashMapLaws Z nat M}.
Context `{!HashMap Z Risk.ClientExposure R}.
Context (Hsym : is_u32 sym) (lims : Risk.Limits) (scratch : nat).

(** A session of requests that publishes to the sink [s]. *)
Definition publish_to {S} `{!Sink S} (s : S) (rqs : list Replay.request) : Replay.t M R S :=
  run NumLevels (Feed.session NumLevels MaxOrders sym base lims s scratch) rqs.

(** C22: a recording is never corrupt: a session that publishes to a file on a
    device of any size goes through the same engine and risk states as one
    that publishes to memory.  The file holds the first bytes of the feed,
    all of them exactly if the stream is still good, and a reader of the
    file gets the first events that were published. *)
Theorem recording_prefix rqs size path :
  Engine.config_ok NumLevels MaxOrders base → Forall request_ok rqs →
  ∃ file0, FileSink.create (λ _, true) path size = inr file0 ∧
    let st := publish_to InMemorySink.create rqs in
    let st' := publish_to file0 rqs in
    matching st' = matching st ∧ risk st' = risk st ∧
    let data := sink_data (sink (feed st)) in
    let file := FileSink.file (sink (feed st')) in
    file = take size data ∧
    (FileSink.good (sink (feed st')) = true ↔ file = data) ∧
    read_feed file `prefix_of` read_feed data.
Proof.
  intros Hc Hrqs. exists (FileSink.mk [] true size). split; [done|].
  destruct (Feed.session_run NumLevels MaxOrders sym base Hsym lims InMemorySink.create scratch
    rqs Hc Feed.empty_sink Hrqs (M := M) (R := R)) as (evs&Hh&Hfd&_).
  assert (publish_to (FileSink.mk [] true size) rqs =
    map_state (file_of size) (publish_to InMemorySink.create rqs)) as ->.
  { assert (file_of size InMemorySink.create = FileSink.mk [] true size) as <-
      by (unfold file_of; cbn; by rewrite take_nil, Nat.sub_0_r).
    exact (run_map (M := M) (R := R) (file_of size) (file_of_write size) NumLevels
      (Feed.session NumLevels MaxOrders sym base lims InMemorySink.create scratch) rqs). }
  fold (publish_to InMemorySink.create rqs) in Hh, Hfd. cbv zeta.
  split; [done|]. split; [done|]. cbn [feed map_state map_feed sink file_of FileSink.file
    FileSink.good]. change (InMemorySink.data ?s) with (sink_data s).
  split; [done|]. split.
  - rewrite Nat.leb_le. split; [apply take_ge|].
    intros Ht. apply (f_equal length) in Ht. rewrite length_take in Ht. lia.
  - rewrite Hfd, (Feed.hi_data _ _ _ _ _ _ _ _ Hh). apply read_events_cut, Hh.
Qed.

End file.

Lemma recording_prefix_witness :
  let file := FileSink.file (sink (feed (publish_to 8 4 7 100 (M := gmap Z nat)
    (R := gmap Z Risk.ClientExposure) Feed.demo_lims 64 (FileSink.mk [] true 100)
    Feed.demo_requests))) in
  (length file = 100 ∧ length (read_feed file) = 1) ∧
  ∃ data, file = take 100 data ∧ read_feed file `prefix_of` read_feed data.
Proof.
  cbv zeta. split; [split; vm_compute; reflexivity|].
  destruct (recording_prefix 8 4 7 100 (M := gmap Z nat) (R := gmap Z Risk.ClientExposure)
    ltac:(unfold is_u32; lia) Feed.demo_lims 64 Feed.demo_requests 100 []
    Feed.feed_demo_config Feed.demo_requests_ok) as (f0&Ef&H).
  cbn [FileSink.create] in Ef. injection Ef as <-. cbv zeta in H.
  destruct H as (_&_&Hd&_&Hp). eexists. split; [exact Hd|exact Hp].
Defined.

End Recording.
