(* ===== verification/PriceIndex.v ===== *)
(** * Price index variants (src/include/jane/book/price_index_variants.hpp)

    Three structures that answer the same question: which prices are
    occupied, and which is the highest.  [PriceIndex] is the interface they
    share; each implements a finite set of prices with its maximum, and any
    two agree on every sequence of calls. *)

From S2P Require Import Prelude Bitmap.
From Stdlib Require Import Sorted.
From stdpp Require Import base tactics numbers list sets gmap sorting.

Set Default Goal Selector "!".

(** ** The interface *)

Class PriceIndex (X : Type) := {
  pi_insert : X → Z → X;
  pi_erase : X → Z → X;
  pi_best : X → option Z;
}.

(** The greatest element of a finite set, if there is one. *)
Definition is_best (S : gset Z) (o : option Z) : Prop :=
  match o with
  | Some m => m ∈ S ∧ ∀ p, p ∈ S → (p ≤ m)%Z
  | None => S = ∅
  end.

(** The structure holds a set of prices below [n]. *)
Class PriceIndexLaws (n : nat) (X : Type) `{!PriceIndex X} := {
  pi_holds : X → gset Z → Prop;
  pi_holds_insert x S p :
    pi_holds x S → (0 ≤ p < Z.of_nat n)%Z → pi_holds (pi_insert x p) ({[p]} ∪ S);
  pi_holds_erase x S p :
    pi_holds x S → (0 ≤ p < Z.of_nat n)%Z → pi_holds (pi_erase x p) (S ∖ {[p]});
  pi_holds_best x S : pi_holds x S → is_best S (pi_best x);
}.

Lemma best_price_unique S o o' : is_best S o → is_best S o' → o = o'.
Proof.
  destruct o as [m|], o' as [m'|]; cbn; intros H H'; [|set_solver|set_solver|done].
  destruct H as [Hm Hu], H' as [Hm' Hu']. f_equal. apply Z.le_antisymm; auto.
Qed.

Module PriceIndex.

(** ** The bitmap ladder *)

Record LadderIndex := mkLadder { occupied : Bitmap.t; ladder_best : option nat }.

Definition ladder_create (num_prices : nat) : LadderIndex :=
  mkLadder (Bitmap.create num_prices) None.

Definition ladder_insert (x : LadderIndex) (p : Z) : LadderIndex :=
  let idx := Z.to_nat p in
  mkLadder (Bitmap.set (occupied x) idx)
    (match ladder_best x with
     | None => Some idx
     | Some b => if b <? idx then Some idx else Some b
     end).

Definition ladder_erase (x : LadderIndex) (p : Z) : LadderIndex :=
  let idx := Z.to_nat p in
  let occ := Bitmap.clear (occupied x) idx in
  mkLadder occ
    (match ladder_best x with
     | Some b => if b =? idx
                 then (if idx =? 0 then None else Bitmap.find_highest_at_or_below occ (idx - 1))
                 else Some b
     | None => None
     end).

#[export] Instance ladder_index : PriceIndex LadderIndex := {|
  pi_insert := ladder_insert;
  pi_erase := ladder_erase;
  pi_best x := Z.of_nat <$> ladder_best x;
|}.

(** ** The ordered set

    [std::set] is a finite set; [*rbegin()] is its greatest element. *)

Definition tree_best (S : gset Z) : option Z :=
  match elements S with
  | [] => None
  | x :: xs => Some (foldr Z.max x xs)
  end.

#[export] Instance tree_index : PriceIndex (gset Z) := {|
  pi_insert S p := {[p]} ∪ S;
  pi_erase S p := S ∖ {[p]};
  pi_best := tree_best;
|}.

(** ** The sorted vector *)

(** [std::lower_bound]: halve the range [first, first + len). *)
Fixpoint lower_bound_loop (fuel : nat) (v : list Z) (p : Z) (first len : nat) : nat :=
  match fuel with
  | O => first
  | S fuel =>
      if len =? 0 then first
      else
        let half := len / 2 in
        let mid := first + half in
        if (v !!! mid <? p)%Z then lower_bound_loop fuel v p (S mid) (len - half - 1)
        else lower_bound_loop fuel v p first half
  end.

Definition lower_bound (v : list Z) (p : Z) : nat := lower_bound_loop (length v) v p 0 (length v).

Record FlatIndex := mkFlat { flat_v : list Z }.

Definition flat_insert (x : FlatIndex) (p : Z) : FlatIndex :=
  let v := flat_v x in
  let it := lower_bound v p in
  if bool_decide (v !! it = Some p) then x else mkFlat (take it v ++ p :: drop it v).

Definition flat_erase (x : FlatIndex) (p : Z) : FlatIndex :=
  let v := flat_v x in
  let it := lower_bound v p in
  if bool_decide (v !! it = Some p) then mkFlat (take it v ++ drop (S it) v) else x.

#[export] Instance flat_index : PriceIndex FlatIndex := {|
  pi_insert := flat_insert;
  pi_erase := flat_erase;
  pi_best x := last (flat_v x);
|}.

(** ** The ladder implements the interface *)

Record ladder_holds (n : nat) (x : LadderIndex) (S : gset Z) : Prop := {
  lh_wf : Bitmap.wf (occupied x);
  lh_size : Bitmap.num_bits (occupied x) = n;
  lh_bits k : Bitmap.test (occupied x) k = bool_decide (Z.of_nat k ∈ S);
  lh_range p : p ∈ S → (0 ≤ p < Z.of_nat n)%Z;
  lh_best : is_best S (Z.of_nat <$> ladder_best x);
}.

Lemma ladder_insert_holds n x S p :
  ladder_holds n x S → (0 ≤ p < Z.of_nat n)%Z → ladder_holds n (ladder_insert x p) ({[p]} ∪ S).
Proof.
  intros [Hwf Hn Hb Hr Hbest] Hp. split; cbn [occupied ladder_best ladder_insert].
  - apply Bitmap.wf_set; [done|lia].
  - done.
  - intros k. rewrite Bitmap.test_set, Hb by (done || lia). apply eq_bool_prop_intro.
    rewrite orb_True, !bool_decide_spec, elem_of_union, elem_of_singleton.
    split; (intros [H|H]; [left; lia|by right]).
  - intros q [->%elem_of_singleton|Hq]%elem_of_union; [done|by apply Hr].
  - destruct (ladder_best x) as [b|]; cbn [fmap option_fmap option_map is_best] in *.
    + destruct Hbest as [Hm Hu]. destruct (Nat.ltb_spec b (Z.to_nat p)); cbn [fmap option_fmap option_map is_best]; split.
      * apply elem_of_union. left. apply elem_of_singleton. lia.
      * intros q [->%elem_of_singleton|Hq]%elem_of_union; [lia|]. apply Hu in Hq. lia.
      * by apply elem_of_union_r.
      * intros q [->%elem_of_singleton|Hq]%elem_of_union; [lia|by apply Hu].
    + subst S. split; [apply elem_of_union; left; apply elem_of_singleton; lia|].
      intros q [->%elem_of_singleton|Hq]%elem_of_union; [lia|by apply not_elem_of_empty in Hq].
Qed.

Lemma ladder_erase_holds n x S p :
  ladder_holds n x S → (0 ≤ p < Z.of_nat n)%Z → ladder_holds n (ladder_erase x p) (S ∖ {[p]}).
Proof.
  intros [Hwf Hn Hb Hr Hbest] Hp.
  assert (Bitmap.wf (Bitmap.clear (occupied x) (Z.to_nat p))) as Hwf'
    by (apply Bitmap.wf_clear; [done|lia]).
  assert (∀ k, Bitmap.test (Bitmap.clear (occupied x) (Z.to_nat p)) k =
    bool_decide (Z.of_nat k ∈ S ∖ {[p]})) as Hb'.
  { intros k. rewrite Bitmap.test_clear, Hb by (done || lia). apply eq_bool_prop_intro.
    rewrite andb_True, negb_True, !bool_decide_spec, elem_of_difference, elem_of_singleton.
    split; intros [H1 H2]; split; (done || (intros E; (apply H1 || apply H2); lia)). }
  split; cbn [occupied ladder_best ladder_erase]; try done; [set_solver|].
  destruct (ladder_best x) as [b|]; cbn [fmap option_fmap option_map is_best] in *; [|set_solver]. destruct Hbest as [Hm Hu].
  destruct (Nat.eqb_spec b (Z.to_nat p)) as [E|E]; [|cbn [fmap option_fmap option_map is_best]; split; [|set_solver]].
  2: { apply elem_of_difference. split; [done|]. rewrite elem_of_singleton. lia. }
  assert (∀ q, q ∈ S ∖ {[p]} → (0 ≤ q < p)%Z) as Hlt.
  { intros q [Hq Hne]%elem_of_difference. rewrite elem_of_singleton in Hne.
    specialize (Hu q Hq). specialize (Hr q Hq). lia. }
  destruct (Nat.eqb_spec (Z.to_nat p) 0) as [E0|E0]; cbn [fmap option_fmap option_map is_best].
  { apply set_eq. intros q. split; [intros Hq; apply Hlt in Hq; lia|set_solver]. }
  pose proof (Bitmap.find_highest_spec _ (Z.to_nat p - 1) Hwf') as Hh.
  destruct (Bitmap.find_highest_at_or_below _ _) as [j|];
    cbn [fmap option_fmap option_map is_best Bitmap.is_highest] in *.
  - destruct Hh as (Hj&Ht&Hk). rewrite Hb' in Ht. apply bool_decide_eq_true in Ht.
    split; [done|]. intros q Hq. pose proof (Hlt q Hq).
    destruct (decide (q ≤ Z.of_nat j)%Z); [done|]. specialize (Hk (Z.to_nat q)).
    rewrite Hb' in Hk. rewrite bool_decide_eq_true_2 in Hk; [|by rewrite Z2Nat.id by lia].
    discriminate Hk; lia.
  - apply set_eq. intros q. split; [|set_solver]. intros Hq. pose proof (Hlt q Hq).
    specialize (Hh (Z.to_nat q)). rewrite Hb' in Hh.
    rewrite bool_decide_eq_true_2 in Hh; [|by rewrite Z2Nat.id by lia]. discriminate Hh; lia.
Qed.

#[export] Instance ladder_laws n : PriceIndexLaws n LadderIndex := {|
  pi_holds := ladder_holds n;
  pi_holds_insert := ladder_insert_holds n;
  pi_holds_erase := ladder_erase_holds n;
  pi_holds_best x S := lh_best n x S;
|}.

Lemma ladder_create_holds n : ladder_holds n (ladder_create n) ∅.
Proof.
  split; cbn; [apply Bitmap.wf_create|done| |set_solver|done].
  intros k. rewrite Bitmap.test_create. done.
Qed.

(** ** The ordered set implements the interface *)

Lemma foldr_max_spec x xs :
  foldr Z.max x xs ∈ x :: xs ∧ ∀ p, p ∈ x :: xs → (p ≤ foldr Z.max x xs)%Z.
Proof.
  induction xs as [|y xs [IH1 IH2]]; cbn [foldr].
  { split; [set_solver|]. intros p ->%list_elem_of_singleton. lia. }
  split.
  - destruct (Z.max_spec y (foldr Z.max x xs)) as [[_ ->]|[_ ->]]; set_solver.
  - intros p [-> |[-> |Hp]%elem_of_cons]%elem_of_cons.
    + specialize (IH2 x ltac:(set_solver)). lia.
    + lia.
    + specialize (IH2 p ltac:(set_solver)). lia.
Qed.

Lemma tree_best_spec S : is_best S (tree_best S).
Proof.
  unfold tree_best. destruct (elements S) as [|x xs] eqn:E.
  - by apply elements_empty_inv, leibniz_equiv in E.
  - destruct (foldr_max_spec x xs) as [H1 H2]. rewrite <- E in H1, H2. split.
    + by apply elem_of_elements.
    + intros p Hp. by apply H2, elem_of_elements.
Qed.

#[export] Instance tree_laws n : PriceIndexLaws n (gset Z).
Proof.
  refine {| pi_holds (x S : gset Z) := x = S |}; cbn.
  - by intros x S p ->.
  - by intros x S p ->.
  - intros x S ->. apply tree_best_spec.
Defined.

(** ** The sorted vector implements the interface *)

(** [k] splits [v] into the elements below [p] and the others. *)
Definition splits (v : list Z) (p : Z) (k : nat) : Prop :=
  k ≤ length v ∧ (∀ i, i < k → (v !!! i < p)%Z) ∧ (∀ i, k ≤ i < length v → (p ≤ v !!! i)%Z).

Lemma sorted_lookup v i j :
  StronglySorted Z.lt v → i < j < length v → (v !!! i < v !!! j)%Z.
Proof.
  intros Hs. revert i j. induction Hs as [|x v Hs IH Hx]; intros i j Hij; cbn in *; [lia|].
  destruct j as [|j]; [lia|]. destruct i as [|i]; cbn.
  - eapply Forall_forall in Hx; [exact Hx|]. apply list_elem_of_lookup_total_2. lia.
  - apply IH. lia.
Qed.

Lemma lower_bound_loop_spec fuel v p first len :
  StronglySorted Z.lt v → len ≤ fuel → first + len ≤ length v →
  (∀ i, i < first → (v !!! i < p)%Z) → (∀ i, first + len ≤ i < length v → (p ≤ v !!! i)%Z) →
  splits v p (lower_bound_loop fuel v p first len).
Proof.
  intros Hs. revert first len. induction fuel as [|fuel IH]; intros first len Hf Hl Hlo Hhi;
    cbn [lower_bound_loop].
  { split_and!; [lia|done|]. intros i Hi. apply Hhi. lia. }
  destruct (Nat.eqb_spec len 0) as [-> |Hz].
  { split_and!; [lia|done|]. intros i Hi. apply Hhi. lia. }
  pose proof (Nat.div_lt len 2 ltac:(lia) ltac:(lia)) as Hh. set (half := len / 2) in *.
  destruct (Z.ltb_spec (v !!! (first + half)) p) as [Hm|Hm]; apply IH; try lia; try done.
  - intros i Hi. destruct (decide (i = first + half)) as [-> |]; [done|].
    pose proof (sorted_lookup v i (first + half) Hs ltac:(lia)). lia.
  - intros i Hi. apply Hhi. lia.
  - intros i Hi. destruct (decide (i = first + half)) as [-> |]; [done|].
    pose proof (sorted_lookup v (first + half) i Hs ltac:(lia)). lia.
Qed.

Lemma lower_bound_spec v p : StronglySorted Z.lt v → splits v p (lower_bound v p).
Proof. intros Hs. apply lower_bound_loop_spec; [done|lia|lia|lia|lia]. Qed.

Record flat_holds (x : FlatIndex) (S : gset Z) : Prop := {
  fh_sorted : StronglySorted Z.lt (flat_v x);
  fh_elems p : p ∈ flat_v x ↔ p ∈ S;
}.

(** The parts of a sorted vector around the lower bound of [p]. *)
Lemma split_sorted v p k :
  StronglySorted Z.lt v → splits v p k →
  Forall (λ q, q < p)%Z (take k v) ∧
  Forall (λ q, p < q)%Z (drop (if decide (v !! k = Some p) then S k else k) v) ∧
  (v !! k ≠ Some p → p ∉ v).
Proof.
  intros Hs (Hk&Hlo&Hhi). split_and!.
  - apply Forall_lookup. intros i q [Hq Hi]%lookup_take_Some.
    apply list_lookup_total_correct in Hq as <-. by apply Hlo.
  - apply Forall_lookup. intros i q Hq. rewrite lookup_drop in Hq.
    pose proof (lookup_lt_Some _ _ _ Hq) as Hlen. apply list_lookup_total_correct in Hq as <-.
    case_decide as Hd.
    + apply list_lookup_total_correct in Hd as <-. apply sorted_lookup; [done|lia].
    + pose proof (Hhi (k + i) ltac:(lia)) as Hle.
      destruct (decide (i = 0)) as [-> |Hi0].
      * rewrite Nat.add_0_r in *. apply Z.le_neq. split; [done|]. intros E. apply Hd.
        rewrite (list_lookup_lookup_total_lt v k) by lia. congruence.
      * pose proof (sorted_lookup v k (k + i) Hs ltac:(lia)). pose proof (Hhi k ltac:(lia)). lia.
  - intros Hd Hin. apply list_elem_of_lookup_1 in Hin as [i Hi].
    pose proof (lookup_lt_Some _ _ _ Hi) as Hlen. pose proof Hi as Hi'.
    apply list_lookup_total_correct in Hi'.
    destruct (decide (i < k)) as [Hlt|Hge]; [pose proof (Hlo i Hlt); lia|].
    destruct (decide (i = k)) as [-> |]; [congruence|].
    pose proof (sorted_lookup v k i Hs ltac:(lia)). pose proof (Hhi k ltac:(lia)). lia.
Qed.

Lemma sorted_app (a b : list Z) :
  StronglySorted Z.lt a → StronglySorted Z.lt b → (∀ x y, x ∈ a → y ∈ b → (x < y)%Z) →
  StronglySorted Z.lt (a ++ b).
Proof.
  intros Ha Hb Hab. induction Ha as [|x a Ha IH Hx]; cbn; [done|]. constructor.
  - apply IH. set_solver.
  - apply Forall_app. split; [done|]. apply Forall_forall. intros y Hy. apply Hab; set_solver.
Qed.

Lemma sorted_app_inv (a b : list Z) :
  StronglySorted Z.lt (a ++ b) → StronglySorted Z.lt a ∧ StronglySorted Z.lt b.
Proof.
  induction a as [|x a IH]; cbn; [by repeat constructor|].
  intros [H1 H2]%StronglySorted_inv. destruct (IH H1). split; [|done]. constructor; [done|].
  by apply Forall_app in H2 as [? _].
Qed.

Lemma sorted_parts v k : StronglySorted Z.lt v → StronglySorted Z.lt (take k v) ∧ StronglySorted Z.lt (drop k v).
Proof. intros Hs. apply sorted_app_inv. by rewrite take_drop. Qed.

Lemma flat_insert_holds x S p : flat_holds x S → flat_holds (flat_insert x p) ({[p]} ∪ S).
Proof.
  intros [Hs He]. unfold flat_insert. pose proof (lower_bound_spec (flat_v x) p Hs) as Hsp.
  set (k := lower_bound _ _) in *. destruct (split_sorted _ _ _ Hs Hsp) as (Hlo&Hhi&_).
  destruct (sorted_parts (flat_v x) k Hs) as [S1 S2].
  case_bool_decide as Hd.
  - split; [done|]. intros q. rewrite He, elem_of_union, elem_of_singleton.
    apply list_elem_of_lookup_2, He in Hd. set_solver.
  - rewrite decide_False in Hhi by done. rewrite Forall_forall in Hlo, Hhi. split; cbn [flat_v].
    + apply sorted_app; [done| |].
      * constructor; [done|]. apply Forall_forall. apply Hhi.
      * intros a b Ha [-> |Hb]%elem_of_cons; [by apply Hlo|]. specialize (Hlo a Ha).
        specialize (Hhi b Hb). lia.
    + intros q. rewrite elem_of_app, elem_of_cons, elem_of_union, elem_of_singleton, <- He.
      rewrite <- (take_drop k (flat_v x)) at 3. rewrite elem_of_app. tauto.
Qed.

Lemma flat_erase_holds x S p : flat_holds x S → flat_holds (flat_erase x p) (S ∖ {[p]}).
Proof.
  intros [Hs He]. unfold flat_erase. pose proof (lower_bound_spec (flat_v x) p Hs) as Hsp.
  set (k := lower_bound _ _) in *. destruct (split_sorted _ _ _ Hs Hsp) as (Hlo&Hhi&Hno).
  case_bool_decide as Hd.
  - rewrite decide_True in Hhi by done. rewrite Forall_forall in Hlo, Hhi. split; cbn [flat_v].
    + apply sorted_app; [apply sorted_parts, Hs|apply sorted_parts, Hs|].
      intros a b Ha Hb. specialize (Hlo a Ha). specialize (Hhi b Hb). lia.
    + intros q. rewrite elem_of_app, elem_of_difference, elem_of_singleton, <- He.
      rewrite <- (take_drop_middle (flat_v x) k p Hd) at 3. rewrite elem_of_app, elem_of_cons.
      split.
      * intros [Hq|Hq]; (split; [tauto|]); [specialize (Hlo q Hq)|specialize (Hhi q Hq)]; lia.
      * tauto.
  - split; [done|]. intros q. rewrite elem_of_difference, elem_of_singleton, <- He.
    split; [|tauto]. intros Hq. split; [done|]. intros ->. by apply Hno.
Qed.

Lemma last_sorted_best v S :
  StronglySorted Z.lt v → (∀ p, p ∈ v ↔ p ∈ S) → is_best S (last v).
Proof.
  intros Hs He. destruct (last v) as [m|] eqn:E; cbn.
  - apply last_Some in E as [v' ->]. split; [apply He; set_solver|]. intros p Hp%He.
    apply elem_of_app in Hp as [Hp|Hp]; [|apply list_elem_of_singleton in Hp; lia].
    clear He. induction v' as [|y v' IH]; [set_solver|]. cbn in Hs.
    apply StronglySorted_inv in Hs as [Hs Hy]. apply elem_of_cons in Hp as [-> |Hp]; [|by apply IH].
    eapply Forall_forall in Hy; [apply Z.lt_le_incl, Hy|]. set_solver.
  - apply last_None in E as ->. apply set_eq. intros p. rewrite <- He. set_solver.
Qed.

#[export] Instance flat_laws n : PriceIndexLaws n FlatIndex.
Proof.
  refine {| pi_holds := flat_holds |}.
  - intros x S p H _. by apply flat_insert_holds.
  - intros x S p H _. by apply flat_erase_holds.
  - intros x S [Hs He]. by apply last_sorted_best.
Defined.

(** ** Any two variants agree *)

Inductive index_op := IxInsert (p : Z) | IxErase (p : Z).

Definition op_price (op : index_op) : Z := match op with IxInsert p | IxErase p => p end.

Definition index_exec {X : Type} `{!PriceIndex X} (x : X) (op : index_op) : X :=
  match op with IxInsert p => pi_insert x p | IxErase p => pi_erase x p end.

Definition prices_exec (S : gset Z) (op : index_op) : gset Z :=
  match op with IxInsert p => {[p]} ∪ S | IxErase p => S ∖ {[p]} end.

Lemma index_run {X : Type} n `{!PriceIndex X, !PriceIndexLaws n X} (x : X) S ops :
  pi_holds (n := n) x S → Forall (λ op, 0 ≤ op_price op < Z.of_nat n)%Z ops →
  pi_holds (n := n) (foldl index_exec x ops) (foldl prices_exec S ops).
Proof.
  intros Hh Hops. revert x S Hh. induction Hops as [|op ops Hop Hops IH]; intros x S Hh; [done|].
  cbn [foldl]. apply IH. destruct op as [p|p]; [by apply pi_holds_insert|by apply pi_holds_erase].
Qed.

(** C36: the three index designs are interchangeable: after any sequence of
    inserts and erases of prices on the ladder, duplicates and absent prices
    included, the bitmap ladder, the ordered set and the sorted vector report
    the same best price, the greatest price inserted and not erased. *)
Theorem variants_agree n ops :
  Forall (λ op, 0 ≤ op_price op < Z.of_nat n)%Z ops →
  let prices := foldl prices_exec ∅ ops in
  let ladder := foldl index_exec (ladder_create n) ops in
  let tree := foldl index_exec (∅ : gset Z) ops in
  let flat := foldl index_exec (mkFlat []) ops in
  is_best prices (pi_best ladder) ∧ pi_best tree = pi_best ladder ∧ pi_best flat = pi_best ladder.
Proof.
  intros Hops prices ladder tree flat.
  pose proof (pi_holds_best (n := n) (X := LadderIndex) _ _ (index_run (X := LadderIndex) n (ladder_create n) ∅ ops
    (ladder_create_holds n) Hops)) as H1.
  pose proof (pi_holds_best (n := n) (X := gset Z) _ _ (index_run n (∅ : gset Z) ∅ _ eq_refl Hops)) as H2.
  assert (flat_holds (mkFlat []) ∅) as Hf by (split; [constructor|set_solver]).
  pose proof (pi_holds_best (n := n) (X := FlatIndex) _ _ (index_run n (mkFlat []) ∅ _ Hf Hops)) as H3.
  split_and!; [done|by eapply best_price_unique|by eapply best_price_unique].
Qed.

Definition demo_index_ops : list index_op :=
  [IxInsert 5; IxInsert 70; IxInsert 70; IxInsert 3; IxErase 70; IxErase 9].

Lemma variants_agree_witness :
  pi_best (foldl index_exec (mkFlat []) demo_index_ops) =
  pi_best (foldl index_exec (ladder_create 100) demo_index_ops) ∧
  pi_best (foldl index_exec (ladder_create 100) demo_index_ops) = Some 5%Z.
Proof.
  split; [|vm_compute; reflexivity].
  apply (variants_agree 100 demo_index_ops). repeat constructor; cbn; lia.
Defined.

End PriceIndex.
