(* ===== verification/Double.v ===== *)
(** * [double]

    A [double] is a [spec_float] of the Standard Library: the IEEE 754
    binary64 format with its correctly rounded operations.  Conversions to
    integer types are undefined in C++ outside the range of the type, and
    [None] here. *)

From S2P Require Import Prelude.
From Stdlib Require Import SpecFloat.
From stdpp Require Import base tactics numbers list.

Set Default Goal Selector "!".

Module Double.
Definition of_Z (z : Z) : spec_float := binary_normalize 53 1024 z 0 false.
Definition div : spec_float → spec_float → spec_float := SFdiv 53 1024.
Definition mul : spec_float → spec_float → spec_float := SFmul 53 1024.
Definition sub : spec_float → spec_float → spec_float := SFsub 53 1024.

(** [std::ceil] as an integer; infinities and NaN have none. *)
Definition ceil (x : spec_float) : option Z :=
  match x with
  | S754_zero _ => Some 0%Z
  | S754_finite s m e =>
      let z := if s then Z.neg m else Z.pos m in
      Some (if (0 <=? e)%Z then Z.shiftl z e else (- ((- z) / 2 ^ (- e)))%Z)
  | _ => None
  end.

(** The integer part, towards zero. *)
Definition trunc (x : spec_float) : option Z :=
  match x with
  | S754_zero _ => Some 0%Z
  | S754_finite s m e =>
      let a := if (0 <=? e)%Z then Z.shiftl (Z.pos m) e else (Z.pos m / 2 ^ (- e))%Z in
      Some (if s then (- a)%Z else a)
  | _ => None
  end.

(** [static_cast<uint64_t>] of an integral value. *)
Definition to_u64 (x : option Z) : option Z :=
  z ← x; if (0 <=? z)%Z && (z <? 2 ^ 64)%Z then Some z else None.

(** [static_cast<int64_t>]. *)
Definition to_i64 (x : spec_float) : option Z :=
  z ← trunc x; if (- 2 ^ 63 <=? z)%Z && (z <? 2 ^ 63)%Z then Some z else None.

(** The sign bit is clear. *)
Definition positive (x : spec_float) : bool :=
  match x with
  | S754_zero s | S754_infinity s | S754_finite s _ _ => negb s
  | S754_nan => false
  end.

Lemma round_positive m e l :
  let x := binary_round_aux 53 1024 false m e l in x = S754_nan ∨ positive x = true.
Proof.
  unfold binary_round_aux. destruct (shr_fexp _ _ m e l) as [r1 e1].
  destruct (shr_fexp _ _ _ e1 _) as [r2 e2].
  destruct (shr_m r2); [by right| |by left]. destruct (_ <=? _)%Z; by right.
Qed.

Lemma mul_positive x y :
  positive x = true → positive y = true → mul x y = S754_nan ∨ positive (mul x y) = true.
Proof.
  intros Hx Hy. destruct x as [[]|[]| |[] mx ex], y as [[]|[]| |[] my ey]; try discriminate;
    try (by left); try (by right). apply round_positive.
Qed.

Lemma to_i64_range x z : to_i64 x = Some z → is_i64 z.
Proof.
  unfold to_i64. destruct (trunc x) as [a|]; [|done]. cbn. destruct (_ && _) eqn:E; [|done].
  intros [= <-]. bool_to_prop. unfold is_i64. lia.
Qed.

Lemma to_i64_positive x z : positive x = true → to_i64 x = Some z → (0 ≤ z)%Z.
Proof.
  intros Hx. unfold to_i64. destruct (trunc x) as [a|] eqn:Ht; [|done]. cbn.
  destruct (_ && _); [|done]. intros [= <-].
  destruct x as [[]|[]| |[] m e]; try discriminate; injection Ht as <-; [done|].
  destruct (Z.leb_spec 0 e); [apply Z.shiftl_nonneg; lia|].
  apply Z.div_pos; [lia|]. apply Z.pow_pos_nonneg; lia.
Qed.
End Double.
