(* ===== verification/Histogram.v ===== *)
(** * The latency histogram (src/include/jane/metrics/histogram.hpp)

    Exact buckets below 8192 ns, then 64 buckets per power of two.  A [double]
    is a [spec_float] of the Standard Library, the IEEE 754 binary64 format
    with its correctly rounded operations, so [percentile] is the computation
    the code performs.

    The reference for a percentile is the order statistic: the sample of the
    rank the code computes, in the sorted list of samples. *)

From S2P Require Import Prelude Types Bitmap Double.
From Stdlib Require Import SpecFloat Sorted.
From stdpp Require Import base tactics numbers list sets sorting.

Set Default Goal Selector "!".

Module Histogram.
Local Open Scope Z_scope.

Definition kLinearRangeNs : Z := 8192.
Definition kLinearRangeBits : Z := 13.
Definition kSubBucketsPerOctave : Z := 64.
Definition kMaxOctaves : Z := 40.
Definition kNumBuckets : Z := kLinearRangeNs + kSubBucketsPerOctave * kMaxOctaves.

Definition bucket_index (nanos : Z) : Z :=
  if nanos <? kLinearRangeNs then u64 nanos
  else
    let v := u64 nanos in
    let msb := 63 - Bitmap.countl_zero v in
    let octave_start := u64 (Z.shiftl 1 msb) in
    let octave_number := u64 (msb - kLinearRangeBits) in
    let sub_width := octave_start / kSubBucketsPerOctave in
    let sub_index := u64 (v - octave_start) / sub_width in
    u64 (kLinearRangeNs + octave_number * kSubBucketsPerOctave + sub_index).

Definition bucket_lower_bound (idx : Z) : Z :=
  if idx <? kLinearRangeNs then idx
  else
    let log_idx := u64 (idx - kLinearRangeNs) in
    let octave_number := log_idx / kSubBucketsPerOctave in
    let sub_index := log_idx mod kSubBucketsPerOctave in
    let msb := kLinearRangeBits + octave_number in
    let octave_start := u64 (Z.shiftl 1 msb) in
    let sub_width := octave_start / kSubBucketsPerOctave in
    i64 (octave_start + sub_index * sub_width).

Record t := mk { counts : list Z; count : Z; sum : Z; min_ : Z; max_ : Z }.

Definition create : t := mk (replicate (Z.to_nat kNumBuckets) 0) 0 0 0 0.

Definition record (h : t) (nanos : Z) : t :=
  let nanos := if nanos <? 0 then 0 else nanos in
  let idx := Z.min (bucket_index nanos) (kNumBuckets - 1) in
  mk (alter (λ c, u64 (c + 1)) (Z.to_nat idx) (counts h))
     (u64 (count h + 1))
     (i64 (sum h + nanos))
     (if count h =? 0 then nanos else Z.min (min_ h) nanos)
     (Z.max (max_ h) nanos).

(** [ceil(p / 100.0 * count - 1e-9)] *)
Definition rank (p : spec_float) (n : Z) : option Z :=
  let eps := Double.div (Double.of_Z 1) (Double.of_Z 1000000000) in
  Double.to_u64 (Double.ceil
    (Double.sub (Double.mul (Double.div p (Double.of_Z 100)) (Double.of_Z n)) eps)).

(** The loop: the first bucket at which the running total reaches [target]. *)
Fixpoint find_bucket (cs : list Z) (i : Z) (cumulative target : Z) : option Z :=
  match cs with
  | [] => None
  | c :: cs =>
      let cumulative := u64 (cumulative + c) in
      if target <=? cumulative then Some i else find_bucket cs (i + 1) cumulative target
  end.

(** [None] only where the conversion of the rank is undefined (NaN). *)
Definition percentile (h : t) (p : spec_float) : option Z :=
  if count h =? 0 then Some 0
  else if SFleb p (Double.of_Z 0) then Some (min_ h)
  else if SFleb (Double.of_Z 100) p then Some (max_ h)
  else
    target ← rank p (count h);
    Some (match find_bucket (counts h) 0 0 target with
          | Some i => bucket_lower_bound i
          | None => max_ h
          end).

Definition min (h : t) : Z := if count h =? 0 then 0 else min_ h.
Definition max (h : t) : Z := max_ h.
Definition mean (h : t) : spec_float :=
  if count h =? 0 then Double.of_Z 0 else Double.div (Double.of_Z (sum h)) (Double.of_Z (count h)).

(** ** Buckets *)

(** The values the buckets tell apart: below 2^53 ns. *)
Definition in_scale (v : Z) : Prop := 0 ≤ v < 2 ^ 53.

(** The bucket of [v] in closed form. *)
Lemma bucket_index_eq v :
  0 ≤ v < 2 ^ 63 →
  bucket_index v =
    if v <? 8192 then v
    else 8192 + (Z.log2 v - 13) * 64 + (v - 2 ^ Z.log2 v) / 2 ^ (Z.log2 v - 6).
Proof.
  intros Hv. unfold bucket_index, kLinearRangeNs, kSubBucketsPerOctave, kLinearRangeBits.
  assert (u64 v = v) as Eu by (apply u64_id; unfold is_u64; lia). rewrite Eu.
  destruct (Z.ltb_spec v 8192); [done|].
  assert (Bitmap.countl_zero v = 63 - Z.log2 v) as ->.
  { unfold Bitmap.countl_zero. by rewrite (proj2 (Z.eqb_neq _ _)) by lia. }
  replace (63 - (63 - Z.log2 v)) with (Z.log2 v) by lia.
  pose proof (Z.log2_spec v ltac:(lia)) as [Hlo Hhi].
  assert (13 ≤ Z.log2 v) as H13 by (apply Z.log2_le_pow2; lia).
  assert (Z.log2 v < 63) as H63 by (apply Z.log2_lt_pow2; lia).
  set (m := Z.log2 v) in *. rewrite Z.shiftl_1_l.
  assert (2 ^ m < 2 ^ 63) as Hm by (apply Z.pow_lt_mono_r; lia).
  assert (0 < 2 ^ m) as Hm0 by (apply Z.pow_pos_nonneg; lia).
  rewrite (u64_id (2 ^ m)), (u64_id (m - 13)), (u64_id (v - 2 ^ m)) by (unfold is_u64; lia).
  assert (2 ^ m = 2 ^ (m - 6) * 64) as E6.
  { change 64 with (2 ^ 6). rewrite <- Z.pow_add_r by lia. f_equal. lia. }
  rewrite E6 at 2. rewrite Z.div_mul by lia.
  apply u64_id. unfold is_u64.
  assert (0 ≤ (v - 2 ^ m) / 2 ^ (m - 6) < 64).
  { assert (0 < 2 ^ (m - 6)) by (apply Z.pow_pos_nonneg; lia). split; [apply Z.div_pos; lia|].
    apply Z.div_lt_upper_bound; [lia|]. rewrite Z.pow_succ_r in Hhi by lia. lia. }
  lia.
Qed.

(** The lower bound of bucket [i] in closed form: exact, or octave [o] and
    sub-bucket [s]. *)
Lemma lower_bound_eq o s :
  0 ≤ o ≤ 40 → 0 ≤ s < 64 →
  bucket_lower_bound (8192 + o * 64 + s) = 2 ^ (13 + o) + s * 2 ^ (7 + o).
Proof.
  intros Ho Hs. unfold bucket_lower_bound, kLinearRangeNs, kSubBucketsPerOctave, kLinearRangeBits.
  rewrite (proj2 (Z.ltb_ge _ _)) by lia.
  replace (8192 + o * 64 + s - 8192) with (s + o * 64) by lia.
  rewrite (u64_id (s + o * 64)) by (unfold is_u64; lia).
  rewrite Z.div_add, Z.mod_add, (Z.div_small s), (Z.mod_small s) by lia. rewrite Z.add_0_l.
  rewrite Z.shiftl_1_l.
  assert (0 < 2 ^ (13 + o) ≤ 2 ^ 53) as Hp.
  { split; [apply Z.pow_pos_nonneg; lia|apply Z.pow_le_mono_r; lia]. }
  rewrite (u64_id (2 ^ (13 + o))) by (unfold is_u64; lia).
  assert (2 ^ (13 + o) = 2 ^ (7 + o) * 64) as E.
  { change 64 with (2 ^ 6). rewrite <- Z.pow_add_r by lia. f_equal. lia. }
  rewrite E at 2. rewrite Z.div_mul by lia. apply i64_id. unfold is_i64. nia.
Qed.

(** The octave and sub-bucket of a value past the exact range. *)
Lemma bucket_octave v :
  8192 ≤ v < 2 ^ 53 →
  ∃ o s, 0 ≤ o < 40 ∧ 0 ≤ s < 64 ∧ bucket_index v = 8192 + o * 64 + s ∧
    2 ^ (13 + o) + s * 2 ^ (7 + o) ≤ v < 2 ^ (13 + o) + (s + 1) * 2 ^ (7 + o).
Proof.
  intros Hv. pose proof (Z.log2_spec v ltac:(lia)) as [Hlo Hhi].
  assert (13 ≤ Z.log2 v) as H13 by (apply Z.log2_le_pow2; lia).
  assert (Z.log2 v < 53) as H53 by (apply Z.log2_lt_pow2; lia).
  rewrite bucket_index_eq, (proj2 (Z.ltb_ge _ _)) by lia. set (m := Z.log2 v) in *.
  assert (0 < 2 ^ (m - 6)) as Hw by (apply Z.pow_pos_nonneg; lia).
  assert (2 ^ m = 2 ^ (m - 6) * 64) as E6.
  { change 64 with (2 ^ 6). rewrite <- Z.pow_add_r by lia. f_equal. lia. }
  rewrite Z.pow_succ_r in Hhi by lia.
  pose proof (Z.div_mod (v - 2 ^ m) (2 ^ (m - 6)) ltac:(lia)) as Hd.
  pose proof (Z.mod_pos_bound (v - 2 ^ m) (2 ^ (m - 6)) Hw) as Hr.
  exists (m - 13), ((v - 2 ^ m) / 2 ^ (m - 6)).
  replace (13 + (m - 13)) with m by lia. replace (7 + (m - 13)) with (m - 6) by lia.
  split_and!; try lia; try nia. all: apply Z.div_pos || apply Z.div_lt_upper_bound; lia.
Qed.

Lemma lower_bound_linear i : i < 8192 → bucket_lower_bound i = i.
Proof. intros Hi. unfold bucket_lower_bound, kLinearRangeNs. by rewrite (proj2 (Z.ltb_lt _ _)). Qed.

(** Every bucket past the exact ones is an octave and a sub-bucket. *)
Lemma bucket_split i :
  8192 ≤ i < kNumBuckets → ∃ o s, 0 ≤ o < 40 ∧ 0 ≤ s < 64 ∧ i = 8192 + o * 64 + s.
Proof.
  unfold kNumBuckets, kLinearRangeNs, kSubBucketsPerOctave, kMaxOctaves. intros Hi.
  exists ((i - 8192) / 64), ((i - 8192) mod 64). Z.div_mod_to_equations. lia.
Qed.

Lemma pow_octave o : 0 ≤ o → 2 ^ (13 + o) = 64 * 2 ^ (7 + o) ∧ 0 < 2 ^ (7 + o).
Proof.
  intros Ho. split; [|apply Z.pow_pos_nonneg; lia].
  change 64 with (2 ^ 6). rewrite <- Z.pow_add_r by lia. f_equal. lia.
Qed.

(** Where the bucket after [(o, s)] starts. *)
Lemma lower_bound_next o s :
  0 ≤ o < 40 → 0 ≤ s < 64 →
  bucket_lower_bound (8192 + o * 64 + s + 1) = 2 ^ (13 + o) + (s + 1) * 2 ^ (7 + o).
Proof.
  intros Ho Hs. destruct (decide (s = 63)) as [-> |].
  - replace (8192 + o * 64 + 63 + 1) with (8192 + (o + 1) * 64 + 0) by lia.
    rewrite lower_bound_eq by lia. destruct (pow_octave o) as [E _]; [lia|].
    replace (13 + (o + 1)) with (Z.succ (13 + o)) by lia. rewrite Z.pow_succ_r by lia. lia.
  - replace (8192 + o * 64 + s + 1) with (8192 + o * 64 + (s + 1)) by lia.
    apply lower_bound_eq; lia.
Qed.

Lemma bucket_range v : in_scale v → 0 ≤ bucket_index v < kNumBuckets.
Proof.
  unfold in_scale, kNumBuckets, kLinearRangeNs, kSubBucketsPerOctave, kMaxOctaves. intros Hv.
  destruct (decide (v < 8192)).
  - rewrite bucket_index_eq, (proj2 (Z.ltb_lt _ _)) by lia. lia.
  - destruct (bucket_octave v) as (o&s&?&?&->&_); lia.
Qed.

Lemma bucket_bounds v :
  in_scale v →
  bucket_lower_bound (bucket_index v) ≤ v < bucket_lower_bound (bucket_index v + 1).
Proof.
  unfold in_scale. intros Hv. destruct (decide (v < 8192)) as [Hs|Hs].
  - rewrite bucket_index_eq, (proj2 (Z.ltb_lt _ _)) by lia. rewrite lower_bound_linear by lia.
    destruct (decide (v = 8191)) as [-> |]; [done|]. rewrite lower_bound_linear by lia. lia.
  - destruct (bucket_octave v) as (o&s&Ho&Hsb&->&Hb); [lia|].
    rewrite lower_bound_eq, lower_bound_next by lia. done.
Qed.

Lemma lower_bound_step i :
  0 ≤ i < kNumBuckets → bucket_lower_bound i < bucket_lower_bound (i + 1).
Proof.
  intros Hi. destruct (decide (i < 8191)).
  { rewrite !lower_bound_linear by lia. lia. }
  destruct (decide (i = 8191)) as [-> |]; [done|].
  destruct (bucket_split i) as (o&s&Ho&Hs&->); [lia|].
  rewrite lower_bound_eq, lower_bound_next by lia. destruct (pow_octave o); lia.
Qed.

Lemma lower_bound_mono i j :
  0 ≤ i ≤ j → j ≤ kNumBuckets → bucket_lower_bound i ≤ bucket_lower_bound j.
Proof.
  intros Hij. replace j with (i + Z.of_nat (Z.to_nat (j - i))) by lia.
  induction (Z.to_nat (j - i)) as [|k IH]; intros Hj; [by rewrite Z.add_0_r|].
  rewrite Nat2Z.inj_succ in *.
  pose proof (lower_bound_step (i + Z.of_nat k) ltac:(lia)) as Hst.
  replace (i + Z.succ (Z.of_nat k)) with (i + Z.of_nat k + 1) by lia. lia.
Qed.

Lemma bucket_mono v w : in_scale v → in_scale w → v ≤ w → bucket_index v ≤ bucket_index w.
Proof.
  intros Hv Hw Hle. pose proof (bucket_bounds v Hv). pose proof (bucket_bounds w Hw).
  pose proof (bucket_range v Hv). pose proof (bucket_range w Hw).
  destruct (decide (bucket_index v ≤ bucket_index w)); [done|].
  pose proof (lower_bound_mono (bucket_index w + 1) (bucket_index v) ltac:(lia) ltac:(lia)). lia.
Qed.

Lemma lower_bound_scale i : 0 ≤ i < kNumBuckets → in_scale (bucket_lower_bound i).
Proof.
  intros Hi. unfold in_scale. pose proof (lower_bound_mono 0 i ltac:(lia) ltac:(lia)) as H0.
  rewrite (lower_bound_linear 0) in H0 by lia.
  pose proof (lower_bound_step i Hi) as H1.
  pose proof (lower_bound_mono (i + 1) kNumBuckets ltac:(lia) ltac:(lia)) as H2.
  assert (bucket_lower_bound kNumBuckets = 2 ^ 53) as E by (vm_compute; done). lia.
Qed.

(** A bucket and its lower bound determine each other: the lower bound of
    every bucket falls into that bucket, and buckets are ordered like the
    values they hold. *)
Theorem bucket_roundtrip i :
  0 ≤ i < kNumBuckets →
  bucket_index (bucket_lower_bound i) = i ∧
  ∀ v, in_scale v → (bucket_lower_bound i ≤ v ↔ i ≤ bucket_index v).
Proof.
  intros Hi. assert (∀ v, in_scale v → bucket_lower_bound i ≤ v ↔ i ≤ bucket_index v) as H.
  { intros v Hv. pose proof (bucket_bounds v Hv). pose proof (bucket_range v Hv). split; intros Hle.
    - destruct (decide (i ≤ bucket_index v)); [done|].
      pose proof (lower_bound_mono (bucket_index v + 1) i ltac:(lia) ltac:(lia)). lia.
    - pose proof (lower_bound_mono i (bucket_index v) ltac:(lia) ltac:(lia)). lia. }
  split; [|done]. pose proof (lower_bound_scale i Hi) as Hs.
  pose proof (proj1 (H _ Hs) (Z.le_refl _)). pose proof (bucket_bounds _ Hs).
  pose proof (bucket_range _ Hs). destruct (decide (bucket_index (bucket_lower_bound i) = i)); [done|].
  pose proof (lower_bound_mono (i + 1) (bucket_index (bucket_lower_bound i)) ltac:(lia) ltac:(lia)).
  pose proof (lower_bound_step i Hi). lia.
Qed.

(** The lower bound of the bucket of [v] is [v] below 8192 and at most 1/64
    smaller above. *)
Lemma bucket_error v :
  in_scale v →
  let lb := bucket_lower_bound (bucket_index v) in
  lb ≤ v ∧ 64 * (v - lb) ≤ lb ∧ (v < 8192 → lb = v).
Proof.
  intros Hv lb. unfold lb. pose proof (bucket_bounds v Hv) as [Hlo _]. unfold in_scale in Hv.
  destruct (decide (v < 8192)) as [Hs|Hs].
  - assert (bucket_index v = v) as -> by (rewrite bucket_index_eq, (proj2 (Z.ltb_lt _ _)); lia).
    rewrite lower_bound_linear by lia. lia.
  - split; [done|]. split; [|lia]. destruct (bucket_octave v) as (o&s&Ho&Hsb&->&Hb); [lia|].
    rewrite lower_bound_eq by lia. destruct (pow_octave o); nia.
Qed.

(** ** Recording *)

(** Samples as the code stores them: negative readings count as 0. *)
Definition clamp (x : Z) : Z := if x <? 0 then 0 else x.

(** The slot of the array a sample is counted in. *)
Definition slot (x : Z) : nat := Z.to_nat (Z.min (bucket_index (clamp x)) (kNumBuckets - 1)).

Definition below (j : nat) (xs : list Z) : Z :=
  Z.of_nat (length (List.filter (λ x, slot x <? j)%nat xs)).

Lemma below_snoc j xs x : below j (xs ++ [x]) = below j xs + (if (slot x <? j)%nat then 1 else 0).
Proof.
  unfold below. rewrite List.filter_app, length_app. cbn [List.filter].
  destruct (slot x <? j)%nat; cbn [length]; lia.
Qed.

Lemma bucket_slot_lt x : (slot x < Z.to_nat kNumBuckets)%nat.
Proof.
  unfold slot. assert (kNumBuckets = 10752) as -> by done. lia.
Qed.

Lemma zsum_take_alter (cs : list Z) k j f :
  (k < length cs)%nat → (∀ c, cs !! k = Some c → f c = c + 1) →
  zsum (take j (alter f k cs)) = zsum (take j cs) + (if (k <? j)%nat then 1 else 0).
Proof.
  revert k j. induction cs as [|c cs IH]; intros k j Hk Hf; [cbn in Hk; lia|].
  destruct j as [|j]; [by destruct k|]. destruct k as [|k].
  - cbn. rewrite (Hf c) by done. lia.
  - cbn [alter list_alter take]. rewrite !zsum_cons. change (list_alter f k cs) with (alter f k cs).
    rewrite IH; [|cbn in Hk; lia|done].
    replace (S k <? S j)%nat with (k <? j)%nat by done. lia.
Qed.

Lemma zsum_member l i c : Forall (λ x, 0 ≤ x) l → l !! i = Some c → 0 ≤ c ≤ zsum l.
Proof.
  intros Hl. revert i. induction Hl as [|x l Hx Hl IH]; intros i Hi; [done|]. rewrite zsum_cons.
  pose proof (zsum_nonneg l Hl). destruct i as [|i]; cbn in Hi.
  - injection Hi as ->. lia.
  - apply IH in Hi. lia.
Qed.

(** What a histogram knows of the samples [xs]. *)
Record holds (h : t) (xs : list Z) : Prop := {
  ho_length : length (counts h) = Z.to_nat kNumBuckets;
  ho_nonneg : Forall (λ c, 0 ≤ c) (counts h);
  ho_below j : zsum (take j (counts h)) = below j xs;
  ho_count : count h = Z.of_nat (length xs);
  ho_sum : sum h = i64 (zsum (clamp <$> xs));
  ho_min : xs ≠ [] → min_ h ∈ clamp <$> xs ∧ Forall (λ x, min_ h ≤ clamp x) xs;
  ho_max : max_ h ∈ 0 :: (clamp <$> xs) ∧ Forall (λ x, clamp x ≤ max_ h) xs ∧ 0 ≤ max_ h;
}.

Lemma clamp_nonneg x : 0 ≤ clamp x.
Proof. unfold clamp. destruct (Z.ltb_spec x 0); lia. Qed.

Lemma create_holds : holds create [].
Proof.
  split; try done.
  - apply Forall_replicate. lia.
  - intros j. unfold below. cbn [List.filter length]. change (counts create) with (replicate (Z.to_nat kNumBuckets) 0).
    rewrite take_replicate. generalize (j `min` Z.to_nat kNumBuckets)%nat. intros n.
    induction n as [|n IH]; [done|]. cbn [replicate]. by rewrite zsum_cons, IH.
  - cbn. split_and!; [set_solver|constructor|lia].
Qed.

Lemma below_le j xs : below j xs ≤ Z.of_nat (length xs).
Proof. unfold below. pose proof (List.filter_length_le (λ x, slot x <? j)%nat xs). lia. Qed.

Lemma total_count h xs : holds h xs → zsum (counts h) ≤ Z.of_nat (length xs).
Proof.
  intros Hh. rewrite <- (firstn_all (counts h)), (ho_below _ _ Hh). apply below_le.
Qed.

Lemma record_holds h xs x :
  holds h xs → Z.of_nat (length xs) < 2 ^ 64 - 1 → holds (record h x) (xs ++ [x]).
Proof.
  intros Hh Hlen. pose proof (total_count h xs Hh) as Htot.
  pose proof Hh as [Hl Hn Hb Hc Hs Hmin Hmax].
  pose proof (bucket_slot_lt x) as Hslot.
  assert (∀ c, counts h !! slot x = Some c → u64 (c + 1) = c + 1) as Hinc.
  { intros c Hc'. pose proof (zsum_member _ _ _ Hn Hc'). apply u64_id. unfold is_u64. lia. }
  unfold record. fold (clamp x). fold (slot x). split; cbn [counts count sum min_ max_].
  - by rewrite length_alter.
  - apply Forall_alter; [done|]. intros c Hc' _. rewrite Hinc by done.
    pose proof (zsum_member _ _ _ Hn Hc'). lia.
  - intros j. rewrite zsum_take_alter by (done || lia). by rewrite Hb, below_snoc.
  - rewrite Hc, length_app. cbn [length]. rewrite u64_id by (unfold is_u64; lia). lia.
  - rewrite Hs, fmap_app, zsum_app, i64_add_l. cbn [fmap list_fmap]. rewrite zsum_cons.
    cbn [zsum foldr]. by rewrite Z.add_0_r.
  - intros _. rewrite fmap_app, elem_of_app, Forall_app. cbn [fmap list_fmap].
    rewrite list_elem_of_singleton, Forall_singleton.
    destruct (Z.eqb_spec (count h) 0) as [E|E].
    { assert (xs = []) as -> by (apply length_zero_iff_nil; lia). by split; [right|]. }
    destruct Hmin as [Hm Hle]; [intros ->; cbn in Hc; lia|].
    destruct (Z.min_spec (min_ h) (clamp x)) as [[Hlt ->]|[Hge ->]]; split; auto; split; try lia; auto.
    eapply Forall_impl; [exact Hle|]. cbn. lia.
  - destruct Hmax as (Hm&Hle&Hp). rewrite fmap_app, Forall_app, Forall_singleton.
    cbn [fmap list_fmap].
    destruct (Z.max_spec (max_ h) (clamp x)) as [[Hlt ->]|[Hge ->]]; split_and!; try lia; try done.
    + set_solver.
    + eapply Forall_impl; [exact Hle|]. cbn. lia.
    + set_solver.
Qed.

Lemma run_holds xs :
  Z.of_nat (length xs) < 2 ^ 64 → holds (foldl record create xs) xs.
Proof.
  induction xs as [|x xs IH] using rev_ind; intros Hl; [apply create_holds|].
  rewrite length_app in Hl. cbn in Hl. rewrite foldl_snoc. apply record_holds; [apply IH|]; lia.
Qed.

(** ** Percentiles *)

(** The loop finds the first prefix whose total reaches the target. *)
Lemma find_bucket_spec cs i acc target :
  Forall (λ c, 0 ≤ c) cs → 0 ≤ acc < target → acc + zsum cs < 2 ^ 64 →
  match find_bucket cs i acc target with
  | Some j => ∃ k, j = i + Z.of_nat k ∧ (k < length cs)%nat ∧
      acc + zsum (take k cs) < target ≤ acc + zsum (take (S k) cs)
  | None => acc + zsum cs < target
  end.
Proof.
  intros Hcs. revert i acc. induction Hcs as [|c cs Hc Hcs IH]; intros i acc Ha Hs; cbn [find_bucket].
  { cbn. lia. }
  rewrite zsum_cons in Hs. pose proof (zsum_nonneg cs Hcs).
  rewrite u64_id by (unfold is_u64; lia). destruct (Z.leb_spec target (acc + c)).
  - exists 0%nat. cbn [take length]. rewrite ?take_0, zsum_cons. change (zsum []) with 0. split_and!; lia.
  - specialize (IH (i + 1) (acc + c) ltac:(lia) ltac:(lia)).
    destruct (find_bucket cs _ _ target) as [j|].
    + destruct IH as (k&->&Hk&Hlo&Hhi). exists (S k). cbn [take length] in *. rewrite !zsum_cons in *.
      split_and!; lia.
    + rewrite zsum_cons. lia.
Qed.

(** Counting in a sorted list. *)
Lemma count_at_most (P : Z → bool) ys i :
  (∀ j y, ys !! j = Some y → (i ≤ j)%nat → P y = false) → (length (List.filter P ys) ≤ i)%nat.
Proof.
  intros H. rewrite <- (take_drop i ys), List.filter_app, length_app.
  assert (List.filter P (drop i ys) = []) as ->.
  { apply list_filter_nil. intros y Hy. apply list_elem_of_lookup_1 in Hy as [j Hj].
    rewrite lookup_drop in Hj. apply (H _ _ Hj). lia. }
  pose proof (List.filter_length_le P (take i ys)). rewrite length_take in *. cbn. lia.
Qed.

Lemma count_at_least (P : Z → bool) ys i :
  (i < length ys)%nat → (∀ j y, ys !! j = Some y → (j ≤ i)%nat → P y = true) →
  (S i ≤ length (List.filter P ys))%nat.
Proof.
  intros Hi H. rewrite <- (take_drop (S i) ys), List.filter_app, length_app.
  assert (List.filter P (take (S i) ys) = take (S i) ys) as ->.
  { apply list_filter_all. intros y Hy. apply list_elem_of_lookup_1 in Hy as [j Hj].
    apply lookup_take_Some in Hj as [Hj Hlt]. apply (H _ _ Hj). lia. }
  rewrite length_take. lia.
Qed.

(** The bucket of the sample of rank [target] is where the loop stops. *)
Lemma rank_bucket xs ys y target k :
  Forall (λ x, in_scale (clamp x)) xs → StronglySorted Z.le ys → ys ≡ₚ clamp <$> xs →
  1 ≤ target → ys !! Z.to_nat (target - 1) = Some y →
  below k xs < target ≤ below (S k) xs → k = Z.to_nat (bucket_index y).
Proof.
  intros Hsc Hsort Hperm Ht Hy Hk. set (i := Z.to_nat (target - 1)) in *.
  assert (Forall in_scale ys) as Hys.
  { apply Forall_forall. intros z Hz. rewrite Hperm in Hz. apply list_elem_of_fmap in Hz as (x&->&Hx).
    by eapply Forall_forall in Hsc. }
  set (cnt := λ j, length (List.filter (λ z, Z.to_nat (bucket_index z) <? j)%nat ys)).
  assert (∀ j, below j xs = Z.of_nat (cnt j)) as Hbelow.
  { intros j. unfold below, cnt. f_equal. rewrite (filter_perm _ _ _ Hperm).
    clear -Hsc. induction Hsc as [|x xs Hx Hxs IH]; [done|]. rewrite fmap_cons. cbn [List.filter].
    pose proof (bucket_range _ Hx).
    replace (slot x) with (Z.to_nat (bucket_index (clamp x))) by (unfold slot; f_equal; lia).
    destruct (_ <? j)%nat; cbn [length]; lia. }
  rewrite !Hbelow in Hk.
  assert (∀ j z, ys !! j = Some z → (j ≤ i)%nat → z ≤ y) as Hle.
  { intros j z Hj Hji. destruct (decide (j = i)) as [-> |]; [by simplify_eq; lia|].
    eapply (StronglySorted_lookup_le Z.le); [done|exact Hj|exact Hy|lia]. }
  assert (∀ j z, ys !! j = Some z → (i ≤ j)%nat → y ≤ z) as Hge.
  { intros j z Hj Hji. destruct (decide (j = i)) as [-> |]; [by simplify_eq; lia|].
    eapply (StronglySorted_lookup_le Z.le); [done|exact Hy|exact Hj|lia]. }
  rewrite Forall_lookup in Hys. pose proof (Hys _ _ Hy) as Hysc.
  assert (S i ≤ cnt (S (Z.to_nat (bucket_index y))))%nat as H1.
  { apply count_at_least; [by eapply lookup_lt_Some|]. intros j z Hj Hji. apply Nat.ltb_lt.
    pose proof (bucket_mono z y (Hys _ _ Hj) Hysc (Hle _ _ Hj Hji)). lia. }
  assert (cnt (Z.to_nat (bucket_index y)) ≤ i)%nat as H2.
  { apply count_at_most. intros j z Hj Hji. apply Nat.ltb_ge.
    pose proof (bucket_mono y z Hysc (Hys _ _ Hj) (Hge _ _ Hj Hji)).
    pose proof (bucket_range y Hysc). lia. }
  assert (∀ j j', (j ≤ j')%nat → (cnt j ≤ cnt j')%nat) as Hmono.
  { intros j j' Hj. unfold cnt. clear -Hj. induction ys as [|z ys IH]; [done|]. cbn [List.filter].
    destruct (Nat.ltb_spec (Z.to_nat (bucket_index z)) j), (Nat.ltb_spec (Z.to_nat (bucket_index z)) j');
      cbn [length]; lia. }
  destruct (lt_eq_lt_dec k (Z.to_nat (bucket_index y))) as [[Hlt| ->]|Hgt]; [|done|].
  - specialize (Hmono (S k) (Z.to_nat (bucket_index y)) ltac:(lia)). lia.
  - specialize (Hmono (S (Z.to_nat (bucket_index y))) k ltac:(lia)). lia.
Qed.

(** C37: a percentile strictly between 0 and 100 reports the order statistic of
    the rank the code computes: if the rank is that of sample [y] in the
    sorted samples, the answer is [y] itself below 8192 ns and otherwise at
    most 1/64 smaller, never larger, whatever the order of recording. *)
Theorem percentile_order_statistic xs ys p target y :
  Z.of_nat (length xs) < 2 ^ 64 → Forall (λ x, in_scale (clamp x)) xs →
  StronglySorted Z.le ys → ys ≡ₚ clamp <$> xs →
  SFleb p (Double.of_Z 0) = false → SFleb (Double.of_Z 100) p = false →
  rank p (Z.of_nat (length xs)) = Some target → 1 ≤ target →
  ys !! Z.to_nat (target - 1) = Some y →
  ∃ v, percentile (foldl record create xs) p = Some v ∧
    v ≤ y ∧ 64 * (y - v) ≤ v ∧ (y < 8192 → v = y).
Proof.
  intros Hlen Hsc Hsort Hperm H0 H100 Hrank Ht Hy.
  pose proof (run_holds xs Hlen) as Hh. set (h := foldl record create xs) in *.
  pose proof (lookup_lt_Some _ _ _ Hy) as Hi. rewrite Hperm, length_fmap in Hi.
  assert (in_scale y) as Hysc.
  { assert (y ∈ clamp <$> xs) as Hin by (rewrite <- Hperm; by eapply list_elem_of_lookup_2).
    apply list_elem_of_fmap in Hin as (x&->&Hx). by eapply Forall_forall in Hsc. }
  exists (bucket_lower_bound (bucket_index y)). split; [|apply bucket_error, Hysc].
  unfold percentile. rewrite (ho_count _ _ Hh), (proj2 (Z.eqb_neq _ _)) by lia.
  rewrite H0, H100, Hrank. cbn [mbind option_bind]. do 2 f_equal.
  pose proof (total_count h xs Hh) as Htot.
  pose proof (find_bucket_spec (counts h) 0 0 target (ho_nonneg _ _ Hh) ltac:(lia) ltac:(lia)) as Hf.
  destruct (find_bucket _ _ _ target) as [j|].
  - destruct Hf as (k&->&Hk&Hb). rewrite !Z.add_0_l, !(ho_below _ _ Hh) in Hb.
    rewrite (rank_bucket xs ys y target k Hsc Hsort Hperm Ht Hy Hb).
    pose proof (bucket_range y Hysc). f_equal. lia.
  - exfalso. assert (zsum (counts h) = Z.of_nat (length xs)) as E; [|lia].
    rewrite <- (firstn_all (counts h)), (ho_below _ _ Hh). unfold below. f_equal.
    rewrite list_filter_all; [done|]. intros x _. apply Nat.ltb_lt.
    rewrite (ho_length _ _ Hh). apply bucket_slot_lt.
Qed.

(** Count, sum and extremes are exact, not bucketed: after recording any
    samples (negative readings count as 0) the count is their number, the sum
    their [int64_t] sum, and the 0th and 100th percentile are their least and
    greatest. *)
Theorem summary_exact xs p :
  xs ≠ [] → Z.of_nat (length xs) < 2 ^ 64 →
  let h := foldl record create xs in
  count h = Z.of_nat (length xs) ∧ sum h = i64 (zsum (clamp <$> xs)) ∧
  (SFleb p (Double.of_Z 0) = true →
     ∃ m, percentile h p = Some m ∧ m = min h ∧ m ∈ clamp <$> xs ∧ Forall (λ x, m ≤ clamp x) xs) ∧
  (SFleb p (Double.of_Z 0) = false → SFleb (Double.of_Z 100) p = true →
     ∃ m, percentile h p = Some m ∧ m = max h ∧ m ∈ clamp <$> xs ∧ Forall (λ x, clamp x ≤ m) xs).
Proof.
  intros Hne Hlen h. pose proof (run_holds xs Hlen) as Hh. fold h in Hh.
  pose proof Hh as [_ _ _ Hc Hs Hmin (Hm&Hle&Hp)]. specialize (Hmin Hne).
  assert ((count h =? 0) = false) as Hc0.
  { apply Z.eqb_neq. rewrite Hc. destruct xs; [done|]. cbn. lia. }
  unfold percentile, min, max. rewrite Hc0. split_and!; [done|done|intros ->|intros -> ->];
    (eexists; split; [done|]; split; [done|]); [done|]. split; [|done].
  apply elem_of_cons in Hm as [Hm|Hm]; [|done]. destruct xs as [|x xs]; [done|].
  apply Forall_cons in Hle as [Hx _]. pose proof (clamp_nonneg x).
  rewrite fmap_cons. apply elem_of_cons. left. lia.
Qed.

(** ** Concrete samples *)

Lemma bucket_roundtrip_witness :
  bucket_index (bucket_lower_bound 9000) = 9000 ∧ bucket_lower_bound 9000 = 54525952.
Proof.
  split; [|vm_compute; reflexivity]. apply bucket_roundtrip.
  unfold kNumBuckets, kLinearRangeNs, kSubBucketsPerOctave, kMaxOctaves. lia.
Defined.

Definition demo_samples : list Z := [250; -3; 90; 7000; 120].

Lemma percentile_order_statistic_witness :
  ∃ v, percentile (foldl record create demo_samples) (Double.of_Z 50) = Some v ∧ v = 120.
Proof.
  destruct (percentile_order_statistic demo_samples [0; 90; 120; 250; 7000] (Double.of_Z 50) 3 120)
    as (v&E&_&_&Hv).
  - cbn. lia.
  - repeat constructor; vm_compute; discriminate || reflexivity.
  - repeat constructor; lia.
  - change (clamp <$> demo_samples) with [250; 0; 90; 7000; 120].
    apply (bool_decide_unpack _). vm_compute. exact I.
  - vm_compute. reflexivity.
  - vm_compute. reflexivity.
  - vm_compute. reflexivity.
  - lia.
  - reflexivity.
  - exists v. split; [exact E|]. apply Hv. lia.
Defined.

Lemma summary_exact_witness :
  count (foldl record create demo_samples) = 5 ∧ sum (foldl record create demo_samples) = 7460.
Proof.
  destruct (summary_exact demo_samples (Double.of_Z 0)) as (H1&H2&_); [discriminate|cbn; lia|].
  split; [exact H1|]. etrans; [exact H2|]. vm_compute. reflexivity.
Defined.

(** Reported percentiles are not monotone at the extremes: the 50th
    percentile of a single reading of 10000 ns is the bucket's lower bound
    9984, below the 0th percentile and the minimum, 10000. *)
Theorem median_below_minimum :
  let h := record create 10000 in
  percentile h (Double.of_Z 50) = Some 9984 ∧ percentile h (Double.of_Z 0) = Some 10000 ∧
  min h = 10000.
Proof. vm_compute. done. Qed.

(** The rank of 99.9 among 1000 samples is 999; without the correction it
    would be 1000. *)
Lemma rank_correction :
  let p := Double.div (Double.of_Z 999) (Double.of_Z 10) in
  rank p 1000 = Some 999 ∧
  Double.ceil (Double.mul (Double.div p (Double.of_Z 100)) (Double.of_Z 1000)) = Some 1000.
Proof. vm_compute. done. Qed.

End Histogram.
