(* ===== verification/MarketMaker.v ===== *)
(** * The market maker (src/include/jane/strategy/market_maker.hpp)

    A two-sided quoter.  The theorems follow its messages over any sequence
    of ticks and of notices that an order is gone: per side at most one
    quote is outstanding, it is the one the strategy tracks, ids are never
    reused, quotes stay symmetric around the mid price, and a side over its
    inventory limit is withdrawn. *)

From S2P Require Import Prelude Types Wire Protocol.
From stdpp Require Import base tactics numbers list sets.

Set Default Goal Selector "!".

Module MarketMaker.
Import Protocol.

Record MarketMakerConfig := mkConfig {
  mm_symbol : Z;
  mm_client : Z;
  half_spread_ticks : Z;
  quote_size : Z;
  max_inventory : Z;
  initial_reference_price : Z;
}.

Record MarketMakerAction := mkAction {
  new_bid : option NewOrderMessage;
  new_ask : option NewOrderMessage;
  replace_bid : option ReplaceOrderMessage;
  replace_ask : option ReplaceOrderMessage;
  cancel_bid : option CancelOrderMessage;
  cancel_ask : option CancelOrderMessage;
}.

Record t := mk {
  config : MarketMakerConfig;
  next_order_id : Z;
  resting_bid_id : option Z;
  resting_ask_id : option Z;
  last_quoted_bid : Z;
  last_quoted_ask : Z;
}.

Definition create (c : MarketMakerConfig) (first_order_id : Z) : t :=
  mk c first_order_id None None 0 0.

(** Integer division of C++ truncates. *)
Definition compute_mid (c : MarketMakerConfig) (best_bid best_ask : option Z) : Z :=
  match best_bid, best_ask with
  | Some b, Some a => Z.quot (i64 (b + a)) 2
  | Some b, None => StrongAmount.add b (half_spread_ticks c)
  | None, Some a => StrongAmount.sub a (half_spread_ticks c)
  | None, None => initial_reference_price c
  end.

Definition make_new_order (c : MarketMakerConfig) (id : Z) (side : Side) (price : Z)
    : NewOrderMessage :=
  mkNewOrder id price (quote_size c) (mm_client c) (mm_symbol c) (side_code side)
    (order_type_code Limit) (tif_code Day) 0.

Definition make_replace (c : MarketMakerConfig) (id new_price : Z) : ReplaceOrderMessage :=
  mkReplaceOrder id new_price (quote_size c) (mm_client c) (mm_symbol c).

Definition make_cancel (c : MarketMakerConfig) (id : Z) : CancelOrderMessage :=
  mkCancelOrder id (mm_client c) (mm_symbol c).

(** What one side of a tick does: the messages, the next order id, the
    tracked id and the last quoted price. *)
Definition quote_side (c : MarketMakerConfig) (side : Side) (allowed : bool) (target : Z)
    (next : Z) (resting : option Z) (last_quoted : Z)
    : option NewOrderMessage * option ReplaceOrderMessage * option CancelOrderMessage *
      Z * option Z * Z :=
  if allowed then
    match resting with
    | None => (Some (make_new_order c next side target), None, None, u64 (next + 1), Some next, target)
    | Some id =>
        if negb (target =? last_quoted)%Z
        then (None, Some (make_replace c id target), None, next, resting, target)
        else (None, None, None, next, resting, last_quoted)
    end
  else
    match resting with
    | Some id => (None, None, Some (make_cancel c id), next, None, last_quoted)
    | None => (None, None, None, next, None, last_quoted)
    end.

Definition bid_allowed (c : MarketMakerConfig) (inventory : Z) : bool :=
  (inventory <? max_inventory c)%Z.
Definition ask_allowed (c : MarketMakerConfig) (inventory : Z) : bool :=
  (i64 (- max_inventory c) <? inventory)%Z.

Definition target_bid (c : MarketMakerConfig) (best_bid best_ask : option Z) : Z :=
  StrongAmount.sub (compute_mid c best_bid best_ask) (half_spread_ticks c).
Definition target_ask (c : MarketMakerConfig) (best_bid best_ask : option Z) : Z :=
  StrongAmount.add (compute_mid c best_bid best_ask) (half_spread_ticks c).

Definition on_tick (m : t) (best_bid best_ask : option Z) (inventory : Z) : MarketMakerAction * t :=
  let c := config m in
  let '(nb, rb, cb, next, bid, lb) :=
    quote_side c Buy (bid_allowed c inventory) (target_bid c best_bid best_ask)
      (next_order_id m) (resting_bid_id m) (last_quoted_bid m) in
  let '(na, ra, ca, next, ask, la) :=
    quote_side c Sell (ask_allowed c inventory) (target_ask c best_bid best_ask)
      next (resting_ask_id m) (last_quoted_ask m) in
  (mkAction nb na rb ra cb ca, mk c next bid ask lb la).

Definition forget (resting : option Z) (id : Z) : option Z :=
  match resting with
  | Some x => if (x =? id)%Z then None else Some x
  | None => None
  end.

Definition notify_order_gone (m : t) (id : Z) : t :=
  mk (config m) (next_order_id m) (forget (resting_bid_id m) id) (forget (resting_ask_id m) id)
    (last_quoted_bid m) (last_quoted_ask m).

(** ** Outstanding quotes

    The reference keeps, per side, the ids of the quotes that were sent and
    neither withdrawn nor reported gone. *)

Inductive event :=
  | EvTick (best_bid best_ask : option Z) (inventory : Z)
  | EvGone (id : Z).

Definition step (m : t) (ev : event) : option MarketMakerAction * t :=
  match ev with
  | EvTick b a inv => let '(act, m) := on_tick m b a inv in (Some act, m)
  | EvGone id => (None, notify_order_gone m id)
  end.

Definition sent (n : option NewOrderMessage) (ids : list Z) : list Z :=
  match n with Some n => ids ++ [no_order_id n] | None => ids end.
Definition withdrawn (c : option CancelOrderMessage) (ids : list Z) : list Z :=
  match c with Some c => List.filter (λ x, negb (x =? co_order_id c)%Z) ids | None => ids end.
Definition gone (id : Z) (ids : list Z) : list Z := List.filter (λ x, negb (x =? id)%Z) ids.

(** Outstanding bids and asks, and every id ever sent in a new order. *)
Record ledger := mkLedger { bids : list Z; asks : list Z; used : list Z }.

Definition observe (l : ledger) (ev : event) (act : option MarketMakerAction) : ledger :=
  match ev, act with
  | EvGone id, _ => mkLedger (gone id (bids l)) (gone id (asks l)) (used l)
  | _, Some act =>
      mkLedger (withdrawn (cancel_bid act) (sent (new_bid act) (bids l)))
        (withdrawn (cancel_ask act) (sent (new_ask act) (asks l)))
        (sent (new_ask act) (sent (new_bid act) (used l)))
  | _, None => l
  end.

Fixpoint run (m : t) (l : ledger) (evs : list event) : t * ledger :=
  match evs with
  | [] => (m, l)
  | ev :: evs => let '(act, m) := step m ev in run m (observe l ev act) evs
  end.

Definition tracks (resting : option Z) (ids : list Z) : Prop :=
  ids = match resting with Some id => [id] | None => [] end.

Lemma tracks_forget resting ids id : tracks resting ids → tracks (forget resting id) (gone id ids).
Proof.
  unfold tracks, gone, forget. intros ->. destruct resting as [x|]; [|done]. cbn.
  by destruct (Z.eqb_spec x id).
Qed.

(** One side of a tick keeps tracking what is outstanding. *)
Lemma quote_side_tracks c s allowed target next resting lq ids n r x next' resting' lq' :
  tracks resting ids →
  quote_side c s allowed target next resting lq = (n, r, x, next', resting', lq') →
  tracks resting' (withdrawn x (sent n ids)) ∧
  (next' = next ∧ n = None ∨
   next' = u64 (next + 1) ∧ ∃ m, n = Some m ∧ no_order_id m = next ∧ no_price m = target ∧
     no_side m = side_code s) ∧
  (allowed = false → n = None ∧ r = None ∧ resting' = None) ∧
  (∀ m, r = Some m → resting = Some (ro_order_id m) ∧ ro_new_price m = target) ∧
  (∀ m, x = Some m → resting = Some (co_order_id m)).
Proof.
  unfold quote_side, tracks. intros -> E.
  destruct allowed, resting as [id|]; [destruct (negb _)| | |]; injection E as <- <- <- <- <- <-; cbn;
    rewrite ?Z.eqb_refl; cbn; split_and!; eauto 10; try done; by intros m [= <-].
Qed.

(** The ids used are those handed out by the counter. *)
Definition ids_ok (m : t) (first : Z) (l : ledger) : Prop :=
  consecutive first (used l) (next_order_id m) ∧
  tracks (resting_bid_id m) (bids l) ∧ tracks (resting_ask_id m) (asks l).

Lemma sent_consecutive first us next next' n :
  is_u64 next → consecutive first us next →
  (next' = next ∧ n = None ∨
   next' = u64 (next + 1) ∧ ∃ m : NewOrderMessage, n = Some m ∧ no_order_id m = next) →
  consecutive first (sent n us) next' ∧ is_u64 next'.
Proof.
  intros Hn Hc [[-> ->]|[-> (m&->&Hm)]]; [done|]. cbn. rewrite Hm.
  split; [|apply u64_range]. eapply consecutive_app; [done|]. by apply consecutive_one.
Qed.

Lemma step_ids m first l ev act m' :
  is_u64 (next_order_id m) → ids_ok m first l → step m ev = (act, m') →
  is_u64 (next_order_id m') ∧ ids_ok m' first (observe l ev act) ∧ config m' = config m.
Proof.
  intros Hn (Hu&Hb&Ha) E. destruct ev as [b a inv|id]; cbn [step] in E.
  - unfold on_tick in E.
    destruct (quote_side _ Buy _ _ _ _ _) as [[[[[nb rb] cb] next1] bid] lb] eqn:E1.
    destruct (quote_side _ Sell _ _ _ _ _) as [[[[[na ra] ca] next2] ask] la] eqn:E2.
    injection E as <- <-.
    destruct (quote_side_tracks _ _ _ _ _ _ _ _ _ _ _ _ _ _ Hb E1) as (T1&N1&_).
    destruct (quote_side_tracks _ _ _ _ _ _ _ _ _ _ _ _ _ _ Ha E2) as (T2&N2&_).
    destruct (sent_consecutive _ _ _ next1 nb Hn Hu) as [Hu1 Hn1]; [naive_solver|].
    destruct (sent_consecutive _ _ _ next2 na Hn1 Hu1) as [Hu2 Hn2]; [naive_solver|].
    split; [done|]. split; [|done]. by split_and!.
  - injection E as <- <-. split; [done|]. split; [|done].
    split_and!; [done|by apply tracks_forget..].
Qed.

Lemma run_ids m first l evs :
  is_u64 (next_order_id m) → ids_ok m first l →
  let '(m', l') := run m l evs in
  is_u64 (next_order_id m') ∧ ids_ok m' first l' ∧ config m' = config m.
Proof.
  revert m l. induction evs as [|ev evs IH]; intros m l Hn Hi; [done|]. cbn [run].
  destruct (step m ev) as [act m'] eqn:E. destruct (step_ids _ _ _ _ _ _ Hn Hi E) as (Hn'&Hi'&Hc).
  specialize (IH m' _ Hn' Hi'). destruct (run m' _ evs) as [m'' l'']. by rewrite <- Hc.
Qed.

(** The market maker never loses or doubles a quote: over any sequence of
    ticks and notices, the quotes outstanding on each side are exactly the
    one it tracks, or none, and the ids of its new orders are consecutive, so
    no id is used twice (within 2^64 orders). *)
Theorem no_orphan_quotes c first evs :
  is_u64 first →
  let '(m, l) := run (create c first) (mkLedger [] [] []) evs in
  tracks (resting_bid_id m) (bids l) ∧ tracks (resting_ask_id m) (asks l) ∧
  consecutive first (used l) (next_order_id m).
Proof.
  intros Hf. pose proof (run_ids (create c first) first (mkLedger [] [] []) evs Hf) as H.
  destruct (run _ _ evs) as [m l].
  destruct H as (_&(H1&H2&H3)&_); [|done]. split_and!; [by apply consecutive_nil|done|done].
Qed.

(** A tick quotes around the mid price and within the inventory limit:
    prices sent for the bid are the mid minus, for the ask the mid plus, half
    the spread, so with a positive spread (and prices far from the ends of
    the type) the bid is below the ask; a side over its limit gets no quote
    and its resting quote is cancelled; replaces and cancels name the tracked
    order. *)
Theorem tick_quotes m b a inventory act m' :
  on_tick m b a inventory = (act, m') →
  let c := config m in
  let mid := compute_mid c b a in
  is_i64 (mid - half_spread_ticks c) → is_i64 (mid + half_spread_ticks c) →
  (0 < half_spread_ticks c)%Z →
  target_bid c b a = (mid - half_spread_ticks c)%Z ∧
  target_ask c b a = (mid + half_spread_ticks c)%Z ∧
  (target_bid c b a < target_ask c b a)%Z ∧
  (∀ n, new_bid act = Some n → no_price n = target_bid c b a ∧ no_side n = side_code Buy) ∧
  (∀ n, new_ask act = Some n → no_price n = target_ask c b a ∧ no_side n = side_code Sell) ∧
  (∀ r, replace_bid act = Some r →
     resting_bid_id m = Some (ro_order_id r) ∧ ro_new_price r = target_bid c b a) ∧
  (∀ r, replace_ask act = Some r →
     resting_ask_id m = Some (ro_order_id r) ∧ ro_new_price r = target_ask c b a) ∧
  ((max_inventory c ≤ inventory)%Z →
     new_bid act = None ∧ replace_bid act = None ∧ resting_bid_id m' = None ∧
     co_order_id <$> cancel_bid act = resting_bid_id m) ∧
  (is_i64 (- max_inventory c) → (inventory ≤ - max_inventory c)%Z →
     new_ask act = None ∧ replace_ask act = None ∧ resting_ask_id m' = None ∧
     co_order_id <$> cancel_ask act = resting_ask_id m).
Proof.
  intros E c mid Hlo Hhi Hs.
  assert (target_bid c b a = mid - half_spread_ticks c)%Z as Eb by by apply i64_id.
  assert (target_ask c b a = mid + half_spread_ticks c)%Z as Ea by by apply i64_id.
  unfold on_tick in E. fold c in E.
  destruct (quote_side c Buy _ _ _ _ _) as [[[[[nb rb] cb] next1] bid] lb] eqn:E1.
  destruct (quote_side c Sell _ _ _ _ _) as [[[[[na ra] ca] next2] ask] la] eqn:E2.
  injection E as <- <-.
  cbn [new_bid new_ask replace_bid replace_ask cancel_bid cancel_ask resting_bid_id resting_ask_id].
  destruct (quote_side_tracks _ _ _ _ _ _ _ _ _ _ _ _ _ _ (eq_refl _) E1) as (_&N1&_&R1&_).
  destruct (quote_side_tracks _ _ _ _ _ _ _ _ _ _ _ _ _ _ (eq_refl _) E2) as (_&N2&_&R2&_).
  split_and!; [done|done|lia|naive_solver|naive_solver|done|done| |].
  - intros Hinv. unfold bid_allowed in E1. rewrite (proj2 (Z.ltb_ge _ _)) in E1 by done.
    unfold quote_side in E1. by destruct (resting_bid_id m); injection E1 as <- <- <- <- <- <-.
  - intros Hm Hinv. unfold ask_allowed in E2. rewrite (i64_id _ Hm), (proj2 (Z.ltb_ge _ _)) in E2 by done.
    unfold quote_side in E2. by destruct (resting_ask_id m); injection E2 as <- <- <- <- <- <-.
Qed.

(** ** A concrete quoter *)

Definition demo_config : MarketMakerConfig := mkConfig 7 9 2 10 50 100.

Definition demo_events : list event :=
  [EvTick None None 0; EvTick (Some 104%Z) (Some 108%Z) 10; EvTick (Some 104%Z) (Some 108%Z) 50;
   EvGone 2; EvTick None (Some 108%Z) 0].

Lemma no_orphan_quotes_witness :
  let '(m, l) := run (create demo_config 1) (mkLedger [] [] []) demo_events in
  tracks (resting_bid_id m) (bids l) ∧ used l = [1; 2; 3; 4]%Z.
Proof.
  pose proof (no_orphan_quotes demo_config 1 demo_events ltac:(unfold is_u64; lia)) as H.
  change (run (create demo_config 1) (mkLedger [] [] []) demo_events)
    with (mk demo_config 5 (Some 3%Z) (Some 4%Z) 104 108, mkLedger [3%Z] [4%Z] [1; 2; 3; 4]%Z) in *.
  destruct H as [H _]. split; [exact H|reflexivity].
Defined.

Lemma tick_quotes_witness :
  co_order_id <$> cancel_bid (on_tick (mk demo_config 5 (Some 3%Z) (Some 4%Z) 104 108)
    (Some 104%Z) (Some 108%Z) 60).1 = Some 3%Z.
Proof.
  destruct (tick_quotes (mk demo_config 5 (Some 3%Z) (Some 4%Z) 104 108) (Some 104%Z) (Some 108%Z) 60
    _ _ (surjective_pairing _)) as (_&_&_&_&_&_&_&H&_).
  - vm_compute. split; [discriminate|reflexivity].
  - vm_compute. split; [discriminate|reflexivity].
  - reflexivity.
  - destruct H as (_&_&_&H); [vm_compute; discriminate|]. exact H.
Defined.

End MarketMaker.
