(* ===== verification/Quoting.v ===== *)
(** * The market maker at the exchange

    The strategy of src/include/jane/strategy/market_maker.hpp trading on the
    engine of src/include/jane/replay/replay_engine.hpp, as its comments
    describe: at a tick it is shown the best prices of the book and the
    position the risk engine holds for it, and its messages are processed;
    between ticks other clients trade; it is told that an order is gone only
    when it is.  The theorem bounds its inventory as long as nobody else
    replaces its orders, which the replay engine does not prevent. *)

From S2P Require Import Prelude Types Level HashMap OrderBook BookSpec Matching MatchSpec.
From S2P Require Import Exchange Engine Account Risk Wire Protocol Sinks Publisher Replay Feed.
From S2P Require Import MarketMaker.
From stdpp Require Import base tactics numbers list sets gmap.

Set Default Goal Selector "!".

Module Quoting.
Import Level OrderBook Matching MatchSpec Protocol Replay Exchange Account.

(** ** What a request does *)

Section requests.
Context (NumLevels MaxOrders : nat) (sym base : Z).
Context {M R S : Type} `{!HashMap Z nat M, !HashMapLaws Z nat M}.
Context `{!HashMap Z Risk.ClientExposure R, !HashMapLaws Z Risk.ClientExposure R}.
Context `{!Sink S, !SinkLaws S} (Hsym : is_u32 sym).
Implicit Types (st : Replay.t M R S).

Abbreviation ready := (Feed.ready NumLevels MaxOrders sym base).

Definition command_of st (rq : request) : Engine.command :=
  match rq with
  | ReqNew wire ts => Engine.CmdSubmit (order_of_wire wire (next_sequence st) ts)
  | ReqCancel wire => Engine.CmdCancel (co_order_id wire)
  | ReqReplace wire ts =>
      Engine.CmdReplace (ro_order_id wire) (ro_new_price wire) (ro_new_quantity wire)
        (next_sequence st) ts
  end.

Definition legs (fs : list Fill) : list Risk.leg := concat (Feed.fill_legs sym <$> fs).

(** Either nothing happens to the engine, or it executes the command of the
    request; the risk engine records the fills. *)
Lemma process_exec st rq :
  ready st → request_ok rq →
  let st' := process NumLevels st rq in
  ∃ fs, (matching st' = matching st ∧ fs = [] ∨
         Engine.exec NumLevels (matching st) [] (command_of st rq) = (matching st', fs)) ∧
    risk st' = foldl Risk.record_leg (risk st) (legs fs).
Proof.
  intros Hrd Hrq. destruct rq as [wire ts|wire|wire ts]; cbn [process command_of Engine.exec].
  - unfold process_new_order. cbv zeta.
    destruct (Feed.order_of_wire_ok wire (next_sequence st) ts Hrq) as (Hty&Hid&Hsy).
    set (order := order_of_wire _ _ _) in *. destruct (negb _); [by exists []; split; [left|]|].
    destruct (Feed.match_and_publish_stepped NumLevels MaxOrders sym base Hsym (take_sequence st) order)
      as (r&e'&fs&evs&E&Hst); try done; [by destruct Hrd|].
    exists fs. split; [right|].
    + rewrite match_and_publish_matching. cbn [matching take_sequence] in E |- *. by rewrite E.
    + destruct Hst as (st0&keys&_&Er&_&_&_&_&_&Hem). rewrite (Feed.em_risk _ _ _ _ _ _ _ _ Hem).
      by rewrite Er.
  - exists []. split; [right|].
    + rewrite (Feed.process_cancel_matching NumLevels MaxOrders sym base) by apply Hrd. done.
    + unfold process_cancel. destruct (find _ _); [|done].
      destruct (Matching.cancel _ _) as [[[]] e']; cbn [cancel_accepted]; [|done].
      unfold publish_level. by destruct (level_at _ _ _ _).
  - destruct (Feed.process_replace_stepped NumLevels MaxOrders sym base Hsym st wire ts Hrd Hrq)
      as (rep&evs&fs&Hst&_&res&e'&E).
    exists fs. split; [right|].
    + rewrite process_replace_matching, E. done.
    + destruct Hst as (st0&keys&_&Er&_&_&_&_&_&Hem). rewrite (Feed.em_risk _ _ _ _ _ _ _ _ Hem).
      by rewrite Er.
Qed.

(** The client's position is what its fills add up to. *)
Lemma position_net c lims fs :
  is_u32 c → Forall clients_u32 fs →
  Risk.position (foldl Risk.record_leg (Risk.create lims) (legs fs) : Risk.t R) c sym = i64 (net c fs).
Proof.
  intros Hc Hfs. destruct (Risk.exposure_is_ledger lims (legs fs) c sym) as (_&->&_). f_equal.
  assert (∀ x, is_u32 x → (Risk.account_key x sym =? Risk.account_key c sym)%Z = (x =? c)%Z) as Hk.
  { intros x Hx. destruct (Z.eqb_spec x c) as [->|Hn]; [apply Z.eqb_refl|].
    apply Z.eqb_neq. intros E. by apply Risk.account_key_injective in E as [? _]. }
  induction Hfs as [|f fs [Hr Ha] Hfs IH]; [done|]. unfold legs in *. rewrite fmap_cons. cbn [concat].
  rewrite Risk.legs_of_app, fmap_app, zsum_app, IH, net_cons. f_equal. unfold net_fill.
  unfold Risk.legs_of, Feed.fill_legs, Risk.leg_key. cbn [List.filter Risk.leg_client Risk.leg_symbol].
  rewrite (Hk _ Hr), (Hk _ Ha).
  destruct (resting_client_id f =? c)%Z, (aggressor_client_id f =? c)%Z; cbn [fmap list_fmap];
    rewrite ?zsum_cons; unfold Risk.leg_position; cbn [Risk.leg_side Risk.leg_qty];
    case_side (aggressor_side f); cbn [sgn]; change (zsum []) with 0%Z; lia.
Qed.

Abbreviation abs st := (Exchange.abs_of NumLevels MaxOrders (matching st)).

Lemma ready_clients st : ready st → Engine.all_orders client_u32 (abs st).
Proof. intros Hrd s o Ho. apply (Feed.rd_ids _ _ _ _ _ Hrd s o Ho). Qed.

Lemma command_ok st rq :
  request_ok rq → Engine.cmd_typed (command_of st rq) ∧ Engine.cmd_keeps client_u32 (command_of st rq).
Proof.
  intros Hrq. destruct rq as [wire ts|wire|wire ts]; cbn.
  - destruct (Feed.order_of_wire_ok wire (next_sequence st) ts Hrq) as (Hty&Hid&_).
    split; [done|]. apply Hid.
  - done.
  - destruct Hrq as (_&?&?&_). done.
Qed.

(** A request keeps what holds of all orders, if the new order has it. *)
Lemma process_keeps (Pr : Order → Prop) st rq :
  (∀ o n, Pr o → Pr (set_remaining n o)) →
  (∀ o price qty seq ts, Pr o → Pr (retermed o price qty seq ts)) →
  ready st → request_ok rq → Engine.cmd_keeps Pr (command_of st rq) →
  Engine.all_orders Pr (abs st) → Engine.all_orders Pr (abs (process NumLevels st rq)).
Proof.
  intros H1 H2 Hrd Hrq Hk HA. destruct (process_exec st rq Hrd Hrq) as (fs&[[-> _]|E]&_); [done|].
  destruct (command_ok st rq Hrq) as [Hty _].
  pose proof (Engine.exec_keeps NumLevels MaxOrders Pr H1 H2 sym base _ [] _
    (Feed.rd_engine _ _ _ _ _ Hrd) Hty Hk HA) as H. by rewrite E in H.
Qed.

(** *** The account of client [c] *)

Section client.
Context (c : Z).

Lemma process_new st wire ts P :
  ready st → request_ok (ReqNew wire ts) →
  let st' := process NumLevels st (ReqNew wire ts) in
  ∃ fs, risk st' = foldl Risk.record_leg (risk st) (legs fs) ∧ Forall clients_u32 fs ∧
    gains c (read_side (no_side wire)) (adds c (no_client_id wire) (no_quantity wire))
      P (abs st) (P + net c fs) (abs st') ∧
    forward c (read_side (no_side wire)) (no_client_id wire) P (P + net c fs).
Proof.
  intros Hrd Hrq st'. destruct (process_exec st _ Hrd Hrq) as (fs&He&Hr). fold st' in He, Hr.
  exists fs. split; [done|]. destruct (command_ok st _ Hrq) as [Hty Hk].
  destruct He as [[-> ->]|E].
  { change (net c []) with 0%Z. rewrite Z.add_0_r. split; [done|].
    split; [apply gains_refl, adds_nonneg|by intros _]. }
  split; [exact (exec_clients NumLevels MaxOrders sym base _ _ _ _
    (Feed.rd_engine _ _ _ _ _ Hrd) Hty (ready_clients st Hrd) Hk E)|].
  cbn [command_of Engine.exec] in E. set (order := order_of_wire _ _ _) in *.
  destruct (submit NumLevels (matching st) order []) as [[r e'] fs'] eqn:Es. injection E as <- ->.
  apply (submit_account c NumLevels MaxOrders sym base _ order r _ _ P); [apply Hrd|apply Hty|done].
Qed.

Lemma process_cancelled st wire :
  ready st → request_ok (ReqCancel wire) →
  let st' := process NumLevels st (ReqCancel wire) in
  risk st' = risk st ∧ abs st' = a_remove (abs st) (co_order_id wire).
Proof.
  intros Hrd Hrq st'. split.
  - unfold st'. cbn [process]. unfold process_cancel. destruct (find _ _); [|done].
    destruct (Matching.cancel _ _) as [[[]] e']; cbn [cancel_accepted]; [|done].
    unfold publish_level. by destruct (level_at _ _ _ _).
  - unfold st'. cbn [process].
    rewrite (Feed.process_cancel_matching NumLevels MaxOrders sym base) by apply Hrd.
    by apply (cancel_account NumLevels MaxOrders sym base), Hrd.
Qed.

Lemma process_replaced st wire ts P :
  ready st → request_ok (ReqReplace wire ts) →
  let st' := process NumLevels st (ReqReplace wire ts) in
  ∃ fs, risk st' = foldl Risk.record_leg (risk st) (legs fs) ∧ Forall clients_u32 fs ∧
    (abs st' = abs st ∧ fs = [] ∨
     ∃ o, a_find (abs st) (ro_order_id wire) = Some o ∧
       gains c (ord_side o) (adds c (ord_client o) (ro_new_quantity wire))
         P (a_remove (abs st) (ro_order_id wire)) (P + net c fs) (abs st') ∧
       forward c (ord_side o) (ord_client o) P (P + net c fs)).
Proof.
  intros Hrd Hrq st'. destruct (process_exec st _ Hrd Hrq) as (fs&He&Hr). fold st' in He, Hr.
  exists fs. split; [done|]. destruct (command_ok st _ Hrq) as [Hty Hk].
  destruct He as [[-> ->]|E]; [split; [done|by left]|].
  split; [exact (exec_clients NumLevels MaxOrders sym base _ _ _ _
    (Feed.rd_engine _ _ _ _ _ Hrd) Hty (ready_clients st Hrd) Hk E)|].
  cbn [command_of Engine.exec] in E.
  destruct (Matching.replace _ _ _ _ _ _ _ _) as [[res e'] fs'] eqn:Es. injection E as <- ->.
  destruct Hty as [Hp Hq].
  apply (replace_account c NumLevels MaxOrders sym base _ _ _ _ _ _ _ _ _ P
    (Feed.rd_engine _ _ _ _ _ Hrd) Hp Hq Es).
Qed.

End client.
End requests.

(** ** The venue *)

(** The messages of one side of a tick, as requests. *)
Definition side_requests (n : option NewOrderMessage) (r : option ReplaceOrderMessage)
    (x : option CancelOrderMessage) (ts : Z) : list request :=
  option_list ((λ m, ReqNew m ts) <$> n) ++ option_list ((λ m, ReqReplace m ts) <$> r) ++
  option_list (ReqCancel <$> x).

Definition requests (act : MarketMaker.MarketMakerAction) (ts : Z) : list request :=
  side_requests (MarketMaker.new_bid act) (MarketMaker.replace_bid act)
    (MarketMaker.cancel_bid act) ts ++
  side_requests (MarketMaker.new_ask act) (MarketMaker.replace_ask act)
    (MarketMaker.cancel_ask act) ts.

Section venue.
Context (NumLevels MaxOrders : nat) (base : Z) (cfg : MarketMaker.MarketMakerConfig) (first : Z).
Context {M R S : Type} `{!HashMap Z nat M, !HashMapLaws Z nat M}.
Context `{!HashMap Z Risk.ClientExposure R, !HashMapLaws Z Risk.ClientExposure R}.
Context `{!Sink S, !SinkLaws S} (lims : Risk.Limits) (s0 : S) (scratch : nat).
Implicit Types (st : Replay.t M R S).

Abbreviation sym := (MarketMaker.mm_symbol cfg).
Abbreviation c := (MarketMaker.mm_client cfg).
Abbreviation qty := (MarketMaker.quote_size cfg).
Abbreviation bound := (MarketMaker.max_inventory cfg + MarketMaker.quote_size cfg - 1)%Z.
Abbreviation ready := (Feed.ready NumLevels MaxOrders sym base).
Abbreviation abs st := (Exchange.abs_of NumLevels MaxOrders (matching st)).

Record t := mk { maker : MarketMaker.t; exchange : Replay.t M R S }.

(** A request of a client that minds its own orders: not in the maker's name,
    with an id below the ones the maker was given, and not a replace of a
    maker's order; it may cancel any order.  The replay engine does not
    enforce this: it finds the order of a replace by its id and does not
    compare the clients ([foreign_replace_unbounded]). *)
Definition foreign st (rq : request) : Prop :=
  match rq with
  | ReqNew wire _ => no_client_id wire ≠ c ∧ (no_order_id wire < first)%Z
  | ReqCancel _ => True
  | ReqReplace wire _ =>
      ∀ p, find (book (matching st)) (ro_order_id wire) = Some p →
        ord_client (node_order (deref (heap_of (book (matching st))) p)) ≠ c
  end.

Inductive step : t → t → Prop :=
  | step_other m st rq :
      request_ok rq → foreign st rq → step (mk m st) (mk m (process NumLevels st rq))
  | step_gone m st id :
      find (book (matching st)) id = None →
      step (mk m st) (mk (MarketMaker.notify_order_gone m id) st)
  | step_tick m st ts act m' :
      (MarketMaker.next_order_id m + 2 < 2 ^ 64)%Z →
      MarketMaker.on_tick m (best_bid (book (matching st))) (best_ask (book (matching st)))
        (Risk.position (risk st) c sym) = (act, m') →
      step (mk m st) (mk m' (run NumLevels st (requests act ts))).

Inductive reachable : t → Prop :=
  | reach_start :
      reachable (mk (MarketMaker.create cfg first)
        (Feed.session NumLevels MaxOrders sym base lims s0 scratch))
  | reach_next v v' : reachable v → step v v' → reachable v'.

(** ** The invariant *)

(** The configuration is sensible and its members fit their types. *)
Definition quoter_ok : Prop :=
  is_u32 c ∧ is_u32 sym ∧ (0 < qty < 2 ^ 63)%Z ∧ (0 ≤ MarketMaker.max_inventory cfg)%Z ∧
  (bound < 2 ^ 63)%Z ∧ (0 ≤ first < 2 ^ 64)%Z.

Context (Hcfg : quoter_ok).

Lemma maker_sym : is_u32 sym.
Proof. apply Hcfg. Qed.

(** An order of the maker is the tracked one of its side; the others have
    smaller ids. *)
Definition own (tr : Side → option Z) (o : Order) : Prop :=
  if (ord_client o =? c)%Z then tr (ord_side o) = Some (ord_id o) else (ord_id o < first)%Z.

Record inv (tr : Side → option Z) (next : Z) st (fs : list Fill) : Prop := {
  iv_ready : ready st;
  iv_own : Engine.all_orders (own tr) (abs st);
  iv_open s : (open_of c (a_side (abs st) s) ≤ qty)%Z;
  iv_reach s : (reach c s (net c fs) (abs st) ≤ bound)%Z;
  iv_risk : risk st = foldl Risk.record_leg (Risk.create lims) (legs sym fs);
  iv_clients : Forall clients_u32 fs;
  iv_ids s id : tr s = Some id → (first ≤ id < next)%Z;
  iv_distinct s id : tr s = Some id → tr (opposite s) ≠ Some id;
  iv_next : (first ≤ next < 2 ^ 64)%Z;
}.

Lemma own_remaining tr o n : own tr o → own tr (set_remaining n o).
Proof. done. Qed.

Lemma own_retermed tr o price q seq ts : own tr o → own tr (retermed o price q seq ts).
Proof. done. Qed.

Lemma legs_app fs fs' : legs sym (fs ++ fs') = legs sym fs ++ legs sym fs'.
Proof. unfold legs. by rewrite fmap_app, concat_app. Qed.

(** The position is exact: it stays within the type. *)
Lemma net_range tr next st fs : inv tr next st fs → (- bound ≤ net c fs ≤ bound)%Z.
Proof.
  intros H. pose proof (iv_reach _ _ _ _ H Buy) as H1. pose proof (iv_reach _ _ _ _ H Sell) as H2.
  pose proof (λ s, open_of_nonneg c _ (proj1 (Engine.engine_open _ _ _ _ _ s
    (Feed.rd_engine _ _ _ _ _ (iv_ready _ _ _ _ H))))) as Ho.
  unfold reach in *. cbn [sgn] in *. pose proof (Ho Buy). pose proof (Ho Sell). lia.
Qed.

Lemma inv_position tr next st fs :
  inv tr next st fs → Risk.position (risk st) c sym = net c fs.
Proof.
  intros H. destruct Hcfg as (Hc&Hs&?&?&?&_). rewrite (iv_risk _ _ _ _ H).
  rewrite position_net by (done || apply H). apply i64_id.
  pose proof (net_range _ _ _ _ H). unfold is_i64. lia.
Qed.

(** Nothing tracked, nothing open. *)
Lemma untracked_open tr A s :
  Engine.all_orders (own tr) A → (∀ o, o ∈ a_side A s → ord_side o = s) →
  (∀ o, o ∈ a_side A s → tr s ≠ Some (ord_id o)) → open_of c (a_side A s) = 0%Z.
Proof.
  intros HA Hsd Hn. apply open_of_none. intros o Ho Hc. apply (Hn o Ho).
  pose proof (HA s o Ho) as H. unfold own in H. rewrite (proj2 (Z.eqb_eq _ _) Hc) in H.
  by rewrite (Hsd o Ho) in H.
Qed.

Lemma abs_sides st s o : ready st → o ∈ a_side (abs st) s → ord_side o = s.
Proof. intros Hrd Ho. by eapply Feed.side_price in Ho as [_ ?]; [|apply Hrd]. Qed.

Lemma inv_ext tr tr' next st fs : (∀ s, tr s = tr' s) → inv tr next st fs → inv tr' next st fs.
Proof.
  intros E [? Ho ? ? ? ? Hi Hd ?]. split; try done.
  - intros s o Hx. pose proof (Ho s o Hx) as H. unfold own in *. by rewrite <- E.
  - intros s id. rewrite <- E. apply Hi.
  - intros s id. rewrite <- !E. apply Hd.
Qed.

(** The invariant after a request, from what the request did to the account
    and what is tracked then. *)
Lemma inv_after tr next st fs rq fs' tr' next' :
  inv tr next st fs → request_ok rq →
  let st' := process NumLevels st rq in
  risk st' = foldl Risk.record_leg (risk st) (legs sym fs') → Forall clients_u32 fs' →
  Engine.all_orders (own tr') (abs st') →
  (∀ s, (open_of c (a_side (abs st') s) ≤ qty)%Z ∧
        (reach c s (net c fs + net c fs') (abs st') ≤ bound)%Z) →
  (∀ s id, tr' s = Some id → (first ≤ id < next')%Z ∧ tr' (opposite s) ≠ Some id) →
  (first ≤ next' < 2 ^ 64)%Z →
  inv tr' next' st' (fs ++ fs').
Proof.
  intros H Hrq st' Hr Hcl Ho Hs Hids Hn. split; try done.
  - exact (Feed.process_ready NumLevels MaxOrders sym base maker_sym _ _ (iv_ready _ _ _ _ H) Hrq).
  - intros s. apply Hs.
  - intros s. rewrite net_app. apply Hs.
  - by rewrite legs_app, foldl_app, Hr, (iv_risk _ _ _ _ H).
  - apply Forall_app_2; [apply H|done].
  - intros s id Hid. exact (proj1 (Hids s id Hid)).
  - intros s id Hid. exact (proj2 (Hids s id Hid)).
Qed.

Lemma inv_tracked tr next st fs s id :
  inv tr next st fs → tr s = Some id → (first ≤ id < next)%Z ∧ tr (opposite s) ≠ Some id.
Proof. intros H Hid. split; [by eapply iv_ids|by eapply iv_distinct]. Qed.

(** ** Other clients *)

Lemma gains_bounds tr next st fs s k P' A' :
  inv tr next st fs → gains c s k (net c fs) (abs st) P' A' → (k ≤ 0)%Z →
  ∀ s', (open_of c (a_side A' s') ≤ qty)%Z ∧ (reach c s' P' A' ≤ bound)%Z.
Proof.
  intros H [Hr Ho] Hk s'. specialize (Hr s'). specialize (Ho s').
  pose proof (iv_open _ _ _ _ H s'). pose proof (iv_reach _ _ _ _ H s').
  case_decide; lia.
Qed.

Lemma gains_trans s k P A P1 A1 P2 A2 :
  gains c s 0 P A P1 A1 → gains c s k P1 A1 P2 A2 → gains c s k P A P2 A2.
Proof.
  intros [H1 H2] [H3 H4]. split; intros s'; specialize (H1 s'); specialize (H2 s');
    specialize (H3 s'); specialize (H4 s'); case_decide; lia.
Qed.

Lemma open_sides st : ready st → ∀ s, MatchSpec.open_ok (a_side (abs st) s).
Proof. intros Hrd s. apply (Engine.engine_open _ _ _ _ _ s (Feed.rd_engine _ _ _ _ _ Hrd)). Qed.

Lemma other_inv tr next st fs rq :
  inv tr next st fs → request_ok rq → foreign st rq →
  ∃ fs', inv tr next (process NumLevels st rq) (fs ++ fs').
Proof.
  intros H Hrq Hf. pose proof (iv_ready _ _ _ _ H) as Hrd.
  assert (Engine.cmd_keeps (own tr) (command_of st rq)) as Hk.
  { destruct rq as [wire ts|wire|wire ts]; [|done..]. destruct Hf as [Hc Hid]. cbn. unfold own.
    cbn [order_of_wire ord_client ord_id]. by rewrite (proj2 (Z.eqb_neq _ _)). }
  pose proof (process_keeps NumLevels MaxOrders sym base maker_sym (own tr) st rq
    (own_remaining tr) (own_retermed tr) Hrd Hrq Hk (iv_own _ _ _ _ H)) as Hown.
  enough (∃ fs', risk (process NumLevels st rq) = foldl Risk.record_leg (risk st) (legs sym fs') ∧
    Forall clients_u32 fs' ∧ ∃ s, gains c s 0 (net c fs) (abs st) (net c fs + net c fs')
      (abs (process NumLevels st rq))) as (fs'&Hr&Hcl&s&Hg).
  { exists fs'. eapply inv_after; [done|done|done|done|done| | |apply H].
    - by eapply gains_bounds.
    - intros s' id. by apply inv_tracked with (1 := H). }
  destruct rq as [wire ts|wire|wire ts].
  - destruct (process_new NumLevels MaxOrders sym base maker_sym c st wire ts (net c fs) Hrd Hrq)
      as (fs'&Hr&Hcl&Hg&_). exists fs'. split; [done|]. split; [done|]. eexists.
    destruct Hf as [Hc _]. unfold adds in Hg. by rewrite (proj2 (Z.eqb_neq _ _) Hc) in Hg.
  - destruct (process_cancelled NumLevels MaxOrders sym base st wire Hrd Hrq) as [Hr Ha].
    exists []. split; [done|]. split; [done|]. exists Buy. rewrite Ha. change (net c []) with 0%Z.
    rewrite Z.add_0_r. apply remove_gains, open_sides, Hrd.
  - destruct (process_replaced NumLevels MaxOrders sym base maker_sym c st wire ts (net c fs) Hrd Hrq)
      as (fs'&Hr&Hcl&[[Ha ->]|(o&Ho&Hg&_)]); exists fs' || exists []; (split; [done|]; split; [done|]).
    + exists Buy. rewrite Ha. change (net c []) with 0%Z. rewrite Z.add_0_r. by apply gains_refl.
    + exists (ord_side o). eapply gains_trans; [apply remove_gains, open_sides, Hrd|].
      assert (ord_client o ≠ c) as Hc.
      { destruct (eo_book _ _ _ _ _ (Feed.rd_engine _ _ _ _ _ Hrd)) as (F&L&G&Q&Hrep).
        rewrite (find_a_find _ _ _ _ _ _ _ _ Hrep) in Ho.
        destruct (hm_find _ _) as [p|] eqn:Hp; [|done]. injection Ho as <-. by apply Hf. }
      unfold adds in Hg. by rewrite (proj2 (Z.eqb_neq _ _) Hc) in Hg.
Qed.

(** ** The maker *)

Definition set_tr (tr : Side → option Z) (s : Side) (r : option Z) : Side → option Z :=
  λ s', if decide (s' = s) then r else tr s'.

Lemma set_tr_same tr s r : set_tr tr s r s = r.
Proof. unfold set_tr. by rewrite decide_True. Qed.

Lemma set_tr_other tr s s' r : s' ≠ s → set_tr tr s r s' = tr s'.
Proof. intros. unfold set_tr. by rewrite decide_False. Qed.

(** A side goes from what was open, which is nothing any more, to one quote. *)
Lemma fresh_bounds tr next st fs s A P' A' :
  inv tr next st fs → gains c s 0 (net c fs) (abs st) (net c fs) A →
  open_of c (a_side A s) = 0%Z → (sgn s * net c fs ≤ MarketMaker.max_inventory cfg - 1)%Z →
  gains c s qty (net c fs) A P' A' →
  ∀ s', (open_of c (a_side A' s') ≤ qty)%Z ∧ (reach c s' P' A' ≤ bound)%Z.
Proof.
  intros H [Hr0 Ho0] Hz Hm [Hr Ho] s'. specialize (Hr s'). specialize (Ho s').
  specialize (Hr0 s'). specialize (Ho0 s').
  pose proof (iv_open _ _ _ _ H s'). pose proof (iv_reach _ _ _ _ H s').
  case_decide as Hs; [subst s'; unfold reach in *|]; lia.
Qed.

Lemma adds_own q : (0 < q)%Z → adds c c q = q.
Proof. intros. unfold adds. rewrite Z.eqb_refl. lia. Qed.

(** A new quote on a side where nothing is tracked. *)
Lemma new_quote tr next st fs s target ts :
  inv tr next st fs → is_i64 target → (next + 1 < 2 ^ 64)%Z → tr s = None →
  (sgn s * net c fs ≤ MarketMaker.max_inventory cfg - 1)%Z →
  let rq := ReqNew (MarketMaker.make_new_order cfg next s target) ts in
  ∃ fs', inv (set_tr tr s (Some next)) (next + 1) (process NumLevels st rq) (fs ++ fs') ∧
    (sgn (opposite s) * net c (fs ++ fs') ≤ sgn (opposite s) * net c fs)%Z.
Proof.
  intros H Ht Hnx Htr Hm rq. pose proof (iv_ready _ _ _ _ H) as Hrd.
  destruct Hcfg as (Hc&Hsy&Hq&Hmx&Hb&Hf). pose proof (iv_next _ _ _ _ H) as Hn.
  assert (request_ok rq) as Hrq.
  { split; [|apply side_code_is]. cbn. unfold is_u64, is_i64, is_u8 in *.
    pose proof (side_code_u8 s). split_and!; try done; unfold is_u8 in *; lia. }
  set (tr' := set_tr tr s (Some next)).
  assert (Engine.all_orders (own tr') (abs st)) as HA.
  { intros s' o Ho. pose proof (iv_own _ _ _ _ H s' o Ho) as Hx. unfold own in *.
    destruct (ord_client o =? c)%Z; [|done]. destruct (decide (ord_side o = s)) as [E|E].
    - by rewrite E, Htr in Hx.
    - unfold tr'. by rewrite set_tr_other. }
  assert (Engine.cmd_keeps (own tr') (command_of st rq)) as Hk.
  { cbn. unfold own, ord_side, tr'. cbn. by rewrite Z.eqb_refl, read_side_code, set_tr_same. }
  pose proof (process_keeps NumLevels MaxOrders sym base maker_sym (own tr') st rq
    (own_remaining tr') (own_retermed tr') Hrd Hrq Hk HA) as Hown.
  destruct (process_new NumLevels MaxOrders sym base maker_sym c st _ ts (net c fs) Hrd Hrq)
    as (fs'&Hr&Hcl&Hg&Hfw). cbn in Hg, Hfw. rewrite read_side_code in Hg, Hfw.
  rewrite (adds_own _ (proj1 Hq)) in Hg. exists fs'. rewrite net_app. split; [|by apply Hfw].
  eapply inv_after; [exact H|done|done|done|done| | |lia].
  - eapply fresh_bounds; [exact H|by apply gains_refl| |done|exact Hg].
    eapply untracked_open; [apply H|intros o; by apply abs_sides|]. by rewrite Htr.
  - intros s' id. unfold tr'. destruct (decide (s' = s)) as [-> |Hs].
    + rewrite set_tr_same, set_tr_other by apply opposite_ne. intros [= <-]. split; [lia|].
      intros Hx. pose proof (iv_ids _ _ _ _ H _ _ Hx). lia.
    + rewrite set_tr_other by done. intros Hid. pose proof (iv_ids _ _ _ _ H _ _ Hid).
      split; [lia|]. assert (opposite s' = s) as -> by (by destruct s, s').
      rewrite set_tr_same. intros [= ->]. lia.
Qed.

(** The quote of a side is withdrawn. *)
Lemma cancel_quote tr next st fs s id :
  inv tr next st fs → tr s = Some id →
  let rq := ReqCancel (MarketMaker.make_cancel cfg id) in
  inv (set_tr tr s None) next (process NumLevels st rq) fs.
Proof.
  intros H Htr rq. pose proof (iv_ready _ _ _ _ H) as Hrd.
  destruct Hcfg as (Hc&Hsy&Hq&Hmx&Hb&Hf). pose proof (iv_next _ _ _ _ H) as Hn.
  pose proof (iv_ids _ _ _ _ H _ _ Htr) as Hid.
  assert (request_ok rq) as Hrq by (cbn; unfold is_u64; split_and!; try done; lia).
  destruct (process_cancelled NumLevels MaxOrders sym base st _ Hrd Hrq) as [Hr Ha].
  cbn [MarketMaker.make_cancel co_order_id] in Ha. rewrite <- (app_nil_r fs).
  eapply inv_after; [exact H|done|done|done| | | |done].
  - fold rq in Ha. rewrite Ha. intros s' o Ho.
    assert (o ∈ a_side (abs st) s' ∧ ord_id o ≠ id) as [Ho' Hne]
      by (destruct s'; cbn in Ho; by apply remove_elem in Ho).
    pose proof (iv_own _ _ _ _ H s' o Ho') as Hx. unfold own in *.
    destruct (ord_client o =? c)%Z; [|done]. destruct (decide (ord_side o = s)) as [E|E].
    + rewrite E, Htr in Hx. by injection Hx as ->.
    + by rewrite set_tr_other.
  - fold rq in Ha. rewrite Ha. change (net c []) with 0%Z. rewrite Z.add_0_r.
    eapply gains_bounds; [exact H|by apply (remove_gains c s), open_sides|done].
  - intros s' x. destruct (decide (s' = s)) as [-> |Hs]; [by rewrite set_tr_same|].
    rewrite set_tr_other by done. intros Hx. split; [by eapply iv_ids|].
    assert (opposite s' = s) as -> by (by destruct s, s'). by rewrite set_tr_same.
Qed.

(** The order a tracked id finds is the maker's, on that side. *)
Lemma tracked_order tr next st fs s id o :
  inv tr next st fs → tr s = Some id → a_find (abs st) id = Some o →
  ord_client o = c ∧ ord_side o = s.
Proof.
  intros H Htr Ho. pose proof (iv_ids _ _ _ _ H _ _ Htr) as Hid.
  assert (own tr o) as Hx by exact (Engine.a_find_keeps _ _ _ _ (iv_own _ _ _ _ H) Ho).
  assert (ord_id o = id) as Ei.
  { unfold a_find in Ho. apply List.find_some in Ho as [_ Ho]. by apply Z.eqb_eq in Ho. }
  unfold own in Hx. rewrite Ei in Hx. destruct (Z.eqb_spec (ord_client o) c) as [Eo|Eo]; [|lia].
  split; [done|]. destruct (decide (ord_side o = s)) as [|E]; [done|].
  pose proof (iv_distinct _ _ _ _ H _ _ Htr) as Hd.
  by replace (opposite s) with (ord_side o) in Hd by (by destruct s, (ord_side o)).
Qed.

(** The quote of a side moves. *)
Lemma replace_quote tr next st fs s id target ts :
  inv tr next st fs → is_i64 target → tr s = Some id →
  (sgn s * net c fs ≤ MarketMaker.max_inventory cfg - 1)%Z →
  let rq := ReqReplace (MarketMaker.make_replace cfg id target) ts in
  ∃ fs', inv tr next (process NumLevels st rq) (fs ++ fs') ∧
    (sgn (opposite s) * net c (fs ++ fs') ≤ sgn (opposite s) * net c fs)%Z.
Proof.
  intros H Ht Htr Hm rq. pose proof (iv_ready _ _ _ _ H) as Hrd.
  destruct Hcfg as (Hc&Hsy&Hq&Hmx&Hb&Hf). pose proof (iv_next _ _ _ _ H) as Hn.
  pose proof (iv_ids _ _ _ _ H _ _ Htr) as Hid.
  assert (request_ok rq) as Hrq.
  { cbn. unfold is_u64, is_i64 in *. split_and!; try done; lia. }
  pose proof (process_keeps NumLevels MaxOrders sym base maker_sym (own tr) st rq
    (own_remaining tr) (own_retermed tr) Hrd Hrq I (iv_own _ _ _ _ H)) as Hown.
  destruct (process_replaced NumLevels MaxOrders sym base maker_sym c st _ ts (net c fs) Hrd Hrq)
    as (fs'&Hr&Hcl&Hcase). fold rq in Hr, Hcase. exists fs'. rewrite net_app.
  destruct Hcase as [[Ha ->]|(o&Ho&Hg&Hfw)].
  - change (net c []) with 0%Z. rewrite Z.add_0_r. split; [|done].
    eapply inv_after; [exact H|done|done|done|done| | |apply H].
    + intros s'. rewrite Ha. change (net c []) with 0%Z. rewrite Z.add_0_r. split; apply H.
    + intros s' x. by apply inv_tracked with (1 := H).
  - cbn [MarketMaker.make_replace ro_order_id ro_new_quantity] in Ho, Hg.
    destruct (tracked_order _ _ _ _ _ _ _ H Htr Ho) as [Eo Es].
    rewrite Eo, Es in Hfw. rewrite Eo, Es, (adds_own _ (proj1 Hq)) in Hg. split; [|by apply Hfw].
    eapply inv_after; [exact H|done|done|done|done| | |apply H].
    + eapply fresh_bounds; [exact H|by apply remove_gains, open_sides| |done|exact Hg].
      eapply (untracked_open tr); [apply Engine.a_remove_keeps, (iv_own _ _ _ _ H)|..].
      * intros x Hx. apply abs_sides with (1 := Hrd).
        by destruct s; cbn in Hx; apply remove_elem in Hx as [? _].
      * intros x Hx. rewrite Htr. intros [= Ex].
        by destruct s; cbn in Hx; apply remove_elem in Hx as [_ ?].
    + intros s' x. by apply inv_tracked with (1 := H).
Qed.

(** One side of a tick. *)
Lemma quote_inv tr next st fs s target allowed lq ts n r x next' resting' lq' :
  inv tr next st fs → is_i64 target → (next + 1 < 2 ^ 64)%Z →
  (allowed = true → (sgn s * net c fs ≤ MarketMaker.max_inventory cfg - 1)%Z) →
  MarketMaker.quote_side cfg s allowed target next (tr s) lq = (n, r, x, next', resting', lq') →
  ∃ fs', inv (set_tr tr s resting') next' (run NumLevels st (side_requests n r x ts)) (fs ++ fs') ∧
    (sgn (opposite s) * net c (fs ++ fs') ≤ sgn (opposite s) * net c fs)%Z ∧ (next' ≤ next + 1)%Z.
Proof.
  intros H Ht Hnx Hm E. pose proof (iv_next _ _ _ _ H) as Hn. destruct Hcfg as (_&_&_&_&_&Hf).
  assert (∀ r', r' = tr s → ∃ fs', inv (set_tr tr s r') next st (fs ++ fs') ∧
    (sgn (opposite s) * net c (fs ++ fs') ≤ sgn (opposite s) * net c fs)%Z ∧ (next ≤ next + 1)%Z) as Hno.
  { intros r' ->. exists []. rewrite app_nil_r. split; [|lia]. eapply inv_ext, H.
    intros s'. unfold set_tr. by case_decide; subst. }
  unfold MarketMaker.quote_side in E. destruct allowed.
  - specialize (Hm eq_refl). destruct (tr s) as [id|] eqn:Htr; [destruct (negb _)|];
      injection E as <- <- <- <- <- <-.
    + destruct (replace_quote _ _ _ _ _ _ target ts H Ht Htr Hm) as (fs'&H'&Hp).
      exists fs'. split; [|by split; [|lia]]. eapply inv_ext, H'.
      intros s'. unfold set_tr. by case_decide; subst.
    + by apply Hno.
    + destruct (new_quote _ _ _ _ _ target ts H Ht Hnx Htr Hm) as (fs'&H'&Hp).
      exists fs'. rewrite u64_id by (unfold is_u64; lia). split; [exact H'|]. split; [done|lia].
  - destruct (tr s) as [id|] eqn:Htr; injection E as <- <- <- <- <- <-.
    + exists []. rewrite app_nil_r. split; [|lia]. by apply cancel_quote.
    + by apply Hno.
Qed.

Definition tracked (m : MarketMaker.t) (s : Side) : option Z :=
  match s with
  | Buy => MarketMaker.resting_bid_id m
  | Sell => MarketMaker.resting_ask_id m
  end.

(** The invariant of the venue. *)
Definition venue_ok (v : t) : Prop :=
  MarketMaker.config (maker v) = cfg ∧
  ∃ fs, inv (tracked (maker v)) (MarketMaker.next_order_id (maker v)) (exchange v) fs.

Lemma tick_ok m st ts act m' :
  venue_ok (mk m st) → (MarketMaker.next_order_id m + 2 < 2 ^ 64)%Z →
  MarketMaker.on_tick m (best_bid (book (matching st))) (best_ask (book (matching st)))
    (Risk.position (risk st) c sym) = (act, m') →
  venue_ok (mk m' (run NumLevels st (requests act ts))).
Proof.
  intros [Hm [fs H]] Hn E. cbn [maker exchange] in *. pose proof Hcfg as (_&_&Hq&Hmx&Hb&_).
  rewrite (inv_position _ _ _ _ H) in E. unfold MarketMaker.on_tick in E. rewrite Hm in E.
  destruct (MarketMaker.quote_side cfg Buy _ _ _ _ _) as [[[[[nb rb] cb] next1] bid] lb] eqn:E1.
  destruct (MarketMaker.quote_side cfg Sell _ _ _ _ _) as [[[[[na ra] ca] next2] ask] la] eqn:E2.
  injection E as <- <-. unfold requests. cbn [MarketMaker.new_bid MarketMaker.new_ask
    MarketMaker.replace_bid MarketMaker.replace_ask MarketMaker.cancel_bid MarketMaker.cancel_ask].
  unfold run. rewrite foldl_app.
  assert (MarketMaker.bid_allowed cfg (net c fs) = true →
    (sgn Buy * net c fs ≤ MarketMaker.max_inventory cfg - 1)%Z) as Hba.
  { intros ?%Z.ltb_lt. cbn [sgn]. lia. }
  assert (MarketMaker.ask_allowed cfg (net c fs) = true →
    (sgn Sell * net c fs ≤ MarketMaker.max_inventory cfg - 1)%Z) as Haa.
  { unfold MarketMaker.ask_allowed. rewrite i64_id by (unfold is_i64; lia).
    intros ?%Z.ltb_lt. cbn [sgn]. lia. }
  assert (MarketMaker.next_order_id m + 1 < 2 ^ 64)%Z as Hn1 by lia.
  destruct (quote_inv (tracked m) _ _ _ Buy _ _ _ ts _ _ _ _ _ _ H (i64_range _) Hn1 Hba E1)
    as (fs1&H1&Hp1&Hx1). rewrite opposite_Buy in Hp1.
  destruct (quote_inv (set_tr (tracked m) Buy bid) _ _ _ Sell _ _ _ ts _ _ _ _ _ _ H1 (i64_range _)
    ltac:(lia) (λ Ha, Z.le_trans _ _ _ Hp1 (Haa Ha)) E2) as (fs2&H2&_).
  split; [done|]. exists ((fs ++ fs1) ++ fs2). eapply inv_ext, H2. by intros [].
Qed.

Lemma gone_ok m st id :
  venue_ok (mk m st) → find (book (matching st)) id = None →
  venue_ok (mk (MarketMaker.notify_order_gone m id) st).
Proof.
  intros [Hm [fs H]] Hg. split; [done|]. exists fs. cbn [maker exchange] in *.
  assert (∀ s, tracked (MarketMaker.notify_order_gone m id) s = MarketMaker.forget (tracked m s) id) as Et
    by (by intros []).
  assert (∀ s x, MarketMaker.forget (tracked m s) id = Some x → tracked m s = Some x) as Hfg.
  { intros s x. unfold MarketMaker.forget. destruct (tracked m s) as [y|]; [|done].
    by destruct (y =? id)%Z. }
  destruct H as [Hrd Ho Hop Hre Hri Hcl Hi Hd Hn]. split; try done.
  - intros s o Hx. pose proof (Ho s o Hx) as Hw. unfold own in *. destruct (ord_client o =? c)%Z; [|done].
    rewrite Et, Hw. unfold MarketMaker.forget. destruct (Z.eqb_spec (ord_id o) id) as [E|E]; [|done].
    exfalso. destruct (eo_book _ _ _ _ _ (Feed.rd_engine _ _ _ _ _ Hrd)) as (F&L&G&Q&Hrep).
    rewrite abs_side in Hx. destruct (queue_find _ _ _ _ _ _ _ _ _ Hrep Hx) as (p&Hp&_).
    unfold find in Hg. by rewrite <- E, Hp in Hg.
  - intros s x. rewrite Et. intros Hx. by eapply Hi, Hfg.
  - intros s x. rewrite !Et. intros Hx Hy. exact (Hd s x (Hfg _ _ Hx) (Hfg _ _ Hy)).
Qed.

Lemma start_ok :
  Engine.config_ok NumLevels MaxOrders base → sink_data s0 = [] →
  venue_ok (mk (MarketMaker.create cfg first)
    (Feed.session NumLevels MaxOrders sym base lims s0 scratch)).
Proof.
  intros Hc Hs0. split; [done|]. exists []. cbn [maker exchange].
  destruct Hcfg as (_&_&Hq&Hmx&Hb&Hf).
  pose proof (Feed.session_history NumLevels MaxOrders sym base maker_sym lims s0 scratch Hc Hs0
    (M := M) (R := R)) as Hh.
  assert (∀ s, a_side (abs (Feed.session NumLevels MaxOrders sym base lims s0 scratch
    (M := M) (R := R) (S := S))) s = []) as Hq0.
  { intros s. rewrite abs_side. apply create_queue. }
  split; try done.
  - apply (Feed.hi_ready _ _ _ _ _ _ _ _ Hh).
  - intros s o. rewrite Hq0. set_solver.
  - intros s. rewrite Hq0. change (open_of c []) with 0%Z. lia.
  - intros s. unfold reach. rewrite Hq0. change (open_of c []) with 0%Z. change (net c []) with 0%Z. lia.
  - by intros [].
  - by intros [].
  - cbn. lia.
Qed.

Lemma venue_reachable_ok v :
  Engine.config_ok NumLevels MaxOrders base → sink_data s0 = [] → reachable v → venue_ok v.
Proof.
  intros Hc Hs0. induction 1 as [|v v' _ IH Hs]; [by apply start_ok|].
  destruct Hs as [m st rq Hrq Hf|m st id Hg|m st ts act m' Hn E].
  - destruct IH as [Hm [fs H]]. split; [done|].
    destruct (other_inv _ _ _ _ _ H Hrq Hf) as [fs' H']. by exists (fs ++ fs').
  - by apply gone_ok.
  - by eapply tick_ok.
Qed.

(** C38: the market maker's inventory is bounded on the exchange's own book and
    risk engine, as long as the other clients trade in their own names, use
    order ids below the maker's and do not replace the maker's orders, which
    the exchange does not check ([foreign]): after every tick and between
    ticks, whatever they trade and cancel, its position
    at the risk engine plus its open bids, and its short position plus its
    open asks, are below the inventory limit plus one quote; so the position
    is.  Per side at most one quote's quantity is open, and every order of
    the maker in the book is the one it tracks. *)
Theorem inventory_bounded v :
  Engine.config_ok NumLevels MaxOrders base → sink_data s0 = [] → reachable v →
  let st := exchange v in
  let position := Risk.position (risk st) c sym in
  (Z.abs position < MarketMaker.max_inventory cfg + qty)%Z ∧
  ∀ s, let q := OrderBook.queue NumLevels MaxOrders (book (matching st)) s in
    (sgn s * position + open_of c q < MarketMaker.max_inventory cfg + qty)%Z ∧
    (open_of c q ≤ qty)%Z ∧
    ∀ o, o ∈ q → ord_client o = c → tracked (maker v) s = Some (ord_id o).
Proof.
  intros Hc Hs0 Hr st position. destruct (venue_reachable_ok v Hc Hs0 Hr) as [_ [fs H]].
  unfold position, st. rewrite (inv_position _ _ _ _ H).
  split; [pose proof (net_range _ _ _ _ H); lia|]. intros s. set (q := OrderBook.queue _ _ _ _).
  pose proof (iv_reach _ _ _ _ H s) as Hre. pose proof (iv_open _ _ _ _ H s) as Hop.
  unfold reach in Hre. rewrite abs_side in Hre, Hop. fold q in Hre, Hop. split_and!; [lia|done|].
  intros o Ho Hco. unfold q in Ho. rewrite <- abs_side in Ho.
  pose proof (iv_own _ _ _ _ H s o Ho) as Hw. unfold own in Hw.
  rewrite (proj2 (Z.eqb_eq _ _) Hco) in Hw. by rewrite (abs_sides _ _ _ (iv_ready _ _ _ _ H) Ho) in Hw.
Qed.

End venue.

(** ** A concrete venue *)

(** Quotes of 10 around 104, a limit of 5. *)
Definition demo_maker : MarketMaker.MarketMakerConfig := MarketMaker.mkConfig 7 9 2 10 5 104.

Definition demo_session : Replay.t (gmap Z nat) (gmap Z Risk.ClientExposure) InMemorySink.t :=
  Feed.session 8 4 7 100 Feed.demo_lims InMemorySink.create 64.

(** The maker quotes, and client 1 sells it ten lots. *)
Definition demo_tick : MarketMaker.MarketMakerAction * MarketMaker.t :=
  MarketMaker.on_tick (MarketMaker.create demo_maker 100)
    (best_bid (book (matching demo_session))) (best_ask (book (matching demo_session)))
    (Risk.position (risk demo_session) 9 7).

Definition demo_quoted : Replay.t (gmap Z nat) (gmap Z Risk.ClientExposure) InMemorySink.t :=
  run 8 demo_session (requests demo_tick.1 1).

Definition demo_sale : request := ReqNew (mkNewOrder 1 102 10 1 7 1 0 0 0) 2.

Definition demo_venue : t := mk demo_tick.2 (process 8 demo_quoted demo_sale).

Lemma demo_venue_reachable :
  reachable 8 4 100 demo_maker 100 Feed.demo_lims InMemorySink.create 64 demo_venue.
Proof.
  eapply reach_next; [eapply reach_next; [apply reach_start|]|].
  - apply (step_tick 8 demo_maker 100 (MarketMaker.create demo_maker 100) demo_session 1
      demo_tick.1 demo_tick.2); [cbn; lia|]. by rewrite <- surjective_pairing.
  - apply step_other; [|split; cbn; lia]. cbn [request_ok demo_sale]. Feed.request_typed.
Qed.

(** The limit itself does not hold: the maker is at 10. *)
Lemma inventory_bounded_witness :
  let position := Risk.position (risk (exchange demo_venue)) (MarketMaker.mm_client demo_maker)
    (MarketMaker.mm_symbol demo_maker) in
  (MarketMaker.max_inventory demo_maker < position)%Z ∧
  (Z.abs position < MarketMaker.max_inventory demo_maker + MarketMaker.quote_size demo_maker)%Z.
Proof.
  cbv zeta. split; [vm_compute; reflexivity|].
  assert (quoter_ok demo_maker 100) as Hq by (unfold quoter_ok, is_u32; cbn; lia).
  destruct (inventory_bounded 8 4 100 demo_maker 100 Feed.demo_lims InMemorySink.create 64 Hq
    demo_venue Feed.feed_demo_config Feed.empty_sink demo_venue_reachable) as [H _].
  exact H.
Defined.

(** Ownership is not checked: client 1 replaces the maker's bid of 10 by one
    of 50 and sells 50 to it, leaving the maker at 50 with a bound of 15. *)
Lemma foreign_replace_unbounded :
  let rqs := [ReqReplace (mkReplaceOrder 100 102 50 1 7) 2;
              ReqNew (mkNewOrder 1 102 50 1 7 1 0 0 0) 3] in
  Forall request_ok rqs ∧
  Risk.position (risk (run 8 demo_quoted rqs)) (MarketMaker.mm_client demo_maker)
    (MarketMaker.mm_symbol demo_maker) = 50%Z ∧
  (MarketMaker.max_inventory demo_maker + MarketMaker.quote_size demo_maker = 15)%Z.
Proof.
  cbv zeta. split; [|split; vm_compute; reflexivity].
  repeat (apply Forall_cons; split; [cbn [request_ok]; Feed.request_typed|]). by apply Forall_nil.
Qed.

End Quoting.
