(* ===== verification/Arbitrage.v ===== *)
(** * The arbitrage strategy (src/include/jane/strategy/arbitrage.hpp)

    Looks at the touch of two books and, if one can be bought below where
    the other can be sold, sends an immediate-or-cancel leg to each.  The
    theorem decides exactly when it acts and what the legs lock in. *)

From S2P Require Import Prelude Types Wire Protocol.
From stdpp Require Import base tactics numbers list.

Set Default Goal Selector "!".

Module Arbitrage.
Import Protocol.

Record ArbitrageConfig := mkConfig {
  symbol_a : Z;
  symbol_b : Z;
  arb_client : Z;
  clip_size : Z;
  min_edge_ticks : Z;
}.

Record ArbitrageAction := mkAction {
  buy_leg : NewOrderMessage;
  sell_leg : NewOrderMessage;
  edge_ticks : Z;
}.

Record t := mk { config : ArbitrageConfig; next_order_id : Z }.

Definition create (c : ArbitrageConfig) (first_order_id : Z) : t := mk c first_order_id.

Definition make_leg (s : t) (symbol : Z) (side : Side) (price : Z) : NewOrderMessage * t :=
  (mkNewOrder (next_order_id s) price (clip_size (config s)) (arb_client (config s)) symbol
     (side_code side) (order_type_code Limit) (tif_code IOC) 0,
   mk (config s) (u64 (next_order_id s + 1))).

Definition make_action (s : t) (buy_symbol buy_price sell_symbol sell_price edge : Z)
    : ArbitrageAction * t :=
  let '(buy, s) := make_leg s buy_symbol Buy buy_price in
  let '(sell, s) := make_leg s sell_symbol Sell sell_price in
  (mkAction buy sell edge, s).

(** One direction: buy at [ask] on one book, sell at [bid] on the other. *)
Definition try_direction (s : t) (buy_symbol sell_symbol : Z) (ask bid : option Z)
    : option (ArbitrageAction * t) :=
  match bid, ask with
  | Some bid, Some ask =>
      let edge := i64 (bid - ask) in
      if (min_edge_ticks (config s) <=? edge)%Z
      then Some (make_action s buy_symbol ask sell_symbol bid edge) else None
  | _, _ => None
  end.

Definition check (s : t) (a_best_bid a_best_ask b_best_bid b_best_ask : option Z)
    : option ArbitrageAction * t :=
  let c := config s in
  match try_direction s (symbol_a c) (symbol_b c) a_best_ask b_best_bid with
  | Some (act, s) => (Some act, s)
  | None =>
      match try_direction s (symbol_b c) (symbol_a c) b_best_ask a_best_bid with
      | Some (act, s) => (Some act, s)
      | None => (None, s)
      end
  end.

(** ** What it promises *)

(** There is an edge of at least the minimum between [ask] and [bid]. *)
Definition edge_between (c : ArbitrageConfig) (ask bid : option Z) : Prop :=
  ∃ a b, ask = Some a ∧ bid = Some b ∧ (min_edge_ticks c ≤ b - a)%Z.

(** Quotes close enough that their difference is an [int64_t]. *)
Definition comparable (ask bid : option Z) : Prop :=
  ∀ a b, ask = Some a → bid = Some b → is_i64 (b - a).

(** The legs: one clip each, immediate-or-cancel, buying at [a] on
    [buy_symbol] and selling at [b] on [sell_symbol], with consecutive ids. *)
Definition locks_in (s : t) (act : ArbitrageAction) (s' : t) (buy_symbol sell_symbol : Z)
    (ask bid : option Z) : Prop :=
  let c := config s in
  let id := next_order_id s in
  ∃ a b, ask = Some a ∧ bid = Some b ∧ (min_edge_ticks c ≤ b - a)%Z ∧
    edge_ticks act = (b - a)%Z ∧
    buy_leg act = mkNewOrder id a (clip_size c) (arb_client c) buy_symbol 0 0 1 0 ∧
    sell_leg act = mkNewOrder (u64 (id + 1)) b (clip_size c) (arb_client c) sell_symbol 1 0 1 0 ∧
    s' = mk c (u64 (id + 2)).

Lemma try_direction_spec s buy_symbol sell_symbol ask bid :
  comparable ask bid →
  match try_direction s buy_symbol sell_symbol ask bid with
  | Some (act, s') => locks_in s act s' buy_symbol sell_symbol ask bid
  | None => ¬ edge_between (config s) ask bid
  end.
Proof.
  intros Hc. unfold try_direction.
  destruct bid as [b|]; [|by intros (?&?&?&?&?)]. destruct ask as [a|]; [|by intros (?&?&?&?&?)].
  rewrite (i64_id _ (Hc a b eq_refl eq_refl)).
  destruct (Z.leb_spec (min_edge_ticks (config s)) (b - a)) as [Hle|Hlt]; cbn.
  - exists a, b. split_and!; try done. unfold config, next_order_id.
    f_equal. rewrite u64_add_l. f_equal. lia.
  - intros (?&?&[= <-]&[= <-]&?). lia.
Qed.

(** The strategy acts exactly when an edge of at least the minimum exists in
    one of the two directions, buying A first if that pays; its legs buy one
    clip at the ask of the cheaper book and sell one clip at the bid of the
    richer book, both immediate-or-cancel, so the reported edge is the profit
    per lot if both fill, and its ids are consecutive. *)
Theorem acts_on_edge s a_bid a_ask b_bid b_ask :
  comparable a_ask b_bid → comparable b_ask a_bid →
  let c := config s in
  match check s a_bid a_ask b_bid b_ask with
  | (Some act, s') =>
      locks_in s act s' (symbol_a c) (symbol_b c) a_ask b_bid ∨
      ¬ edge_between c a_ask b_bid ∧ locks_in s act s' (symbol_b c) (symbol_a c) b_ask a_bid
  | (None, s') => s' = s ∧ ¬ edge_between c a_ask b_bid ∧ ¬ edge_between c b_ask a_bid
  end.
Proof.
  intros H1 H2 c. unfold check. fold c.
  pose proof (try_direction_spec s (symbol_a c) (symbol_b c) a_ask b_bid H1) as D1.
  pose proof (try_direction_spec s (symbol_b c) (symbol_a c) b_ask a_bid H2) as D2.
  destruct (try_direction s (symbol_a c) (symbol_b c) _ _) as [[act s']|]; [by left|].
  destruct (try_direction s (symbol_b c) (symbol_a c) _ _) as [[act s']|]; [by right|done].
Qed.

Definition demo : t := mk (mkConfig 1 2 9 10 2) 40.

Lemma acts_on_edge_witness :
  ∃ act s', check demo (Some 100%Z) (Some 101%Z) (Some 104%Z) (Some 105%Z) = (Some act, s') ∧
    edge_ticks act = 3%Z.
Proof.
  pose proof (acts_on_edge demo (Some 100%Z) (Some 101%Z) (Some 104%Z) (Some 105%Z)) as H.
  destruct (check demo _ _ _ _) as [[act|] s'] eqn:E; [|vm_compute in E; discriminate E].
  exists act, s'. split; [reflexivity|].
  destruct H as [(a&b&[= <-]&[= <-]&_&H&_)|(H&_)].
  - intros a b [= <-] [= <-]. unfold is_i64. lia.
  - intros a b [= <-] [= <-]. unfold is_i64. lia.
  - exact H.
  - exfalso. apply H. exists 101%Z, 104%Z. split; [reflexivity|]. split; [reflexivity|]. cbn. lia.
Defined.

End Arbitrage.
