(* ===== verification/Vwap.v ===== *)
(** * The VWAP executor (src/include/jane/strategy/vwap.hpp)

    Slices a parent order along a U-shaped curve.  [double] is binary64 as in
    Double.v.  [std::cos] is not specified bit for bit: it is a parameter,
    and what is proved for all slicings holds whatever it returns. *)

From S2P Require Import Prelude Types Wire Protocol Double.
From Stdlib Require Import SpecFloat.
From stdpp Require Import base tactics numbers list.

Set Default Goal Selector "!".

Module Vwap.
Import Protocol.

Record VwapConfig := mkConfig {
  vw_symbol : Z;
  vw_client : Z;
  vw_side : Side;
  total_quantity : Z;
  num_slices : nat;
  limit_price : Z;
}.

(** [std::llround]: to the nearest integer, halves away from zero; [None]
    where the result is unspecified. *)
Definition llround (x : spec_float) : option Z :=
  match x with
  | S754_zero _ => Some 0%Z
  | S754_finite s m e =>
      let a := if (0 <=? e)%Z then Z.shiftl (Z.pos m) e
               else ((2 * Z.pos m + 2 ^ (- e)) / (2 * 2 ^ (- e)))%Z in
      let z := if s then (- a)%Z else a in
      if (- 2 ^ 63 <=? z)%Z && (z <? 2 ^ 63)%Z then Some z else None
  | _ => None
  end.

Section vwap.
Context (cos : spec_float → spec_float) (pi : spec_float).

Definition weight (n i : nat) : spec_float :=
  let t := if 1 <? n
           then Double.div (Double.of_Z (Z.of_nat i)) (Double.of_Z (Z.of_nat (n - 1)))
           else Double.of_Z 0 in
  SFadd 53 1024 (Double.of_Z 1) (cos (Double.mul (Double.mul (Double.of_Z 2) pi) t)).

Definition weights (n : nat) : list spec_float := weight n <$> seq 0 n.

(** The weights are added up from the left. *)
Definition weight_sum (ws : list spec_float) : spec_float :=
  foldl (SFadd 53 1024) (Double.of_Z 0) ws.

Definition slice_of (total : Z) (sum w : spec_float) : option Z :=
  llround (Double.mul (Double.of_Z total) (Double.div w sum)).

(** The loop over all but the last slice, with the quantity allocated. *)
Fixpoint allocate (total : Z) (sum : spec_float) (ws : list spec_float) (allocated : Z)
    : option (list Z * Z) :=
  match ws with
  | [] => Some ([], allocated)
  | w :: ws =>
      qty ← slice_of total sum w;
      rest ← allocate total sum ws (i64 (allocated + qty));
      Some (qty :: rest.1, rest.2)
  end.

(** [None] where a rounding is unspecified, or there is no slice to write. *)
Definition build_slice_sizes (c : VwapConfig) : option (list Z) :=
  match num_slices c with
  | O => None
  | S n =>
      let ws := weights (S n) in
      r ← allocate (total_quantity c) (weight_sum ws) (take n ws) 0;
      Some (r.1 ++ [i64 (total_quantity c - r.2)])
  end.

Record t := mk {
  config : VwapConfig;
  next_order_id : Z;
  slice_sizes : list Z;
  slices_sent : nat;
}.

Definition create (c : VwapConfig) (first_order_id : Z) : option t :=
  sizes ← build_slice_sizes c; Some (mk c first_order_id sizes 0).

Definition done (v : t) : bool := length (slice_sizes v) <=? slices_sent v.

Definition next_slice (v : t) : option NewOrderMessage * t :=
  match slice_sizes v !! slices_sent v with
  | None => (None, v)
  | Some qty =>
      (Some (mkNewOrder (next_order_id v) (limit_price (config v)) qty (vw_client (config v))
         (vw_symbol (config v)) (side_code (vw_side (config v))) (order_type_code Limit)
         (tif_code IOC) 0),
       mk (config v) (u64 (next_order_id v + 1)) (slice_sizes v) (S (slices_sent v)))
  end.

(** The child orders of [n] calls. *)
Fixpoint slices (n : nat) (v : t) : list NewOrderMessage * t :=
  match n with
  | O => ([], v)
  | S n =>
      match next_slice v with
      | (Some m, v) => let '(ms, v) := slices n v in (m :: ms, v)
      | (None, v) => ([], v)
      end
  end.

(** ** What it promises *)

Lemma allocate_sum total sum ws acc qs acc' :
  is_i64 acc → allocate total sum ws acc = Some (qs, acc') →
  length qs = length ws ∧ is_i64 acc' ∧ acc' = i64 (acc + zsum qs).
Proof.
  revert acc qs acc'. induction ws as [|w ws IH]; intros acc qs acc' Ha E; cbn [allocate] in E.
  { injection E as <- <-. cbn. by rewrite Z.add_0_r, i64_id. }
  destruct (slice_of total sum w) as [q|]; [|done]. cbn [mbind option_bind] in E.
  destruct (allocate total sum ws _) as [[qs1 acc1]|] eqn:E1; [|done].
  cbn [mbind option_bind fst snd] in E. injection E as <- <-.
  destruct (IH _ _ _ (i64_range _) E1) as (Hl&Hr&->). split_and!; [cbn; lia|apply i64_range|].
  rewrite i64_add_l, zsum_cons. f_equal. lia.
Qed.

Lemma length_weights n : length (weights n) = n.
Proof. unfold weights. by rewrite length_fmap, length_seq. Qed.

Lemma build_total c sizes :
  is_i64 (total_quantity c) → build_slice_sizes c = Some sizes →
  length sizes = num_slices c ∧ i64 (zsum sizes) = total_quantity c.
Proof.
  unfold build_slice_sizes. intros Ht E. destruct (num_slices c) as [|n]; [done|].
  destruct (allocate _ _ _ _) as [[qs acc]|] eqn:Ea; [|done].
  cbn [mbind option_bind fst snd] in E. injection E as <-.
  assert (is_i64 0) as H0 by (unfold is_i64; lia).
  destruct (allocate_sum _ _ _ _ _ _ H0 Ea) as (Hl&_&->).
  rewrite length_take, length_weights in Hl. split; [rewrite length_app; cbn; lia|].
  rewrite zsum_app, zsum_cons. change (zsum []) with 0%Z. rewrite Z.add_0_r, Z.add_0_l.
  rewrite i64_add_r. rewrite <- (i64_id _ Ht) at 2.
  destruct (i64_spec (zsum qs)) as [k ->]. apply (i64_eqm _ _ (- k)). lia.
Qed.

Lemma slices_from v n :
  let '(ms, v') := slices n v in
  no_quantity <$> ms = take n (drop (slices_sent v) (slice_sizes v)) ∧
  Forall (λ m, no_price m = limit_price (config v) ∧ no_time_in_force m = tif_code IOC ∧
    no_side m = side_code (vw_side (config v))) ms ∧
  (is_u64 (next_order_id v) → consecutive (next_order_id v) (no_order_id <$> ms) (next_order_id v')) ∧
  (length (slice_sizes v) - slices_sent v ≤ n → done v' = true).
Proof.
  revert v. induction n as [|n IH]; intros v; cbn [slices].
  { split_and!; [by rewrite take_0|constructor|intros; by apply consecutive_nil|].
    intros Hn. apply Nat.leb_le. lia. }
  unfold next_slice. destruct (slice_sizes v !! slices_sent v) as [q|] eqn:Eq.
  - specialize (IH (mk (config v) (u64 (next_order_id v + 1)) (slice_sizes v) (S (slices_sent v)))).
    destruct (slices n _) as [ms v']. cbn [config next_order_id slice_sizes slices_sent] in IH.
    destruct IH as (H1&H2&H3&H4). split_and!.
    + rewrite fmap_cons, H1, (drop_S _ q _ Eq). done.
    + constructor; [done|exact H2].
    + intros Hn. rewrite fmap_cons. cbn [no_order_id].
      apply (consecutive_app _ [next_order_id v] (u64 (next_order_id v + 1)));
        [by apply consecutive_one|apply H3, u64_range].
    + intros Hn. apply H4. lia.
  - apply lookup_ge_None in Eq. split_and!; [|constructor|intros; by apply consecutive_nil|].
    + rewrite drop_ge by done. by rewrite take_nil.
    + intros _. by apply Nat.leb_le.
Qed.

(** C39: the child orders add up to the parent: whatever the cosine returns and
    however the weights round, when the slices are built the executor sends
    [num_slices] immediate-or-cancel orders at the limit price, with
    consecutive ids, whose quantities sum (in [int64_t]) to exactly the
    parent quantity, and then it is done. *)
Theorem slices_sum_to_parent c first v :
  is_i64 (total_quantity c) → is_u64 first → create c first = Some v →
  let '(ms, v') := slices (num_slices c) v in
  length ms = num_slices c ∧ i64 (zsum (no_quantity <$> ms)) = total_quantity c ∧
  Forall (λ m, no_price m = limit_price c ∧ no_time_in_force m = tif_code IOC ∧
    no_side m = side_code (vw_side c)) ms ∧
  consecutive first (no_order_id <$> ms) (next_order_id v') ∧ done v' = true ∧
  (next_slice v').1 = None.
Proof.
  intros Ht Hf E. unfold create in E. destruct (build_slice_sizes c) as [sizes|] eqn:Eb; [|done].
  injection E as <-. destruct (build_total c sizes Ht Eb) as [Hl Hsum].
  pose proof (slices_from (mk c first sizes 0) (num_slices c)) as H.
  destruct (slices (num_slices c) _) as [ms v']. cbn [config slice_sizes slices_sent next_order_id] in H.
  rewrite drop_0, take_ge, Nat.sub_0_r in H by lia. destruct H as (H1&H2&H3&H4).
  specialize (H4 ltac:(lia)). split_and!; try done.
  - by rewrite <- Hl, <- H1, length_fmap.
  - by rewrite H1.
  - by apply H3.
  - unfold next_slice. unfold done in H4. apply Nat.leb_le in H4.
    by rewrite (lookup_ge_None_2 _ _ H4).
Qed.

End vwap.

(** ** A concrete cosine

    Twenty-five terms of the Taylor series: on one turn this is accurate far
    beyond what the roundings below can tell apart. *)

Definition pi_double : spec_float := S754_finite false 7074237752028440 (-51).

Fixpoint cos_terms (n : nat) (k : Z) (x2 term acc : spec_float) : spec_float :=
  match n with
  | O => acc
  | S n =>
      let term := SFopp (Double.div (Double.mul term x2) (Double.of_Z ((2 * k - 1) * (2 * k)))) in
      cos_terms n (k + 1) x2 term (SFadd 53 1024 acc term)
  end.

Definition cos_taylor (x : spec_float) : spec_float :=
  cos_terms 25 1 (Double.mul x x) (Double.of_Z 1) (Double.of_Z 1).

Definition demo_config : VwapConfig := mkConfig 7 9 Buy 1000 5 100.

Lemma slices_sum_to_parent_witness :
  ∃ v, create cos_taylor pi_double demo_config 1 = Some v ∧
    i64 (zsum (no_quantity <$> (slices 5 v).1)) = 1000%Z.
Proof.
  destruct (create cos_taylor pi_double demo_config 1) as [v|] eqn:E; [|vm_compute in E; discriminate E].
  exists v. split; [reflexivity|].
  pose proof (slices_sum_to_parent cos_taylor pi_double demo_config 1 v ltac:(unfold is_i64; cbn; lia)
    ltac:(unfold is_u64; lia) E) as H.
  change (num_slices demo_config) with 5 in H. destruct (slices 5 v) as [ms v']. apply H.
Defined.

(** The curve: heavy at both ends. *)
Lemma demo_slices :
  build_slice_sizes cos_taylor pi_double demo_config = Some [333; 167; 0; 167; 333]%Z.
Proof. vm_compute. reflexivity. Qed.

(** A parent smaller than its number of slices can be overbought: 40 lots in
    100 slices rounds 41 slices up to one lot each, and the last slice, which
    balances the books, is -1. *)
Theorem last_slice_negative :
  (λ sizes, (last sizes, zsum (take 99 sizes))) <$>
    build_slice_sizes cos_taylor pi_double (mkConfig 7 9 Buy 40 100 100) = Some (Some (-1)%Z, 41%Z).
Proof. vm_compute. reflexivity. Qed.

End Vwap.
