(* ===== verification/Counters.v ===== *)
(** * Throughput counters (src/include/jane/metrics/counters.hpp)

    A count with its time basis.  [double] is binary64 as in Double.v. *)

From S2P Require Import Prelude Types Double.
From Stdlib Require Import SpecFloat.
From stdpp Require Import base tactics numbers list.

Set Default Goal Selector "!".

Module ThroughputCounter.
Local Open Scope Z_scope.

Record t := mk { start : Z; last_ : Z; count : Z }.

Definition create (start_time : Z) : t := mk start_time start_time 0.
Definition record (c : t) (now n : Z) : t := mk (start c) now (u64 (count c + n)).
Definition reset (c : t) (now : Z) : t := mk now now 0.

Definition ops_per_second (c : t) : spec_float :=
  let elapsed_ns := StrongAmount.sub (last_ c) (start c) in
  if elapsed_ns <=? 0 then Double.of_Z 0
  else Double.div (Double.mul (Double.of_Z (count c)) (Double.of_Z 1000000000))
         (Double.of_Z elapsed_ns).

(** The calls since the last reset determine the counter. *)
Lemma records_since c evs :
  let c' := foldl (λ c '(now, n), record c now n) c evs in
  start c' = start c ∧
  (is_u64 (count c) → count c' = u64 (count c + zsum evs.*2)) ∧
  last_ c' = from_option fst (last_ c) (last evs).
Proof.
  revert c. induction evs as [|[now n] evs IH] using rev_ind; intros c; cbv zeta.
  { cbn. split_and!; try done. intros H. by rewrite Z.add_0_r, u64_id. }
  rewrite foldl_snoc. destruct (IH c) as (H1&H2&H3). split_and!.
  - exact H1.
  - intros Hc. cbn [record count]. rewrite (H2 Hc), u64_add_l, fmap_app, zsum_app. cbn [fmap list_fmap snd].
    rewrite zsum_cons. change (zsum []) with 0. f_equal. lia.
  - cbn [record last_]. by rewrite last_snoc.
Qed.

End ThroughputCounter.
