(* ===== verification/Generator.v ===== *)
(** * Synthetic order flow (src/include/jane/replay/synthetic_generator.hpp)

    The random source ([std::mt19937_64] and the distributions of <random>,
    whose algorithms the C++ standard leaves open) is the class [Random];
    [RandomLaws] is what the standard says of the distributions: an integer
    drawn from [lo, hi] lies in it, and an exponential draw is not negative.
    Every generated message is a request the replay engine accepts, with
    price and quantity in the configured bands. *)

From S2P Require Import Prelude Types Wire Protocol Replay Double.
From Stdlib Require Import SpecFloat.
From stdpp Require Import base tactics numbers list.

Set Default Goal Selector "!".

(** The engine seeded with a number, and the draws the generator makes with
    the parameters of the distributions. *)
Class Random (G : Type) := {
  rng_seed : Z → G;
  draw_int : G → Z → Z → Z * G;
  draw_bernoulli : G → spec_float → bool * G;
  draw_exponential : G → spec_float → spec_float * G;
}.

Class RandomLaws (G : Type) `{!Random G} : Prop := {
  draw_int_range g lo hi : (lo ≤ hi)%Z → (lo ≤ (draw_int g lo hi).1 ≤ hi)%Z;
  draw_exponential_positive g rate :
    Double.positive rate = true → Double.positive (draw_exponential g rate).1 = true;
}.

Module Generator.
Import Protocol.

Record SyntheticConfig := mkConfig {
  seed : Z;
  gen_symbol : Z;
  mid_price : Z;
  price_spread_ticks : Z;
  min_quantity : Z;
  max_quantity : Z;
  market_order_fraction : spec_float;
  buy_fraction : spec_float;
  mean_arrival_rate_per_sec : spec_float;
}.

(** The default member initialisers. *)
Definition default_config : SyntheticConfig :=
  mkConfig 42 1 1000 50 1 100 (Double.div (Double.of_Z 1) (Double.of_Z 10))
    (Double.div (Double.of_Z 1) (Double.of_Z 2)) (Double.of_Z 1000).

Section generator.
Context {G : Type} `{!Random G}.

(** The distributions keep their parameters, which are members of the
    configuration. *)
Record t := mk { config : SyntheticConfig; rng : G }.

Definition create (c : SyntheticConfig) : t := mk c (rng_seed (seed c)).

(** The members of the braced initialiser are evaluated in order: price,
    quantity, side, type. *)
Definition next_order (s : t) (order_id client_id : Z) : NewOrderMessage * t :=
  let c := config s in
  let '(price, g) := draw_int (rng s) (i64 (mid_price c - price_spread_ticks c))
                       (i64 (mid_price c + price_spread_ticks c)) in
  let '(quantity, g) := draw_int g (min_quantity c) (max_quantity c) in
  let '(buy, g) := draw_bernoulli g (buy_fraction c) in
  let '(market, g) := draw_bernoulli g (market_order_fraction c) in
  (mkNewOrder order_id price quantity client_id (gen_symbol c)
     (side_code (if (buy : bool) then Buy else Sell))
     (order_type_code (if (market : bool) then Market else Limit)) (tif_code Day) 0,
   mk c g).

(** The gap to the next arrival in nanoseconds; [None] where the conversion
    to an integer is undefined. *)
Definition next_interarrival (s : t) : option Z * t :=
  let '(seconds, g) := draw_exponential (rng s) (mean_arrival_rate_per_sec (config s)) in
  (Double.to_i64 (Double.mul seconds (Double.of_Z 1000000000)), mk (config s) g).

Context `{!RandomLaws G}.

(** The configuration makes sense for the draws. *)
Definition config_ok (c : SyntheticConfig) : Prop :=
  is_u32 (gen_symbol c) ∧ (0 ≤ price_spread_ticks c)%Z ∧
  is_i64 (mid_price c - price_spread_ticks c) ∧ is_i64 (mid_price c + price_spread_ticks c) ∧
  (min_quantity c ≤ max_quantity c)%Z ∧ is_i64 (min_quantity c) ∧ is_i64 (max_quantity c).

(** Whatever the random draws, a generated order is a well-formed request of
    the replay engine, a day order of the configured symbol with a price
    within the spread around the mid and a quantity within its bounds, and
    the configuration is unchanged. *)
Lemma generated_order_ok s order_id client_id ts :
  config_ok (config s) → is_u64 order_id → is_u32 client_id →
  let '(m, s') := next_order s order_id client_id in
  let c := config s in
  Replay.request_ok (Replay.ReqNew m ts) ∧ config s' = c ∧
  no_order_id m = order_id ∧ no_time_in_force m = tif_code Day ∧
  (mid_price c - price_spread_ticks c ≤ no_price m ≤ mid_price c + price_spread_ticks c)%Z ∧
  (min_quantity c ≤ no_quantity m ≤ max_quantity c)%Z.
Proof.
  intros (Hsy&Hsp&Hlo&Hhi&Hq&Hq1&Hq2) Hid Hcl. unfold next_order. set (c := config s) in *.
  rewrite (i64_id _ Hlo), (i64_id _ Hhi).
  pose proof (draw_int_range (rng s) (mid_price c - price_spread_ticks c)
    (mid_price c + price_spread_ticks c) ltac:(lia)) as Hp.
  destruct (draw_int (rng s) _ _) as [price g1]. cbn [fst] in Hp.
  pose proof (draw_int_range g1 (min_quantity c) (max_quantity c) Hq) as Hqr.
  destruct (draw_int g1 _ _) as [quantity g2]. cbn [fst] in Hqr.
  destruct (draw_bernoulli g2 _) as [buy g3]. destruct (draw_bernoulli g3 _) as [market g4].
  cbv zeta. split; [|split_and!; cbn; try done; lia].
  split; [|apply side_code_is].
  unfold is_i64 in *. cbn. split_and!; try done; try (unfold is_i64; lia);
    destruct buy, market; try done; unfold is_u8; cbn; lia.
Qed.

(** Time does not run backwards: with a rate that is not negative, a gap is
    never negative and fits the nanosecond type. *)
Lemma interarrival_forward s gap :
  Double.positive (mean_arrival_rate_per_sec (config s)) = true →
  (next_interarrival s).1 = Some gap → (0 ≤ gap)%Z ∧ is_i64 gap.
Proof.
  intros Hr. unfold next_interarrival.
  pose proof (draw_exponential_positive (rng s) _ Hr) as Hp.
  destruct (draw_exponential _ _) as [seconds g]. cbn [fst] in *. intros Hg.
  split; [|by eapply Double.to_i64_range].
  destruct (Double.mul_positive seconds (Double.of_Z 1000000000)) as [E|E]; [done|done| |].
  - by rewrite E in Hg.
  - by eapply Double.to_i64_positive.
Qed.

End generator.

(** ** A concrete source: a counter reduced to the interval *)

#[export] Instance counter_random : Random Z := {|
  rng_seed n := n;
  draw_int g lo hi := (lo + g mod (hi - lo + 1), g + 1)%Z;
  draw_bernoulli g _ := (Z.even (g / 2), g + 1)%Z;
  draw_exponential g _ := (if Z.even g then Double.of_Z 0 else Double.of_Z 1, g + 1)%Z;
|}.

#[export] Instance counter_random_laws : RandomLaws Z.
Proof.
  split.
  - intros g lo hi H. cbn. pose proof (Z.mod_pos_bound g (hi - lo + 1)). lia.
  - intros g rate _. cbn. by destruct (Z.even g).
Qed.

Definition demo : t (G := Z) := create default_config.

Lemma generated_order_ok_witness :
  (950 ≤ no_price (next_order demo 1 2).1 ≤ 1050)%Z.
Proof.
  pose proof (generated_order_ok demo 1 2 0) as H.
  destruct (next_order demo 1 2) as [m s'] eqn:E.
  destruct H as (_&_&_&_&H&_); [| | |exact H].
  - vm_compute. split_and!; discriminate || reflexivity.
  - unfold is_u64. lia.
  - unfold is_u32. lia.
Defined.

End Generator.
