(* ===== verification/BenchIndex.v ===== *)
(** * The price index benchmark (src/bench/bench_order_book_backends.cpp)

    The same random prices drive each of the three index designs; a churn
    step takes the best price out and puts a new one in.  The theorem says
    that the designs do the same work on them. *)

From S2P Require Import Prelude Types Bitmap PriceIndex Double Wire Protocol Replay Generator.
From Stdlib Require Import SpecFloat.
From stdpp Require Import base tactics numbers list gmap sets.

Set Default Goal Selector "!".

Module BenchIndex.
Import PriceIndex.

Definition kRange : Z := 65536.
Definition kChurnOpsPerIteration : nat := N.to_nat 5000.

Section sequence.
Context {G : Type} `{!Random G}.

(** [for (auto& p : prices) p = dist(rng)] *)
Fixpoint draw_prices (n : nat) (rng : G) : list Z :=
  match n with
  | O => []
  | S n => let '(p, rng) := draw_int rng 0 (kRange - 1) in p :: draw_prices n rng
  end.

Definition make_price_sequence (n : nat) (seed : Z) : list Z := draw_prices n (rng_seed seed).

Lemma draw_prices_range `{!RandomLaws G} n rng :
  Forall (λ p, 0 ≤ p < kRange)%Z (draw_prices n rng) ∧ length (draw_prices n rng) = n.
Proof.
  revert rng. induction n as [|n IH]; intros rng; [by split|]. cbn [draw_prices].
  pose proof (draw_int_range rng 0 (kRange - 1) ltac:(unfold kRange; lia)) as Hp.
  destruct (draw_int rng _ _) as [p rng']. destruct (IH rng') as [H1 H2]. cbn [fst] in Hp.
  split; [constructor; [lia|done]|]. cbn. by rewrite H2.
Qed.

End sequence.

Section churn.
Context {X : Type} `{!PriceIndex X}.

(** [n] churn steps from [cursor], with the best prices they saw; [None]:
    the cursor left the sequence. *)
Fixpoint churn (n : nat) (inserts : list Z) (cursor : nat) (index : X)
    : option (list (option Z) * X) :=
  match n with
  | O => Some ([], index)
  | S n =>
      let best := pi_best index in
      let index := match best with Some p => pi_erase index p | None => index end in
      p ← inserts !! cursor;
      let index := pi_insert index p in
      '(bests, index) ← churn n inserts ((cursor + 1) mod length inserts) index;
      Some (best :: bests, index)
  end.

(** One iteration on a new index. *)
Definition churn_iteration (build_up churn_inserts : list Z) (n : nat) (index : X)
    : option (list (option Z) * X) :=
  churn n churn_inserts 0 (foldl pi_insert index build_up).

Definition run_churn_benchmark {G : Type} `{!Random G} (BookDepth : nat) (index : X)
    : option (list (option Z) * X) :=
  churn_iteration (make_price_sequence BookDepth 1)
    (make_price_sequence (kChurnOpsPerIteration * 20) 2) kChurnOpsPerIteration index.

End churn.

Section follows.
Context {X : Type} (n : nat) `{!PriceIndex X, !PriceIndexLaws n X}.

(** Every index follows the set it holds. *)
Lemma churn_follows k inserts cursor (x : X) S :
  pi_holds (n := n) x S → Forall (λ p, 0 ≤ p < Z.of_nat n)%Z inserts →
  (∀ p, p ∈ S → (0 ≤ p < Z.of_nat n)%Z) → cursor < length inserts →
  ∃ bests x' S', churn k inserts cursor x = Some (bests, x') ∧
    @churn (gset Z) tree_index k inserts cursor S = Some (bests, S') ∧ pi_holds (n := n) x' S'.
Proof.
  intros Hx Hins. revert cursor x S Hx. induction k as [|k IH]; intros cursor x S Hx HS Hc.
  { by exists [], x, S. }
  cbn [churn]. pose proof (pi_holds_best (n := n) x S Hx) as Hb.
  assert (pi_best S = pi_best x) as ->
    by (eapply best_price_unique; [apply tree_best_spec|done]).
  destruct (lookup_lt_is_Some_2 inserts cursor Hc) as [p Hp]. rewrite Hp. cbn [mbind option_bind].
  assert (0 ≤ p < Z.of_nat n)%Z as Hpr by (eapply Forall_lookup in Hins; [|exact Hp]; done).
  set (x1 := match pi_best x with Some q => pi_erase x q | None => x end).
  set (S1 := match pi_best x with Some q => pi_erase S q | None => S end).
  assert (pi_holds (n := n) x1 S1 ∧ ∀ q, q ∈ S1 → (0 ≤ q < Z.of_nat n)%Z) as [H1 H2].
  { unfold x1, S1. destruct (pi_best x) as [q|]; [|done]. destruct Hb as [Hq _].
    split; [apply pi_holds_erase; auto|]. cbn. set_solver. }
  destruct (IH ((cursor + 1) mod length inserts) (pi_insert x1 p) (pi_insert S1 p))
    as (bests&x'&S'&->&->&Hx').
  - by apply pi_holds_insert.
  - intros q. cbn. set_solver.
  - apply Nat.mod_upper_bound. lia.
  - cbn [mbind option_bind]. by eexists _, x', S'.
Qed.

Lemma build_follows build_up (x : X) S :
  pi_holds (n := n) x S → Forall (λ p, 0 ≤ p < Z.of_nat n)%Z build_up →
  (∀ p, p ∈ S → (0 ≤ p < Z.of_nat n)%Z) →
  pi_holds (n := n) (foldl pi_insert x build_up) (foldl pi_insert S build_up) ∧
  ∀ p, p ∈ foldl pi_insert S build_up → (0 ≤ p < Z.of_nat n)%Z.
Proof.
  intros Hx Hb. revert x S Hx. induction Hb as [|p ps Hp Hps IH]; intros x S Hx HS; [done|].
  cbn [foldl]. apply IH; [by apply pi_holds_insert|]. cbn. set_solver.
Qed.

Lemma iteration_follows build_up inserts k (x : X) :
  pi_holds (n := n) x ∅ → Forall (λ p, 0 ≤ p < Z.of_nat n)%Z build_up →
  Forall (λ p, 0 ≤ p < Z.of_nat n)%Z inserts → 0 < length inserts →
  ∃ bests x' S', churn_iteration build_up inserts k x = Some (bests, x') ∧
    @churn_iteration (gset Z) tree_index build_up inserts k ∅ = Some (bests, S') ∧
    pi_holds (n := n) x' S'.
Proof.
  intros Hx Hb Hi Hl. unfold churn_iteration.
  destruct (build_follows build_up x ∅ Hx Hb) as [H1 H2]; [set_solver|].
  by apply churn_follows.
Qed.

End follows.

Lemma flat_empty : flat_holds (mkFlat []) ∅.
Proof. split; [constructor|set_solver]. Qed.

Lemma kRange_nat : Z.of_nat (Z.to_nat kRange) = kRange.
Proof. apply Z2Nat.id. unfold kRange. lia. Qed.

(** The three designs see the same random prices, none is out of range or
    past the end of its sequence, and every one of the churn steps finds
    the same best price in each: the benchmark compares the same work. *)
Theorem backends_same_work {G : Type} `{!Random G, !RandomLaws G} BookDepth :
  ∃ bests ladder tree flat,
    run_churn_benchmark (X := LadderIndex) BookDepth (ladder_create (Z.to_nat kRange)) =
      Some (bests, ladder) ∧
    run_churn_benchmark (X := gset Z) BookDepth ∅ = Some (bests, tree) ∧
    run_churn_benchmark (X := FlatIndex) BookDepth (mkFlat []) = Some (bests, flat).
Proof.
  unfold run_churn_benchmark, make_price_sequence.
  destruct (draw_prices_range BookDepth (rng_seed 1)) as [Hb _].
  destruct (draw_prices_range (kChurnOpsPerIteration * 20) (rng_seed 2)) as [Hi Hl].
  set (build := draw_prices _ (rng_seed 1)) in *.
  set (ins := draw_prices _ (rng_seed 2)) in *.
  assert (0 < length ins) as Hpos by (rewrite Hl; unfold kChurnOpsPerIteration; lia).
  rewrite <- kRange_nat in Hb, Hi. set (N := Z.to_nat kRange) in *. clearbody N.
  pose proof flat_empty as Hf.
  destruct (iteration_follows N (PriceIndexLaws0 := ladder_laws N) build ins kChurnOpsPerIteration
    (ladder_create N) (ladder_create_holds _) Hb Hi Hpos) as (bs&l&S1&E1&E2&_).
  destruct (iteration_follows N (PriceIndexLaws0 := flat_laws N) build ins kChurnOpsPerIteration
    (mkFlat []) Hf Hb Hi Hpos) as (bs'&f&S2&E3&E4&_).
  rewrite E2 in E4. injection E4 as <- <-. by exists bs, l, S1, f.
Qed.

Lemma backends_same_work_witness :
  ∃ bests ladder flat,
    run_churn_benchmark (G := Z) (Random0 := Generator.counter_random) 20
      (ladder_create (Z.to_nat kRange)) = Some (bests, ladder) ∧
    run_churn_benchmark (G := Z) (Random0 := Generator.counter_random) 20 (mkFlat []) =
      Some (bests, flat).
Proof.
  destruct (@backends_same_work Z Generator.counter_random Generator.counter_random_laws 20)
    as (bs&l&t&f&H1&_&H3).
  exists bs, l, f. split; [exact H1|exact H3].
Defined.

End BenchIndex.
