(* ===== verification/BenchPipeline.v ===== *)
(** * The latency benchmarks (src/bench/bench_end_to_end.cpp)

    Every call is timed on its own with the steady clock of [Platform] and
    recorded in a histogram.  The main benchmark drives the whole pipeline,
    generator, risk, matching and market data, over generated orders. *)

From S2P Require Import Prelude Types Bitmap SlabPool Level HashMap Ladder OrderBook.
From S2P Require Import BookSpec Matching MatchSpec Liquidity Exchange BenchEngine Engine.
From S2P Require Import Risk Wire Protocol Sinks Publisher Text Platform Clock Replay Feed.
From S2P Require Import Double Histogram Generator.
From Stdlib Require Import SpecFloat.
From stdpp Require Import base tactics numbers list sets gmap.

Set Default Goal Selector "!".

Module BenchPipeline.
Import Matching Protocol Replay.

(** ** Timed calls *)

(** What a thread does, in order: clock readings and other work. *)
Inductive action (A : Type) :=
  | ReadClock
  | Did (a : A).
Arguments ReadClock {A}.
Arguments Did {A}.

Abbreviation log A := (list (action A)).

(** The calls between two readings of the component benchmarks. *)
Inductive call := AddOrder | CancelOrder | ClearFills | SubmitBuy | SubmitSell.

Section timing.
Context `{!TickPeriod}.

(** [Clock::now()] of a thread that has done [l]: what the clock shows may
    depend on everything done before. *)
Context (now : log call → Z).

(** [kSamples] timed rounds of the calls [acts], which together are [body]:
    a reading before, a reading after, and the time between them recorded. *)
Fixpoint timed {S : Type} (samples : nat) (acts : list call) (body : S → S) (s : S) (l : log call)
    (hist : Histogram.t) : S * log call * Histogram.t :=
  match samples with
  | O => (s, l, hist)
  | Datatypes.S samples =>
      let t0 := now l in
      let l := l ++ [ReadClock] in
      let s := body s in
      let l := l ++ (Did <$> acts) in
      let t1 := now l in
      let l := l ++ [ReadClock] in
      timed samples acts body s l (Histogram.record hist (Platform.elapsed_ns t0 t1))
  end.

(** Nothing between the readings. *)
Definition bench_measurement_overhead (samples : nat) : Histogram.t :=
  (timed samples [] id tt [] Histogram.create).2.

Section books.
Context (NumLevels MaxOrders : nat) {M : Type} `{!HashMap Z nat M}.

Definition make_limit (id : Z) (side : Side) (price qty : Z) : Order :=
  mkOrder id 1 1 (side_code side) Limit Day price qty qty 0 0.

(** An order added and cancelled again. *)
Definition add_and_cancel (b : OrderBook.t M) : OrderBook.t M :=
  let '(_, b) := OrderBook.add NumLevels b (make_limit 1 Buy 100 10) in
  (OrderBook.cancel b 1).2.

Definition bench_order_book_percentiles (samples : nat) : OrderBook.t M * log call * Histogram.t :=
  timed samples [AddOrder; CancelOrder] add_and_cancel (OrderBook.create NumLevels MaxOrders 1 0)
    [] Histogram.create.

Definition bench_matching_engine_percentiles (samples : nat)
    : BenchEngine.bench (M := M) * log call * Histogram.t :=
  timed samples [ClearFills; SubmitBuy; SubmitSell] (λ s, (BenchEngine.crossing NumLevels s).2)
    (BenchEngine.submit_next NumLevels Sell 10 (BenchEngine.start NumLevels MaxOrders)).2
    [] Histogram.create.
End books.

(** The time of each of [n] rounds of [acts] after [l]: from the reading
    before the calls to the reading after them. *)
Fixpoint times (acts : list call) (l : log call) (n : nat) : list Z :=
  match n with
  | O => []
  | S n =>
      let after := l ++ ReadClock :: (Did <$> acts) in
      Platform.elapsed_ns (now l) (now after) :: times acts (after ++ [ReadClock]) n
  end.

(** A loop of [n] timed rounds makes the calls and records [n] times. *)
Lemma timed_spec {S : Type} n acts (body : S → S) s l h :
  let '(s', _, h') := timed n acts body s l h in
  s' = Nat.iter n body s ∧ h' = foldl Histogram.record h (times acts l n).
Proof.
  revert s l h. induction n as [|n IH]; intros s l h; cbn [timed times]; [done|].
  rewrite <- (app_assoc l [ReadClock]). rewrite Nat.iter_succ_r. cbn [foldl]. apply IH.
Qed.

End timing.

(** [report_percentiles]; [None]: a percentile's rank is out of range. *)
Record counters := mkCounters {
  p50_ns : option spec_float;
  p99_ns : option spec_float;
  p99_9_ns : option spec_float;
  max_ns : spec_float;
  min_ns : spec_float;
  mean_ns : spec_float;
  samples_count : spec_float;
}.

Definition report_percentiles (h : Histogram.t) : counters := {|
  p50_ns := Double.of_Z <$> Histogram.percentile h (Double.of_Z 50);
  p99_ns := Double.of_Z <$> Histogram.percentile h (Double.of_Z 99);
  p99_9_ns := Double.of_Z <$>
    Histogram.percentile h (Double.div (Double.of_Z 999) (Double.of_Z 10));
  max_ns := Double.of_Z (Histogram.max h);
  min_ns := Double.of_Z (Histogram.min h);
  mean_ns := Histogram.mean h;
  samples_count := Double.of_Z (Histogram.count h);
|}.

(** ** The pipeline *)

Definition kNumLevels : nat := N.to_nat 4096.
Definition kMaxOrders : nat := N.to_nat 300000.
Definition kOrderCount : nat := N.to_nat 500000.
Definition kBasePrice : Z := 8800.
Definition kMidPrice : Z := 9000.
Definition kSpread : Z := 195.

Definition limits : Risk.Limits := Risk.mkLimits 1000000 10000000 (-1000000000000).

Definition generator_config : Generator.SyntheticConfig :=
  Generator.mkConfig 42 1 kMidPrice kSpread 1 100
    (Double.div (Double.of_Z 5) (Double.of_Z 100))
    (Double.div (Double.of_Z 5) (Double.of_Z 10))
    (Generator.mean_arrival_rate_per_sec Generator.default_config).

(** What the driver does for an order. *)
Inductive activity :=
  | Generate
  | Tick
  | Process (rq : request)
  | Record (ns : Z)
  | CheckCapacity.

Section pipeline.
Context {M R G : Type} `{!HashMap Z nat M} `{!HashMap Z Risk.ClientExposure R} `{!Random G}.
Context `{!TickPeriod} (now : log activity → Z).

(** [trace]: everything the thread has done, in order. *)
Record run_state := mkRun {
  replay : Replay.t M R InMemorySink.t;
  gen : Generator.t (G := G);
  clock : DeterministicClock.t;
  trace : log activity;
  hist : Histogram.t;
  capacity_rejections : Z;
}.

Definition start : run_state :=
  mkRun
    (Replay.create (Matching.create kNumLevels kMaxOrders 1 kBasePrice) (Risk.create limits)
       (Publisher.create InMemorySink.create (N.to_nat 65536)))
    (Generator.create generator_config) (DeterministicClock.create 0 1) [] Histogram.create 0.

(** The calls of the loop's body, each of which leaves its mark. *)

Definition generate (i : Z) (s : run_state) : NewOrderMessage * run_state :=
  let '(msg, g) := Generator.next_order (gen s) (u64 (i + 1)) (u32 (1 + Z.rem i 20)) in
  (msg, mkRun (replay s) g (clock s) (trace s ++ [Did Generate]) (hist s) (capacity_rejections s)).

Definition clock_tick (s : run_state) : Z * run_state :=
  let '(ts, c) := DeterministicClock.tick (clock s) in
  (ts, mkRun (replay s) (gen s) c (trace s ++ [Did Tick]) (hist s) (capacity_rejections s)).

Definition clock_now (s : run_state) : Z * run_state :=
  (now (trace s),
   mkRun (replay s) (gen s) (clock s) (trace s ++ [ReadClock]) (hist s) (capacity_rejections s)).

Definition process_order (msg : NewOrderMessage) (ts : Z) (s : run_state) : run_state :=
  mkRun (process_new_order kNumLevels (replay s) msg ts) (gen s) (clock s)
    (trace s ++ [Did (Process (ReqNew msg ts))]) (hist s) (capacity_rejections s).

Definition record_time (ns : Z) (s : run_state) : run_state :=
  mkRun (replay s) (gen s) (clock s) (trace s ++ [Did (Record ns)])
    (Histogram.record (hist s) ns) (capacity_rejections s).

Definition check_capacity (s : run_state) : run_state :=
  let near := (Z.of_nat kMaxOrders - 1 <=? OrderBook.order_count (book (matching (replay s))))%Z in
  mkRun (replay s) (gen s) (clock s) (trace s ++ [Did CheckCapacity]) (hist s)
    (if near then capacity_rejections s + 1 else capacity_rejections s)%Z.

(** The body of the loop for [i]. *)
Definition order_step (i : Z) (s : run_state) : run_state :=
  let '(msg, s) := generate i s in
  let '(ts, s) := clock_tick s in
  let '(t0, s) := clock_now s in
  let s := process_order msg ts s in
  let '(t1, s) := clock_now s in
  let s := record_time (Platform.elapsed_ns t0 t1) s in
  check_capacity s.

Fixpoint orders_loop (n : nat) (i : Z) (s : run_state) : run_state :=
  match n with
  | O => s
  | S n => orders_loop n (i + 1) (order_step i s)
  end.

(** The counters of one iteration. *)
Definition pipeline_counters (n : nat) : counters * spec_float * spec_float :=
  let s := orders_loop n 0 start in
  (report_percentiles (hist s),
   Double.of_Z (OrderBook.order_count (book (matching (replay s)))),
   Double.of_Z (capacity_rejections s)).

Definition bench_end_to_end_pipeline_percentiles := pipeline_counters kOrderCount.

(** ** What it measures *)

(** The requests processed in the course of [l]. *)
Definition processed (l : log activity) : list request :=
  omap (λ a, match a with Did (Process rq) => Some rq | _ => None end) l.

(** The requests processed in [l] directly between two clock readings, with
    nothing else in between, and the time from the reading before to the
    reading after; [before] is what was done earlier. *)
Fixpoint measured (before l : log activity) : list (request * Z) :=
  match l with
  | [] => []
  | a :: l' =>
      match a, l' with
      | ReadClock, Did (Process rq) :: ReadClock :: _ =>
          [(rq, Platform.elapsed_ns (now before)
                  (now (before ++ [ReadClock; Did (Process rq)])))]
      | _, _ => []
      end ++ measured (before ++ [a]) l'
  end.

Context `{!HashMapLaws Z nat M, !RandomLaws G}.

Abbreviation ready := (Feed.ready kNumLevels kMaxOrders 1 kBasePrice).

Lemma pipeline_config : Engine.config_ok kNumLevels kMaxOrders kBasePrice.
Proof. unfold Engine.config_ok, OrderBook.geometry, is_i64, kNumLevels, kMaxOrders, kBasePrice. lia. Qed.

Lemma pipeline_symbol : is_u32 1.
Proof. unfold is_u32. lia. Qed.

Lemma generator_config_ok : Generator.config_ok generator_config.
Proof. unfold Generator.config_ok, is_u32, is_i64. cbn. unfold kMidPrice, kSpread. lia. Qed.

(** One round: the order is well formed, has the next id, and is processed
    directly between two readings, whose difference is recorded. *)
Lemma order_step_ok i s :
  Generator.config_ok (Generator.config (gen s)) →
  let s' := order_step i s in
  ∃ rq, request_ok rq ∧ request_id rq = u64 (i + 1) ∧
    Generator.config_ok (Generator.config (gen s')) ∧
    replay s' = process kNumLevels (replay s) rq ∧
    let l := trace s ++ [Did Generate; Did Tick] in
    let t := Platform.elapsed_ns (now l) (now (l ++ [ReadClock; Did (Process rq)])) in
    hist s' = Histogram.record (hist s) t ∧
    trace s' = trace s ++ [Did Generate; Did Tick; ReadClock; Did (Process rq); ReadClock;
                         Did (Record t); Did CheckCapacity].
Proof.
  intros Hg. unfold order_step, generate.
  pose proof (λ ts, Generator.generated_order_ok (gen s) (u64 (i + 1)) (u32 (1 + Z.rem i 20)) ts Hg
    ltac:(apply u64_range) ltac:(apply u32_range)) as Hgen.
  destruct (Generator.next_order _ _ _) as [msg g]. unfold clock_tick. cbn [clock].
  destruct (DeterministicClock.tick (clock s)) as [ts c].
  destruct (Hgen ts) as (Hrq&Hcfg&Hid&_). exists (ReqNew msg ts).
  unfold clock_now, process_order, record_time, check_capacity.
  cbn [replay gen clock trace hist capacity_rejections]. rewrite Hcfg, <- !app_assoc.
  by split_and!.
Qed.

(** The whole loop, from any state. *)
Lemma orders_loop_trace n i s :
  Generator.config_ok (Generator.config (gen s)) →
  let s' := orders_loop n i s in
  ∃ l, trace s' = trace s ++ l ∧ (measured (trace s) l).*1 = processed l ∧
    hist s' = foldl Histogram.record (hist s) (measured (trace s) l).*2 ∧
    Forall request_ok (processed l) ∧ replay s' = run kNumLevels (replay s) (processed l) ∧
    request_id <$> processed l = (λ j, u64 (i + 1 + Z.of_nat j)) <$> seq 0 n.
Proof.
  revert i s. induction n as [|n IH]; intros i s Hg; cbn [orders_loop].
  { exists []. by rewrite app_nil_r. }
  destruct (order_step_ok i s Hg) as (rq&Hrq&Hid&Hg'&Hr&Hh&Ht). cbv zeta in Hh, Ht.
  destruct (IH (i + 1)%Z _ Hg') as (l&E1&E2&E3&E4&E5&E6). rewrite Ht in E1, E2, E3.
  set (t := Platform.elapsed_ns _ _) in *.
  set (round := [Did Generate; Did Tick; ReadClock; Did (Process rq); ReadClock; Did (Record t);
    Did CheckCapacity]) in *.
  assert (measured (trace s) (round ++ l) = (rq, t) :: measured (trace s ++ round) l) as Em.
  { assert (t = Platform.elapsed_ns (now (trace s ++ [Did Generate; Did Tick]))
      (now (trace s ++ [Did Generate; Did Tick; ReadClock; Did (Process rq)]))) as Et
      by (unfold t; by rewrite <- app_assoc).
    unfold round. clearbody t. cbn [app measured]. rewrite <- !app_assoc. cbn [app].
    by rewrite <- Et. }
  assert (processed (round ++ l) = rq :: processed l) as Ep by done.
  exists (round ++ l). rewrite Em, Ep, app_assoc, !fmap_cons, E2, E3, Hh. split_and!; try done.
  - by constructor.
  - by rewrite E5, Hr.
  - rewrite Hid, E6, <- cons_seq, fmap_cons, Z.add_0_r. f_equal.
    rewrite <- fmap_S_seq, <- list_fmap_compose. apply list_fmap_ext. intros _ j _. cbn.
    f_equal. lia.
Qed.

(** C23: the latency benchmark measures what it says.  Whatever the random
    draws, and whatever the clock shows, which may depend on all the work
    done before a reading: the requests the benchmark processes are [n]
    well-formed new orders with the ids 1, 2, ..., n, the final state is the
    one the pipeline reaches on them, and the feed answers each of them;
    each is processed directly between two clock readings, with neither the
    generator nor the histogram in between; and the histogram holds exactly
    the times between those readings, one per order. *)
Theorem pipeline_measures_every_order n :
  (Z.of_nat n < 2 ^ 64)%Z →
  let s := orders_loop n 0 start in
  let rqs := processed (trace s) in
  let evs := Publisher.read_feed (sink_data (Publisher.sink (feed (replay s)))) in
  Forall request_ok rqs ∧ request_id <$> rqs = (λ j, Z.of_nat j + 1)%Z <$> seq 0 n ∧
  replay s = run kNumLevels (replay start) rqs ∧
  er_order_id <$> omap Feed.event_report evs = request_id <$> rqs ∧
  (measured [] (trace s)).*1 = rqs ∧
  Histogram.holds (hist s) (measured [] (trace s)).*2 ∧
  Histogram.count (hist s) = Z.of_nat n.
Proof.
  intros Hn s rqs evs.
  destruct (orders_loop_trace n 0 start generator_config_ok) as (l&E1&E2&E3&E4&E5&E6).
  fold s in E1, E3, E5. change (trace start) with (@nil (action activity)) in E1, E2, E3.
  rewrite app_nil_l in E1. unfold rqs. rewrite E1.
  assert (request_id <$> processed l = (λ j, Z.of_nat j + 1)%Z <$> seq 0 n) as Hids.
  { rewrite E6. apply list_fmap_ext. intros k j Hj. apply lookup_seq in Hj.
    rewrite u64_id; [lia|unfold is_u64; lia]. }
  assert (length (measured [] l).*2 = n) as Hl.
  { rewrite length_fmap, <- (length_fmap fst), E2, <- (length_fmap request_id), Hids.
    by rewrite length_fmap, length_seq. }
  assert (Histogram.holds (hist s) (measured [] l).*2) as Hx.
  { rewrite E3. apply Histogram.run_holds. by rewrite Hl. }
  destruct (Feed.session_run kNumLevels kMaxOrders 1 kBasePrice pipeline_symbol limits
    InMemorySink.create (N.to_nat 65536) (processed l) pipeline_config Feed.empty_sink E4
    (M := M) (R := R)) as (evs'&_&Hev&Hrep).
  split_and!; try done.
  - unfold evs. rewrite E5. etrans; [|exact Hrep]. by rewrite <- Hev.
  - by rewrite (Histogram.ho_count _ _ Hx), Hl.
Qed.

End pipeline.

(** A clock on which every action takes a nanosecond and an order ten. *)
Definition nanosecond_tick : TickPeriod := {| period_num := 1; period_den := 1000000000 |}.

Definition working_clock (l : log activity) : Z :=
  zsum ((λ a, match a with Did (Process _) => 10 | _ => 1 end)%Z <$> l).

#[local] Existing Instances nanosecond_tick Generator.counter_random Generator.counter_random_laws.

Definition demo_run (n : nat)
    : run_state (M := gmap Z nat) (R := gmap Z Risk.ClientExposure) (G := Z) :=
  orders_loop working_clock n 0 start.

Lemma pipeline_measures_every_order_witness :
  Histogram.count (hist (demo_run 3)) = 3%Z ∧
  request_id <$> processed (trace (demo_run 3)) = [1; 2; 3]%Z.
Proof.
  destruct (pipeline_measures_every_order (M := gmap Z nat) (R := gmap Z Risk.ClientExposure)
    (G := Z) working_clock 3) as (_&Hid&_&_&_&_&H); [lia|]. split; [exact H|exact Hid].
Defined.

End BenchPipeline.
