(* ===== verification/BenchMain.v ===== *)
(** * What the benchmarks register and where their threads run
    (src/bench/bench_spsc_ring_buffer.cpp, src/bench/bench_mpsc.cpp,
    src/bench/bench_order_book_backends.cpp)

    The tables of registered benchmarks, each with its name, its sizes and
    its number of iterations, the benchmark loop over them and the item
    count it reports; and the cores the threads are pinned to.  The bodies
    are those of BenchRings.v, call by call, and of BenchIndex.v for the
    price indexes. *)

From S2P Require Import Prelude Spsc FanIn Mpsc MpscCalls Throughput BenchRings Text.
From S2P Require Import PriceIndex Generator BenchIndex.
From Stdlib Require Import Ascii String.
From stdpp Require Import base tactics numbers list gmap sets.

Set Default Goal Selector "!".

Module BenchMain.
Import Throughput BenchRings.
Local Open Scope nat_scope.

(** ** The registrations *)

(** The function a benchmark runs, with its template arguments. *)
Inductive body :=
  | SpscCached (Capacity SimulateWork : nat)
  | SpscNaive (Capacity SimulateWork : nat)
  | MpscShared (NumProducers : nat)
  | FanInSpsc (NumProducers : nat).

(** [BENCHMARK(body)->Name(name)->Iterations(iterations)]; all of them are
    timed in milliseconds of real time. *)
Record registration := mkReg { bench_body : body; name : text; iterations : nat }.

(** [#CAP] *)
Definition stringize (n : N) : text := Text.to_string (Z.of_N n).

Definition JANE_SPSC_CAPACITY_BENCHMARK (CAP : N) : list registration :=
  [mkReg (SpscCached (N.to_nat CAP) 0) (lit "SPSC/cached_index/cap" ++ stringize CAP) 20;
   mkReg (SpscNaive (N.to_nat CAP) 0) (lit "SPSC/naive_reread/cap" ++ stringize CAP) 20].

Definition capacity_sweep : list registration :=
  JANE_SPSC_CAPACITY_BENCHMARK 256 ++ JANE_SPSC_CAPACITY_BENCHMARK 4096 ++
  JANE_SPSC_CAPACITY_BENCHMARK 65536.

Definition consumer_work : list registration :=
  [mkReg (SpscCached (N.to_nat 4096) 20) (lit "SPSC/cached_index/cap4096/consumer_work") 20;
   mkReg (SpscNaive (N.to_nat 4096) 20) (lit "SPSC/naive_reread/cap4096/consumer_work") 20].

Definition JANE_MPSC_PRODUCER_BENCHMARK (N : N) : list registration :=
  [mkReg (MpscShared (N.to_nat N)) (lit "MPSC/cas_shared/producers" ++ stringize N) 10;
   mkReg (FanInSpsc (N.to_nat N)) (lit "MPSC/fanin_spsc/producers" ++ stringize N) 10].

Definition producer_sweep : list registration :=
  JANE_MPSC_PRODUCER_BENCHMARK 2 ++ JANE_MPSC_PRODUCER_BENCHMARK 4 ++
  JANE_MPSC_PRODUCER_BENCHMARK 8.

Definition registered : list registration := capacity_sweep ++ consumer_work ++ producer_sweep.

(** ** Running them *)

Definition producers (b : body) : nat :=
  match b with SpscCached _ _ | SpscNaive _ _ => 1 | MpscShared N | FanInSpsc N => N end.

Definition ops (b : body) : nat :=
  match b with SpscCached _ _ | SpscNaive _ _ => kOpsPerIteration | _ => kOpsPerProducer end.

Definition message_of (b : body) : nat → nat → Msg :=
  match b with SpscCached _ _ | SpscNaive _ _ => spsc_message | _ => mpsc_message end.

(** Whose message it is. *)
Definition sender (b : body) : Msg → nat :=
  match b with SpscCached _ _ | SpscNaive _ _ => λ _, 0 | _ => producer_of end.

(** The iteration has ended, and what the consumer has received. *)
Definition outcome {C A : Type} (b : body) (s : state C Msg A) : bool * list Msg :=
  (bool_decide (finished (producers b) (ops b) s), received s).

(** One iteration of the body; [cas] is how the compare-exchange attempts of
    a push on the shared ring go. *)
Definition iterate (b : body) (cas : list bool) (schedule : list thread) : bool * list Msg :=
  match b with
  | SpscCached Capacity SimulateWork =>
      outcome b (run_spsc_throughput (BoundedQueue0 := spsc_queue zero_msg Capacity)
        (Spsc.create zero_msg Capacity) SimulateWork schedule)
  | SpscNaive Capacity SimulateWork =>
      outcome b (run_spsc_throughput (BoundedQueue0 := naive_queue zero_msg Capacity)
        (Naive.create zero_msg Capacity) SimulateWork schedule)
  | MpscShared N => outcome b (bench_mpsc_ring_buffer N cas schedule)
  | FanInSpsc N => outcome b (bench_fan_in_sequencer N schedule)
  end.

(** [for (auto _ : state)]: each iteration is scheduled in its own way. *)
Definition run_benchmark (r : registration) (cas : list bool) (schedules : list (list thread))
    : list (bool * list Msg) :=
  iterate (bench_body r) cas <$> schedules.

(** [state.SetItemsProcessed(int64(state.iterations()) * int64(ops))] *)
Definition items_processed (r : registration) : Z :=
  i64 (i64 (Z.of_nat (iterations r)) *
       i64 (u64 (Z.of_nat (ops (bench_body r)) * Z.of_nat (producers (bench_body r))))).

(** Sizes for which the queues keep their contracts. *)
Definition body_ok (b : body) : Prop :=
  match b with
  | SpscCached Capacity _ | SpscNaive Capacity _ => ∃ n, Capacity = 2 ^ n ∧ 1 ≤ n < 63
  | MpscShared N | FanInSpsc N => 0 < N ≤ 8
  end.

Lemma registered_ok : Forall (λ r, body_ok (bench_body r) ∧ iterations r ≤ 20) registered.
Proof.
  repeat (apply Forall_cons; split; [split; [|cbn; lia]; cbn [body_ok bench_body]|]); [..|constructor];
    first [cbn; lia | by exists 8; split; [reflexivity|lia] | by exists 12; split; [reflexivity|lia]
          | by exists 16; split; [reflexivity|lia]].
Qed.

(** No two results have the same name. *)
Lemma registered_names : NoDup (name <$> registered).
Proof. apply (bool_decide_unpack _). vm_compute. exact I. Qed.

(** What an iteration has to achieve. *)
Definition complete (b : body) (o : bool * list Msg) : Prop :=
  o.1 = true ∧ length o.2 = ops b * producers b ∧
  ∀ p, p < producers b → from (sender b) p o.2 = message_of b p <$> seq 0 (ops b).

Lemma outcome_complete {C A : Type} b (s : state C Msg A) :
  finished (producers b) (ops b) s →
  (∀ p, p < producers b → from (sender b) p (received s) = message_of b p <$> seq 0 (ops b)) →
  complete b (outcome b s).
Proof.
  intros Hf Hr. split; [by apply bool_decide_eq_true_2|]. split; [apply Hf|exact Hr].
Qed.

Lemma fan_in_create_holds N :
  0 < N → fan_holds (BoundedQueue0 := spsc_queue zero_msg (N.to_nat 4096)) N producer_of
    (FanIn.mk (replicate N (Spsc.create zero_msg (N.to_nat 4096))) 0) [].
Proof.
  intros HN. split; [|constructor]. exists (FanIn.mkAbs (replicate N []) 0). split.
  - split; cbn; [|done|apply length_replicate|lia].
    clear. induction N as [|k IH]; cbn; constructor; [|exact IH].
    apply (Spsc.content_create _ _ 12); [reflexivity|lia].
  - intros p Hp. cbn. by apply lookup_replicate_2.
Qed.

Lemma ops_eq : kOpsPerIteration = N.to_nat 1048576 ∧ kOpsPerProducer = N.to_nat 262144.
Proof. split; reflexivity. Qed.

#[local] Opaque kOpsPerIteration kOpsPerProducer.

(** A ring for one producer, at the sizes of its benchmark. *)
Lemma spsc_completes {Q : Type} `{!BoundedQueue Q Msg, !BoundedQueueLaws Q Msg} (q : Q) work rounds b :
  (∃ Capacity w, b = SpscCached Capacity w ∨ b = SpscNaive Capacity w) →
  0 < bq_capacity (Q := Q) → bq_content q [] → Forall (round 1) rounds →
  2 * total 1 kOpsPerIteration + 1 < length rounds →
  complete b (outcome b (run_spsc_throughput q work (concat rounds))).
Proof.
  intros Hb Hc Hq Hr Hl. pose (L := queue_channel_laws (λ _ : Msg, 0) Hc).
  destruct (@rounds_complete _ _ _ queue_channel 1 kOpsPerIteration spsc_message (simulate_work work)
    (λ _, 0) L q 0%Z rounds) as (Hf&_&Hm);
    [lia|unfold total; rewrite (proj1 ops_eq); lia|exact Hq|exact Hr|exact Hl|].
  destruct Hb as (Capacity&w&[-> | ->]); (apply outcome_complete; [exact Hf|exact Hm]).
Qed.

Lemma iterate_complete b cas rounds :
  body_ok b → true ∈ cas → Forall (round (producers b)) rounds →
  2 * total (producers b) (ops b) + 1 < length rounds →
  complete b (iterate b cas (concat rounds)).
Proof.
  destruct ring_4096 as [Hc Hn].
  destruct b as [Capacity w|Capacity w|N|N]; intros Hb Hcas Hr Hl;
    cbn [ops producers] in Hr, Hl; cbn [iterate].
  - destruct Hb as (n&Hcap&Hn').
    pose proof (spsc_queue_laws zero_msg Capacity n Hcap Hn') as HQ.
    apply (spsc_completes (BoundedQueue0 := spsc_queue zero_msg Capacity)); [eauto| | |exact Hr|exact Hl].
    + cbn. destruct (Spsc.cap_pos Capacity n Hcap Hn'). lia.
    + by apply (Spsc.content_create _ _ n).
  - destruct Hb as (n&Hcap&Hn').
    pose proof (naive_queue_laws zero_msg Capacity n Hcap Hn') as HQ.
    apply (spsc_completes (BoundedQueue0 := naive_queue zero_msg Capacity)); [eauto| | |exact Hr|exact Hl].
    + cbn. destruct (Spsc.cap_pos Capacity n Hcap Hn'). lia.
    + exists (Spsc.create zero_msg Capacity). split; [done|]. by apply (Spsc.content_create _ _ n).
  - pose (L := mpsc_channel_laws zero_msg (N.to_nat 4096) cas 12 producer_of N Hc Hn Hcas).
    destruct (@rounds_complete _ _ _ (mpsc_channel zero_msg (N.to_nat 4096) cas) N kOpsPerProducer
      mpsc_message (λ u _, u) producer_of L (Mpsc.create zero_msg (N.to_nat 4096)) tt rounds)
      as (Hf&_&Hm); [..|apply outcome_complete; [exact Hf|exact Hm]].
    + intros p i _. apply mpsc_producer_of.
    + cbn [body_ok] in Hb. unfold total. rewrite (proj2 ops_eq). lia.
    + by apply (MpscCalls.mpsc_content_create zero_msg (N.to_nat 4096) 12).
    + exact Hr.
    + exact Hl.
  - pose proof (spsc_queue_laws zero_msg (N.to_nat 4096) 12 Hc ltac:(lia)) as HQ.
    pose (L := @fan_in_channel_laws _ _ (spsc_queue zero_msg (N.to_nat 4096)) N HQ producer_of
      ltac:(cbn; lia)).
    destruct (@rounds_complete _ _ _ (fan_in_channel (BoundedQueue0 := spsc_queue zero_msg (N.to_nat 4096)) N)
      N kOpsPerProducer mpsc_message (λ u _, u) producer_of L
      (FanIn.mk (replicate N (Spsc.create zero_msg (N.to_nat 4096))) 0) tt rounds)
      as (Hf&_&Hm); [..|apply outcome_complete; [exact Hf|exact Hm]].
    + intros p i _. apply mpsc_producer_of.
    + cbn [body_ok] in Hb. unfold total. rewrite (proj2 ops_eq). lia.
    + cbn [body_ok] in Hb. apply fan_in_create_holds. lia.
    + exact Hr.
    + exact Hl.
Qed.

(** The count does not overflow. *)
Lemma items_exact r :
  body_ok (bench_body r) → iterations r ≤ 20 →
  items_processed r = Z.of_nat (iterations r * (ops (bench_body r) * producers (bench_body r))).
Proof.
  intros Hb Hi. unfold items_processed.
  assert (ops (bench_body r) * producers (bench_body r) ≤ N.to_nat 2097152) as Hm.
  { destruct (bench_body r); cbn [ops producers] in *; cbn [body_ok] in Hb;
      rewrite ?(proj1 ops_eq), ?(proj2 ops_eq); lia. }
  rewrite <- Nat2Z.inj_mul. set (m := ops _ * producers _) in *. clearbody m.
  rewrite (u64_id (Z.of_nat m)) by (unfold is_u64; lia).
  rewrite !i64_id by (unfold is_i64; try nia; rewrite ?i64_id by (unfold is_i64; lia); nia).
  lia.
Qed.

Lemma sum_const {X : Type} (f : X → nat) k (l : list X) :
  Forall (λ x, f x = k) l → sum_list (f <$> l) = length l * k.
Proof. induction 1 as [|x l Hx _ IH]; [done|]. cbn. by rewrite Hx, <- IH. Qed.

(** Every registered throughput benchmark works at its own sizes, when its
    threads take turns of one whole call each.  Under any such scheduler that
    keeps giving every thread a turn, and however often compare-exchange
    fails before it succeeds, each of its iterations ends
    with every message of every producer received exactly once and in the
    order sent; and the number of items it reports is the number of
    messages received, without overflow. *)
Theorem registered_runs_complete r cas (rounds : list (list (list thread))) :
  r ∈ registered → true ∈ cas → length rounds = iterations r →
  Forall (λ rs, Forall (round (producers (bench_body r))) rs ∧
    2 * total (producers (bench_body r)) (ops (bench_body r)) + 1 < length rs) rounds →
  let outcomes := run_benchmark r cas (@concat thread <$> rounds) in
  Forall (complete (bench_body r)) outcomes ∧
  items_processed r = Z.of_nat (sum_list (length ∘ snd <$> outcomes)).
Proof.
  intros Hr Hcas Hl Hf outcomes.
  destruct (proj1 (Forall_forall _ _) registered_ok r Hr) as [Hok Hi].
  assert (Forall (complete (bench_body r)) outcomes) as Hc.
  { unfold outcomes, run_benchmark. apply Forall_fmap, Forall_fmap. eapply Forall_impl; [exact Hf|].
    intros rs [H1 H2]. by apply iterate_complete. }
  split; [exact Hc|].
  rewrite items_exact, (sum_const _ (ops (bench_body r) * producers (bench_body r))) by
    (done || by eapply Forall_impl; [exact Hc|]; intros o (_&H&_)).
  do 2 f_equal. unfold outcomes, run_benchmark. rewrite !length_fmap. by rewrite Hl.
Qed.

(** ** Where the threads run *)

(** What the benchmarks use of [cpu_set_t] and of [pthread_setaffinity_np]:
    the CPUs a thread may run on after the call, given those before it. *)
Class Affinity (S : Type) := {
  CPU_ZERO : S;
  CPU_SET : Z → S → S;
  CPU_ISSET : Z → S → bool;
  pthread_setaffinity : S → S → S;
}.

(** The manual pages: the thread gets the requested CPUs among those the
    machine has; if there are none, the call fails and changes nothing (the
    benchmarks ignore its result). *)
Class AffinityLaws (S : Type) `{!Affinity S} (online : Z → bool) := {
  isset_zero cpu : CPU_ISSET cpu CPU_ZERO = false;
  isset_set cpu c s : (0 ≤ c < 1024)%Z → CPU_ISSET cpu (CPU_SET c s) = bool_decide (cpu = c) || CPU_ISSET cpu s;
  setaffinity_some old new c : CPU_ISSET c new && online c = true →
    ∀ cpu, CPU_ISSET cpu (pthread_setaffinity old new) = CPU_ISSET cpu new && online cpu;
  setaffinity_none old new : (∀ c, CPU_ISSET c new && online c = false) →
    pthread_setaffinity old new = old;
}.

Definition kProducerCore : Z := 2.
Definition spsc_kConsumerCore : Z := 3.
Definition mpsc_kConsumerCore : Z := 11.

(** CPUs [i] and [i + 12] share a core. *)
Definition same_core (i j : Z) : Prop := (i mod 12 = j mod 12)%Z.

(** The machine of the comments: 12 cores of two CPUs each. *)
Definition all_cpus (cpu : Z) : bool := (0 <=? cpu)%Z && (cpu <? 24)%Z.

Section affinity.
Context {S : Type} `{!Affinity S}.

Definition pin_to_core (t : S) (core : Z) : S := pthread_setaffinity t (CPU_SET core CPU_ZERO).
Definition pin_self_to_core (self : S) (core : Z) : S := pthread_setaffinity self (CPU_SET core CPU_ZERO).

(** The CPUs of each thread, for a process that may use [process]; a thread
    inherits the CPUs of the one that starts it.  The single-producer
    benchmark pins its producer. *)
Definition spsc_affinity (process : S) (t : thread) : S :=
  match t with
  | Producer _ => pin_to_core process kProducerCore
  | Consumer => process
  end.

(** The others pin themselves, then producer [p] to core [p]. *)
Definition mpsc_affinity (process : S) (t : thread) : S :=
  let self := pin_self_to_core process mpsc_kConsumerCore in
  match t with
  | Producer p => pin_to_core self (Z.of_nat p)
  | Consumer => self
  end.

Context `{!AffinityLaws S all_cpus}.

Lemma pinned old core cpu :
  (0 ≤ core < 24)%Z → CPU_ISSET cpu (pthread_setaffinity old (CPU_SET core CPU_ZERO)) = true → cpu = core.
Proof.
  intros Hc. rewrite (setaffinity_some _ _ core).
  - rewrite isset_set, isset_zero by lia. intros [H _]%andb_true_iff.
    rewrite orb_false_r in H. by apply bool_decide_eq_true in H.
  - rewrite isset_set by lia. unfold all_cpus. rewrite bool_decide_eq_true_2 by done.
    apply andb_true_iff. split; [done|]. apply andb_true_iff. lia.
Qed.

(** With up to eight producers no two threads share a core. *)
Lemma mpsc_threads_apart N process t1 t2 cpu1 cpu2 :
  N ≤ 8 → (∀ p, t1 = Producer p → p < N) → (∀ p, t2 = Producer p → p < N) → t1 ≠ t2 →
  CPU_ISSET cpu1 (mpsc_affinity process t1) = true → CPU_ISSET cpu2 (mpsc_affinity process t2) = true →
  ¬ same_core cpu1 cpu2.
Proof.
  intros HN H1 H2 Hne.
  unfold mpsc_affinity, pin_to_core, pin_self_to_core, mpsc_kConsumerCore, same_core.
  destruct t1 as [p|], t2 as [p'|]; [specialize (H1 p eq_refl); specialize (H2 p' eq_refl)
    |specialize (H1 p eq_refl)|specialize (H2 p' eq_refl)|done];
    intros ->%pinned ->%pinned; try lia; rewrite !Z.mod_small by lia; try lia.
  intros E%Nat2Z.inj. congruence.
Qed.

End affinity.

(** CPU sets as bit masks. *)
#[export] Instance mask_affinity : Affinity Z := {|
  CPU_ZERO := 0%Z;
  CPU_SET c s := Z.lor s (Z.shiftl 1 c);
  CPU_ISSET c s := Z.testbit s c;
  pthread_setaffinity old new := if (Z.land new (Z.ones 24) =? 0)%Z then old else Z.land new (Z.ones 24);
|}.

Lemma land_all_cpus s cpu : Z.testbit (Z.land s (Z.ones 24)) cpu = Z.testbit s cpu && all_cpus cpu.
Proof. by rewrite Z.land_spec, Z.testbit_ones by lia. Qed.

#[export] Instance mask_affinity_laws : AffinityLaws Z all_cpus.
Proof.
  split; cbn.
  - apply Z.bits_0.
  - intros cpu c s Hc. rewrite Z.lor_spec, orb_comm. f_equal. rewrite Z.shiftl_1_l.
    case_bool_decide as E; [subst; apply Z.pow2_bits_true; lia|apply Z.pow2_bits_false; congruence].
  - intros old new c Hc cpu. destruct (Z.eqb_spec (Z.land new (Z.ones 24)) 0) as [E|_].
    + rewrite <- land_all_cpus, E, Z.bits_0 in Hc. done.
    + apply land_all_cpus.
  - intros old new H. rewrite (proj2 (Z.eqb_eq (Z.land new (Z.ones 24)) 0)); [done|].
    apply Z.bits_inj'. intros k _. rewrite land_all_cpus, Z.bits_0. apply H.
Qed.

(** With one producer the consumer is not pinned, and may run on the
    producer's core, or on its CPU. *)
Lemma spsc_threads_may_share :
  let cpus t := spsc_affinity (Z.ones 24) t in
  CPU_ISSET 2 (cpus (Producer 0)) = true ∧ CPU_ISSET 14 (cpus Consumer) = true ∧ same_core 2 14 ∧
  CPU_ISSET 2 (cpus Consumer) = true.
Proof. by vm_compute. Qed.

(** [SPSC/cached_index/cap256] with its threads taking turns: a million messages,
    twenty times. *)
Lemma registered_runs_complete_witness :
  let r := mkReg (SpscCached (N.to_nat 256) 0) (lit "SPSC/cached_index/cap256") 20 in
  let rounds := replicate 20 (replicate (N.to_nat 2097154) [Producer 0; Consumer]) in
  Forall (complete (bench_body r)) (run_benchmark r [true] (@concat thread <$> rounds)).
Proof.
  intros r rounds. apply (registered_runs_complete r [true] rounds).
  - left.
  - left.
  - apply length_replicate.
  - apply Forall_replicate. split.
    + apply Forall_replicate. split; [right; left|]. intros p Hp. cbn in Hp.
      replace p with 0 by lia. left.
    + rewrite length_replicate. cbn [producers ops bench_body r]. unfold total.
      rewrite (proj1 ops_eq). lia.
Defined.

End BenchMain.

(** ** The price index benchmarks *)

Module IndexMain.
Import PriceIndex BenchIndex BenchMain.

(** The index designs; the tree and the flat vector are given a constructor
    that takes a capacity and ignores it. *)
Inductive index_kind := LadderIndexVariant | TreeIndexAdapter | FlatIndexAdapter.

Definition tree_adapter (capacity_hint : Z) : gset Z := ∅.
Definition flat_adapter (capacity_hint : Z) : FlatIndex := mkFlat [].

(** All are timed in microseconds. *)
Record index_registration := mkIndexReg {
  kind : index_kind; depth : nat; index_name : text; index_iterations : nat }.

Definition JANE_PRICE_INDEX_BENCHMARK (DEPTH : N) : list index_registration :=
  [mkIndexReg LadderIndexVariant (N.to_nat DEPTH)
     (lit "PriceIndex/ladder_bitmap/depth" ++ stringize DEPTH) 200;
   mkIndexReg TreeIndexAdapter (N.to_nat DEPTH)
     (lit "PriceIndex/tree_stdset/depth" ++ stringize DEPTH) 200;
   mkIndexReg FlatIndexAdapter (N.to_nat DEPTH)
     (lit "PriceIndex/flat_sorted_vector/depth" ++ stringize DEPTH) 200].

Definition registered_indexes : list index_registration :=
  JANE_PRICE_INDEX_BENCHMARK 20 ++ JANE_PRICE_INDEX_BENCHMARK 2000.

(** The best prices the churn steps of an iteration see. *)
Definition index_iteration {G : Type} `{!Random G} (r : index_registration) : option (list (option Z)) :=
  match kind r with
  | LadderIndexVariant => fst <$> run_churn_benchmark (depth r) (ladder_create (Z.to_nat kRange))
  | TreeIndexAdapter => fst <$> run_churn_benchmark (depth r) (tree_adapter kRange)
  | FlatIndexAdapter => fst <$> run_churn_benchmark (depth r) (flat_adapter kRange)
  end.

(** Benchmarks of the same depth do the same work, and none fails. *)
Lemma indexes_comparable {G : Type} `{!Random G, !RandomLaws G} r r' :
  depth r = depth r' → is_Some (index_iteration r) ∧ index_iteration r = index_iteration r'.
Proof.
  intros Hd. unfold index_iteration. rewrite <- Hd. clear Hd.
  destruct (backends_same_work (depth r)) as (bests&l&t&f&E1&E2&E3).
  unfold tree_adapter, flat_adapter. rewrite E1, E2, E3.
  by destruct (kind r), (kind r').
Qed.

(** The designs are measured pairwise at each depth, under different names. *)
Lemma registered_indexes_names : NoDup (index_name <$> registered_indexes).
Proof. apply (bool_decide_unpack _). vm_compute. exact I. Qed.

End IndexMain.
