(* ===== verification/BookView.v ===== *)
(** * The book viewer (src/apps/bookview/main.cpp)

    A session of synthetic orders through the replay engine, shown as frames
    on the terminal and recorded as a JSON array.  Text is what the program
    writes; [sleep_for] has no other effect and is left out.  What the
    program cannot survive is a [fault]: an option it does not know (exit
    status 2), an uncaught exception of [std::stoi] or [std::stoull], and the
    two operations of the loop that are undefined for some options. *)

From S2P Require Import Prelude Types Level HashMap OrderBook Matching Risk Protocol Sinks.
From S2P Require Import Publisher Text Clock Replay Double Generator.
From Stdlib Require Import Ascii String SpecFloat.
From stdpp Require Import base tactics numbers list.

Set Default Goal Selector "!".

Module BookView.
Import Text OrderBook Matching Protocol Replay.

Inductive fault :=
  | Unrecognized (arg : text)
  | Uncaught (e : conversion_error)
  | DivideByZero
  | SignedOverflow.

(** ** Options *)

Record Args := mkArgs {
  seed : Z;
  orders : Z;
  depth : Z;
  interval : Z;
  sleep_ms : Z;
  record_json_path : text;
  quiet : bool;
}.

Definition default_args : Args := mkArgs 42 5000 8 5 40 [] false.

Definition set_seed (n : Z) (a : Args) : Args :=
  mkArgs n (orders a) (depth a) (interval a) (sleep_ms a) (record_json_path a) (quiet a).
Definition set_orders (n : Z) (a : Args) : Args :=
  mkArgs (seed a) n (depth a) (interval a) (sleep_ms a) (record_json_path a) (quiet a).
Definition set_depth (n : Z) (a : Args) : Args :=
  mkArgs (seed a) (orders a) n (interval a) (sleep_ms a) (record_json_path a) (quiet a).
Definition set_interval (n : Z) (a : Args) : Args :=
  mkArgs (seed a) (orders a) (depth a) n (sleep_ms a) (record_json_path a) (quiet a).
Definition set_sleep_ms (n : Z) (a : Args) : Args :=
  mkArgs (seed a) (orders a) (depth a) (interval a) n (record_json_path a) (quiet a).
Definition set_record_json_path (p : text) (a : Args) : Args :=
  mkArgs (seed a) (orders a) (depth a) (interval a) (sleep_ms a) p (quiet a).
Definition set_quiet (q : bool) (a : Args) : Args :=
  mkArgs (seed a) (orders a) (depth a) (interval a) (sleep_ms a) (record_json_path a) q.

(** [starts_with] and [value_after]: what follows the prefix. *)
Fixpoint value_after (prefix arg : text) : option text :=
  match prefix, arg with
  | [], _ => Some arg
  | c :: prefix, d :: arg => if Ascii.eqb c d then value_after prefix arg else None
  | _ :: _, [] => None
  end.

Definition converted (r : conversion_error + Z) (set : Z → Args → Args) (args : Args)
    : fault + Args :=
  match r with inl e => inl (Uncaught e) | inr n => inr (set n args) end.

Definition parse_arg (args : Args) (arg : text) : fault + Args :=
  match value_after (lit "--seed=") arg with
  | Some v => converted (stoull v) set_seed args
  | None =>
  match value_after (lit "--orders=") arg with
  | Some v => converted (stoi v) set_orders args
  | None =>
  match value_after (lit "--depth=") arg with
  | Some v => converted (stoi v) set_depth args
  | None =>
  match value_after (lit "--interval=") arg with
  | Some v => converted (stoi v) set_interval args
  | None =>
  match value_after (lit "--sleep-ms=") arg with
  | Some v => converted (stoi v) set_sleep_ms args
  | None =>
  match value_after (lit "--record-json=") arg with
  | Some v => inr (set_record_json_path v args)
  | None =>
      if bool_decide (arg = lit "--quiet") then inr (set_quiet true args)
      else inl (Unrecognized arg)
  end end end end end end.

Fixpoint parse_loop (args : Args) (argv : list text) : fault + Args :=
  match argv with
  | [] => inr args
  | arg :: argv =>
      match parse_arg args arg with
      | inl f => inl f
      | inr args => parse_loop args argv
      end
  end.

(** [argv] starts with the program's name. *)
Definition parse_args (argv : list text) : fault + Args := parse_loop default_args (tail argv).

(** ** Frames *)

Definition esc : ascii := "027"%char.
Definition kReset : text := esc :: lit "[0m".
Definition kGreen : text := esc :: lit "[32m".
Definition kRed : text := esc :: lit "[31m".
Definition kBold : text := esc :: lit "[1m".
Definition kDim : text := esc :: lit "[2m".
Definition kClearAndHome : text := esc :: lit "[2J" ++ esc :: lit "[H".
Definition newline : text := ["010"%char].

Record LevelView := mkLevelView { lv_price : Z; lv_qty : Z; lv_count : Z }.
Record TradeView := mkTradeView { tv_price : Z; tv_qty : Z }.

Definition i32 (z : Z) : Z := ((z + 2 ^ 31) mod 2 ^ 32 - 2 ^ 31)%Z.

Definition collect_visitor (depth : Z) (out : list LevelView) (price : Z)
    (lvl : Level.PriceLevel) : list LevelView * bool :=
  let out := out ++ [mkLevelView price (Level.total_quantity lvl) (Level.order_count lvl)] in
  (out, (i32 (Z.of_nat (length out)) <? depth)%Z).

Definition collect_levels {M : Type} `{!HashMap Z nat M} (NumLevels : nat) (b : OrderBook.t M)
    (side : Side) (depth : Z) : list LevelView :=
  for_each_level NumLevels b side (collect_visitor depth) [].

Definition kBarWidth : Z := 24.

Definition bar (bar_scale qty : Z) : text :=
  let filled := i32 (Z.quot (i64 (qty * kBarWidth)) bar_scale) in
  replicate (Z.to_nat (Z.max 0 (Z.min kBarWidth filled))) "#"%char.

(** The text of the format
    [  %8lld  %-24s  qty=%-6lld  n=%u], before and after the array. *)
Definition level_format (bar_scale : Z) (l : LevelView) : text :=
  lit "  " ++ pad_left 8 (to_string (lv_price l)) ++ lit "  " ++
  pad_right 24 (bar bar_scale (lv_qty l)) ++ lit "  qty=" ++
  pad_right 6 (to_string (lv_qty l)) ++ lit "  n=" ++ to_string (lv_count l).

Definition level_line (bar_scale : Z) (colour : text) (l : LevelView) : text :=
  colour ++ snprintf 256 (level_format bar_scale l) ++ kReset ++ newline.

Definition trade_format (t : TradeView) : text :=
  lit "  last trade: " ++ to_string (tv_price t) ++ lit " @ qty " ++ to_string (tv_qty t).

Definition rule_line : text :=
  lit "  --------------------------------------------------------------" ++ newline.

Definition render_frame (order_index total_orders : Z) (bids asks : list LevelView)
    (last_trade : option TradeView) (max_qty_seen : Z) : text :=
  let bar_scale := Z.max 1 max_qty_seen in
  kClearAndHome ++ kBold ++ lit "JANE — live order book (synthetic session)" ++ newline ++
  kReset ++ kDim ++
  lit "order " ++ to_string order_index ++ lit " / " ++ to_string total_orders ++
  newline ++ newline ++ kReset ++
  concat (level_line bar_scale kRed <$> rev asks) ++
  kDim ++ rule_line ++
  match last_trade with
  | Some t => snprintf 256 (trade_format t) ++ newline
  | None => []
  end ++
  rule_line ++ kReset ++
  concat (level_line bar_scale kGreen <$> bids).

(** ** JSON *)

Definition quoted (s : text) : text := "034"%char :: s ++ ["034"%char].

Definition level_json (l : LevelView) : text :=
  lit "{" ++ quoted (lit "price") ++ lit ":" ++ to_string (lv_price l) ++
  lit "," ++ quoted (lit "qty") ++ lit ":" ++ to_string (lv_qty l) ++
  lit "," ++ quoted (lit "count") ++ lit ":" ++ to_string (lv_count l) ++ lit "}".

(** The loop of [levels_json]: a comma in front of every element but the
    first. *)
Fixpoint levels_loop (i : nat) (levels : list LevelView) : text :=
  match levels with
  | [] => []
  | l :: levels => (if decide (0 < i) then lit "," else []) ++ level_json l ++ levels_loop (S i) levels
  end.

Definition levels_json (levels : list LevelView) : text :=
  lit "[" ++ levels_loop 0 levels ++ lit "]".

Definition trade_json (t : TradeView) : text :=
  lit "{" ++ quoted (lit "price") ++ lit ":" ++ to_string (tv_price t) ++
  lit "," ++ quoted (lit "qty") ++ lit ":" ++ to_string (tv_qty t) ++ lit "}".

Definition frame_to_json (order_index : Z) (bids asks : list LevelView)
    (last_trade : option TradeView) : text :=
  lit "  {" ++ quoted (lit "order_index") ++ lit ":" ++ to_string order_index ++
  lit "," ++ quoted (lit "bids") ++ lit ":" ++ levels_json bids ++
  lit "," ++ quoted (lit "asks") ++ lit ":" ++ levels_json asks ++
  lit "," ++ quoted (lit "last_trade") ++ lit ":" ++
  match last_trade with Some t => trade_json t | None => lit "null" end ++
  lit "}".

(** The loop of [write_json_array]: a comma behind every frame but the last. *)
Fixpoint frames_loop (frames : list text) : text :=
  match frames with
  | [] => []
  | f :: frames =>
      f ++ (match frames with [] => [] | _ => lit "," end) ++ newline ++ frames_loop frames
  end.

Definition write_json_array (frames : list text) : text :=
  lit "[" ++ newline ++ frames_loop frames ++ lit "]" ++ newline.

(** ** The session *)

Definition kNumLevels : nat := N.to_nat 4096.
Definition kMaxOrders : nat := N.to_nat 200000.
Definition kBasePrice : Z := 8800.

Definition limits : Risk.Limits := Risk.mkLimits 1000000 10000000 (-1000000000000).

Definition generator_config (args : Args) : Generator.SyntheticConfig :=
  Generator.mkConfig (seed args) 1 9000 150 1 100
    (Double.div (Double.of_Z 5) (Double.of_Z 100))
    (Double.div (Double.of_Z 5) (Double.of_Z 10))
    (Double.of_Z 1000).

(** The pool size is a constant of [main]; a parameter here, so that smaller
    sessions can be evaluated. *)
Section session.
Context (MaxOrders : nat).
Context {M R G : Type} `{!HashMap Z nat M} `{!HashMap Z Risk.ClientExposure R} `{!Random G}.

Record viewer := mkViewer {
  pipeline : Replay.t M R InMemorySink.t;
  gen : Generator.t (G := G);
  clock : DeterministicClock.t;
  last_trade : option TradeView;
  max_qty_seen : Z;
  stdout : text;
  json_frames : list text;
}.

Definition engine_book (v : viewer) : OrderBook.t M := book (matching (pipeline v)).

Definition start (args : Args) : viewer :=
  mkViewer
    (Replay.create (Matching.create kNumLevels MaxOrders 1 kBasePrice)
       (Risk.create limits) (Publisher.create InMemorySink.create (N.to_nat 1048576)))
    (Generator.create (generator_config args)) (DeterministicClock.create 0 1)
    None 1 [] [].

Definition recording (args : Args) : bool := negb (bool_decide (record_json_path args = [])).

(** The order part of an iteration: generate, process, and guess whether
    there was a trade. *)
Definition process_one (v : viewer) (i : Z) : viewer :=
  let '(msg, g) := Generator.next_order (gen v) (u64 i) (u32 (1 + Z.rem i 20)) in
  let was_market := (no_order_type msg =? order_type_code Market)%Z in
  let price_before_ask := best_ask (engine_book v) in
  let price_before_bid := best_bid (engine_book v) in
  let '(ts, c) := DeterministicClock.tick (clock v) in
  let p := process_new_order kNumLevels (pipeline v) msg ts in
  let b := book (matching p) in
  let traded := was_market || negb (bool_decide (best_ask b = price_before_ask)) ||
                negb (bool_decide (best_bid b = price_before_bid)) in
  let trade :=
    if traded then
      match level_at kNumLevels b (read_side (no_side msg)) (no_price msg) with
      | Some _ => Some (mkTradeView (no_price msg) (no_quantity msg))
      | None => last_trade v
      end
    else last_trade v in
  mkViewer p g c trade (max_qty_seen v) (stdout v) (json_frames v).

(** The output part of an iteration. *)
Definition show (args : Args) (v : viewer) (i : Z) : viewer :=
  let bids := collect_levels kNumLevels (engine_book v) Buy (depth args) in
  let asks := collect_levels kNumLevels (engine_book v) Sell (depth args) in
  let max_qty := foldl (λ m l, Z.max m (lv_qty l)) (max_qty_seen v) bids in
  let max_qty := foldl (λ m l, Z.max m (lv_qty l)) max_qty asks in
  mkViewer (pipeline v) (gen v) (clock v) (last_trade v) max_qty
    (if quiet args then stdout v
     else stdout v ++ render_frame i (orders args) bids asks (last_trade v) max_qty)
    (if recording args then json_frames v ++ [frame_to_json i bids asks (last_trade v)]
     else json_frames v).

(** The body of the loop for order [i]. *)
Definition iteration (args : Args) (v : viewer) (i : Z) : fault + viewer :=
  let v := process_one v i in
  if (interval args =? 0)%Z then inl DivideByZero
  else if (Z.rem i (interval args) =? 0)%Z || (i =? orders args)%Z
  then inr (show args v i) else inr v.

(** [n] more iterations from [i]; the increment after the last value of
    [int] overflows. *)
Fixpoint loop (args : Args) (n : nat) (v : viewer) (i : Z) : fault + viewer :=
  match n with
  | O => inr v
  | S n =>
      match iteration args v i with
      | inl f => inl f
      | inr v => if (i =? 2 ^ 31 - 1)%Z then inl SignedOverflow else loop args n v (i + 1)
      end
  end.

Record outcome := mkOutcome {
  printed : text;
  recorded : option (text * text);
  errors : text;
}.

(** The output stream of [write_json_array] is taken to open and to write
    everything; the program does not check it. *)
Definition finish (args : Args) (v : viewer) : outcome :=
  if recording args then
    mkOutcome (stdout v) (Some (record_json_path args, write_json_array (json_frames v)))
      (lit "wrote " ++ to_string (Z.of_nat (length (json_frames v))) ++ lit " frames to " ++
       record_json_path args ++ newline)
  else mkOutcome (stdout v) None [].

Definition run_session (argv : list text) : fault + outcome :=
  match parse_args argv with
  | inl f => inl f
  | inr args =>
      match loop args (Z.to_nat (orders args)) (start args) 1 with
      | inl f => inl f
      | inr v => inr (finish args v)
      end
  end.

End session.

Definition main {M R G : Type} `{!HashMap Z nat M} `{!HashMap Z Risk.ClientExposure R}
    `{!Random G} : list text → fault + outcome := run_session kMaxOrders (M := M) (R := R) (G := G).

End BookView.
