(* ===== verification/ViewJson.v ===== *)
(** * The recording of the viewer is JSON

    What src/apps/bookview/main.cpp writes with [--record-json] is read back
    by the reader of Json.v, frame by frame, with every number intact; and
    the options it reads are the options a caller prints. *)

From S2P Require Import Prelude Text Json BookView.
From Stdlib Require Import Ascii String.
From stdpp Require Import base tactics numbers list strings.

Set Default Goal Selector "!".

Module ViewJson.
Import Text Json BookView.

(** ** Frames as JSON values *)

Definition level_value (l : LevelView) : json :=
  JObj [(lit "price", JNum (lv_price l)); (lit "qty", JNum (lv_qty l));
        (lit "count", JNum (lv_count l))].

Definition trade_value (t : option TradeView) : json :=
  match t with
  | None => JNull
  | Some t => JObj [(lit "price", JNum (tv_price t)); (lit "qty", JNum (tv_qty t))]
  end.

Record frame := mkFrame {
  f_index : Z;
  f_bids : list LevelView;
  f_asks : list LevelView;
  f_trade : option TradeView;
}.

Definition frame_text (f : frame) : text :=
  frame_to_json (f_index f) (f_bids f) (f_asks f) (f_trade f).

Definition frame_value (f : frame) : json :=
  JObj [(lit "order_index", JNum (f_index f)); (lit "bids", JArr (level_value <$> f_bids f));
        (lit "asks", JArr (level_value <$> f_asks f)); (lit "last_trade", trade_value (f_trade f))].

(** Two ways to write the same text, up to the nesting of [++]. *)
Ltac text_eq := repeat (progress cbn [app list_ascii_of_string] || rewrite <- app_assoc); reflexivity.

Ltac plain_key := repeat (apply Forall_cons; split; [done|]); apply Forall_nil; done.

Lemma level_reads l : reads (level_json l) (level_value l).
Proof.
  replace (level_json l) with
    ("{"%char :: keyed (lit "price") (to_string (lv_price l) ++ ","%char ::
      keyed (lit "qty") (to_string (lv_qty l) ++ ","%char ::
      keyed (lit "count") (to_string (lv_count l)))) ++ lit "}")
    by (unfold level_json, quoted, keyed; text_eq).
  apply reads_object; [done|].
  repeat (apply members_cons; [plain_key|apply reads_int|]).
  apply members_one; [plain_key|apply reads_int].
Qed.

Lemma levels_elements i l levels :
  reads_elements (level_json l ++ levels_loop (S i) levels) (level_value <$> l :: levels).
Proof.
  revert i l. induction levels as [|l' levels IH]; intros i l.
  - apply elements_one; [by apply Forall_nil|apply level_reads].
  - rewrite fmap_cons. cbn [levels_loop]. rewrite decide_True by lia. cbn [app list_ascii_of_string].
    apply elements_cons; [apply level_reads|apply IH].
Qed.

Lemma levels_reads levels : reads (levels_json levels) (JArr (level_value <$> levels)).
Proof.
  unfold levels_json. destruct levels as [|l levels].
  - apply (reads_empty_array []), Forall_nil. done.
  - cbn [levels_loop]. rewrite decide_False by lia. cbn [app list_ascii_of_string].
    apply reads_array; [done|done|]. apply levels_elements.
Qed.

Lemma trade_reads t :
  reads (match t with Some t => trade_json t | None => lit "null" end) (trade_value t).
Proof.
  destruct t as [t|]; [|apply reads_null].
  replace (trade_json t) with
    ("{"%char :: keyed (lit "price") (to_string (tv_price t) ++ ","%char ::
      keyed (lit "qty") (to_string (tv_qty t))) ++ lit "}")
    by (unfold trade_json, quoted, keyed; text_eq).
  apply reads_object; [done|]. apply members_cons; [plain_key|apply reads_int|].
  apply members_one; [plain_key|apply reads_int].
Qed.

Lemma frame_reads f : reads (frame_text f) (frame_value f).
Proof.
  replace (frame_text f) with
    (lit "  " ++ ("{"%char :: keyed (lit "order_index") (to_string (f_index f) ++ ","%char ::
      keyed (lit "bids") (levels_json (f_bids f) ++ ","%char ::
      keyed (lit "asks") (levels_json (f_asks f) ++ ","%char ::
      keyed (lit "last_trade")
        (match f_trade f with Some t => trade_json t | None => lit "null" end)))) ++ lit "}"))
    by (unfold frame_text, frame_to_json, quoted, keyed; text_eq).
  apply reads_space; [plain_key|]. apply reads_object; [done|].
  apply members_cons; [plain_key|apply reads_int|].
  do 2 (apply members_cons; [plain_key|apply levels_reads|]).
  apply members_one; [plain_key|apply trade_reads].
Qed.

Lemma frames_elements f fs :
  reads_elements (frames_loop (frame_text <$> f :: fs)) (frame_value <$> f :: fs).
Proof.
  revert f. induction fs as [|f' fs IH]; intros f; rewrite !fmap_cons; cbn [frames_loop].
  - cbn [app]. rewrite app_nil_r. apply elements_one; [plain_key|apply frame_reads].
  - change (reads_elements (frame_text f ++ ","%char :: newline ++
      frames_loop (frame_text <$> f' :: fs)) (frame_value f :: (frame_value <$> f' :: fs))).
    apply elements_cons; [apply frame_reads|]. apply elements_space; [plain_key|apply IH].
Qed.

(** What [write_json_array] writes is one JSON array, and its elements are
    the frames with every index, price, quantity and count intact. *)
Lemma array_reads fs :
  parse (write_json_array (frame_text <$> fs)) = Some (JArr (frame_value <$> fs)).
Proof.
  replace (write_json_array (frame_text <$> fs)) with
    (("["%char :: (newline ++ frames_loop (frame_text <$> fs)) ++ lit "]") ++ newline)
    by (unfold write_json_array; text_eq).
  apply parse_reads; [plain_key|]. destruct fs as [|f fs].
  - apply reads_empty_array. plain_key.
  - apply reads_array; [done|done|]. apply elements_space; [plain_key|apply frames_elements].
Qed.

(** ** Options *)

Definition print_args (a : Args) : list text :=
  [lit "--seed=" ++ to_string (seed a); lit "--orders=" ++ to_string (orders a);
   lit "--depth=" ++ to_string (depth a); lit "--interval=" ++ to_string (interval a);
   lit "--sleep-ms=" ++ to_string (sleep_ms a);
   lit "--record-json=" ++ record_json_path a] ++
  if quiet a then [lit "--quiet"] else [].

Definition is_int (n : Z) : Prop := (- 2 ^ 31 ≤ n < 2 ^ 31)%Z.

Definition args_typed (a : Args) : Prop :=
  is_u64 (seed a) ∧ is_int (orders a) ∧ is_int (depth a) ∧ is_int (interval a) ∧
  is_int (sleep_ms a).

(** Options survive the command line: the arguments printed from any options
    are parsed back to them, under any program name. *)
Theorem args_roundtrip prog a :
  args_typed a → parse_args (prog :: print_args a) = inr a.
Proof.
  intros (H1&H2&H3&H4&H5). unfold parse_args, print_args. cbn [tail].
  cbn [parse_loop app]. unfold parse_arg.
  cbn [value_after list_ascii_of_string app Ascii.eqb Bool.eqb andb].
  rewrite stoull_to_string by done. cbn [converted].
  do 4 (rewrite stoi_to_string by done; cbn [converted]).
  by destruct a as [? ? ? ? ? ? []].
Qed.

Lemma args_roundtrip_witness :
  parse_args (lit "bookview" :: print_args (mkArgs 7 100 4 10 0 (lit "out.json") true)) =
    inr (mkArgs 7 100 4 10 0 (lit "out.json") true).
Proof.
  apply (args_roundtrip (lit "bookview") (mkArgs 7 100 4 10 0 (lit "out.json") true)).
  unfold args_typed, is_u64, is_int. cbn. lia.
Defined.

End ViewJson.
