(* ===== verification/ViewProps.v ===== *)
(** * What the viewer shows

    The session of src/apps/bookview/main.cpp always runs to its end, and the
    frames it records are the depth of the real book after as many orders
    as the frame says.  The lines it prints fit its line buffer.  Two
    options make it fail, and what it labels a trade need not be one. *)

From S2P Require Import Prelude Types SlabPool Level HashMap Ladder OrderBook BookSpec Matching.
From S2P Require Import Liquidity Exchange BookProps Engine Risk Wire Protocol Sinks Publisher.
From S2P Require Import Text Json Clock Replay Feed Double Generator BookView ViewJson.
From Stdlib Require Import Ascii String.
From stdpp Require Import base tactics numbers list gmap.

Set Default Goal Selector "!".

Module ViewProps.
Import Text Json OrderBook BookSpec Matching Protocol Publisher Replay BookView ViewJson.

(** ** Levels *)

Definition view_record (r : PriceLevelRecord) : LevelView :=
  mkLevelView (pl_price r) (pl_aggregate_quantity r) (pl_order_count r).

(** The best [depth] levels of a queue, as a snapshot shows them too. *)
Definition view_levels (depth : Z) (q : list Order) : list LevelView :=
  view_record <$> top_levels (Z.to_nat depth) q.

Lemma i32_id z : (- 2 ^ 31 ≤ z < 2 ^ 31)%Z → i32 z = z.
Proof. intros H. unfold i32. rewrite Z.mod_small by lia. lia. Qed.

Lemma collect_visits depth lvls out :
  (Z.of_nat (length out + length lvls) < 2 ^ 31)%Z →
  visit_list (collect_visitor depth) out lvls =
  out ++ take (Nat.max 1 (Z.to_nat depth - length out))
    ((λ '(p, l), view_record (level_record p l)) <$> lvls).
Proof.
  revert out. induction lvls as [|[p l] lvls IH]; intros out Hlen.
  { cbn. by rewrite take_nil, app_nil_r. }
  cbn [visit_list]. unfold collect_visitor at 1. rewrite fmap_cons. cbv zeta.
  cbn [length] in Hlen. rewrite i32_id by (rewrite length_app; cbn [length]; lia).
  rewrite length_app. cbn [length].
  destruct (Z.ltb_spec (Z.of_nat (length out + 1)) depth) as [Hd|Hd].
  - rewrite IH, length_app by (rewrite length_app; cbn [length]; lia). cbn [length].
    replace (Nat.max 1 (Z.to_nat depth - length out))
      with (S (Z.to_nat depth - (length out + 1))) by lia.
    replace (Nat.max 1 (Z.to_nat depth - (length out + 1)))
      with (Z.to_nat depth - (length out + 1)) by lia.
    cbn [take]. by rewrite <- app_assoc.
  - replace (Nat.max 1 (Z.to_nat depth - length out)) with 1 by lia. cbn [take].
    by rewrite take_0.
Qed.

Section levels.
Context (NumLevels MaxOrders : nat) {M : Type} `{!HashMap Z nat M}.

Lemma collect_levels_view (b : OrderBook.t M) F L G Q s depth :
  OrderBook.rep NumLevels MaxOrders b F L G Q → (Z.of_nat NumLevels < 2 ^ 31)%Z →
  collect_levels NumLevels b s depth = view_levels depth (OrderBook.queue NumLevels MaxOrders b s).
Proof.
  intros Hr Hn. unfold collect_levels.
  rewrite (for_each_level_spec _ _ _ _ _ _ _ s _ _ Hr), collect_visits.
  - cbn [length app]. rewrite Nat.sub_0_r. unfold view_levels, top_levels.
    rewrite <- (level_view_group _ _ _ _ _ _ _ _ Hr), fmap_take, <- list_fmap_compose.
    f_equal. apply list_fmap_ext. by intros _ [p l] _.
  - cbn [length]. unfold level_view. rewrite length_fmap. unfold busy.
    pose proof (List.filter_length_le (λ i, bool_decide (Q s i ≠ []))
      (Ladder.prio (is_bid s) NumLevels)) as Hl.
    rewrite Ladder.length_prio in Hl. lia.
Qed.

End levels.

(** ** The session *)

Section session.
Context {M R G : Type} `{!HashMap Z nat M, !HashMapLaws Z nat M}.
Context `{!HashMap Z Risk.ClientExposure R} `{!Random G, !RandomLaws G}.
Implicit Types (v : viewer (M := M) (R := R) (G := G)).

(** The requests the viewer makes: [n] generated orders from number [i] on. *)
Fixpoint flow (n : nat) (g : Generator.t (G := G)) (c : DeterministicClock.t) (i : Z)
    : list request :=
  match n with
  | O => []
  | S n =>
      let '(msg, g) := Generator.next_order g (u64 i) (u32 (1 + Z.rem i 20)) in
      let '(ts, c) := DeterministicClock.tick c in
      ReqNew msg ts :: flow n g c (i + 1)
  end.

Abbreviation market := (Feed.session kNumLevels kMaxOrders 1 kBasePrice limits
  InMemorySink.create (N.to_nat 1048576) (M := M) (R := R)).

Abbreviation ready := (Feed.ready kNumLevels kMaxOrders 1 kBasePrice).

(** An order is shown when its number is a multiple of the interval, or the
    last. *)
Definition shown (a : Args) (i : Z) : bool :=
  (Z.rem i (interval a) =? 0)%Z || (i =? orders a)%Z.

(** The frame shows the depth of the book of [st]. *)
Definition depicts (a : Args) (st : Replay.t M R InMemorySink.t) (f : frame) : Prop :=
  f_bids f = view_levels (depth a)
    (OrderBook.queue kNumLevels kMaxOrders (book (matching st)) Buy) ∧
  f_asks f = view_levels (depth a)
    (OrderBook.queue kNumLevels kMaxOrders (book (matching st)) Sell).

Lemma viewer_config : Engine.config_ok kNumLevels kMaxOrders kBasePrice.
Proof. unfold Engine.config_ok, geometry, is_i64, kNumLevels, kMaxOrders, kBasePrice. lia. Qed.

Lemma one_u32 : is_u32 1.
Proof. unfold is_u32. lia. Qed.

Lemma market_ready : ready market.
Proof.
  exact (Feed.hi_ready _ _ _ _ _ _ _ _
    (Feed.session_history kNumLevels kMaxOrders 1 kBasePrice one_u32 limits
       InMemorySink.create (N.to_nat 1048576) viewer_config eq_refl)).
Qed.

Lemma generator_ok a : Generator.config_ok (generator_config a).
Proof. unfold Generator.config_ok, is_u32, is_i64. cbn. lia. Qed.

(** One order: the pipeline takes the generated request, nothing is shown. *)
Lemma process_one_ok v i :
  ready (pipeline v) → Generator.config_ok (Generator.config (gen v)) →
  let v' := process_one v i in
  ready (pipeline v') ∧ Generator.config_ok (Generator.config (gen v')) ∧
  json_frames v' = json_frames v ∧
  ∃ rq, process kNumLevels (pipeline v) rq = pipeline v' ∧
    ∀ n, flow (S n) (gen v) (clock v) i = rq :: flow n (gen v') (clock v') (i + 1).
Proof.
  intros Hrd Hg. unfold process_one. cbn [flow].
  pose proof (λ ts, Generator.generated_order_ok (gen v) (u64 i) (u32 (1 + Z.rem i 20)) ts Hg
    ltac:(apply u64_range) ltac:(apply u32_range)) as Hgen.
  destruct (Generator.next_order _ _ _) as [msg g].
  destruct (DeterministicClock.tick (clock v)) as [ts c].
  destruct (Hgen ts) as (Hrq&Hcfg&_). cbv zeta. cbn [pipeline gen clock json_frames].
  split; [exact (Feed.process_ready kNumLevels kMaxOrders 1 kBasePrice one_u32 _ (ReqNew msg ts)
    Hrd Hrq)|].
  split; [by rewrite Hcfg|]. split; [done|]. by exists (ReqNew msg ts).
Qed.

(** One iteration, shown or not. *)
Lemma show_frame a v i :
  ready (pipeline v) →
  ∃ f, f_index f = i ∧ depicts a (pipeline v) f ∧
    json_frames (show a v i) = json_frames v ++ (if recording a then [frame_text f] else []).
Proof.
  intros Hrd. destruct (Exchange.eo_book _ _ _ _ _ (Feed.rd_engine _ _ _ _ _ Hrd)) as (F&L&G'&Q&Hr).
  assert (Z.of_nat kNumLevels < 2 ^ 31)%Z as Hn by (unfold kNumLevels; lia).
  unfold show, engine_book. rewrite !(collect_levels_view _ _ _ _ _ _ _ _ _ Hr Hn).
  exists (mkFrame i (view_levels (depth a)
      (OrderBook.queue kNumLevels kMaxOrders (book (matching (pipeline v))) Buy))
    (view_levels (depth a)
      (OrderBook.queue kNumLevels kMaxOrders (book (matching (pipeline v))) Sell)) (last_trade v)).
  split; [done|]. split; [done|]. cbn [json_frames]. destruct (recording a); [done|].
  by rewrite app_nil_r.
Qed.

(** The frame belongs to the book some orders after [st]. *)
Definition frame_of (a : Args) st (rqs : list request) (i : Z) (f : frame) : Prop :=
  (i ≤ f_index f)%Z ∧
  depicts a (run kNumLevels st (take (Z.to_nat (f_index f - i + 1)) rqs)) f.

Lemma frame_of_later a st rq rqs i f :
  frame_of a (process kNumLevels st rq) rqs (i + 1) f → frame_of a st (rq :: rqs) i f.
Proof.
  intros [Hi Hd]. split; [lia|].
  by replace (Z.to_nat (f_index f - i + 1)) with (S (Z.to_nat (f_index f - (i + 1) + 1))) by lia.
Qed.

Lemma loop_frames a n v i :
  interval a ≠ 0%Z → (i + Z.of_nat n < 2 ^ 31)%Z →
  ready (pipeline v) → Generator.config_ok (Generator.config (gen v)) →
  ∃ v' fs, loop a n v i = inr v' ∧
    json_frames v' = json_frames v ++ (if recording a then frame_text <$> fs else []) ∧
    f_index <$> fs = List.filter (shown a) (seqZ i (Z.of_nat n)) ∧
    Forall (frame_of a (pipeline v) (flow n (gen v) (clock v) i) i) fs.
Proof.
  intros Hint. revert v i. induction n as [|n IH]; intros v i Hi Hrd Hg.
  { exists v, []. cbn. by destruct (recording a); rewrite app_nil_r. }
  destruct (process_one_ok v i Hrd Hg) as (Hrd1&Hg1&Hj1&rq&Ep&Efl).
  cbn [loop]. unfold iteration. set (v1 := process_one v i) in *. clearbody v1. rewrite (proj2 (Z.eqb_neq _ _) Hint), Efl. fold (shown a i).
  rewrite seqZ_cons by lia. cbn [List.filter].
  replace (Z.pred (Z.of_nat (S n))) with (Z.of_nat n) by lia. change (Z.succ i) with (i + 1)%Z.
  assert (∀ f, frame_of a (pipeline v1) (flow n (gen v1) (clock v1) (i + 1)) (i + 1) f →
    frame_of a (pipeline v) (rq :: flow n (gen v1) (clock v1) (i + 1)) i f) as Hlater
    by (intros f Hf; apply frame_of_later; by rewrite Ep).
  rewrite (proj2 (Z.eqb_neq i _)) by lia. destruct (shown a i).
  - destruct (show_frame a v1 i Hrd1) as (f&Hf&Hd&Hj).
    destruct (IH (show a v1 i) (i + 1)%Z) as (v'&fs&E&Hjs&Hx&Hall); [lia|done|done|].
    exists v', (f :: fs). rewrite Hjs, Hj, Hj1, !fmap_cons, Hx, Hf. split_and!; try done.
    + destruct (recording a); rewrite <- app_assoc; [done|]. by rewrite !app_nil_r.
    + apply Forall_cons. split; [|by eapply Forall_impl]. split; [lia|].
      rewrite Hf. replace (Z.to_nat (i - i + 1)) with 1 by lia. cbn [take].
      unfold run. cbn [foldl]. by rewrite Ep.
  - destruct (IH v1 (i + 1)%Z) as (v'&fs&E&Hjs&Hx&Hall); [lia|done|done|].
    exists v', fs. rewrite Hjs, Hj1. split; [exact E|]. split; [done|]. split; [exact Hx|].
    by eapply Forall_impl.
Qed.

(** The options make a session: some orders, an interval, a file to write. *)
Definition session_args (a : Args) : Prop :=
  interval a ≠ 0%Z ∧ (0 ≤ orders a < 2 ^ 31 - 1)%Z ∧ record_json_path a ≠ [].

(** C18: the recording is the market: whatever the random draws, the session runs
    to its end, and the file it writes is a JSON array with one frame for
    every multiple of the interval and for the last order, in order, whose
    bids and asks are the best price levels of the book after exactly that
    many generated orders. *)
Theorem recording_is_market argv a :
  parse_args argv = inr a → session_args a →
  ∃ out contents fs, main (M := M) (R := R) (G := G) argv = inr out ∧
    recorded out = Some (record_json_path a, contents) ∧
    parse contents = Some (JArr (frame_value <$> fs)) ∧
    f_index <$> fs = List.filter (shown a) (seqZ 1 (orders a)) ∧
    Forall (λ f, depicts a
      (run kNumLevels market (take (Z.to_nat (f_index f))
        (flow (Z.to_nat (orders a)) (Generator.create (generator_config a))
           (DeterministicClock.create 0 1) 1))) f) fs.
Proof.
  intros Ha (Hint&Hn&Hpath). unfold main, run_session. rewrite Ha.
  destruct (loop_frames a (Z.to_nat (orders a)) (start kMaxOrders a) 1) as (v&fs&E&Hj&Hx&Hall);
    [done|lia|apply market_ready|apply generator_ok|].
  rewrite E. unfold finish.
  assert (recording a = true) as Hrec by (unfold recording; by rewrite bool_decide_eq_false_2).
  rewrite Hrec in *. exists (finish a v), (write_json_array (frame_text <$> fs)), fs.
  unfold finish. rewrite Hrec, Hj. split; [done|]. split; [done|]. split; [apply array_reads|].
  rewrite Z2Nat.id in Hx by lia. split; [done|]. eapply Forall_impl; [done|].
  intros f [Hi Hd].
  by replace (Z.to_nat (f_index f - 1 + 1)) with (Z.to_nat (f_index f)) in Hd by lia.
Qed.

(** An interval of 0 is not rejected: as soon as there is an order, the
    session divides by it. *)
Lemma zero_interval argv a :
  parse_args argv = inr a → interval a = 0%Z → (1 ≤ orders a)%Z →
  main (M := M) (R := R) (G := G) argv = inl DivideByZero.
Proof.
  intros Ha Hint Hn. unfold main, run_session. rewrite Ha.
  destruct (Z.to_nat (orders a)) as [|n] eqn:E; [lia|]. cbn [loop]. unfold iteration.
  by rewrite Hint.
Qed.

End session.
(** ** Lines *)

(** Every line fits the array it is formatted in, and the bar of a level is
    its share of the largest quantity seen, in 24ths, as long as the
    multiplication stays in [int64_t]. *)
Theorem level_line_exact max_qty colour l :
  is_i64 (lv_price l) → is_u32 (lv_count l) → (0 ≤ lv_qty l ≤ max_qty)%Z →
  (1 ≤ max_qty)%Z → (max_qty * kBarWidth < 2 ^ 63)%Z →
  level_line max_qty colour l = colour ++ level_format max_qty l ++ kReset ++ newline ∧
  bar max_qty (lv_qty l) = replicate (Z.to_nat (lv_qty l * kBarWidth / max_qty)) "#"%char ∧
  length (bar max_qty (lv_qty l)) ≤ 24.
Proof.
  intros Hp Hc Hq Hm Hw. unfold kBarWidth in *.
  assert (0 ≤ lv_qty l * 24 / max_qty ≤ 24)%Z as Hd.
  { split; [apply Z.div_pos; lia|]. apply Z.div_le_upper_bound; lia. }
  assert (bar max_qty (lv_qty l) = replicate (Z.to_nat (lv_qty l * 24 / max_qty)) "#"%char) as Hb.
  { unfold bar, kBarWidth. rewrite i64_id by (unfold is_i64; lia).
    rewrite Z.quot_div_nonneg, i32_id by lia. do 2 f_equal. lia. }
  assert (length (bar max_qty (lv_qty l)) ≤ 24) as Hl by (rewrite Hb, length_replicate; lia).
  split_and!; [|done|done]. unfold level_line. rewrite snprintf_fits; [done|].
  unfold level_format. rewrite !length_app, pad_left_length, !pad_right_length.
  pose proof (to_string_i64 _ Hp). pose proof (to_string_u32 _ Hc).
  pose proof (to_string_i64 (lv_qty l) ltac:(unfold is_i64; lia)). cbn [length list_ascii_of_string].
  lia.
Qed.

Lemma level_line_exact_witness :
  level_line 100 kGreen (mkLevelView 9000 50 2) =
    kGreen ++ level_format 100 (mkLevelView 9000 50 2) ++ kReset ++ newline.
Proof.
  apply (level_line_exact 100 kGreen (mkLevelView 9000 50 2)); unfold is_i64, is_u32, kBarWidth;
    cbn; lia.
Defined.

(** ** Concrete sessions *)

#[local] Existing Instances Generator.counter_random Generator.counter_random_laws.

Definition demo_argv : list text :=
  [lit "bookview"; lit "--orders=3"; lit "--interval=2"; lit "--record-json=f"].

Definition demo_view : Args := mkArgs 42 3 8 2 40 (lit "f") false.

Lemma recording_is_market_witness :
  ∃ out fs, main (M := gmap Z nat) (R := gmap Z Risk.ClientExposure) (G := Z) demo_argv = inr out ∧
    recorded out ≠ None ∧ f_index <$> fs = [2; 3]%Z.
Proof.
  destruct (recording_is_market (M := gmap Z nat) (R := gmap Z Risk.ClientExposure) (G := Z)
    demo_argv demo_view) as (out&c&fs&E&Hr&_&Hx&_).
  - vm_compute. reflexivity.
  - split; [done|]. split; [cbn; lia|done].
  - exists out, fs. split; [exact E|]. split; [by rewrite Hr|]. exact Hx.
Defined.

Definition demo_start : viewer (M := gmap Z nat) (R := gmap Z Risk.ClientExposure) (G := Z) :=
  start 16 demo_view.

(** What is labelled the last trade need not be one: the first order of this
    session (with a pool of 16 orders) finds an empty book and rests, nothing trades, and the viewer
    reports it as a trade because the touch moved. *)
Theorem phantom_trade :
  let v := process_one demo_start 1 in
  last_trade v ≠ None ∧
  omap Feed.event_print (read_feed (sink_data (sink (feed (pipeline v))))) = [].
Proof. vm_compute. split; [discriminate|reflexivity]. Qed.

End ViewProps.
